(* ===== verification/_CoqProject ===== *)
-Q . S2P
Prelude.v
Assertions.v
Placeholders.v
HkvError.v
Shard.v
ShardInv.v
ShardOps.v
ShardClaims.v
Engine.v
LockedOps.v
KVEngine.v
EngineInv.v
EngineSpec.v
Eviction.v
EngineTheorems.v
Accounting.v
LruCache.v
Concurrent.v
ConcurrentSteps.v
ConcurrentMoves.v
ConcurrentInv.v
ConcurrentKeep.v
ConcurrentBudget.v
ConcurrentHistory.v
ConcurrentEvict.v
ConcurrentLive.v
ConcurrentAlone.v
ConcurrentClaims.v
EngineClaims.v
EngineTests.v
Decimal.v
Utf8.v
RespParser.v
RespParserInv.v
ClientResp.v
ClientRespInv.v
Metrics.v
MetricsClaims.v
Bench.v
BenchClaims.v
Server.v
ServerSpec.v
ServerConn.v
ServerSession.v
RespClaims.v
ServerClaims.v
ServerTasks.v
ServerTasksAlone.v
ServerTasksMetrics.v
ServerTasksIsolated.v
ServerTasksSessions.v
ServerTasksInfo.v
ServerTasksClaims.v
Types.v
ServerTypes.v
TypesClaims.v
ClientPool.v
PoolClaims.v
EndToEnd.v
EndToEndShared.v
EndToEndOrder.v
EndToEndClaims.v
CommonTypes.v
CommonProtocol.v
CommonClaims.v
Texts.v
TextClaims.v
CommonTests.v
CodecTests.v
TestClaims.v
