(* ===== verification/Prelude.v ===== *)
(** * HybridKV: verification development (root)

    ** The program

    HybridKV is a Redis-compatible key-value store in Rust.  Its crates and how
    they interact:

    - [hkv-engine]: the storage engine.  [MemoryEngine] is an array of shards, each
      behind a lock; a shard ([ShardInner]) is a hash map from keys to slots of a
      node arena with a free list, threaded by an intrusive LRU list.  Expired
      entries are dropped lazily by the operations and in bulk by [purge_expired];
      a byte budget is enforced by evicting from the shards in round-robin order.
      Any number of threads may call it; a background thread may sweep it.  The
      trait [KVEngine] is its interface.  A benchmark drives it with generated keys.
    - [hkv-server]: one task per connection reads RESP2 into a buffer, parses
      commands incrementally, dispatches them to the engine and writes the
      responses, recording counters and a latency histogram.
    - [hkv-client]: encodes commands, reads responses, and borrows its connections
      from a bounded pool.
    - [hkv-common]: error codes, bounded keys and values, expiry stamps, entry
      metadata, and the [repr(C)] messages of the planned kernel interface.

    ** Files

    Definitions that translate code, and the source they translate:

    - [Prelude]: bytes, machine integers, panics and results, the state monad with
      its weakest-precondition predicate [runs], tactics [mstep]/[msteps] and
      [case_all], the hint databases [hkv];
    - [HkvError]: hkv-common/src/error.rs;
    - [Shard]: hkv-engine/src/memory.rs, [Node] and [ShardInner];
    - [Engine]: hkv-engine/src/memory.rs, [MemoryEngine]; each operation is a
      critical section on one shard ([get_locked], ...) under [lock_for], as in the
      code; [set] is followed by [evict_if_needed];
    - [Concurrent]: the same file under concurrency: threads that call one engine,
      the loop of [start_expirer] and [ExpirationHandle::stop] among them, one
      access to shared state at a time;
    - [Bench]: hkv-engine/src/bin/bench_engine.rs, options, workload generator, the
      phases of the run, what it prints, its exit status;
    - [KVEngine]: hkv-engine/src/engine.rs, the trait as a class, and its contract
      [KVEngineLaws] against a finite map from keys to values with deadlines;
    - [Decimal]: the decimal conversions of the two RESP2 codecs;
    - [RespParser]: hkv-server/src/protocol.rs;
    - [Metrics]: hkv-server/src/metrics.rs, floating point as the Standard
      Library's [SpecFloat] at binary64;
    - [Server]: hkv-server/src/server.rs, dispatch and the connection loop, over
      any engine of the class;
    - [ServerTasks]: hkv-server/src/main.rs: set-up, the accept loop, and the
      connections as tasks over one engine and one [Metrics];
    - [ClientResp]: hkv-client/src/resp.rs;
    - [ClientPool]: hkv-client/src/pool.rs (opening a connection, the pool, one
      exchange) and client.rs (creating a client, its calls);
    - [CommonTypes]: hkv-common/src/types.rs;
    - [CommonProtocol]: hkv-common/src/ioctl.rs and protocol.rs;
    - [Utf8], [Texts]: the standard library's lossy UTF-8 conversion, and the [Display]
      and [Debug] texts of keys, values, entries, commands and client errors;
    - [Assertions], [EngineTests], [CommonTests], [CodecTests]: the unit tests of the
      crates as programs in which a failed assertion is a panic;
    - [Placeholders]: hkv-kernel, hkv-gui and hkv-bench.

    Specifications and lemmas:

    - [ShardInv], [ShardOps]: the shard invariant, and every method of the shard as
      an operation on the list of entries from least to most recently used;
    - [LockedOps], [EngineInv], [EngineSpec]: the critical sections and the five
      operations against that list and against the abstract map;
    - [Eviction]: eviction as a step relation; engine construction;
    - [EngineTheorems], [Accounting]: whole executions, the instance of
      [KVEngineLaws] for [MemoryEngine], the byte accounting; [LruCache]: an engine of
      one shard as a list of entries cut to the longest suffix that fits;
    - [ConcurrentSteps], [ConcurrentMoves]: the steps of a thread as a relation of
      ten rules; [ConcurrentInv], [ConcurrentKeep]: the invariant of the machine (the
      counter is the content plus what is in flight, a thread's budget of bytes and
      counter operations) and that every rule keeps it; [ConcurrentBudget]: the byte
      limit; [ConcurrentHistory]: the history as an execution of the abstract store;
      [ConcurrentEvict]: the bytes evicted, against those written; [ConcurrentLive]: no deadlock, a measure that decreases; [ConcurrentAlone]: a
      thread alone does what the definitions of [Engine] do;
    - [Types], [ServerTypes]: the ranges of the Rust types as predicates, and that
      every operation keeps them, panics included;
    - [RespParserInv], [ClientRespInv]: the grammar of commands, resumption after
      partial input, the wire form of responses, termination;
    - [ServerSpec], [ServerConn], [ServerSession]: dispatch on an engine mirrors
      dispatch on the abstract store; chunking; sessions of commands;
    - [ServerTasksAlone]: the single steps of a task, undisturbed, against the
      definitions of [Server]; [ServerTasksMetrics]: the invariant of the shared
      metrics; [ServerTasksIsolated]: connections that share no keys;
      [ServerTasksSessions]: which calls the text of a session leads to;
      [ServerTasksInfo]: the counters only rise, and what the loads of a snapshot see of
      them;
    - [EndToEnd]: client calls through a server connection; [EndToEndShared]: several
      clients whose connections are tasks of one process; [EndToEndOrder]: clients that
      share keys, against a replay of their calls and of the sweeps on the abstract
      store.

    The theorems this development vouches for are in the files named [*Claims]:

    - [ShardClaims], [EngineClaims]: the engine implements the abstract store on
      every sequence of calls, for any number of shards that fit the address space,
      hash function and map order, and panics exactly where a deadline leaves the
      clock's range; the byte counter is exact and the budget holds; what
      is evicted, in which order; with one shard the engine is an LRU cache, with two
      a key can be evicted by its own [set] although it fits; deadlines; purging;
      shard selection;
    - [ConcurrentClaims]: under every interleaving the byte limit and the counter are
      right whenever no call is in progress, what is evicted is bounded by what is
      written in excess of the limit, operations take effect one at a time,
      nothing deadlocks and all calls return once the expirer is stopped; a call that
      is not disturbed is the operation of [Engine];
    - [BenchClaims]: the generator is a permutation, when the keys are distinct, and
      what the benchmark reads, leaves behind and prints;
    - [TypesClaims]: values stay in the ranges of their types, in the engine and
      along a connection;
    - [RespClaims]: the parser accepts exactly the grammar of commands, resumes
      after partial input, and inverts the client's encoder; the client reads back
      every response but the smallest integer; lengths near the word size make either
      side panic;
    - [MetricsClaims]: what the histogram counts, in what sense a percentile is an
      estimate, and [update_max] under interleaving;
    - [ServerClaims]: the meaning of the commands; the response stream does not
      depend on how the network cuts the input; pipelined sessions; what the
      metrics count, and where they leak;
    - [ServerTasksClaims]: a task that is not disturbed is the connection loop of
      [Server]; shared metrics lose no update; the counters INFO shows lie between
      their values at its dispatch and at its response; sessions on keys of their own
      get the replies they would get alone, unless a sweep has read a clock ahead of a
      later call; and examples of what interleaving does make visible;
    - [PoolClaims]: the pool's bound and accounting under any interleaving, the
      effect of a call on the pool on every branch, what a client with a wrong
      configuration does;
    - [EndToEndClaims]: a client sees the abstract store through the wire, alone and
      among other clients of the same process; the calls of clients that share keys
      take effect one at a time, between the sweeps;
    - [CommonClaims]: error codes, bounded buffers, equality of keys, expiry stamps,
      flags, command numbers, [repr(C)] sizes and offsets;
    - [TextClaims]: displayed texts are valid UTF-8 and show the content;
    - [TestClaims]: the unit tests pass, for every hash function, map order, profile and
      clock that moves on while a test sleeps.

    ** Conventions

    A panic is a value ([Panic]) and keeps the state reached, so that a theorem can
    say what a panic leaves behind.  Build profiles differ where the code's
    arithmetic does ([Debug] panics on overflow, [Release] wraps).  [usize] has 64
    bits.  An [Instant] is a number of nanoseconds with the range of the 64-bit
    timespec of the target; [now] is an argument of every operation that reads the
    clock, and an operation that reads it several times takes a sequence.

    Loops that are not structural carry fuel, and the value [OutOfFuel] is proved
    unreachable: [parse] has one round more than the buffer has bytes (every round
    that continues consumes input); [drain] likewise (every command consumes
    input); [read_response] one level more than there are bytes to come (a value
    takes at least two); [evict_if_needed] one round more than there are entries
    (every round removes one); the digit loops have the width of their buffer; the
    UTF-8 conversions have one round per byte (every round consumes one), and the
    hexadecimal text of a character has at most six digits.

    Under concurrency a machine is an engine, a stop flag and a list of threads; a
    schedule is a list of thread numbers, and a step is one access to shared state.
    Taking a lock performs the work of the critical section on the shard, which no
    other thread can see before the lock is released; the section's operations on
    the shared byte counter ([lk_ops], recorded by the sequential definitions) are
    steps of their own while the lock is held.  Accesses are sequentially consistent:
    the code's counters are relaxed atomics, each a single location that is only
    read, added to and subtracted from.  There is at most one expirer, with the one
    call of [stop] its handle allows.  Schedules are any lists, so no fairness is
    assumed.

    In the server process the steps are those of the tasks: a call on the engine, one
    atomic access to the metrics (each load of a snapshot included), one read or
    write of a socket.  An engine call is a single step there: [Concurrent] shows that
    operations take effect one at a time.  The handlers are polymorphic in the monad
    of their engine calls ([EngineCalls]): run on an engine, or, as a [prog], with the
    calls still to be made.  The expirer sweeps one shard at any time ([Sweeper]; what
    the tasks rely on is [SweeperLaws]).  A sweep and a call may take effect in either
    order whatever clock they have read, since the code reads the clock before it takes
    the lock: [replays] keeps the sweeps in the order of the history, and the theorems
    that compare a connection with one that is alone assume [chronological] (no sweep
    has read a clock ahead of a call that takes effect after it).  The retry loop of [update_max] is one step
    there; [MetricsClaims] has its interleaving.  A task may go on after [main] has
    returned an error, which is more than the runtime allows.

    Code that is not in the repository is a class whose laws are its documented
    behaviour: [EngineEnv] (the hash function, an iteration order of a
    [HashMap] that lists its values, and the size of a shard, which bounds how many fit
    the address space), [BytesMut] (the buffer of the [bytes] crate),
    [FloatFormat], [FloatText] and [FixedPoint] (the text of a float), [RespLayout] and
    [ConnLayout] (the sizes of a response value and of a connection), [UnicodeTables]
    (which characters [{:?}] escapes), [IoErrorText] (the text of an I/O error).
    [KVEngineTypes] is the interface through which the connection's typing uses an
    engine.  The network is an oracle: the chunks a connection reads
    ([handle_connection]'s argument), [World] (clock readings and write failures),
    [SocketEnv] (address, connect and socket options) and [NetEnv] (write and read
    results).

    ** Not modelled

    The scheduling and cancellation of the tokio runtime, beyond the interleaving of
    its tasks; the [{:#?}] form and the derived [Debug] texts; the integration tests
    under tests/, which start processes and sockets.  Exhaustion of memory or of the call
    stack, which ends the process, is outside the model; a [Vec] whose capacity does not
    fit the address space is a panic. *)

From stdpp Require Export base numbers list option gmap strings.
From Stdlib Require Export ZArith Lia.

#[global] Open Scope Z_scope.
#[export] Set Warnings "-clear-no-such-hyp".

(** ** Bytes and byte strings

    A Rust [u8] is a [Z]; a [&[u8]], [Vec<u8>], [Arc<[u8]>] or [BytesMut] is
    the list of its bytes.  Byte-string literals of the source are written
    [bs "..."]. *)

Abbreviation bytes := (list Z).

(** [b"..."]: the bytes of an ASCII literal. *)
Definition bs (s : string) : bytes :=
  (fun c => Z.of_nat (Ascii.nat_of_ascii c)) <$> String.list_ascii_of_string s.

Definition CR : Z := 13.
Definition LF : Z := 10.
Definition crlf : bytes := [CR; LF].

(** The length of a slice or vector, as a [usize]. *)
Definition zlen {A} (l : list A) : Z := Z.of_nat (length l).

(** ** Machine integers

    [usize] is 64 bits wide (the layouts of [hkv-common] fix a 64-bit
    target).  Values are kept in range by the operations below; wrap-around
    and saturation are explicit. *)

Definition U8_MAX : Z := 255.
Definition U16_MAX : Z := 65535.
Definition U64_MAX : Z := 18446744073709551615.
Definition USIZE_MAX : Z := 18446744073709551615.
Definition I64_MAX : Z := 9223372036854775807.
Definition ISIZE_MAX : Z := 9223372036854775807.

(** Two's complement wrap-around at 64 bits: what [wrapping_add] and the
    atomics' [fetch_add]/[fetch_sub] do, always, and what [+]/[-] do in a
    release build. *)
Definition wrap64 (x : Z) : Z := x mod 18446744073709551616.

Definition wrapping_add (a b : Z) : Z := wrap64 (a + b).
Definition wrapping_sub (a b : Z) : Z := wrap64 (a - b).

(** [saturating_add] / [saturating_mul] on non-negative operands, at the type
    whose largest value is [m]. *)
Definition saturating_add (m a b : Z) : Z := Z.min m (a + b).
Definition saturating_mul (m a b : Z) : Z := Z.min m (a * b).

(** ** Outcomes

    A Rust computation returns, panics, or (for the fuel-indexed loops of this
    model) is cut off.  [OutOfFuel] stands for a loop that has not finished;
    the theorems prove [Ret], so that termination is part of each of them. *)

Inductive outcome (A : Type) : Type :=
| Ret (a : A)
| Panic
| OutOfFuel.
Arguments Ret {A} a.
Arguments Panic {A}.
Arguments OutOfFuel {A}.

(** Rust's [Result<T, E>]. *)
Inductive result (A E : Type) : Type :=
| Ok (a : A)
| Err (e : E).
Arguments Ok {A E} a.
Arguments Err {A E} e.

#[global] Instance outcome_ret : MRet outcome := fun A a => Ret a.
#[global] Instance outcome_bind : MBind outcome := fun A B f o =>
  match o with
  | Ret a => f a
  | Panic => Panic
  | OutOfFuel => OutOfFuel
  end.

#[global] Instance outcome_eq_dec {A} `{EqDecision A} : EqDecision (outcome A).
Proof. solve_decision. Defined.
#[global] Instance result_eq_dec {A E} `{EqDecision A} `{EqDecision E} :
  EqDecision (result A E).
Proof. solve_decision. Defined.

(** The build profile decides what an overflowing [+] or [-] does: [cargo
    build] panics, [cargo build --release] wraps around. *)
Inductive profile := Debug | Release.

Definition usize_add (p : profile) (a b : Z) : outcome Z :=
  if a + b <=? USIZE_MAX then Ret (a + b)
  else match p with Debug => Panic | Release => Ret (wrap64 (a + b)) end.

Definition usize_sub (p : profile) (a b : Z) : outcome Z :=
  if b <=? a then Ret (a - b)
  else match p with Debug => Panic | Release => Ret (wrap64 (a - b)) end.

(** ** The state-and-panic monad

    [M S A]: a computation over a mutable state [S] that returns an [A],
    panics, or is cut off.  The state at the moment of a panic is kept: locks
    are released during unwinding and the data stays shared. *)

Definition M (S A : Type) : Type := S -> outcome A * S.

#[global] Instance M_ret {S} : MRet (M S) := fun A a s => (Ret a, s).
#[global] Instance M_bind {S} : MBind (M S) := fun A B f m s =>
  match m s with
  | (Ret a, s') => f a s'
  | (Panic, s') => (Panic, s')
  | (OutOfFuel, s') => (OutOfFuel, s')
  end.

Section monad_operations.
Context {S : Type}.

Definition gets {A} (f : S -> A) : M S A := fun s => (Ret (f s), s).
Definition modify (f : S -> S) : M S unit := fun s => (Ret tt, f s).
Definition lift {A} (o : outcome A) : M S A := fun s => (o, s).
Definition panic {A} : M S A := fun s => (Panic, s).
Definition out_of_fuel {A} : M S A := fun s => (OutOfFuel, s).

(** [Option::expect]. *)
Definition expect {A} (o : option A) : M S A :=
  match o with Some a => mret a | None => panic end.

(** Total correctness: [m] started in [s] returns (no panic, no cut-off) with
    a value and a state in [Q]. *)
Definition runs {A} (m : M S A) (s : S) (Q : A -> S -> Prop) : Prop :=
  match m s with
  | (Ret a, s') => Q a s'
  | _ => False
  end.

End monad_operations.

(** Runs [m] on a part of the state, read with [g] and written back with
    [put]. *)
Definition zoom {S T A} (g : S -> T) (put : T -> S -> S) (m : M T A) : M S A :=
  fun s => let '(o, t) := m (g s) in (o, put t s).

(** ** Sums *)

Abbreviation zsum := (foldr Z.add 0).

(** ** Vectors *)

(** [Vec::pop]: the last element and the rest. *)
Definition vec_pop {A} (l : list A) : option (A * list A) :=
  match reverse l with
  | [] => None
  | x :: r => Some (x, reverse r)
  end.

(** ** Automation *)

Create HintDb hkv discriminated.
Create Rewrite HintDb hkv.

(** Case analysis on every [match] of the goal, keeping the equations. *)
Ltac case_all := repeat (case_match; simplify_eq/=).

Section monad_lemmas.
Context {S : Type}.
Implicit Types s : S.

Lemma runs_intro {A} (m : M S A) s a s' (Q : A -> S -> Prop) :
  m s = (Ret a, s') -> Q a s' -> runs m s Q.
Proof. intros E H. unfold runs. by rewrite E. Qed.

Lemma runs_inv {A} (m : M S A) s (Q : A -> S -> Prop) :
  runs m s Q -> exists a s', m s = (Ret a, s') /\ Q a s'.
Proof.
  unfold runs. destruct (m s) as [[a| |] s'] eqn:E; intros H; try done; eauto.
Qed.

Lemma runs_ret {A} (a : A) s (Q : A -> S -> Prop) : Q a s -> runs (mret a) s Q.
Proof. done. Qed.

Lemma runs_bind {A B} (m : M S A) (f : A -> M S B) s (Q : B -> S -> Prop) :
  runs m s (fun a s' => runs (f a) s' Q) -> runs (m ≫= f) s Q.
Proof.
  intros (a & s' & E & H)%runs_inv. unfold runs, mbind, M_bind. by rewrite E.
Qed.

Lemma runs_mono {A} (m : M S A) s (Q Q' : A -> S -> Prop) :
  runs m s Q -> (forall a s', Q a s' -> Q' a s') -> runs m s Q'.
Proof. intros (a & s' & E & H)%runs_inv HQ. eapply runs_intro; eauto. Qed.

Lemma runs_and {A} (m : M S A) s (Q Q' : A -> S -> Prop) :
  runs m s Q -> runs m s Q' -> runs m s (fun a s' => Q a s' /\ Q' a s').
Proof. unfold runs. destruct (m s) as [[a| |] s']; tauto. Qed.

Lemma runs_gets {A} (f : S -> A) s (Q : A -> S -> Prop) : Q (f s) s -> runs (gets f) s Q.
Proof. done. Qed.

Lemma runs_modify (f : S -> S) s (Q : unit -> S -> Prop) : Q tt (f s) -> runs (modify f) s Q.
Proof. done. Qed.

Lemma runs_expect {A} (a : A) s (Q : A -> S -> Prop) : Q a s -> runs (expect (Some a)) s Q.
Proof. done. Qed.

Lemma bind_run {A B} (m : M S A) (f : A -> M S B) s a s' :
  m s = (Ret a, s') -> (m ≫= f) s = f a s'.
Proof. intros E. unfold mbind, M_bind. by rewrite E. Qed.

End monad_lemmas.

#[export] Hint Resolve runs_ret runs_gets runs_modify runs_expect : hkv.

(** One step of symbolic execution of a monadic program. *)
Ltac mstep :=
  lazymatch goal with
  | |- runs (_ ≫= _) _ _ => apply runs_bind
  | |- runs (mret _) _ _ => apply runs_ret
  | |- runs (gets _) _ _ => apply runs_gets
  | |- runs (modify _) _ _ => apply runs_modify
  | |- runs (expect (Some _)) _ _ => apply runs_expect
  end; cbn beta.
Ltac msteps := repeat mstep.

(** ** Generic lemmas *)

Lemma zlen_nonneg {A} (l : list A) : 0 <= zlen l.
Proof. unfold zlen; lia. Qed.

Lemma zlen_app {A} (l1 l2 : list A) : zlen (l1 ++ l2) = zlen l1 + zlen l2.
Proof. unfold zlen. rewrite length_app. lia. Qed.

Lemma zlen_cons {A} (x : A) l : zlen (x :: l) = 1 + zlen l.
Proof. unfold zlen. simpl. lia. Qed.

Lemma zlen_nil {A} : zlen (@nil A) = 0.
Proof. done. Qed.

#[export] Hint Rewrite @zlen_app @zlen_cons @zlen_nil : hkv.

Lemma wrap64_small x : 0 <= x <= USIZE_MAX -> wrap64 x = x.
Proof. unfold wrap64, USIZE_MAX. intros. apply Z.mod_small. lia. Qed.

Lemma wrap64_range x : 0 <= wrap64 x <= USIZE_MAX.
Proof. unfold wrap64, USIZE_MAX. pose proof (Z.mod_pos_bound x 18446744073709551616). lia. Qed.

Lemma wrap64_add_l x y : wrap64 (wrap64 x + y) = wrap64 (x + y).
Proof. unfold wrap64. by rewrite Zplus_mod_idemp_l. Qed.

Lemma wrap64_sub_l x y : wrap64 (wrap64 x - y) = wrap64 (x - y).
Proof. unfold wrap64. by rewrite Zminus_mod_idemp_l. Qed.

Lemma vec_pop_snoc {A} (l : list A) x : vec_pop (l ++ [x]) = Some (x, l).
Proof. unfold vec_pop. by rewrite reverse_snoc, reverse_involutive. Qed.

Lemma vec_pop_None {A} (l : list A) : vec_pop l = None -> l = [].
Proof.
  destruct l as [|x l _] using rev_ind; [done|]. by rewrite vec_pop_snoc.
Qed.

Lemma vec_pop_Some {A} (l : list A) x r : vec_pop l = Some (x, r) -> l = r ++ [x].
Proof.
  destruct l as [|y l _] using rev_ind; [done|]. rewrite vec_pop_snoc.
  by intros [= -> ->].
Qed.

(** ** Sums *)

Lemma zsum_app l l' : zsum (l ++ l') = zsum l + zsum l'.
Proof. induction l as [|x l IH]; simpl; [done|]. rewrite IH. lia. Qed.

Lemma zsum_snoc l x : zsum (l ++ [x]) = zsum l + x.
Proof. rewrite zsum_app. simpl. lia. Qed.

Lemma zsum_nonneg l : Forall (fun x => 0 <= x) l -> 0 <= zsum l.
Proof. induction 1; simpl; lia. Qed.

Lemma zsum_insert l i x y : l !! i = Some x -> zsum (<[i := y]> l) = zsum l - x + y.
Proof.
  revert i. induction l as [|z l IH]; intros [|i] E; simplify_eq/=; [lia|]. rewrite (IH i E). lia.
Qed.

Lemma zsum_fmap_insert {A} (f : A -> Z) l i x y :
  l !! i = Some x -> zsum (f <$> <[i := y]> l) = zsum (f <$> l) - f x + f y.
Proof. intros E. rewrite list_fmap_insert. apply zsum_insert. by rewrite list_lookup_fmap, E. Qed.

Section filter_lemmas.
Context {A : Type}.
Implicit Types l : list A.

Lemma filter_ext_in (P Q : A -> Prop) `{!forall x, Decision (P x)} `{!forall x, Decision (Q x)} l :
  (forall x, x ∈ l -> P x <-> Q x) -> filter P l = filter Q l.
Proof.
  induction l as [|x l IH]; intros Hl; [done|]. rewrite !filter_cons, IH by set_solver.
  specialize (Hl x ltac:(set_solver)). by repeat case_decide; tauto || idtac.
Qed.

Lemma filter_all (P : A -> Prop) `{!forall x, Decision (P x)} l :
  (forall x, x ∈ l -> P x) -> filter P l = l.
Proof.
  induction l as [|x l IH]; intros Hl; [done|].
  rewrite filter_cons_True by set_solver. f_equal. apply IH. set_solver.
Qed.

Lemma filter_omap_length {B} (P : A -> Prop) (Q : B -> Prop) `{!forall x, Decision (P x)}
    `{!forall x, Decision (Q x)} (f : A -> option B) l :
  (forall x, x ∈ l -> exists y, f x = Some y /\ (P x <-> Q y)) ->
  length (filter P l) = length (filter Q (omap f l)).
Proof.
  induction l as [|x l IH]; intros Hl; [done|].
  destruct (Hl x ltac:(set_solver)) as (y & E & HPQ). csimpl. rewrite E, !filter_cons.
  specialize (IH ltac:(set_solver)). repeat case_decide; simpl; tauto || lia.
Qed.

End filter_lemmas.

Lemma list_alter_as_insert {A} (f : A -> A) (l : list A) i x :
  l !! i = Some x -> alter f i l = <[i := f x]> l.
Proof.
  intros Hi. apply list_eq. intros j. rewrite list_lookup_alter.
  destruct (decide (i = j)) as [->|Hne].
  - rewrite Hi, list_lookup_insert_eq; [done|]. by eapply lookup_lt_Some.
  - by rewrite list_lookup_insert_ne.
Qed.
