(* ===== verification/Assertions.v ===== *)
(** * Assertions of unit tests

    The vocabulary of the repository's [mod tests], in any monad that can panic. *)

From S2P Require Import Prelude.

Class Panics (T : Type -> Type) := panics : forall A, T A.
#[global] Instance outcome_panics : Panics outcome := fun A => Panic.
#[global] Instance M_panics {S : Type} : Panics (M S) := fun A => panic.

Section assertions.
Context {T : Type -> Type} `{MRet T} `{Panics T}.

(** [Result::unwrap], [Option::unwrap], [assert!], [assert_eq!]. *)
Definition unwrap {A Er : Type} (r : result A Er) : T A := match r with Ok a => mret a | Err _ => panics A end.
Definition unwrap_some {A : Type} (o : option A) : T A := match o with Some a => mret a | None => panics A end.
Definition assert (b : bool) : T unit := if b then mret tt else panics unit.
Definition assert_eq {A : Type} `{EqDecision A} (a b : A) : T unit := assert (bool_decide (a = b)).

End assertions.

(** [Option::is_none], [Option::is_some]. *)
Definition is_none {A : Type} (o : option A) : bool := match o with None => true | Some _ => false end.
Definition is_some {A : Type} (o : option A) : bool := match o with None => false | Some _ => true end.
