(* ===== verification/Placeholders.v ===== *)
(** * The placeholder crates (hkv-kernel, hkv-gui, hkv-bench)

    What the templates contain: one addition, and two programs that print a line. *)

From S2P Require Import Prelude Assertions.

(** hkv-kernel/src/lib.rs: [add], on [u64]. *)
Definition add (p : profile) (left right : Z) : outcome Z := usize_add p left right.

(** hkv-gui/src/main.rs and hkv-bench/src/main.rs: what [main] prints. *)
Definition hkv_gui_main : bytes := bs "Hello, world!" ++ [LF].
Definition hkv_bench_main : bytes := bs "Hello, world!" ++ [LF].

(** The test of hkv-kernel. *)
Definition it_works (p : profile) : outcome unit :=
  result ← add p 2 2;
  assert_eq result 4.

Lemma it_works_passes p : it_works p = Ret tt.
Proof. by destruct p. Qed.
