(* ===== verification/HkvError.v ===== *)
(** * Error codes (hkv-common/src/error.rs)

    The error enumeration shared by all crates, its stable numeric codes, its
    categories and its display labels. *)

From S2P Require Import Prelude.

(** [enum HkvErrorCategory]. *)
Inductive HkvErrorCategory := Client | Server | Transient | Protocol.

(** [HkvErrorCategory::is_retryable]. *)
Definition category_is_retryable (c : HkvErrorCategory) : bool :=
  match c with Transient => true | _ => false end.

(** [enum HkvError]. *)
Inductive HkvError :=
| InvalidInput
| NotFound
| KeyTooLong
| ValueTooLong
| OutOfMemory
| CapacityExceeded
| InternalError
| Busy
| Timeout
| Interrupted
| VersionMismatch
| ProtocolViolation
| UnsupportedCommand.

#[global] Instance HkvErrorCategory_eq_dec : EqDecision HkvErrorCategory.
Proof. solve_decision. Defined.
#[global] Instance HkvError_eq_dec : EqDecision HkvError.
Proof. solve_decision. Defined.

(** [type HkvResult<T>]. *)
Abbreviation HkvResult A := (result A HkvError).

(** [HkvError::code]: the enum's discriminants. *)
Definition code (e : HkvError) : Z :=
  match e with
  | InvalidInput => 1
  | NotFound => 2
  | KeyTooLong => 3
  | ValueTooLong => 4
  | OutOfMemory => 10
  | CapacityExceeded => 11
  | InternalError => 12
  | Busy => 20
  | Timeout => 21
  | Interrupted => 22
  | VersionMismatch => 30
  | ProtocolViolation => 31
  | UnsupportedCommand => 32
  end.

(** [HkvError::category]. *)
Definition category (e : HkvError) : HkvErrorCategory :=
  match e with
  | InvalidInput | NotFound | KeyTooLong | ValueTooLong => Client
  | OutOfMemory | CapacityExceeded | InternalError => Server
  | Busy | Timeout | Interrupted => Transient
  | VersionMismatch | ProtocolViolation | UnsupportedCommand => Protocol
  end.

(** [HkvError::is_retryable]. *)
Definition error_is_retryable (e : HkvError) : bool := category_is_retryable (category e).

(** [HkvError::from_code], on a [u16]. *)
Definition from_code (c : Z) : option HkvError :=
  match c with
  | 1 => Some InvalidInput
  | 2 => Some NotFound
  | 3 => Some KeyTooLong
  | 4 => Some ValueTooLong
  | 10 => Some OutOfMemory
  | 11 => Some CapacityExceeded
  | 12 => Some InternalError
  | 20 => Some Busy
  | 21 => Some Timeout
  | 22 => Some Interrupted
  | 30 => Some VersionMismatch
  | 31 => Some ProtocolViolation
  | 32 => Some UnsupportedCommand
  | _ => None
  end.

(** [impl Display for HkvError]. *)
Definition error_label (e : HkvError) : string :=
  match e with
  | InvalidInput => "invalid input"
  | NotFound => "not found"
  | KeyTooLong => "key too long"
  | ValueTooLong => "value too long"
  | OutOfMemory => "out of memory"
  | CapacityExceeded => "capacity exceeded"
  | InternalError => "internal error"
  | Busy => "busy"
  | Timeout => "timeout"
  | Interrupted => "interrupted"
  | VersionMismatch => "version mismatch"
  | ProtocolViolation => "protocol violation"
  | UnsupportedCommand => "unsupported command"
  end.
