(* ===== verification/Shard.v ===== *)
(** * Shard storage (hkv-engine/src/memory.rs: [Node], [ShardInner])

    One shard: the key index, the node arena with its free list, and the
    index-linked LRU list.  Every method of [ShardInner] is a computation over
    the shard's state that can panic where the code indexes a vector or calls
    [expect].  Definitions only; [ShardInv] holds the invariant, the
    abstraction to an ordered list of entries and the proofs. *)

From S2P Require Import Prelude.

(** ** Data *)

(** [struct Node].  [Instant]s are nanoseconds on the monotonic clock. *)
Record Node := mkNode {
  node_key : bytes;
  node_value : bytes;
  node_expires_at : option Z;
  node_size : Z;
  node_prev : option nat;
  node_next : option nat
}.

(** [struct ShardInner].  The hash map is a finite map; [nodes] and [free] are
    vectors ([free] is used as a stack, its top is the last element). *)
Record ShardInner := mkShard {
  sh_map : gmap bytes nat;
  sh_nodes : list (option Node);
  sh_free : list nat;
  sh_head : option nat;
  sh_tail : option nat
}.

#[global] Instance Node_eq_dec : EqDecision Node.
Proof. solve_decision. Defined.

(** [Node::is_expired]. *)
Definition is_expired (n : Node) (now : Z) : bool :=
  match node_expires_at n with
  | Some deadline => deadline <=? now
  | None => false
  end.

(** Field assignments on a node. *)
Definition set_prev (p : option nat) (n : Node) : Node :=
  mkNode (node_key n) (node_value n) (node_expires_at n) (node_size n) p (node_next n).
Definition set_next (q : option nat) (n : Node) : Node :=
  mkNode (node_key n) (node_value n) (node_expires_at n) (node_size n) (node_prev n) q.
Definition set_links (p q : option nat) (n : Node) : Node :=
  mkNode (node_key n) (node_value n) (node_expires_at n) (node_size n) p q.

(** Field assignments on a shard. *)
Definition with_map (m : gmap bytes nat) (s : ShardInner) : ShardInner :=
  mkShard m (sh_nodes s) (sh_free s) (sh_head s) (sh_tail s).
Definition with_nodes (ns : list (option Node)) (s : ShardInner) : ShardInner :=
  mkShard (sh_map s) ns (sh_free s) (sh_head s) (sh_tail s).
Definition with_free (fr : list nat) (s : ShardInner) : ShardInner :=
  mkShard (sh_map s) (sh_nodes s) fr (sh_head s) (sh_tail s).
Definition with_head (h : option nat) (s : ShardInner) : ShardInner :=
  mkShard (sh_map s) (sh_nodes s) (sh_free s) h (sh_tail s).
Definition with_tail (t : option nat) (s : ShardInner) : ShardInner :=
  mkShard (sh_map s) (sh_nodes s) (sh_free s) (sh_head s) t.

Abbreviation SM := (M ShardInner).

(** ** Methods *)

(** [ShardInner::new]. *)
Definition shard_new : ShardInner := mkShard ∅ [] [] None None.

(** [self.nodes[idx]]: panics out of range. *)
Definition node_slot (idx : nat) : SM (option Node) :=
  slot ← gets (fun s => sh_nodes s !! idx);
  expect slot.

(** [self.nodes[idx] = o]: panics out of range. *)
Definition set_slot (idx : nat) (o : option Node) : SM unit :=
  _ ← node_slot idx;
  modify (fun s => with_nodes (<[idx := o]> (sh_nodes s)) s).

(** [if let Some(node) = self.nodes[idx].as_mut() { *node = f(node) }]. *)
Definition update_node (idx : nat) (f : Node -> Node) : SM unit :=
  slot ← node_slot idx;
  match slot with
  | Some n => set_slot idx (Some (f n))
  | None => mret tt
  end.

(** [ShardInner::lru_remove]. *)
Definition lru_remove (idx : nat) : SM unit :=
  slot ← node_slot idx;
  node ← expect slot;
  let prev := node_prev node in
  let next := node_next node in
  _ ← match prev with
      | Some prev_idx => update_node prev_idx (set_next next)
      | None => modify (with_head next)
      end;
  _ ← match next with
      | Some next_idx => update_node next_idx (set_prev prev)
      | None => modify (with_tail prev)
      end;
  update_node idx (set_links None None).

(** [ShardInner::lru_push_back]. *)
Definition lru_push_back (idx : nat) : SM unit :=
  tail ← gets sh_tail;
  _ ← update_node idx (set_links tail None);
  _ ← match tail with
      | Some tail_idx => update_node tail_idx (set_next (Some idx))
      | None => modify (with_head (Some idx))
      end;
  modify (with_tail (Some idx)).

(** [ShardInner::touch]. *)
Definition touch (idx : nat) : SM unit :=
  tail ← gets sh_tail;
  if decide (tail = Some idx) then mret tt
  else
    _ ← lru_remove idx;
    lru_push_back idx.

(** The slot choice of [insert_new]: [self.free.pop().unwrap_or_else(..)]. *)
Definition alloc_slot : SM nat :=
  free ← gets sh_free;
  match vec_pop free with
  | Some (idx, rest) => _ ← modify (with_free rest); mret idx
  | None =>
      _ ← modify (fun s => with_nodes (sh_nodes s ++ [None]) s);
      gets (fun s => (length (sh_nodes s) - 1)%nat)
  end.

(** [ShardInner::insert_new]. *)
Definition insert_new (key value : bytes) (size : Z) : SM nat :=
  idx ← alloc_slot;
  _ ← set_slot idx (Some (mkNode key value None size None None));
  _ ← lru_push_back idx;
  _ ← modify (fun s => with_map (<[key := idx]> (sh_map s)) s);
  mret idx.

(** [ShardInner::remove_idx]. *)
Definition remove_idx (idx : nat) : SM (option Z) :=
  slot ← node_slot idx;
  match slot with
  | None => mret None
  | Some node =>
      let key := node_key node in
      let size := node_size node in
      _ ← lru_remove idx;
      _ ← set_slot idx None;
      _ ← modify (fun s => with_map (delete key (sh_map s)) s);
      _ ← modify (fun s => with_free (sh_free s ++ [idx]) s);
      mret (Some size)
  end.

(** [ShardInner::pop_lru]. *)
Definition pop_lru : SM (option Z) :=
  head ← gets sh_head;
  match head with
  | None => mret None
  | Some idx => remove_idx idx
  end.

(** ** Abstraction

    The entries of a shard from least to most recently used, read off by
    walking the [next] links from [head].  The walk visits each slot at most
    once, so [length nodes] steps are enough. *)

Record entry := mkEntry {
  e_key : bytes;
  e_value : bytes;
  e_expires : option Z
}.

#[global] Instance entry_eq_dec : EqDecision entry.
Proof. solve_decision. Defined.

(** The node in slot [i], if the slot is in range and occupied. *)
Definition node_at (ns : list (option Node)) (i : nat) : option Node := ns !! i ≫= id.

Fixpoint walk (fuel : nat) (ns : list (option Node)) (i : option nat) : list nat :=
  match fuel, i with
  | S f, Some idx =>
      match node_at ns idx with
      | Some n => idx :: walk f ns (node_next n)
      | None => []
      end
  | _, _ => []
  end.

Definition lru_order (s : ShardInner) : list nat :=
  walk (length (sh_nodes s)) (sh_nodes s) (sh_head s).

Definition entry_of (n : Node) : entry := mkEntry (node_key n) (node_value n) (node_expires_at n).

Definition entries (s : ShardInner) : list entry :=
  omap (fun i => entry_of <$> node_at (sh_nodes s) i) (lru_order s).
