(* ===== verification/ShardInv.v ===== *)
(** * Shard invariant and refinement to an ordered list of entries

    [shard_ok s L]: the LRU links of [s] thread exactly the slots of [L], the
    key index and the occupied slots agree, the free list holds exactly the
    empty slots, and every node's [size] is the size of its key and value.
    Each method of [ShardInner] then acts on [entries s], the list of entries
    from least to most recently used, as the corresponding list operation. *)

From S2P Require Import Prelude Shard.

(** ** Abstract operations on the ordered list of entries *)

Fixpoint find_entry (k : bytes) (es : list entry) : option entry :=
  match es with
  | [] => None
  | e :: r => if decide (e_key e = k) then Some e else find_entry k r
  end.

Definition remove_key (k : bytes) (es : list entry) : list entry :=
  filter (fun e => e_key e ≠ k) es.

(** Moves the entry of [k] to the most recently used end, applying [f]. *)
Definition promote_key (k : bytes) (f : entry -> entry) (es : list entry) : list entry :=
  match find_entry k es with
  | Some e => remove_key k es ++ [f e]
  | None => es
  end.

Definition update_key (k : bytes) (f : entry -> entry) (es : list entry) : list entry :=
  (fun e => if decide (e_key e = k) then f e else e) <$> es.

(** The bytes an entry is charged for. *)
Definition entry_bytes (e : entry) : Z := zlen (e_key e) + zlen (e_value e).
Definition total_bytes (es : list entry) : Z := foldr Z.add 0 (entry_bytes <$> es).

(** ** Linked segments *)

Definition head_or (L : list nat) (q : option nat) : option nat :=
  match L with [] => q | j :: _ => Some j end.
Definition last_or (p : option nat) (L : list nat) : option nat :=
  match last L with None => p | Some i => Some i end.

(** [seg ns p L q]: the nodes of [L], in order, are doubly linked; the first
    one's [prev] is [p] and the last one's [next] is [q]. *)
Fixpoint seg (ns : list (option Node)) (p : option nat) (L : list nat) (q : option nat) : Prop :=
  match L with
  | [] => True
  | i :: L' =>
      exists n, node_at ns i = Some n /\ node_prev n = p /\ node_next n = head_or L' q /\
        seg ns (Some i) L' q
  end.

(** What the LRU operations leave alone in a node. *)
Definition payload (n : Node) : bytes * bytes * option Z * Z :=
  (node_key n, node_value n, node_expires_at n, node_size n).
Definition same_payloads (ns ns' : list (option Node)) : Prop :=
  length ns' = length ns /\
  forall i, payload <$> node_at ns' i = payload <$> node_at ns i.

Record dll (s : ShardInner) (L : list nat) : Prop := mkDll {
  dll_nodup : NoDup L;
  dll_head : sh_head s = head_or L None;
  dll_tail : sh_tail s = last_or None L;
  dll_seg : seg (sh_nodes s) None L None
}.

(** The part of the invariant that does not depend on the links. *)
Record index_ok (s : ShardInner) : Prop := mkIndexOk {
  idx_map : forall k i, sh_map s !! k = Some i <->
              exists n, node_at (sh_nodes s) i = Some n /\ node_key n = k;
  idx_free : forall i, i ∈ sh_free s <->
              (i < length (sh_nodes s))%nat /\ node_at (sh_nodes s) i = None;
  idx_free_nodup : NoDup (sh_free s);
  idx_size : forall i n, node_at (sh_nodes s) i = Some n ->
              node_size n = zlen (node_key n) + zlen (node_value n)
}.

Record shard_ok (s : ShardInner) (L : list nat) : Prop := mkShardOk {
  ok_dll : dll s L;
  ok_live : forall i, is_Some (node_at (sh_nodes s) i) <-> i ∈ L;
  ok_index : index_ok s
}.

Definition shard_inv (s : ShardInner) : Prop := shard_ok s (lru_order s).

Definition entries_of (ns : list (option Node)) (L : list nat) : list entry :=
  omap (fun i => entry_of <$> node_at ns i) L.

(** ** Arena lemmas *)

Lemma node_at_insert ns i j o :
  (i < length ns)%nat -> node_at (<[i := o]> ns) j = if decide (i = j) then o else node_at ns j.
Proof.
  intros Hi. unfold node_at. case_decide as E.
  - subst. by rewrite list_lookup_insert_eq.
  - by rewrite list_lookup_insert_ne.
Qed.

Lemma node_at_lookup ns i n : node_at ns i = Some n <-> ns !! i = Some (Some n).
Proof.
  unfold node_at. destruct (ns !! i) as [[m|]|]; simpl; naive_solver.
Qed.

Lemma node_at_lt ns i n : node_at ns i = Some n -> (i < length ns)%nat.
Proof. intros H%node_at_lookup. by eapply lookup_lt_Some. Qed.

Lemma node_at_snoc ns i : node_at (ns ++ [None]) i = node_at ns i.
Proof.
  unfold node_at. destruct (decide (i < length ns)%nat) as [Hi|Hi].
  - by rewrite lookup_app_l.
  - rewrite lookup_app_r by lia. rewrite (lookup_ge_None_2 ns) by lia.
    by destruct (i - length ns)%nat as [|[]].
Qed.

Lemma same_payloads_refl ns : same_payloads ns ns.
Proof. by split. Qed.

Lemma same_payloads_trans ns1 ns2 ns3 :
  same_payloads ns1 ns2 -> same_payloads ns2 ns3 -> same_payloads ns1 ns3.
Proof. intros [H1 H2] [H3 H4]. split; [congruence|]. intros i. by rewrite H4. Qed.

Lemma same_payloads_insert ns i n n' :
  node_at ns i = Some n -> payload n' = payload n -> same_payloads ns (<[i := Some n']> ns).
Proof.
  intros Hn Hp. split; [by rewrite length_insert|]. intros j.
  rewrite node_at_insert by eauto using node_at_lt.
  case_decide; subst; [by rewrite Hn; simpl; rewrite Hp|done].
Qed.

#[export] Hint Resolve same_payloads_refl same_payloads_trans same_payloads_insert
  node_at_lt : hkv.

Lemma same_payloads_inv ns ns' i n' :
  same_payloads ns ns' -> node_at ns' i = Some n' ->
  exists n, node_at ns i = Some n /\ payload n' = payload n.
Proof.
  intros [_ H] Hn. specialize (H i). rewrite Hn in H. simpl in H.
  symmetry in H. apply fmap_Some in H as (n & ? & ?). eauto.
Qed.

Lemma same_payloads_sym ns ns' : same_payloads ns ns' -> same_payloads ns' ns.
Proof. intros [H1 H2]. by split. Qed.

Lemma same_payloads_None ns ns' i :
  same_payloads ns ns' -> node_at ns' i = None <-> node_at ns i = None.
Proof. intros [_ H]. specialize (H i). destruct (node_at ns i), (node_at ns' i); done. Qed.

Lemma entries_of_cons ns i L :
  entries_of ns (i :: L) =
    match node_at ns i with
    | Some n => entry_of n :: entries_of ns L
    | None => entries_of ns L
    end.
Proof. unfold entries_of. csimpl. by destruct (node_at ns i). Qed.

Lemma same_payloads_entries ns ns' L :
  same_payloads ns ns' -> entries_of ns' L = entries_of ns L.
Proof.
  intros [_ H]. induction L as [|i L IH]; [done|].
  rewrite !entries_of_cons, IH. specialize (H i).
  destruct (node_at ns i) as [n|], (node_at ns' i) as [n'|]; simplify_eq/=; try done.
  f_equal. destruct n, n'. unfold payload, entry_of in *. by simplify_eq/=.
Qed.

(** ** Segment lemmas *)

Lemma head_or_app L1 L2 q : head_or (L1 ++ L2) q = head_or L1 (head_or L2 q).
Proof. by destruct L1. Qed.

Lemma last_or_snoc p L i : last_or p (L ++ [i]) = Some i.
Proof. unfold last_or. by rewrite last_snoc. Qed.

Lemma last_or_cons p i L : last_or p (i :: L) = last_or (Some i) L.
Proof.
  unfold last_or. destruct L as [|j L]; [done|].
  change (last (i :: j :: L)) with (last (j :: L)).
  destruct (last (j :: L)) eqn:E; [done|]. by apply last_None in E.
Qed.

Lemma last_or_app p L1 L2 : last_or p (L1 ++ L2) = last_or (last_or p L1) L2.
Proof.
  revert p. induction L1 as [|i L1 IH]; intros p; [done|].
  rewrite <- app_comm_cons, !last_or_cons. apply IH.
Qed.

Lemma seg_app ns p L1 L2 q :
  seg ns p (L1 ++ L2) q <-> seg ns p L1 (head_or L2 q) /\ seg ns (last_or p L1) L2 q.
Proof.
  revert p. induction L1 as [|i L1 IH]; intros p; simpl; [tauto|].
  setoid_rewrite IH. setoid_rewrite head_or_app. rewrite last_or_cons.
  split; [intros (n & ? & ? & ? & ? & ?) | intros [(n & ? & ? & ? & ?) ?]]; eauto 10.
Qed.

Lemma seg_frame ns ns' p L q :
  (forall i, i ∈ L -> node_at ns' i = node_at ns i) -> seg ns p L q -> seg ns' p L q.
Proof.
  revert p. induction L as [|i L IH]; intros p Hf; simpl; [done|].
  intros (n & Hn & ? & ? & ?). exists n. rewrite Hf by set_solver.
  repeat split; [done..|]. apply IH; [|done]. set_solver.
Qed.

Lemma seg_insert ns p L q i o :
  (i < length ns)%nat -> i ∉ L -> seg ns p L q -> seg (<[i := o]> ns) p L q.
Proof.
  intros Hi Hni. apply seg_frame. intros j Hj. rewrite node_at_insert by done.
  case_decide; [by subst|done].
Qed.

Lemma seg_live ns p L q i : seg ns p L q -> i ∈ L -> is_Some (node_at ns i).
Proof.
  revert p. induction L as [|j L IH]; intros p; simpl; [set_solver|].
  intros (n & Hn & _ & _ & HL) [->|Hi]%elem_of_cons; eauto.
Qed.

(** Redirects the [next] of the segment's last node. *)
Lemma seg_set_next ns p L a n q q' :
  a ∉ L -> node_at ns a = Some n -> seg ns p (L ++ [a]) q ->
  seg (<[a := Some (set_next q' n)]> ns) p (L ++ [a]) q'.
Proof.
  intros Ha Hn [H1 H2]%seg_app. apply seg_app. split.
  - apply seg_insert; eauto with hkv.
  - simpl in *. destruct H2 as (n0 & Hn0 & Hp & Hq & _). exists (set_next q' n).
    rewrite node_at_insert by eauto with hkv. rewrite decide_True by done.
    by simplify_eq.
Qed.

(** Redirects the [prev] of the segment's first node. *)
Lemma seg_set_prev ns p p' a n L q :
  a ∉ L -> node_at ns a = Some n -> seg ns p (a :: L) q ->
  seg (<[a := Some (set_prev p' n)]> ns) p' (a :: L) q.
Proof.
  intros Ha Hn (n0 & Hn0 & Hp & Hq & HL). simplify_eq. simpl.
  exists (set_prev p' n). rewrite node_at_insert by eauto with hkv.
  rewrite decide_True by done. repeat split; [done|].
  apply seg_insert; eauto with hkv.
Qed.

(** ** Running the arena primitives *)

Lemma node_slot_run s i o : sh_nodes s !! i = Some o -> node_slot i s = (Ret o, s).
Proof. intros H. unfold node_slot, mbind, M_bind, gets. simpl. by rewrite H. Qed.

Lemma set_slot_run s i o :
  (i < length (sh_nodes s))%nat ->
  set_slot i o s = (Ret tt, with_nodes (<[i := o]> (sh_nodes s)) s).
Proof.
  intros [o' H]%lookup_lt_is_Some_2. unfold set_slot.
  by rewrite (bind_run _ _ _ _ _ (node_slot_run _ _ _ H)).
Qed.

Lemma update_node_run s i f n :
  node_at (sh_nodes s) i = Some n ->
  update_node i f s = (Ret tt, with_nodes (<[i := Some (f n)]> (sh_nodes s)) s).
Proof.
  intros Hn. pose proof Hn as Hl%node_at_lookup. unfold update_node.
  rewrite (bind_run _ _ _ _ _ (node_slot_run _ _ _ Hl)).
  apply set_slot_run. eauto with hkv.
Qed.

(** Redirecting the end of the chain [l] from [q] to [q']: the assignment to the
    last node's [next], or to [head] when the chain is empty. *)
Lemma relink_next_ok s l q q' :
  NoDup l -> seg (sh_nodes s) None l q -> sh_head s = head_or l q ->
  exists ns',
    match last_or None l with
    | Some i => update_node i (set_next q')
    | None => modify (with_head q')
    end s = (Ret tt, mkShard (sh_map s) ns' (sh_free s) (head_or l q') (sh_tail s)) /\
    seg ns' None l q' /\ same_payloads (sh_nodes s) ns' /\
    (forall j, j ∉ l -> node_at ns' j = node_at (sh_nodes s) j).
Proof.
  intros Hnd Hseg Hhd. destruct l as [|a l _] using rev_ind.
  { exists (sh_nodes s). repeat split; eauto with hkv. }
  rewrite last_or_snoc. apply NoDup_app in Hnd as (_ & Hna & _).
  destruct (seg_live _ _ _ _ a Hseg) as [n Hn]; [set_solver|].
  exists (<[a := Some (set_next q' n)]> (sh_nodes s)).
  rewrite (update_node_run _ _ _ _ Hn). repeat split.
  - unfold with_nodes. rewrite Hhd. by destruct l.
  - eapply seg_set_next; eauto. set_solver.
  - by rewrite length_insert.
  - eapply same_payloads_insert; eauto.
  - intros j Hj. rewrite node_at_insert by eauto with hkv.
    rewrite decide_False; [done|]. set_solver.
Qed.

(** Redirecting the start of the chain [l] from [p] to [p']. *)
Lemma relink_prev_ok s l p p' :
  NoDup l -> seg (sh_nodes s) p l None -> sh_tail s = last_or p l ->
  exists ns',
    match head_or l None with
    | Some i => update_node i (set_prev p')
    | None => modify (with_tail p')
    end s = (Ret tt, mkShard (sh_map s) ns' (sh_free s) (sh_head s) (last_or p' l)) /\
    seg ns' p' l None /\ same_payloads (sh_nodes s) ns' /\
    (forall j, j ∉ l -> node_at ns' j = node_at (sh_nodes s) j).
Proof.
  intros Hnd Hseg Htl. destruct l as [|a l].
  { exists (sh_nodes s). repeat split; eauto with hkv. }
  apply NoDup_cons in Hnd as [Ha _].
  destruct (seg_live _ _ _ _ a Hseg) as [n Hn]; [set_solver|].
  exists (<[a := Some (set_prev p' n)]> (sh_nodes s)). simpl.
  rewrite (update_node_run _ _ _ _ Hn). repeat split.
  - unfold with_nodes. by rewrite Htl, !last_or_cons.
  - eapply seg_set_prev; eauto.
  - by rewrite length_insert.
  - eapply same_payloads_insert; eauto.
  - intros j Hj. rewrite node_at_insert by eauto with hkv.
    rewrite decide_False; [done|]. set_solver.
Qed.

(** ** The LRU operations *)

Lemma dll_mid s l1 idx l2 :
  dll s (l1 ++ idx :: l2) ->
  NoDup (l1 ++ l2) /\ (idx ∉ l1 ++ l2) /\
  seg (sh_nodes s) None l1 (Some idx) /\ seg (sh_nodes s) (Some idx) l2 None /\
  exists n, node_at (sh_nodes s) idx = Some n /\
    node_prev n = last_or None l1 /\ node_next n = head_or l2 None.
Proof.
  intros [Hnd _ _ [H1 H2]%seg_app]. rewrite <- Permutation_middle in Hnd.
  apply NoDup_cons in Hnd as [? ?]. destruct H2 as (n & ? & ? & ? & ?). eauto 10.
Qed.

Lemma lru_remove_ok s l1 idx l2 :
  dll s (l1 ++ idx :: l2) ->
  exists ns',
    lru_remove idx s =
      (Ret tt, mkShard (sh_map s) ns' (sh_free s) (head_or (l1 ++ l2) None)
                 (last_or None (l1 ++ l2))) /\
    seg ns' None (l1 ++ l2) None /\ same_payloads (sh_nodes s) ns'.
Proof.
  intros Hdll. destruct (dll_mid _ _ _ _ Hdll) as (Hnd & Hidx & Hs1 & Hs2 & n & Hn & Hp & Hq).
  destruct Hdll as [_ Hhd Htl _].
  rewrite head_or_app in Hhd. rewrite last_or_app, last_or_cons in Htl.
  apply NoDup_app in Hnd as (Hnd1 & Hdis & Hnd2).
  unfold lru_remove. pose proof Hn as Hl%node_at_lookup.
  rewrite (bind_run _ _ _ _ _ (node_slot_run _ _ _ Hl)).
  rewrite (bind_run (expect (Some n)) _ s n s) by done. rewrite Hp, Hq.
  destruct (relink_next_ok s l1 (Some idx) (head_or l2 None)) as (ns1 & E1 & S1 & P1 & F1); [done..|].
  rewrite (bind_run _ _ _ _ _ E1).
  match goal with |- context [_ ≫= ?f] => set (k := f) end.
  destruct (relink_prev_ok (mkShard (sh_map s) ns1 (sh_free s) (head_or l1 (head_or l2 None)) (sh_tail s))
    l2 (Some idx) (last_or None l1)) as (ns2 & E2 & S2 & P2 & F2); simpl in *; [done| |done|].
  { eapply seg_frame; [|done]. intros j Hj. apply F1. set_solver. }
  rewrite (bind_run _ _ _ _ _ E2). unfold k; clear k.
  assert (Hn2 : node_at ns2 idx = Some n).
  { rewrite F2, F1 by set_solver. done. }
  exists (<[idx := Some (set_links None None n)]> ns2). split; [|split].
  - erewrite update_node_run by done. unfold with_nodes; simpl.
    by rewrite head_or_app, last_or_app.
  - apply seg_insert; [eauto with hkv|done|]. apply seg_app. split; [|done].
    eapply seg_frame; [|done]. intros j Hj. apply F2. set_solver.
  - eapply same_payloads_trans; [done|]. eapply same_payloads_trans; [done|].
    by eapply same_payloads_insert.
Qed.

(** Appending slot [idx], occupied but not linked. *)
Lemma lru_push_back_ok s L idx n :
  dll s L -> idx ∉ L -> node_at (sh_nodes s) idx = Some n ->
  exists ns',
    lru_push_back idx s =
      (Ret tt, mkShard (sh_map s) ns' (sh_free s) (head_or (L ++ [idx]) None) (Some idx)) /\
    seg ns' None (L ++ [idx]) None /\ same_payloads (sh_nodes s) ns'.
Proof.
  intros [Hnd Hhd Htl Hseg] Hidx Hn. unfold lru_push_back.
  rewrite (bind_run _ _ s (sh_tail s) s) by done.
  rewrite (bind_run _ _ _ _ _ (update_node_run _ _ _ _ Hn)).
  set (ns0 := <[idx := Some (set_links (sh_tail s) None n)]> (sh_nodes s)).
  assert (Hlt : (idx < length (sh_nodes s))%nat) by eauto with hkv.
  destruct (relink_next_ok (with_nodes ns0 s) L None (Some idx)) as (ns1 & E1 & S1 & P1 & F1);
    [done|by apply seg_insert|done|].
  rewrite Htl. rewrite (bind_run _ _ _ _ _ E1). exists ns1. simpl in *. split; [|split].
  - unfold modify, with_tail. simpl. by rewrite head_or_app.
  - apply seg_app. split; [done|]. simpl. exists (set_links (sh_tail s) None n).
    rewrite F1 by done. unfold ns0. rewrite node_at_insert by done.
    by rewrite decide_True.
  - eapply same_payloads_trans; [|done]. by eapply same_payloads_insert.
Qed.

(** ** List facts about entries *)

Lemma find_entry_Some k es e : find_entry k es = Some e -> e ∈ es /\ e_key e = k.
Proof.
  induction es as [|e' es IH]; simpl; [done|]. case_decide; [|set_solver].
  intros [= ->]. set_solver.
Qed.

Lemma find_entry_None k es : find_entry k es = None <-> forall e, e ∈ es -> e_key e ≠ k.
Proof.
  induction es as [|e' es IH]; simpl; [set_solver|].
  case_decide; [|set_solver]. split; [done|]. intros H'. exfalso. apply (H' e'); set_solver.
Qed.

Lemma find_entry_mid k E1 e E2 :
  e_key e = k -> (forall e', e' ∈ E1 -> e_key e' ≠ k) -> find_entry k (E1 ++ e :: E2) = Some e.
Proof.
  intros He H. induction E1 as [|e1 E1 IH]; simpl; [by rewrite decide_True|].
  rewrite decide_False by (apply H; set_solver). apply IH. set_solver.
Qed.

Lemma remove_key_id k es : (forall e, e ∈ es -> e_key e ≠ k) -> remove_key k es = es.
Proof.
  intros H. unfold remove_key. induction es as [|e es IH]; [done|].
  rewrite filter_cons_True by (apply H; set_solver). rewrite IH; [done|]. set_solver.
Qed.

Lemma remove_key_mid k E1 e E2 :
  e_key e = k -> (forall e', e' ∈ E1 ++ E2 -> e_key e' ≠ k) ->
  remove_key k (E1 ++ e :: E2) = E1 ++ E2.
Proof.
  intros He H. unfold remove_key. rewrite filter_app, filter_cons_False by (by intros []).
  rewrite <- filter_app. by apply remove_key_id.
Qed.

Lemma update_key_id k f es : (forall e, e ∈ es -> e_key e ≠ k) -> update_key k f es = es.
Proof.
  intros H. unfold update_key. induction es as [|e es IH]; [done|]. csimpl.
  rewrite decide_False by (apply H; set_solver). rewrite IH; [done|]. set_solver.
Qed.

Lemma update_key_mid k f E1 e E2 :
  e_key e = k -> (forall e', e' ∈ E1 ++ E2 -> e_key e' ≠ k) ->
  update_key k f (E1 ++ e :: E2) = E1 ++ f e :: E2.
Proof.
  intros He H. unfold update_key. rewrite fmap_app. f_equal; [apply update_key_id; set_solver|].
  csimpl. rewrite decide_True by done. f_equal. apply update_key_id. set_solver.
Qed.

Lemma promote_key_mid k f E1 e E2 :
  e_key e = k -> (forall e', e' ∈ E1 ++ E2 -> e_key e' ≠ k) ->
  promote_key k f (E1 ++ e :: E2) = E1 ++ E2 ++ [f e].
Proof.
  intros He H. unfold promote_key. rewrite find_entry_mid by set_solver.
  by rewrite remove_key_mid, <- (assoc_L (++)).
Qed.

Lemma total_bytes_app E1 E2 : total_bytes (E1 ++ E2) = total_bytes E1 + total_bytes E2.
Proof.
  unfold total_bytes. induction E1 as [|e E1 IH]; csimpl; [done|]. rewrite IH. lia.
Qed.

Lemma total_bytes_cons e E : total_bytes (e :: E) = entry_bytes e + total_bytes E.
Proof. done. Qed.

Lemma entry_bytes_nonneg e : 0 <= entry_bytes e.
Proof. unfold entry_bytes, zlen. lia. Qed.

Lemma total_bytes_nonneg E : 0 <= total_bytes E.
Proof.
  induction E as [|e E IH]; [done|]. rewrite total_bytes_cons.
  pose proof (entry_bytes_nonneg e). lia.
Qed.

#[export] Hint Rewrite total_bytes_app total_bytes_cons : hkv.

(** ** The abstraction of a well-formed shard *)

Lemma walk_seg ns p L f :
  seg ns p L None -> (length L <= f)%nat -> walk f ns (head_or L None) = L.
Proof.
  revert p f. induction L as [|i L IH]; intros p f; simpl.
  { by destruct f. }
  intros (n & Hn & _ & Hq & HL) Hf. destruct f as [|f]; [lia|]. simpl.
  rewrite Hn, Hq. f_equal. eapply IH; [done|lia].
Qed.

Lemma shard_ok_length s L : shard_ok s L -> (length L <= length (sh_nodes s))%nat.
Proof.
  intros [[Hnd _ _ Hseg] _ _]. rewrite <- (length_seq (length (sh_nodes s)) 0).
  apply submseteq_length, NoDup_submseteq; [done|]. intros i Hi.
  destruct (seg_live _ _ _ _ _ Hseg Hi) as [n Hn]. apply elem_of_seq.
  apply node_at_lt in Hn. lia.
Qed.

Lemma shard_ok_order s L : shard_ok s L -> lru_order s = L.
Proof.
  intros H. unfold lru_order. rewrite (dll_head _ _ (ok_dll _ _ H)).
  eapply walk_seg; [apply (ok_dll _ _ H)|]. by apply shard_ok_length.
Qed.

Lemma shard_ok_inv s L : shard_ok s L -> shard_inv s.
Proof. intros H. unfold shard_inv. by rewrite (shard_ok_order _ _ H). Qed.

Lemma shard_ok_entries s L : shard_ok s L -> entries s = entries_of (sh_nodes s) L.
Proof. intros H. unfold entries. by rewrite (shard_ok_order _ _ H). Qed.

Lemma entries_of_app ns L1 L2 : entries_of ns (L1 ++ L2) = entries_of ns L1 ++ entries_of ns L2.
Proof. apply omap_app. Qed.

Lemma elem_of_entries ns L e :
  e ∈ entries_of ns L <-> exists i n, i ∈ L /\ node_at ns i = Some n /\ e = entry_of n.
Proof.
  unfold entries_of. rewrite list_elem_of_omap. split.
  - intros (i & Hi & (n & Hn & ->)%fmap_Some). eauto.
  - intros (i & n & Hi & Hn & ->). exists i. by rewrite Hn.
Qed.

(** A key occupies one slot. *)
Lemma key_slot_inj s i j n m :
  index_ok s -> node_at (sh_nodes s) i = Some n -> node_at (sh_nodes s) j = Some m ->
  node_key n = node_key m -> i = j.
Proof.
  intros [Hmap _ _ _] Hn Hm E.
  assert (sh_map s !! node_key n = Some i) by (apply Hmap; eauto).
  assert (sh_map s !! node_key n = Some j) by (apply Hmap; eauto). congruence.
Qed.

(** The entries around an occupied slot. *)
Lemma entries_split s l1 i l2 n :
  shard_ok s (l1 ++ i :: l2) -> node_at (sh_nodes s) i = Some n ->
  entries s = entries_of (sh_nodes s) l1 ++ entry_of n :: entries_of (sh_nodes s) l2 /\
  forall e, e ∈ entries_of (sh_nodes s) (l1 ++ l2) -> e_key e ≠ node_key n.
Proof.
  intros Hok Hn. split.
  { by rewrite (shard_ok_entries _ _ Hok), entries_of_app, entries_of_cons, Hn. }
  intros e (j & m & Hj & Hm & ->)%elem_of_entries Hk. simpl in Hk.
  destruct Hok as [[Hnd _ _ _] _ Hidx]. assert (j = i) as -> by eauto using key_slot_inj.
  rewrite <- Permutation_middle, NoDup_cons in Hnd. by destruct Hnd.
Qed.

Lemma index_ok_same s ns' h t :
  index_ok s -> same_payloads (sh_nodes s) ns' ->
  index_ok (mkShard (sh_map s) ns' (sh_free s) h t).
Proof.
  intros [Hmap Hfree Hnd Hsz] HS. split; simpl.
  - intros k i. rewrite Hmap. split; intros (n & Hn & Hk).
    + edestruct (same_payloads_inv ns' (sh_nodes s)) as (m & Hm & E);
        eauto using same_payloads_sym. exists m. unfold payload in E. by simplify_eq.
    + edestruct same_payloads_inv as (m & Hm & E); eauto.
      exists m. unfold payload in E. by simplify_eq.
  - intros i. by rewrite Hfree, (same_payloads_None _ _ i HS), (proj1 HS).
  - done.
  - intros i n Hn. edestruct same_payloads_inv as (m & Hm & E); eauto.
    pose proof (Hsz i m Hm). unfold payload in E. injection E as ????. congruence.
Qed.

Lemma same_payloads_live s ns' i :
  same_payloads (sh_nodes s) ns' ->
  is_Some (node_at ns' i) <-> is_Some (node_at (sh_nodes s) i).
Proof. intros [_ H]. specialize (H i). rewrite <- !(fmap_is_Some payload). by rewrite H. Qed.
