(* ===== verification/ShardOps.v ===== *)
(** * Methods of [ShardInner] on well-formed shards

    For every method: it does not panic on a well-formed shard, it keeps the
    shard well formed, and it acts on the LRU-ordered list of entries as the
    list operation of [ShardInv]. *)

From S2P Require Import Prelude Shard ShardInv.

(** ** Methods on well-formed shards *)

(** [s] is well formed and its entries, in LRU order, are [es]. *)
Definition shard_rep (s : ShardInner) (es : list entry) : Prop :=
  shard_inv s /\ entries s = es.

Lemma shard_ok_rep s L : shard_ok s L -> shard_rep s (entries_of (sh_nodes s) L).
Proof. intros H. split; [by eapply shard_ok_inv|by apply shard_ok_entries]. Qed.

Lemma shard_ok_relink s ns' L L' h t :
  shard_ok s L -> (forall i, i ∈ L' <-> i ∈ L) ->
  same_payloads (sh_nodes s) ns' -> NoDup L' ->
  h = head_or L' None -> t = last_or None L' -> seg ns' None L' None ->
  shard_ok (mkShard (sh_map s) ns' (sh_free s) h t) L'.
Proof.
  intros [_ Hlive Hidx] HL HS Hnd -> -> Hseg. split; [by split| |by apply index_ok_same].
  intros i. simpl. by rewrite (same_payloads_live s ns' i HS), HL.
Qed.

Lemma touch_ok s l1 i l2 :
  shard_ok s (l1 ++ i :: l2) ->
  runs (touch i) s (fun _ s' =>
    shard_ok s' (l1 ++ l2 ++ [i]) /\ same_payloads (sh_nodes s) (sh_nodes s')).
Proof.
  intros Hok. pose proof Hok as [Hdll Hlive Hidx].
  destruct (dll_mid _ _ _ _ Hdll) as (Hnd & Hi & _ & _ & n & Hn & _).
  unfold touch. mstep. mstep. case_decide as Ht.
  - mstep. split; [|done]. destruct l2 as [|j l2 _] using rev_ind; [done|exfalso].
    rewrite (dll_tail _ _ Hdll) in Ht.
    rewrite app_comm_cons, (assoc_L (++)), last_or_snoc in Ht. set_solver.
  - destruct (lru_remove_ok _ _ _ _ Hdll) as (ns1 & E1 & S1 & P1).
    apply runs_bind. eapply runs_intro; [done|]. cbn beta.
    edestruct (same_payloads_inv ns1 (sh_nodes s)) as (n1 & Hn1 & _);
      [by apply same_payloads_sym|done|].
    edestruct (lru_push_back_ok (mkShard (sh_map s) ns1 (sh_free s) (head_or (l1 ++ l2) None)
      (last_or None (l1 ++ l2))) (l1 ++ l2) i) as (ns2 & E2 & S2 & P2); [by split|done|done|].
    eapply runs_intro; [exact E2|]. simpl in *. rewrite (assoc_L (++)).
    assert (HP : same_payloads (sh_nodes s) ns2) by eauto with hkv.
    split; [|done]. eapply shard_ok_relink; [by split| |done| |done|by rewrite last_or_snoc|done].
    + set_solver.
    + apply NoDup_app; repeat split; [done|set_solver|apply NoDup_singleton].
Qed.

(** Overwriting the payload of an occupied slot, key and links kept. *)
Lemma update_payload_ok s l1 i l2 n n' :
  shard_ok s (l1 ++ i :: l2) -> node_at (sh_nodes s) i = Some n ->
  node_key n' = node_key n -> node_prev n' = node_prev n -> node_next n' = node_next n ->
  node_size n' = zlen (node_key n') + zlen (node_value n') ->
  shard_ok (with_nodes (<[i := Some n']> (sh_nodes s)) s) (l1 ++ i :: l2).
Proof.
  intros [Hdll Hlive [Hmap Hfree Hndf Hsz]] Hn Hk Hp Hq Hs.
  assert (Hlt : (i < length (sh_nodes s))%nat) by eauto with hkv.
  destruct (dll_mid _ _ _ _ Hdll) as (_ & Hi & S1 & S2 & n0 & Hn0 & Hp0 & Hq0). simplify_eq.
  destruct Hdll as [Hnd Hhd Htl _].
  assert (Hat : forall j, node_at (<[i := Some n']> (sh_nodes s)) j =
    if decide (i = j) then Some n' else node_at (sh_nodes s) j)
    by (intros; by apply node_at_insert).
  split; [split; [done|done|done|]| |split]; simpl.
  - apply seg_app. split; [apply seg_insert; [done|set_solver|done]|].
    exists n'. rewrite Hat, decide_True by done. repeat split; [congruence..|].
    apply seg_insert; [done|set_solver|done].
  - intros j. rewrite <- Hlive, Hat. case_decide; subst; [|done].
    rewrite Hn. split; eauto.
  - intros k j. rewrite Hmap, Hat. case_decide; subst; [|done].
    rewrite Hn. naive_solver congruence.
  - intros j. rewrite Hfree, length_insert, Hat. case_decide; subst; [|done].
    rewrite Hn. naive_solver.
  - done.
  - intros j m. rewrite Hat. case_decide; [naive_solver|apply Hsz].
Qed.


Lemma remove_idx_ok s l1 i l2 n :
  shard_ok s (l1 ++ i :: l2) -> node_at (sh_nodes s) i = Some n ->
  runs (remove_idx i) s (fun r s' => r = Some (node_size n) /\ shard_ok s' (l1 ++ l2) /\
    entries_of (sh_nodes s') (l1 ++ l2) = entries_of (sh_nodes s) (l1 ++ l2) /\
    sh_map s' = base.delete (node_key n) (sh_map s)).
Proof.
  intros [Hdll Hlive Hidx] Hn. pose proof Hn as Hl%node_at_lookup.
  destruct (dll_mid _ _ _ _ Hdll) as (Hnd & Hi & _).
  unfold remove_idx. apply runs_bind. eapply runs_intro; [by apply node_slot_run|]. cbn beta iota.
  destruct (lru_remove_ok _ _ _ _ Hdll) as (ns1 & E1 & S1 & P1).
  apply runs_bind. eapply runs_intro; [done|]. cbn beta.
  assert (Hlt : (i < length ns1)%nat) by (rewrite (proj1 P1); eauto with hkv).
  apply runs_bind. eapply runs_intro; [by apply set_slot_run|]. msteps. split; [done|].
  assert (Hat : forall j, node_at (<[i := None]> ns1) j =
    if decide (i = j) then None else node_at ns1 j) by (intros; by apply node_at_insert).
  pose proof (index_ok_same s ns1 None None Hidx P1) as [Hmap Hfree Hndf Hsz].
  edestruct (same_payloads_inv ns1 (sh_nodes s)) as (n1 & Hn1 & En);
    [by apply same_payloads_sym|done|]. injection En as Hk _ _ _.
  simpl in *.
  split; [|split; [rewrite <- (same_payloads_entries (sh_nodes s) ns1) by done|done]].
  - split; [split|..|split]; simpl.
    + done.
    + done.
    + done.
    + by apply seg_insert.
    + intros j. rewrite Hat. case_decide; subst.
      * split; [by intros []|set_solver].
      * rewrite (same_payloads_live s ns1 j P1), Hlive. set_solver.
    + intros k j. rewrite lookup_delete_Some, Hmap, Hat. case_decide; subst.
      * split; [|naive_solver]. intros (Hne & m & Hm & <-). simplify_eq.
      * split; [naive_solver|]. intros (m & Hm & <-). split; [|eauto].
        intros Heq. assert (i = j); [|done].
        apply (key_slot_inj (mkShard (sh_map s) ns1 (sh_free s) None None) i j n1 m);
          [by split|done|done|congruence].
    + intros j. rewrite elem_of_app, Hfree, length_insert, Hat, list_elem_of_singleton.
      case_decide; naive_solver.
    + apply NoDup_app; repeat split; [done| |apply NoDup_singleton].
      intros j [_ Hj]%Hfree ->%list_elem_of_singleton. congruence.
    + intros j m. rewrite Hat. case_decide; [done|]. apply Hsz.
  - unfold entries_of. apply list_omap_ext, Forall_Forall2_diag, Forall_forall.
    intros j Hj. rewrite Hat. rewrite decide_False; [done|]. set_solver.
Qed.

(** What [alloc_slot] hands out: an empty slot that is no longer free. *)
Lemma alloc_slot_ok s :
  index_ok s ->
  runs alloc_slot s (fun idx s' =>
    sh_map s' = sh_map s /\ sh_head s' = sh_head s /\ sh_tail s' = sh_tail s /\
    (idx < length (sh_nodes s'))%nat /\ NoDup (sh_free s') /\
    (forall i, node_at (sh_nodes s') i = node_at (sh_nodes s) i) /\
    node_at (sh_nodes s) idx = None /\
    (forall i, i ∈ sh_free s' <->
       (i < length (sh_nodes s'))%nat /\ node_at (sh_nodes s) i = None /\ i ≠ idx)).
Proof.
  intros [_ Hfree Hnd _]. unfold alloc_slot. mstep. mstep.
  destruct (vec_pop (sh_free s)) as [[idx rest]|] eqn:E.
  - apply vec_pop_Some in E. msteps. simpl. rewrite E in Hnd, Hfree.
    apply NoDup_app in Hnd as (Hnd & Hni & _).
    destruct (proj1 (Hfree idx)) as [? ?]; [set_solver|].
    split_and!; try done. intros i. split; [|set_solver].
    intros Hi. destruct (proj1 (Hfree i)); [set_solver|]. set_solver.
  - apply vec_pop_None in E. msteps. simpl. rewrite length_app. simpl.
    assert (Hlen : (length (sh_nodes s) + 1 - 1 = length (sh_nodes s))%nat) by lia.
    rewrite Hlen. rewrite E in Hnd, Hfree |- *.
    split_and!; try done.
    + lia.
    + apply node_at_snoc.
    + unfold node_at. by rewrite lookup_ge_None_2.
    + intros i. split; [set_solver|]. intros (Hi & Hn & Hne).
      apply Hfree. split; [lia|done].
Qed.

Lemma insert_new_ok s L k v sz :
  shard_ok s L -> sh_map s !! k = None -> sz = zlen k + zlen v ->
  runs (insert_new k v sz) s (fun idx s' =>
    shard_ok s' (L ++ [idx]) /\
    entries_of (sh_nodes s') (L ++ [idx]) = entries_of (sh_nodes s) L ++ [mkEntry k v None]).
Proof.
  intros [Hdll Hlive Hidx] Hk ->. unfold insert_new. mstep.
  eapply runs_mono; [by apply alloc_slot_ok|]. cbn beta.
  intros idx s1 (Em & Eh & Et & Hlt & Hndf & Hsame & Hnone & Hfree).
  assert (HiL : idx ∉ L) by (rewrite <- Hlive, Hnone; by intros []).
  destruct Hidx as [Hmap _ _ Hsz]. destruct Hdll as [Hnd Hhd Htl Hseg].
  set (nd := mkNode k v None (zlen k + zlen v) None None).
  apply runs_bind. eapply runs_intro; [by apply set_slot_run|]. cbn beta.
  set (ns0 := <[idx := Some nd]> (sh_nodes s1)).
  assert (Hat : forall j, node_at ns0 j = if decide (idx = j) then Some nd else node_at (sh_nodes s) j).
  { intros j. unfold ns0. rewrite node_at_insert by done. by rewrite Hsame. }
  edestruct (lru_push_back_ok (with_nodes ns0 s1) L idx nd) as (ns1 & E1 & S1 & P1); simpl.
  { split; simpl; [done|congruence|congruence|].
    eapply seg_frame; [|done]. intros j Hj. rewrite Hat, decide_False; [done|set_solver]. }
  { done. }
  { by rewrite Hat, decide_True. }
  apply runs_bind. eapply runs_intro; [exact E1|]. msteps. simpl in *.
  assert (I0 : index_ok (with_map (<[k := idx]> (sh_map s1)) (with_nodes ns0 s1))).
  { split; simpl; rewrite ?Em.
    - intros k' i. rewrite lookup_insert_Some, Hmap, Hat. case_decide; subst.
      + rewrite Hnone. naive_solver.
      + split; [naive_solver|]. intros (m & Hm & <-). right. split; [|eauto].
        intros ->. assert (sh_map s !! node_key m = Some i) by (apply Hmap; eauto). congruence.
    - intros i. rewrite Hfree. unfold ns0 at 1. rewrite length_insert, Hat.
      case_decide; naive_solver.
    - done.
    - intros i m. rewrite Hat. case_decide; [naive_solver|apply Hsz]. }
  apply (index_ok_same _ ns1 (head_or (L ++ [idx]) None) (Some idx)) in I0; [|done]. simpl in I0.
  split.
  - split; [split; simpl| |done].
    + apply NoDup_app; repeat split; [done|set_solver|apply NoDup_singleton].
    + done.
    + by rewrite last_or_snoc.
    + done.
    + intros i. simpl. rewrite (same_payloads_live (with_nodes ns0 s1) ns1 i P1). simpl.
      rewrite Hat, elem_of_app, <- Hlive, list_elem_of_singleton.
      case_decide; naive_solver.
  - rewrite (same_payloads_entries ns0 ns1) by done. rewrite entries_of_app. f_equal.
    + unfold entries_of. apply list_omap_ext, Forall_Forall2_diag, Forall_forall.
      intros j Hj. rewrite Hat. rewrite decide_False; [done|]. set_solver.
    + rewrite entries_of_cons, Hat, decide_True by done. done.
Qed.

(** ** The methods against the list of entries *)

(** Looking a key up splits the shard at its slot. *)
Lemma rep_split s es k i :
  shard_rep s es -> sh_map s !! k = Some i ->
  exists l1 l2 n, shard_ok s (l1 ++ i :: l2) /\ node_at (sh_nodes s) i = Some n /\
    node_key n = k /\ node_size n = entry_bytes (entry_of n) /\
    es = entries_of (sh_nodes s) l1 ++ entry_of n :: entries_of (sh_nodes s) l2 /\
    (forall e, e ∈ entries_of (sh_nodes s) l1 ++ entries_of (sh_nodes s) l2 -> e_key e ≠ k).
Proof.
  intros [Hok <-] Hk. pose proof Hok as [_ Hlive [Hmap _ _ Hsz]].
  destruct (proj1 (Hmap k i) Hk) as (n & Hn & Ek).
  destruct (list_elem_of_split (lru_order s) i) as (l1 & l2 & E); [apply Hlive; eauto|].
  unfold shard_inv in Hok. rewrite E in Hok.
  destruct (entries_split _ _ _ _ _ Hok Hn) as [Es Hne].
  rewrite entries_of_app in Hne. exists l1, l2, n.
  split_and!; [done|done|done|by apply Hsz with i|done|]. intros e He. rewrite <- Ek. by apply Hne.
Qed.

Lemma rep_lookup_Some s es k i :
  shard_rep s es -> sh_map s !! k = Some i ->
  exists n, sh_nodes s !! i = Some (Some n) /\ node_key n = k /\
    find_entry k es = Some (entry_of n).
Proof.
  intros Hrep Hk. destruct (rep_split _ _ _ _ Hrep Hk) as (l1 & l2 & n & _ & Hn & Ek & _ & -> & Hne).
  exists n. split; [by apply node_at_lookup|]. split; [done|].
  apply find_entry_mid; [done|]. set_solver.
Qed.

Lemma rep_lookup_None s es k :
  shard_rep s es -> sh_map s !! k = None -> find_entry k es = None.
Proof.
  intros [[_ _ [Hmap _ _ _]] <-] Hk. apply find_entry_None. intros e He <-.
  unfold entries in He. apply elem_of_entries in He as (i & n & _ & Hn & ->).
  assert (sh_map s !! node_key n = Some i) by (apply Hmap; eauto). naive_solver.
Qed.

Lemma rep_touch s es k i :
  shard_rep s es -> sh_map s !! k = Some i ->
  runs (touch i) s (fun _ s' => shard_rep s' (promote_key k id es) /\ sh_map s' = sh_map s).
Proof.
  intros Hrep Hk. destruct (rep_split _ _ _ _ Hrep Hk) as (l1 & l2 & n & Hok & Hn & Ek & _ & -> & Hne).
  eapply runs_mono; [by apply touch_ok|]. cbn beta. intros _ s' [Hok' HP].
  rewrite promote_key_mid by done. split.
  - apply shard_ok_rep in Hok'. rewrite (same_payloads_entries (sh_nodes s)) in Hok' by done.
    rewrite !entries_of_app, entries_of_cons, Hn in Hok'. apply Hok'.
  - apply map_eq. intros k'. apply option_eq. intros j.
    rewrite (idx_map _ (ok_index _ _ Hok')), (idx_map _ (ok_index _ _ Hok)).
    split; intros (m & Hm & <-).
    + destruct (same_payloads_inv _ _ _ _ HP Hm) as (m' & Hm' & E). injection E as -> _ _ _. eauto.
    + destruct (same_payloads_inv _ _ _ _ (same_payloads_sym _ _ HP) Hm) as (m' & Hm' & E).
      injection E as -> _ _ _. eauto.
Qed.

Lemma rep_remove s es k i :
  shard_rep s es -> sh_map s !! k = Some i ->
  runs (remove_idx i) s (fun r s' => r = entry_bytes <$> find_entry k es /\
    shard_rep s' (remove_key k es) /\ sh_map s' = base.delete k (sh_map s)).
Proof.
  intros Hrep Hk. destruct (rep_split _ _ _ _ Hrep Hk) as (l1 & l2 & n & Hok & Hn & Ek & Hsz & -> & Hne).
  eapply runs_mono; [by eapply remove_idx_ok|]. cbn beta. intros r s' (-> & Hok' & He & Em).
  rewrite find_entry_mid, remove_key_mid by (done || set_solver). simpl.
  split; [by rewrite Hsz|]. split; [|by rewrite Em, Ek].
  apply shard_ok_rep in Hok'. rewrite He, entries_of_app in Hok'. apply Hok'.
Qed.

Lemma rep_insert s es k v sz :
  shard_rep s es -> sh_map s !! k = None -> sz = zlen k + zlen v ->
  runs (insert_new k v sz) s (fun _ s' => shard_rep s' (es ++ [mkEntry k v None])).
Proof.
  intros [Hok <-] Hk Hsz. eapply runs_mono; [by eapply insert_new_ok|]. cbn beta.
  intros idx s' [Hok' E]. apply shard_ok_rep in Hok'. rewrite E in Hok'. apply Hok'.
Qed.

Lemma rep_pop s es :
  shard_rep s es ->
  runs pop_lru s (fun r s' =>
    match es with
    | [] => r = None /\ s' = s
    | e :: es' => r = Some (entry_bytes e) /\ shard_rep s' es'
    end).
Proof.
  intros Hrep. pose proof Hrep as [Hok Ees]. unfold pop_lru. mstep. mstep.
  rewrite (dll_head _ _ (ok_dll _ _ Hok)). unfold entries in Ees. unfold shard_inv in Hok.
  destruct (lru_order s) as [|i L] eqn:EL; simpl.
  { msteps. subst es. done. }
  destruct (seg_live _ _ _ _ i (dll_seg _ _ (ok_dll _ _ Hok))) as [n Hn]; [set_solver|].
  assert (Ees' : es = entry_of n :: entries_of (sh_nodes s) L).
  { rewrite <- Ees. change (omap _ (i :: L)) with (entries_of (sh_nodes s) (i :: L)).
    by rewrite entries_of_cons, Hn. }
  rewrite Ees'. eapply runs_mono; [by apply (remove_idx_ok s [] i L n)|]. cbn beta.
  intros r s' (-> & Hok' & He & _). split.
  { f_equal. apply (idx_size _ (ok_index _ _ Hok) i n Hn). }
  apply shard_ok_rep in Hok'. simpl in *. by rewrite He in Hok'.
Qed.

(** Overwriting value, size and deadline of the node of [k]. *)
Lemma rep_update s es k i n v d :
  shard_rep s es -> sh_map s !! k = Some i -> node_at (sh_nodes s) i = Some n ->
  let n' := mkNode (node_key n) v d (zlen k + zlen v) (node_prev n) (node_next n) in
  shard_rep (with_nodes (<[i := Some n']> (sh_nodes s)) s)
    (update_key k (fun e => mkEntry (e_key e) v d) es).
Proof.
  intros Hrep Hk Hn n'.
  destruct (rep_split _ _ _ _ Hrep Hk) as (l1 & l2 & n0 & Hok & Hn0 & Ek & Hsz & -> & Hne).
  assert (n0 = n) as -> by congruence.
  assert (Hok' : shard_ok (with_nodes (<[i := Some n']> (sh_nodes s)) s) (l1 ++ i :: l2)).
  { eapply update_payload_ok; eauto. simpl. by rewrite Ek. }
  rewrite update_key_mid by done.
  assert (Hi : i ∉ l1 ++ l2).
  { by destruct (dll_mid _ _ _ _ (ok_dll _ _ Hok)) as (_ & ? & _). }
  assert (Hlt : (i < length (sh_nodes s))%nat) by eauto with hkv.
  assert (Hfr : forall l, i ∉ l -> entries_of (<[i := Some n']> (sh_nodes s)) l = entries_of (sh_nodes s) l).
  { intros l Hl. unfold entries_of. apply list_omap_ext, Forall_Forall2_diag, Forall_forall.
    intros j Hj. rewrite node_at_insert, decide_False; [done|set_solver|done]. }
  apply shard_ok_rep in Hok'. simpl in Hok'.
  rewrite entries_of_app, entries_of_cons, node_at_insert, decide_True in Hok' by done.
  rewrite !Hfr in Hok' by set_solver. apply Hok'.
Qed.

Lemma rep_new : shard_rep shard_new [].
Proof.
  split; [|done]. split; [split|..|split]; simpl; try done; try apply NoDup_nil_2.
  - intros i. split; [by intros []|set_solver].
  - intros k i. split; [by rewrite lookup_empty|]. by intros (n & [=] & _).
  - intros i. split; [set_solver|]. intros [? _]. lia.
Qed.

Lemma entries_of_keys_nodup ns L :
  NoDup L ->
  (forall i j n m, node_at ns i = Some n -> node_at ns j = Some m ->
     node_key n = node_key m -> i = j) ->
  NoDup (e_key <$> entries_of ns L).
Proof.
  intros Hnd Hinj. induction Hnd as [|i L Hi Hnd IH]; [constructor|].
  rewrite entries_of_cons. destruct (node_at ns i) as [n|] eqn:En; [|done].
  csimpl. apply NoDup_cons. split; [|done].
  intros (e & Ee & (j & m & Hj & Hm & ->)%elem_of_entries)%list_elem_of_fmap.
  simpl in Ee. by assert (i = j) as -> by eauto.
Qed.

Lemma rep_keys_nodup s es : shard_rep s es -> NoDup (e_key <$> es).
Proof.
  intros [[[Hnd _ _ _] _ Hidx] <-]. apply entries_of_keys_nodup; eauto using key_slot_inj.
Qed.

(** The slots listed by the key index are those of the LRU list. *)
Lemma map_values_order s : shard_inv s -> (map_to_list (sh_map s)).*2 ≡ₚ lru_order s.
Proof.
  intros [[Hnd _ _ _] Hlive [Hmap _ _ _]]. apply NoDup_Permutation; [|done|].
  - apply NoDup_fmap_2_strong; [|apply NoDup_map_to_list].
    intros [k i] [k' i'] Hk%elem_of_map_to_list Hk'%elem_of_map_to_list. simpl. intros <-.
    apply Hmap in Hk as (n & Hn & <-). apply Hmap in Hk' as (n' & Hn' & <-). by simplify_eq.
  - intros i. rewrite <- Hlive, list_elem_of_fmap. split.
    + intros ([k j] & -> & Hk%elem_of_map_to_list). apply Hmap in Hk as (n & ? & _). by exists n.
    + intros [n Hn]. exists (node_key n, i). split; [done|].
      apply elem_of_map_to_list, Hmap. eauto.
Qed.
