(* ===== verification/ShardClaims.v ===== *)
(** * Properties of the shard storage

    Executions of the [ShardInner] methods, called the way [MemoryEngine] calls
    them (slots are found through the key index, only absent keys are inserted),
    against the list of entries from least to most recently used; and the size
    of the node arena. *)

From S2P Require Import Prelude Shard ShardInv ShardOps.

(** ** Executions *)

Inductive shard_op :=
| ShTouch (k : bytes)
| ShInsert (k v : bytes)
| ShRemove (k : bytes)
| ShPop.

(** The method call of each operation; the result is the size it frees, if any. *)
Definition run_shard_op (o : shard_op) : SM (option Z) :=
  map ← gets sh_map;
  match o with
  | ShTouch k =>
      match map !! k with Some idx => _ ← touch idx; mret None | None => mret None end
  | ShInsert k v =>
      match map !! k with
      | Some _ => mret None
      | None => _ ← insert_new k v (zlen k + zlen v); mret None
      end
  | ShRemove k =>
      match map !! k with Some idx => remove_idx idx | None => mret None end
  | ShPop => pop_lru
  end.

Fixpoint run_shard_ops (os : list shard_op) : SM (list (option Z)) :=
  match os with
  | [] => mret []
  | o :: os => r ← run_shard_op o; rs ← run_shard_ops os; mret (r :: rs)
  end.

(** The same operations on the ordered list. *)
Definition lru_op (o : shard_op) (es : list entry) : option Z * list entry :=
  match o with
  | ShTouch k => (None, promote_key k id es)
  | ShInsert k v =>
      (None, match find_entry k es with Some _ => es | None => es ++ [mkEntry k v None] end)
  | ShRemove k => (entry_bytes <$> find_entry k es, remove_key k es)
  | ShPop => (entry_bytes <$> head es, tail es)
  end.

(** Results, final list, and the largest number of entries held at any time. *)
Fixpoint lru_ops (os : list shard_op) (es : list entry) : list (option Z) * list entry * nat :=
  match os with
  | [] => ([], es, length es)
  | o :: os =>
      let '(r, es1) := lru_op o es in
      let '(rs, es2, peak) := lru_ops os es1 in
      (r :: rs, es2, (length es `max` peak)%nat)
  end.

(** ** The arena *)

(** [m] does not change the number of slots. *)
Definition keeps_slots {A} (m : SM A) : Prop :=
  forall s, length (sh_nodes (m s).2) = length (sh_nodes s).

Lemma slots_bind {A B} (m : SM A) (f : A -> SM B) :
  keeps_slots m -> (forall a, keeps_slots (f a)) -> keeps_slots (m ≫= f).
Proof.
  intros Hm Hf s. unfold mbind, M_bind. specialize (Hm s).
  destruct (m s) as [[a| |] s1]; simpl in *; [by rewrite Hf|done|done].
Qed.

Lemma slots_ret {A} (a : A) : keeps_slots (mret a).
Proof. done. Qed.
Lemma slots_gets {A} (f : ShardInner -> A) : keeps_slots (gets f).
Proof. done. Qed.
Lemma slots_expect {A} (o : option A) : keeps_slots (expect o).
Proof. by destruct o. Qed.
Lemma slots_modify f : (forall s, length (sh_nodes (f s)) = length (sh_nodes s)) -> keeps_slots (modify f).
Proof. intros Hf s. apply Hf. Qed.

Ltac keeps :=
  repeat first
    [ apply slots_bind; [|intros ?]
    | apply slots_ret | apply slots_gets | apply slots_expect
    | apply slots_modify; intros ?; simpl; by rewrite ?length_insert
    | case_match ].

Lemma slots_update idx f : keeps_slots (update_node idx f).
Proof. unfold update_node, set_slot, node_slot. keeps. Qed.

Lemma slots_lru_remove idx : keeps_slots (lru_remove idx).
Proof. unfold lru_remove, node_slot. keeps; apply slots_update. Qed.

Lemma slots_lru_push_back idx : keeps_slots (lru_push_back idx).
Proof. unfold lru_push_back. keeps; apply slots_update. Qed.

Lemma slots_touch idx : keeps_slots (touch idx).
Proof. unfold touch. keeps; first [apply slots_lru_remove|apply slots_lru_push_back]. Qed.

Lemma slots_remove_idx idx : keeps_slots (remove_idx idx).
Proof. unfold remove_idx, set_slot, node_slot. keeps; apply slots_lru_remove. Qed.

Lemma slots_pop_lru : keeps_slots pop_lru.
Proof. unfold pop_lru. keeps; apply slots_remove_idx. Qed.

(** Occupied and free slots make up the arena. *)
Lemma arena_count s es :
  shard_rep s es -> length (sh_nodes s) = (length es + length (sh_free s))%nat.
Proof.
  intros [[[Hnd _ _ _] Hlive [Hmap Hfree Hfnd _]] <-].
  assert (E : length (entries s) = length (lru_order s)).
  { unfold entries. assert (Hl : forall i, i ∈ lru_order s -> is_Some (node_at (sh_nodes s) i))
      by (intros; by apply Hlive). revert Hl. clear. generalize (lru_order s) as L.
    induction L as [|i L IH]; intros Hl; [done|]. destruct (Hl i ltac:(set_solver)) as [n Hn].
    csimpl. rewrite Hn. simpl. f_equal. apply IH. set_solver. }
  rewrite E, <- length_app. rewrite <- (length_seq (length (sh_nodes s)) 0) at 1.
  apply Permutation_length, NoDup_Permutation.
  - apply NoDup_seq.
  - apply NoDup_app. split_and!; [done| |done]. intros i Hi%Hlive [_ Hn]%Hfree.
    rewrite Hn in Hi. by destruct Hi.
  - intros i. rewrite elem_of_seq, elem_of_app, <- Hlive, Hfree.
    destruct (node_at (sh_nodes s) i) as [n|] eqn:Hn.
    + pose proof (node_at_lt _ _ _ Hn). split; [left; eauto|lia].
    + split; [intros; right; split; [lia|done]|]. intros [[? [=]]|[? _]]. lia.
Qed.

(** A new slot is made only when no slot is free. *)
Lemma insert_new_slots k v sz s :
  length (sh_nodes (insert_new k v sz s).2) =
    match sh_free s with [] => S (length (sh_nodes s)) | _ => length (sh_nodes s) end.
Proof.
  assert (Hrest : forall idx, keeps_slots (_ ← set_slot idx (Some (mkNode k v None sz None None));
      _ ← lru_push_back idx; _ ← modify (fun s => with_map (<[k := idx]> (sh_map s)) s); mret idx)).
  { intros idx. unfold set_slot, node_slot. keeps; apply slots_lru_push_back. }
  unfold insert_new. destruct (vec_pop (sh_free s)) as [[idx rest]|] eqn:E.
  - assert (Ha : alloc_slot s = (Ret idx, with_free rest s)).
    { unfold alloc_slot, mbind, M_bind, gets. rewrite E. done. }
    rewrite (bind_run _ _ _ _ _ Ha), Hrest. apply vec_pop_Some in E. rewrite E. by destruct rest.
  - assert (Ha : exists i, alloc_slot s = (Ret i, with_nodes (sh_nodes s ++ [None]) s)).
    { eexists. unfold alloc_slot, mbind, M_bind, gets. rewrite E. done. }
    destruct Ha as [i Ha]. rewrite (bind_run _ _ _ _ _ Ha), Hrest.
    apply vec_pop_None in E. rewrite E. simpl. rewrite length_app. simpl. lia.
Qed.

(** ** Each operation, and executions *)

Lemma run_shard_op_refines o s es :
  shard_rep s es ->
  runs (run_shard_op o) s (fun r s' => r = (lru_op o es).1 /\ shard_rep s' (lru_op o es).2).
Proof.
  intros Hrep. unfold run_shard_op. mstep. mstep.
  destruct o as [k|k v|k|]; cbn [lru_op fst snd].
  - destruct (sh_map s !! k) as [i|] eqn:E.
    + mstep. eapply runs_mono; [by apply rep_touch|]. cbn beta. intros _ s' [Hs' _]. by mstep.
    + mstep. unfold promote_key. by rewrite (rep_lookup_None _ _ _ Hrep E).
  - destruct (sh_map s !! k) as [i|] eqn:E.
    + mstep. destruct (rep_lookup_Some _ _ _ _ Hrep E) as (n & _ & _ & ->). done.
    + mstep. rewrite (rep_lookup_None _ _ _ Hrep E).
      eapply runs_mono; [by apply rep_insert|]. cbn beta. intros _ s' Hs'. by mstep.
  - destruct (sh_map s !! k) as [i|] eqn:E.
    + eapply runs_mono; [by apply rep_remove|]. cbn beta. by intros r s' (-> & ? & _).
    + mstep. pose proof (rep_lookup_None _ _ _ Hrep E) as Hf. rewrite Hf. split; [done|].
      rewrite remove_key_id; [done|]. by apply find_entry_None.
  - eapply runs_mono; [by apply rep_pop|]. cbn beta. intros r s' Hp.
    destruct es as [|e es]; destruct Hp as [-> Hp]; simplify_eq/=; done.
Qed.

Lemma length_remove_key k es : (length (remove_key k es) <= length es)%nat.
Proof. apply length_filter. Qed.

Lemma length_promote_key k es : (length (promote_key k id es) <= length es)%nat.
Proof.
  unfold promote_key. destruct (find_entry k es) as [e|] eqn:Hf; [|done].
  rewrite length_app, Nat.add_comm. unfold remove_key. revert Hf.
  induction es as [|e' es IH]; simpl; [done|]. rewrite filter_cons.
  case_decide as Hk; intros Hf.
  - rewrite decide_False by naive_solver. pose proof (length_remove_key k es).
    unfold remove_key in *. simpl. lia.
  - rewrite decide_True by done. specialize (IH Hf). simpl in *. lia.
Qed.

(** The number of slots after one operation. *)
Lemma run_shard_op_slots o s es :
  shard_rep s es ->
  length (sh_nodes (run_shard_op o s).2) =
    (length (sh_nodes s) `max` length (lru_op o es).2)%nat.
Proof.
  intros Hrep. pose proof (arena_count _ _ Hrep) as Hc.
  assert (Hk : forall (m : SM (option Z)) n, keeps_slots m -> (n <= length es)%nat ->
    length (sh_nodes (m s).2) = (length (sh_nodes s) `max` n)%nat).
  { intros m n Hm Hle. rewrite Hm. lia. }
  unfold run_shard_op. rewrite (bind_run (gets sh_map) _ s (sh_map s) s) by done.
  destruct o as [k|k v|k|]; cbn [lru_op snd].
  - apply Hk; [keeps; apply slots_touch|apply length_promote_key].
  - destruct (sh_map s !! k) as [i|] eqn:E.
    + destruct (rep_lookup_Some _ _ _ _ Hrep E) as (n & _ & _ & ->). by apply Hk.
    + rewrite (rep_lookup_None _ _ _ Hrep E), length_app. simpl.
      destruct (runs_inv _ _ _ (rep_insert _ _ k v _ Hrep E eq_refl)) as (i & s' & Ei & _).
      rewrite (bind_run _ _ _ _ _ Ei). pose proof (insert_new_slots k v (zlen k + zlen v) s) as Hn.
      rewrite Ei in Hn. simpl in *. rewrite Hn. destruct (sh_free s); simpl in *; lia.
  - apply Hk; [keeps; apply slots_remove_idx|apply length_remove_key].
  - apply Hk; [apply slots_pop_lru|]. destruct es; simpl; lia.
Qed.

Lemma run_shard_ops_refines os s es :
  shard_rep s es ->
  runs (run_shard_ops os) s (fun rs s' =>
    let '(rs', es', peak) := lru_ops os es in
    rs = rs' /\ shard_rep s' es' /\
    length (sh_nodes s') = (length (sh_nodes s) `max` peak)%nat).
Proof.
  revert s es. induction os as [|o os IH]; intros s es Hrep; cbn [run_shard_ops lru_ops].
  { mstep. split_and!; [done..|]. rewrite (arena_count _ _ Hrep). lia. }
  pose proof (run_shard_op_slots o s es Hrep) as Hs.
  destruct (runs_inv _ _ _ (run_shard_op_refines o s es Hrep)) as (r & s1 & E & Er & Hrep1).
  rewrite E in Hs. destruct (lru_op o es) as [r1 es1]. simpl in *. subst r1.
  mstep. eapply runs_intro; [exact E|]. mstep.
  eapply runs_mono; [by apply (IH s1 es1)|]. cbn beta. intros rs s2.
  destruct (lru_ops os es1) as [[rs1 es2] peak] eqn:El. intros (-> & Hrep2 & Hn). mstep.
  split_and!; [done..|]. rewrite Hn, Hs.
  assert (length es1 <= peak)%nat.
  { destruct os as [|o' os]; simpl in El; [by simplify_eq|].
    destruct (lru_op o' es1), (lru_ops os _) as [[? ?] ?]. simplify_eq. lia. }
  pose proof (arena_count _ _ Hrep). lia.
Qed.

(** ** Claims *)

(** C17: any sequence of calls of the shard's methods on a fresh shard returns
    without a panic (no [expect] fails, no index is out of range), keeps the
    invariant of map, arena, free list and links, frees the sizes and leaves the
    entries, in order, that the list operations prescribe; and the arena has
    exactly as many slots as entries were ever held at the same time. *)
Theorem shard_executions_refine_lru (os : list shard_op) :
  exists rs s, run_shard_ops os shard_new = (Ret rs, s) /\ shard_inv s /\
    lru_ops os [] = (rs, entries s, length (sh_nodes s)).
Proof.
  destruct (runs_inv _ _ _ (run_shard_ops_refines os _ _ rep_new)) as (rs & s & E & Hp).
  exists rs, s. destruct (lru_ops os []) as [[rs' es'] peak].
  destruct Hp as (-> & [Hok <-] & ->). split_and!; [done..|]. done.
Qed.
