(* ===== verification/Engine.v ===== *)
(** * The in-memory engine (hkv-engine/src/memory.rs: [MemoryEngine])

    The sharded engine over [Shard]: construction, the five operations of the
    [KVEngine] trait, byte-budget eviction and the expiry sweep.  Definitions
    only; [EngineInv], [EngineSpec] and [Eviction] hold the proofs.

    A method that takes a shard's write lock is a computation over [Locked],
    the locked shard together with the operations on the engine's shared byte
    counter; [lock_shard] runs it on shard [i].  [Instant::now()] is an argument of each operation. *)

From S2P Require Import Prelude HkvError Shard.

(** ** Third-party code

    [ahash::RandomState] (the 64-bit hash of a key under the engine's seed), the
    iteration order of [hashbrown::HashMap::values], of which only the documented
    content is known (every value once, in arbitrary order), and the size of a
    [Shard], which depends on these crates: no Rust type is larger than
    [isize::MAX]. *)

Class EngineEnv := {
  ahash : bytes -> Z;
  map_values : gmap bytes nat -> list nat;
  map_values_perm : forall m, map_values m ≡ₚ (map_to_list m).*2;
  shard_size : Z;
  shard_size_range : 0 < shard_size <= ISIZE_MAX
}.

(** ** Time

    [Instant]s and [Duration]s in nanoseconds.  An [Instant] stores its seconds
    in an [i64]; [Instant + Duration] panics beyond. *)

Definition NANOS_PER_SEC : Z := 1000000000.
Definition INSTANT_MAX : Z := I64_MAX * NANOS_PER_SEC + 999999999.

Definition instant_add (t d : Z) : outcome Z :=
  if t + d <=? INSTANT_MAX then Ret (t + d) else Panic.

(** ** Data *)

(** [enum TtlStatus] (hkv-engine/src/engine.rs). *)
Inductive TtlStatus := Missing | NoExpiry | ExpiresIn (d : Z).

#[global] Instance TtlStatus_eq_dec : EqDecision TtlStatus.
Proof. solve_decision. Defined.

(** [struct MemoryEngine]; the hash state is in [EngineEnv]. *)
Record MemoryEngine := mkEngine {
  eng_shards : list ShardInner;
  eng_shard_mask : Z;
  eng_max_bytes : Z;
  eng_used_bytes : Z;
  eng_eviction_cursor : Z
}.

Abbreviation EM := (M MemoryEngine).

Definition with_used (u : Z) (e : MemoryEngine) : MemoryEngine :=
  mkEngine (eng_shards e) (eng_shard_mask e) (eng_max_bytes e) u (eng_eviction_cursor e).
Definition with_cursor (c : Z) (e : MemoryEngine) : MemoryEngine :=
  mkEngine (eng_shards e) (eng_shard_mask e) (eng_max_bytes e) (eng_used_bytes e) c.

(** ** Construction *)

Definition DEFAULT_SHARD_MULTIPLIER : Z := 4.

(** [usize::next_power_of_two]: overflows like [+]. *)
Definition next_power_of_two (p : profile) (n : Z) : outcome Z :=
  let r := 2 ^ Z.log2_up n in
  if r <=? USIZE_MAX then Ret r
  else match p with Debug => Panic | Release => Ret 0 end.

(** [normalize_shard_count]. *)
Definition normalize_shard_count (p : profile) (count : Z) : outcome Z :=
  next_power_of_two p (Z.max count 1).

(** [Vec::with_capacity(shard_count)]: panics when the shards do not fit the address
    space. *)
Definition reserve_shards `{EngineEnv} (shard_count : Z) : outcome unit :=
  if shard_count * shard_size <=? ISIZE_MAX then Ret tt else Panic.

(** [MemoryEngine::with_shard_count_and_capacity]. *)
Definition with_shard_count_and_capacity `{EngineEnv} (p : profile) (shards max_bytes : Z) :
    outcome MemoryEngine :=
  shard_count ← normalize_shard_count p shards;
  _ ← reserve_shards shard_count;
  mask ← usize_sub p shard_count 1;
  mret (mkEngine (replicate (Z.to_nat shard_count) shard_new) mask max_bytes 0 0).

(** [MemoryEngine::with_shard_count]. *)
Definition with_shard_count `{EngineEnv} (p : profile) (shards : Z) : outcome MemoryEngine :=
  with_shard_count_and_capacity p shards USIZE_MAX.

(** [MemoryEngine::new]; [threads] is [available_parallelism], if known. *)
Definition engine_new `{EngineEnv} (p : profile) (threads : option Z) : outcome MemoryEngine :=
  let threads := default 1 threads in
  with_shard_count p (saturating_mul USIZE_MAX threads DEFAULT_SHARD_MULTIPLIER).

(** ** Critical sections *)

(** What an operation works on while it holds a shard's write lock: the shard,
    and the atomic operations it performs on the engine's byte counter, in
    program order.  The counter is shared with threads that do not hold this
    lock; no operation reads it under a lock. *)
Record Locked := mkLocked { lk_inner : ShardInner; lk_ops : list Z }.

Definition inner {A} (m : SM A) : M Locked A :=
  zoom lk_inner (fun s l => mkLocked s (lk_ops l)) m.

(** [self.used_bytes.fetch_sub(n)] / [fetch_add(n)]: the amount added. *)
Definition used_sub (n : Z) : M Locked unit :=
  modify (fun l => mkLocked (lk_inner l) (lk_ops l ++ [- n])).
Definition used_add (n : Z) : M Locked unit :=
  modify (fun l => mkLocked (lk_inner l) (lk_ops l ++ [n])).

(** The counter after these operations: atomics wrap around. *)
Definition apply_ops (used : Z) (ops : list Z) : Z := foldl wrapping_add used ops.

(** [inner.map.get(key)]. *)
Definition map_get (key : bytes) : M Locked (option nat) :=
  inner (gets (fun s => sh_map s !! key)).

(** [if let Some(size) = inner.remove_idx(idx) { used_bytes.fetch_sub(size) }]. *)
Definition remove_and_account (idx : nat) : M Locked unit :=
  removed ← inner (remove_idx idx);
  match removed with
  | Some size => used_sub size
  | None => mret tt
  end.

(** [MemoryEngine::entry_size]. *)
Definition entry_size (p : profile) (key_len value_len : Z) : outcome Z :=
  usize_add p key_len value_len.

(** [KVEngine::get], under the lock of the key's shard. *)
Definition get_locked (key : bytes) (now : Z) : M Locked (HkvResult (option bytes)) :=
  found ← map_get key;
  match found with
  | None => mret (Ok None)
  | Some idx =>
      slot ← inner (node_slot idx);
      match slot with
      | None => mret (Ok None)
      | Some node =>
          if is_expired node now then
            _ ← remove_and_account idx;
            mret (Ok None)
          else
            slot' ← inner (node_slot idx);
            let value := node_value <$> slot' in
            _ ← inner (touch idx);
            mret (Ok value)
      end
  end.

(** The first block of [KVEngine::set]: an expired entry of the key is removed. *)
Definition set_cleanup (key : bytes) (now : Z) : M Locked unit :=
  found ← map_get key;
  match found with
  | Some idx =>
      slot ← inner (node_slot idx);
      let remove := (fun node => is_expired node now) <$> slot in
      if default false remove then remove_and_account idx else mret tt
  | None => mret tt
  end.

(** The second block of [KVEngine::set]: update in place, or insert. *)
Definition set_store (key value : bytes) (new_size : Z) : M Locked unit :=
  found ← map_get key;
  match found with
  | Some idx =>
      slot ← inner (node_slot idx);
      match slot with
      | Some node =>
          let old_size := node_size node in
          _ ← inner (set_slot idx (Some
                (mkNode (node_key node) value None new_size (node_prev node) (node_next node))));
          _ ← inner (touch idx);
          if old_size <? new_size then used_add (new_size - old_size)
          else if new_size <? old_size then used_sub (old_size - new_size)
          else mret tt
      | None => mret tt
      end
  | None =>
      _ ← inner (insert_new key value new_size);
      used_add new_size
  end.

(** [KVEngine::set] up to [drop(inner)]. *)
Definition set_locked (p : profile) (key value : bytes) (now : Z) : M Locked unit :=
  new_size ← lift (entry_size p (zlen key) (zlen value));
  _ ← set_cleanup key now;
  set_store key value new_size.

(** The expiry test shared by [delete], [expire] and [ttl]. *)
Definition slot_expired (idx : nat) (now : Z) : M Locked bool :=
  slot ← inner (node_slot idx);
  mret (default false ((fun node => is_expired node now) <$> slot)).

(** [KVEngine::delete], under the lock. *)
Definition delete_locked (key : bytes) (now : Z) : M Locked (HkvResult bool) :=
  found ← map_get key;
  match found with
  | None => mret (Ok false)
  | Some idx =>
      expired ← slot_expired idx now;
      _ ← remove_and_account idx;
      mret (Ok (negb expired))
  end.

(** [KVEngine::expire], under the lock. *)
Definition expire_locked (key : bytes) (ttl now : Z) : M Locked (HkvResult unit) :=
  found ← map_get key;
  match found with
  | None => mret (Err NotFound)
  | Some idx =>
      expired ← slot_expired idx now;
      if expired : bool then
        _ ← remove_and_account idx;
        mret (Err NotFound)
      else
        slot ← inner (node_slot idx);
        _ ← match slot with
            | Some node =>
                deadline ← lift (instant_add now ttl);
                inner (set_slot idx (Some
                  (mkNode (node_key node) (node_value node) (Some deadline)
                     (node_size node) (node_prev node) (node_next node))))
            | None => mret tt
            end;
        mret (Ok tt)
  end.

(** [KVEngine::ttl], under the lock. *)
Definition ttl_locked (key : bytes) (now : Z) : M Locked (HkvResult TtlStatus) :=
  found ← map_get key;
  match found with
  | None => mret (Ok Missing)
  | Some idx =>
      expired ← slot_expired idx now;
      if expired : bool then
        _ ← remove_and_account idx;
        mret (Ok Missing)
      else
        slot ← inner (node_slot idx);
        match slot ≫= node_expires_at with
        | None => mret (Ok NoExpiry)
        | Some deadline =>
            if deadline <=? now then
              _ ← remove_and_account idx;
              mret (Ok Missing)
            else mret (Ok (ExpiresIn (deadline - now)))
        end
  end.

Section engine_operations.
Context `{EngineEnv} (p : profile).

(** The two loops of [purge_expired] over one locked shard: collect the expired
    slots, then remove them. *)
Fixpoint collect_expired (now : Z) (idxs : list nat) : M Locked (list nat) :=
  match idxs with
  | [] => mret []
  | idx :: rest =>
      slot ← inner (node_slot idx);
      let expired := default false ((fun node => is_expired node now) <$> slot) in
      found ← collect_expired now rest;
      mret (if expired then idx :: found else found)
  end.

Fixpoint remove_all (idxs : list nat) : M Locked Z :=
  match idxs with
  | [] => mret 0
  | idx :: rest =>
      removed ← inner (remove_idx idx);
      match removed with
      | Some size =>
          _ ← used_sub size;
          n ← remove_all rest;
          mret (n + 1)
      | None => remove_all rest
      end
  end.

Definition purge_locked (now : Z) : M Locked Z :=
  idxs ← inner (gets (fun s => map_values (sh_map s)));
  expired ← collect_expired now idxs;
  remove_all expired.

(** ** Engine operations *)

(** Takes the write lock of shard [i] (a panic if there is no such shard), runs
    the critical section and releases the lock. *)
Definition lock_shard {A} (i : nat) (m : M Locked A) : EM A := fun e =>
  match eng_shards e !! i with
  | None => (Panic, e)
  | Some s =>
      let '(o, l) := m (mkLocked s []) in
      (o, mkEngine (<[i := lk_inner l]> (eng_shards e)) (eng_shard_mask e) (eng_max_bytes e)
            (apply_ops (eng_used_bytes e) (lk_ops l)) (eng_eviction_cursor e))
  end.

(** [MemoryEngine::shard_index]. *)
Definition shard_index (e : MemoryEngine) (key : bytes) : nat :=
  Z.to_nat (Z.land (ahash key) (eng_shard_mask e)).

(** [MemoryEngine::shard_for], followed by taking its lock. *)
Definition lock_for {A} (key : bytes) (m : M Locked A) : EM A :=
  i ← gets (fun e => shard_index e key);
  lock_shard i m.

(** [MemoryEngine::evict_one_from_shard]. *)
Definition evict_one_from_shard (i : nat) : EM (option Z) :=
  lock_shard i (inner pop_lru).

(** The [for] loop of [evict_if_needed]: true when an entry was evicted. *)
Fixpoint evict_scan (start : Z) (offsets : list nat) : EM bool :=
  match offsets with
  | [] => mret false
  | offset :: rest =>
      sum ← lift (usize_add p start (Z.of_nat offset));
      mask ← gets eng_shard_mask;
      let idx := Z.to_nat (Z.land sum mask) in
      evicted ← evict_one_from_shard idx;
      match evicted with
      | Some size =>
          _ ← modify (fun e => with_used (wrapping_sub (eng_used_bytes e) size) e);
          mret true
      | None => evict_scan start rest
      end
  end.

(** The outer [loop] of [evict_if_needed]. *)
Fixpoint evict_loop (fuel : nat) : EM unit :=
  match fuel with
  | O => out_of_fuel
  | S fuel' =>
      used ← gets eng_used_bytes;
      max_bytes ← gets eng_max_bytes;
      if used <=? max_bytes then mret tt
      else
        start ← gets eng_eviction_cursor;
        _ ← modify (with_cursor (wrapping_add start 1));
        shards ← gets (fun e => length (eng_shards e));
        evicted ← evict_scan start (seq 0 shards);
        if evicted : bool then evict_loop fuel' else mret tt
  end.

(** The number of resident entries; each round of the loop but the last removes
    one. *)
Definition entry_count (e : MemoryEngine) : nat :=
  sum_list ((fun s => length (lru_order s)) <$> eng_shards e).

(** [MemoryEngine::evict_if_needed]. *)
Definition evict_if_needed : EM unit :=
  max_bytes ← gets eng_max_bytes;
  if max_bytes =? USIZE_MAX then mret tt
  else
    n ← gets entry_count;
    evict_loop (S n).

(** [KVEngine for MemoryEngine]. *)
Definition get (key : bytes) (now : Z) : EM (HkvResult (option bytes)) :=
  lock_for key (get_locked key now).

Definition set (key value : bytes) (now : Z) : EM (HkvResult unit) :=
  _ ← lock_for key (set_locked p key value now);
  _ ← evict_if_needed;
  mret (Ok tt).

Definition delete (key : bytes) (now : Z) : EM (HkvResult bool) :=
  lock_for key (delete_locked key now).

Definition expire (key : bytes) (ttl now : Z) : EM (HkvResult unit) :=
  lock_for key (expire_locked key ttl now).

Definition ttl (key : bytes) (now : Z) : EM (HkvResult TtlStatus) :=
  lock_for key (ttl_locked key now).

(** [MemoryEngine::purge_expired]: one critical section per shard. *)
Fixpoint purge_shards (now : Z) (shards : list nat) : EM Z :=
  match shards with
  | [] => mret 0
  | i :: rest =>
      n ← lock_shard i (purge_locked now);
      m ← purge_shards now rest;
      mret (n + m)
  end.

Definition purge_expired (now : Z) : EM Z :=
  shards ← gets (fun e => length (eng_shards e));
  purge_shards now (seq 0 shards).

End engine_operations.

(** A concrete environment, for evaluating the model: the hash is the last
    eight bytes, the iteration order is the finite map's own. *)
Definition demo_env : EngineEnv := {|
  ahash := fun k => fold_left (fun h b => wrap64 (h * 256 + b)) k 0;
  map_values := fun m => (map_to_list m).*2;
  map_values_perm := fun m => Permutation_refl _;
  shard_size := 128;
  shard_size_range := ltac:(unfold ISIZE_MAX; lia)
|}.
