(* ===== verification/LockedOps.v ===== *)
(** * The critical sections of the engine against the list of entries

    For each operation of [KVEngine], its effect while the shard's lock is held:
    the result and the new list of entries are given by a pure function on the
    LRU-ordered list, nothing panics, the shard stays well formed and the shared
    byte counter moves by exactly the change of the shard's resident bytes. *)

From S2P Require Import Prelude HkvError Shard ShardInv ShardOps Engine.

(** ** Pure specifications on the list of entries *)

Definition entry_expired (now : Z) (e : entry) : bool :=
  match e_expires e with
  | Some deadline => deadline <=? now
  | None => false
  end.

(** The entry of [k], if present and not expired. *)
Definition live_entry (now : Z) (k : bytes) (es : list entry) : option entry :=
  match find_entry k es with
  | Some e => if entry_expired now e then None else Some e
  | None => None
  end.

(** A live entry becomes the most recently used; an expired one is dropped. *)
Definition spec_get (now : Z) (k : bytes) (es : list entry) : list entry :=
  match live_entry now k es with
  | Some _ => promote_key k id es
  | None => remove_key k es
  end.

Definition spec_set (k v : bytes) (es : list entry) : list entry :=
  remove_key k es ++ [mkEntry k v None].

Definition spec_expire (now : Z) (k : bytes) (deadline : Z) (es : list entry) : list entry :=
  match live_entry now k es with
  | Some _ => update_key k (fun e => mkEntry (e_key e) (e_value e) (Some deadline)) es
  | None => remove_key k es
  end.

Definition spec_ttl (now : Z) (k : bytes) (es : list entry) : list entry :=
  match live_entry now k es with
  | Some _ => es
  | None => remove_key k es
  end.

Definition ttl_of (now : Z) (o : option entry) : TtlStatus :=
  match o with
  | None => Missing
  | Some e =>
      match e_expires e with
      | None => NoExpiry
      | Some d => ExpiresIn (d - now)
      end
  end.

Definition spec_purge (now : Z) (es : list entry) : list entry :=
  filter (fun e => entry_expired now e = false) es.

(** ** Counter operations

    [ops_ok t0 g ops t]: the operations take the counter from [t0] to [t], never
    below zero in between, and add at most [g] in total. *)

Definition growth (ops : list Z) : Z := zsum (Z.max 0 <$> ops).

Record ops_ok (t0 g : Z) (ops : list Z) (t : Z) : Prop := mkOpsOk {
  oo_sum : t0 + zsum ops = t;
  oo_nonneg : forall ops1 ops2, ops = ops1 ++ ops2 -> 0 <= t0 + zsum ops1;
  oo_growth : growth ops <= g
}.

Lemma ops_ok_nil t : 0 <= t -> ops_ok t 0 [] t.
Proof.
  intros Ht. split; [by rewrite Z.add_0_r| |done].
  intros ops1 ops2 [-> _]%symmetry%app_nil. by rewrite Z.add_0_r.
Qed.

Lemma ops_ok_snoc t0 g ops t d :
  ops_ok t0 g ops t -> 0 <= t + d -> ops_ok t0 (g + Z.max 0 d) (ops ++ [d]) (t + d).
Proof.
  intros [Hs Hn Hg] Hd. split.
  - rewrite zsum_snoc. lia.
  - intros ops1 ops2 E. destruct ops2 as [|x ops2 _] using rev_ind.
    + rewrite app_nil_r in E. subst ops1. rewrite zsum_snoc. lia.
    + rewrite app_assoc in E. apply app_inj_tail in E as [E _]. by eapply Hn.
  - unfold growth in *. rewrite fmap_app. simpl. rewrite zsum_snoc. lia.
Qed.

(** ** Refinement relation

    The locked shard holds [es], and the counter operations so far account for
    the difference to the [t0] bytes it held when it was locked. *)

Definition lrep (t0 g : Z) (l : Locked) (es : list entry) : Prop :=
  shard_rep (lk_inner l) es /\ ops_ok t0 g (lk_ops l) (total_bytes es).

Lemma lrep_start s es : shard_rep s es -> lrep (total_bytes es) 0 (mkLocked s []) es.
Proof. intros Hs. split; [done|]. apply ops_ok_nil, total_bytes_nonneg. Qed.

Lemma lrep_same t0 g l es s' es' :
  lrep t0 g l es -> shard_rep s' es' -> total_bytes es' = total_bytes es ->
  lrep t0 g (mkLocked s' (lk_ops l)) es'.
Proof. intros [_ Ho] Hs E. split; [done|]. by rewrite E. Qed.

Lemma lrep_op t0 g l es s' es' d :
  lrep t0 g l es -> shard_rep s' es' -> total_bytes es' = total_bytes es + d ->
  lrep t0 (g + Z.max 0 d) (mkLocked s' (lk_ops l ++ [d])) es'.
Proof.
  intros [_ Ho] Hs E. split; [done|]. rewrite E. apply ops_ok_snoc; [done|].
  rewrite <- E. apply total_bytes_nonneg.
Qed.

Lemma lrep_weaken t0 g g' l es : lrep t0 g l es -> g <= g' -> lrep t0 g' l es.
Proof. intros [Hs [? ? ?]] Hg. split; [done|]. split; [done..|lia]. Qed.

(** A removal adds nothing. *)
Lemma lrep_sub t0 g l es s' es' n :
  lrep t0 g l es -> shard_rep s' es' -> total_bytes es' = total_bytes es - n -> 0 <= n ->
  lrep t0 g (mkLocked s' (lk_ops l ++ [- n])) es'.
Proof. intros Hl Hs E Hn. eapply lrep_weaken; [eapply lrep_op; [done..|lia]|lia]. Qed.

(** ** List facts *)

Lemma find_split es k e :
  NoDup (e_key <$> es) -> find_entry k es = Some e ->
  exists E1 E2, es = E1 ++ e :: E2 /\ e_key e = k /\
    forall e', e' ∈ E1 ++ E2 -> e_key e' ≠ k.
Proof.
  intros Hnd Hf. destruct (find_entry_Some _ _ _ Hf) as [Hin <-].
  apply list_elem_of_split in Hin as (E1 & E2 & ->). exists E1, E2. split_and!; [done..|].
  intros e' He'. rewrite fmap_app, fmap_cons, <- Permutation_middle, <- fmap_app in Hnd.
  apply NoDup_cons in Hnd as [Hni _]. intros E. apply Hni, list_elem_of_fmap. by exists e'.
Qed.

Lemma remove_key_None es k : find_entry k es = None -> remove_key k es = es.
Proof. intros H. by apply remove_key_id, find_entry_None. Qed.

Lemma total_bytes_remove es k e :
  NoDup (e_key <$> es) -> find_entry k es = Some e ->
  total_bytes (remove_key k es) = total_bytes es - entry_bytes e.
Proof.
  intros Hnd (E1 & E2 & -> & ? & ?)%find_split; [|done].
  rewrite remove_key_mid by done. autorewrite with hkv. lia.
Qed.

Lemma total_bytes_promote es k f e :
  NoDup (e_key <$> es) -> find_entry k es = Some e ->
  total_bytes (promote_key k f es) = total_bytes es - entry_bytes e + entry_bytes (f e).
Proof.
  intros Hnd Hf. unfold promote_key. rewrite Hf, total_bytes_app, total_bytes_cons.
  rewrite (total_bytes_remove es k e) by done. unfold total_bytes at 2. simpl. lia.
Qed.

Lemma total_bytes_update es k f :
  (forall e, e_key e = k -> entry_bytes (f e) = entry_bytes e) ->
  total_bytes (update_key k f es) = total_bytes es.
Proof.
  intros Hf. unfold update_key. induction es as [|e es IH]; [done|]. csimpl.
  rewrite !total_bytes_cons. f_equal; [|done]. case_decide; [by apply Hf|done].
Qed.

Lemma find_entry_remove k es : find_entry k (remove_key k es) = None.
Proof.
  apply find_entry_None. unfold remove_key. intros e [? _]%list_elem_of_filter. done.
Qed.

Lemma promote_update k f g es :
  (forall e, e_key (f e) = e_key e) -> NoDup (e_key <$> es) ->
  promote_key k g (update_key k f es) = promote_key k (g ∘ f) es.
Proof.
  intros Hk Hnd. destruct (find_entry k es) as [e|] eqn:Hf.
  - apply find_split in Hf as (E1 & E2 & -> & He & Hne); [|done].
    rewrite update_key_mid by done. rewrite !promote_key_mid by (by rewrite ?Hk). done.
  - pose proof (proj1 (find_entry_None _ _) Hf). rewrite update_key_id by done.
    unfold promote_key. by rewrite Hf.
Qed.

(** ** Running a critical section *)

Lemma runs_inner {A} (m : SM A) l (Q : A -> Locked -> Prop) :
  runs m (lk_inner l) (fun a s => Q a (mkLocked s (lk_ops l))) -> runs (inner m) l Q.
Proof.
  intros (a & s & E & H)%runs_inv. eapply runs_intro; [|exact H].
  unfold inner, zoom. by rewrite E.
Qed.

Lemma inner_run {A} (m : SM A) s u o s' :
  m s = (o, s') -> inner m (mkLocked s u) = (o, mkLocked s' u).
Proof. intros E. unfold inner, zoom. simpl. by rewrite E. Qed.

Lemma is_expired_entry n now : is_expired n now = entry_expired now (entry_of n).
Proof. done. Qed.

Ltac istep := apply runs_bind, runs_inner; cbn beta.

(** Looking a key up, and reading its slot. *)
Lemma map_get_run {B} t0 g l es k (f : option nat -> M Locked B) Q :
  lrep t0 g l es ->
  (find_entry k es = None -> runs (f None) l Q) ->
  (forall i n, sh_map (lk_inner l) !! k = Some i -> sh_nodes (lk_inner l) !! i = Some (Some n) ->
     node_key n = k -> find_entry k es = Some (entry_of n) -> runs (f (Some i)) l Q) ->
  runs (map_get k ≫= f) l Q.
Proof.
  intros [Hrep Hu] HN HS. unfold map_get. istep. mstep. destruct l as [s u]; simpl in *.
  destruct (sh_map s !! k) as [i|] eqn:E.
  - destruct (rep_lookup_Some _ _ _ _ Hrep E) as (n & Hn & Hk & Hf). eauto.
  - apply HN. by eapply rep_lookup_None.
Qed.

Lemma node_slot_step {B} l i o (f : option Node -> M Locked B) Q :
  sh_nodes (lk_inner l) !! i = Some o -> runs (f o) l Q -> runs (inner (node_slot i) ≫= f) l Q.
Proof.
  intros Ho H. istep. eapply runs_intro; [by apply node_slot_run|]. by destruct l.
Qed.

Lemma slot_expired_step {B} l i n now (f : bool -> M Locked B) Q :
  sh_nodes (lk_inner l) !! i = Some (Some n) ->
  runs (f (entry_expired now (entry_of n))) l Q -> runs (slot_expired i now ≫= f) l Q.
Proof.
  intros Ho H. apply runs_bind. unfold slot_expired. by eapply node_slot_step.
Qed.

(** [remove_idx] with its accounting. *)
Lemma remove_and_account_ok t0 g l es k i e :
  lrep t0 g l es -> sh_map (lk_inner l) !! k = Some i -> find_entry k es = Some e ->
  runs (remove_and_account i) l (fun _ l' => lrep t0 g l' (remove_key k es)).
Proof.
  intros Hl Hi Hf. pose proof Hl as [Hrep _]. unfold remove_and_account. istep.
  eapply runs_mono; [by eapply rep_remove|]; cbn beta; intros r s' (-> & Hrep' & _). rewrite Hf. simpl.
  apply runs_modify. cbn [lk_inner lk_ops]. eapply lrep_sub; [done..| |apply entry_bytes_nonneg].
  by rewrite (total_bytes_remove es k e) by eauto using rep_keys_nodup.
Qed.

(** Reads an occupied slot; reads it for its expiry. *)
Ltac slot_step := eapply node_slot_step; [done|]; cbn beta iota.
Ltac expired_step := eapply slot_expired_step; [done|]; cbn beta iota.

(** ** The operations *)

Lemma get_locked_ok t0 g l es k now :
  lrep t0 g l es ->
  runs (get_locked k now) l (fun r l' =>
    r = Ok (e_value <$> live_entry now k es) /\ lrep t0 g l' (spec_get now k es)).
Proof.
  intros Hl. unfold get_locked. eapply map_get_run; [done| |].
  - intros Hf. mstep. unfold spec_get, live_entry. rewrite Hf, remove_key_None by done. done.
  - intros i n Hi Hn Hk Hf. slot_step. rewrite is_expired_entry.
    unfold spec_get, live_entry. rewrite Hf. destruct (entry_expired now (entry_of n)) eqn:Ee.
    + mstep. eapply runs_mono; [by eapply remove_and_account_ok|]; cbn beta; intros _ l' Hl'. by mstep.
    + slot_step. pose proof Hl as [Hrep _]. istep.
      eapply runs_mono; [by eapply rep_touch|]; cbn beta; intros _ s' [Hrep' _]. mstep. split; [done|].
      eapply lrep_same; [done..|].
      rewrite (total_bytes_promote es k id (entry_of n)) by eauto using rep_keys_nodup. simpl. lia.
Qed.

Lemma ttl_locked_ok t0 g l es k now :
  lrep t0 g l es ->
  runs (ttl_locked k now) l (fun r l' =>
    r = Ok (ttl_of now (live_entry now k es)) /\ lrep t0 g l' (spec_ttl now k es)).
Proof.
  intros Hl. unfold ttl_locked. eapply map_get_run; [done| |].
  - intros Hf. mstep. unfold spec_ttl, live_entry. by rewrite Hf, remove_key_None.
  - intros i n Hi Hn Hk Hf. expired_step.
    unfold spec_ttl, live_entry. rewrite Hf. destruct (entry_expired now (entry_of n)) eqn:Ee.
    + mstep. eapply runs_mono; [by eapply remove_and_account_ok|]; cbn beta; intros _ l' Hl'. by mstep.
    + slot_step. simpl. unfold entry_expired in Ee. simpl in Ee.
      destruct (node_expires_at n) as [d|]; [|by mstep]. rewrite Ee. by mstep.
Qed.

Lemma delete_locked_ok t0 g l es k now :
  lrep t0 g l es ->
  runs (delete_locked k now) l (fun r l' =>
    r = Ok (bool_decide (is_Some (live_entry now k es))) /\ lrep t0 g l' (remove_key k es)).
Proof.
  intros Hl. unfold delete_locked. eapply map_get_run; [done| |].
  - intros Hf. mstep. unfold live_entry. by rewrite Hf, remove_key_None.
  - intros i n Hi Hn Hk Hf. expired_step. mstep.
    eapply runs_mono; [by eapply remove_and_account_ok|]; cbn beta; intros _ l' Hl'. mstep. split; [|done].
    unfold live_entry. rewrite Hf. by destruct (entry_expired now (entry_of n)).
Qed.

Lemma live_entry_Some now k es e :
  live_entry now k es = Some e <-> find_entry k es = Some e /\ entry_expired now e = false.
Proof.
  unfold live_entry. destruct (find_entry k es) as [e'|]; [|split; [done|by intros [? _]]].
  destruct (entry_expired now e') eqn:E.
  - split; [done|]. intros [[= ->] ?]. congruence.
  - split; [by intros [= ->]|by intros [? _]].
Qed.

Lemma expire_locked_ok t0 g l es k d now :
  lrep t0 g l es -> (is_Some (live_entry now k es) -> now + d <= INSTANT_MAX) ->
  runs (expire_locked k d now) l (fun r l' =>
    r = match live_entry now k es with Some _ => Ok tt | None => Err NotFound end /\
    lrep t0 g l' (spec_expire now k (now + d) es)).
Proof.
  intros Hl Hd. unfold expire_locked. eapply map_get_run; [done| |].
  - intros Hf. mstep. unfold spec_expire, live_entry. by rewrite Hf, remove_key_None.
  - intros i n Hi Hn Hk Hf. expired_step.
    unfold spec_expire, live_entry in *. rewrite Hf in *.
    destruct (entry_expired now (entry_of n)) eqn:Ee.
    + mstep. eapply runs_mono; [by eapply remove_and_account_ok|]; cbn beta; intros _ l' Hl'. by mstep.
    + slot_step. mstep. mstep.
      unfold instant_add. rewrite (proj2 (Z.leb_le _ _)) by eauto.
      apply (runs_intro _ _ (now + d) l); [done|]. cbn beta.
      pose proof Hl as [Hrep _]. apply node_at_lookup in Hn. apply runs_inner.
      eapply runs_intro; [apply set_slot_run; eauto with hkv|]. mstep. split; [done|].
      destruct (rep_split _ _ _ _ Hrep Hi) as (_ & _ & n0 & _ & Hn0 & _ & Hsz & _). simplify_eq.
      eapply (lrep_same _ _ l es); [done| |].
      * rewrite Hsz. unfold entry_bytes. simpl.
        eassert (update_key _ _ es = _) as ->; [|by eapply rep_update].
        unfold update_key. apply list_fmap_ext. intros j e Hj. case_decide as Ek; [|done].
        apply find_split in Hf as (E1 & E2 & -> & _ & Hne); [|by eapply rep_keys_nodup].
        assert (e ∈ entry_of n :: E1 ++ E2) as [->|]%elem_of_cons; [|done|naive_solver].
        rewrite Permutation_middle. by eapply list_elem_of_lookup_2.
      * by rewrite total_bytes_update.
Qed.

(** The panic of [now + ttl]: the entry stays as it was. *)
Lemma expire_locked_panic t0 g l es k d now :
  lrep t0 g l es -> is_Some (live_entry now k es) -> INSTANT_MAX < now + d ->
  expire_locked k d now l = (Panic, l).
Proof.
  intros [Hrep _] [e [Hf He]%live_entry_Some] Hd. destruct l as [s u]; simpl in *.
  destruct (sh_map s !! k) as [i|] eqn:Ei; [|by rewrite (rep_lookup_None _ _ _ Hrep Ei) in Hf].
  destruct (rep_lookup_Some _ _ _ _ Hrep Ei) as (n & Hn & Hk & Hf'). simplify_eq.
  assert (Hslot : inner (node_slot i) (mkLocked s u) = (Ret (Some n), mkLocked s u))
    by by apply inner_run, node_slot_run.
  unfold expire_locked.
  rewrite (bind_run (map_get (node_key n)) _ (mkLocked s u) (Some i) (mkLocked s u))
    by (apply inner_run; unfold gets; by rewrite Ei).
  rewrite (bind_run (slot_expired i now) _ (mkLocked s u) false (mkLocked s u))
    by (unfold slot_expired; rewrite (bind_run _ _ _ _ _ Hslot); simpl;
        by rewrite is_expired_entry, He).
  rewrite (bind_run _ _ _ _ _ Hslot).
  unfold lift, instant_add, mbind, M_bind. by rewrite (proj2 (Z.leb_gt _ _)).
Qed.

Lemma remove_key_idemp k es : remove_key k (remove_key k es) = remove_key k es.
Proof. apply remove_key_None, find_entry_remove. Qed.

Lemma set_cleanup_ok t0 g l es k now :
  lrep t0 g l es ->
  runs (set_cleanup k now) l (fun _ l' =>
    exists es', lrep t0 g l' es' /\ remove_key k es' = remove_key k es).
Proof.
  intros Hl. eapply map_get_run; [done| |].
  - intros _. mstep. eauto.
  - intros i n Hi Hn Hk Hf. slot_step. simpl. rewrite is_expired_entry.
    destruct (entry_expired now (entry_of n)) eqn:Ee; [|mstep; eauto].
    eapply runs_mono; [by eapply remove_and_account_ok|]; cbn beta; intros _ l' Hl'.
    exists (remove_key k es). split; [done|]. apply remove_key_idemp.
Qed.

Lemma set_store_ok t0 g l es k v :
  lrep t0 g l es ->
  runs (set_store k v (zlen k + zlen v)) l (fun _ l' => lrep t0 (g + (zlen k + zlen v)) l' (spec_set k v es)).
Proof.
  intros Hl. unfold spec_set. eapply map_get_run; [done| |].
  - intros Hf. pose proof Hl as [Hrep _]. istep. rewrite remove_key_None by done.
    eapply runs_mono; [eapply rep_insert; [done| |done]|]; cbn beta.
    { destruct (sh_map (lk_inner l) !! k) as [i|] eqn:Ei; [|done].
      destruct (rep_lookup_Some _ _ _ _ Hrep Ei) as (? & _ & _ & ?). congruence. }
    intros _ s' Hrep'. apply runs_modify. cbn [lk_inner lk_ops]. eapply lrep_weaken; [eapply lrep_op; [done..|]|].
    + rewrite total_bytes_app, total_bytes_cons. change (total_bytes []) with 0.
      unfold entry_bytes. simpl. lia.
    + unfold zlen. lia.
  - intros i n Hi Hn Hk Hf. slot_step. pose proof Hl as [Hrep _].
    apply node_at_lookup in Hn. pose proof (rep_keys_nodup _ _ Hrep) as Hnd.
    istep. eapply runs_intro; [apply set_slot_run; eauto with hkv|]. cbn beta.
    pose proof (rep_update _ _ _ _ _ v None Hrep Hi Hn) as Hrep1.
    istep. eapply runs_mono; [by eapply rep_touch|]; cbn beta; intros _ s' [Hrep' _].
    rewrite promote_update in Hrep' by done.
    unfold promote_key in Hrep'. rewrite Hf in Hrep'. simpl in Hrep'. rewrite Hk in Hrep'.
    destruct (rep_split _ _ _ _ Hrep Hi) as (_ & _ & n0 & _ & Hn0 & _ & Hsz & _). simplify_eq.
    assert (Hb : total_bytes (remove_key (node_key n) es ++ [mkEntry (node_key n) v None]) =
      total_bytes es + (zlen (node_key n) + zlen v) - node_size n).
    { rewrite total_bytes_app, (total_bytes_remove _ _ _ Hnd Hf), Hsz.
      unfold total_bytes at 2. simpl. unfold entry_bytes at 2. simpl. lia. }
    assert (0 <= node_size n) by (rewrite Hsz; apply entry_bytes_nonneg).
    assert (0 <= zlen (node_key n) + zlen v) by (unfold zlen; lia).
    destruct (Z.ltb_spec (node_size n) (zlen (node_key n) + zlen v));
      [|destruct (Z.ltb_spec (zlen (node_key n) + zlen v) (node_size n))];
      [apply runs_modify|apply runs_modify|apply runs_ret]; cbn [lk_inner lk_ops].
    + eapply lrep_weaken; [eapply lrep_op; [done..|rewrite Hb; lia]|lia].
    + eapply lrep_weaken; [eapply lrep_sub; [done..|rewrite Hb; lia|lia]|lia].
    + eapply lrep_weaken; [eapply lrep_same; [done..|rewrite Hb; lia]|lia].
Qed.

Lemma set_locked_ok p t0 g l es k v now :
  lrep t0 g l es -> zlen k + zlen v <= USIZE_MAX ->
  runs (set_locked p k v now) l (fun _ l' => lrep t0 (g + (zlen k + zlen v)) l' (spec_set k v es)).
Proof.
  intros Hl Hsz. unfold set_locked. mstep.
  apply (runs_intro _ _ (zlen k + zlen v) l).
  { unfold lift, entry_size, usize_add. by rewrite (proj2 (Z.leb_le _ _)). }
  cbn beta. mstep. eapply runs_mono; [by eapply set_cleanup_ok|]; cbn beta.
  intros _ l1 (es1 & Hl1 & Hrm). unfold spec_set. rewrite <- Hrm. by apply set_store_ok.
Qed.

(** ** The expiry sweep of one shard *)

Definition slot_is_expired (now : Z) (ns : list (option Node)) (i : nat) : bool :=
  default false ((fun n => is_expired n now) <$> node_at ns i).

Lemma collect_expired_run now idxs l :
  (forall i, i ∈ idxs -> is_Some (node_at (sh_nodes (lk_inner l)) i)) ->
  collect_expired now idxs l =
    (Ret (filter (fun i => slot_is_expired now (sh_nodes (lk_inner l)) i = true) idxs), l).
Proof.
  intros Hocc. induction idxs as [|i idxs IH]; [done|].
  destruct l as [s u]. cbn [lk_inner] in *.
  destruct (Hocc i) as [n Hn]; [set_solver|]. pose proof Hn as Hl%node_at_lookup.
  cbn [collect_expired].
  rewrite (bind_run _ _ _ (Some n) (mkLocked s u)) by by apply inner_run, node_slot_run.
  cbn beta. rewrite (bind_run _ _ _ _ _ (IH ltac:(set_solver))).
  assert (Hs : slot_is_expired now (sh_nodes s) i = is_expired n now)
    by (unfold slot_is_expired; by rewrite Hn).
  rewrite filter_cons, Hs. simpl. by destruct (is_expired n now).
Qed.

Lemma Forall2_lookup_delete (m : gmap bytes nat) k idxs ks :
  k ∉ ks -> Forall2 (fun i k' => m !! k' = Some i) idxs ks ->
  Forall2 (fun i k' => base.delete k m !! k' = Some i) idxs ks.
Proof.
  intros Hk Hfa. induction Hfa as [|i k' idxs ks Hi Hfa IH]; constructor; [|set_solver].
  rewrite lookup_delete_ne; [done|]. set_solver.
Qed.

Lemma remove_all_ok t0 g l es idxs ks :
  lrep t0 g l es -> Forall2 (fun i k => sh_map (lk_inner l) !! k = Some i) idxs ks -> NoDup ks ->
  runs (remove_all idxs) l (fun r l' =>
    r = zlen ks /\ lrep t0 g l' (filter (fun e => e_key e ∉ ks) es)).
Proof.
  intros Hl Hfa Hnd. revert l es Hl Hfa Hnd.
  induction idxs as [|i idxs IH] in ks |- *; intros l es Hl Hfa Hnd.
  { apply Forall2_nil_inv_l in Hfa as ->. cbn [remove_all]. mstep. split; [done|].
    rewrite filter_all; [done|]. set_solver. }
  apply Forall2_cons_inv_l in Hfa as (k & ks' & Hi & Hfa & ->).
  apply NoDup_cons in Hnd as [Hk Hnd]. cbn [remove_all].
  destruct (rep_lookup_Some _ _ _ _ (proj1 Hl) Hi) as (n & Hn & Hkn & Hf).
  pose proof Hl as [Hrep _]. istep.
  eapply runs_mono; [by eapply rep_remove|]; cbn beta; intros r s' (-> & Hrep' & Em).
  rewrite Hf. simpl. mstep. apply runs_modify. mstep.
  eapply runs_mono; [apply (IH ks')|]; [|cbn [lk_inner]; rewrite Em| |].
  - cbn [lk_inner lk_ops]. eapply (lrep_sub _ _ l es); [done|done| |apply entry_bytes_nonneg].
    by rewrite (total_bytes_remove es k (entry_of n)) by eauto using rep_keys_nodup.
  - by apply Forall2_lookup_delete.
  - done.
  - cbn beta. intros r l' [-> Hl']. mstep. split; [rewrite zlen_cons; lia|].
    unfold remove_key in Hl'. rewrite list_filter_filter in Hl'.
    erewrite filter_ext_in; [exact Hl'|]. intros e _. simpl. set_solver.
Qed.

(** The slots the sweep collects, and their keys. *)
Definition slot_key (ns : list (option Node)) (i : nat) : bytes :=
  default [] (node_key <$> node_at ns i).

Section expired_slots.
Context (s : ShardInner) (now : Z) (idxs : list nat).
Context (Hinv : shard_inv s) (Hperm : idxs ≡ₚ lru_order s).

Let ex := filter (fun i => slot_is_expired now (sh_nodes s) i = true) idxs.

Lemma swept_slot_occupied i : i ∈ idxs -> exists n, node_at (sh_nodes s) i = Some n.
Proof.
  intros Hi. rewrite Hperm in Hi. apply (ok_live _ _ Hinv) in Hi as [n Hn]. eauto.
Qed.

Lemma swept_slots_indexed : Forall2 (fun i k => sh_map s !! k = Some i) ex (slot_key (sh_nodes s) <$> ex).
Proof.
  apply Forall2_fmap_r, Forall_Forall2_diag, Forall_forall. intros i [_ Hi]%list_elem_of_filter.
  destruct (swept_slot_occupied i Hi) as [n Hn]. apply (idx_map _ (ok_index _ _ Hinv)).
  exists n. unfold slot_key. by rewrite Hn.
Qed.

Lemma swept_keys_nodup : NoDup (slot_key (sh_nodes s) <$> ex).
Proof.
  apply NoDup_fmap_2_strong.
  - intros i j [_ Hi]%list_elem_of_filter [_ Hj]%list_elem_of_filter.
    destruct (swept_slot_occupied i Hi) as [n Hn], (swept_slot_occupied j Hj) as [m Hm].
    unfold slot_key. rewrite Hn, Hm. simpl. eapply key_slot_inj; eauto. apply Hinv.
  - apply NoDup_filter. rewrite Hperm. apply Hinv.
Qed.

Lemma swept_slots_count :
  length ex = length (filter (fun e => entry_expired now e = true) (entries s)).
Proof.
  unfold ex. rewrite Hperm. apply filter_omap_length. intros i Hi. rewrite <- Hperm in Hi.
  destruct (swept_slot_occupied i Hi) as [n Hn]. exists (entry_of n).
  unfold slot_is_expired. by rewrite Hn.
Qed.

Lemma swept_keys_iff e :
  e ∈ entries s -> e_key e ∈ slot_key (sh_nodes s) <$> ex <-> entry_expired now e = true.
Proof.
  intros (i & n & Hi & Hn & ->)%elem_of_entries. rewrite list_elem_of_fmap. split.
  - intros (j & Ek & [Hx Hj]%list_elem_of_filter).
    destruct (swept_slot_occupied j Hj) as [m Hm].
    unfold slot_key in Ek. unfold slot_is_expired in Hx. rewrite Hm in Ek, Hx. simpl in *.
    assert (i = j) as -> by (eapply key_slot_inj; eauto; apply Hinv). by simplify_eq.
  - intros E. exists i. unfold slot_key, ex. rewrite Hn, list_elem_of_filter, Hperm.
    unfold slot_is_expired. by rewrite Hn.
Qed.

End expired_slots.

Lemma purge_locked_ok `{EngineEnv} t0 g l es now :
  lrep t0 g l es ->
  runs (purge_locked now) l (fun r l' =>
    r = zlen (filter (fun e => entry_expired now e = true) es) /\
    lrep t0 g l' (spec_purge now es)).
Proof.
  intros Hl. pose proof Hl as [[Hinv Hes] _]. destruct l as [s u]; cbn [lk_inner] in *.
  unfold purge_locked. istep. mstep.
  assert (Hperm : map_values (sh_map s) ≡ₚ lru_order s) by by rewrite map_values_perm, map_values_order.
  apply runs_bind. eapply runs_intro; [apply collect_expired_run|].
  { intros i Hi. eapply swept_slot_occupied in Hi as [n Hn]; eauto. }
  cbn beta. eapply runs_mono; [eapply remove_all_ok|]; [done|..]; cbn [lk_inner lk_ops].
  - by apply swept_slots_indexed.
  - by apply swept_keys_nodup.
  - intros r l' [-> Hl']. split.
    + unfold zlen. by rewrite length_fmap, swept_slots_count, Hes.
    + unfold spec_purge. erewrite filter_ext_in; [exact Hl'|]. intros e He. rewrite <- Hes in He.
      rewrite <- not_true_iff_false. apply not_iff_compat. symmetry. by apply swept_keys_iff.
Qed.
