(* ===== verification/KVEngine.v ===== *)
(** * The engine interface (hkv-engine/src/engine.rs: [trait KVEngine])

    The trait as a class of operations over a mutable engine, its contract as an
    abstract key-value store with deadlines, and the class of implementations
    that meet the contract.  The server's theorems are proved against
    [KVEngineLaws]; [EngineSpec] proves it for [MemoryEngine]. *)

From S2P Require Import Prelude HkvError Engine.

(** ** The trait *)

(** Every method may read the clock; [now] is what [Instant::now()] returns. *)
Class KVEngine (E : Type) := {
  kv_get : bytes -> Z -> M E (HkvResult (option bytes));
  kv_set : bytes -> bytes -> Z -> M E (HkvResult unit);
  kv_delete : bytes -> Z -> M E (HkvResult bool);
  kv_expire : bytes -> Z -> Z -> M E (HkvResult unit);
  kv_ttl : bytes -> Z -> M E (HkvResult TtlStatus)
}.

(** ** The abstract store

    A key maps to its value and optional deadline.  An entry whose deadline has
    passed is invisible; it is dropped by the first operation that meets it. *)

Abbreviation kv := (gmap bytes (bytes * option Z)).

Definition value_expired (now : Z) (x : bytes * option Z) : bool :=
  match x.2 with
  | Some deadline => deadline <=? now
  | None => false
  end.

Definition live (now : Z) (k : bytes) (m : kv) : option (bytes * option Z) :=
  match m !! k with
  | Some x => if value_expired now x then None else Some x
  | None => None
  end.

(** Drops the entry of [k] if it has expired. *)
Definition settle (now : Z) (k : bytes) (m : kv) : kv :=
  match live now k m with
  | Some _ => m
  | None => base.delete k m
  end.

Definition abs_expire (now : Z) (k : bytes) (ttl : Z) (m : kv) : kv :=
  match live now k m with
  | Some (v, _) => <[k := (v, Some (now + ttl))]> m
  | None => base.delete k m
  end.

Definition abs_ttl (now : Z) (k : bytes) (m : kv) : TtlStatus :=
  match live now k m with
  | None => Missing
  | Some (_, None) => NoExpiry
  | Some (_, Some d) => ExpiresIn (d - now)
  end.

(** ** The contract

    [kv_inv] is the implementation's invariant and [kv_store] its content.  The
    sizes a [Vec] can have keep [key.len() + value.len()] in range; an expiry
    beyond the clock's range is the one call the contract does not cover. *)

Class KVEngineLaws (E : Type) `{KVEngine E} := {
  kv_inv : E -> Prop;
  kv_store : E -> kv;
  law_get : forall e k now, kv_inv e ->
    runs (kv_get k now) e (fun r e' => kv_inv e' /\
      r = Ok (fst <$> live now k (kv_store e)) /\
      kv_store e' = settle now k (kv_store e));
  law_set : forall e k v now, kv_inv e -> zlen k + zlen v <= USIZE_MAX ->
    runs (kv_set k v now) e (fun r e' => kv_inv e' /\
      r = Ok tt /\ kv_store e' = <[k := (v, None)]> (kv_store e));
  law_delete : forall e k now, kv_inv e ->
    runs (kv_delete k now) e (fun r e' => kv_inv e' /\
      r = Ok (bool_decide (is_Some (live now k (kv_store e)))) /\
      kv_store e' = base.delete k (kv_store e));
  law_expire : forall e k ttl now, kv_inv e ->
    (is_Some (live now k (kv_store e)) -> now + ttl <= INSTANT_MAX) ->
    runs (kv_expire k ttl now) e (fun r e' => kv_inv e' /\
      r = match live now k (kv_store e) with Some _ => Ok tt | None => Err NotFound end /\
      kv_store e' = abs_expire now k ttl (kv_store e));
  law_ttl : forall e k now, kv_inv e ->
    runs (kv_ttl k now) e (fun r e' => kv_inv e' /\
      r = Ok (abs_ttl now k (kv_store e)) /\
      kv_store e' = settle now k (kv_store e))
}.

(** ** Facts about the abstract store *)

Implicit Types (k v : bytes) (now : Z) (x : bytes * option Z).

Lemma live_Some now k (m : kv) x :
  live now k m = Some x <-> m !! k = Some x /\ value_expired now x = false.
Proof.
  unfold live. destruct (m !! k) as [y|]; [|split; [done|by intros [? _]]].
  destruct (value_expired now y) eqn:E.
  - split; [done|]. intros [[= ->] ?]. congruence.
  - split; [by intros [= ->]|by intros [? _]].
Qed.

(** Dropping expired entries is invisible: what is live now or later is kept. *)
Lemma live_settle now now' k k' (m : kv) :
  now <= now' -> live now' k' (settle now k m) = live now' k' m.
Proof.
  intros Hle. unfold settle. destruct (live now k m) eqn:E; [done|]. unfold live at 1 2.
  rewrite lookup_delete. case_decide; subst; [|done]. unfold live in E.
  destruct (m !! k') as [[v [d|]]|]; try done. unfold value_expired in *. simpl in *.
  destruct (Z.leb_spec d now); [|done]. by rewrite (proj2 (Z.leb_le d now')) by lia.
Qed.

Lemma live_insert_eq now k v (m : kv) : live now k (<[k := (v, None)]> m) = Some (v, None).
Proof. unfold live. by rewrite lookup_insert_eq. Qed.

Lemma live_insert_ne now k k' x (m : kv) : k ≠ k' -> live now k' (<[k := x]> m) = live now k' m.
Proof. intros. unfold live. by rewrite lookup_insert_ne. Qed.

Lemma live_delete_eq now k (m : kv) : live now k (base.delete k m) = None.
Proof. unfold live. by rewrite lookup_delete_eq. Qed.

Lemma live_delete_ne now k k' (m : kv) : k ≠ k' -> live now k' (base.delete k m) = live now k' m.
Proof. intros. unfold live. by rewrite lookup_delete_ne. Qed.
