(* ===== verification/EngineInv.v ===== *)
(** * Engine invariant and the lifting of critical sections

    [eng_rep e ess]: every shard of [e] is well formed and holds the entries of
    [ess], every key lives in the shard its hash selects, the mask selects an
    existing shard for every hash, and the byte counter is the resident total.
    [store e] is the engine's content as a finite map. *)

From S2P Require Import Prelude HkvError Shard ShardInv ShardOps Engine LockedOps KVEngine.

(** ** Definitions *)

Definition entry_value (en : entry) : bytes * option Z := (e_value en, e_expires en).

Definition store_of (ess : list (list entry)) : kv :=
  list_to_map ((fun en => (e_key en, entry_value en)) <$> mjoin ess).

(** The content of an engine. *)
Definition store (e : MemoryEngine) : kv := store_of (entries <$> eng_shards e).

Definition resident_bytes (ess : list (list entry)) : Z := foldr Z.add 0 (total_bytes <$> ess).

Section engine_inv.
Context `{EngineEnv}.

Record eng_rep (e : MemoryEngine) (ess : list (list entry)) : Prop := mkEngRep {
  er_shards : Forall2 shard_rep (eng_shards e) ess;
  er_used : eng_used_bytes e = wrap64 (resident_bytes ess);
  er_mask : exists b, 0 <= b <= 64 /\ Z.of_nat (length (eng_shards e)) = 2 ^ b /\
              eng_shard_mask e = Z.ones b;
  er_placed : forall i es en, ess !! i = Some es -> en ∈ es -> shard_index e (e_key en) = i
}.

(** The invariant of [MemoryEngine]. *)
Definition eng_inv (e : MemoryEngine) : Prop := eng_rep e (entries <$> eng_shards e).

(** What the operations on entries leave alone. *)
Definition same_config (e e' : MemoryEngine) : Prop :=
  eng_shard_mask e' = eng_shard_mask e /\ eng_max_bytes e' = eng_max_bytes e /\
  eng_eviction_cursor e' = eng_eviction_cursor e.

(** ** Lemmas *)

Lemma resident_bytes_insert ess i es es' :
  ess !! i = Some es ->
  resident_bytes (<[i := es']> ess) = resident_bytes ess - total_bytes es + total_bytes es'.
Proof.
  revert i. induction ess as [|x ess IH]; intros [|i]; simpl; intros Hi; try done.
  - simplify_eq. unfold resident_bytes. simpl. lia.
  - specialize (IH i Hi). unfold resident_bytes in *. csimpl. rewrite IH. lia.
Qed.

Lemma eng_rep_entries e ess : eng_rep e ess -> ess = entries <$> eng_shards e.
Proof.
  intros [Hsh _ _ _]. apply list_eq_Forall2. apply Forall2_fmap_r.
  eapply Forall2_flip, Forall2_impl; [exact Hsh|]. by intros s es [_ ?].
Qed.

Lemma eng_rep_inv e ess : eng_rep e ess -> eng_inv e.
Proof. intros He. unfold eng_inv. by rewrite <- (eng_rep_entries _ _ He). Qed.

Lemma eng_rep_store e ess : eng_rep e ess -> store e = store_of ess.
Proof. intros He. unfold store. by rewrite <- (eng_rep_entries _ _ He). Qed.

(** Masking selects an existing shard. *)
Lemma eng_rep_masked e ess h :
  eng_rep e ess -> (Z.to_nat (Z.land h (eng_shard_mask e)) < length (eng_shards e))%nat.
Proof.
  intros [_ _ (b & Hb & Hn & ->) _]. rewrite Z.land_ones by lia.
  pose proof (Z.mod_pos_bound h (2 ^ b)). lia.
Qed.

(** The shard of a key exists. *)
Lemma eng_rep_shard e ess k :
  eng_rep e ess -> exists es, ess !! shard_index e k = Some es.
Proof.
  intros He. apply lookup_lt_is_Some. rewrite <- (Forall2_length _ _ _ (er_shards _ _ He)).
  by eapply eng_rep_masked.
Qed.

(** The counter after a sequence of operations. *)
Lemma apply_ops_sum x ops : apply_ops (wrap64 x) ops = wrap64 (x + zsum ops).
Proof.
  unfold apply_ops. revert x. induction ops as [|d ops IH]; intros x; simpl; [by rewrite Z.add_0_r|].
  unfold wrapping_add at 2. rewrite wrap64_add_l, IH. f_equal. lia.
Qed.

(** Runs a critical section on shard [i]. *)
Lemma lock_shard_ok {A} i (m : M Locked A) e ess es (Q : A -> list entry -> Prop) :
  eng_rep e ess -> ess !! i = Some es ->
  (forall t0 l, lrep t0 0 l es -> runs m l (fun a l' => exists es' g, lrep t0 g l' es' /\ Q a es')) ->
  (forall a es' en, Q a es' -> en ∈ es' -> shard_index e (e_key en) = i) ->
  runs (lock_shard i m) e (fun a e' => exists es', Q a es' /\
    eng_rep e' (<[i := es']> ess) /\ same_config e e').
Proof.
  intros [Hsh Hu Hmask Hpl] Hi Hm HQ.
  destruct (Forall2_lookup_r _ _ _ _ _ Hsh Hi) as (s & Hs & Hrep).
  destruct (runs_inv _ _ _ (Hm _ _ (lrep_start _ _ Hrep))) as (a & l' & E & es' & g & [Hrep' [Hops _ _]] & Ha).
  eapply runs_intro; [unfold lock_shard; by rewrite Hs, E|].
  exists es'. split; [done|]. split; [|done]. split; simpl.
  - by apply Forall2_insert.
  - rewrite Hu, apply_ops_sum, (resident_bytes_insert _ _ es _ Hi). f_equal. lia.
  - by rewrite length_insert.
  - intros j es0 en Hj Hen. destruct (decide (i = j)) as [->|Hij].
    + rewrite list_lookup_insert_eq in Hj by by eapply lookup_lt_Some. simplify_eq. by eapply HQ.
    + rewrite list_lookup_insert_ne in Hj by done. by eapply Hpl.
Qed.

(** ** The content of the engine *)

Lemma keys_nodup e ess : eng_rep e ess -> NoDup (e_key <$> mjoin ess).
Proof.
  intros [Hsh _ _ Hpl]. clear -Hsh Hpl. revert Hsh Hpl.
  generalize (eng_shards e) as shs. intros shs Hsh Hpl.
  assert (Hpl' : exists f : bytes -> nat, exists b, forall i es en, ess !! i = Some es -> en ∈ es ->
    f (e_key en) = (i + b)%nat).
  { exists (shard_index e), O. intros i es en ? ?. rewrite Nat.add_0_r. eauto. }
  clear Hpl. destruct Hpl' as (f & b & Hpl). revert b Hpl.
  induction Hsh as [|s es shs ess Hrep Hsh IH]; intros b Hpl; simpl; [constructor|].
  rewrite fmap_app. apply NoDup_app. split_and!.
  - by eapply rep_keys_nodup.
  - intros k (en & -> & Hen)%list_elem_of_fmap (en' & Ek & Hen')%list_elem_of_fmap.
    apply list_elem_of_join in Hen' as (es' & Hen' & [j Hj]%list_elem_of_lookup).
    pose proof (Hpl O es en eq_refl Hen). pose proof (Hpl (S j) es' en' Hj Hen').
    rewrite Ek in *. lia.
  - apply (IH (S b)). intros i es' en Hi Hen. rewrite (Hpl (S i) es' en Hi Hen). lia.
Qed.

Lemma store_of_lookup_Some e ess k x :
  eng_rep e ess ->
  store_of ess !! k = Some x <-> exists en, en ∈ mjoin ess /\ e_key en = k /\ entry_value en = x.
Proof.
  intros He. unfold store_of.
  rewrite <- (elem_of_list_to_map (M := gmap bytes)).
  - rewrite list_elem_of_fmap. split; [intros (en & [= -> ->] & ?); eauto|].
    intros (en & ? & <- & <-). eauto.
  - rewrite <- list_fmap_compose. simpl. by eapply keys_nodup.
Qed.

(** The store at [k] is the entry of [k] in its shard. *)
Lemma store_lookup e ess k es :
  eng_rep e ess -> ess !! shard_index e k = Some es ->
  store_of ess !! k = entry_value <$> find_entry k es.
Proof.
  intros He Hes. apply option_eq. intros x. rewrite (store_of_lookup_Some _ _ _ _ He).
  rewrite fmap_Some. split.
  - intros (en & (es' & Hen & [i Hi]%list_elem_of_lookup)%list_elem_of_join & <- & <-).
    pose proof (er_placed _ _ He _ _ _ Hi Hen) as <-. simplify_eq.
    exists en. split; [|done].
    destruct (Forall2_lookup_r _ _ _ _ _ (er_shards _ _ He) Hes) as (s & _ & Hrep).
    pose proof (rep_keys_nodup _ _ Hrep) as Hnd.
    apply list_elem_of_split in Hen as (E1 & E2 & ->).
    apply find_entry_mid; [done|]. intros e' He' E.
    rewrite fmap_app in Hnd. apply NoDup_app in Hnd as (_ & Hd & _).
    apply (Hd (e_key e')); [by apply list_elem_of_fmap_2|]. rewrite E. csimpl. set_solver.
  - intros (en & Hf & ->). destruct (find_entry_Some _ _ _ Hf) as [Hen <-].
    exists en. split; [|done]. apply list_elem_of_join. exists es. split; [done|].
    by eapply list_elem_of_lookup_2.
Qed.

(** The store has as many keys as the shards have entries. *)
Lemma store_size e ess : eng_rep e ess -> size (store_of ess) = length (mjoin ess).
Proof.
  intros He. unfold store_of. rewrite map_size_list_to_map.
  - by rewrite length_fmap.
  - rewrite <- list_fmap_compose. simpl. by eapply keys_nodup.
Qed.

End engine_inv.
