(* ===== verification/EngineSpec.v ===== *)
(** * The engine refines the abstract store

    Each operation of [MemoryEngine], on any engine satisfying the invariant and
    for any shard placement, returns what the abstract store of [KVEngine]
    prescribes, leaves the prescribed content, and keeps the invariant.  [set]
    is treated here up to eviction, and completely for an engine without a byte
    limit; [Eviction] treats the byte limit. *)

From S2P Require Import Prelude HkvError Shard ShardInv ShardOps Engine LockedOps KVEngine EngineInv.

(** ** Lookups in the updated lists *)

Lemma find_entry_app k E1 E2 :
  find_entry k (E1 ++ E2) =
    match find_entry k E1 with Some e => Some e | None => find_entry k E2 end.
Proof. induction E1 as [|e E1 IH]; simpl; [done|]. by case_decide. Qed.

Lemma find_entry_remove_ne k k' es :
  k' ≠ k -> find_entry k' (remove_key k es) = find_entry k' es.
Proof.
  intros Hne. unfold remove_key. induction es as [|e es IH]; simpl; [done|].
  rewrite filter_cons. case_decide as Hk; simpl; [by rewrite IH|].
  rewrite IH, decide_False; [done|]. congruence.
Qed.

Lemma find_entry_promote k k' es : find_entry k' (promote_key k id es) = find_entry k' es.
Proof.
  unfold promote_key. destruct (find_entry k es) as [e|] eqn:Hf; [|done].
  destruct (find_entry_Some _ _ _ Hf) as [_ <-]. rewrite find_entry_app. simpl.
  destruct (decide (k' = e_key e)) as [->|Hne].
  - by rewrite find_entry_remove, decide_True.
  - rewrite find_entry_remove_ne by done. rewrite decide_False by done.
    by destruct (find_entry k' es).
Qed.

Lemma find_entry_set k v es : find_entry k (spec_set k v es) = Some (mkEntry k v None).
Proof. unfold spec_set. rewrite find_entry_app, find_entry_remove. simpl. by rewrite decide_True. Qed.

Lemma find_entry_set_ne k k' v es :
  k' ≠ k -> find_entry k' (spec_set k v es) = find_entry k' es.
Proof.
  intros. unfold spec_set. rewrite find_entry_app, find_entry_remove_ne by done. simpl.
  rewrite decide_False by done. by destruct (find_entry k' es).
Qed.

Lemma find_entry_update k k' f es :
  (forall e, e_key (f e) = e_key e) ->
  find_entry k' (update_key k f es) =
    if decide (k' = k) then f <$> find_entry k' es else find_entry k' es.
Proof.
  intros Hf. unfold update_key. induction es as [|e es IH]; csimpl; [by case_decide|].
  rewrite IH. destruct (decide (e_key e = k)) as [<-|Hk].
  - rewrite Hf. destruct (decide (e_key e = k')) as [<-|Hk']; [by rewrite decide_True|done].
  - destruct (decide (e_key e = k')) as [<-|Hk']; [by rewrite decide_False|done].
Qed.

Lemma find_entry_purge now k es :
  NoDup (e_key <$> es) -> find_entry k (spec_purge now es) = live_entry now k es.
Proof.
  intros Hnd. unfold spec_purge, live_entry. induction es as [|e es IH]; [done|].
  csimpl in Hnd. apply NoDup_cons in Hnd as [Hni Hnd]. rewrite filter_cons. simpl.
  destruct (decide (e_key e = k)) as [<-|Hk].
  - destruct (entry_expired now e) eqn:Ee; simpl.
    + rewrite IH by done. destruct (find_entry (e_key e) es) as [e'|] eqn:Hf; [|done].
      destruct (find_entry_Some _ _ _ Hf) as [? Ek]. exfalso. apply Hni. rewrite <- Ek.
      by apply list_elem_of_fmap_2.
    + by rewrite decide_True.
  - destruct (entry_expired now e) eqn:Ee; simpl; [by apply IH|].
    rewrite decide_False by done. by apply IH.
Qed.

Section engine_spec.
Context `{EngineEnv}.
Implicit Types (k v : bytes) (now : Z).

(** ** One critical section on the shard of [k] *)

Lemma lock_for_ok {A} k (m : M Locked A) e :
  eng_inv e ->
  exists es, store e !! k = entry_value <$> find_entry k es /\
    forall (R : A) (es' : list entry),
      (exists g, forall t0 l, lrep t0 0 l es -> runs m l (fun a l' => a = R /\ lrep t0 g l' es')) ->
      (forall k', k' ≠ k -> find_entry k' es' = find_entry k' es) ->
      runs (lock_for k m) e (fun a e' => a = R /\ eng_inv e' /\ same_config e e' /\
        store e' = partial_alter (fun _ => entry_value <$> find_entry k es') k (store e)).
Proof.
  intros He. set (ess := entries <$> eng_shards e) in *.
  destruct (eng_rep_shard e ess k He) as [es Hes]. exists es.
  split; [by eapply store_lookup|]. intros R es' [g Hm] Hother.
  unfold lock_for. mstep. mstep.
  eapply runs_mono; [apply (lock_shard_ok _ _ _ _ _ (fun a x => a = R /\ x = es') He Hes)|].
  - intros t0 l Hl. eapply runs_mono; [by apply Hm|]. cbn beta. intros a l' [-> Hl']. eauto 6.
  - intros a x en [_ ->] Hen. destruct (decide (e_key en = k)) as [->|Hne]; [done|].
    destruct (find_entry (e_key en) es') as [en'|] eqn:Hf.
    + rewrite Hother in Hf by done. destruct (find_entry_Some _ _ _ Hf) as [Hin <-].
      by eapply (er_placed _ _ He).
    + by eapply find_entry_None in Hf.
  - cbn beta. intros a e' (x & [-> ->] & He' & Hc). split; [done|].
    split; [by eapply eng_rep_inv|]. split; [done|].
    rewrite (eng_rep_store _ _ He'). apply map_eq. intros k'.
    assert (Hsi : shard_index e' k' = shard_index e k').
    { unfold shard_index. by rewrite (proj1 Hc). }
    destruct (decide (k = k')) as [<-|Hne].
    + rewrite lookup_partial_alter_eq. apply (store_lookup _ _ _ _ He').
      rewrite Hsi. apply list_lookup_insert_eq. by eapply lookup_lt_Some.
    + rewrite lookup_partial_alter_ne by done.
      destruct (decide (shard_index e k = shard_index e k')) as [Es|Es].
      * rewrite (store_lookup _ _ k' es' He'), Hother; [|done|].
        { symmetry. apply (store_lookup _ _ _ _ He). fold ess. by rewrite <- Es. }
        rewrite Hsi, <- Es. apply list_lookup_insert_eq. by eapply lookup_lt_Some.
      * destruct (eng_rep_shard e ess k' He) as [es0 Hes0].
        rewrite (store_lookup _ _ k' es0 He'); [symmetry; by apply (store_lookup _ _ _ _ He)|].
        by rewrite Hsi, list_lookup_insert_ne.
Qed.

Lemma live_of_entry now k e es :
  store e !! k = entry_value <$> find_entry k es ->
  live now k (store e) = entry_value <$> live_entry now k es.
Proof.
  intros E. unfold live, live_entry. rewrite E. destruct (find_entry k es) as [en|]; [|done].
  simpl. unfold entry_expired, value_expired. simpl.
  destruct (e_expires en) as [d|]; [|done]. by destruct (d <=? now).
Qed.

Lemma alter_same k (m : kv) o : m !! k = o -> partial_alter (fun _ => o) k m = m.
Proof. intros <-. apply partial_alter_self. Qed.

(** What dropping or keeping the entry of [k] does to the store. *)
Lemma settle_of_entry now k e es es' :
  store e !! k = entry_value <$> find_entry k es ->
  find_entry k es' = live_entry now k es ->
  partial_alter (fun _ => entry_value <$> find_entry k es') k (store e) = settle now k (store e).
Proof.
  intros E Hf. unfold settle. rewrite (live_of_entry now k e es E), Hf.
  destruct (live_entry now k es) as [en|] eqn:El; simpl; [|done].
  apply live_entry_Some in El as [Hf' _]. apply alter_same. by rewrite E, Hf'.
Qed.

(** ** The operations *)

Lemma get_refines e k now :
  eng_inv e ->
  runs (get k now) e (fun r e' => eng_inv e' /\ same_config e e' /\
    r = Ok (fst <$> live now k (store e)) /\ store e' = settle now k (store e)).
Proof.
  intros He. destruct (lock_for_ok k (get_locked k now) e He) as (es & Hk & Hrun).
  eapply runs_mono; [apply Hrun|].
  - exists 0. intros t0 l Hl. by apply get_locked_ok.
  - intros k' Hne. unfold spec_get.
    destruct (live_entry now k es); [apply find_entry_promote|by apply find_entry_remove_ne].
  - cbn beta. intros r e' (-> & He' & Hc & ->). split_and!; [done..| |].
    + rewrite (live_of_entry now k e es Hk). by destruct (live_entry now k es).
    + eapply settle_of_entry; [done|]. unfold spec_get.
      destruct (live_entry now k es) eqn:El; [|apply find_entry_remove].
      rewrite find_entry_promote. by apply live_entry_Some in El as [? _].
Qed.

Lemma ttl_refines e k now :
  eng_inv e ->
  runs (ttl k now) e (fun r e' => eng_inv e' /\ same_config e e' /\
    r = Ok (abs_ttl now k (store e)) /\ store e' = settle now k (store e)).
Proof.
  intros He. destruct (lock_for_ok k (ttl_locked k now) e He) as (es & Hk & Hrun).
  eapply runs_mono; [apply Hrun|].
  - exists 0. intros t0 l Hl. by apply ttl_locked_ok.
  - intros k' Hne. unfold spec_ttl.
    destruct (live_entry now k es); [done|by apply find_entry_remove_ne].
  - cbn beta. intros r e' (-> & He' & Hc & ->). split_and!; [done..| |].
    + unfold abs_ttl. rewrite (live_of_entry now k e es Hk). unfold ttl_of.
      destruct (live_entry now k es) as [en|]; [|done]. simpl. by destruct (e_expires en).
    + eapply settle_of_entry; [done|]. unfold spec_ttl.
      destruct (live_entry now k es) eqn:El; [|apply find_entry_remove].
      by apply live_entry_Some in El as [? _].
Qed.

Lemma delete_refines e k now :
  eng_inv e ->
  runs (delete k now) e (fun r e' => eng_inv e' /\ same_config e e' /\
    r = Ok (bool_decide (is_Some (live now k (store e)))) /\
    store e' = base.delete k (store e)).
Proof.
  intros He. destruct (lock_for_ok k (delete_locked k now) e He) as (es & Hk & Hrun).
  eapply runs_mono; [apply Hrun|].
  - exists 0. intros t0 l Hl. by apply delete_locked_ok.
  - intros k' Hne. by apply find_entry_remove_ne.
  - cbn beta. intros r e' (-> & He' & Hc & ->). split_and!; [done..| |].
    + rewrite (live_of_entry now k e es Hk). by destruct (live_entry now k es).
    + by rewrite find_entry_remove.
Qed.

Lemma expire_refines e k d now :
  eng_inv e -> (is_Some (live now k (store e)) -> now + d <= INSTANT_MAX) ->
  runs (expire k d now) e (fun r e' => eng_inv e' /\ same_config e e' /\
    r = match live now k (store e) with Some _ => Ok tt | None => Err NotFound end /\
    store e' = abs_expire now k d (store e)).
Proof.
  intros He Hd. destruct (lock_for_ok k (expire_locked k d now) e He) as (es & Hk & Hrun).
  pose proof (live_of_entry now k e es Hk) as Hlive. rewrite Hlive, fmap_is_Some in Hd.
  eapply runs_mono; [apply Hrun|].
  - exists 0. intros t0 l Hl. by apply expire_locked_ok.
  - intros k' Hne. unfold spec_expire.
    destruct (live_entry now k es); [|by apply find_entry_remove_ne].
    by rewrite find_entry_update, decide_False.
  - cbn beta. intros r e' (-> & He' & Hc & ->). unfold abs_expire, spec_expire. rewrite Hlive.
    destruct (live_entry now k es) as [en|] eqn:El; simpl; split_and!; try done.
    + apply live_entry_Some in El as [Hf _].
      by rewrite find_entry_update, decide_True, Hf.
    + by rewrite find_entry_remove.
Qed.

Lemma set_locked_refines p e k v now :
  eng_inv e -> zlen k + zlen v <= USIZE_MAX ->
  runs (lock_for k (set_locked p k v now)) e (fun _ e' => eng_inv e' /\ same_config e e' /\
    store e' = <[k := (v, None)]> (store e)).
Proof.
  intros He Hsz. destruct (lock_for_ok k (set_locked p k v now) e He) as (es & Hk & Hrun).
  eapply runs_mono; [apply (Hrun tt (spec_set k v es))|].
  - eexists. intros t0 l Hl. eapply runs_mono; [by apply set_locked_ok|]. cbn beta. by intros [] l' ?.
  - intros k' Hne. by apply find_entry_set_ne.
  - cbn beta. intros r e' (_ & He' & Hc & ->). split_and!; [done..|].
    by rewrite find_entry_set.
Qed.

(** With no byte limit, [set] evicts nothing. *)
Lemma set_refines p e k v now :
  eng_inv e -> eng_max_bytes e = USIZE_MAX -> zlen k + zlen v <= USIZE_MAX ->
  runs (set p k v now) e (fun r e' => eng_inv e' /\ same_config e e' /\ r = Ok tt /\
    store e' = <[k := (v, None)]> (store e)).
Proof.
  intros He Hmax Hsz. unfold set. mstep. eapply runs_mono; [by apply set_locked_refines|].
  cbn beta. intros _ e' (He' & Hc & Hst). mstep. unfold evict_if_needed. mstep. mstep.
  rewrite (proj1 (proj2 Hc)), Hmax, Z.eqb_refl. mstep. by mstep.
Qed.

(** The panic of [expire]: nothing changes. *)
Lemma expire_panics e k d now :
  eng_inv e -> is_Some (live now k (store e)) -> INSTANT_MAX < now + d ->
  expire k d now e = (Panic, e).
Proof.
  intros He Hlv Hd. destruct (eng_rep_shard _ _ k He) as [es Hes].
  rewrite (live_of_entry now k e es), fmap_is_Some in Hlv by by eapply store_lookup.
  destruct (Forall2_lookup_r _ _ _ _ _ (er_shards _ _ He) Hes) as (s & Hs & Hrep).
  unfold expire, lock_for, lock_shard, gets, mbind, M_bind. rewrite Hs.
  rewrite (expire_locked_panic _ _ _ _ _ _ _ (lrep_start _ _ Hrep) Hlv Hd). simpl.
  rewrite list_insert_id by done. by destruct e.
Qed.

(** ** The sweep *)

Definition expired_count (now : Z) (es : list entry) : Z :=
  zlen (filter (fun en => entry_expired now en = true) es).

Lemma purge_shards_ok now e pre rest :
  eng_rep e (pre ++ rest) ->
  runs (purge_shards now (seq (length pre) (length rest))) e (fun n e' =>
    same_config e e' /\ n = foldr Z.add 0 (expired_count now <$> rest) /\
    eng_rep e' (pre ++ (spec_purge now <$> rest))).
Proof.
  revert e pre. induction rest as [|es rest IH]; intros e pre He; cbn [length seq purge_shards].
  { by mstep. }
  assert (Hes : (pre ++ es :: rest) !! length pre = Some es) by by apply list_lookup_middle.
  mstep. eapply runs_mono;
    [apply (lock_shard_ok _ _ _ _ _ (fun n x => n = expired_count now es /\ x = spec_purge now es) He Hes)|].
  - intros t0 l Hl. eapply runs_mono; [by apply purge_locked_ok|]. cbn beta.
    intros n l' [-> Hl']. eauto 6.
  - intros n x en [_ ->] [_ Hen]%list_elem_of_filter. by eapply (er_placed _ _ He).
  - cbn beta. intros n e1 (x & [-> ->] & He1 & Hc1).
    rewrite insert_app_r_alt, Nat.sub_diag in He1 by lia. simpl in He1.
    rewrite cons_middle, (assoc_L (++)) in He1. mstep.
    replace (S (length pre)) with (length (pre ++ [spec_purge now es])) by (rewrite length_app; simpl; lia).
    eapply runs_mono; [by apply IH|]. cbn beta. intros n e2 (Hc2 & -> & He2). mstep.
    split_and!; [unfold same_config in *; naive_solver congruence|done|].
    rewrite <- (assoc_L (++)) in He2. exact He2.
Qed.

Lemma store_of_purge now e ess e' :
  eng_rep e ess -> eng_rep e' (spec_purge now <$> ess) -> same_config e e' ->
  store_of (spec_purge now <$> ess) = filter (fun kx => value_expired now kx.2 = false) (store_of ess).
Proof.
  intros He He' Hc. apply map_eq. intros k. destruct (eng_rep_shard e ess k He) as [es Hes].
  rewrite (store_lookup e' _ k (spec_purge now es) He').
  - destruct (Forall2_lookup_r _ _ _ _ _ (er_shards _ _ He) Hes) as (s & _ & Hrep).
    rewrite find_entry_purge by by eapply rep_keys_nodup.
    pose proof (store_lookup _ _ _ _ He Hes) as Hk. rewrite <- (eng_rep_store _ _ He) in Hk |- *.
    rewrite <- (live_of_entry now k e es Hk). apply option_eq. intros x.
    by rewrite live_Some, map_lookup_filter_Some.
  - unfold shard_index. rewrite (proj1 Hc). fold (shard_index e k). by rewrite list_lookup_fmap, Hes.
Qed.

Lemma expired_counts now ess :
  foldr Z.add 0 (expired_count now <$> ess) = zlen (mjoin ess) - zlen (mjoin (spec_purge now <$> ess)).
Proof.
  induction ess as [|es ess IH]; [done|]. csimpl. rewrite IH, !zlen_app.
  assert (expired_count now es = zlen es - zlen (spec_purge now es)); [|lia].
  unfold expired_count, spec_purge. induction es as [|en es IHes]; [done|].
  rewrite !filter_cons, zlen_cons. destruct (entry_expired now en); simpl; rewrite !zlen_cons; lia.
Qed.

Lemma purge_refines e now :
  eng_inv e ->
  runs (purge_expired now) e (fun n e' => eng_inv e' /\ same_config e e' /\
    store e' = filter (fun kx => value_expired now kx.2 = false) (store e) /\
    n = Z.of_nat (size (store e)) - Z.of_nat (size (store e'))).
Proof.
  intros He. unfold purge_expired. mstep. mstep.
  rewrite <- (length_fmap entries). eapply runs_mono; [by apply (purge_shards_ok now e [])|].
  cbn beta. intros n e' (Hc & -> & He'). split_and!; [by eapply eng_rep_inv|done|..].
  - rewrite (eng_rep_store _ _ He'). by eapply store_of_purge.
  - rewrite (eng_rep_store _ _ He'), (eng_rep_store _ _ He), (store_size _ _ He'), (store_size _ _ He).
    apply expired_counts.
Qed.

End engine_spec.
