(* ===== verification/Eviction.v ===== *)
(** * Byte-budget eviction and engine construction

    [evict_run] is the specification of [evict_if_needed] as a step relation on
    the shards' LRU-ordered entries: while the resident bytes exceed the budget,
    the first non-empty shard from the round-robin cursor loses its least
    recently used entry.  The loop of the code terminates and follows it, so
    that the budget holds after every [set]. *)

From S2P Require Import Prelude HkvError Shard ShardInv ShardOps Engine LockedOps KVEngine.
From S2P Require Import EngineInv EngineSpec.

(** ** Specification *)

(** The shard evicted from: the first non-empty one in cyclic order from
    [cursor]. *)
Definition victim (cursor : Z) (ess : list (list entry)) : option nat :=
  snd <$> list_find (fun i => ess !! i ≠ Some [])
    ((fun off => Z.to_nat ((cursor + Z.of_nat off) mod Z.of_nat (length ess))) <$> seq 0 (length ess)).

Inductive evict_run (max : Z) : Z -> list (list entry) -> list (list entry) -> Prop :=
| evict_stop cursor ess :
    resident_bytes ess <= max -> evict_run max cursor ess ess
| evict_step cursor ess i en es ess' :
    max < resident_bytes ess -> victim cursor ess = Some i -> ess !! i = Some (en :: es) ->
    evict_run max (wrap64 (cursor + 1)) (<[i := es]> ess) ess' ->
    evict_run max cursor ess ess'.

(** In a debug build the cursor arithmetic [start + offset] must not overflow
    during the [n] rounds the loop can make. *)
Definition cursor_safe (p : profile) (cursor n : Z) : Prop :=
  match p with
  | Debug => cursor + n <= USIZE_MAX
  | Release => True
  end.

(** ** Consequences of the specification *)

Lemma resident_bytes_nonneg ess : 0 <= resident_bytes ess.
Proof.
  induction ess as [|es ess IH]; [done|]. unfold resident_bytes in *. csimpl.
  pose proof (total_bytes_nonneg es). lia.
Qed.

Lemma evict_run_bound max c ess ess' : evict_run max c ess ess' -> resident_bytes ess' <= max.
Proof. by induction 1. Qed.

(** Only least recently used entries go: what is left of a shard is a suffix. *)
Lemma evict_run_suffix max c ess ess' :
  evict_run max c ess ess' -> Forall2 (fun es' es => es' `suffix_of` es) ess' ess.
Proof.
  induction 1 as [c ess|c ess i en es ess' _ _ Hi _ IH].
  - apply Forall_Forall2_diag, Forall_forall. by intros.
  - apply Forall2_same_length_lookup in IH as [Hlen IH].
    apply Forall2_same_length_lookup. rewrite length_insert in Hlen. split; [done|].
    intros j es' es0 Hj Hj0. destruct (decide (i = j)) as [->|Hij].
    + simplify_eq. etransitivity; [apply (IH j es' es); [done|]|by exists [en]].
      apply list_lookup_insert_eq. by eapply lookup_lt_Some.
    + apply (IH j); [done|]. by rewrite list_lookup_insert_ne.
Qed.

(** Nothing is evicted beyond need: putting the last victim back exceeds the
    budget. *)
Lemma evict_run_minimal max c ess ess' :
  evict_run max c ess ess' ->
  ess' = ess \/ exists i en es, ess' !! i = Some es /\ en ∈ mjoin ess /\
    max < resident_bytes ess' + entry_bytes en.
Proof.
  induction 1 as [c ess|c ess i en es ess' Hmax _ Hi Hrun IH]; [by left|right].
  destruct IH as [->|(j & en' & es' & Hj & Hin & Hlt)].
  - exists i, en, es. split_and!.
    + apply list_lookup_insert_eq. by eapply lookup_lt_Some.
    + apply list_elem_of_join. exists (en :: es). split; [set_solver|by eapply list_elem_of_lookup_2].
    + rewrite (resident_bytes_insert _ _ _ es Hi), total_bytes_cons. lia.
  - exists j, en', es'. split_and!; [done| |done].
    apply list_elem_of_join in Hin as (es0 & Hin & [m Hm]%list_elem_of_lookup).
    apply list_elem_of_join. destruct (decide (i = m)) as [->|Him].
    + rewrite list_lookup_insert_eq in Hm by by eapply lookup_lt_Some. simplify_eq.
      exists (en :: es0). split; [set_solver|by eapply list_elem_of_lookup_2].
    + rewrite list_lookup_insert_ne in Hm by done. exists es0.
      split; [done|by eapply list_elem_of_lookup_2].
Qed.

Section eviction.
Context `{EngineEnv} (p : profile).

(** ** One eviction *)

Lemma evict_one_None e ess i :
  eng_rep e ess -> ess !! i = Some [] -> evict_one_from_shard i e = (Ret None, e).
Proof.
  intros He Hi. destruct (Forall2_lookup_r _ _ _ _ _ (er_shards _ _ He) Hi) as (s & Hs & Hrep).
  destruct (runs_inv _ _ _ (rep_pop _ _ Hrep)) as (r & s' & E & -> & ->).
  unfold evict_one_from_shard, lock_shard. rewrite Hs.
  rewrite (inner_run _ _ _ _ _ E). simpl. rewrite list_insert_id by done. by destruct e.
Qed.

Lemma evict_one_Some e ess i en es :
  eng_rep e ess -> ess !! i = Some (en :: es) ->
  exists e1, evict_one_from_shard i e = (Ret (Some (entry_bytes en)), e1) /\ same_config e e1 /\
    eng_rep (with_used (wrapping_sub (eng_used_bytes e1) (entry_bytes en)) e1) (<[i := es]> ess).
Proof.
  intros [Hsh Hu Hmask Hpl] Hi.
  destruct (Forall2_lookup_r _ _ _ _ _ Hsh Hi) as (s & Hs & Hrep).
  destruct (runs_inv _ _ _ (rep_pop _ _ Hrep)) as (r & s' & E & -> & Hrep').
  eexists. split; [unfold evict_one_from_shard, lock_shard; rewrite Hs;
    rewrite (inner_run _ _ _ _ _ E); done|]. split; [done|]. split; simpl.
  - by apply Forall2_insert.
  - rewrite Hu. unfold wrapping_sub. rewrite wrap64_sub_l. f_equal.
    rewrite (resident_bytes_insert _ _ _ es Hi), total_bytes_cons. lia.
  - by rewrite length_insert.
  - intros j es0 en0 Hj Hin. destruct (decide (i = j)) as [->|Hij].
    + rewrite list_lookup_insert_eq in Hj by by eapply lookup_lt_Some. simplify_eq.
      apply (Hpl j (en :: es0)); [done|set_solver].
    + rewrite list_lookup_insert_ne in Hj by done. by eapply Hpl.
Qed.

(** The shard index the scan computes, in either profile. *)
Lemma scan_index e ess start off :
  eng_rep e ess -> 0 <= start -> cursor_safe p start (Z.of_nat off) ->
  exists sum, usize_add p start (Z.of_nat off) = Ret sum /\
    Z.to_nat (Z.land sum (eng_shard_mask e)) =
    Z.to_nat ((start + Z.of_nat off) mod Z.of_nat (length ess)).
Proof.
  intros He Hst Hsafe. destruct (er_mask _ _ He) as (b & Hb & Hn & Hm).
  rewrite <- (Forall2_length _ _ _ (er_shards _ _ He)), Hn, Hm. unfold usize_add.
  destruct (Z.leb_spec (start + Z.of_nat off) USIZE_MAX) as [Hle|Hgt].
  - eexists. split; [done|]. by rewrite Z.land_ones by lia.
  - destruct p; simpl in Hsafe; [lia|]. eexists. split; [done|].
    rewrite Z.land_ones by lia. f_equal. unfold wrap64.
    replace 18446744073709551616 with (2 ^ b * 2 ^ (64 - b)).
    + rewrite Z.rem_mul_r by (apply Z.pow_nonzero || apply Z.pow_pos_nonneg; lia).
      rewrite Z.mul_comm, Z.mod_add by (apply Z.pow_nonzero; lia). apply Zmod_mod.
    + rewrite <- Z.pow_add_r by lia. by replace (b + (64 - b)) with 64 by lia.
Qed.

(** ** The scan over the shards *)

Lemma evict_scan_ok e ess start offs :
  eng_rep e ess -> 0 <= start -> (forall off, off ∈ offs -> cursor_safe p start (Z.of_nat off)) ->
  match list_find (fun i => ess !! i ≠ Some [])
          ((fun off => Z.to_nat ((start + Z.of_nat off) mod Z.of_nat (length ess))) <$> offs) with
  | Some (_, i) => exists en es e', ess !! i = Some (en :: es) /\
      evict_scan p start offs e = (Ret true, e') /\ same_config e e' /\ eng_rep e' (<[i := es]> ess)
  | None => evict_scan p start offs e = (Ret false, e)
  end.
Proof.
  intros He Hst. induction offs as [|off offs IH]; intros Hsafe; [done|].
  destruct (scan_index e ess start off He Hst) as (sum & Esum & Eidx); [set_solver|].
  rewrite fmap_cons. cbn [list_find]. set (i := Z.to_nat ((start + Z.of_nat off) mod Z.of_nat (length ess))) in *.
  assert (Hi : (i < length ess)%nat).
  { rewrite <- Eidx, <- (Forall2_length _ _ _ (er_shards _ _ He)). by eapply eng_rep_masked. }
  assert (Estep : evict_scan p start (off :: offs) e =
    (evict_one_from_shard i ≫= fun evicted => match evicted with
      | Some size => _ ← modify (fun e => with_used (wrapping_sub (eng_used_bytes e) size) e); mret true
      | None => evict_scan p start offs end) e).
  { cbn [evict_scan]. rewrite (bind_run _ _ e sum e) by (unfold lift; by rewrite Esum).
    rewrite (bind_run _ _ e (eng_shard_mask e) e) by done. by rewrite Eidx. }
  rewrite Estep. apply lookup_lt_is_Some in Hi as [es Hes]. case_decide as Hne.
  - destruct es as [|en es]; [done|].
    destruct (evict_one_Some _ _ _ _ _ He Hes) as (e1 & E1 & Hc & He1).
    exists en, es, (with_used (wrapping_sub (eng_used_bytes e1) (entry_bytes en)) e1).
    by rewrite (bind_run _ _ _ _ _ E1).
  - rewrite (bind_run _ _ _ _ _ (evict_one_None _ _ _ He Hne)).
    specialize (IH ltac:(set_solver)). by destruct (list_find _ _) as [[]|].
Qed.

(** If no shard is eligible, nothing is resident. *)
Lemma victim_None c ess : victim c ess = None -> resident_bytes ess = 0.
Proof.
  unfold victim. rewrite fmap_None, list_find_None, Forall_fmap, Forall_forall. intros Hall.
  assert (Hempty : forall es, es ∈ ess -> es = []).
  { intros es [i Hi]%list_elem_of_lookup. pose proof (lookup_lt_Some _ _ _ Hi) as Hlt.
    set (n := Z.of_nat (length ess)) in *. assert (0 < n) by lia.
    specialize (Hall (Z.to_nat ((Z.of_nat i - c) mod n))). simpl in Hall.
    pose proof (Z.mod_pos_bound (Z.of_nat i - c) n ltac:(lia)) as Hb.
    rewrite Z2Nat.id, Zplus_mod_idemp_r in Hall by lia.
    replace (c + (Z.of_nat i - c)) with (Z.of_nat i) in Hall by lia.
    rewrite (Z.mod_small (Z.of_nat i) n), Nat2Z.id, Hi in Hall by lia.
    destruct es; [done|exfalso]. apply Hall; [apply elem_of_seq; lia|done]. }
  clear Hall. induction ess as [|es ess IH]; [done|]. unfold resident_bytes in *. csimpl.
  rewrite IH by set_solver. by rewrite (Hempty es) by set_solver.
Qed.

Lemma length_join_insert (ess : list (list entry)) i en es :
  ess !! i = Some (en :: es) -> length (mjoin ess) = S (length (mjoin (<[i := es]> ess))).
Proof.
  intros Hi. apply list_elem_of_split_length in Hi as (l1 & l2 & -> & ->).
  rewrite insert_app_r_alt, Nat.sub_diag by lia. simpl.
  rewrite !length_join, !fmap_app. csimpl. rewrite !sum_list_with_app. simpl. lia.
Qed.

Lemma cursor_safe_next q c n : 0 <= c -> 0 <= n -> cursor_safe q c (1 + n) -> cursor_safe q (wrapping_add c 1) n.
Proof. destruct q; [|done]. simpl. intros. unfold wrapping_add. rewrite wrap64_small; lia. Qed.

Lemma cursor_safe_le q c n n' : n' <= n -> cursor_safe q c n -> cursor_safe q c n'.
Proof. destruct q; [|done]. simpl. lia. Qed.

(** The loop terminates, follows the specification, and advances the cursor once
    per evicted entry. *)
Lemma evict_loop_ok fuel e ess :
  eng_rep e ess -> (length (mjoin ess) < fuel)%nat -> 0 <= eng_eviction_cursor e <= USIZE_MAX ->
  cursor_safe p (eng_eviction_cursor e) (Z.of_nat fuel + zlen ess) ->
  0 <= eng_max_bytes e -> resident_bytes ess <= USIZE_MAX ->
  runs (evict_loop p fuel) e (fun _ e' => exists ess', eng_rep e' ess' /\
    eng_shard_mask e' = eng_shard_mask e /\ eng_max_bytes e' = eng_max_bytes e /\
    eng_eviction_cursor e' = wrap64 (eng_eviction_cursor e + (zlen (mjoin ess) - zlen (mjoin ess'))) /\
    evict_run (eng_max_bytes e) (eng_eviction_cursor e) ess ess').
Proof.
  revert e ess. induction fuel as [|fuel IH]; intros e ess He Hfuel Hc0 Hsafe Hmax Hres; [lia|].
  cbn [evict_loop]. mstep. mstep. mstep. mstep.
  assert (Hu : eng_used_bytes e = resident_bytes ess).
  { rewrite (er_used _ _ He). apply wrap64_small. split; [apply resident_bytes_nonneg|done]. }
  rewrite Hu. destruct (Z.leb_spec (resident_bytes ess) (eng_max_bytes e)) as [Hle|Hgt].
  { mstep. exists ess. split_and!; [done..| |by apply evict_stop].
    rewrite Z.sub_diag, Z.add_0_r. symmetry. by apply wrap64_small. }
  mstep. mstep. mstep. mstep. mstep. mstep. mstep.
  set (c := eng_eviction_cursor e) in *. set (e1 := with_cursor (wrapping_add c 1) e).
  assert (He1 : eng_rep e1 ess) by (destruct He; by split).
  assert (Hlen : length (eng_shards e1) = length ess) by apply (Forall2_length _ _ _ (er_shards _ _ He1)).
  pose proof (evict_scan_ok e1 ess c (seq 0 (length ess)) He1 (proj1 Hc0)) as Hscan.
  rewrite Hlen. destruct (list_find _ _) as [[o i]|] eqn:Hv.
  2: { assert (resident_bytes ess = 0); [|lia]. apply (victim_None c). unfold victim. by rewrite Hv. }
  destruct Hscan as (en & es & e2 & Hi & E2 & (Hm2 & Hx2 & Hcu2) & He2).
  { intros off Hoff%elem_of_seq. eapply cursor_safe_le; [|exact Hsafe]. unfold zlen. lia. }
  eapply runs_intro; [exact E2|]. cbn beta iota.
  pose proof (length_join_insert _ _ _ _ Hi) as Hcount.
  eapply runs_mono; [apply (IH e2 (<[i := es]> ess) He2)|]; rewrite ?Hcu2, ?Hx2.
  - lia.
  - apply wrap64_range.
  - apply cursor_safe_next; [lia|pose proof (zlen_nonneg (<[i := es]> ess)); lia|].
    eapply cursor_safe_le; [|exact Hsafe]. unfold zlen. rewrite length_insert. lia.
  - done.
  - rewrite (resident_bytes_insert _ _ _ es Hi), total_bytes_cons.
    pose proof (entry_bytes_nonneg en). lia.
  - cbn beta. intros _ e3 (ess' & He3 & Hm3 & Hx3 & Hcnt & Hrun). exists ess'.
    split_and!; [done|by rewrite Hm3, Hm2|done| |].
    + rewrite Hcnt. cbn [e1 with_cursor eng_eviction_cursor]. unfold wrapping_add, zlen.
      rewrite wrap64_add_l, Hcount. f_equal. lia.
    + eapply evict_step; [done|by unfold victim; rewrite Hv|done|]. exact Hrun.
Qed.

Lemma entry_count_rep e ess : eng_rep e ess -> entry_count e = length (mjoin ess).
Proof.
  intros He. unfold entry_count. rewrite length_join. f_equal.
  apply list_eq_Forall2. rewrite Forall2_fmap. eapply Forall2_impl; [exact (er_shards _ _ He)|].
  intros s es [Hok <-]. simpl. unfold entries. symmetry.
  unfold shard_inv in Hok. destruct Hok as [[_ _ _ Hseg] _ _].
  change (length (entries_of (sh_nodes s) (lru_order s)) = length (lru_order s)).
  revert Hseg. generalize (@None nat) at 1. induction (lru_order s) as [|i L IH]; [done|].
  intros q (n & Hn & _ & _ & HL). rewrite entries_of_cons, Hn. simpl. f_equal. by eapply IH.
Qed.

Lemma evict_if_needed_ok e ess :
  eng_rep e ess -> 0 <= eng_max_bytes e < USIZE_MAX -> resident_bytes ess <= USIZE_MAX ->
  0 <= eng_eviction_cursor e <= USIZE_MAX ->
  cursor_safe p (eng_eviction_cursor e) (1 + zlen (mjoin ess) + zlen ess) ->
  runs (evict_if_needed p) e (fun _ e' => exists ess', eng_rep e' ess' /\
    eng_shard_mask e' = eng_shard_mask e /\ eng_max_bytes e' = eng_max_bytes e /\
    eng_eviction_cursor e' = wrap64 (eng_eviction_cursor e + (zlen (mjoin ess) - zlen (mjoin ess'))) /\
    evict_run (eng_max_bytes e) (eng_eviction_cursor e) ess ess').
Proof.
  intros He Hmax Hres Hc Hsafe. unfold evict_if_needed. mstep. mstep.
  rewrite (proj2 (Z.eqb_neq _ _)) by lia. mstep. mstep. rewrite (entry_count_rep _ _ He).
  apply evict_loop_ok; [done|lia|done| |lia|done].
  eapply cursor_safe_le; [|exact Hsafe]. unfold zlen. lia.
Qed.

End eviction.
