(* ===== verification/EngineTheorems.v ===== *)
(** * Theorems about the engine

    Construction, the [KVEngine] instance of [MemoryEngine], whole executions
    (sequences of operations) against the abstract store, the byte budget, and
    the time-to-live semantics. *)

From S2P Require Import Prelude HkvError Shard ShardInv ShardOps Engine LockedOps KVEngine.
From S2P Require Import EngineInv EngineSpec Eviction.

(** ** [MemoryEngine] implements the trait *)

#[global] Instance memory_kv_engine `{EngineEnv} (p : profile) : KVEngine MemoryEngine := {|
  kv_get := get;
  kv_set := set p;
  kv_delete := delete;
  kv_expire := expire;
  kv_ttl := ttl
|}.

(** ** Executions *)

(** A call on the engine, with the clock reading it sees. *)
Inductive engine_op :=
| OpGet (k : bytes) (now : Z)
| OpSet (k v : bytes) (now : Z)
| OpDelete (k : bytes) (now : Z)
| OpExpire (k : bytes) (ttl now : Z)
| OpTtl (k : bytes) (now : Z)
| OpPurge (now : Z).

Inductive engine_reply :=
| ReplyValue (r : HkvResult (option bytes))
| ReplyUnit (r : HkvResult unit)
| ReplyBool (r : HkvResult bool)
| ReplyTtl (r : HkvResult TtlStatus)
| ReplyCount (n : Z).

Definition run_op `{EngineEnv} (p : profile) (o : engine_op) : EM engine_reply :=
  match o with
  | OpGet k now => r ← get k now; mret (ReplyValue r)
  | OpSet k v now => r ← set p k v now; mret (ReplyUnit r)
  | OpDelete k now => r ← delete k now; mret (ReplyBool r)
  | OpExpire k d now => r ← expire k d now; mret (ReplyUnit r)
  | OpTtl k now => r ← ttl k now; mret (ReplyTtl r)
  | OpPurge now => n ← purge_expired now; mret (ReplyCount n)
  end.

Fixpoint run_ops `{EngineEnv} (p : profile) (os : list engine_op) : EM (list engine_reply) :=
  match os with
  | [] => mret []
  | o :: os => r ← run_op p o; rs ← run_ops p os; mret (r :: rs)
  end.

(** The same calls on the abstract store. *)
Definition abs_op (o : engine_op) (m : kv) : engine_reply * kv :=
  match o with
  | OpGet k now => (ReplyValue (Ok (fst <$> live now k m)), settle now k m)
  | OpSet k v now => (ReplyUnit (Ok tt), <[k := (v, None)]> m)
  | OpDelete k now => (ReplyBool (Ok (bool_decide (is_Some (live now k m)))), base.delete k m)
  | OpExpire k d now =>
      (ReplyUnit match live now k m with Some _ => Ok tt | None => Err NotFound end,
       abs_expire now k d m)
  | OpTtl k now => (ReplyTtl (Ok (abs_ttl now k m)), settle now k m)
  | OpPurge now =>
      let m' : kv := filter (fun kx => value_expired now kx.2 = false) m in
      (ReplyCount (Z.of_nat (size m) - Z.of_nat (size m')), m')
  end.

Fixpoint abs_ops (os : list engine_op) (m : kv) : list engine_reply * kv :=
  match os with
  | [] => ([], m)
  | o :: os =>
      let '(r, m1) := abs_op o m in
      let '(rs, m2) := abs_ops os m1 in (r :: rs, m2)
  end.

(** The call that does not return: [expire] of a readable key with a deadline past the
    range of [Instant]. *)
Definition op_overflows (o : engine_op) (m : kv) : bool :=
  match o with
  | OpExpire k d now => bool_decide (is_Some (live now k m)) && (INSTANT_MAX <? now + d)
  | _ => false
  end.

(** The calls up to the first that panics. *)
Fixpoint abs_exec (os : list engine_op) (m : kv) : outcome (list engine_reply) * kv :=
  match os with
  | [] => (Ret [], m)
  | o :: os =>
      if op_overflows o m then (Panic, m)
      else
        let '(r, m1) := abs_op o m in
        let '(rs, m2) := abs_exec os m1 in (rs ← rs; mret (r :: rs), m2)
  end.

(** A key and its value are two slices in one address space. *)
Definition op_sized (o : engine_op) : bool :=
  match o with OpSet k v _ => zlen k + zlen v <=? USIZE_MAX | _ => true end.

(** The calls the contract covers: sizes a vector can have, deadlines in the
    clock's range. *)
Definition op_in_range (o : engine_op) : bool :=
  match o with
  | OpSet k v _ => zlen k + zlen v <=? USIZE_MAX
  | OpExpire _ d now => now + d <=? INSTANT_MAX
  | _ => true
  end.

(** The empty engine [MemoryEngine::with_shard_count_and_capacity] builds. *)
Definition new_engine (b max_bytes : Z) : MemoryEngine :=
  mkEngine (replicate (Z.to_nat (2 ^ b)) shard_new) (Z.ones b) max_bytes 0 0.

(** ** Construction *)

Lemma pow2_pos b : 0 <= b -> 0 < 2 ^ b.
Proof. intros. by apply Z.pow_pos_nonneg. Qed.

Lemma log2_up_bounds n : 1 <= n <= 2 ^ 63 -> 0 <= Z.log2_up n <= 63.
Proof.
  intros Hn. split; [apply Z.log2_up_nonneg|].
  etransitivity; [apply Z.log2_up_le_mono; apply Hn|]. done.
Qed.

Lemma normalize_run p n :
  n <= 2 ^ 63 -> normalize_shard_count p n = Ret (2 ^ Z.log2_up (Z.max n 1)).
Proof.
  intros Hn. unfold normalize_shard_count, next_power_of_two.
  destruct (log2_up_bounds (Z.max n 1)) as [H0 H63]; [lia|].
  assert (2 ^ Z.log2_up (Z.max n 1) <= 2 ^ 63) by (apply Z.pow_le_mono_r; lia).
  rewrite (proj2 (Z.leb_le _ _)); [done|]. unfold USIZE_MAX. lia.
Qed.

(** The shards an engine asked for [n] of them has fit the address space. *)
Definition shards_fit `{EngineEnv} (n : Z) : Prop := 2 ^ Z.log2_up (Z.max n 1) * shard_size <= ISIZE_MAX.

Lemma shards_fit_bound `{EngineEnv} n : shards_fit n -> n <= 2 ^ 62 /\ 0 <= Z.log2_up (Z.max n 1) <= 62.
Proof.
  unfold shards_fit. intros Hf. pose proof shard_size_range as [Hs _]. pose proof (Z.log2_up_nonneg (Z.max n 1)) as H0.
  set (b := Z.log2_up (Z.max n 1)) in *. pose proof (pow2_pos b H0).
  assert (Hb : b <= 62).
  { apply Z.lt_succ_r. destruct (Z.lt_ge_cases b 63) as [|Hge]; [done|].
    pose proof (Z.pow_le_mono_r 2 63 b ltac:(lia) Hge). unfold ISIZE_MAX in *. nia. }
  split; [|done]. assert (Hn : Z.max n 1 <= 2 ^ b).
  { destruct (Z.eq_dec (Z.max n 1) 1) as [E|E]; [rewrite E; lia|]. apply Z.log2_up_le_pow2; lia. }
  pose proof (Z.pow_le_mono_r 2 b 62 ltac:(lia) Hb). lia.
Qed.

Lemma shards_fit_one `{EngineEnv} n : n <= 1 -> shards_fit n.
Proof.
  intros Hn. unfold shards_fit. replace (Z.max n 1) with 1 by lia. change (Z.log2_up 1) with 0.
  pose proof shard_size_range. lia.
Qed.

Lemma construct_run `{EngineEnv} p n max :
  shards_fit n -> with_shard_count_and_capacity p n max = Ret (new_engine (Z.log2_up (Z.max n 1)) max).
Proof.
  intros Hf. destruct (shards_fit_bound n Hf) as [Hn [H0 H62]]. unfold with_shard_count_and_capacity.
  rewrite normalize_run by lia. pose proof (pow2_pos _ H0). unfold mbind, outcome_bind, reserve_shards, usize_sub.
  rewrite (proj2 (Z.leb_le _ _)) by exact Hf. rewrite (proj2 (Z.leb_le _ _)) by lia. unfold new_engine, mret, outcome_ret.
  by rewrite Z.ones_equiv, Z.sub_1_r.
Qed.

(** Otherwise the constructor panics. *)
Lemma construct_panics `{EngineEnv} p n max :
  n <= 2 ^ 63 -> ~ shards_fit n -> with_shard_count_and_capacity p n max = Panic.
Proof.
  unfold shards_fit. intros Hn Hf. unfold with_shard_count_and_capacity. rewrite normalize_run by done.
  unfold mbind, outcome_bind, reserve_shards. by rewrite (proj2 (Z.leb_gt _ _)) by lia.
Qed.

(** The number of shards [MemoryEngine::new] asks for. *)
Definition default_shards (threads : option Z) : Z := saturating_mul USIZE_MAX (default 1 threads) DEFAULT_SHARD_MULTIPLIER.

Lemma engine_new_run `{EngineEnv} p threads :
  shards_fit (default_shards threads) -> exists b, 0 <= b <= 62 /\ engine_new p threads = Ret (new_engine b USIZE_MAX).
Proof.
  intros Hf. unfold engine_new, with_shard_count. fold (default_shards threads). rewrite construct_run by done.
  eexists. split; [by apply shards_fit_bound|done].
Qed.

Lemma resident_bytes_replicate m : resident_bytes (replicate m []) = 0.
Proof. by induction m as [|m IH]. Qed.

Lemma new_engine_inv `{EngineEnv} b max : 0 <= b <= 64 -> eng_inv (new_engine b max).
Proof.
  intros Hb. assert (E : entries <$> eng_shards (new_engine b max) = replicate (Z.to_nat (2 ^ b)) []).
  { unfold new_engine. simpl. by rewrite fmap_replicate. }
  unfold eng_inv. rewrite E. split; simpl.
  - apply Forall2_replicate. apply rep_new.
  - by rewrite resident_bytes_replicate.
  - exists b. rewrite length_replicate. pose proof (pow2_pos b). split_and!; [lia..|lia|done].
  - intros i es en [-> _]%lookup_replicate Hen. by apply elem_of_nil in Hen.
Qed.

Lemma new_engine_store b max : store (new_engine b max) = ∅.
Proof.
  unfold store, new_engine. simpl. rewrite fmap_replicate.
  by induction (Z.to_nat (2 ^ b)) as [|m IH].
Qed.

(** ** Executions *)

Section executions.
Context `{EngineEnv} (p : profile).

Lemma run_op_exec o e :
  eng_inv e -> eng_max_bytes e = USIZE_MAX -> op_sized o = true -> op_overflows o (store e) = false ->
  runs (run_op p o) e (fun r e' => eng_inv e' /\ eng_max_bytes e' = USIZE_MAX /\
    (r, store e') = abs_op o (store e)).
Proof.
  intros He Hmax Hr Hd. destruct o; cbn [run_op abs_op op_sized op_overflows] in *; mstep;
    (eapply runs_mono; [first [by apply get_refines | by apply delete_refines
      | by apply ttl_refines | by apply purge_refines
      | by apply set_refines; [..|apply Z.leb_le]
      | apply expire_refines; [done|intros Hl; rewrite bool_decide_true in Hd by done; by apply Z.ltb_ge in Hd] ]|]);
    cbn beta; intros r e' Hp; destruct_and? Hp; mstep;
    (split_and!; [done|unfold same_config in *; naive_solver congruence|congruence]).
Qed.

Lemma run_op_refines o e :
  eng_inv e -> eng_max_bytes e = USIZE_MAX -> op_in_range o = true ->
  runs (run_op p o) e (fun r e' => eng_inv e' /\ eng_max_bytes e' = USIZE_MAX /\
    (r, store e') = abs_op o (store e)).
Proof.
  intros He Hmax Hr. apply run_op_exec; [done..| |]; destruct o; try done; cbn in *. apply andb_false_intro2, Z.ltb_ge.
  by apply Z.leb_le.
Qed.

Lemma run_op_overflow o e : eng_inv e -> op_overflows o (store e) = true -> run_op p o e = (Panic, e).
Proof.
  intros He Ho. destruct o as [| | |k d now| |]; try done. cbn in Ho. apply andb_prop in Ho as [Hl%bool_decide_eq_true_1 Hd%Z.ltb_lt].
  cbn [run_op]. unfold mbind, M_bind. by rewrite expire_panics.
Qed.

(** Every sequence of calls, panics included. *)
Lemma run_ops_exec os e :
  eng_inv e -> eng_max_bytes e = USIZE_MAX -> forallb op_sized os = true ->
  let '(o, e') := run_ops p os e in abs_exec os (store e) = (o, store e').
Proof.
  revert e. induction os as [|o os IH]; intros e He Hmax Hs; [done|]. cbn [run_ops abs_exec]. apply andb_prop in Hs as [Ho Hos].
  destruct (op_overflows o (store e)) eqn:Ev.
  - unfold mbind at 1, M_bind at 1. by rewrite run_op_overflow.
  - destruct (runs_inv _ _ _ (run_op_exec o e He Hmax Ho Ev)) as (r & e1 & E1 & He1 & Hm1 & Ea). rewrite (bind_run _ _ _ _ _ E1).
    rewrite <- Ea. specialize (IH e1 He1 Hm1 Hos). unfold mbind at 1, M_bind at 1. destruct (run_ops p os e1) as [[rs| |] e2]; by rewrite IH.
Qed.

Lemma run_ops_refines os e :
  eng_inv e -> eng_max_bytes e = USIZE_MAX -> forallb op_in_range os = true ->
  runs (run_ops p os) e (fun rs e' => eng_inv e' /\ eng_max_bytes e' = USIZE_MAX /\
    (rs, store e') = abs_ops os (store e)).
Proof.
  revert e. induction os as [|o os IH]; intros e He Hmax Hr; cbn [run_ops abs_ops]; [by mstep|].
  simpl in Hr. apply andb_prop in Hr as [Ho Hos].
  mstep. eapply runs_mono; [by apply run_op_refines|]. cbn beta. intros r e1 (He1 & Hm1 & E1).
  mstep. eapply runs_mono; [by apply IH|]. cbn beta. intros rs e2 (He2 & Hm2 & E2). mstep.
  split_and!; [done..|]. rewrite <- E1, <- E2. done.
Qed.

End executions.

(** ** The byte budget *)

Section budget.
Context `{EngineEnv} (p : profile).
Implicit Types (k v : bytes) (now : Z).

Lemma set_locked_shards e ess es k v now :
  eng_rep e ess -> ess !! shard_index e k = Some es -> zlen k + zlen v <= USIZE_MAX ->
  runs (lock_for k (set_locked p k v now)) e (fun _ e' => same_config e e' /\
    eng_rep e' (<[shard_index e k := spec_set k v es]> ess)).
Proof.
  intros He Hes Hsz. unfold lock_for. mstep. mstep.
  eapply runs_mono; [apply (lock_shard_ok _ _ _ _ _ (fun _ x => x = spec_set k v es) He Hes)|].
  - intros t0 l Hl. eapply runs_mono; [by apply set_locked_ok|]. cbn beta. eauto 6.
  - intros _ x en -> Hen. unfold spec_set in Hen. apply elem_of_app in Hen as [Hen|Hen].
    + apply list_elem_of_filter in Hen as [_ Hen]. by eapply (er_placed _ _ He).
    + apply list_elem_of_singleton in Hen as ->. done.
  - cbn beta. intros _ e' (x & -> & He' & Hc). done.
Qed.

Lemma remove_key_le k es :
  total_bytes (remove_key k es) <= total_bytes es /\ zlen (remove_key k es) <= zlen es.
Proof.
  unfold remove_key. induction es as [|e es [IH1 IH2]]; [done|].
  rewrite filter_cons, total_bytes_cons, zlen_cons. pose proof (entry_bytes_nonneg e).
  case_decide; rewrite ?total_bytes_cons, ?zlen_cons; lia.
Qed.

(** Storing an entry adds at most its size, and at most one entry. *)
Lemma spec_set_growth k v es :
  total_bytes (spec_set k v es) <= total_bytes es + (zlen k + zlen v) /\
  zlen (spec_set k v es) <= zlen es + 1.
Proof.
  unfold spec_set. rewrite total_bytes_app, zlen_app, total_bytes_cons.
  change (total_bytes []) with 0. change (zlen [mkEntry k v None]) with 1.
  unfold entry_bytes. simpl. destruct (remove_key_le k es). lia.
Qed.

Lemma zlen_join_insert (ess : list (list entry)) i es es' :
  ess !! i = Some es -> zlen (mjoin (<[i := es']> ess)) = zlen (mjoin ess) - zlen es + zlen es'.
Proof.
  intros Hi. apply list_elem_of_split_length in Hi as (l1 & l2 & -> & ->).
  rewrite insert_app_r_alt, Nat.sub_diag by lia. simpl. unfold zlen.
  rewrite !length_join, !fmap_app. csimpl. rewrite !sum_list_with_app. simpl. lia.
Qed.

(** What is left after evictions was there before. *)
Lemma suffix_store e ess e' ess' :
  eng_rep e ess -> eng_rep e' ess' -> Forall2 (fun es' es => es' `suffix_of` es) ess' ess ->
  store_of ess' ⊆ store_of ess.
Proof.
  intros He He' Hsuf. apply map_subseteq_spec. intros k x.
  rewrite (store_of_lookup_Some _ _ _ _ He), (store_of_lookup_Some _ _ _ _ He').
  intros (en & (es' & Hen & [i Hi]%list_elem_of_lookup)%list_elem_of_join & Hk & Hv).
  destruct (Forall2_lookup_l _ _ _ _ _ Hsuf Hi) as (es & Hes & [l ->]).
  exists en. split; [|done]. apply list_elem_of_join. exists (l ++ es').
  split; [set_solver|by eapply list_elem_of_lookup_2].
Qed.

(** [set] on an engine with a byte limit, the intermediate state included. *)
Lemma set_evicts e ess es k v now :
  eng_rep e ess -> ess !! shard_index e k = Some es ->
  zlen k + zlen v + resident_bytes ess <= USIZE_MAX ->
  0 <= eng_max_bytes e < USIZE_MAX -> 0 <= eng_eviction_cursor e <= USIZE_MAX ->
  cursor_safe p (eng_eviction_cursor e) (2 + zlen (mjoin ess) + zlen ess) ->
  runs (set p k v now) e (fun r e' => r = Ok tt /\ exists ess', eng_rep e' ess' /\
    eng_shard_mask e' = eng_shard_mask e /\ eng_max_bytes e' = eng_max_bytes e /\
    eng_eviction_cursor e' = wrap64 (eng_eviction_cursor e +
      (zlen (mjoin (<[shard_index e k := spec_set k v es]> ess)) - zlen (mjoin ess'))) /\
    evict_run (eng_max_bytes e) (eng_eviction_cursor e)
      (<[shard_index e k := spec_set k v es]> ess) ess' /\
    store e' ⊆ <[k := (v, None)]> (store e)).
Proof.
  intros He Hes Hsz Hmax Hc Hsafe. unfold set. mstep.
  pose proof (resident_bytes_nonneg ess). destruct (spec_set_growth k v es) as [Hg1 Hg2].
  eapply runs_mono; [apply runs_and; [apply (set_locked_shards e ess es); [done|done|lia]|
    apply set_locked_refines; [by eapply eng_rep_inv|lia]]|].
  cbn beta. intros _ e1 [[(Hm1 & Hx1 & Hc1) He1] (_ & _ & Hst)]. mstep.
  eapply runs_mono; [apply (evict_if_needed_ok p e1 _ He1); rewrite ?Hx1, ?Hc1|].
  - done.
  - rewrite (resident_bytes_insert _ _ _ _ Hes). lia.
  - done.
  - eapply cursor_safe_le; [|exact Hsafe]. rewrite (zlen_join_insert _ _ _ _ Hes).
    assert (zlen (<[shard_index e k := spec_set k v es]> ess) = zlen ess) as ->; [|lia].
    unfold zlen. by rewrite length_insert.
  - cbn beta. intros _ e2 (ess' & He2 & Hm2 & Hx2 & Hcnt & Hrun). mstep.
    split; [done|]. exists ess'. rewrite Hx1, Hc1 in *. split_and!; try done; [congruence..|].
    rewrite <- Hst, (eng_rep_store _ _ He1), (eng_rep_store _ _ He2).
    eapply suffix_store; [done..|]. by eapply evict_run_suffix.
Qed.

End budget.

(** ** [MemoryEngine] meets the contract of the trait *)

#[global] Program Instance memory_kv_laws `{EngineEnv} (p : profile) :
    KVEngineLaws MemoryEngine (H := memory_kv_engine p) := {|
  kv_inv e := eng_inv e /\ eng_max_bytes e = USIZE_MAX;
  kv_store := store
|}.
Next Obligation.
  intros ? p e k now [He Hm]. eapply runs_mono; [by apply get_refines|]. cbn beta.
  intros r e' (? & (_ & ? & _) & ? & ?). split_and!; [done|congruence|done|done].
Qed.
Next Obligation.
  intros ? p e k v now [He Hm] Hsz. eapply runs_mono; [by apply set_refines|]. cbn beta.
  intros r e' (? & (_ & ? & _) & ? & ?). split_and!; [done|congruence|done|done].
Qed.
Next Obligation.
  intros ? p e k now [He Hm]. eapply runs_mono; [by apply delete_refines|]. cbn beta.
  intros r e' (? & (_ & ? & _) & ? & ?). split_and!; [done|congruence|done|done].
Qed.
Next Obligation.
  intros ? p e k d now [He Hm] Hd. eapply runs_mono; [by apply expire_refines|]. cbn beta.
  intros r e' (? & (_ & ? & _) & ? & ?). split_and!; [done|congruence|done|done].
Qed.
Next Obligation.
  intros ? p e k now [He Hm]. eapply runs_mono; [by apply ttl_refines|]. cbn beta.
  intros r e' (? & (_ & ? & _) & ? & ?). split_and!; [done|congruence|done|done].
Qed.
