(* ===== verification/Accounting.v ===== *)
(** * Byte accounting over whole executions

    The byte counter is the total size of the keys and values the engine holds,
    a function of its content alone.  Executions on an engine with any byte
    limit never panic, keep the counter exact, and end within the limit. *)

From S2P Require Import Prelude HkvError Shard ShardInv ShardOps Engine LockedOps KVEngine.
From S2P Require Import EngineInv EngineSpec Eviction EngineTheorems.

(** ** Definitions *)

Definition sum_sizes (l : list (bytes * bytes)) : Z :=
  foldr Z.add 0 ((fun kx => zlen kx.1 + zlen kx.2) <$> l).

(** Total size of the keys and values of a store. *)
Definition store_bytes (m : kv) : Z := sum_sizes (map_to_list (fst <$> m : gmap bytes bytes)).

(** The bytes and the number of entries a sequence of calls writes. *)
Definition op_bytes (o : engine_op) : Z :=
  match o with OpSet k v _ => zlen k + zlen v | _ => 0 end.
Definition op_writes (o : engine_op) : Z :=
  match o with OpSet _ _ _ => 1 | _ => 0 end.
Definition ops_bytes (os : list engine_op) : Z := foldr Z.add 0 (op_bytes <$> os).
Definition ops_writes (os : list engine_op) : Z := foldr Z.add 0 (op_writes <$> os).

(** ** Lemmas *)

Lemma sum_sizes_perm l l' : l ≡ₚ l' -> sum_sizes l = sum_sizes l'.
Proof. unfold sum_sizes. induction 1; csimpl; lia. Qed.

Lemma sum_sizes_nonneg l : 0 <= sum_sizes l.
Proof.
  unfold sum_sizes. induction l as [|x l IH]; csimpl; [done|].
  pose proof (zlen_nonneg x.1). pose proof (zlen_nonneg x.2). lia.
Qed.

Lemma sum_sizes_app l l' : sum_sizes (l ++ l') = sum_sizes l + sum_sizes l'.
Proof. unfold sum_sizes. induction l as [|x l IH]; csimpl; [done|]. rewrite IH. lia. Qed.

Lemma sum_sizes_submseteq l l' : l ⊆+ l' -> sum_sizes l <= sum_sizes l'.
Proof.
  intros [l2 ->%sum_sizes_perm]%submseteq_Permutation. rewrite sum_sizes_app.
  pose proof (sum_sizes_nonneg l2). lia.
Qed.

(** Fewer keys with the same values: fewer bytes. *)
Lemma store_bytes_mono (m1 m2 : kv) :
  (forall k x, m1 !! k = Some x -> exists y, m2 !! k = Some y /\ y.1 = x.1) ->
  store_bytes m1 <= store_bytes m2.
Proof.
  intros Hm. apply sum_sizes_submseteq, map_to_list_submseteq, map_subseteq_spec.
  intros k v. rewrite !lookup_fmap, !fmap_Some. intros (x & Hx & ->).
  destruct (Hm k x Hx) as (y & Hy & E). eauto.
Qed.

Lemma store_bytes_insert (m : kv) k v d :
  store_bytes (<[k := (v, d)]> m) <= store_bytes m + (zlen k + zlen v).
Proof.
  unfold store_bytes. rewrite fmap_insert, <- insert_delete_eq.
  rewrite (sum_sizes_perm _ _ (map_to_list_insert _ k v (lookup_delete_eq _ _))).
  assert (sum_sizes (map_to_list (base.delete k (fst <$> m : gmap bytes bytes))) <=
    sum_sizes (map_to_list (fst <$> m : gmap bytes bytes)))
    by (apply sum_sizes_submseteq, map_to_list_submseteq, delete_subseteq).
  unfold sum_sizes in *. csimpl. lia.
Qed.

(** [m'] has some of the keys of [m], with the same values. *)
Definition shrinks (m' m : kv) : Prop :=
  forall k x, m' !! k = Some x -> exists y, m !! k = Some y /\ y.1 = x.1.

Lemma shrinks_refl m : shrinks m m.
Proof. intros k x Hx. eauto. Qed.

Lemma shrinks_delete k m : shrinks (base.delete k m) m.
Proof. intros k' x [_ Hx]%lookup_delete_Some. eauto. Qed.

Lemma shrinks_settle now k m : shrinks (settle now k m) m.
Proof. unfold settle. destruct (live now k m); [apply shrinks_refl|apply shrinks_delete]. Qed.

Lemma shrinks_expire now k d m : shrinks (abs_expire now k d m) m.
Proof.
  unfold abs_expire. destruct (live now k m) as [[v d0]|] eqn:E; [|apply shrinks_delete].
  apply live_Some in E as [E _]. intros k' x [[<- <-]|[_ Hx]]%lookup_insert_Some; eauto.
Qed.

Lemma shrinks_filter now m : shrinks (filter (fun kx => value_expired now kx.2 = false) m) m.
Proof. intros k x [Hx _]%map_lookup_filter_Some. eauto. Qed.

Lemma shrinks_bounds m' m :
  shrinks m' m -> store_bytes m' <= store_bytes m /\ (size m' <= size m)%nat.
Proof.
  intros Hs. split; [by apply store_bytes_mono|].
  rewrite <- (map_size_fmap fst m'), <- (map_size_fmap fst m).
  apply map_subseteq_size, map_subseteq_spec. intros k v. rewrite !lookup_fmap, !fmap_Some.
  intros (x & Hx & ->). destruct (Hs k x Hx) as (y & ? & ?). eauto.
Qed.

#[export] Hint Resolve shrinks_refl shrinks_delete shrinks_settle shrinks_expire shrinks_filter : hkv.

Section accounting.
Context `{EngineEnv} (p : profile).

Lemma resident_store e ess : eng_rep e ess -> resident_bytes ess = store_bytes (store_of ess).
Proof.
  intros He. pose proof (keys_nodup _ _ He) as Hnd. unfold store_bytes, store_of.
  rewrite <- list_to_map_fmap, <- list_fmap_compose.
  erewrite sum_sizes_perm by (apply map_to_list_to_map; rewrite <- list_fmap_compose; exact Hnd).
  clear. unfold resident_bytes. induction ess as [|es ess IH]; [done|]. csimpl.
  rewrite IH, fmap_app, sum_sizes_app. f_equal. unfold total_bytes, sum_sizes.
  by rewrite <- list_fmap_compose.
Qed.

(** The state of an engine that has been asked to write [W] entries of [B] bytes
    in total. *)
Record within_budget (B W : Z) (e : MemoryEngine) : Prop := mkWithin {
  wb_inv : eng_inv e;
  wb_max : 0 <= eng_max_bytes e <= USIZE_MAX;
  wb_bytes : store_bytes (store e) <= B <= USIZE_MAX;
  wb_cursor : 0 <= eng_eviction_cursor e;
  wb_writes : eng_eviction_cursor e + Z.of_nat (size (store e)) <= W;
  wb_room : W + zlen (eng_shards e) + 2 <= USIZE_MAX;
  wb_used : store_bytes (store e) <= eng_max_bytes e
}.

Lemma used_exact B W e : within_budget B W e -> eng_used_bytes e = store_bytes (store e).
Proof.
  intros [He _ HB _ _ _ _]. rewrite (er_used _ _ He), (resident_store _ _ He), <- (eng_rep_store _ _ He).
  apply wrap64_small. split; [apply sum_sizes_nonneg|lia].
Qed.

Lemma same_shards e e' : eng_inv e -> eng_inv e' -> eng_shard_mask e' = eng_shard_mask e ->
  zlen (eng_shards e') = zlen (eng_shards e).
Proof.
  intros He He' Em. destruct (er_mask _ _ He) as (b & Hb & Hn & Hm).
  destruct (er_mask _ _ He') as (b' & Hb' & Hn' & Hm'). unfold zlen. rewrite Hn, Hn'. f_equal.
  rewrite Hm, Hm', !Z.ones_equiv in Em. apply (Z.pow_inj_r 2); lia.
Qed.

(** Calls that only shrink the store. *)
Lemma within_shrinks B W e e' :
  within_budget B W e -> eng_inv e' -> same_config e e' -> shrinks (store e') (store e) ->
  within_budget B W e'.
Proof.
  intros [He Hmax HB Hc HW Hr Hu] He' (Em & Ex & Ec) [? ?]%shrinks_bounds.
  split; rewrite ?Ex, ?Ec, ?(same_shards e e') by done; try done; lia.
Qed.

Lemma suffix_zlen_join (ess ess' : list (list entry)) :
  Forall2 (fun es' es => es' `suffix_of` es) ess' ess -> zlen (mjoin ess') <= zlen (mjoin ess).
Proof.
  induction 1 as [|es' es ess' ess [l ->] _ IH]; [done|]. simpl. rewrite !zlen_app.
  pose proof (zlen_nonneg l). lia.
Qed.

Lemma size_insert_le (m : kv) k x : (size (<[k := x]> m) <= S (size m))%nat.
Proof. rewrite map_size_insert. destruct (m !! k); simpl; lia. Qed.

Lemma store_bytes_nonneg (m : kv) : 0 <= store_bytes m.
Proof. apply sum_sizes_nonneg. Qed.

Lemma ops_nonneg os : 0 <= ops_bytes os /\ 0 <= ops_writes os.
Proof.
  unfold ops_bytes, ops_writes. induction os as [|o os [IH1 IH2]]; [done|]. csimpl.
  destruct o; cbn [op_bytes op_writes]; unfold zlen; lia.
Qed.

(** Bytes and number of entries, from the shards and from the content. *)
Lemma rep_totals e ess :
  eng_rep e ess ->
  resident_bytes ess = store_bytes (store e) /\ zlen (mjoin ess) = Z.of_nat (size (store e)).
Proof.
  intros He. rewrite (eng_rep_store _ _ He). split; [by apply (resident_store e)|].
  unfold zlen. by rewrite (store_size _ _ He).
Qed.

(** [set], with or without a byte limit. *)
Lemma within_set B W e k v now :
  within_budget B W e -> B + (zlen k + zlen v) <= USIZE_MAX ->
  W + 1 + zlen (eng_shards e) + 2 <= USIZE_MAX ->
  runs (set p k v now) e (fun r e' => r = Ok tt /\
    within_budget (B + (zlen k + zlen v)) (W + 1) e' /\
    eng_max_bytes e' = eng_max_bytes e /\ zlen (eng_shards e') = zlen (eng_shards e)).
Proof.
  intros [He Hmax HB Hc HW Hr Hu] HB' HW'.
  assert (Hsz : 0 <= zlen k + zlen v) by (unfold zlen; lia).
  pose proof (zlen_nonneg (eng_shards e)) as Hsh0. pose proof (store_bytes_nonneg (store e)) as HB0.
  pose proof (store_bytes_insert (store e) k v None) as Hins.
  pose proof (size_insert_le (store e) k (v, None)) as Hsize.
  destruct (decide (eng_max_bytes e = USIZE_MAX)) as [Emax|Nmax].
  { eapply runs_mono; [apply set_refines; [done|done|lia]|]. cbn beta.
    intros r e' (He' & (Em & Ex & Ec) & -> & Es). pose proof (same_shards e e' He He' Em) as Esh.
    split_and!; [done| |done|done].
    split; rewrite ?Ex, ?Ec, ?Es, ?Esh; try done; lia. }
  set (ess := entries <$> eng_shards e) in *.
  destruct (eng_rep_shard e ess k He) as [es Hes].
  destruct (rep_totals e ess He) as [Hres Hcount].
  assert (Hlen : zlen ess = zlen (eng_shards e)) by (unfold zlen, ess; by rewrite length_fmap).
  eapply runs_mono; [apply (set_evicts p e ess es); [done|done|lia|lia|lia|]|].
  { destruct p; [|done]. simpl. lia. }
  cbn beta. intros r e' (-> & ess' & He' & Em & Ex & Ecur & Hrun & Hsub).
  destruct (rep_totals _ _ He') as [Hres' Hcount'].
  pose proof (same_shards e e' He (eng_rep_inv _ _ He') Em) as Esh.
  pose proof (suffix_zlen_join _ _ (evict_run_suffix _ _ _ _ Hrun)) as Hjoin.
  pose proof (evict_run_bound _ _ _ _ Hrun) as Hbound.
  destruct (spec_set_growth k v es) as [_ Hgrow]. rewrite (zlen_join_insert _ _ _ _ Hes) in *.
  pose proof (zlen_nonneg (mjoin ess')).
  rewrite wrap64_small in Ecur by lia.
  assert (Hshr : store_bytes (store e') <= store_bytes (<[k := (v, None)]> (store e))).
  { apply store_bytes_mono. intros k' x Hx. exists x. split; [|done]. by eapply lookup_weaken. }
  split_and!; [done| |done|done].
  split; rewrite ?Ex, ?Esh; [by eapply eng_rep_inv|done|lia|lia|lia|lia|lia].
Qed.

(** ** Whole executions *)

Lemma within_op B W e o :
  within_budget B W e -> op_in_range o = true -> B + op_bytes o <= USIZE_MAX ->
  W + op_writes o + zlen (eng_shards e) + 2 <= USIZE_MAX ->
  runs (run_op p o) e (fun _ e' => within_budget (B + op_bytes o) (W + op_writes o) e' /\
    eng_max_bytes e' = eng_max_bytes e /\ zlen (eng_shards e') = zlen (eng_shards e)).
Proof.
  intros HI Ho HB HW. pose proof HI as [He _ _ _ _ _ _].
  destruct o as [k now|k v now|k now|k d now|k now|now]; cbn [run_op op_bytes op_writes op_in_range] in *;
    rewrite ?Z.add_0_r in *; mstep.
  2: { eapply runs_mono; [by apply within_set|]. cbn beta. intros r e' (_ & ? & ? & ?). by mstep. }
  all: eapply runs_mono; [first [by apply get_refines | by apply delete_refines
      | by apply ttl_refines | by apply purge_refines
      | by apply expire_refines; [|intros _; apply Z.leb_le] ]|];
    cbn beta; intros r e' Hp; destruct_and? Hp; mstep;
    (split_and!; [eapply within_shrinks; [done..|]|unfold same_config in *; naive_solver congruence|
      apply same_shards; [done..|unfold same_config in *; naive_solver congruence]]);
    match goal with E : store e' = _ |- _ => rewrite E end; auto with hkv.
Qed.

Lemma within_ops os B W e :
  within_budget B W e -> forallb op_in_range os = true -> B + ops_bytes os <= USIZE_MAX ->
  W + ops_writes os + zlen (eng_shards e) + 2 <= USIZE_MAX ->
  runs (run_ops p os) e (fun _ e' => within_budget (B + ops_bytes os) (W + ops_writes os) e' /\
    eng_max_bytes e' = eng_max_bytes e).
Proof.
  revert B W e. induction os as [|o os IH]; intros B W e HI Ho HB HW.
  { cbn [run_ops]. mstep. unfold ops_bytes, ops_writes. simpl. by rewrite !Z.add_0_r. }
  simpl in Ho. apply andb_prop in Ho as [Ho Hos].
  change (ops_bytes (o :: os)) with (op_bytes o + ops_bytes os) in *.
  change (ops_writes (o :: os)) with (op_writes o + ops_writes os) in *.
  destruct (ops_nonneg os) as [? ?]. cbn [run_ops]. rewrite !Z.add_assoc in *.
  mstep. eapply runs_mono; [apply within_op; [done|done|lia|lia]|]. cbn beta.
  intros r e1 (HI1 & Em1 & Es1). mstep.
  eapply runs_mono; [apply (IH _ _ _ HI1 Hos)|]; [lia|rewrite Es1; lia|]. cbn beta.
  intros rs e2 (HI2 & Em2). mstep. split; [done|congruence].
Qed.

End accounting.
