(* ===== verification/LruCache.v ===== *)
(** * An engine with one shard is an LRU cache

    The specification of a cache bounded in bytes: a list of entries from least to
    most recently used, of which, after a write, the longest suffix within the limit
    stays.  [MemoryEngine] with one shard refines it exactly, evictions included. *)

From S2P Require Import Prelude HkvError Shard ShardInv ShardOps Engine LockedOps KVEngine.
From S2P Require Import EngineInv EngineSpec Eviction EngineTheorems Accounting.

(** ** Specification *)

(** The most recently used entries that fit [max] bytes together. *)
Fixpoint fitting (max : Z) (es : list entry) : list entry :=
  match es with
  | [] => []
  | _ :: rest => if total_bytes es <=? max then es else fitting max rest
  end.

Definition cache_op (max : Z) (o : engine_op) (es : list entry) : engine_reply * list entry :=
  match o with
  | OpGet k now => (ReplyValue (Ok (e_value <$> live_entry now k es)), spec_get now k es)
  | OpSet k v _ => (ReplyUnit (Ok tt), fitting max (spec_set k v es))
  | OpDelete k now => (ReplyBool (Ok (bool_decide (is_Some (live_entry now k es)))), remove_key k es)
  | OpExpire k d now =>
      (ReplyUnit match live_entry now k es with Some _ => Ok tt | None => Err NotFound end, spec_expire now k (now + d) es)
  | OpTtl k now => (ReplyTtl (Ok (ttl_of now (live_entry now k es))), spec_ttl now k es)
  | OpPurge now => (ReplyCount (expired_count now es), spec_purge now es)
  end.

Fixpoint cache_ops (max : Z) (os : list engine_op) (es : list entry) : list engine_reply * list entry :=
  match os with
  | [] => ([], es)
  | o :: os =>
      let '(r, es1) := cache_op max o es in
      let '(rs, es2) := cache_ops max os es1 in (r :: rs, es2)
  end.

(** ** The specification keeps what was used last *)

Lemma fitting_bound max es : 0 <= max -> total_bytes (fitting max es) <= max.
Proof.
  intros Hm. induction es as [|en es IH]; [done|]. cbn [fitting].
  destruct (Z.leb_spec (total_bytes (en :: es)) max); done.
Qed.

Lemma fitting_all max es : total_bytes es <= max -> fitting max es = es.
Proof. destruct es; [done|]. intros Hm. cbn [fitting]. by rewrite (proj2 (Z.leb_le _ _)). Qed.

(** An entry that fits alone is kept when it is the last. *)
Lemma fitting_last max es en :
  entry_bytes en <= max -> exists es', fitting max (es ++ [en]) = es' ++ [en] /\ es' `suffix_of` es.
Proof.
  intros Hm. induction es as [|x es (es' & IH & Hs)].
  { exists []. split; [|done]. cbn [app]. apply fitting_all. rewrite total_bytes_cons. change (total_bytes []) with 0. lia. }
  cbn [app fitting]. destruct (total_bytes (x :: es ++ [en]) <=? max); [by exists (x :: es)|].
  exists es'. split; [done|]. by apply suffix_cons_r.
Qed.

(** One that does not leaves nothing. *)
Lemma fitting_nothing max es en : max < entry_bytes en -> fitting max (es ++ [en]) = [].
Proof.
  intros Hm. assert (Hb : forall l, max < total_bytes (l ++ [en])).
  { intros l. rewrite total_bytes_app, total_bytes_cons. change (total_bytes []) with 0.
    pose proof (total_bytes_nonneg l). lia. }
  induction es as [|x es IH]; cbn [app fitting]; rewrite (proj2 (Z.leb_gt _ _)); [done|apply (Hb [])|done|apply (Hb (x :: es))].
Qed.

(** Eviction from a single shard. *)
Lemma evict_run_single max c es ess' : evict_run max c [es] ess' -> ess' = [fitting max es].
Proof.
  intros Hrun. remember [es] as ess eqn:Eess. revert es Eess.
  induction Hrun as [c ess Hmax|c ess i en rest ess' Hmax _ Hi _ IH]; intros es ->.
  - rewrite fitting_all; [done|]. unfold resident_bytes in Hmax. csimpl in Hmax. lia.
  - destruct i; [|done]. injection Hi as ->. rewrite (IH rest) by done. cbn [fitting].
    rewrite (proj2 (Z.leb_gt _ _)); [done|]. unfold resident_bytes in Hmax. csimpl in Hmax. lia.
Qed.

(** ** The engine *)

Section single.
Context `{EngineEnv} (p : profile).

Lemma single_index e es k : eng_rep e [es] -> shard_index e k = 0%nat.
Proof.
  intros He. destruct (eng_rep_shard e [es] k He) as [es0 Hes].
  apply lookup_lt_Some in Hes. cbn in Hes. lia.
Qed.

(** A critical section on the only shard. *)
Lemma single_lock {A : Type} k (m : M Locked A) e es (R : A) (es' : list entry) :
  eng_rep e [es] ->
  (exists g, forall t0 l, lrep t0 0 l es -> runs m l (fun a l' => a = R /\ lrep t0 g l' es')) ->
  runs (lock_for k m) e (fun a e' => a = R /\ eng_rep e' [es'] /\ same_config e e').
Proof.
  intros He [g Hm]. unfold lock_for. mstep. mstep. rewrite (single_index _ _ _ He).
  eapply runs_mono; [apply (lock_shard_ok 0 m e [es] es (fun a x => a = R /\ x = es') He eq_refl)|].
  - intros t0 l Hl. eapply runs_mono; [by apply Hm|]. cbn beta. intros a l' [-> Hl']. by exists es', g.
  - intros a x en _ _. by eapply single_index.
  - cbn beta. intros a e' (x & [-> ->] & He' & Hc). done.
Qed.

Lemma single_set B W e es k v now :
  within_budget B W e -> eng_rep e [es] -> B + (zlen k + zlen v) <= USIZE_MAX -> W + 4 <= USIZE_MAX ->
  runs (set p k v now) e (fun r e' => r = Ok tt /\ eng_rep e' [fitting (eng_max_bytes e) (spec_set k v es)]).
Proof.
  intros [He Hmax HB Hc HW Hr Hu] Hes HB' HW'. destruct (rep_totals e [es] Hes) as [Hres Hcnt].
  pose proof (store_bytes_nonneg (store e)). pose proof (zlen_nonneg k). pose proof (zlen_nonneg v).
  destruct (spec_set_growth k v es) as [Hg _].
  assert (Htotal : total_bytes es <= B) by (unfold resident_bytes in Hres; csimpl in Hres; lia).
  destruct (decide (eng_max_bytes e = USIZE_MAX)) as [Emax|Nmax].
  - unfold set. mstep. eapply runs_mono; [apply (single_lock _ _ _ _ tt (spec_set k v es) Hes)|].
    { exists (0 + (zlen k + zlen v)). intros t0 l Hl. eapply runs_mono; [apply set_locked_ok; [done|lia]|].
      cbn beta. intros [] l' Hl'. done. }
    cbn beta. intros _ e1 (_ & He1 & Hc1). mstep. unfold evict_if_needed. mstep. mstep.
    rewrite (proj1 (proj2 Hc1)), Emax, Z.eqb_refl. mstep. mstep. split; [done|].
    rewrite fitting_all by lia. done.
  - pose proof (single_index _ _ k Hes) as Hi.
    eapply runs_mono; [apply (set_evicts p e [es] es k v now Hes); [by rewrite Hi|lia|lia|lia|]|].
    { destruct p; [|done]. unfold cursor_safe. change (zlen [es]) with 1. lia. }
    cbn beta. intros r e' (-> & ess' & He' & _ & _ & _ & Hrun & _). split; [done|].
    rewrite Hi in Hrun. by rewrite <- (evict_run_single _ _ _ _ Hrun).
Qed.

Lemma single_op B W e es o :
  within_budget B W e -> eng_rep e [es] -> op_in_range o = true -> B + op_bytes o <= USIZE_MAX -> W + 4 <= USIZE_MAX ->
  runs (run_op p o) e (fun r e' => exists es', (r, es') = cache_op (eng_max_bytes e) o es /\ eng_rep e' [es']).
Proof.
  intros HI Hes Ho HB HW. destruct o as [k now|k v now|k now|k d now|k now|now]; cbn [run_op cache_op op_bytes op_in_range] in *; mstep.
  - eapply runs_mono; [eapply (single_lock k _ _ _ _ _ Hes); exists 0; intros; by apply get_locked_ok|].
    cbn beta. intros r e' (-> & He' & _). mstep. eauto.
  - eapply runs_mono; [by eapply single_set|]. cbn beta. intros r e' (-> & He'). mstep. eauto.
  - eapply runs_mono; [eapply (single_lock k _ _ _ _ _ Hes); exists 0; intros; by apply delete_locked_ok|].
    cbn beta. intros r e' (-> & He' & _). mstep. eauto.
  - eapply runs_mono; [eapply (single_lock k _ _ _ _ _ Hes); exists 0; intros; apply expire_locked_ok; [done|]|].
    { intros _. by apply Z.leb_le. }
    cbn beta. intros r e' (-> & He' & _). mstep. eauto.
  - eapply runs_mono; [eapply (single_lock k _ _ _ _ _ Hes); exists 0; intros; by apply ttl_locked_ok|].
    cbn beta. intros r e' (-> & He' & _). mstep. eauto.
  - unfold purge_expired. mstep. mstep. rewrite (Forall2_length _ _ _ (er_shards _ _ Hes)).
    eapply runs_mono; [by apply (purge_shards_ok now e [] [es])|]. cbn beta. intros n e' (_ & -> & He'). mstep.
    eexists. split; [|done]. csimpl. by rewrite Z.add_0_r.
Qed.

Lemma single_ops os B W e es :
  within_budget B W e -> eng_rep e [es] -> forallb op_in_range os = true -> B + ops_bytes os <= USIZE_MAX ->
  W + ops_writes os + 4 <= USIZE_MAX ->
  runs (run_ops p os) e (fun rs e' => exists es', (rs, es') = cache_ops (eng_max_bytes e) os es /\ eng_rep e' [es']).
Proof.
  revert B W e es. induction os as [|o os IH]; intros B W e es HI Hes Ho HB HW; cbn [run_ops cache_ops].
  { mstep. eauto. }
  simpl in Ho. apply andb_prop in Ho as [Ho Hos].
  change (ops_bytes (o :: os)) with (op_bytes o + ops_bytes os) in *.
  change (ops_writes (o :: os)) with (op_writes o + ops_writes os) in *. rewrite !Z.add_assoc in *.
  destruct (ops_nonneg os) as [? ?].
  assert (Hn : zlen (eng_shards e) = 1) by (unfold zlen; by rewrite (Forall2_length _ _ _ (er_shards _ _ Hes))).
  assert (0 <= op_bytes o /\ 0 <= op_writes o) as [? ?] by (destruct o; cbn; unfold zlen; lia).
  mstep. eapply runs_mono; [apply runs_and; [apply (within_op p B W e o HI Ho); lia|apply (single_op B W e es o HI Hes Ho); lia]|].
  cbn beta. intros r e1 [(HI1 & Em & _) (es1 & E1 & He1)]. mstep.
  eapply runs_mono; [apply (IH _ _ e1 es1 HI1 He1 Hos); lia|]. cbn beta. intros rs e2 (es2 & E2 & He2). mstep.
  exists es2. split; [|done]. rewrite <- E1, <- Em, <- E2. done.
Qed.

End single.
