(* ===== verification/Concurrent.v ===== *)
(** * Threads on the engine (hkv-engine/src/memory.rs under concurrency)

    Any number of threads call one engine, among them the background expirer of
    [start_expirer] and a caller of [ExpirationHandle::stop].  A step of a thread
    is one access to shared state: taking a shard's lock with the work done under
    it, one atomic operation on the byte counter or on the cursor, releasing the
    lock, one access to the stop flag.  Accesses interleave in any order.

    The critical sections are those of [Engine].  What a section does to its
    shard is invisible to others until the lock is released, so it is one step;
    its operations on the shared counter are steps of their own while the lock is
    held. *)

From S2P Require Import Prelude HkvError Shard ShardInv ShardOps Engine LockedOps KVEngine.
From S2P Require Import EngineInv EngineSpec Eviction EngineTheorems.

(** ** Threads *)

(** What a thread has been asked to do: calls on the engine, the loop of the
    expirer thread (its sleeping interval, and the clock reading of each round),
    [ExpirationHandle::stop]. *)
Inductive call :=
| CallOp (o : engine_op)
| CallExpirer (interval : Z) (clock : nat -> Z)
| CallStop.

(** Where a thread is.  [Held i ops next]: it holds the lock of shard [i], has
    the counter operations [ops] still to perform, then unlocks and goes on at
    [next].  The [Evict]s are the accesses of [evict_if_needed]; [Purging] is the
    loop of [purge_expired] before shard [j], with the round number when it runs
    inside the expirer; [Sweep]s are the expirer's loop; [StopJoin] waits for the
    expirer thread. *)
Inductive pc :=
| Idle
| Held (i : nat) (ops : list Z) (next : pc)
| EvictLoad
| EvictCursor
| EvictScan (start : Z) (offset : nat)
| EvictSub (size : Z)
| Purging (now : Z) (j : nat) (removed : Z) (round : option nat)
| SweepLoad (round : nat)
| SweepSleep (round : nat)
| StopJoin
| Reply (r : option engine_reply)
| Panicked.

(** A thread: the calls it has not finished, the current one first; where it is;
    the calls on the engine that have returned, with their results. *)
Record thread := mkThread {
  th_calls : list call;
  th_pc : pc;
  th_done : list (engine_op * engine_reply)
}.

(** What a step did to the content of the engine: an operation took effect, shard
    [j] was swept, an entry of shard [i] and of [size] bytes was evicted. *)
Inductive event :=
| EvOp (o : engine_op) (r : engine_reply)
| EvSweep (j : nat) (now n : Z)
| EvEvict (i : nat) (size : Z).

(** ** Shared state *)

(** The engine, the expirer's stop flag, the threads. *)
Record machine := mkMachine {
  mc_engine : MemoryEngine;
  mc_stop : bool;
  mc_threads : list thread
}.

Definition with_shard (i : nat) (s : ShardInner) (e : MemoryEngine) : MemoryEngine :=
  mkEngine (<[i := s]> (eng_shards e)) (eng_shard_mask e) (eng_max_bytes e)
    (eng_used_bytes e) (eng_eviction_cursor e).

Definition holds (i : nat) (t : thread) : bool :=
  match th_pc t with Held j _ _ => bool_decide (i = j) | _ => false end.

(** Shard [i]'s lock is taken. *)
Definition locked (ts : list thread) (i : nat) : bool := existsb (holds i) ts.

Definition is_expirer (c : call) : bool := match c with CallExpirer _ _ => true | _ => false end.

(** The expirer thread has not returned. *)
Definition expiring (ts : list thread) : bool := existsb (fun t => existsb is_expirer (th_calls t)) ts.

(** The interval of [start_expirer]: at least a millisecond. *)
Definition expirer_interval (interval : Z) : Z := if interval =? 0 then 1000000 else interval.

(** The thread [start_expirer] spawns. *)
Definition start_expirer (interval : Z) (clock : nat -> Z) : thread :=
  mkThread [CallExpirer (expirer_interval interval) clock] Idle [].

(** A thread with the calls [os] before it. *)
Definition worker (os : list engine_op) : thread := mkThread (CallOp <$> os) Idle [].

(** A thread that calls [ExpirationHandle::stop]. *)
Definition stopper : thread := mkThread [CallStop] Idle [].

(** Threads that call an engine, each with the calls it makes, and, if there is
    one, the expirer with the thread that stops it. *)
Definition system (clients : list (list engine_op)) (expirer : option (Z * (nat -> Z))) : list thread :=
  (worker <$> clients) ++
  match expirer with Some (interval, clock) => [start_expirer interval clock; stopper] | None => [] end.

Section steps.
Context `{EngineEnv} (p : profile).

(** ** Steps *)

(** The result of a step: the engine, where the thread is, what happened. *)
Definition effect : Type := MemoryEngine * pc * option event.

(** Takes the lock of shard [i] if it is free, and runs the critical section
    [m]; a panic unwinds and releases the lock. *)
Definition enter {A} (ts : list thread) (e : MemoryEngine) (i : nat) (m : M Locked A)
    (next : A -> pc) (ev : A -> option event) : option effect :=
  if locked ts i then None
  else
    match eng_shards e !! i with
    | None => Some (e, Panicked, None)
    | Some s =>
        let '(o, l) := m (mkLocked s []) in
        let e' := with_shard i (lk_inner l) e in
        match o with
        | Ret a => Some (e', Held i (lk_ops l) (next a), ev a)
        | _ => Some (e', Held i (lk_ops l) Panicked, None)
        end
    end.

(** An operation that is one critical section. *)
Definition enter_op {A} (ts : list thread) (e : MemoryEngine) (o : engine_op) (k : bytes)
    (m : M Locked A) (reply : A -> engine_reply) : option effect :=
  enter ts e (shard_index e k) m (fun a => Reply (Some (reply a))) (fun a => Some (EvOp o (reply a))).

(** The result of [set]. *)
Definition set_done : engine_reply := ReplyUnit (Ok tt).

(** [evict_if_needed] returns at once when there is no limit. *)
Definition after_set (e : MemoryEngine) : pc :=
  if eng_max_bytes e =? USIZE_MAX then Reply (Some set_done) else EvictLoad.

(** The first step of a call on the engine. *)
Definition begin_op (ts : list thread) (e : MemoryEngine) (o : engine_op) : option effect :=
  match o with
  | OpGet k now => enter_op ts e o k (get_locked k now) ReplyValue
  | OpSet k v now =>
      enter ts e (shard_index e k) (set_locked p k v now)
        (fun _ => after_set e) (fun _ => Some (EvOp o set_done))
  | OpDelete k now => enter_op ts e o k (delete_locked k now) ReplyBool
  | OpExpire k d now => enter_op ts e o k (expire_locked k d now) ReplyUnit
  | OpTtl k now => enter_op ts e o k (ttl_locked k now) ReplyTtl
  | OpPurge now => Some (e, Purging now 0 0 None, None)
  end.

(** The scan of [evict_if_needed] at one offset. *)
Definition scan_step (ts : list thread) (e : MemoryEngine) (start : Z) (offset : nat) : option effect :=
  if bool_decide (offset < length (eng_shards e))%nat then
    match usize_add p start (Z.of_nat offset) with
    | Ret sum =>
        let i := Z.to_nat (Z.land sum (eng_shard_mask e)) in
        enter ts e i (inner pop_lru)
          (fun r => match r with Some size => EvictSub size | None => EvictScan start (S offset) end)
          (fun r => match r with Some size => Some (EvEvict i size) | None => None end)
    | _ => Some (e, Panicked, None)
    end
  else Some (e, Reply (Some set_done), None).

(** The accesses of [evict_if_needed]: it loads the counter, advances the cursor,
    looks at the shards, subtracts the size of what it evicted. *)
Definition evict_step (ts : list thread) (e : MemoryEngine) (c : pc) : option effect :=
  match c with
  | EvictLoad =>
      Some (e, if eng_used_bytes e <=? eng_max_bytes e then Reply (Some set_done) else EvictCursor, None)
  | EvictCursor =>
      let start := eng_eviction_cursor e in
      Some (with_cursor (wrapping_add start 1) e, EvictScan start 0, None)
  | EvictScan start offset => scan_step ts e start offset
  | EvictSub size => Some (with_used (wrapping_sub (eng_used_bytes e) size) e, EvictLoad, None)
  | _ => None
  end.

(** The loop of [purge_expired], before shard [j]. *)
Definition purge_step (ts : list thread) (e : MemoryEngine) (now : Z) (j : nat) (n : Z) (round : option nat) :
    option effect :=
  if bool_decide (j < length (eng_shards e))%nat then
    enter ts e j (purge_locked now) (fun m => Purging now (S j) (n + m) round) (fun m => Some (EvSweep j now m))
  else Some (e, match round with Some r => SweepLoad (S r) | None => Reply (Some (ReplyCount n)) end, None).

(** The step of a thread that is inside a call, engine accesses. *)
Definition engine_step (ts : list thread) (e : MemoryEngine) (c : pc) : option effect :=
  match c with
  | Held i (d :: ops) next => Some (with_used (wrapping_add (eng_used_bytes e) d) e, Held i ops next, None)
  | Held i [] next => Some (e, next, None)
  | Purging now j n round => purge_step ts e now j n round
  | c => evict_step ts e c
  end.

(** A call returns. *)
Definition finish (t : thread) (r : option engine_reply) : thread :=
  mkThread (tail (th_calls t)) Idle
    match head (th_calls t), r with
    | Some (CallOp o), Some r => th_done t ++ [(o, r)]
    | _, _ => th_done t
    end.

Definition at_pc (t : thread) (c : pc) : thread := mkThread (th_calls t) c (th_done t).

(** The clock of the expirer that is running in [t]. *)
Definition expirer_clock (t : thread) (round : nat) : Z :=
  match th_calls t with CallExpirer _ clock :: _ => clock round | _ => 0 end.

(** The loop of the expirer's thread, at [x]: it looks at the flag, sleeps, purges. *)
Definition expirer_step (stop : bool) (t : thread) (x : pc) : option pc :=
  match x with
  | Idle => Some (SweepLoad 0)
  | SweepLoad round => Some (if stop then Reply None else SweepSleep round)
  | SweepSleep round => Some (Purging (expirer_clock t round) 0 0 (Some round))
  | _ => None
  end.

(** [ExpirationHandle::stop], at [x]: it sets the flag and waits for the thread. *)
Definition stop_step (ts : list thread) (stop : bool) (x : pc) : option (bool * pc) :=
  match x with
  | Idle => Some (true, StopJoin)
  | StopJoin => if expiring ts then None else Some (stop, Reply None)
  | _ => None
  end.

(** One step of thread [t]; [None] when it has returned or has to wait. *)
Definition thread_step (m : machine) (t : thread) : option (MemoryEngine * bool * thread * option event) :=
  let e := mc_engine m in
  let stop := mc_stop m in
  let on_engine r := '(e', c, ev) ← r; Some (e', stop, at_pc t c, ev) in
  let in_expirer x := c ← expirer_step stop t x; Some (e, stop, at_pc t c, None) in
  let in_stop x := '(stop', c) ← stop_step (mc_threads m) stop x; Some (e, stop', at_pc t c, None) in
  match th_pc t with
  | Idle =>
      match th_calls t with
      | [] => None
      | CallOp o :: _ => on_engine (begin_op (mc_threads m) e o)
      | CallExpirer _ _ :: _ => in_expirer Idle
      | CallStop :: _ => in_stop Idle
      end
  | (SweepLoad _ | SweepSleep _) as x => in_expirer x
  | StopJoin => in_stop StopJoin
  | Reply r => Some (e, stop, finish t r, None)
  | x => on_engine (engine_step (mc_threads m) e x)
  end.

(** Thread [i] makes a step. *)
Definition machine_step (i : nat) (m : machine) : option (machine * option event) :=
  t ← mc_threads m !! i;
  '(e', stop', t', ev) ← thread_step m t;
  Some (mkMachine e' stop' (<[i := t']> (mc_threads m)), ev).

(** A schedule names the thread that is given the processor; nothing happens when
    it cannot run.  Returns the machine and the events with their threads. *)
Fixpoint run_schedule (sched : list nat) (m : machine) (h : list (nat * event)) :
    machine * list (nat * event) :=
  match sched with
  | [] => (m, h)
  | i :: sched =>
      match machine_step i m with
      | Some (m', Some ev) => run_schedule sched m' (h ++ [(i, ev)])
      | Some (m', None) => run_schedule sched m' h
      | None => run_schedule sched m h
      end
  end.

(** Some thread makes a step. *)
Definition steps_to (m m' : machine) : Prop := exists i ev, machine_step i m = Some (m', ev).

(** Every call has returned. *)
Definition finished (t : thread) : Prop := th_calls t = [] /\ th_pc t = Idle.

End steps.
