(* ===== verification/ConcurrentSteps.v ===== *)
(** * Critical sections under concurrency

    While threads are inside their critical sections the byte counter lags behind
    the shards; [settled e] is the engine with the counter it would have if every
    pending operation were done.  Each critical section, run on a shard whose lock
    is free, takes a well-formed settled engine to one, has the effect of its
    operation on the content, and leaves counter operations that account for the
    bytes. *)

From S2P Require Import Prelude HkvError Shard ShardInv ShardOps Engine LockedOps KVEngine.
From S2P Require Import EngineInv EngineSpec Eviction EngineTheorems Accounting Concurrent.

(** ** Definitions *)

Definition settled (e : MemoryEngine) : MemoryEngine :=
  with_used (wrap64 (resident_bytes (entries <$> eng_shards e))) e.

(** Bytes and entries of a shard. *)
Definition shard_bytes (s : ShardInner) : Z := total_bytes (entries s).
Definition shard_count (s : ShardInner) : Z := zlen (entries s).

(** The shard an operation works on. *)
Definition op_key (o : engine_op) : option bytes :=
  match o with
  | OpGet k _ | OpSet k _ _ | OpDelete k _ | OpExpire k _ _ | OpTtl k _ => Some k
  | OpPurge _ => None
  end.

Section sections.
Context `{EngineEnv}.
Implicit Types (e : MemoryEngine) (s : ShardInner) (ts : list thread).

(** A critical section replaced [s], shard [i] of [e], by [s'], with the counter
    operations [ops], which add at most [g]; at most [w] entries were added. *)
Record section_ok (g w : Z) e (i : nat) s s' (ops : list Z) : Prop := mkSectionOk {
  so_shard : eng_shards e !! i = Some s;
  so_inv : eng_inv (settled (with_shard i s' e));
  so_ops : ops_ok (shard_bytes s) g ops (shard_bytes s');
  so_count : shard_count s' <= shard_count s + w
}.

(** ** Lemmas *)

Lemma settled_store e : store (settled e) = store e.
Proof. done. Qed.

Lemma settled_settled e : settled (settled e) = settled e.
Proof. done. Qed.

Lemma settled_fixed e : eng_inv e -> settled e = e.
Proof.
  intros He. unfold settled, with_used. rewrite <- (er_used _ _ He). by destruct e.
Qed.

Lemma settled_used u e : settled (with_used u e) = settled e.
Proof. done. Qed.

Lemma settled_cursor c e : eng_inv (settled e) -> eng_inv (settled (with_cursor c e)).
Proof. intros [? ? ? ?]. by split. Qed.

(** The shape of a section on entries: what it may add. *)
Definition section_spec {A} (g w : Z) (m : M Locked A) (es : list entry) : Prop :=
  forall t0 l, lrep t0 0 l es ->
    runs m l (fun _ l' => exists es', lrep t0 g l' es' /\ zlen es' <= zlen es + w).

(** A section that is known as an operation of [settled e]. *)
Lemma lock_shard_section {A} i (m : M Locked A) g w e (Q : A -> MemoryEngine -> Prop) :
  eng_inv (settled e) ->
  runs (lock_shard i m) (settled e) (fun a e' => eng_inv e' /\ Q a e') ->
  (forall es, section_spec g w m es) ->
  exists s a l, m (mkLocked s []) = (Ret a, l) /\
    section_ok g w e i s (lk_inner l) (lk_ops l) /\ Q a (settled (with_shard i (lk_inner l) e)).
Proof.
  intros He Hrun Hm. unfold runs, lock_shard in Hrun. cbn [settled with_used eng_shards] in Hrun.
  destruct (eng_shards e !! i) as [s|] eqn:Hs; [|done].
  destruct (m (mkLocked s [])) as [o l] eqn:E.
  destruct o as [a| |]; try done. destruct Hrun as [He' HQ].
  assert (Hset : settled (with_shard i (lk_inner l) e) =
    mkEngine (<[i := lk_inner l]> (eng_shards e)) (eng_shard_mask e) (eng_max_bytes e)
      (apply_ops (eng_used_bytes (settled e)) (lk_ops l)) (eng_eviction_cursor e)).
  { etransitivity; [|exact (settled_fixed _ He')]. done. }
  exists s, a, l. split; [done|].
  destruct (Forall2_lookup_l _ _ _ _ _ (er_shards _ _ He) Hs) as (es & Hes & Hrep).
  assert (es = entries s) as ->.
  { cbn [settled with_used eng_shards] in Hes. rewrite list_lookup_fmap, Hs in Hes. by simplify_eq/=. }
  destruct (runs_inv _ _ _ (Hm _ _ _ (lrep_start _ _ Hrep))) as (a' & l' & E' & es' & [[Hok Ees] Hops] & Hcnt).
  rewrite E in E'. injection E' as <- <-. split; [|by rewrite Hset].
  split; [done|by rewrite Hset| |]; unfold shard_bytes, shard_count; by rewrite Ees.
Qed.

(** ** The sections of the operations *)

Lemma zlen_remove k es : zlen (remove_key k es) <= zlen es.
Proof. apply remove_key_le. Qed.

Lemma zlen_promote k f es (en : entry) :
  find_entry k es = Some en -> zlen (promote_key k f es) <= zlen es.
Proof.
  intros Hf. unfold promote_key. rewrite Hf, zlen_app. change (zlen [f en]) with 1.
  destruct (find_entry_Some _ _ _ Hf) as [Hin <-]. unfold remove_key.
  assert (zlen (filter (fun x => e_key x ≠ e_key en) es) < zlen es); [|lia].
  unfold zlen. apply inj_lt. eapply length_filter_lt; [exact Hin|]. by intros ?.
Qed.

Lemma get_section k now es : section_spec 0 0 (get_locked k now) es.
Proof.
  intros t0 l Hl. eapply runs_mono; [by apply get_locked_ok|]. cbn beta. intros _ l' [_ Hl'].
  eexists. split; [exact Hl'|]. rewrite Z.add_0_r. unfold spec_get.
  destruct (live_entry now k es) as [en|] eqn:El; [|apply zlen_remove].
  apply live_entry_Some in El as [Hf _]. by eapply zlen_promote.
Qed.

Lemma ttl_section k now es : section_spec 0 0 (ttl_locked k now) es.
Proof.
  intros t0 l Hl. eapply runs_mono; [by apply ttl_locked_ok|]. cbn beta. intros _ l' [_ Hl'].
  eexists. split; [exact Hl'|]. rewrite Z.add_0_r. unfold spec_ttl.
  destruct (live_entry now k es); [done|apply zlen_remove].
Qed.

Lemma delete_section k now es : section_spec 0 0 (delete_locked k now) es.
Proof.
  intros t0 l Hl. eapply runs_mono; [by apply delete_locked_ok|]. cbn beta. intros _ l' [_ Hl'].
  eexists. split; [exact Hl'|]. rewrite Z.add_0_r. apply zlen_remove.
Qed.

Lemma expire_section k d now es :
  now + d <= INSTANT_MAX -> section_spec 0 0 (expire_locked k d now) es.
Proof.
  intros Hd t0 l Hl. eapply runs_mono; [by apply expire_locked_ok|]. cbn beta. intros _ l' [_ Hl'].
  eexists. split; [exact Hl'|]. rewrite Z.add_0_r. unfold spec_expire.
  destruct (live_entry now k es); [|apply zlen_remove].
  unfold update_key, zlen. by rewrite length_fmap.
Qed.

Lemma set_section p k v now es :
  zlen k + zlen v <= USIZE_MAX -> section_spec (zlen k + zlen v) 1 (set_locked p k v now) es.
Proof.
  intros Hsz t0 l Hl. eapply runs_mono; [by apply set_locked_ok|]. cbn beta. intros _ l' Hl'.
  eexists. split; [exact Hl'|]. apply spec_set_growth.
Qed.

Lemma purge_section now es : section_spec 0 0 (purge_locked now) es.
Proof.
  intros t0 l Hl. eapply runs_mono; [by apply purge_locked_ok|]. cbn beta. intros _ l' [_ Hl'].
  eexists. split; [exact Hl'|]. rewrite Z.add_0_r. unfold spec_purge, zlen.
  apply inj_le, length_filter.
Qed.

(** ** The first step of a call *)

(** Where an operation goes after its section. *)
Definition after_op e (o : engine_op) (r : engine_reply) : pc :=
  match o with OpSet _ _ _ => after_set e | _ => Reply (Some r) end.

(** A critical section whose whole operation is known on settled engines. *)
Lemma section_step e (k : bytes) A (m : M Locked A) (g w : Z) (a : A) (m' : kv) :
  eng_inv (settled e) ->
  runs (lock_for k m) (settled e) (fun r e' => eng_inv e' /\ r = a /\ store e' = m') ->
  (forall es, section_spec g w m es) ->
  exists s l, eng_shards e !! shard_index e k = Some s /\ m (mkLocked s []) = (Ret a, l) /\
    section_ok g w e (shard_index e k) s (lk_inner l) (lk_ops l) /\
    store (with_shard (shard_index e k) (lk_inner l) e) = m'.
Proof.
  intros He Hrun Hm.
  destruct (lock_shard_section (shard_index e k) m g w e _ He Hrun Hm) as (s & a' & l & E & Hso & -> & Hst).
  exists s, l. split; [apply Hso|done].
Qed.

Ltac op_section He Href Hsec :=
  edestruct section_step as (s & l & Hs & E & Hso & Hst);
    [exact He
    |eapply runs_mono; [apply Href|]; cbn beta; intros r e' Hp; destruct_and? Hp; first [done | by destruct r]
    |apply Hsec|];
  exists s, (lk_inner l); eexists _, (lk_ops l);
  (split; [unfold enter_op, enter; rewrite Hs, E; reflexivity|split; [exact Hso|by rewrite Hst]]).

Lemma begin_op_ok p ts e o k :
  eng_inv (settled e) -> op_in_range o = true -> op_key o = Some k ->
  locked ts (shard_index e k) = false ->
  exists s s' r ops,
    begin_op p ts e o = Some (with_shard (shard_index e k) s' e,
      Held (shard_index e k) ops (after_op e o r), Some (EvOp o r)) /\
    section_ok (op_bytes o) (op_writes o) e (shard_index e k) s s' ops /\
    abs_op o (store e) = (r, store (with_shard (shard_index e k) s' e)).
Proof.
  intros He Hr Hk Hfree.
  destruct o as [k0 now|k0 v now|k0 now|k0 d now|k0 now|now]; simplify_eq/=;
    unfold enter_op, enter; rewrite Hfree.
  - op_section He (get_refines (settled e) k now He) get_section.
  - apply Z.leb_le in Hr.
    op_section He (set_locked_refines p (settled e) k v now He Hr) (fun es => set_section p k v now es Hr).
  - op_section He (delete_refines (settled e) k now He) delete_section.
  - apply Z.leb_le in Hr.
    op_section He (expire_refines (settled e) k d now He (fun _ => Hr)) (fun es => expire_section k d now es Hr).
  - op_section He (ttl_refines (settled e) k now He) ttl_section.
Qed.

(** ** The sweep of one shard *)

(** The content without the expired entries of shard [j]. *)
Definition abs_sweep e (j : nat) (now : Z) (m : kv) : kv :=
  filter (fun kx => ~ (shard_index e kx.1 = j /\ value_expired now kx.2 = true)) m.

Lemma sweep_store e ess e' j es now :
  eng_rep e ess -> ess !! j = Some es -> eng_rep e' (<[j := spec_purge now es]> ess) ->
  same_config e e' ->
  store_of (<[j := spec_purge now es]> ess) = abs_sweep e j now (store_of ess).
Proof.
  intros He Hj He' Hc. apply map_eq. intros k. destruct (eng_rep_shard e ess k He) as [es0 Hes].
  assert (Hidx : shard_index e' k = shard_index e k) by (unfold shard_index; by rewrite (proj1 Hc)).
  pose proof (store_lookup _ _ _ _ He Hes) as Hk. unfold abs_sweep. apply option_eq. intros x.
  rewrite map_lookup_filter_Some. cbn [fst snd].
  destruct (decide (shard_index e k = j)) as [<-|Hne].
  - assert (es0 = es) as -> by congruence.
    rewrite (store_lookup e' _ k (spec_purge now es) He') by
      (rewrite Hidx; apply list_lookup_insert_eq; by eapply lookup_lt_Some).
    destruct (Forall2_lookup_r _ _ _ _ _ (er_shards _ _ He) Hes) as (s & _ & Hrep).
    rewrite find_entry_purge by by eapply rep_keys_nodup.
    rewrite <- (eng_rep_store _ _ He) in Hk |- *. rewrite <- (live_of_entry now k e es Hk), live_Some.
    rewrite <- not_true_iff_false. naive_solver.
  - rewrite (store_lookup e' _ k es0 He'), Hk; [naive_solver|].
    by rewrite Hidx, list_lookup_insert_ne.
Qed.

Lemma purge_step_ok p ts e j now n round :
  eng_inv (settled e) -> (j < length (eng_shards e))%nat -> locked ts j = false ->
  exists s s' ops,
    let m' := store (with_shard j s' e) in
    let removed := Z.of_nat (size (store e)) - Z.of_nat (size m') in
    engine_step p ts e (Purging now j n round) =
      Some (with_shard j s' e, Held j ops (Purging now (S j) (n + removed) round), Some (EvSweep j now removed)) /\
    section_ok 0 0 e j s s' ops /\ m' = abs_sweep e j now (store e).
Proof.
  intros He Hj Hfree. set (ess := entries <$> eng_shards e).
  assert (exists es, ess !! j = Some es) as [es Hes].
  { apply lookup_lt_is_Some. unfold ess. by rewrite length_fmap. }
  pose proof (lock_shard_ok j (purge_locked now) _ _ es
    (fun n x => n = expired_count now es /\ x = spec_purge now es) He Hes) as Hrun.
  edestruct (lock_shard_section j (purge_locked now) 0 0 e (fun n e' => n = expired_count now es /\
    eng_rep e' (<[j := spec_purge now es]> ess) /\ same_config (settled e) e')) as (s & r & l & E & Hso & HQ); [done| |apply purge_section|].
  - eapply runs_mono; [apply Hrun|].
    + intros t0 l Hl. eapply runs_mono; [by apply purge_locked_ok|]. cbn beta. intros n0 l' [-> Hl']. eauto 6.
    + intros n0 x en [_ ->] [_ Hen]%list_elem_of_filter. by eapply (er_placed _ _ He).
    + cbn beta. intros n0 e' (x & [-> ->] & He' & Hc). split; [by eapply eng_rep_inv|done].
  - destruct HQ as (-> & He' & Hc). exists s, (lk_inner l), (lk_ops l). cbn zeta.
    assert (Hst : store (with_shard j (lk_inner l) e) = abs_sweep e j now (store e)).
    { rewrite <- (settled_store (with_shard _ _ _)), (eng_rep_store _ _ He').
      exact (sweep_store _ _ _ _ _ _ He Hes He' Hc). }
    assert (Hn : expired_count now es =
      Z.of_nat (size (store e)) - Z.of_nat (size (store (with_shard j (lk_inner l) e)))).
    { rewrite <- (settled_store (with_shard _ _ _)), <- (settled_store e).
      rewrite <- (proj2 (rep_totals _ _ He')), <- (proj2 (rep_totals _ _ He)).
      pose proof (expired_counts now [es]) as Hx. simpl in Hx. rewrite !app_nil_r in Hx.
      fold ess. change (entries <$> eng_shards (settled e)) with ess. rewrite (zlen_join_insert _ _ _ _ Hes). lia. }
    split; [|done]. cbn [engine_step evict_step]; unfold purge_step. rewrite bool_decide_true by done. unfold enter.
    rewrite Hfree, (so_shard _ _ _ _ _ _ _ Hso), E. by rewrite Hn.
Qed.

(** ** The eviction of one entry *)

Lemma evict_store e ess e' i en es :
  eng_rep e ess -> ess !! i = Some (en :: es) -> eng_rep e' (<[i := es]> ess) -> same_config e e' ->
  store_of (<[i := es]> ess) = base.delete (e_key en) (store_of ess) /\
  store_of ess !! e_key en = Some (entry_value en) /\ shard_index e (e_key en) = i.
Proof.
  intros He Hi He' Hc.
  assert (Hen : shard_index e (e_key en) = i) by (eapply (er_placed _ _ He); [done|set_solver]).
  destruct (Forall2_lookup_r _ _ _ _ _ (er_shards _ _ He) Hi) as (s & _ & Hrep).
  pose proof (rep_keys_nodup _ _ Hrep) as Hnd. csimpl in Hnd. apply NoDup_cons in Hnd as [Hni _].
  split; [|split; [rewrite (store_lookup e ess _ (en :: es)) by (done || by rewrite Hen);
    simpl; by rewrite decide_True|done]].
  apply map_eq. intros k. destruct (eng_rep_shard e ess k He) as [es0 Hes].
  assert (Hidx : shard_index e' k = shard_index e k) by (unfold shard_index; by rewrite (proj1 Hc)).
  destruct (decide (shard_index e k = i)) as [Hk|Hne].
  - rewrite (store_lookup e' _ k es He') by
      (rewrite Hidx, Hk; apply list_lookup_insert_eq; by eapply lookup_lt_Some).
    destruct (decide (e_key en = k)) as [<-|Hnk].
    + rewrite lookup_delete_eq. destruct (find_entry (e_key en) es) as [en'|] eqn:Hf; [|done].
      destruct (find_entry_Some _ _ _ Hf) as [? Ek]. exfalso. apply Hni. rewrite <- Ek.
      by apply list_elem_of_fmap_2.
    + rewrite lookup_delete_ne, (store_lookup e ess k (en :: es)) by (done || congruence).
      simpl. by rewrite decide_False.
  - rewrite (store_lookup e' _ k es0 He') by by rewrite Hidx, list_lookup_insert_ne.
    rewrite lookup_delete_ne by congruence. symmetry. by apply (store_lookup e).
Qed.

(** The shard a scan looks at. *)
Definition scan_shard e (start : Z) (offset : nat) : nat :=
  Z.to_nat ((start + Z.of_nat offset) mod Z.of_nat (length (eng_shards e))).

Lemma scan_shard_lt e start off :
  eng_inv (settled e) -> (scan_shard e start off < length (eng_shards e))%nat.
Proof.
  intros He. destruct (er_mask _ _ He) as (b & Hb & Hn & _). cbn [settled with_used eng_shards] in Hn.
  pose proof (pow2_pos b). unfold scan_shard.
  pose proof (Z.mod_pos_bound (start + Z.of_nat off) (Z.of_nat (length (eng_shards e)))). lia.
Qed.

(** One offset of the scan: an empty shard is passed, an entry is evicted. *)
Lemma scan_step_ok p ts e start off :
  eng_inv (settled e) -> 0 <= start -> start + Z.of_nat off <= USIZE_MAX ->
  (off < length (eng_shards e))%nat -> locked ts (scan_shard e start off) = false ->
  let i := scan_shard e start off in
  exists s, eng_shards e !! i = Some s /\
  ((entries s = [] /\
    engine_step p ts e (EvictScan start off) = Some (e, Held i [] (EvictScan start (S off)), None)) \/
   exists en es s', entries s = en :: es /\ entries s' = es /\
    engine_step p ts e (EvictScan start off) =
      Some (with_shard i s' e, Held i [] (EvictSub (entry_bytes en)), Some (EvEvict i (entry_bytes en))) /\
    eng_inv (settled (with_shard i s' e)) /\
    store (with_shard i s' e) = base.delete (e_key en) (store e) /\
    store e !! e_key en = Some (entry_value en) /\ shard_index e (e_key en) = i).
Proof.
  intros He Hst Hmax Hoff Hfree i.
  assert (exists s, eng_shards e !! i = Some s) as [s Hs] by by apply lookup_lt_is_Some, scan_shard_lt.
  assert (Hes : (entries <$> eng_shards (settled e)) !! i = Some (entries s)).
  { cbn [settled with_used eng_shards]. by rewrite list_lookup_fmap, Hs. }
  exists s. split; [done|].
  destruct (scan_index p (settled e) _ start off He Hst) as (sum & Esum & Eidx).
  { destruct p; [exact Hmax|done]. }
  rewrite length_fmap in Eidx. cbn [settled with_used eng_shards eng_shard_mask] in Eidx.
  fold (scan_shard e start off) in Eidx. fold i in Eidx, Hfree.
  assert (Estep : forall r s', pop_lru s = (Ret r, s') ->
    engine_step p ts e (EvictScan start off) = Some (with_shard i s' e,
      Held i [] match r with Some size => EvictSub size | None => EvictScan start (S off) end,
      match r with Some size => Some (EvEvict i size) | None => None end)).
  { intros r s' E. cbn [engine_step evict_step]. unfold scan_step, enter. rewrite bool_decide_true, Esum by done.
    rewrite Eidx, Hfree, Hs, (inner_run _ _ _ _ _ E). done. }
  destruct (Forall2_lookup_r _ _ _ _ _ (er_shards _ _ He) Hes) as (s0 & Hs0 & Hrep).
  cbn [settled with_used eng_shards] in Hs0. assert (s0 = s) as -> by congruence.
  destruct (runs_inv _ _ _ (rep_pop _ _ Hrep)) as (r & s' & E & Hpop).
  rewrite (Estep _ _ E). destruct (entries s) as [|en es] eqn:Ees.
  - destruct Hpop as [-> ->]. left. split; [done|]. unfold with_shard. rewrite list_insert_id by done.
    by destruct e.
  - destruct Hpop as [-> Hrep']. right. exists en, es, s'.
    destruct (evict_one_Some _ _ _ _ _ He Hes) as (e1 & E1 & Hc1 & He1).
    unfold evict_one_from_shard, lock_shard in E1. cbn [settled with_used eng_shards] in E1.
    rewrite Hs, (inner_run _ _ _ _ _ E) in E1. injection E1 as <-.
    pose proof (settled_fixed _ (eng_rep_inv _ _ He1)) as Hfix. rewrite <- Hfix in He1.
    change (eng_rep (settled (with_shard i s' e)) (<[i:=es]> (entries <$> eng_shards (settled e)))) in He1.
    destruct (evict_store _ _ _ _ _ _ He Hes He1 ltac:(done)) as (Hst1 & Hst2 & Hst3).
    split_and!; [done|by destruct Hrep'|done|by eapply eng_rep_inv| |done|done].
    by rewrite <- (settled_store (with_shard _ _ _)), (eng_rep_store _ _ He1).
Qed.

End sections.
