(* ===== verification/ConcurrentMoves.v ===== *)
(** * The moves of a thread

    What a step of a thread can do, in terms of the content of the shards: the
    relation [move] has one case per program point, with the facts about critical
    sections already applied.  On a well-formed engine every step of a well-formed
    thread is a move. *)

From S2P Require Import Prelude HkvError Shard ShardInv ShardOps Engine LockedOps KVEngine.
From S2P Require Import EngineInv EngineSpec Eviction EngineTheorems Accounting Concurrent ConcurrentSteps.

(** ** Well-formed threads *)

Definition is_set (c : option call) : Prop := exists k v now, c = Some (CallOp (OpSet k v now)).

(** [pc_ok C n c x]: a thread with the current call [c] can be at [x], on an
    engine with [n] shards whose cursor stays below [C]. *)
Fixpoint pc_ok (C : Z) (n : nat) (c : option call) (x : pc) : Prop :=
  match x with
  | Idle => False
  | Held i _ next =>
      (i < n)%nat /\ match next with Held _ _ _ => False | _ => pc_ok C n c next end
  | EvictLoad | EvictCursor => is_set c
  | EvictScan start offset => is_set c /\ 0 <= start < C /\ (offset <= n)%nat
  | EvictSub size => is_set c /\ 0 <= size
  | Purging now j _ None => c = Some (CallOp (OpPurge now)) /\ (j <= n)%nat
  | Purging _ j _ (Some _) => (exists d clock, c = Some (CallExpirer d clock)) /\ (j <= n)%nat
  | SweepLoad _ | SweepSleep _ => exists d clock, c = Some (CallExpirer d clock)
  | StopJoin => c = Some CallStop
  | Reply (Some _) => exists o, c = Some (CallOp o)
  | Reply None => exists c0, c = Some c0 /\ forall o, c0 ≠ CallOp o
  | Panicked => False
  end.

Definition call_ok (c : call) : bool := match c with CallOp o => op_in_range o | _ => true end.

(** The expirer's thread does nothing else. *)
Definition calls_ok (cs : list call) : Prop :=
  forallb call_ok cs = true /\ (forall d clock, CallExpirer d clock ∈ cs -> cs = [CallExpirer d clock]).

Record thread_ok (C : Z) (n : nat) (t : thread) : Prop := mkThreadOk {
  to_calls : calls_ok (th_calls t);
  to_pc : th_pc t = Idle \/ pc_ok C n (head (th_calls t)) (th_pc t)
}.

Section moves.
Context `{EngineEnv} (p : profile).
Implicit Types (e : MemoryEngine) (s : ShardInner) (ts : list thread) (t : thread).

(** ** Moves *)

(** Steps that neither touch the engine nor hold a lock: from, to, the stop flag
    afterwards. *)
Inductive quiet ts e (stop : bool) t : pc -> bool -> pc -> Prop :=
| q_purge now rest : th_calls t = CallOp (OpPurge now) :: rest -> quiet ts e stop t Idle stop (Purging now 0 0 None)
| q_expirer d clock rest : th_calls t = CallExpirer d clock :: rest -> quiet ts e stop t Idle stop (SweepLoad 0)
| q_stop rest : th_calls t = CallStop :: rest -> quiet ts e stop t Idle true StopJoin
| q_fits : eng_used_bytes e <= eng_max_bytes e -> quiet ts e stop t EvictLoad stop (Reply (Some set_done))
| q_exceeds : eng_max_bytes e < eng_used_bytes e -> quiet ts e stop t EvictLoad stop EvictCursor
| q_scanned start off : (length (eng_shards e) <= off)%nat ->
    quiet ts e stop t (EvictScan start off) stop (Reply (Some set_done))
| q_purged now j n : (length (eng_shards e) <= j)%nat ->
    quiet ts e stop t (Purging now j n None) stop (Reply (Some (ReplyCount n)))
| q_swept now j n r : (length (eng_shards e) <= j)%nat ->
    quiet ts e stop t (Purging now j n (Some r)) stop (SweepLoad (S r))
| q_stopped r : stop = true -> quiet ts e stop t (SweepLoad r) stop (Reply None)
| q_continue r : stop = false -> quiet ts e stop t (SweepLoad r) stop (SweepSleep r)
| q_woken r : quiet ts e stop t (SweepSleep r) stop (Purging (expirer_clock t r) 0 0 (Some r))
| q_joined : expiring ts = false -> quiet ts e stop t StopJoin stop (Reply None).

Inductive move ts e (stop : bool) t : MemoryEngine -> bool -> thread -> option event -> Prop :=
| mv_op o k s s' r ops rest :
    th_pc t = Idle -> th_calls t = CallOp o :: rest -> op_key o = Some k ->
    locked ts (shard_index e k) = false ->
    section_ok (op_bytes o) (op_writes o) e (shard_index e k) s s' ops ->
    abs_op o (store e) = (r, store (with_shard (shard_index e k) s' e)) ->
    move ts e stop t (with_shard (shard_index e k) s' e) stop
      (at_pc t (Held (shard_index e k) ops (after_op e o r))) (Some (EvOp o r))
| mv_sweep now j n round s s' ops :
    th_pc t = Purging now j n round -> locked ts j = false -> section_ok 0 0 e j s s' ops ->
    store (with_shard j s' e) = abs_sweep e j now (store e) ->
    let removed := Z.of_nat (size (store e)) - Z.of_nat (size (store (with_shard j s' e))) in
    move ts e stop t (with_shard j s' e) stop
      (at_pc t (Held j ops (Purging now (S j) (n + removed) round))) (Some (EvSweep j now removed))
| mv_pass start off s :
    th_pc t = EvictScan start off -> (off < length (eng_shards e))%nat ->
    locked ts (scan_shard e start off) = false ->
    eng_shards e !! scan_shard e start off = Some s -> entries s = [] ->
    move ts e stop t e stop (at_pc t (Held (scan_shard e start off) [] (EvictScan start (S off)))) None
| mv_evict start off s s' en es :
    let i := scan_shard e start off in
    th_pc t = EvictScan start off -> locked ts i = false ->
    eng_shards e !! i = Some s -> entries s = en :: es -> entries s' = es ->
    eng_inv (settled (with_shard i s' e)) ->
    store (with_shard i s' e) = base.delete (e_key en) (store e) ->
    store e !! e_key en = Some (entry_value en) -> shard_index e (e_key en) = i ->
    move ts e stop t (with_shard i s' e) stop
      (at_pc t (Held i [] (EvictSub (entry_bytes en)))) (Some (EvEvict i (entry_bytes en)))
| mv_count i d ops next :
    th_pc t = Held i (d :: ops) next ->
    move ts e stop t (with_used (wrapping_add (eng_used_bytes e) d) e) stop (at_pc t (Held i ops next)) None
| mv_unlock i next :
    th_pc t = Held i [] next -> move ts e stop t e stop (at_pc t next) None
| mv_cursor :
    th_pc t = EvictCursor ->
    move ts e stop t (with_cursor (wrapping_add (eng_eviction_cursor e) 1) e) stop
      (at_pc t (EvictScan (eng_eviction_cursor e) 0)) None
| mv_sub size :
    th_pc t = EvictSub size ->
    move ts e stop t (with_used (wrapping_sub (eng_used_bytes e) size) e) stop (at_pc t EvictLoad) None
| mv_quiet stop' c' :
    quiet ts e stop t (th_pc t) stop' c' -> move ts e stop t e stop' (at_pc t c') None
| mv_reply r :
    th_pc t = Reply r -> move ts e stop t e stop (finish t r) None.

(** ** Every step is a move *)

Lemma enter_free {A} ts e i (m : M Locked A) next ev x :
  enter ts e i m next ev = Some x -> locked ts i = false.
Proof. unfold enter. by destruct (locked ts i). Qed.

Lemma begin_op_free ts e o k x : begin_op p ts e o = Some x -> op_key o = Some k -> locked ts (shard_index e k) = false.
Proof. destruct o; intros Hx Hk; simplify_eq/=; by eapply enter_free. Qed.

Lemma scan_free C ts e start off x :
  eng_inv (settled e) -> C + Z.of_nat (length (eng_shards e)) <= USIZE_MAX -> 0 <= start < C ->
  (off < length (eng_shards e))%nat -> engine_step p ts e (EvictScan start off) = Some x ->
  locked ts (scan_shard e start off) = false.
Proof.
  intros He HC Hst Hlt E. cbn [engine_step evict_step] in E. unfold scan_step in E. rewrite bool_decide_true in E by done.
  destruct (scan_index p (settled e) _ start off He) as (sum & Esum & Eidx); [lia|destruct p; simpl; [lia|done]|].
  rewrite Esum in E. rewrite length_fmap in Eidx. cbn [settled with_used eng_shards eng_shard_mask] in Eidx.
  unfold scan_shard. rewrite <- Eidx. by eapply enter_free.
Qed.

Lemma purge_free ts e now j n round x :
  (j < length (eng_shards e))%nat -> engine_step p ts e (Purging now j n round) = Some x -> locked ts j = false.
Proof.
  intros Hlt E. cbn [engine_step evict_step] in E. unfold purge_step in E.
  rewrite bool_decide_true in E by done. by eapply enter_free.
Qed.

(** The components of the result of a step. *)
Local Ltac step_inj H := cbn in H; injection H as <- <- <- <-.

Lemma step_move C ts e stop t e' stop' t' ev :
  eng_inv (settled e) -> C + Z.of_nat (length (eng_shards e)) <= USIZE_MAX ->
  thread_ok C (length (eng_shards e)) t ->
  thread_step p (mkMachine e stop ts) t = Some (e', stop', t', ev) ->
  move ts e stop t e' stop' t' ev.
Proof.
  intros He HC [[Hcs Hexp] Hpc] Hstep. unfold thread_step in Hstep. cbn [mc_engine mc_stop mc_threads] in Hstep.
  destruct (th_pc t) as [ |i ops next| | |start off|size|now j n round|r|r| |r| ] eqn:Ec.
  - destruct (th_calls t) as [|[o|d clock|] rest] eqn:Ecs; [done|..].
    + simpl in Hcs. apply andb_prop in Hcs as [Ho _].
      destruct (begin_op p ts e o) as [x|] eqn:Eb; [|done].
      destruct (op_key o) as [k|] eqn:Ek.
      * pose proof (begin_op_free _ _ _ _ _ Eb Ek) as Hfree.
        destruct (begin_op_ok p ts e o k He Ho Ek Hfree) as (s & s' & r & ops & E & Hso & Habs).
        rewrite Eb in E. injection E as ->. step_inj Hstep. by eapply mv_op.
      * destruct o; try done. injection Eb as <-. step_inj Hstep. apply mv_quiet. rewrite Ec. by eapply q_purge.
    + step_inj Hstep. apply mv_quiet. rewrite Ec. by eapply q_expirer.
    + step_inj Hstep. apply mv_quiet. rewrite Ec. by eapply q_stop.
  - destruct ops as [|d ops]; step_inj Hstep; [by eapply mv_unlock|by eapply mv_count].
  - step_inj Hstep. apply mv_quiet. rewrite Ec.
    destruct (Z.leb_spec (eng_used_bytes e) (eng_max_bytes e)); by constructor.
  - step_inj Hstep. by apply mv_cursor.
  - destruct Hpc as [?|(_ & Hst & Hoff)]; [done|].
    destruct (decide (off < length (eng_shards e))%nat) as [Hlt|Hge].
    + assert (Hfree : locked ts (scan_shard e start off) = false).
      { destruct (engine_step p ts e (EvictScan start off)) eqn:E; [by eapply scan_free|done]. }
      destruct (scan_step_ok p ts e start off He) as (s & Hs & Hcase); [lia|lia|done|done|].
      destruct Hcase as [[Hes E]|(en & es & s' & Hes & Hes' & E & Hrest)]; rewrite E in Hstep; step_inj Hstep.
      * by eapply mv_pass.
      * destruct Hrest as (? & ? & ? & ?). by eapply mv_evict.
    + cbn [engine_step evict_step] in Hstep. unfold scan_step in Hstep. rewrite bool_decide_false in Hstep by done.
      step_inj Hstep. apply mv_quiet. rewrite Ec. apply q_scanned. lia.
  - step_inj Hstep. by apply mv_sub.
  - destruct (decide (j < length (eng_shards e))%nat) as [Hlt|Hge].
    + assert (Hfree : locked ts j = false).
      { destruct (engine_step p ts e (Purging now j n round)) eqn:E; [by eapply purge_free|done]. }
      destruct (purge_step_ok p ts e j now n round He Hlt Hfree) as (s & s' & ops & E & Hso & Hst).
      cbn zeta in *. rewrite E in Hstep. step_inj Hstep. by eapply mv_sweep.
    + cbn [engine_step evict_step] in Hstep; unfold purge_step in Hstep. rewrite bool_decide_false in Hstep by done. step_inj Hstep.
      apply mv_quiet. rewrite Ec. destruct round; constructor; lia.
  - step_inj Hstep. apply mv_quiet. rewrite Ec. destruct stop eqn:Es; by constructor.
  - step_inj Hstep. apply mv_quiet. rewrite Ec. constructor.
  - cbn in Hstep. destruct (expiring ts) eqn:Ex; [done|]. step_inj Hstep. apply mv_quiet. rewrite Ec. by constructor.
  - step_inj Hstep. by apply mv_reply.
  - done.
Qed.

End moves.
