(* ===== verification/ConcurrentInv.v ===== *)
(** * The invariant of concurrent executions

    Locks are exclusive; every shard is well formed, and the counter operations its
    holder still has to perform account for the difference between the bytes it
    holds and the bytes [pub] published for it; the byte counter is exactly the
    published bytes plus those of evicted entries not yet subtracted; what the
    remaining calls may still add stays within the counters' ranges. *)

From S2P Require Import Prelude HkvError Shard ShardInv ShardOps Engine LockedOps KVEngine.
From S2P Require Import EngineInv EngineSpec Eviction EngineTheorems Accounting.
From S2P Require Import Concurrent ConcurrentSteps ConcurrentMoves.

(** ** What a thread still has to do *)

(** The calls it has not begun. *)
Definition todo (t : thread) : list call :=
  match th_pc t with Idle => th_calls t | _ => tail (th_calls t) end.

Definition call_bytes (c : call) : Z := match c with CallOp o => op_bytes o | _ => 0 end.
Definition call_writes (c : call) : Z := match c with CallOp o => op_writes o | _ => 0 end.

(** Bytes evicted and not yet subtracted. *)
Fixpoint evicting (x : pc) : Z :=
  match x with EvictSub size => size | Held _ _ next => evicting next | _ => 0 end.

(** Bytes written and not yet added. *)
Definition pending (x : pc) : Z := match x with Held _ ops _ => growth ops | _ => 0 end.

(** Rounds of the eviction loop that do not depend on an entry to evict. *)
Fixpoint rounds (x : pc) : Z :=
  match x with
  | EvictLoad | EvictCursor | EvictSub _ => 1
  | Held _ _ next => rounds next
  | _ => 0
  end.

Definition t_evicting (t : thread) : Z := evicting (th_pc t).
Definition t_bytes (t : thread) : Z := pending (th_pc t) + zsum (call_bytes <$> todo t).
Definition t_rounds (t : thread) : Z := rounds (th_pc t) + 2 * zsum (call_writes <$> todo t).

(** The number of entries. *)
Definition count (e : MemoryEngine) : Z := zsum (shard_count <$> eng_shards e).

(** ** The invariant *)

Section invariant.
Context `{EngineEnv}.
Implicit Types (e : MemoryEngine) (s : ShardInner) (ts : list thread) (t : thread) (pub : list Z).

Record locks_ok (shs : list ShardInner) ts pub : Prop := mkLocksOk {
  lo_length : length pub = length shs;
  lo_exclusive : forall i a b t u, ts !! a = Some t -> ts !! b = Some u ->
    holds i t = true -> holds i u = true -> a = b;
  lo_free : forall i s, shs !! i = Some s -> locked ts i = false -> pub !! i = Some (shard_bytes s);
  lo_held : forall a t i ops next, ts !! a = Some t -> th_pc t = Held i ops next ->
    exists s x, shs !! i = Some s /\ pub !! i = Some x /\ ops_ok x (growth ops) ops (shard_bytes s)
}.

(** Only a [set] adds bytes, and eviction comes next. *)
Definition grows_before_evicting e t : Prop :=
  match th_pc t with Held _ ops next => growth ops = 0 \/ next = after_set e | _ => True end.

Record machine_inv (B C : Z) pub (m : machine) : Prop := mkMachineInv {
  mi_engine : eng_inv (settled (mc_engine m));
  mi_room : B <= USIZE_MAX /\ C + Z.of_nat (length (eng_shards (mc_engine m))) <= USIZE_MAX;
  mi_threads : Forall (thread_ok C (length (eng_shards (mc_engine m)))) (mc_threads m);
  mi_locks : locks_ok (eng_shards (mc_engine m)) (mc_threads m) pub;
  mi_grow : Forall (grows_before_evicting (mc_engine m)) (mc_threads m);
  mi_used : eng_used_bytes (mc_engine m) = zsum pub + zsum (t_evicting <$> mc_threads m);
  mi_bytes : eng_used_bytes (mc_engine m) + zsum (t_bytes <$> mc_threads m) <= B;
  mi_cursor : 0 <= eng_eviction_cursor (mc_engine m) /\
    eng_eviction_cursor (mc_engine m) + count (mc_engine m) + zsum (t_rounds <$> mc_threads m) <= C
}.

(** ** Lemmas: quantities *)

Lemma growth_nonneg ops : 0 <= growth ops.
Proof. apply zsum_nonneg, Forall_fmap, Forall_true. intros x. simpl. lia. Qed.

Lemma growth_cons d ops : growth (d :: ops) = Z.max 0 d + growth ops.
Proof. done. Qed.

Lemma zsum_growth ops : zsum ops <= growth ops.
Proof. induction ops as [|d ops IH]; [done|]. rewrite growth_cons. cbn [foldr]. lia. Qed.

Lemma shard_bytes_nonneg s : 0 <= shard_bytes s.
Proof. apply total_bytes_nonneg. Qed.

Lemma count_nonneg e : 0 <= count e.
Proof. apply zsum_nonneg, Forall_fmap, Forall_true. intros x. apply zlen_nonneg. Qed.

Lemma call_bytes_nonneg cs : 0 <= zsum (call_bytes <$> cs).
Proof.
  apply zsum_nonneg, Forall_fmap, Forall_true. intros [[]| |]; simpl; try done. unfold zlen. lia.
Qed.

Lemma call_writes_nonneg cs : 0 <= zsum (call_writes <$> cs).
Proof. apply zsum_nonneg, Forall_fmap, Forall_true. by intros [[]| |]. Qed.

Lemma t_bytes_nonneg t : 0 <= t_bytes t.
Proof.
  unfold t_bytes. pose proof (call_bytes_nonneg (todo t)). destruct (th_pc t); simpl; try lia.
  pose proof (growth_nonneg ops). lia.
Qed.

Lemma rounds_nonneg x : 0 <= rounds x.
Proof. induction x; simpl; lia. Qed.

Lemma t_rounds_nonneg t : 0 <= t_rounds t.
Proof. unfold t_rounds. pose proof (rounds_nonneg (th_pc t)). pose proof (call_writes_nonneg (todo t)). lia. Qed.

Lemma evicting_nonneg C n c x : pc_ok C n c x -> 0 <= evicting x.
Proof.
  induction x as [ |i ops next IH| | | |size| | | | | | ]; simpl; try lia.
  intros [_ Hn]. destruct next; try done; by apply IH.
Qed.

Lemma t_evicting_nonneg C n t : thread_ok C n t -> 0 <= t_evicting t.
Proof. intros [_ [Hp|Hp]]; unfold t_evicting; [by rewrite Hp|by eapply evicting_nonneg]. Qed.

(** A sum over the threads, without one of them. *)
Lemma zsum_others {A} (f : A -> Z) (l : list A) a x :
  l !! a = Some x -> (forall y, y ∈ l -> 0 <= f y) -> f x <= zsum (f <$> l).
Proof.
  revert a. induction l as [|y l IH]; intros [|a] E Hf; simplify_eq/=.
  - assert (0 <= zsum (f <$> l)); [|lia]. apply zsum_nonneg, Forall_fmap, Forall_forall.
    intros z Hz. apply Hf. set_solver.
  - specialize (IH a E ltac:(set_solver)). pose proof (Hf y ltac:(set_solver)). lia.
Qed.

(** ** Lemmas: locks *)

Lemma locked_true ts i : locked ts i = true <-> exists a t, ts !! a = Some t /\ holds i t = true.
Proof.
  unfold locked. rewrite existsb_exists. split.
  - intros (t & [a Ha]%list_elem_of_In%list_elem_of_lookup & Ht). eauto.
  - intros (a & t & Ha & Ht). exists t. split; [by eapply list_elem_of_In, list_elem_of_lookup_2|done].
Qed.

Lemma holds_pc i t : holds i t = true <-> exists ops next, th_pc t = Held i ops next.
Proof.
  unfold holds. destruct (th_pc t); try (split; [done|by intros (? & ? & ?)]).
  rewrite bool_decide_eq_true. split; [intros ->; eauto|by intros (? & ? & [= -> _ _])].
Qed.

Lemma locked_insert ts a t t' i :
  ts !! a = Some t -> holds i t = false -> locked (<[a := t']> ts) i = holds i t' || locked ts i.
Proof.
  intros Ha Ht. apply eq_bool_prop_intro. rewrite orb_True, !Is_true_true, !locked_true. split.
  - intros (b & u & Hb & Hu). destruct (decide (a = b)) as [<-|Hne].
    + rewrite list_lookup_insert_eq in Hb by by eapply lookup_lt_Some. simplify_eq. by left.
    + rewrite list_lookup_insert_ne in Hb by done. right. eauto.
  - intros [Ht'|(b & u & Hb & Hu)].
    + exists a, t'. split; [|done]. apply list_lookup_insert_eq. by eapply lookup_lt_Some.
    + exists b, u. split; [|done]. rewrite list_lookup_insert_ne; [done|]. intros ->. congruence.
Qed.

Lemma pub_nonneg shs ts pub : locks_ok shs ts pub -> Forall (fun x => 0 <= x) pub.
Proof.
  intros [Hlen _ Hfree Hheld]. apply Forall_lookup. intros i x Hx.
  destruct (lookup_lt_is_Some_2 shs i) as [s Hs]; [rewrite <- Hlen; by eapply lookup_lt_Some|].
  destruct (locked ts i) eqn:El.
  - apply locked_true in El as (a & t & Ha & (ops & next & Ht)%holds_pc).
    destruct (Hheld _ _ _ _ _ Ha Ht) as (s0 & x0 & _ & Hx0 & Hops). simplify_eq.
    pose proof (oo_nonneg _ _ _ _ Hops [] ops eq_refl). simpl in *. lia.
  - rewrite (Hfree i s Hs El) in Hx. simplify_eq. apply shard_bytes_nonneg.
Qed.

(** The threads after one of them has moved, seen from another. *)
Lemma insert_cases ts a t' b u :
  <[a := t']> ts !! b = Some u -> (b = a /\ u = t') \/ (b ≠ a /\ ts !! b = Some u).
Proof. intros [(-> & -> & _)|[? ?]]%list_lookup_insert_Some; [by left|right]. by split. Qed.

(** A thread that holds no lock goes where it holds none. *)
Lemma locks_other shs ts pub a t t' :
  locks_ok shs ts pub -> ts !! a = Some t -> (forall i, holds i t = false) -> (forall i, holds i t' = false) ->
  locks_ok shs (<[a := t']> ts) pub.
Proof.
  intros [Hlen Hex Hfree Hheld] Ha Ht Ht'. split; [done|..].
  - intros i b c u v [[-> ->]|[? Hb]]%insert_cases [[-> ->]|[? Hc]]%insert_cases Hu Hv;
      try done; [by rewrite Ht' in Hu|by rewrite Ht' in Hv|by eapply Hex].
  - intros i s Hs. rewrite (locked_insert _ _ t) by done. rewrite Ht'. simpl. by apply Hfree.
  - intros b u i ops next [[-> ->]|[? Hb]]%insert_cases Hu; [|by eapply Hheld].
    assert (holds i t' = true) by (apply holds_pc; eauto). congruence.
Qed.

(** It takes a free lock and leaves [s'] in the shard, of which [x] bytes are
    published. *)
Lemma locks_enter shs ts pub a t t' j s' x ops next :
  locks_ok shs ts pub -> ts !! a = Some t -> (forall i, holds i t = false) -> th_pc t' = Held j ops next ->
  locked ts j = false -> (j < length shs)%nat -> ops_ok x (growth ops) ops (shard_bytes s') ->
  locks_ok (<[j := s']> shs) (<[a := t']> ts) (<[j := x]> pub).
Proof.
  intros [Hlen Hex Hfree Hheld] Ha Ht Ht' Hj Hlt Hops.
  assert (Hh : forall i, holds i t' = true <-> i = j).
  { intros i. rewrite holds_pc, Ht'. split; [by intros (? & ? & [= <- _ _])|intros ->; eauto]. }
  assert (Hnone : forall b u, ts !! b = Some u -> holds j u = true -> False).
  { intros b u Hb Hu. assert (locked ts j = true) by (apply locked_true; eauto). congruence. }
  split; [by rewrite !length_insert|..].
  - intros i b c u v [[-> ->]|[? Hb]]%insert_cases [[-> ->]|[? Hc]]%insert_cases Hu Hv; try done;
      rewrite ?Hh in *; subst; [exfalso; by eapply Hnone|exfalso; by eapply Hnone|by eapply Hex].
  - intros i s Hs. rewrite (locked_insert _ _ t) by done. rewrite orb_false_iff. intros [Hi Hl].
    assert (i ≠ j) by (rewrite <- Hh; congruence). rewrite list_lookup_insert_ne in Hs by done.
    rewrite list_lookup_insert_ne by done. by apply Hfree.
  - intros b u i ops' next' [[-> ->]|[? Hb]]%insert_cases Hu.
    + rewrite Ht' in Hu. simplify_eq. exists s', x.
      rewrite !list_lookup_insert_eq by (rewrite ?Hlen; done). done.
    + destruct (Hheld _ _ _ _ _ Hb Hu) as (s & y & Hs & Hy & Hops'). exists s, y.
      assert (i ≠ j) by (intros ->; eapply Hnone; [done|by apply holds_pc; eauto]).
      by rewrite !list_lookup_insert_ne.
Qed.

(** It performs a counter operation. *)
Lemma locks_count shs ts pub a t t' i d ops next :
  locks_ok shs ts pub -> ts !! a = Some t -> th_pc t = Held i (d :: ops) next -> th_pc t' = Held i ops next ->
  exists x, pub !! i = Some x /\ locks_ok shs (<[a := t']> ts) (<[i := x + d]> pub).
Proof.
  intros [Hlen Hex Hfree Hheld] Ha Ht Ht'.
  destruct (Hheld _ _ _ _ _ Ha Ht) as (s & x & Hs & Hx & [Hsum Hnn _]). exists x. split; [done|].
  assert (Hh : forall j, holds j t' = holds j t) by (intros j; unfold holds; by rewrite Ht, Ht').
  assert (Hl : forall j, locked (<[a := t']> ts) j = locked ts j).
  { intros j. apply eq_bool_prop_intro. rewrite !Is_true_true, !locked_true. split.
    - intros (b & u & [[-> ->]|[? Hb]]%insert_cases & Hu); [exists a, t; by rewrite <- Hh|eauto].
    - intros (b & u & Hb & Hu). destruct (decide (a = b)) as [<-|Hne].
      + exists a, t'. rewrite list_lookup_insert_eq by by eapply lookup_lt_Some. rewrite Hh. by simplify_eq.
      + exists b, u. by rewrite list_lookup_insert_ne. }
  split; [by rewrite length_insert|..].
  - intros j b c u v [[-> ->]|[? Hb]]%insert_cases [[-> ->]|[? Hc]]%insert_cases Hu Hv; try done;
      rewrite ?Hh in *; by eapply Hex.
  - intros j s0 Hs0. rewrite Hl. intros Hfr.
    assert (j ≠ i).
    { intros ->. assert (locked ts i = true); [|congruence]. apply locked_true. exists a, t.
      split; [done|]. apply holds_pc. eauto. }
    rewrite list_lookup_insert_ne by done. by apply Hfree.
  - intros b u j ops' next' [[-> ->]|[Hba Hb]]%insert_cases Hu.
    + rewrite Ht' in Hu. simplify_eq. exists s, (x + d).
      rewrite list_lookup_insert_eq by by eapply lookup_lt_Some. split_and!; [done..|].
      simpl in Hsum. split; [lia| |done]. intros ops1 ops2 ->.
      pose proof (Hnn (d :: ops1) ops2 eq_refl). simpl in *. lia.
    + destruct (Hheld _ _ _ _ _ Hb Hu) as (s0 & y & Hs0 & Hy & Hops'). exists s0, y.
      assert (j ≠ i).
      { intros ->. apply Hba. eapply (Hex i); [done|done|apply holds_pc; eauto|apply holds_pc; eauto]. }
      by rewrite list_lookup_insert_ne.
Qed.

(** It releases its lock. *)
Lemma locks_release shs ts pub a t t' i next :
  locks_ok shs ts pub -> ts !! a = Some t -> th_pc t = Held i [] next -> (forall j, holds j t' = false) ->
  locks_ok shs (<[a := t']> ts) pub.
Proof.
  intros [Hlen Hex Hfree Hheld] Ha Ht Ht'.
  destruct (Hheld _ _ _ _ _ Ha Ht) as (s & x & Hs & Hx & [Hsum _ _]).
  split; [done|..].
  - intros j b c u v [[-> ->]|[? Hb]]%insert_cases [[-> ->]|[? Hc]]%insert_cases Hu Hv;
      try done; [by rewrite Ht' in Hu|by rewrite Ht' in Hv|by eapply Hex].
  - intros j s0 Hs0 Hl. destruct (decide (j = i)) as [->|Hne].
    + simplify_eq. simpl in Hsum. rewrite Hx. f_equal. lia.
    + apply Hfree; [done|]. destruct (locked ts j) eqn:El; [|done]. exfalso.
      apply locked_true in El as (b & u & Hb & Hu). destruct (decide (a = b)) as [<-|Hab].
      * simplify_eq. apply holds_pc in Hu as (? & ? & ?). congruence.
      * assert (locked (<[a := t']> ts) j = true); [|congruence].
        apply locked_true. exists b, u. by rewrite list_lookup_insert_ne.
  - intros b u j ops next' [[-> ->]|[? Hb]]%insert_cases Hu; [|by eapply Hheld].
    assert (holds j t' = true) by (apply holds_pc; eauto). congruence.
Qed.

(** ** Lemmas: one thread *)

Lemma ops_ok_grown x g ops y : ops_ok x g ops y -> ops_ok x (growth ops) ops y.
Proof. by intros [? ? _]. Qed.

Lemma not_growing x ops y : ops_ok x 0 ops y -> growth ops = 0.
Proof. intros [_ _ Hg]. pose proof (growth_nonneg ops). lia. Qed.

Lemma holds_idle i t : (forall j ops next, th_pc t ≠ Held j ops next) -> holds i t = false.
Proof. intros Ht. destruct (holds i t) eqn:E; [|done]. apply holds_pc in E as (? & ? & ?). naive_solver. Qed.

Lemma todo_at t c : c ≠ Idle -> todo (at_pc t c) = tail (th_calls t).
Proof. by destruct c. Qed.

Lemma todo_busy t : th_pc t ≠ Idle -> todo t = tail (th_calls t).
Proof. unfold todo. by destruct (th_pc t). Qed.

Lemma thread_ok_at C n t c : thread_ok C n t -> pc_ok C n (head (th_calls t)) c -> thread_ok C n (at_pc t c).
Proof. intros [Hcs _] Hc. split; [done|by right]. Qed.

Lemma thread_ok_finish C n t r : thread_ok C n t -> th_pc t ≠ Idle -> thread_ok C n (finish t r).
Proof.
  intros [[Hcs Hexp] _] Hpc. split; [|by left]. unfold finish. cbn [th_calls].
  destruct (th_calls t) as [|c cs]; [done|]. simpl in *. apply andb_prop in Hcs as [_ Hcs]. split; [done|].
  intros d clock Hin. assert (c :: cs = [CallExpirer d clock]) as [= _ ->] by (apply Hexp; set_solver). set_solver.
Qed.

Lemma thread_pc C n t x : thread_ok C n t -> th_pc t = x -> x ≠ Idle -> pc_ok C n (head (th_calls t)) x.
Proof. intros [_ [?|?]]; congruence. Qed.

Lemma rounds_after e o r : rounds (after_op e o r) <= op_writes o.
Proof. destruct o; simpl; try done. unfold after_set. by destruct (_ =? _). Qed.

Lemma evicting_after e o r : evicting (after_op e o r) = 0.
Proof. destruct o; simpl; try done. unfold after_set. by destruct (_ =? _). Qed.

Lemma after_op_ok C n e o r rest : pc_ok C n (head (CallOp o :: rest)) (after_op e o r).
Proof. destruct o; simpl; eauto. unfold after_set. destruct (_ =? _); simpl; unfold is_set; eauto. Qed.

Lemma count_with_shard i s s' e :
  eng_shards e !! i = Some s -> count (with_shard i s' e) = count e - shard_count s + shard_count s'.
Proof. intros Hs. unfold count, with_shard. cbn [eng_shards]. by rewrite (zsum_fmap_insert _ _ _ s). Qed.

(** ** One thread moves *)

(** What has to be shown of a move: facts about the thread and the differences it
    makes to the sums. *)
Lemma machine_inv_move B C pub pub' e e' stop stop' ts a t t' :
  machine_inv B C pub (mkMachine e stop ts) -> ts !! a = Some t ->
  eng_inv (settled e') -> length (eng_shards e') = length (eng_shards e) -> eng_max_bytes e' = eng_max_bytes e ->
  thread_ok C (length (eng_shards e)) t' -> locks_ok (eng_shards e') (<[a := t']> ts) pub' ->
  grows_before_evicting e t' ->
  eng_used_bytes e' - zsum pub' - t_evicting t' = eng_used_bytes e - zsum pub - t_evicting t ->
  eng_used_bytes e' + t_bytes t' <= eng_used_bytes e + t_bytes t ->
  0 <= eng_eviction_cursor e' ->
  eng_eviction_cursor e' + count e' + t_rounds t' <= eng_eviction_cursor e + count e + t_rounds t ->
  machine_inv B C pub' (mkMachine e' stop' (<[a := t']> ts)).
Proof.
  intros [He Hroom Hts Hlk Hgr Hu Hb Hc] Ha He' Hlen Hmax Ht' Hlk' Hgr' Hdu Hdb Hc0 Hdc.
  cbn [mc_engine mc_threads] in *. assert (Hset : after_set e' = after_set e) by (unfold after_set; by rewrite Hmax).
  assert (Hgr2 : forall u, grows_before_evicting e' u <-> grows_before_evicting e u).
  { intros u. unfold grows_before_evicting. by rewrite Hset. }
  split; cbn [mc_engine mc_threads]; rewrite ?Hlen; rewrite ?(zsum_fmap_insert _ _ _ t) by done; try done; try lia.
  - by apply Forall_insert.
  - apply Forall_insert; [|by apply Hgr2]. eapply Forall_impl; [exact Hgr|]. intros u. apply Hgr2.
Qed.

End invariant.
