(* ===== verification/ConcurrentKeep.v ===== *)
(** * Moves keep the invariant

    One lemma per move of [ConcurrentMoves]: the locks, the bytes published for
    the shards and the sums of [machine_inv] after it. *)

From S2P Require Import Prelude HkvError Shard ShardInv ShardOps Engine LockedOps KVEngine.
From S2P Require Import EngineInv EngineSpec Eviction EngineTheorems Accounting.
From S2P Require Import Concurrent ConcurrentSteps ConcurrentMoves ConcurrentInv.

Section keep.
Context `{EngineEnv} (p : profile) (B C : Z).
Context (pub : list Z) (e : MemoryEngine) (stop : bool) (ts : list thread) (a : nat) (t : thread).
Context (Hinv : machine_inv B C pub (mkMachine e stop ts)) (Ha : ts !! a = Some t).

Local Abbreviation inv_after pub' e' stop' t' := (machine_inv B C pub' (mkMachine e' stop' (<[a := t']> ts))).

Let Hengine : eng_inv (settled e) := mi_engine _ _ _ _ Hinv.
Let Hlocks : locks_ok (eng_shards e) ts pub := mi_locks _ _ _ _ Hinv.

Lemma this_ok : thread_ok C (length (eng_shards e)) t.
Proof. exact (Forall_lookup_1 _ _ _ _ (mi_threads _ _ _ _ Hinv) Ha). Qed.

Lemma this_grows : grows_before_evicting e t.
Proof. exact (Forall_lookup_1 _ _ _ _ (mi_grow _ _ _ _ Hinv) Ha). Qed.

Lemma shard_lt i s : eng_shards e !! i = Some s -> (i < length (eng_shards e))%nat.
Proof. apply lookup_lt_Some. Qed.

(** The sums over the threads are at least what [t] contributes. *)
Lemma this_bytes : t_bytes t <= zsum (t_bytes <$> ts).
Proof. eapply zsum_others; [done|]. intros u _. apply t_bytes_nonneg. Qed.

Lemma this_rounds : t_rounds t <= zsum (t_rounds <$> ts).
Proof. eapply zsum_others; [done|]. intros u _. apply t_rounds_nonneg. Qed.

Lemma this_evicting : t_evicting t <= zsum (t_evicting <$> ts).
Proof.
  eapply zsum_others; [done|]. intros u Hu. pose proof (mi_threads _ _ _ _ Hinv) as Hts.
  rewrite Forall_forall in Hts. by eapply t_evicting_nonneg, Hts.
Qed.

Lemma published_nonneg : 0 <= zsum pub.
Proof. eapply zsum_nonneg, pub_nonneg, Hlocks. Qed.

Lemma used_range : 0 <= eng_used_bytes e <= B /\ B <= USIZE_MAX.
Proof.
  pose proof (mi_used _ _ _ _ Hinv) as Hu. pose proof (mi_bytes _ _ _ _ Hinv) as Hb.
  cbn [mc_engine mc_threads] in *. pose proof published_nonneg. pose proof (mi_room _ _ _ _ Hinv) as [? _].
  assert (0 <= zsum (t_evicting <$> ts)).
  { apply zsum_nonneg, Forall_fmap. eapply Forall_impl; [exact (mi_threads _ _ _ _ Hinv)|].
    intros u. apply t_evicting_nonneg. }
  assert (0 <= zsum (t_bytes <$> ts)) by (apply zsum_nonneg, Forall_fmap, Forall_true, t_bytes_nonneg). lia.
Qed.

(** A critical section: the counter is untouched, what is published too. *)
Lemma keep_section o ops i s s' g w next :
  section_ok g w e i s s' ops -> locked ts i = false -> (forall j, holds j t = false) ->
  g + zsum (call_bytes <$> o) <= t_bytes t -> t_evicting t = 0 -> evicting next = 0 ->
  w + rounds next + 2 * zsum (call_writes <$> o) <= t_rounds t -> tail (th_calls t) = o ->
  pc_ok C (length (eng_shards e)) (head (th_calls t)) next -> (forall j ops' n', next ≠ Held j ops' n') ->
  g = 0 \/ next = after_set e ->
  inv_after pub (with_shard i s' e) stop (at_pc t (Held i ops next)).
Proof.
  intros [Hs He' Hops Hcnt] Hfree Ht Hg Hev Hnext Hw <- Hpc Hnh Hgrow.
  assert (Hi : pub !! i = Some (shard_bytes s)) by by apply (lo_free _ _ _ Hlocks).
  pose proof (mi_cursor _ _ _ _ Hinv) as [? _]. cbn [mc_engine] in *.
  eapply machine_inv_move; [exact Hinv|exact Ha|done|by apply length_insert|done|..].
  - apply thread_ok_at; [apply this_ok|]. split; [by eapply shard_lt|]. destruct next; try done. naive_solver.
  - cbn [with_shard eng_shards]. rewrite <- (list_insert_id pub i (shard_bytes s)) by done.
    eapply locks_enter; [done..|by eapply shard_lt|by eapply ops_ok_grown].
  - unfold grows_before_evicting. cbn [at_pc th_pc]. destruct Hgrow as [->|?]; [|by right].
    left. by eapply not_growing.
  - unfold t_evicting at 1. cbn [at_pc th_pc evicting with_shard eng_used_bytes]. lia.
  - unfold t_bytes at 1. rewrite todo_at by done. cbn [at_pc th_pc pending with_shard eng_used_bytes].
    pose proof (oo_growth _ _ _ _ Hops). lia.
  - done.
  - rewrite (count_with_shard _ _ _ _ Hs). unfold t_rounds at 1. rewrite todo_at by done.
    cbn [at_pc th_pc rounds with_shard eng_eviction_cursor]. lia.
Qed.

Lemma keep_op o k s s' r ops rest :
  th_pc t = Idle -> th_calls t = CallOp o :: rest -> locked ts (shard_index e k) = false ->
  section_ok (op_bytes o) (op_writes o) e (shard_index e k) s s' ops ->
  inv_after pub (with_shard (shard_index e k) s' e) stop (at_pc t (Held (shard_index e k) ops (after_op e o r))).
Proof.
  intros Hpc Hcs Hfree Hso. eapply (keep_section rest); try done.
  - intros j. apply holds_idle. congruence.
  - unfold t_bytes, todo. rewrite Hpc, Hcs, fmap_cons. cbn [foldr call_bytes pending]. lia.
  - unfold t_evicting. by rewrite Hpc.
  - apply evicting_after.
  - unfold t_rounds, todo. rewrite Hpc, Hcs, fmap_cons. pose proof (rounds_after e o r). cbn [foldr call_writes rounds]. lia.
  - by rewrite Hcs.
  - rewrite Hcs. apply (after_op_ok _ _ _ _ _ rest).
  - intros j ops' n'. destruct o; try done. simpl. unfold after_set. by destruct (_ =? _).
  - destruct o; [by left|by right|by left..].
Qed.

Lemma keep_sweep now j n n' round s s' ops :
  th_pc t = Purging now j n round -> locked ts j = false -> section_ok 0 0 e j s s' ops ->
  inv_after pub (with_shard j s' e) stop (at_pc t (Held j ops (Purging now (S j) n' round))).
Proof.
  intros Hpc Hfree Hso. eapply keep_section; try done; try by left.
  - intros i. apply holds_idle. congruence.
  - unfold t_bytes. rewrite todo_busy, Hpc by congruence. simpl. lia.
  - unfold t_evicting. by rewrite Hpc.
  - unfold t_rounds. rewrite todo_busy, Hpc by congruence. simpl. lia.
  - pose proof (thread_pc _ _ _ _ this_ok Hpc ltac:(done)) as Hok.
    pose proof (shard_lt _ _ (so_shard _ _ _ _ _ _ _ Hso)). destruct round; destruct Hok; (split; [done|lia]).
Qed.

Lemma keep_pass start off s :
  th_pc t = EvictScan start off -> (off < length (eng_shards e))%nat ->
  locked ts (scan_shard e start off) = false -> eng_shards e !! scan_shard e start off = Some s ->
  inv_after pub e stop (at_pc t (Held (scan_shard e start off) [] (EvictScan start (S off)))).
Proof.
  intros Hpc Hoff Hfree Hs.
  assert (E : with_shard (scan_shard e start off) s e = e).
  { unfold with_shard. rewrite list_insert_id by done. by destruct e. }
  rewrite <- E at 1. eapply keep_section; try done; try by left.
  - split; [done| |apply ops_ok_nil, shard_bytes_nonneg|rewrite Z.add_0_r; done]. by rewrite E.
  - intros i. apply holds_idle. congruence.
  - unfold t_bytes. rewrite todo_busy, Hpc by congruence. simpl. lia.
  - unfold t_evicting. by rewrite Hpc.
  - unfold t_rounds. rewrite todo_busy, Hpc by congruence. simpl. lia.
  - pose proof (thread_pc _ _ _ _ this_ok Hpc ltac:(done)) as (? & ? & ?). split_and!; first [done|lia].
Qed.

Lemma keep_evict start off s s' en es :
  let i := scan_shard e start off in
  th_pc t = EvictScan start off -> locked ts i = false -> eng_shards e !! i = Some s ->
  entries s = en :: es -> entries s' = es -> eng_inv (settled (with_shard i s' e)) ->
  inv_after (<[i := shard_bytes s']> pub) (with_shard i s' e) stop (at_pc t (Held i [] (EvictSub (entry_bytes en)))).
Proof.
  intros i Hpc Hfree Hs Hes Hes' He'.
  assert (Hi : pub !! i = Some (shard_bytes s)) by by apply (lo_free _ _ _ Hlocks).
  assert (Hbytes : shard_bytes s = entry_bytes en + shard_bytes s') by (unfold shard_bytes; by rewrite Hes, Hes').
  assert (Hcount : shard_count s = 1 + shard_count s') by (unfold shard_count; by rewrite Hes, Hes', zlen_cons).
  pose proof (mi_cursor _ _ _ _ Hinv) as [? _]. cbn [mc_engine] in *.
  pose proof (thread_pc _ _ _ _ this_ok Hpc ltac:(done)) as (Hset & _).
  eapply machine_inv_move; [exact Hinv|exact Ha|done|by apply length_insert|done|..].
  - apply thread_ok_at; [apply this_ok|]. split; [by eapply shard_lt|]. split; [done|].
    unfold entry_bytes, zlen. lia.
  - cbn [with_shard eng_shards]. eapply locks_enter; [done..| | |done|by eapply shard_lt|].
    + intros j. apply holds_idle. congruence.
    + done.
    + apply ops_ok_nil, shard_bytes_nonneg.
  - by left.
  - rewrite (zsum_insert _ _ _ _ Hi). unfold t_evicting. rewrite Hpc. cbn. lia.
  - unfold t_bytes. rewrite todo_at, todo_busy, Hpc by congruence. cbn. lia.
  - done.
  - rewrite (count_with_shard _ _ _ _ Hs). unfold t_rounds. rewrite todo_at, todo_busy, Hpc by congruence. cbn. lia.
Qed.

Lemma keep_count i d ops next :
  th_pc t = Held i (d :: ops) next ->
  exists x, pub !! i = Some x /\
    inv_after (<[i := x + d]> pub) (with_used (wrapping_add (eng_used_bytes e) d) e) stop (at_pc t (Held i ops next)).
Proof.
  intros Hpc. destruct (locks_count _ _ _ a t (at_pc t (Held i ops next)) i d ops next Hlocks Ha Hpc eq_refl)
    as (x & Hx & Hlk). exists x. split; [done|].
  assert (Hrange : 0 <= eng_used_bytes e + d <= USIZE_MAX).
  { pose proof used_range as [_ HB]. pose proof (mi_bytes _ _ _ _ Hinv) as Hb. cbn [mc_engine mc_threads] in Hb.
    pose proof this_bytes as Htb. split.
    - pose proof (zsum_nonneg _ (pub_nonneg _ _ _ Hlk)) as Hp. rewrite (zsum_insert _ _ _ _ Hx) in Hp.
      pose proof (mi_used _ _ _ _ Hinv) as Hu. cbn [mc_engine mc_threads] in Hu.
      pose proof this_evicting. pose proof (t_evicting_nonneg _ _ _ this_ok). lia.
    - unfold t_bytes at 1 in Htb. rewrite Hpc in Htb. cbn [pending] in Htb. rewrite growth_cons in Htb.
      pose proof (growth_nonneg ops). pose proof (call_bytes_nonneg (todo t)). lia. }
  assert (Hw : wrapping_add (eng_used_bytes e) d = eng_used_bytes e + d) by by apply wrap64_small.
  pose proof (mi_cursor _ _ _ _ Hinv) as [? _]. cbn [mc_engine] in *.
  pose proof (thread_pc _ _ _ _ this_ok Hpc ltac:(done)) as Hok.
  eapply machine_inv_move; [exact Hinv|exact Ha|done..| |done| | | |done|].
  - by apply thread_ok_at; [apply this_ok|].
  - pose proof this_grows as Hg. unfold grows_before_evicting in *. rewrite Hpc in Hg. cbn [at_pc th_pc].
    destruct Hg as [Hg|?]; [|by right]. left. pose proof (growth_nonneg ops).
    rewrite growth_cons in Hg. lia.
  - rewrite (zsum_insert _ _ _ _ Hx). cbn [with_used eng_used_bytes]. rewrite Hw.
    unfold t_evicting. rewrite Hpc. cbn. lia.
  - cbn [with_used eng_used_bytes]. rewrite Hw. unfold t_bytes. rewrite todo_at, todo_busy, Hpc by congruence.
    cbn [at_pc th_pc pending]. rewrite growth_cons. lia.
  - unfold t_rounds. rewrite todo_at, todo_busy, Hpc by congruence. done.
Qed.

Lemma keep_unlock i next :
  th_pc t = Held i [] next -> inv_after pub e stop (at_pc t next).
Proof.
  intros Hpc. pose proof (thread_pc _ _ _ _ this_ok Hpc ltac:(done)) as [Hi Hok].
  pose proof (mi_cursor _ _ _ _ Hinv) as [? _]. cbn [mc_engine] in *.
  assert (Hnext : next ≠ Idle) by by intros ->.
  assert (Hnh : forall j ops n, next ≠ Held j ops n) by (intros; by destruct next).
  assert (Hpend : pending next = 0) by by destruct next.
  eapply machine_inv_move; [exact Hinv|exact Ha|done..| | | | | |done|].
  - apply thread_ok_at; [apply this_ok|]. by destruct next.
  - eapply locks_release; [done..|]. intros j. by apply holds_idle.
  - unfold grows_before_evicting. cbn [at_pc th_pc]. by destruct next.
  - unfold t_evicting. by rewrite Hpc.
  - unfold t_bytes. rewrite todo_at, todo_busy, Hpc by congruence. cbn [at_pc th_pc]. rewrite Hpend. cbn. lia.
  - unfold t_rounds. rewrite todo_at, todo_busy, Hpc by congruence. done.
Qed.

(** A thread that holds no lock before and after, on the same shards. *)
Lemma keep_outside e' stop' t' :
  settled e' = settled e ∨ eng_inv (settled e') -> eng_shards e' = eng_shards e -> eng_max_bytes e' = eng_max_bytes e ->
  (forall i ops next, th_pc t ≠ Held i ops next) -> (forall i ops next, th_pc t' ≠ Held i ops next) ->
  thread_ok C (length (eng_shards e)) t' ->
  eng_used_bytes e' - t_evicting t' = eng_used_bytes e - t_evicting t ->
  eng_used_bytes e' + t_bytes t' <= eng_used_bytes e + t_bytes t ->
  0 <= eng_eviction_cursor e' -> eng_eviction_cursor e' + t_rounds t' <= eng_eviction_cursor e + t_rounds t ->
  inv_after pub e' stop' t'.
Proof.
  intros He' Hsh Hmax Ht Ht' Hok Hev Hb Hc0 Hc.
  eapply machine_inv_move; [exact Hinv|exact Ha| |by rewrite Hsh|done|done| | | |done|done|].
  - destruct He' as [->|?]; done.
  - rewrite Hsh. eapply locks_other; [done..| |]; intros i; by apply holds_idle.
  - unfold grows_before_evicting. destruct (th_pc t'); try done. naive_solver.
  - lia.
  - unfold count. rewrite Hsh. lia.
Qed.

Lemma keep_cursor :
  th_pc t = EvictCursor ->
  inv_after pub (with_cursor (wrapping_add (eng_eviction_cursor e) 1) e) stop
    (at_pc t (EvictScan (eng_eviction_cursor e) 0)).
Proof.
  intros Hpc. pose proof (mi_cursor _ _ _ _ Hinv) as [? Hc]. pose proof (mi_room _ _ _ _ Hinv) as [_ HC].
  cbn [mc_engine mc_threads] in *. pose proof (count_nonneg e). pose proof this_rounds as Hr.
  assert (1 + 2 * zsum (call_writes <$> todo t) <= t_rounds t) by (unfold t_rounds; by rewrite Hpc).
  pose proof (call_writes_nonneg (todo t)).
  assert (Hw : wrapping_add (eng_eviction_cursor e) 1 = eng_eviction_cursor e + 1) by (apply wrap64_small; lia).
  apply keep_outside; cbn [with_cursor eng_eviction_cursor eng_used_bytes]; rewrite ?Hw; try done; try congruence; try lia.
  - right. by apply settled_cursor.
  - apply thread_ok_at; [apply this_ok|].
    pose proof (thread_pc _ _ _ _ this_ok Hpc ltac:(done)). split_and!; try done; lia.
  - unfold t_evicting. by rewrite Hpc.
  - unfold t_bytes. by rewrite todo_at, todo_busy, Hpc by congruence.
  - unfold t_rounds. rewrite todo_at, todo_busy, Hpc by congruence. cbn. lia.
Qed.

Lemma keep_sub size :
  th_pc t = EvictSub size ->
  inv_after pub (with_used (wrapping_sub (eng_used_bytes e) size) e) stop (at_pc t EvictLoad).
Proof.
  intros Hpc. pose proof used_range. pose proof (mi_used _ _ _ _ Hinv) as Hu. cbn [mc_engine mc_threads] in Hu.
  pose proof this_evicting as Hev. pose proof published_nonneg. unfold t_evicting at 1 in Hev. rewrite Hpc in Hev. cbn in Hev.
  pose proof (thread_pc _ _ _ _ this_ok Hpc ltac:(done)) as [Hset Hsize].
  assert (Hw : wrapping_sub (eng_used_bytes e) size = eng_used_bytes e - size) by (apply wrap64_small; lia).
  pose proof (mi_cursor _ _ _ _ Hinv) as [? _]. cbn [mc_engine] in *.
  apply keep_outside; cbn [with_used eng_eviction_cursor eng_used_bytes]; rewrite ?Hw; try done; try congruence.
  - by left.
  - by apply thread_ok_at; [apply this_ok|].
  - unfold t_evicting. rewrite Hpc. cbn. lia.
  - unfold t_bytes. rewrite todo_at, todo_busy, Hpc by congruence. cbn. lia.
  - unfold t_rounds. by rewrite todo_at, todo_busy, Hpc by congruence.
Qed.

Lemma keep_reply r : th_pc t = Reply r -> inv_after pub e stop (finish t r).
Proof.
  intros Hpc. pose proof (mi_cursor _ _ _ _ Hinv) as [? _]. cbn [mc_engine] in *.
  apply keep_outside; try done; try congruence.
  - by left.
  - apply thread_ok_finish; [apply this_ok|congruence].
  - unfold t_evicting. by rewrite Hpc.
  - unfold t_bytes, todo. rewrite Hpc. done.
  - unfold t_rounds, todo. rewrite Hpc. done.
Qed.

Lemma keep_quiet stop' c' : quiet ts e stop t (th_pc t) stop' c' -> inv_after pub e stop' (at_pc t c').
Proof.
  intros Hq. pose proof (mi_cursor _ _ _ _ Hinv) as [? _]. cbn [mc_engine] in *.
  assert (Hc' : c' ≠ Idle) by by destruct Hq.
  apply keep_outside; try done.
  - by left.
  - by destruct Hq.
  - by destruct Hq.
  - apply thread_ok_at; [apply this_ok|].
    pose proof (thread_pc _ _ _ _ this_ok eq_refl) as Hpc. revert Hpc.
    destruct Hq as [now rest Hcs|d clock rest Hcs|rest Hcs| | | | | | | | |]; intros Hpc; try rewrite Hcs;
      simpl in *; eauto with lia; specialize (Hpc ltac:(done)); unfold is_set in Hpc; naive_solver.
  - unfold t_evicting. by destruct Hq.
  - unfold t_bytes. rewrite todo_at by done. unfold todo.
    destruct Hq as [now rest Hcs|d clock rest Hcs|rest Hcs| | | | | | | | |]; try rewrite Hcs; csimpl; lia.
  - unfold t_rounds. rewrite todo_at by done. unfold todo.
    destruct Hq as [now rest Hcs|d clock rest Hcs|rest Hcs| | | | | | | | |]; try rewrite Hcs; csimpl; lia.
Qed.

(** Together. *)
Lemma move_keeps e' stop' t' ev :
  move ts e stop t e' stop' t' ev -> exists pub', inv_after pub' e' stop' t'.
Proof.
  intros Hm. destruct Hm as [o k s s' r ops rest|now j n round s s' ops|start off s|start off s s' en es|
    i d ops next Hpc|i next| |size|stop' c'|r].
  - exists pub. by eapply keep_op.
  - exists pub. by eapply keep_sweep.
  - exists pub. by eapply keep_pass.
  - eexists. by eapply keep_evict.
  - destruct (keep_count _ _ _ _ Hpc) as (x & _ & Hinv'). by eexists.
  - exists pub. by eapply keep_unlock.
  - exists pub. by apply keep_cursor.
  - exists pub. by eapply keep_sub.
  - exists pub. by apply keep_quiet.
  - exists pub. by eapply keep_reply.
Qed.

End keep.

(** ** Executions *)

Section executions.
Context `{EngineEnv} (p : profile).

(** Configuration a step leaves alone. *)
Definition same_shape (e e' : MemoryEngine) : Prop :=
  eng_shard_mask e' = eng_shard_mask e /\ eng_max_bytes e' = eng_max_bytes e /\
  length (eng_shards e') = length (eng_shards e).

Lemma move_shape ts e stop t e' stop' t' ev : move ts e stop t e' stop' t' ev -> same_shape e e'.
Proof. destruct 1; split_and!; try done; apply length_insert. Qed.

(** What the threads of a machine whose invariant holds do. *)
Lemma machine_step_move B C pub m i m' ev :
  machine_inv B C pub m -> machine_step p i m = Some (m', ev) ->
  exists t t' pub', mc_threads m !! i = Some t /\ mc_threads m' = <[i := t']> (mc_threads m) /\
    move (mc_threads m) (mc_engine m) (mc_stop m) t (mc_engine m') (mc_stop m') t' ev /\
    machine_inv B C pub' m'.
Proof.
  intros Hinv Hstep. destruct m as [e stop ts]. unfold machine_step in Hstep. cbn [mc_threads] in Hstep.
  destruct (ts !! i) as [t|] eqn:Hi; [|done]. cbn in Hstep.
  destruct (thread_step p _ t) as [[[[e' stop'] t'] ev']|] eqn:Ht; [|done]. cbn in Hstep. injection Hstep as <- <-.
  assert (Hmove : move ts e stop t e' stop' t' ev').
  { eapply step_move; [exact (mi_engine _ _ _ _ Hinv)|exact (proj2 (mi_room _ _ _ _ Hinv))| |done].
    by eapply this_ok. }
  destruct (move_keeps _ _ _ _ _ _ _ _ Hinv Hi _ _ _ _ Hmove) as [pub' Hinv']. eauto 10.
Qed.

(** A property of machines and histories that every move keeps holds after every
    schedule. *)
Lemma run_schedule_ind B C (Q : machine -> list (nat * event) -> Prop) :
  (forall m h i t t' pub pub' m' ev, machine_inv B C pub m -> machine_inv B C pub' m' ->
    mc_threads m !! i = Some t -> mc_threads m' = <[i := t']> (mc_threads m) ->
    move (mc_threads m) (mc_engine m) (mc_stop m) t (mc_engine m') (mc_stop m') t' ev ->
    Q m h -> Q m' (h ++ match ev with Some ev => [(i, ev)] | None => [] end)) ->
  forall sched m h pub, machine_inv B C pub m -> Q m h ->
    (exists pub', machine_inv B C pub' (run_schedule p sched m h).1) /\
    Q (run_schedule p sched m h).1 (run_schedule p sched m h).2.
Proof.
  intros Hstep sched. induction sched as [|i sched IH]; intros m h pub Hinv HQ; simpl; [eauto|].
  destruct (machine_step p i m) as [[m' ev]|] eqn:E; [|by eapply IH].
  destruct (machine_step_move _ _ _ _ _ _ _ Hinv E) as (t & t' & pub' & Hi & Hts & Hmove & Hinv').
  pose proof (Hstep _ h _ _ _ _ _ _ _ Hinv Hinv' Hi Hts Hmove HQ) as HQ'.
  destruct ev as [ev|]; [|rewrite app_nil_r in HQ']; by eapply IH.
Qed.

End executions.
