(* ===== verification/ConcurrentBudget.v ===== *)
(** * The byte budget under concurrency

    The machine a program starts from satisfies the invariant.  Whenever the
    content exceeds the byte limit some thread is [busy] evicting: it has still to
    compare the counter with the limit, or has found empty every shard its scan
    has passed.  When no call is in progress the content is within the limit. *)

From S2P Require Import Prelude HkvError Shard ShardInv ShardOps Engine LockedOps KVEngine.
From S2P Require Import EngineInv EngineSpec Eviction EngineTheorems Accounting.
From S2P Require Import Concurrent ConcurrentSteps ConcurrentMoves ConcurrentInv ConcurrentKeep.

Section budget.
Context `{EngineEnv}.
Implicit Types (e : MemoryEngine) (s : ShardInner) (ts : list thread) (t : thread) (pub : list Z).

(** ** The start *)

(** The calls of [clients] are within the ranges of the counters. *)
Definition clients_in_range (clients : list (list engine_op)) : Prop :=
  forallb op_in_range (mjoin clients) = true /\ ops_bytes (mjoin clients) <= USIZE_MAX /\
  ops_writes (mjoin clients) <= 2 ^ 62.

Definition start (b max_bytes : Z) (ts : list thread) : machine := mkMachine (new_engine b max_bytes) false ts.

Lemma system_threads (P : thread -> Prop) clients expirer :
  (forall os, os ∈ clients -> P (worker os)) -> (forall i clock, P (start_expirer i clock)) -> P stopper ->
  Forall P (system clients expirer).
Proof.
  intros Hw He Hs. apply Forall_app. split.
  - apply Forall_fmap, Forall_forall. auto.
  - destruct expirer as [[i clock]|]; [|done]. by repeat constructor.
Qed.

Lemma system_sum (f : thread -> Z) (g : list engine_op -> Z) clients expirer :
  (forall os, f (worker os) = g os) -> g [] = 0 -> (forall os os', g (os ++ os') = g os + g os') ->
  (forall i clock, f (start_expirer i clock) = 0) -> f stopper = 0 ->
  zsum (f <$> system clients expirer) = g (mjoin clients).
Proof.
  intros Hw H0 Happ He Hs. unfold system. rewrite fmap_app, zsum_app.
  assert (zsum (f <$> match expirer with Some (i, clock) => [start_expirer i clock; stopper] | None => [] end) = 0)
    as -> by (destruct expirer as [[i clock]|]; [csimpl; rewrite He; lia|done]).
  induction clients as [|os clients IH]; csimpl; [lia|]. rewrite Happ, Hw. lia.
Qed.

Lemma worker_calls (f : call -> Z) (g : engine_op -> Z) os :
  (forall o, f (CallOp o) = g o) -> zsum (f <$> (CallOp <$> os)) = zsum (g <$> os).
Proof. intros Hf. induction os as [|o os IH]; csimpl; [done|]. by rewrite Hf, IH. Qed.

Lemma system_bytes clients expirer : zsum (t_bytes <$> system clients expirer) = ops_bytes (mjoin clients).
Proof.
  apply (system_sum t_bytes ops_bytes); try done.
  - intros os. unfold t_bytes. cbn [worker todo th_pc th_calls pending]. by rewrite (worker_calls _ op_bytes).
  - intros os os'. unfold ops_bytes. by rewrite fmap_app, zsum_app.
Qed.

Lemma system_idle clients expirer : Forall (fun t => th_pc t = Idle) (system clients expirer).
Proof. by apply system_threads. Qed.

Lemma idle_sum (f : thread -> Z) ts :
  Forall (fun t => th_pc t = Idle) ts -> (forall t, th_pc t = Idle -> f t = 0) -> zsum (f <$> ts) = 0.
Proof. intros Hidle Hf. induction Hidle as [|t ts Ht _ IH]; csimpl; [done|]. by rewrite Hf, IH. Qed.

Lemma new_engine_length b max : 0 <= b <= 62 -> 0 < Z.of_nat (length (eng_shards (new_engine b max))) <= 2 ^ 62.
Proof.
  intros Hb. unfold new_engine. simpl. rewrite length_replicate, Z2Nat.id by (pose proof (pow2_pos b); lia).
  split; [apply pow2_pos; lia|apply Z.pow_le_mono_r; lia].
Qed.

Lemma start_inv b max clients expirer :
  0 <= b <= 62 -> clients_in_range clients ->
  exists pub, machine_inv (ops_bytes (mjoin clients)) (2 * ops_writes (mjoin clients)) pub
    (start b max (system clients expirer)).
Proof.
  intros Hb (Hos & HB & HW). set (ts := system clients expirer). pose proof (new_engine_length b max Hb) as Hn.
  exists (replicate (Z.to_nat (2 ^ b)) 0).
  pose proof (system_idle clients expirer) as Hidle. fold ts in Hidle.
  assert (Hsh : entries <$> eng_shards (new_engine b max) = replicate (Z.to_nat (2 ^ b)) []).
  { unfold new_engine. simpl. by rewrite fmap_replicate. }
  split; cbn [start mc_engine mc_threads new_engine eng_used_bytes eng_eviction_cursor].
  - rewrite settled_fixed; apply new_engine_inv; lia.
  - unfold USIZE_MAX in *. lia.
  - apply system_threads; try by (split; [split; [done|set_solver]|by left]). intros os Hin.
    split; [|by left]. split.
    + apply forallb_forall. intros c (o & -> & Ho)%list_elem_of_In%list_elem_of_fmap.
      rewrite forallb_forall in Hos. apply Hos, list_elem_of_In, list_elem_of_join. eauto.
    + intros d clock Hc. apply list_elem_of_fmap in Hc as (o & Hc & _). done.
  - split; [unfold new_engine; cbn [eng_shards]; by rewrite !length_replicate|..].
    + intros i a c t u Ht _ Hi%holds_pc. destruct Hi as (ops & next & Hi).
      rewrite (Forall_lookup_1 _ _ _ _ Hidle Ht) in Hi. done.
    + intros i s [-> Hi]%lookup_replicate _. apply lookup_replicate. by split.
    + intros a t i ops next Ht Hi. by rewrite (Forall_lookup_1 _ _ _ _ Hidle Ht) in Hi.
  - by apply system_threads.
  - rewrite idle_sum by (done || (intros t Ht; unfold t_evicting; by rewrite Ht)). clear.
    induction (Z.to_nat (2 ^ b)); simpl; lia.
  - unfold ts. by rewrite system_bytes.
  - split; [done|]. unfold ts. rewrite (system_sum t_rounds (fun os => 2 * ops_writes os)); try done.
    + unfold count. cbn [new_engine eng_shards]. rewrite fmap_replicate. clear.
      induction (Z.to_nat (2 ^ b)) as [|m IH]; simpl; [lia|]. exact IH.
    + intros os. unfold t_rounds. cbn [worker todo th_pc th_calls rounds]. by rewrite (worker_calls _ op_writes).
    + intros os os'. unfold ops_writes. rewrite fmap_app, zsum_app. lia.
Qed.

(** ** Eviction in progress *)

Definition empty_at e (i : nat) : Prop := forall s, eng_shards e !! i = Some s -> entries s = [].

Fixpoint busy e (x : pc) : Prop :=
  match x with
  | EvictLoad | EvictCursor | EvictSub _ => True
  | EvictScan start offset => forall j, (j < offset)%nat -> empty_at e (scan_shard e start j)
  | Held _ _ next => busy e next
  | _ => False
  end.

(** Bytes of the content. *)
Definition resident e : Z := zsum (shard_bytes <$> eng_shards e).

Lemma resident_bytes_resident e : resident_bytes (entries <$> eng_shards e) = resident e.
Proof. unfold resident_bytes, resident. by rewrite <- list_fmap_compose. Qed.

Lemma resident_store_bytes e : eng_inv (settled e) -> resident e = store_bytes (store e).
Proof. intros He. rewrite <- resident_bytes_resident. exact (resident_store _ _ He). Qed.

Lemma resident_with_shard i s s' e :
  eng_shards e !! i = Some s -> resident (with_shard i s' e) = resident e - shard_bytes s + shard_bytes s'.
Proof. intros Hs. unfold resident, with_shard. cbn [eng_shards]. by rewrite (zsum_fmap_insert _ _ _ s). Qed.

(** Unlimited, within the limit, or being evicted. *)
Definition budget_ok (m : machine) : Prop :=
  let e := mc_engine m in
  eng_max_bytes e = USIZE_MAX \/ resident e <= eng_max_bytes e \/
  exists a t, mc_threads m !! a = Some t /\ busy e (th_pc t).

(** Every shard is passed by a full scan. *)
Lemma scan_covers e start n i :
  (length (eng_shards e) <= n)%nat -> (i < length (eng_shards e))%nat -> 0 <= start ->
  exists j, (j < n)%nat /\ scan_shard e start j = i.
Proof.
  intros Hn Hi Hst. set (N := Z.of_nat (length (eng_shards e))).
  exists (Z.to_nat ((Z.of_nat i - start) mod N)). pose proof (Z.mod_pos_bound (Z.of_nat i - start) N).
  split; [lia|]. unfold scan_shard. fold N. rewrite Z2Nat.id by lia.
  rewrite Zplus_mod_idemp_r. replace (start + (Z.of_nat i - start)) with (Z.of_nat i) by lia.
  rewrite Z.mod_small by lia. lia.
Qed.

(** The bytes published are at least the bytes held, but for threads that still
    have to compare the counter with the limit. *)
Lemma published_bound B C pub e stop ts :
  machine_inv B C pub (mkMachine e stop ts) -> eng_max_bytes e ≠ USIZE_MAX ->
  (exists a t, ts !! a = Some t /\ busy e (th_pc t) /\ th_pc t ≠ EvictLoad) \/ resident e <= zsum pub.
Proof.
  intros Hinv Hmax. destruct (mi_locks _ _ _ _ Hinv) as [Hlen _ Hfree Hheld]. cbn [mc_engine mc_threads] in *.
  destruct (decide (Exists (fun t => pending (th_pc t) ≠ 0) ts)) as [Hx|Hx].
  - left. apply Exists_exists in Hx as (t & [a Ha]%list_elem_of_lookup & Ht). exists a, t. split; [done|].
    destruct (th_pc t) as [ |i ops next| | | | | | | | | | ] eqn:Hpc; try done. split; [|done].
    pose proof (Forall_lookup_1 _ _ _ _ (mi_grow _ _ _ _ Hinv) Ha) as Hg.
    unfold grows_before_evicting in Hg. rewrite Hpc in Hg. destruct Hg as [Hg|Hg]; [done|subst next].
    cbn [busy mc_engine]. unfold after_set. by rewrite (proj2 (Z.eqb_neq _ _) Hmax).
  - right. unfold resident. apply Forall_Exists_neg in Hx.
    assert (Hle : Forall2 (fun s x => shard_bytes s <= x) (eng_shards e) pub).
    { apply Forall2_same_length_lookup. split; [done|]. intros i s x Hs Hpx.
      destruct (locked ts i) eqn:El.
      - apply locked_true in El as (a & t & Ha & (ops & next & Hpc)%holds_pc).
        destruct (Hheld _ _ _ _ _ Ha Hpc) as (s0 & x0 & Hs0 & Hx0 & Hops). simplify_eq.
        pose proof (Forall_lookup_1 _ _ _ _ Hx Ha) as Hg. cbn beta in Hg. rewrite Hpc in Hg.
        cbn [pending] in Hg. apply dec_stable in Hg. rewrite <- (oo_sum _ _ _ _ Hops).
        pose proof (zsum_growth ops). lia.
      - rewrite (Hfree i s Hs El) in Hpx. by simplify_eq. }
    clear -Hle. induction Hle; csimpl; lia.
Qed.

(** ** Moves keep the budget *)

Lemma busy_mono e e' x :
  length (eng_shards e') = length (eng_shards e) -> (forall i, empty_at e i -> empty_at e' i) -> busy e x -> busy e' x.
Proof.
  intros Hlen Hempty. induction x; simpl; try done. intros Hx j Hj. unfold scan_shard. rewrite Hlen. by apply Hempty, Hx.
Qed.

Lemma section_shrinks e i s s' ops :
  section_ok 0 0 e i s s' ops ->
  resident (with_shard i s' e) <= resident e /\ (forall j, empty_at e j -> empty_at (with_shard i s' e) j).
Proof.
  intros [Hs _ Hops Hcnt]. split.
  - rewrite (resident_with_shard _ _ _ _ Hs). pose proof (zsum_growth ops). pose proof (not_growing _ _ _ Hops).
    pose proof (oo_sum _ _ _ _ Hops). lia.
  - intros j Hj s0 Hs0. cbn [with_shard eng_shards] in Hs0.
    apply list_lookup_insert_Some in Hs0 as [(<- & <- & _)|[_ Hs0]]; [|by apply Hj].
    apply length_zero_iff_nil. unfold shard_count, zlen in Hcnt. rewrite (Hj _ Hs) in Hcnt. simpl in Hcnt. lia.
Qed.

Section moves.
Context (B C : Z) (e : MemoryEngine) (stop : bool) (ts : list thread) (a : nat) (t : thread).
Context (Ha : ts !! a = Some t).

Lemma budget_busy e' stop' t' : busy e' (th_pc t') -> budget_ok (mkMachine e' stop' (<[a := t']> ts)).
Proof.
  intros Hb. right; right. exists a, t'. split; [|done]. apply list_lookup_insert_eq. by eapply lookup_lt_Some.
Qed.

Lemma budget_keep e' stop' t' :
  budget_ok (mkMachine e stop ts) -> same_shape e e' -> resident e' <= resident e ->
  (forall i, empty_at e i -> empty_at e' i) ->
  (busy e (th_pc t) -> busy e' (th_pc t') \/ resident e' <= eng_max_bytes e) ->
  budget_ok (mkMachine e' stop' (<[a := t']> ts)).
Proof.
  intros Hbud (_ & Hmax & Hlen) Hres Hempty Ht. unfold budget_ok in *. cbn [mc_engine mc_threads] in *. rewrite Hmax.
  destruct Hbud as [?|[?|(b & u & Hu & Hb)]]; [by left|right; left; lia|right].
  destruct (decide (a = b)) as [<-|Hne].
  - simplify_eq. destruct (Ht Hb) as [Hb'|?]; [|by left]. right. exists a, t'. split; [|done].
    apply list_lookup_insert_eq. by eapply lookup_lt_Some.
  - right. exists b, u. rewrite list_lookup_insert_ne by done. split; [done|]. by eapply busy_mono.
Qed.

Lemma budget_fits pub stop' t' :
  machine_inv B C pub (mkMachine e stop ts) -> eng_used_bytes e <= eng_max_bytes e -> th_pc t = EvictLoad ->
  budget_ok (mkMachine e stop' (<[a := t']> ts)).
Proof.
  intros Hinv Hfit Hpc. destruct (decide (eng_max_bytes e = USIZE_MAX)) as [?|Hmax]; [by left|right].
  cbn [mc_engine mc_threads].
  destruct (published_bound _ _ _ _ _ _ Hinv Hmax) as [(b & u & Hu & Hb & Hne)|Hres]; [right|left].
  - exists b, u. rewrite list_lookup_insert_ne; [done|]. intros <-. congruence.
  - pose proof (mi_used _ _ _ _ Hinv) as Hused. cbn [mc_engine mc_threads] in Hused.
    assert (0 <= zsum (t_evicting <$> ts)); [|lia]. apply zsum_nonneg, Forall_fmap.
    eapply Forall_impl; [exact (mi_threads _ _ _ _ Hinv)|]. intros v. apply t_evicting_nonneg.
Qed.

Lemma scanned_empty pub start off :
  machine_inv B C pub (mkMachine e stop ts) -> th_pc t = EvictScan start off -> (length (eng_shards e) <= off)%nat ->
  busy e (EvictScan start off) -> resident e = 0.
Proof.
  intros Hinv Hpc Hoff Hb. pose proof (this_ok _ _ _ _ _ _ _ _ Hinv Ha) as Hok.
  pose proof (thread_pc _ _ _ _ Hok Hpc ltac:(done)) as (_ & [Hst _] & _).
  assert (Hall : Forall (fun s => shard_bytes s = 0) (eng_shards e)).
  { apply Forall_lookup. intros i s Hs.
    destruct (scan_covers e start off i Hoff) as (j & Hj & Ej); [by eapply lookup_lt_Some|done|].
    specialize (Hb j Hj). rewrite Ej in Hb. unfold shard_bytes. by rewrite (Hb s Hs). }
  unfold resident. clear -Hall. induction Hall as [|s shs Hs _ IH]; csimpl; lia.
Qed.

Lemma move_budget pub e' stop' t' ev :
  machine_inv B C pub (mkMachine e stop ts) -> 0 <= eng_max_bytes e -> move ts e stop t e' stop' t' ev ->
  budget_ok (mkMachine e stop ts) -> budget_ok (mkMachine e' stop' (<[a := t']> ts)).
Proof.
  intros Hinv Hmax Hm Hbud. pose proof (move_shape _ _ _ _ _ _ _ _ Hm) as Hshape.
  destruct Hm as [o k s s' r ops rest Hpc Hcs Hk _ Hso|now j n round s s' ops Hpc _ Hso|start off s Hpc Hoff _ Hs Hes|
    start off s s' en es|i d ops next Hpc|i next Hpc|Hpc|size|stop' c' Hq|r Hpc].
  - destruct o as [| k0 v now| | | |]; cbn [op_bytes op_writes] in Hso.
    2: { destruct (decide (eng_max_bytes e = USIZE_MAX)) as [?|Hne]; [by left|]. apply budget_busy.
         cbn. unfold after_set. by rewrite (proj2 (Z.eqb_neq _ _) Hne). }
    all: apply section_shrinks in Hso as [? ?]; apply budget_keep; try done; by rewrite Hpc.
  - apply section_shrinks in Hso as [? ?]. apply budget_keep; try done. by rewrite Hpc.
  - apply budget_keep; try done. rewrite Hpc. intros Hb. left. intros j Hj.
    destruct (decide (j = off)) as [->|]; [|apply Hb; lia]. intros s0 Hs0. by simplify_eq.
  - by apply budget_busy.
  - apply budget_keep; try done. rewrite Hpc. intros Hb. left. by eapply (busy_mono e).
  - apply budget_keep; try done. rewrite Hpc. by left.
  - apply budget_busy. intros j Hj. lia.
  - by apply budget_busy.
  - destruct (th_pc t) as [ |? ? ?| | |start off|?|? ? ? ?|?|?| |?| ] eqn:Hpc; inversion Hq;
      try (apply budget_keep; [done..|by rewrite Hpc]).
    + by eapply budget_fits.
    + by apply budget_busy.
    + apply budget_keep; try done. intros Hb. right. rewrite Hpc in Hb.
      rewrite (scanned_empty _ _ _ Hinv Hpc); done.
  - apply budget_keep; try done. by rewrite Hpc.
Qed.

End moves.

(** ** Between calls *)

(** When no call is in progress the counter is the size of the content, which
    is within the limit. *)
Lemma quiescent_exact B C pub m :
  machine_inv B C pub m -> Forall (fun t => th_pc t = Idle) (mc_threads m) ->
  eng_used_bytes (mc_engine m) = store_bytes (store (mc_engine m)).
Proof.
  destruct m as [e stop ts]. cbn [mc_engine mc_threads]. intros Hinv Hidle.
  rewrite <- (resident_store_bytes e (mi_engine _ _ _ _ Hinv)).
  pose proof (mi_used _ _ _ _ Hinv) as Hused. cbn [mc_engine mc_threads] in Hused. rewrite Hused. clear Hused.
  destruct (mi_locks _ _ _ _ Hinv) as [Hlen _ Hfree _]. cbn [mc_engine mc_threads] in *.
  assert (pub = shard_bytes <$> eng_shards e) as ->.
  { apply list_eq. intros i. rewrite list_lookup_fmap. destruct (eng_shards e !! i) as [s|] eqn:Hs.
    - apply Hfree; [done|]. destruct (locked ts i) eqn:El; [|done].
      apply locked_true in El as (a & t & Ht & (ops & next & Hpc)%holds_pc).
      by rewrite (Forall_lookup_1 _ _ _ _ Hidle Ht) in Hpc.
    - apply lookup_ge_None. apply lookup_ge_None in Hs. by rewrite Hlen. }
  assert (zsum (t_evicting <$> ts) = 0); [|unfold resident; lia].
  clear -Hidle. induction Hidle as [|t ts Ht _ IH]; csimpl; [done|]. unfold t_evicting at 1. by rewrite Ht, IH.
Qed.

Lemma quiescent_within B C pub m :
  machine_inv B C pub m -> budget_ok m -> Forall (fun t => th_pc t = Idle) (mc_threads m) ->
  eng_used_bytes (mc_engine m) <= eng_max_bytes (mc_engine m).
Proof.
  intros Hinv Hbud Hidle. pose proof (quiescent_exact _ _ _ _ Hinv Hidle) as Hu. destruct m as [e stop ts].
  cbn [mc_engine mc_threads] in *. destruct Hbud as [Hm|[Hm|(b & t & Ht & Hb)]]; cbn [mc_engine mc_threads] in *.
  - rewrite Hm. pose proof (used_range _ _ _ _ _ _ Hinv). lia.
  - rewrite Hu, <- (resident_store_bytes e (mi_engine _ _ _ _ Hinv)). done.
  - by rewrite (Forall_lookup_1 _ _ _ _ Hidle Ht) in Hb.
Qed.

End budget.
