(* ===== verification/ConcurrentHistory.v ===== *)
(** * Histories

    The events of an execution, in the order in which they took effect, are an
    execution of the sequential store: each operation gives the reply the store
    gives, a sweep removes the expired keys of its shard, an eviction removes one
    key.  What a thread's calls returned is spelled by its events in program
    order. *)

From S2P Require Import Prelude HkvError Shard ShardInv ShardOps Engine LockedOps KVEngine.
From S2P Require Import EngineInv EngineSpec Eviction EngineTheorems Accounting.
From S2P Require Import Concurrent ConcurrentSteps ConcurrentMoves ConcurrentInv ConcurrentKeep ConcurrentBudget.

Section history.
Context `{EngineEnv} (p : profile).
Implicit Types (e : MemoryEngine) (ts : list thread) (t : thread) (h : list (nat * event)) (evs : list event).

(** ** The sequential store *)

(** What an event does to the content [m] of an engine with the shards of [e]. *)
Inductive abs_event e : event -> kv -> kv -> Prop :=
| ae_op o r m m' : abs_op o m = (r, m') -> abs_event e (EvOp o r) m m'
| ae_sweep j now m :
    abs_event e (EvSweep j now (Z.of_nat (size m) - Z.of_nat (size (abs_sweep e j now m)))) m (abs_sweep e j now m)
| ae_evict k x m : m !! k = Some x -> 
    abs_event e (EvEvict (shard_index e k) (zlen k + zlen x.1)) m (base.delete k m).

Inductive abs_history e : kv -> list (nat * event) -> kv -> Prop :=
| ah_nil m : abs_history e m [] m
| ah_snoc m m' m'' h a ev :
    abs_history e m h m' -> abs_event e ev m' m'' -> abs_history e m (h ++ [(a, ev)]) m''.

Definition emitted (ev : option event) : list event := match ev with Some ev => [ev] | None => [] end.

(** The events of thread [a]. *)
Definition events_of (a : nat) h : list event := (filter (fun x => x.1 = a) h).*2.

(** ** What a thread's events spell *)

(** The sweeps of [purge_expired], which removed [counts] entries, shard by
    shard. *)
Definition sweeps (now : Z) (counts : list Z) : list event := imap (fun j n => EvSweep j now n) counts.

(** The evictions of a [set]: the shards, and the sizes of the entries. *)
Definition evictions (evicted : list (nat * Z)) : list event := (fun x => EvEvict x.1 x.2) <$> evicted.

(** A call on an engine with [n] shards that returned [r], as events. *)
Inductive spells_call (n : nat) : engine_op -> engine_reply -> list event -> Prop :=
| sc_op o r k : op_key o = Some k -> spells_call n o r [EvOp o r]
| sc_set k v now r evicted : spells_call n (OpSet k v now) r (EvOp (OpSet k v now) r :: (evictions evicted))
| sc_purge now counts : length counts = n ->
    spells_call n (OpPurge now) (ReplyCount (zsum counts)) (sweeps now counts).

Inductive spells (n : nat) : list (engine_op * engine_reply) -> list event -> Prop :=
| sp_nil : spells n [] []
| sp_snoc done evs o r evs' :
    spells n done evs -> spells_call n o r evs' -> spells n (done ++ [(o, r)]) (evs ++ evs').

(** The events of the current call [c] so far, at [x]. *)
Fixpoint spells_now (n : nat) (c : option call) (x : pc) evs : Prop :=
  match x with
  | Idle => evs = []
  | Held _ _ next => spells_now n c next evs
  | EvictLoad | EvictCursor | EvictScan _ _ | EvictSub _ =>
      exists k v now evicted, c = Some (CallOp (OpSet k v now)) /\
        evs = EvOp (OpSet k v now) set_done :: (evictions evicted)
  | Purging now j removed None => exists counts, length counts = j /\ removed = zsum counts /\ evs = sweeps now counts
  | Reply (Some r) => exists o, c = Some (CallOp o) /\ spells_call n o r evs
  | _ => False
  end.

(** A client that was given the calls [os]: those that returned come first and
    are spelled by its events; the events left over are of the current call. *)
Definition client_ok (n : nat) (os : list engine_op) t evs : Prop :=
  exists rest evs1 evs2, os = (th_done t).*1 ++ rest /\ th_calls t = CallOp <$> rest /\
    evs = evs1 ++ evs2 /\ spells n (th_done t) evs1 /\ spells_now n (head (th_calls t)) (th_pc t) evs2.

(** ** Lemmas *)

Lemma shard_index_shape e e' k : same_shape e e' -> shard_index e' k = shard_index e k.
Proof. intros [Hm _]. unfold shard_index. by rewrite Hm. Qed.

Lemma abs_sweep_shape e e' j now m : same_shape e e' -> abs_sweep e' j now m = abs_sweep e j now m.
Proof.
  intros Hs. unfold abs_sweep. apply map_filter_ext. intros k x _. by rewrite (shard_index_shape _ _ _ Hs).
Qed.

(** Every move is its event on the content. *)
Lemma move_abs ts e stop t e' stop' t' ev :
  move ts e stop t e' stop' t' ev ->
  match ev with Some ev => abs_event e ev (store e) (store e') | None => store e' = store e end.
Proof.
  intros Hm. destruct Hm as [o k s s' r ops rest Hpc Hcs Hk Hfree Hso Habs|now j n round s s' ops Hpc Hfree Hso Hst removed|start off s|
    start off s s' en es i Hpc Hfree Hs Hes Hes' He' Hst Hen Hi|i d ops next Hpc|i next Hpc| |size|stop' c' Hq|r Hpc]; try done.
  - by constructor.
  - subst removed. rewrite Hst. apply ae_sweep.
  - rewrite Hst. rewrite <- Hi. exact (ae_evict _ _ _ _ Hen).
Qed.

Lemma events_of_snoc a h b ev :
  events_of a (h ++ [(b, ev)]) = events_of a h ++ if decide (b = a) then [ev] else [].
Proof.
  unfold events_of. rewrite filter_app, fmap_app. f_equal.
  rewrite filter_cons, filter_nil. simpl. by destruct (decide (b = a)).
Qed.

Lemma sweeps_snoc now counts n : sweeps now (counts ++ [n]) = sweeps now counts ++ [EvSweep (length counts) now n].
Proof. unfold sweeps. rewrite imap_app. simpl. by rewrite Nat.add_0_r. Qed.

(** A move within the current call. *)
Lemma client_at n os t evs c ev :
  client_ok n os t evs ->
  (forall evs2, spells_now n (head (th_calls t)) (th_pc t) evs2 ->
    spells_now n (head (th_calls t)) c (evs2 ++ emitted ev)) ->
  client_ok n os (at_pc t c) (evs ++ emitted ev).
Proof.
  intros (rest & evs1 & evs2 & Hos & Hcs & -> & Hdone & Hnow) Hc.
  exists rest, evs1, (evs2 ++ emitted ev).
  rewrite <- app_assoc. split_and!; try done. by apply Hc.
Qed.

Lemma client_finish n os t evs r :
  client_ok n os t evs -> th_pc t = Reply r -> client_ok n os (finish t r) evs.
Proof.
  intros (rest & evs1 & evs2 & Hos & Hcs & -> & Hdone & Hnow) Hpc. rewrite Hpc in Hnow.
  destruct r as [r|]; [|done]. destruct Hnow as (o & Ho & Hcall).
  destruct rest as [|o' rest]; rewrite Hcs in Ho; simplify_eq/=.
  exists rest, (evs1 ++ evs2), []. unfold finish. rewrite Hcs. cbn.
  split_and!; [by rewrite fmap_app, <- app_assoc|done|by rewrite app_nil_r|by constructor|done].
Qed.

(** Where an operation goes after its section. *)
Lemma after_op_spells n e o k r m m' rest :
  op_key o = Some k -> abs_op o m = (r, m') ->
  spells_now n (head (CallOp o :: rest)) (after_op e o r) [EvOp o r].
Proof.
  intros Hk Habs. destruct o as [| k0 v now| | | |]; simplify_eq/=; try (eexists; split; [done|by econstructor]).
  unfold after_set. destruct (_ =? _); simpl; [eexists; split; [done|by econstructor]|]. by exists k, v, now, [].
Qed.

(** The steps without an event. *)
Lemma quiet_spells C n os ts e stop t evs evs2 stop' c' :
  n = length (eng_shards e) -> pc_ok C n (head (th_calls t)) (th_pc t) \/ th_pc t = Idle ->
  client_ok n os t evs -> quiet ts e stop t (th_pc t) stop' c' ->
  spells_now n (head (th_calls t)) (th_pc t) evs2 -> spells_now n (head (th_calls t)) c' evs2.
Proof.
  intros Hn Hpc (rest & _ & _ & _ & Hcs & _) Hq. revert Hpc.
  destruct Hq as [now rest' Hcs'|d clock rest' Hcs'|rest' Hcs'| | | |now j n' Hj| | | | | ]; intros Hpc; try done; simpl.
  - intros ->. by exists [].
  - rewrite Hcs in Hcs'. destruct rest; naive_solver.
  - rewrite Hcs in Hcs'. destruct rest; naive_solver.
  - intros (k & v & now & evicted & -> & ->). eexists. split; [done|]. constructor.
  - intros (k & v & now & evicted & -> & ->). eexists. split; [done|]. constructor.
  - destruct Hpc as [[-> Hle]|?]; [|done]. intros (counts & Hlen & -> & ->). eexists. split; [done|].
    constructor. lia.
Qed.

(** The events of a client's move. *)
Lemma move_client C os ts e stop t e' stop' t' ev evs :
  thread_ok C (length (eng_shards e)) t -> move ts e stop t e' stop' t' ev ->
  client_ok (length (eng_shards e)) os t evs ->
  client_ok (length (eng_shards e)) os t' (evs ++ emitted ev).
Proof.
  intros Hok Hm Hcl. pose proof (to_pc _ _ _ Hok) as Hpcok. set (n := length (eng_shards e)) in *.
  destruct Hm as [o k s s' r ops rest Hpc Hcs Hk Hfree Hso Habs|now j m round s s' ops Hpc Hfree Hso Hst removed|start off s Hpc|
    start off s s' en es i Hpc|i d ops next Hpc|i next Hpc|Hpc|size Hpc|stop' c' Hq|r Hpc];
    [apply (client_at _ _ _ _ _ (Some _) Hcl)|apply (client_at _ _ _ _ _ (Some _) Hcl)|apply (client_at _ _ _ _ _ None Hcl)|
     apply (client_at _ _ _ _ _ (Some _) Hcl)|apply (client_at _ _ _ _ _ None Hcl)..|
     rewrite app_nil_r; by apply client_finish]; cbn [emitted];
    try (rewrite Hpc; intros evs2; rewrite ?app_nil_r; exact id).
  - rewrite Hpc, Hcs. intros evs2 ->. by apply after_op_spells with k (store e) (store (with_shard (shard_index e k) s' e)).
  - rewrite Hpc. cbn [spells_now]. destruct round as [r|]; [done|]. intros evs2 (counts & <- & -> & ->).
    exists (counts ++ [removed]). rewrite length_app, zsum_snoc, sweeps_snoc. simpl. split_and!; [lia|done|done].
  - rewrite Hpc. intros evs2 (k & v & now & evicted & Hc & ->). exists k, v, now, (evicted ++ [(i, entry_bytes en)]).
    unfold evictions. by rewrite fmap_app.
  - intros evs2. rewrite app_nil_r. eapply quiet_spells; [done| |exact Hcl|exact Hq].
    destruct Hpcok; [by right|by left].
Qed.

(** ** Whole executions *)

Lemma abs_event_shape e e' ev m m' : same_shape e e' -> abs_event e' ev m m' -> abs_event e ev m m'.
Proof.
  intros Hs [o r m1 m2 Ho|j now m1|k x m1 Hk].
  - by constructor.
  - rewrite (abs_sweep_shape _ _ _ _ _ Hs). constructor.
  - rewrite (shard_index_shape _ _ _ Hs). by econstructor.
Qed.

Lemma same_shape_trans e1 e2 e3 : same_shape e1 e2 -> same_shape e2 e3 -> same_shape e1 e3.
Proof. intros (? & ? & ?) (? & ? & ?). split_and!; congruence. Qed.

(** The whole history. *)
Lemma run_history B C pub sched m :
  machine_inv B C pub m ->
  let e := mc_engine m in
  let '(m', h) := run_schedule p sched m [] in
  same_shape e (mc_engine m') /\ abs_history e (store e) h (store (mc_engine m')).
Proof.
  intros Hinv e. destruct (run_schedule p sched m []) as [m' h] eqn:E.
  enough (same_shape e (mc_engine (m', h).1) /\ abs_history e (store e) (m', h).2 (store (mc_engine (m', h).1))) by done.
  rewrite <- E. eapply (run_schedule_ind p B C (fun m' h => same_shape e (mc_engine m') /\
    abs_history e (store e) h (store (mc_engine m')))); [|exact Hinv|split; [done|constructor]].
  intros m1 h1 i t t' pub1 pub2 m2 ev _ _ _ _ Hmove [Hs Hh].
  split; [eapply same_shape_trans; [done|by eapply move_shape]|].
  apply move_abs in Hmove. destruct ev as [ev|].
  - econstructor; [done|]. by eapply abs_event_shape.
  - by rewrite app_nil_r, Hmove.
Qed.

(** One client's calls. *)
Lemma run_client B C pub sched m a os :
  machine_inv B C pub m -> mc_threads m !! a = Some (worker os) ->
  let '(m', h) := run_schedule p sched m [] in
  exists t, mc_threads m' !! a = Some t /\ client_ok (length (eng_shards (mc_engine m))) os t (events_of a h).
Proof.
  intros Hinv Ha. set (n := length (eng_shards (mc_engine m))).
  destruct (run_schedule p sched m []) as [m' h] eqn:E.
  enough (length (eng_shards (mc_engine (m', h).1)) = n /\ exists t, mc_threads (m', h).1 !! a = Some t /\
    client_ok n os t (events_of a (m', h).2)) as [_ ?] by done.
  rewrite <- E. eapply (run_schedule_ind p B C (fun m' h => length (eng_shards (mc_engine m')) = n /\
    exists t, mc_threads m' !! a = Some t /\ client_ok n os t (events_of a h))); [|exact Hinv|].
  - clearbody n. intros m1 h1 i t t' pub1 pub2 m2 ev Hinv1 _ Hi Hts Hmove (Hn & u & Hu & Hc).
    split; [by rewrite <- Hn; apply (move_shape _ _ _ _ _ _ _ _ Hmove)|].
    pose proof (Forall_lookup_1 _ _ _ _ (mi_threads _ _ _ _ Hinv1) Hi) as Hok. rewrite Hts.
    assert (Hev : events_of a (h1 ++ match ev with Some ev => [(i, ev)] | None => [] end) =
      events_of a h1 ++ if decide (i = a) then emitted ev else []).
    { destruct ev as [ev|]; [apply events_of_snoc|]. rewrite app_nil_r.
      by destruct (decide (i = a)); rewrite app_nil_r. }
    rewrite Hev. destruct (decide (i = a)) as [->|Hne].
    + exists t'. rewrite list_lookup_insert_eq by by eapply lookup_lt_Some. split; [done|].
      rewrite Hi in Hu. injection Hu as <-. rewrite <- Hn in *. by eapply move_client.
    + exists u. rewrite list_lookup_insert_ne, app_nil_r by done. done.
  - split; [done|]. exists (worker os). split; [done|]. exists os, [], []. by repeat constructor.
Qed.

(** Without a byte limit nothing is evicted. *)
Fixpoint calm (x : pc) : Prop :=
  match x with
  | EvictLoad | EvictCursor | EvictScan _ _ | EvictSub _ => False
  | Held _ _ next => calm next
  | _ => True
  end.

Definition is_evict (ev : event) : bool := match ev with EvEvict _ _ => true | _ => false end.

Lemma move_calm ts e stop t e' stop' t' ev :
  move ts e stop t e' stop' t' ev -> eng_max_bytes e = USIZE_MAX -> calm (th_pc t) ->
  calm (th_pc t') /\ Forall (fun ev => is_evict ev = false) (emitted ev).
Proof.
  intros Hm Hmax Hcalm.
  destruct Hm as [o k s s' r ops rest Hpc|now j n round s s' ops Hpc|start off s Hpc|
    start off s s' en es i Hpc|i d ops next Hpc|i next Hpc|Hpc|size Hpc|stop' c' Hq|r Hpc]; try (rewrite Hpc in Hcalm);
    simpl in *; try done; try by (split; [|repeat constructor]).
  - split; [|by repeat constructor]. destruct o; try done. simpl. unfold after_set. by rewrite Hmax.
  - split; [|done]. revert Hcalm. by destruct Hq.
Qed.

Lemma run_calm B C pub sched m :
  machine_inv B C pub m -> eng_max_bytes (mc_engine m) = USIZE_MAX -> Forall (fun t => calm (th_pc t)) (mc_threads m) ->
  Forall (fun x => is_evict x.2 = false) (run_schedule p sched m []).2.
Proof.
  intros Hinv Hmax Hcalm. eapply (run_schedule_ind p B C (fun m h => eng_max_bytes (mc_engine m) = USIZE_MAX /\
    Forall (fun t => calm (th_pc t)) (mc_threads m) /\ Forall (fun x => is_evict x.2 = false) h)); [|exact Hinv|done].
  intros m1 h1 i t t' pub1 pub2 m2 ev _ _ Hi Hts Hmove (Hmax1 & Hcalm1 & Hh).
  pose proof (Forall_lookup_1 _ _ _ _ Hcalm1 Hi) as Ht.
  destruct (move_calm _ _ _ _ _ _ _ _ Hmove Hmax1 Ht) as [Ht' Hev].
  destruct (move_shape _ _ _ _ _ _ _ _ Hmove) as (_ & Hmax2 & _). rewrite Hts, Hmax2. split_and!; [done|by apply Forall_insert|].
  apply Forall_app. split; [done|]. destruct ev; [|done]. constructor; [|done]. by inversion Hev.
Qed.

End history.
