(* ===== verification/ConcurrentEvict.v ===== *)
(** * How much concurrent eviction removes

    A thread that has seen the limit exceeded evicts one entry before it looks again,
    whatever other threads have evicted in between.  The bytes evicted altogether are
    those by which the writes exceed the limit, and at most one entry per writer
    more. *)

From S2P Require Import Prelude HkvError Shard ShardInv ShardOps Engine LockedOps KVEngine.
From S2P Require Import EngineInv EngineSpec Eviction EngineTheorems Accounting.
From S2P Require Import Concurrent ConcurrentSteps ConcurrentMoves ConcurrentInv ConcurrentKeep ConcurrentBudget ConcurrentHistory.

(** ** Quantities *)

(** The bytes of the entries that were evicted. *)
Definition event_evicts (ev : event) : Z := match ev with EvEvict _ size => size | _ => 0 end.
Definition evicted_bytes (h : list (nat * event)) : Z := zsum ((fun x => event_evicts x.2) <$> h).

(** The thread has seen the limit exceeded, and has not subtracted what it evicts. *)
Fixpoint committed (x : pc) : bool :=
  match x with
  | EvictCursor | EvictScan _ _ | EvictSub _ => true
  | Held _ _ next => committed next
  | _ => false
  end.

(** Threads that have a call on the engine before them. *)
Definition is_call_op (c : call) : bool := match c with CallOp _ => true | _ => false end.
Definition calling (t : thread) : Z := if existsb is_call_op (th_calls t) then 1 else 0.

(** Entries of at most [S] bytes, in the calls and in the content. *)
Definition call_within (S : Z) (c : call) : Prop := call_bytes c <= S.
Definition store_within (S : Z) (m : kv) : Prop := map_Forall (fun k x => zlen k + zlen x.1 <= S) m.

Lemma committed_set C n c x : pc_ok C n c x -> committed x = true -> is_set c.
Proof.
  induction x as [|i ops next IH| | | | | | | | | |]; cbn; try done; try (by intros [? _]).
  destruct next; try (by intros [_ ?]); intros [_ Hok]; by apply IH.
Qed.

Lemma evicting_committed C n c x : pc_ok C n c x -> committed x = false -> evicting x = 0.
Proof.
  induction x as [|i ops next IH| | | | | | | | | |]; cbn; try done.
  destruct next; try (by intros [_ ?]); intros [_ Hok]; by apply IH.
Qed.

Lemma store_within_op S o m : op_bytes o <= S -> store_within S m -> store_within S (abs_op o m).2.
Proof.
  assert (Hset : forall now k, store_within S m -> store_within S (settle now k m)).
  { intros now k Hm. unfold settle. destruct (live now k m); [done|]. by apply map_Forall_delete. }
  intros Ho Hm. destruct o as [k now|k v now|k now|k d now|k now|now]; cbn; auto.
  - by apply map_Forall_insert_2.
  - by apply map_Forall_delete.
  - unfold abs_expire. destruct (live now k m) as [[v dl]|] eqn:Hl; [|by apply map_Forall_delete].
    apply map_Forall_insert_2; [|done]. apply live_Some in Hl as [Hl _]. exact (Hm _ _ Hl).
  - by apply map_Forall_filter_2 || (intros k x Hk; apply map_lookup_filter_Some in Hk as [Hk _]; by apply Hm in Hk).
Qed.

Section evict.
Context `{EngineEnv} (p : profile) (B C M S : Z) (T : nat) (HS : 0 <= S).
Implicit Types (e : MemoryEngine) (ts : list thread) (t : thread) (h : list (nat * event)).

Definition weight t : Z := if committed (th_pc t) then S else 0.

(** ** Moves *)

(** What was evicted and subtracted, added to the counter and to what the calls may
    still add, does not grow. *)
Lemma move_account pub e stop ts a t e' stop' t' ev :
  machine_inv B C pub (mkMachine e stop ts) -> ts !! a = Some t -> move ts e stop t e' stop' t' ev ->
  zsum (event_evicts <$> emitted ev) - (t_evicting t' - t_evicting t) + eng_used_bytes e' + t_bytes t' <=
    eng_used_bytes e + t_bytes t.
Proof.
  intros Hinv Ha Hm. set (B' := eng_used_bytes e + zsum (t_bytes <$> ts)).
  assert (Hinv' : machine_inv B' C pub (mkMachine e stop ts)).
  { destruct Hinv as [H1 [H2 H3] H4 H5 H6 H7 H8 H9]. cbn [mc_engine mc_threads] in *. split; try done. split; [|done].
    unfold B'. cbn [mc_engine mc_threads]. lia. }
  destruct (move_keeps _ _ _ _ _ _ _ _ Hinv' Ha _ _ _ _ Hm) as [pub' Hafter].
  pose proof (mi_bytes _ _ _ _ Hafter) as Hb. cbn [mc_engine mc_threads] in Hb. unfold B' in Hb.
  rewrite (zsum_fmap_insert _ _ _ t) in Hb by done.
  pose proof (Forall_lookup_1 _ _ _ _ (mi_threads _ _ _ _ Hinv) Ha) as Hok.
  destruct Hm as [o k s s' r ops rest Hpc|now j n round s s' ops Hpc|start off s Hpc|
    start off s s' en es i Hpc|i d ops next Hpc|i next Hpc|Hpc|size Hpc|stop' c' Hq|r Hpc];
    unfold t_evicting in *; cbn [emitted fmap list_fmap event_evicts foldr at_pc finish th_pc evicting];
    try rewrite Hpc; cbn [evicting]; try lia.
  - rewrite evicting_after. lia.
  - assert (Hsub : wrapping_sub (eng_used_bytes e) size = eng_used_bytes e - size).
    { pose proof (used_range _ _ _ _ _ _ Hinv) as [? ?]. pose proof (this_evicting _ _ _ _ _ _ _ _ Hinv Ha) as Hev.
      pose proof (mi_used _ _ _ _ Hinv) as Hu. pose proof (published_nonneg _ _ _ _ _ _ Hinv).
      unfold t_evicting in Hev at 1. rewrite Hpc in Hev. cbn in Hev, Hu.
      pose proof (thread_pc _ _ _ _ Hok Hpc ltac:(done)) as [_ Hsz]. apply wrap64_small. lia. }
    cbn [with_used eng_used_bytes]. rewrite Hsub. unfold t_bytes. rewrite todo_at, todo_busy, Hpc by congruence. cbn. lia.
  - destruct Hq; cbn; lia.
Qed.

(** A thread commits itself only when it sees the limit exceeded. *)
Lemma move_commits ts e stop t e' stop' t' ev :
  move ts e stop t e' stop' t' ev -> committed (th_pc t') = true ->
  committed (th_pc t) = true \/
  (eng_max_bytes e < eng_used_bytes e /\ e' = e /\ ev = None /\ t_evicting t' = 0 /\ t_evicting t = 0).
Proof.
  intros Hm. destruct Hm as [o k s s' r ops rest Hpc|now j n round s s' ops Hpc|start off s Hpc|
    start off s s' en es i Hpc|i d ops next Hpc|i next Hpc|Hpc|size Hpc|stop' c' Hq|r Hpc];
    unfold t_evicting; cbn [at_pc finish th_pc committed]; try (rewrite Hpc; cbn; by auto).
  - destruct o; try done. unfold after_op, after_set. by destruct (_ =? _).
  - revert Hq. generalize (th_pc t). intros x Hq. destruct Hq; try done; cbn; auto 10.
Qed.

(** Otherwise what is evicted and subtracted was covered by the weight of the thread. *)
Lemma move_weight ts e stop t e' stop' t' ev :
  move ts e stop t e' stop' t' ev -> (committed (th_pc t') = true -> committed (th_pc t) = true) -> t_evicting t <= S ->
  zsum (event_evicts <$> emitted ev) - (t_evicting t' - t_evicting t) + weight t' <= weight t.
Proof.
  intros Hm Hc Hle.
  assert (Hw : weight t' <= weight t).
  { unfold weight. destruct (committed (th_pc t')); [by rewrite Hc|]. destruct (committed (th_pc t)); lia. }
  clear Hc. destruct Hm as [o k s s' r ops rest Hpc|now j n round s s' ops Hpc|start off s Hpc|
    start off s s' en es i Hpc|i d ops next Hpc|i next Hpc|Hpc|size Hpc|stop' c' Hq|r Hpc];
    unfold t_evicting in *; try rewrite Hpc in *; cbn [at_pc finish th_pc evicting emitted fmap list_fmap foldr event_evicts] in *;
    try lia.
  - rewrite evicting_after. lia.
  - unfold weight. rewrite Hpc. cbn. lia.
  - revert Hq. generalize (th_pc t). intros x Hq. destruct Hq; cbn in *; lia.
Qed.

(** What a thread evicts, and where it does. *)
Lemma move_evicts ts e stop t e' stop' t' ev :
  move ts e stop t e' stop' t' ev -> store_within S (store e) -> t_evicting t <= S ->
  t_evicting t' <= S /\ (Forall (fun ev => is_evict ev = false) (emitted ev) \/ committed (th_pc t) = true).
Proof.
  intros Hm Hst Hle. destruct Hm as [o k s s' r ops rest Hpc|now j n round s s' ops Hpc|start off s Hpc|
    start off s s' en es i Hpc Hfree Hs Hes Hes' He' Hst' Hen Hi|i d ops next Hpc|i next Hpc|Hpc|size Hpc|stop' c' Hq|r Hpc];
    unfold t_evicting in *; try rewrite Hpc in *; cbn [at_pc finish th_pc evicting committed emitted] in *;
    try (by (split; [lia|left; by repeat constructor])).
  - rewrite evicting_after. split; [done|left; by repeat constructor].
  - split; [|by right]. exact (Hst _ _ Hen).
  - split; [by destruct Hq|by left].
Qed.

(** The calls before a thread only become fewer. *)
Lemma move_calls ts e stop t e' stop' t' ev :
  move ts e stop t e' stop' t' ev -> th_calls t' = th_calls t \/ th_calls t' = tail (th_calls t).
Proof. destruct 1; cbn; auto. Qed.

Lemma move_within ts e stop t e' stop' t' ev :
  move ts e stop t e' stop' t' ev -> Forall (call_within S) (th_calls t) -> store_within S (store e) ->
  Forall (call_within S) (th_calls t') /\ store_within S (store e').
Proof.
  intros Hm Hc Hst. split.
  - destruct (move_calls _ _ _ _ _ _ _ _ Hm) as [->| ->]; [done|]. by destruct Hc.
  - apply move_abs in Hm as Ha. destruct ev as [ev|]; [|by rewrite Ha].
    inversion Hm as [o k s s' r ops rest Hpc Hcs Hk Hfree Hso Habs| | | | | | | | |]; subst; simplify_eq/=.
    + rewrite Hcs in Hc. apply Forall_cons_1 in Hc as [Hc _].
      pose proof (store_within_op S o (store e) Hc Hst) as Hw. by rewrite Habs in Hw.
    + inversion Ha; subst. intros k x Hk. unfold abs_sweep in Hk. apply map_lookup_filter_Some in Hk as [Hk _]. exact (Hst _ _ Hk).
    + inversion Ha; subst. by apply map_Forall_delete.
Qed.

(** ** The invariant *)

Record evict_inv (m : machine) h : Prop := mkEvictInv {
  vi_max : eng_max_bytes (mc_engine m) = M;
  vi_store : store_within S (store (mc_engine m));
  vi_calls : Forall (fun t => Forall (call_within S) (th_calls t)) (mc_threads m);
  vi_evicting : Forall (fun t => t_evicting t <= S) (mc_threads m);
  vi_callers : zsum (calling <$> mc_threads m) <= Z.of_nat T;
  vi_bytes : evicted_bytes h - zsum (t_evicting <$> mc_threads m) + eng_used_bytes (mc_engine m) +
    zsum (t_bytes <$> mc_threads m) <= B;
  vi_bound : (Forall (fun x => is_evict x.2 = false) h /\ Forall (fun t => committed (th_pc t) = false) (mc_threads m)) \/
    (M < B /\ evicted_bytes h - zsum (t_evicting <$> mc_threads m) + zsum (weight <$> mc_threads m) < B - M + S * Z.of_nat T)
}.

Lemma calling_range t : 0 <= calling t <= 1.
Proof. unfold calling. destruct (existsb _ _); lia. Qed.

Lemma weight_calling n t : thread_ok C n t -> weight t <= S * calling t.
Proof.
  intros [_ Hpc]. unfold weight, calling. destruct (committed (th_pc t)) eqn:Hc; [|destruct (existsb _ _); lia].
  destruct Hpc as [Hpc|Hpc]; [by rewrite Hpc in Hc|]. destruct (committed_set _ _ _ _ Hpc Hc) as (k & v & now & Hh).
  destruct (th_calls t) as [|c cs]; [done|]. injection Hh as ->. cbn. lia.
Qed.

Lemma weights_bounded n ts : Forall (thread_ok C n) ts -> zsum (calling <$> ts) <= Z.of_nat T ->
  zsum (weight <$> ts) <= S * Z.of_nat T.
Proof.
  intros Hts Hc. assert (zsum (weight <$> ts) <= S * zsum (calling <$> ts)); [|nia].
  clear Hc. induction Hts as [|t ts Ht Hts IH]; csimpl; [lia|]. pose proof (weight_calling n t Ht). lia.
Qed.

Lemma evicting_weight n t : thread_ok C n t -> t_evicting t <= S -> t_evicting t <= weight t.
Proof.
  intros [_ Hpc] Hle. unfold weight, t_evicting in *. destruct (committed (th_pc t)) eqn:Hc; [done|].
  destruct Hpc as [->|Hpc]; [done|]. by rewrite (evicting_committed _ _ _ _ Hpc Hc).
Qed.

Lemma calling_move ts e stop t e' stop' t' ev : move ts e stop t e' stop' t' ev -> calling t' <= calling t.
Proof.
  intros Hm. unfold calling. destruct (move_calls _ _ _ _ _ _ _ _ Hm) as [->| ->]; [done|].
  destruct (th_calls t) as [|c cs]; [done|]. cbn [tail existsb]. destruct (is_call_op c), (existsb is_call_op cs); cbn; lia.
Qed.

Lemma evicted_snoc h i ev :
  evicted_bytes (h ++ match ev with Some ev => [(i, ev)] | None => [] end) = evicted_bytes h + zsum (event_evicts <$> emitted ev).
Proof. unfold evicted_bytes. rewrite fmap_app, zsum_app. by destruct ev. Qed.

Lemma evict_inv_step m h i t t' pub pub' m' ev :
  machine_inv B C pub m -> machine_inv B C pub' m' -> mc_threads m !! i = Some t ->
  mc_threads m' = <[i := t']> (mc_threads m) ->
  move (mc_threads m) (mc_engine m) (mc_stop m) t (mc_engine m') (mc_stop m') t' ev ->
  evict_inv m h -> evict_inv m' (h ++ match ev with Some ev => [(i, ev)] | None => [] end).
Proof.
  intros Hinv Hinv' Hi Hts Hm [V1 V2 V3 V4 V5 V6 V7]. destruct m as [e stop ts], m' as [e' stop' ts'].
  cbn [mc_engine mc_threads mc_stop] in *. subst ts'.
  destruct (move_shape _ _ _ _ _ _ _ _ Hm) as (_ & Hmax & _).
  pose proof (Forall_lookup_1 _ _ _ _ V3 Hi) as Hc. pose proof (Forall_lookup_1 _ _ _ _ V4 Hi) as Hle.
  pose proof (move_account _ _ _ _ _ _ _ _ _ _ Hinv Hi Hm) as Hacc.
  destruct (move_within _ _ _ _ _ _ _ _ Hm Hc V2) as [Hc' Hst']. destruct (move_evicts _ _ _ _ _ _ _ _ Hm V2 Hle) as [Hle' Hev].
  pose proof (calling_move _ _ _ _ _ _ _ _ Hm) as Hcall.
  assert (V5' : zsum (calling <$> <[i := t']> ts) <= Z.of_nat T) by (rewrite (zsum_fmap_insert _ _ _ t) by done; lia).
  pose proof (weights_bounded _ _ (mi_threads _ _ _ _ Hinv') V5') as Hws. cbn [mc_threads mc_engine] in Hws.
  split; cbn [mc_engine mc_threads]; rewrite ?evicted_snoc, ?(zsum_fmap_insert _ _ _ t) by done; try done; try lia.
  - by apply Forall_insert.
  - by apply Forall_insert.
  - rewrite (zsum_fmap_insert _ _ _ t) in Hws by done.
    destruct (decide (committed (th_pc t) = false /\ committed (th_pc t') = true)) as [[H0 H1]|Hold].
    + right. destruct (move_commits _ _ _ _ _ _ _ _ Hm H1) as [?|(Hlt & -> & -> & E1 & E2)]; [congruence|].
      pose proof (used_range _ _ _ _ _ _ Hinv) as [? _]. rewrite E1, E2. cbn.
      assert (0 <= zsum (t_bytes <$> ts)) by (apply zsum_nonneg, Forall_fmap, Forall_true, t_bytes_nonneg). lia.
    + assert (Hc0 : committed (th_pc t') = true -> committed (th_pc t) = true)
        by (destruct (committed (th_pc t)), (committed (th_pc t')); naive_solver).
      pose proof (move_weight _ _ _ _ _ _ _ _ Hm Hc0 Hle) as Hw.
      destruct V7 as [[Hh Hts]|[HB Hbound]]; [left|right; split; [done|lia]].
      pose proof (Forall_lookup_1 _ _ _ _ Hts Hi) as Ht. cbn beta in Ht. destruct Hev as [Hev|?]; [|congruence]. split.
      * apply Forall_app. split; [done|]. destruct ev; [|done]. constructor; [|done]. by inversion Hev.
      * apply Forall_insert; [done|]. destruct (committed (th_pc t')); [|done]. by rewrite Hc0 in Ht.
Qed.

(** ** Whole executions *)

Lemma run_evict_inv pub sched m : machine_inv B C pub m -> evict_inv m [] ->
  let h := (run_schedule p sched m []).2 in
  Forall (fun x => is_evict x.2 = false) h \/ (M < B /\ evicted_bytes h < B - M + S * Z.of_nat T).
Proof.
  intros Hinv Hev. destruct (run_schedule_ind p B C evict_inv evict_inv_step sched m [] pub Hinv Hev) as [[pub' Hinv'] [_ _ _ V4 _ _ V7]].
  destruct V7 as [[Hh _]|[HB Hb]]; [by left|right]. split; [done|].
  assert (zsum (t_evicting <$> mc_threads (run_schedule p sched m []).1) <= zsum (weight <$> mc_threads (run_schedule p sched m []).1));
    [|lia].
  pose proof (mi_threads _ _ _ _ Hinv') as Hok. clear -V4 Hok.
  induction Hok as [|t ts Ht _ IH]; csimpl; [done|]. apply Forall_cons_1 in V4 as [Hle V4].
  pose proof (evicting_weight _ _ Ht Hle). specialize (IH V4). lia.
Qed.

End evict.

Lemma no_evictions h : Forall (fun x => is_evict x.2 = false) h -> evicted_bytes h = 0.
Proof.
  unfold evicted_bytes. induction 1 as [|[a ev] h Hev _ IH]; csimpl; [done|]. rewrite IH. by destruct ev.
Qed.

(** The machine a program starts from: nothing is stored, nothing evicted. *)
Lemma start_evict_inv `{EngineEnv} b max_bytes S clients expirer :
  0 <= S -> 0 <= max_bytes -> Forall (fun o => op_bytes o <= S) (mjoin clients) ->
  evict_inv (ops_bytes (mjoin clients)) max_bytes S (length clients) (start b max_bytes (system clients expirer)) [].
Proof.
  intros HS Hmax Hops. pose proof (system_idle clients expirer) as Hidle.
  split; cbn [start mc_engine mc_threads new_engine eng_max_bytes eng_used_bytes].
  - done.
  - change (mkEngine _ _ _ _ _) with (new_engine b max_bytes). rewrite new_engine_store. apply map_Forall_empty.
  - apply system_threads; [|by repeat constructor..]. intros os Hin. apply Forall_fmap, Forall_forall. intros o Ho.
    rewrite Forall_forall in Hops. apply Hops, list_elem_of_join. eauto.
  - eapply Forall_impl; [exact Hidle|]. intros t Ht. unfold t_evicting. by rewrite Ht.
  - unfold system. rewrite fmap_app, zsum_app.
    assert (zsum (calling <$> match expirer with Some (i, clock) => [start_expirer i clock; stopper] | None => [] end) = 0)
      as -> by by destruct expirer as [[i clock]|].
    clear. induction clients as [|os clients IH]; csimpl; [lia|]. pose proof (calling_range (worker os)). lia.
  - rewrite system_bytes, idle_sum by (done || (intros t Ht; unfold t_evicting; by rewrite Ht)). cbn. lia.
  - left. split; [done|]. eapply Forall_impl; [exact Hidle|]. intros t Ht. by rewrite Ht.
Qed.
