(* ===== verification/ConcurrentLive.v ===== *)
(** * Progress

    As long as a call is unfinished some thread can make a step (no deadlock), and
    unless an expirer keeps running every execution is finite: a measure goes down
    with every step, whatever the threads do to each other.  Its first component
    counts the steps left, a round of eviction for each entry included; its second
    the counter operations of critical sections. *)

From S2P Require Import Prelude HkvError Shard ShardInv ShardOps Engine LockedOps KVEngine.
From S2P Require Import EngineInv EngineSpec Eviction EngineTheorems Accounting.
From S2P Require Import Concurrent ConcurrentSteps ConcurrentMoves ConcurrentInv ConcurrentKeep.

Section live.
Context `{EngineEnv} (p : profile).
Implicit Types (e : MemoryEngine) (s : ShardInner) (ts : list thread) (t : thread) (n : Z).

(** ** The measure *)

(** Steps left in the current call, on an engine with [n] shards. *)
Fixpoint steps_left n (x : pc) : Z :=
  match x with
  | Idle | Panicked => 0
  | Held _ _ next => 1 + steps_left n next
  | EvictLoad => 2 * n + 4
  | EvictCursor => 2 * n + 3
  | EvictScan _ offset => 2 * (n - Z.of_nat offset) + 2
  | EvictSub _ => 2 * n + 5
  | Purging _ j _ None => 2 * (n - Z.of_nat j) + 2
  | Purging _ j _ (Some _) => 2 * (n - Z.of_nat j) + 3
  | SweepLoad _ => 2
  | SweepSleep _ => 2 * n + 4
  | StopJoin => 2
  | Reply _ => 1
  end.

(** Steps of one round of eviction, and of a call with the entry it may add. *)
Definition round_steps n : Z := 2 * n + 8.
Definition call_steps n : Z := 2 * round_steps n.

Definition t_steps n t : Z := steps_left n (th_pc t) + call_steps n * zlen (todo t).

Definition shards_of e : Z := Z.of_nat (length (eng_shards e)).

Definition m_steps (m : machine) : Z :=
  zsum (t_steps (shards_of (mc_engine m)) <$> mc_threads m) +
  round_steps (shards_of (mc_engine m)) * count (mc_engine m).

Definition ops_left (x : pc) : Z := match x with Held _ ops _ => zlen ops | _ => 0 end.
Definition m_ops (m : machine) : Z := zsum ((fun t => ops_left (th_pc t)) <$> mc_threads m).

(** The expirer is not running, or has been told to stop. *)
Definition stopping (m : machine) : Prop := mc_stop m = true \/ expiring (mc_threads m) = false.

(** ** Lemmas *)

Lemma steps_left_nonneg C k c x : pc_ok C k c x -> 0 <= steps_left (Z.of_nat k) x.
Proof.
  induction x as [ |i ops next IH| | |start off| |now j m [r|]| | | | | ]; simpl; intros Hok; try lia.
  destruct Hok as [_ Hn]. destruct next; try done; specialize (IH Hn); lia.
Qed.

Lemma m_steps_nonneg B C pub m : machine_inv B C pub m -> 0 <= m_steps m.
Proof.
  intros Hinv. unfold m_steps. pose proof (count_nonneg (mc_engine m)).
  assert (0 <= zsum (t_steps (shards_of (mc_engine m)) <$> mc_threads m)); [|unfold round_steps, shards_of in *; nia].
  apply zsum_nonneg, Forall_fmap. eapply Forall_impl; [exact (mi_threads _ _ _ _ Hinv)|].
  intros t [_ Hpc]. unfold t_steps, call_steps, round_steps, shards_of. pose proof (zlen_nonneg (todo t)). cbn.
  assert (0 <= steps_left (Z.of_nat (length (eng_shards (mc_engine m)))) (th_pc t)); [|nia].
  destruct Hpc as [->|Hpc]; [done|by eapply steps_left_nonneg].
Qed.

Lemma m_ops_nonneg m : 0 <= m_ops m.
Proof.
  apply zsum_nonneg, Forall_fmap, Forall_true. intros t. simpl. destruct (th_pc t); simpl; try done. apply zlen_nonneg.
Qed.

Lemma expiring_false ts : expiring ts = false <-> Forall (fun t => existsb is_expirer (th_calls t) = false) ts.
Proof.
  unfold expiring. induction ts as [|t ts IH]; simpl; [by split|]. by rewrite orb_false_iff, Forall_cons, IH.
Qed.

Lemma steps_left_after n e o r : 0 <= n -> steps_left n (after_op e o r) <= 2 * n + 4.
Proof. intros Hn. destruct o; simpl; try lia. unfold after_set. destruct (_ =? _); simpl; lia. Qed.

(** ** Every move makes the measure smaller *)

Section moves.
Context (B C : Z) (pub : list Z) (e : MemoryEngine) (stop : bool) (ts : list thread) (a : nat) (t : thread).
Context (Hinv : machine_inv B C pub (mkMachine e stop ts)) (Ha : ts !! a = Some t).

Let n : Z := shards_of e.

(** The change of the first component. *)
Lemma steps_less e' stop' t' :
  length (eng_shards e') = length (eng_shards e) ->
  t_steps n t' + round_steps n * count e' < t_steps n t + round_steps n * count e ->
  m_steps (mkMachine e' stop' (<[a := t']> ts)) < m_steps (mkMachine e stop ts).
Proof.
  intros Hlen Hlt. unfold m_steps, shards_of in *. cbn [mc_engine mc_threads].
  rewrite Hlen, (zsum_fmap_insert _ _ _ t) by done. unfold n in Hlt. lia.
Qed.

(** Within the current call. *)
Lemma steps_at e' stop' c :
  length (eng_shards e') = length (eng_shards e) -> th_pc t ≠ Idle -> c ≠ Idle ->
  steps_left n c + round_steps n * count e' < steps_left n (th_pc t) + round_steps n * count e ->
  m_steps (mkMachine e' stop' (<[a := at_pc t c]> ts)) < m_steps (mkMachine e stop ts).
Proof.
  intros Hlen Hpc Hc Hlt. apply steps_less; [done|]. unfold t_steps. rewrite todo_at, todo_busy by done. cbn. lia.
Qed.

(** The first step of a call. *)
Lemma steps_begin e' stop' c c0 rest :
  length (eng_shards e') = length (eng_shards e) -> th_pc t = Idle -> th_calls t = c0 :: rest -> c ≠ Idle ->
  steps_left n c + round_steps n * count e' < call_steps n + round_steps n * count e ->
  m_steps (mkMachine e' stop' (<[a := at_pc t c]> ts)) < m_steps (mkMachine e stop ts).
Proof.
  intros Hlen Hpc Hcs Hc Hlt. apply steps_less; [done|]. unfold t_steps. rewrite todo_at by done.
  unfold todo. rewrite Hpc, Hcs, zlen_cons. cbn [at_pc th_pc tail steps_left]. lia.
Qed.

Lemma quiet_steps stop' c' :
  stopping (mkMachine e stop ts) -> quiet ts e stop t (th_pc t) stop' c' ->
  m_steps (mkMachine e stop' (<[a := at_pc t c']> ts)) < m_steps (mkMachine e stop ts).
Proof.
  intros Hstop Hq. assert (Hn : 0 <= n) by (unfold n, shards_of; lia).
  assert (Hc' : c' ≠ Idle) by by destruct Hq.
  assert (th_pc t = Idle \/ th_pc t ≠ Idle) as [Hidle|Hbusy] by (destruct (th_pc t); auto; by right).
  - remember (th_pc t) as x eqn:Hx. destruct Hq; try done; (eapply steps_begin; [done..|]);
      unfold call_steps, round_steps; cbn [steps_left]; lia.
  - apply steps_at; try done. apply Z.add_lt_mono_r.
    assert (Hrun : stop = false -> existsb is_expirer (th_calls t) = false).
    { intros ->. destruct Hstop as [?|Hex]; [done|]. rewrite expiring_false in Hex.
      exact (Forall_lookup_1 _ _ _ _ Hex Ha). }
    pose proof (thread_pc _ _ _ _ (this_ok _ _ _ _ _ _ _ _ Hinv Ha) eq_refl Hbusy) as Hok.
    revert Hok. destruct Hq as [| | | | | | | | |r Hr| | ]; simpl; intros Hok; try done; unfold n, shards_of; try lia.
    destruct Hok as (d & clock & Hd). destruct (th_calls t) as [|c cs]; [done|]. simplify_eq/=.
    by specialize (Hrun eq_refl).
Qed.

Lemma move_measure e' stop' t' ev :
  stopping (mkMachine e stop ts) -> move ts e stop t e' stop' t' ev ->
  let m := mkMachine e stop ts in let m' := mkMachine e' stop' (<[a := t']> ts) in
  m_steps m' < m_steps m \/ (m_steps m' = m_steps m /\ m_ops m' < m_ops m).
Proof.
  intros Hstop Hm. cbn zeta. pose proof (move_shape _ _ _ _ _ _ _ _ Hm) as (_ & _ & Hlen).
  assert (Hn : 0 <= n) by (unfold n, shards_of; lia).
  destruct Hm as [o k s s' r ops rest Hpc Hcs Hk Hfree [Hs _ _ Hcnt]|now j m round s s' ops Hpc Hfree [Hs _ _ Hcnt]|
    start off s Hpc Hoff|start off s s' en es i Hpc Hfree Hs Hes Hes'|i d ops next Hpc|i next Hpc|Hpc|size Hpc|stop' c' Hq|r Hpc].
  - left. eapply steps_begin; [done..|]. rewrite (count_with_shard _ _ _ _ Hs). cbn [steps_left].
    pose proof (steps_left_after n e o r Hn). assert (op_writes o <= 1) by by destruct o.
    unfold call_steps, round_steps. nia.
  - left. apply steps_at; try done; [congruence|]. rewrite (count_with_shard _ _ _ _ Hs), Hpc. cbn [steps_left].
    unfold round_steps. destruct round; nia.
  - left. apply steps_at; try done; [congruence|]. rewrite Hpc. cbn [steps_left]. lia.
  - left. pose proof (thread_pc _ _ _ _ (this_ok _ _ _ _ _ _ _ _ Hinv Ha) Hpc ltac:(done)) as (_ & _ & Hoff).
    assert (shard_count s = 1 + shard_count s') by (unfold shard_count; by rewrite Hes, Hes', zlen_cons).
    apply steps_at; try done; [congruence|]. rewrite (count_with_shard _ _ _ _ Hs), Hpc. cbn [steps_left].
    cbn [mc_engine] in Hoff. unfold round_steps, n, shards_of. nia.
  - right. unfold m_steps, m_ops, shards_of. cbn [mc_engine mc_threads]. rewrite Hlen.
    rewrite !(zsum_fmap_insert _ _ _ t) by done. unfold t_steps. rewrite todo_at, todo_busy, Hpc by congruence.
    cbn [at_pc th_pc steps_left ops_left]. rewrite zlen_cons. change (count (with_used _ e)) with (count e). lia.
  - left. pose proof (thread_pc _ _ _ _ (this_ok _ _ _ _ _ _ _ _ Hinv Ha) Hpc ltac:(done)) as [_ Hok].
    apply steps_at; [done|congruence|by intros ->|]. rewrite Hpc. cbn [steps_left]. lia.
  - left. apply steps_at; try done; [congruence|]. rewrite Hpc. cbn [steps_left].
    change (count (with_cursor _ e)) with (count e). lia.
  - left. apply steps_at; try done; [congruence|]. rewrite Hpc. cbn [steps_left].
    change (count (with_used _ e)) with (count e). lia.
  - left. by apply quiet_steps.
  - left. apply steps_less; [done|]. unfold t_steps, todo. rewrite Hpc. cbn. lia.
Qed.

Lemma move_flag e' stop' t' ev : move ts e stop t e' stop' t' ev -> stop = true -> stop' = true.
Proof. clear Hinv Ha. intros Hm. by destruct Hm as [| | | | | | | |stop' c' [ ]|]. Qed.

(** The call of [stop] sets the flag at once. *)
Lemma stopper_flag e' stop' t' ev : move ts e stop t e' stop' t' ev -> t = stopper -> stop' = true.
Proof.
  clear Hinv Ha. intros Hm ->. destruct Hm as [| | | | | | | |stop' c' Hq|]; try done.
  change (th_pc stopper) with Idle in Hq. by inversion Hq.
Qed.

Lemma move_stopping e' stop' t' ev :
  stopping (mkMachine e stop ts) -> move ts e stop t e' stop' t' ev ->
  stopping (mkMachine e' stop' (<[a := t']> ts)).
Proof.
  intros Hstop Hm.
  pose proof (move_flag _ _ _ _ Hm) as Hflag.
  assert (Hcs : forall f, existsb f (th_calls t) = false -> existsb f (th_calls t') = false).
  { intros f. destruct Hm; try done. simpl. destruct (th_calls t); simpl; [done|]. by intros [_ ?]%orb_false_iff. }
  destruct Hstop as [?|Hex]; [left; by apply Hflag|right]. apply expiring_false in Hex. apply expiring_false.
  cbn [mc_threads] in *. apply Forall_insert; [done|]. apply Hcs. exact (Forall_lookup_1 _ _ _ _ Hex Ha).
Qed.

End moves.

(** ** Termination *)

Lemma stopping_terminates B C m : (exists pub, machine_inv B C pub m) -> stopping m -> sn (steps_to p) m.
Proof.
  remember (Z.to_nat (m_steps m)) as k eqn:Ek. revert m Ek. induction (lt_wf k) as [k _ IHk]. intros m.
  remember (Z.to_nat (m_ops m)) as l eqn:El. revert m El. induction (lt_wf l) as [l _ IHl]. intros m -> -> [pub Hinv] Hstop.
  constructor. intros m' (i & ev & Hstep).
  destruct (machine_step_move _ _ _ _ _ _ _ _ Hinv Hstep) as (t & t' & pub' & Hi & Hts & Hmove & Hinv').
  destruct m as [e stop ts], m' as [e' stop' ts']. cbn [mc_engine mc_stop mc_threads] in *. subst ts'.
  pose proof (m_steps_nonneg _ _ _ _ Hinv'). pose proof (m_ops_nonneg (mkMachine e' stop' (<[i := t']> ts))).
  pose proof (move_stopping _ _ _ _ _ Hi _ _ _ _ Hstop Hmove).
  destruct (move_measure _ _ _ _ _ _ _ _ Hinv Hi _ _ _ _ Hstop Hmove) as [Hlt|[Heq Hlt]].
  - eapply IHk; [|done|by exists pub'|done]. lia.
  - eapply IHl; [|done|by rewrite Heq|by exists pub'|done]. lia.
Qed.

(** ** No deadlock *)

Definition holding t : bool := match th_pc t with Held _ _ _ => true | _ => false end.

Definition is_finished t : bool := match th_calls t, th_pc t with [], Idle => true | _, _ => false end.

Lemma is_finished_spec t : is_finished t = true <-> finished t.
Proof. unfold is_finished, finished. destruct (th_calls t), (th_pc t); naive_solver. Qed.

Lemma enter_enabled {A} ts e i (m : M Locked A) next ev : locked ts i = false -> is_Some (enter ts e i m next ev).
Proof.
  intros Hi. unfold enter. rewrite Hi. destruct (eng_shards e !! i); [|done].
  destruct (m _) as [[] l]; done.
Qed.

Lemma thread_enabled m t :
  (forall i, locked (mc_threads m) i = false) \/ (exists i ops next, th_pc t = Held i ops next) ->
  th_pc t ≠ Panicked -> ~ finished t -> (th_pc t = StopJoin -> expiring (mc_threads m) = false) ->
  is_Some (thread_step p m t).
Proof.
  intros Hfree Hpan Hfin Hjoin. destruct m as [e stop ts]. cbn [mc_threads] in *. unfold thread_step.
  cbn [mc_engine mc_stop mc_threads].
  assert (Hbind : forall r : option effect, is_Some r ->
    is_Some ('(e', c, ev) ← r; Some (e', stop, at_pc t c, ev) : option (MemoryEngine * bool * thread * option event))).
  { intros r [[[e' c] ev] ->]. done. }
  destruct (th_pc t) as [ |i ops next| | |start off|size|now j m round|r|r| |r| ] eqn:Hpc; try done.
  - destruct Hfree as [Hfree|(i & ops & next & ?)]; [|done].
    destruct (th_calls t) as [|[o| |] cs] eqn:Hcs; [exfalso; apply Hfin; done| |done..].
    apply Hbind. destruct o; try done; by apply enter_enabled.
  - by destruct ops.
  - apply Hbind. destruct Hfree as [Hfree|(i & ops & next & ?)]; [|done]. cbn [engine_step evict_step]. unfold scan_step.
    destruct (bool_decide _); [|done]. destruct (usize_add _ _ _); [|done..]. by apply enter_enabled.
  - apply Hbind. destruct Hfree as [Hfree|(i & ops & next & ?)]; [|done]. cbn [engine_step evict_step]; unfold purge_step.
    destruct (bool_decide _); [|done]. by apply enter_enabled.
  - cbn. by rewrite Hjoin.
Qed.

Lemma machine_enabled m a t : mc_threads m !! a = Some t -> is_Some (thread_step p m t) -> exists m', steps_to p m m'.
Proof.
  intros Ha [[[[e' stop'] t'] ev] Ht]. eexists. exists a, ev. unfold machine_step. rewrite Ha. cbn. by rewrite Ht.
Qed.

Lemma no_deadlock B C pub m :
  machine_inv B C pub m -> (exists m', steps_to p m m') \/ Forall finished (mc_threads m).
Proof.
  intros Hinv. pose proof (mi_threads _ _ _ _ Hinv) as Hts. rewrite Forall_lookup in Hts.
  assert (Hpan : forall a t, mc_threads m !! a = Some t -> th_pc t ≠ Panicked).
  { intros a t Ha Hp. destruct (to_pc _ _ _ (Hts a t Ha)) as [?|Hok]; [congruence|by rewrite Hp in Hok]. }
  destruct (existsb holding (mc_threads m)) eqn:Hx.
  { apply existsb_exists in Hx as (t & [a Ha]%list_elem_of_In%list_elem_of_lookup & Ht).
    unfold holding in Ht. destruct (th_pc t) as [ |i ops next| | | | | | | | | | ] eqn:Hpc; try done.
    left. eapply machine_enabled; [exact Ha|]. apply thread_enabled; [right; eauto|by eapply Hpan| |congruence].
    intros [_ ?]. congruence. }
  assert (Hfree : forall i, locked (mc_threads m) i = false).
  { intros i. destruct (locked (mc_threads m) i) eqn:El; [|done].
    apply locked_true in El as (a & t & Ha & (ops & next & Hpc)%holds_pc).
    assert (existsb holding (mc_threads m) = true); [|congruence]. apply existsb_exists. exists t.
    split; [by eapply list_elem_of_In, list_elem_of_lookup_2|]. unfold holding. by rewrite Hpc. }
  destruct (expiring (mc_threads m)) eqn:Hex.
  - left. apply existsb_exists in Hex as (t & [a Ha]%list_elem_of_In%list_elem_of_lookup & Ht).
    apply existsb_exists in Ht as (c & Hc%list_elem_of_In & Hc').
    destruct c as [|d clock|]; try done. pose proof (Hts a t Ha) as Hok.
    pose proof (proj2 (to_calls _ _ _ Hok) d clock Hc) as Hcs.
    eapply machine_enabled; [exact Ha|]. apply thread_enabled; [by left|by eapply Hpan|by intros [? _]; congruence|].
    intros Hpc. pose proof (thread_pc _ _ _ _ Hok Hpc ltac:(done)) as Hsj. by rewrite Hcs in Hsj.
  - destruct (existsb (fun t => negb (is_finished t)) (mc_threads m)) eqn:Hun; [left|right].
    + apply existsb_exists in Hun as (t & [a Ha]%list_elem_of_In%list_elem_of_lookup & Ht).
      eapply machine_enabled; [exact Ha|]. apply thread_enabled; [by left|by eapply Hpan| |done].
      intros Hf%is_finished_spec. by rewrite Hf in Ht.
    + apply Forall_lookup. intros a t Ha. apply is_finished_spec.
      destruct (is_finished t) eqn:Ef; [done|]. exfalso.
      assert (existsb (fun t => negb (is_finished t)) (mc_threads m) = true); [|congruence].
      apply existsb_exists. exists t. split; [by eapply list_elem_of_In, list_elem_of_lookup_2|by rewrite Ef].
Qed.

Lemma run_stopping B C pub sched m :
  machine_inv B C pub m -> stopping m -> stopping (run_schedule p sched m []).1.
Proof.
  intros Hinv Hstop. eapply (run_schedule_ind p B C (fun m _ => stopping m)); [|exact Hinv|done].
  intros m1 h1 i t t' pub1 pub2 m2 ev Hinv1 _ Hi Hts Hmove Hs. destruct m1, m2. simpl in *. subst.
  by eapply move_stopping.
Qed.

(** A thread that was to call [stop] is still to do so, or the flag is set. *)
Lemma run_stopper B C pub sched m a :
  machine_inv B C pub m -> mc_threads m !! a = Some stopper ->
  let m' := (run_schedule p sched m []).1 in mc_threads m' !! a = Some stopper \/ mc_stop m' = true.
Proof.
  intros Hinv Ha. cbn zeta.
  eapply (run_schedule_ind p B C (fun m _ => mc_threads m !! a = Some stopper \/ mc_stop m = true)); [|exact Hinv|by left].
  intros m1 h1 i t t' pub1 pub2 m2 ev _ _ Hi Hts Hmove [Hs|Hs].
  - rewrite Hts. destruct (decide (a = i)) as [->|Hne]; [right|left; by rewrite list_lookup_insert_ne].
    eapply stopper_flag; [exact Hmove|congruence].
  - right. eapply move_flag; [exact Hmove|done].
Qed.

End live.
