(* ===== verification/ConcurrentAlone.v ===== *)
(** * Undisturbed calls

    A call whose thread runs alone from its first step to its last does what
    [Engine] defines: the steps of [Concurrent] cut the operations of [Engine]
    into accesses to shared state and nothing else. *)

From S2P Require Import Prelude HkvError Shard ShardInv ShardOps Engine LockedOps KVEngine.
From S2P Require Import EngineInv EngineSpec Eviction EngineTheorems Accounting.
From S2P Require Import Concurrent ConcurrentSteps ConcurrentMoves ConcurrentInv.

Lemma lock_shard_length {A} i (m : M Locked A) e o e' :
  lock_shard i m e = (o, e') -> length (eng_shards e') = length (eng_shards e).
Proof.
  unfold lock_shard. destruct (eng_shards e !! i) as [s|]; [|by intros [= <- <-]].
  destruct (m (mkLocked s [])) as [o' l]. intros [= <- <-]. apply length_insert.
Qed.

Lemma lock_shard_max {A} i (m : M Locked A) e o e' :
  lock_shard i m e = (o, e') -> eng_max_bytes e' = eng_max_bytes e.
Proof.
  unfold lock_shard. destruct (eng_shards e !! i) as [s|]; [|by intros [= <- <-]].
  destruct (m (mkLocked s [])) as [o' l]. by intros [= <- <-].
Qed.

(** A bind that returned. *)
Lemma bind_ret {S A B} (m : M S A) (f : A -> M S B) s b s' :
  (m ≫= f) s = (Ret b, s') -> exists a s1, m s = (Ret a, s1) /\ f a s1 = (Ret b, s').
Proof. unfold mbind, M_bind. destruct (m s) as [[a| |] s1]; intros E; try done. eauto. Qed.

Lemma ret_inv {S A} (x y : A) (s s1 : S) : (mret x : M S A) s = (Ret y, s1) -> x = y /\ s = s1.
Proof. by intros [= <- <-]. Qed.

(** A bind whose first part only reads or writes the state. *)
Local Ltac bind_now E :=
  let Eg := fresh in apply bind_ret in E as (? & ? & Eg & E); injection Eg as <- <-.

Section alone.
Context `{EngineEnv} (p : profile) (stop : bool) (ts : list thread) (a : nat) (t : thread).
Context (Ha : ts !! a = Some t) (Hothers : forall i b u, ts !! b = Some u -> b ≠ a -> holds i u = false).
Implicit Types (e : MemoryEngine) (c : pc).

(** The machine when the thread is at [c]. *)
Definition at_machine e c : machine := mkMachine e stop (<[a := at_pc t c]> ts).

Definition runs_to e c e' c' : Prop :=
  exists k evs, forall h, run_schedule p (replicate k a) (at_machine e c) h = (at_machine e' c', h ++ evs).

Lemma runs_refl e c : runs_to e c e c.
Proof. exists O, []. intros h. by rewrite app_nil_r. Qed.

Lemma run_schedule_app sched1 sched2 m h :
  run_schedule p (sched1 ++ sched2) m h =
  run_schedule p sched2 (run_schedule p sched1 m h).1 (run_schedule p sched1 m h).2.
Proof.
  revert m h. induction sched1 as [|i sched1 IH]; intros m h; simpl; [done|].
  by destruct (machine_step p i m) as [[m' [ev|]]|].
Qed.

Lemma runs_trans e1 c1 e2 c2 e3 c3 : runs_to e1 c1 e2 c2 -> runs_to e2 c2 e3 c3 -> runs_to e1 c1 e3 c3.
Proof.
  intros (k1 & evs1 & E1) (k2 & evs2 & E2). exists (k1 + k2)%nat, (evs1 ++ evs2). intros h.
  rewrite replicate_add, run_schedule_app, E1. cbn [fst snd]. by rewrite E2, app_assoc.
Qed.

(** One step. *)
Lemma runs_step e c e' c' ev :
  thread_step p (at_machine e c) (at_pc t c) = Some (e', stop, at_pc t c', ev) -> runs_to e c e' c'.
Proof.
  intros E. exists 1%nat, (match ev with Some ev => [(a, ev)] | None => [] end). intros h. simpl.
  unfold machine_step. cbn [at_machine mc_threads]. rewrite list_lookup_insert_eq by by eapply lookup_lt_Some.
  cbn. fold (at_machine e c). rewrite E. cbn. rewrite list_insert_insert_eq.
  destruct ev; [done|]. by rewrite app_nil_r.
Qed.

Lemma unlocked i c : (forall j ops next, c ≠ Held j ops next) -> locked (<[a := at_pc t c]> ts) i = false.
Proof.
  intros Hc. destruct (locked _ i) eqn:El; [|done].
  apply locked_true in El as (b & u & [[-> ->]|[Hb Hu]]%insert_cases & Hh).
  - apply holds_pc in Hh as (ops & next & Hh). by apply Hc in Hh.
  - by rewrite (Hothers _ _ _ Hu Hb) in Hh.
Qed.

(** The counter operations of a section, and its end. *)
Lemma runs_ops e i ops next : runs_to e (Held i ops next) (with_used (apply_ops (eng_used_bytes e) ops) e) next.
Proof.
  revert e. induction ops as [|d ops IH]; intros e.
  - eapply runs_step. cbn. by destruct e.
  - eapply runs_trans; [by eapply runs_step|]. exact (IH (with_used (wrapping_add (eng_used_bytes e) d) e)).
Qed.

(** A critical section that the step at [c] enters. *)
Lemma runs_section {A} e c i (m : M Locked A) next ev (x : A) e' :
  (forall j ops n, c ≠ Held j ops n) ->
  (forall e' c' ev', enter (<[a := at_pc t c]> ts) e i m next ev = Some (e', c', ev') ->
    thread_step p (at_machine e c) (at_pc t c) = Some (e', stop, at_pc t c', ev')) ->
  lock_shard i m e = (Ret x, e') -> runs_to e c e' (next x).
Proof.
  intros Hc Hstep Hrun. unfold lock_shard in Hrun. unfold enter in Hstep. rewrite (unlocked i c Hc) in Hstep.
  destruct (eng_shards e !! i) as [s|]; [|done]. destruct (m (mkLocked s [])) as [o l]. injection Hrun as -> <-.
  eapply runs_trans; [eapply runs_step; by apply Hstep|]. apply runs_ops.
Qed.

(** The scan of [evict_if_needed]. *)
Lemma runs_scan e start off k b e' :
  (off + k = length (eng_shards e))%nat -> evict_scan p start (seq off k) e = (Ret b, e') ->
  runs_to e (EvictScan start off) e' (if b : bool then EvictLoad else Reply (Some set_done)).
Proof.
  revert e off. induction k as [|k IH]; intros e off Hk E; simpl in E.
  - injection E as <- <-. eapply runs_step. cbn [thread_step at_pc th_pc engine_step evict_step purge_step at_machine mc_engine mc_threads].
    unfold scan_step. by rewrite bool_decide_false by lia.
  - apply bind_ret in E as (sum & e1 & Esum & E). injection Esum as Esum <-.
    bind_now E.
    apply bind_ret in E as (r & e1 & Er & E). pose proof (lock_shard_length _ _ _ _ _ Er) as Hlen.
    eapply runs_trans.
    + eapply runs_section; [done| |exact Er]. intros e2 c2 ev2 Hen.
      cbn [thread_step at_pc th_pc engine_step evict_step purge_step at_machine mc_engine mc_threads mc_stop].
      unfold scan_step. rewrite bool_decide_true by lia. rewrite Esum, Hen. done.
    + cbn beta. destruct r as [size|].
      * injection E as <- <-. by eapply runs_step.
      * eapply IH; [lia|done].
Qed.

Lemma runs_evict_loop fuel e e' :
  evict_loop p fuel e = (Ret tt, e') -> runs_to e EvictLoad e' (Reply (Some set_done)).
Proof.
  revert e. induction fuel as [|fuel IH]; intros e E; [done|]. cbn [evict_loop] in E.
  do 2 bind_now E. destruct (eng_used_bytes e <=? eng_max_bytes e) eqn:Hle.
  - apply ret_inv in E as [_ <-]. eapply runs_step. cbn. by rewrite Hle.
  - do 3 bind_now E. apply bind_ret in E as (b & e1 & Eb & E).
    eapply runs_trans; [eapply runs_step; cbn; by rewrite Hle|].
    eapply runs_trans; [by eapply runs_step|].
    eapply runs_trans; [eapply (runs_scan _ _ 0); [|exact Eb]; done|].
    destruct b; [by apply IH|]. apply ret_inv in E as [_ <-]. apply runs_refl.
Qed.

(** The loop of [purge_expired]. *)
Lemma runs_purge e now j k n m e' :
  (j + k = length (eng_shards e))%nat -> purge_shards now (seq j k) e = (Ret m, e') ->
  runs_to e (Purging now j n None) e' (Reply (Some (ReplyCount (n + m)))).
Proof.
  revert e j n m. induction k as [|k IH]; intros e j n m Hk E; simpl in E.
  - injection E as <- <-. eapply runs_step. cbn [thread_step at_pc th_pc engine_step at_machine mc_engine mc_threads].
    unfold purge_step. rewrite bool_decide_false by lia. cbn. by rewrite Z.add_0_r.
  - apply bind_ret in E as (r & e1 & Er & E). pose proof (lock_shard_length _ _ _ _ _ Er) as Hlen.
    apply bind_ret in E as (r' & e2 & Er' & E). injection E as <- <-. eapply runs_trans.
    + eapply runs_section; [done| |exact Er]. intros e3 c3 ev3 Hen.
      cbn [thread_step at_pc th_pc engine_step at_machine mc_engine mc_threads mc_stop].
      unfold purge_step. rewrite bool_decide_true, Hen by lia. done.
    + cbn beta. rewrite Z.add_assoc. eapply IH; [lia|done].
Qed.

(** A call. *)
Lemma runs_call e o cs r e' :
  th_calls t = CallOp o :: cs -> run_op p o e = (Ret r, e') -> runs_to e Idle e' (Reply (Some r)).
Proof.
  intros Hcs E.
  assert (Hsec : forall A k (m : M Locked A) next ev x e1,
    begin_op p (<[a := at_pc t Idle]> ts) e o = enter (<[a := at_pc t Idle]> ts) e (shard_index e k) m next ev ->
    lock_for k m e = (Ret x, e1) -> forall c, next x = c -> runs_to e Idle e1 c).
  { intros A k m next ev x e1 Hbegin Hrun _ <-. eapply runs_section; [done| |exact Hrun].
    intros e2 c2 ev2 Hen. cbn [thread_step at_pc th_pc th_calls at_machine mc_engine mc_threads mc_stop].
    rewrite Hcs, Hbegin, Hen. done. }
  destruct o as [k now|k v now|k now|k d now|k now|now]; apply bind_ret in E as (x & e1 & Ex & E).
  1,3,4,5: injection E as <- <-; eapply (Hsec _ k _ _ _ x); [reflexivity|exact Ex|reflexivity].
  - injection E as <- <-. apply bind_ret in Ex as ([] & e2 & E2 & Ex). apply bind_ret in Ex as ([] & e3 & E3 & Ex).
    injection Ex as <- <-. eapply runs_trans; [eapply (Hsec _ k _ _ _ tt); [reflexivity|exact E2|reflexivity]|].
    assert (eng_max_bytes e2 = eng_max_bytes e) as Hmax.
    { unfold lock_for in E2. bind_now E2. by eapply lock_shard_max. }
    unfold evict_if_needed in E3. bind_now E3. unfold after_set. rewrite <- Hmax.
    destruct (eng_max_bytes e2 =? USIZE_MAX); [apply ret_inv in E3 as [_ <-]; apply runs_refl|].
    bind_now E3. by eapply runs_evict_loop.
  - injection E as <- <-. eapply runs_trans; [eapply runs_step; cbn; by rewrite Hcs|].
    unfold purge_expired in Ex. bind_now Ex. by eapply (runs_purge _ _ 0 _ 0 x).
Qed.

Lemma runs_alone e o cs r e' :
  th_pc t = Idle -> th_calls t = CallOp o :: cs -> run_op p o e = (Ret r, e') ->
  exists k evs, forall h, run_schedule p (replicate k a) (mkMachine e stop ts) h =
    (mkMachine e' stop (<[a := mkThread cs Idle (th_done t ++ [(o, r)])]> ts), h ++ evs).
Proof.
  intros Hpc Hcs Hrun. destruct (runs_call _ _ _ _ _ Hcs Hrun) as (k & evs & E). exists (k + 1)%nat, evs. intros h.
  assert (Hat : at_pc t Idle = t) by (destruct t; simpl in *; by subst).
  specialize (E h). unfold at_machine in E. rewrite Hat, list_insert_id in E by done.
  rewrite replicate_add, run_schedule_app, E. cbn. unfold machine_step. cbn.
  rewrite list_lookup_insert_eq by by eapply lookup_lt_Some. cbn. rewrite list_insert_insert_eq.
  unfold finish. cbn. by rewrite Hcs.
Qed.

End alone.
