(* ===== verification/ConcurrentClaims.v ===== *)
(** * Properties of the engine under concurrency

    The statements about threads on one [MemoryEngine], its background expirer
    included, this development vouches for, each with an instance. *)

From S2P Require Import Prelude HkvError Shard ShardInv ShardOps Engine LockedOps KVEngine.
From S2P Require Import EngineInv EngineSpec Eviction EngineTheorems Accounting.
From S2P Require Import Concurrent ConcurrentSteps ConcurrentMoves ConcurrentInv ConcurrentKeep.
From S2P Require Import ConcurrentBudget ConcurrentHistory ConcurrentEvict ConcurrentLive ConcurrentAlone.

(** The machine and the history a schedule leads to. *)
Definition after_schedule `{EngineEnv} (p : profile) (b max_bytes : Z) (clients : list (list engine_op))
    (expirer : option (Z * (nat -> Z))) (sched : list nat) : machine * list (nat * event) :=
  run_schedule p sched (start b max_bytes (system clients expirer)) [].

Section lemmas.
Context `{EngineEnv} (p : profile) (b max_bytes : Z) (clients : list (list engine_op)).
Context (expirer : option (Z * (nat -> Z))) (sched : list nat).
Context (Hb : 0 <= b <= 62) (Hc : clients_in_range clients).

Lemma after_schedule_inv :
  exists pub, machine_inv (ops_bytes (mjoin clients)) (2 * ops_writes (mjoin clients)) pub
    (after_schedule p b max_bytes clients expirer sched).1.
Proof.
  destruct (start_inv b max_bytes clients expirer Hb Hc) as [pub Hinv].
  by destruct (run_schedule_ind p _ _ (fun _ _ => True) ltac:(done) sched _ [] _ Hinv I) as [? _].
Qed.

Lemma after_schedule_budget :
  0 <= max_bytes -> let m := (after_schedule p b max_bytes clients expirer sched).1 in
  eng_max_bytes (mc_engine m) = max_bytes /\ budget_ok m.
Proof.
  intros Hmax. destruct (start_inv b max_bytes clients expirer Hb Hc) as [pub Hinv].
  eapply (run_schedule_ind p _ _ (fun m _ => eng_max_bytes (mc_engine m) = max_bytes /\ budget_ok m)); [|exact Hinv|].
  - intros m h i t t' pub1 pub2 m' ev Hinv1 Hinv2 Hi Hts Hmove [Hm Hbud].
    destruct (move_shape _ _ _ _ _ _ _ _ Hmove) as (_ & Hm' & _).
    destruct m as [e stop ts], m' as [e' stop' ts']. cbn [mc_engine mc_threads mc_stop] in *. subst ts'.
    split; [by rewrite Hm'|]. eapply move_budget; [done|exact Hinv1|by rewrite Hm|exact Hmove|done].
  - split; [done|]. right; left. unfold start, new_engine, resident. cbn [mc_engine eng_shards eng_max_bytes].
    rewrite fmap_replicate.
    assert (Hz : forall k, zsum (replicate k (shard_bytes shard_new)) = 0).
    { intros k. induction k as [|k IH]; [done|]. exact IH. }
    by rewrite Hz.
Qed.

End lemmas.

Lemma expirer_none `{EngineEnv} b max clients : stopping (start b max (system clients None)).
Proof.
  right. apply expiring_false. unfold start, system. cbn [mc_threads]. rewrite app_nil_r.
  apply Forall_fmap, Forall_true. intros os. cbn. by induction os as [|o os IH].
Qed.

(** ** Safety *)


Definition demo_clients : list (list engine_op) :=
  [[OpSet (bs "a") (bs "123") 0; OpExpire (bs "a") 10 0; OpGet (bs "a") 5];
   [OpSet (bs "b") (bs "45") 0; OpSet (bs "c") (bs "6") 0; OpDelete (bs "b") 2]].

(** Two clients over a limit of six bytes, an expirer, the thread that stops it:
    some steps each, again and again, then the rest. *)
Definition demo_schedule : list nat :=
  mjoin (replicate 12 [0; 0; 1; 2; 1; 2; 2; 0; 1; 1]%nat) ++ replicate 30 3%nat ++
  mjoin (replicate 20 [0; 1; 2; 3]%nat).

Definition demo_expirer : option (Z * (nat -> Z)) := Some (0, fun round => 20 * Z.of_nat round).

Lemma demo_clients_range : clients_in_range demo_clients.
Proof. by repeat split. Defined.

Local Abbreviation demo_end :=
  (@after_schedule demo_env Debug 1 6 demo_clients demo_expirer demo_schedule).

Lemma demo_end_finished : forallb is_finished (mc_threads demo_end.1) = true.
Proof. vm_compute. reflexivity. Qed.

Lemma finished_idle ts : forallb is_finished ts = true -> Forall (fun t => th_pc t = Idle) ts.
Proof.
  intros Hf. apply Forall_forall. intros t Ht. rewrite forallb_forall in Hf.
  apply is_finished_spec, Hf. by apply list_elem_of_In.
Qed.


(** ** Eviction *)

(** C8: under every schedule of calls in range (as for the budget), calls that write no more than the limit allows evict
    nothing; otherwise what is evicted altogether is at most the bytes written in
    excess of the limit, and one entry more for each client: two threads that see
    the limit exceeded may both evict for it. *)
Theorem eviction_is_bounded `{EngineEnv} (p : profile) (b max_bytes S : Z) clients expirer sched :
  0 <= b <= 62 -> 0 <= max_bytes -> clients_in_range clients ->
  0 <= S -> Forall (fun o => op_bytes o <= S) (mjoin clients) ->
  let h := (after_schedule p b max_bytes clients expirer sched).2 in
  let written := ops_bytes (mjoin clients) in
  (written <= max_bytes -> Forall (fun x => is_evict x.2 = false) h) /\
  evicted_bytes h <= Z.max 0 (written - max_bytes) + S * Z.of_nat (length clients).
Proof.
  intros Hb Hmax Hc HS Hops h written. destruct (start_inv b max_bytes clients expirer Hb Hc) as [pub Hinv].
  destruct (run_evict_inv p _ _ max_bytes S (length clients) HS _ sched _ Hinv) as [Hh|[Hlt Hle]].
  - by apply start_evict_inv.
  - split; [done|]. unfold h, after_schedule. rewrite no_evictions by done. lia.
  - fold (after_schedule p b max_bytes clients expirer sched) in Hle. fold h written in Hle, Hlt. lia.
Qed.

(** Three clients write six bytes over a limit of four, and two of them see the
    counter at six before either evicts: four bytes are evicted where two are in
    excess, within the bound of eight. *)
Definition over_clients : list (list engine_op) :=
  [[OpSet (bs "a") (bs "1") 0]; [OpSet (bs "b") (bs "2") 0]; [OpSet (bs "c") (bs "3") 0]].

Definition over_schedule : list nat :=
  replicate 10 0%nat ++ replicate 3 1%nat ++ replicate 4 2%nat ++ replicate 20 1%nat ++ replicate 20 2%nat.

Local Abbreviation over_end := (@after_schedule demo_env Debug 1 4 over_clients None over_schedule).

Lemma eviction_is_bounded_witness :
  evicted_bytes over_end.2 <= 2 + 2 * 3 /\ evicted_bytes over_end.2 = 4 /\
  forallb is_finished (mc_threads over_end.1) = true /\ eng_used_bytes (mc_engine over_end.1) = 2.
Proof.
  split; [|by vm_compute].
  destruct (@eviction_is_bounded demo_env Debug 1 4 2 over_clients None over_schedule
    ltac:(done) ltac:(done) ltac:(by repeat split) ltac:(done)) as [_ Hle]; [|exact Hle].
  vm_compute. repeat constructor; discriminate.
Defined.

(** ** Linearizability *)

(** C6: under every schedule of calls in range (deadlines within the clock's, all
    bytes written together within [usize], at most [2 ^ 62] writes) the operations take effect one at a time, in the
    order of the history: replayed on the empty store, with the expirer's sweeps
    and the evictions, each gives the reply the store gives, and the last store is
    the engine's content.  Each client's calls return in order, each spelled by
    the events of its thread: its own effect, a [set] then the keys it evicted, a
    [purge_expired] its sweeps of every shard and the number of keys they removed.
    Without a byte limit nothing is evicted. *)
Theorem interleavings_linearize `{EngineEnv} (p : profile) (b max_bytes : Z) clients expirer sched :
  0 <= b <= 62 -> clients_in_range clients ->
  let '(m, h) := after_schedule p b max_bytes clients expirer sched in
  let e0 := new_engine b max_bytes in
  abs_history e0 ∅ h (store (mc_engine m)) /\
  (forall a os, clients !! a = Some os -> exists t, mc_threads m !! a = Some t /\
    client_ok (length (eng_shards e0)) os t (events_of a h)) /\
  (max_bytes = USIZE_MAX -> Forall (fun x => is_evict x.2 = false) h).
Proof.
  intros Hb Hc. destruct (start_inv b max_bytes clients expirer Hb Hc) as [pub Hinv].
  unfold after_schedule. set (m0 := start b max_bytes (system clients expirer)) in *.
  pose proof (run_history p _ _ _ sched m0 Hinv) as Hh.
  pose proof (fun a os => run_client p _ _ _ sched m0 a os Hinv) as Hcl. pose proof (run_calm p _ _ _ sched m0 Hinv) as Hcalm.
  destruct (run_schedule p sched m0 []) as [m h]. split_and!.
  - pose proof (proj2 Hh) as Hhist. cbn [start mc_engine m0] in Hhist. by rewrite new_engine_store in Hhist.
  - intros a os Ha. apply (Hcl a os). unfold m0, start, system. cbn [mc_threads].
    rewrite lookup_app_l by (rewrite length_fmap; by eapply lookup_lt_Some). by rewrite list_lookup_fmap, Ha.
  - intros ->. apply Hcalm; [done|]. by apply system_threads.
Qed.

Lemma interleavings_linearize_witness :
  exists t, mc_threads demo_end.1 !! 1%nat = Some t /\
    client_ok 2 [OpSet (bs "b") (bs "45") 0; OpSet (bs "c") (bs "6") 0; OpDelete (bs "b") 2] t
      (events_of 1 demo_end.2).
Proof.
  pose proof (@interleavings_linearize demo_env Debug 1 6 demo_clients demo_expirer demo_schedule
    ltac:(done) demo_clients_range) as Hl.
  destruct demo_end as [m h]. destruct Hl as (_ & Hl & _). exact (Hl 1%nat _ eq_refl).
Defined.

(** ** Progress *)

(** C9: under every schedule of calls in range (as for the budget), as long as some call has not returned some thread
    can make a step, so locks and the join of [ExpirationHandle::stop] never
    deadlock; and when there is no expirer, or the call that stops it has begun,
    every way to go on is finite and ends with all calls returned and all threads,
    the expirer's included, finished. *)
Theorem interleavings_finish `{EngineEnv} (p : profile) (b max_bytes : Z) clients expirer sched :
  0 <= b <= 62 -> clients_in_range clients ->
  let m := (after_schedule p b max_bytes clients expirer sched).1 in
  ((exists m', steps_to p m m') \/ Forall finished (mc_threads m)) /\
  (expirer = None \/ mc_threads m !! S (length clients) ≠ Some stopper ->
    sn (steps_to p) m /\
    exists sched', Forall finished (mc_threads (after_schedule p b max_bytes clients expirer (sched ++ sched')).1)).
Proof.
  intros Hb Hc m. destruct (after_schedule_inv p b max_bytes clients expirer sched Hb Hc) as [pub Hinv].
  split; [by eapply no_deadlock|]. intros Hex.
  assert (Hstop : stopping m).
  { assert (expirer = None \/ mc_stop m = true) as [->|?]; [|clear Hex|by left].
    { destruct Hex as [?|Hs]; [by left|]. destruct expirer as [[d clock]|]; [right|by left].
      destruct (start_inv b max_bytes clients (Some (d, clock)) Hb Hc) as [pub0 Hinv0].
      destruct (run_stopper p _ _ _ sched _ (S (length clients)) Hinv0); [|done..].
      unfold start, system. cbn [mc_threads]. rewrite lookup_app_r, length_fmap by (rewrite length_fmap; lia).
      by replace (S (length clients) - length clients)%nat with 1%nat by lia. }
    destruct (start_inv b max_bytes clients None Hb Hc) as [pub0 Hinv0].
    eapply run_stopping; [exact Hinv0|apply expirer_none]. }
  assert (Hsn : sn (steps_to p) m) by (eapply stopping_terminates; [by exists pub|done]).
  split; [done|]. unfold after_schedule. revert pub Hinv. clear Hex Hstop.
  enough (Hend : forall m h, sn (steps_to p) m -> (exists pub, machine_inv (ops_bytes (mjoin clients))
    (2 * ops_writes (mjoin clients)) pub m) -> exists sched', Forall finished (mc_threads (run_schedule p sched' m h).1)).
  { intros pub Hinv. destruct (Hend m (after_schedule p b max_bytes clients expirer sched).2 Hsn) as [sched' Hf]; [by exists pub|].
    exists sched'. by rewrite run_schedule_app. }
  clear. intros m h Hsn. revert h. induction Hsn as [m _ IH]. intros h [pub Hinv].
  destruct (no_deadlock p _ _ _ _ Hinv) as [[m' (i & ev & Hi)]|Hf]; [|by exists []].
  destruct (machine_step_move _ _ _ _ _ _ _ _ Hinv Hi) as (_ & _ & pub' & _ & _ & _ & Hinv').
  destruct (IH m' ltac:(by exists i, ev) (h ++ match ev with Some ev => [(i, ev)] | None => [] end)) as [sched' Hf];
    [by exists pub'|].
  exists (i :: sched'). simpl. rewrite Hi. destruct ev as [ev|]; [done|]. by rewrite app_nil_r in Hf.
Qed.

(** The thread that stops the expirer takes its first step, then nothing is
    scheduled. *)
Lemma interleavings_finish_witness :
  exists sched', Forall finished
    (mc_threads (@after_schedule demo_env Debug 1 6 demo_clients demo_expirer ([2; 0; 1; 2; 3]%nat ++ sched')).1).
Proof.
  destruct (@interleavings_finish demo_env Debug 1 6 demo_clients demo_expirer [2; 0; 1; 2; 3]%nat
    ltac:(done) demo_clients_range) as [_ Hf].
  destruct Hf as [_ Hf]; [right; vm_compute; discriminate|exact Hf].
Defined.

(** ** Agreement with the sequential definitions *)

(** A call whose thread is not disturbed goes through the steps of the
    machine to exactly the result and the engine that the operation defined in
    [Engine] gives, its loops included. *)
Theorem undisturbed_call `{EngineEnv} (p : profile) (m : machine) (a : nat) t o cs r e' h :
  mc_threads m !! a = Some t -> th_pc t = Idle -> th_calls t = CallOp o :: cs ->
  (forall i, locked (mc_threads m) i = false) ->
  run_op p o (mc_engine m) = (Ret r, e') ->
  exists k evs, run_schedule p (replicate k a) m h =
    (mkMachine e' (mc_stop m) (<[a := mkThread cs Idle (th_done t ++ [(o, r)])]> (mc_threads m)), h ++ evs).
Proof.
  destruct m as [e stop ts]. cbn [mc_engine mc_stop mc_threads]. intros Ha Hpc Hcs Hfree Hrun.
  assert (Hothers : forall i b u, ts !! b = Some u -> b ≠ a -> holds i u = false).
  { intros i b u Hu _. destruct (holds i u) eqn:Hh; [|done].
    assert (locked ts i = true); [|by rewrite Hfree in *]. apply locked_true. eauto. }
  destruct (runs_alone p stop ts a t Ha Hothers _ _ _ _ _ Hpc Hcs Hrun) as (k & evs & E). exists k, evs. apply E.
Qed.

Lemma undisturbed_call_witness :
  exists k evs, run_schedule (H := demo_env) Debug (replicate k 0%nat)
    (start 1 6 [worker [OpSet (bs "a") (bs "1") 0; OpGet (bs "a") 1]]) [] =
    (mkMachine (run_op (H := demo_env) Debug (OpSet (bs "a") (bs "1") 0) (new_engine 1 6)).2 false
       [mkThread [CallOp (OpGet (bs "a") 1)] Idle [(OpSet (bs "a") (bs "1") 0, ReplyUnit (Ok tt))]], [] ++ evs).
Proof.
  apply (@undisturbed_call demo_env Debug (start 1 6 [worker [OpSet (bs "a") (bs "1") 0; OpGet (bs "a") 1]]) 0
    (worker [OpSet (bs "a") (bs "1") 0; OpGet (bs "a") 1]) (OpSet (bs "a") (bs "1") 0)); try done.
Defined.
