(* ===== verification/EngineClaims.v ===== *)
(** * Properties of the engine

    The statements about [hkv-engine] this development vouches for, each with an
    instance at a concrete engine. *)

From S2P Require Import Prelude HkvError Shard ShardInv ShardOps Engine LockedOps KVEngine.
From S2P Require Import EngineInv EngineSpec Eviction EngineTheorems Accounting LruCache.

Implicit Types (k v : bytes) (now : Z).

(** The engine a sequence of calls leaves. *)
Definition engine_after `{EngineEnv} (p : profile) (b max_bytes : Z) (os : list engine_op) : MemoryEngine :=
  (run_ops p os (new_engine b max_bytes)).2.

Lemma new_engine_shards b max : 0 <= b <= 62 -> zlen (eng_shards (new_engine b max)) <= 2 ^ 62.
Proof.
  intros Hb. unfold zlen, new_engine. simpl.
  rewrite length_replicate, Z2Nat.id by (pose proof (pow2_pos b); lia). apply Z.pow_le_mono_r; lia.
Qed.

Lemma new_engine_within `{EngineEnv} b max :
  0 <= b <= 62 -> 0 <= max <= USIZE_MAX -> within_budget 0 0 (new_engine b max).
Proof.
  intros Hb Hmax. pose proof (new_engine_shards b max Hb).
  split; rewrite ?new_engine_store; [apply new_engine_inv; lia|done|done|done|done| |apply Hmax].
  unfold USIZE_MAX. lia.
Qed.

Lemma engine_after_inv `{EngineEnv} p b max os :
  0 <= b <= 62 -> 0 <= max <= USIZE_MAX -> forallb op_in_range os = true ->
  ops_bytes os <= USIZE_MAX -> ops_writes os <= 2 ^ 62 -> eng_inv (engine_after p b max os).
Proof.
  intros Hb Hmax Hos HB HW. unfold engine_after.
  pose proof (new_engine_within b max Hb Hmax) as HI.
  pose proof (new_engine_shards b max Hb).
  destruct (runs_inv _ _ _ (within_ops p os 0 0 _ HI Hos ltac:(lia) ltac:(unfold USIZE_MAX; lia)))
    as (rs & e' & E & HI' & _). rewrite E. by apply HI'.
Qed.

(** ** Whole executions *)

(** C1: every sequence of engine calls on a fresh engine without a byte limit behaves
    like the abstract key-value store with deadlines: the replies and the content left
    are the store's, for any number of shards that fit the address space, any key
    hash, any map iteration order and either build profile; the one call that does not
    return is an [expire] of a readable key whose deadline is past the range of
    [Instant]: it panics and leaves the content as it is.  A key and its value together
    are no longer than [usize::MAX]. *)
Theorem executions_refine_store `{EngineEnv} (p : profile) (n : Z) (os : list engine_op) :
  shards_fit n -> forallb op_sized os = true ->
  exists e0 o e', with_shard_count p n = Ret e0 /\ run_ops p os e0 = (o, e') /\ abs_exec os ∅ = (o, store e').
Proof.
  intros Hn Hos. unfold with_shard_count. rewrite construct_run by done. destruct (shards_fit_bound n Hn) as [_ Hb].
  set (e0 := new_engine _ _). pose proof (run_ops_exec p os e0 ltac:(apply new_engine_inv; lia) eq_refl Hos) as Hr.
  destruct (run_ops p os e0) as [o e'] eqn:E. unfold e0 in Hr. rewrite new_engine_store in Hr. by exists e0, o, e'.
Qed.

Definition sample_ops : list engine_op :=
  [OpSet (bs "a") (bs "1") 0; OpExpire (bs "a") 10 5; OpTtl (bs "a") 8; OpGet (bs "a") 14;
   OpSet (bs "b") (bs "2") 14; OpPurge 15; OpGet (bs "a") 15; OpExpire (bs "a") INSTANT_MAX 15; OpDelete (bs "b") 16].

Lemma executions_refine_store_witness :
  exists e0 o e', @with_shard_count demo_env Release 4 = Ret e0 /\
    @run_ops demo_env Release sample_ops e0 = (o, e') /\ abs_exec sample_ops ∅ = (o, store e').
Proof. apply (@executions_refine_store demo_env Release 4 sample_ops); vm_compute; done. Defined.

(** C2: on a fresh engine with any byte limit and any number of shards that fit the
    address space, every sequence of calls whose deadlines are in the range of
    [Instant], that writes at most [usize::MAX] bytes in at most [2 ^ 62] writes,
    terminates without a panic, and afterwards the byte counter is exactly the
    total size of the keys and values held, and is within the limit. *)
Theorem executions_keep_budget `{EngineEnv} (p : profile) (n max_bytes : Z) (os : list engine_op) :
  shards_fit n -> 0 <= max_bytes <= USIZE_MAX -> forallb op_in_range os = true ->
  ops_bytes os <= USIZE_MAX -> ops_writes os <= 2 ^ 62 ->
  exists e0 rs e', with_shard_count_and_capacity p n max_bytes = Ret e0 /\
    run_ops p os e0 = (Ret rs, e') /\
    eng_used_bytes e' = store_bytes (store e') /\ eng_used_bytes e' <= max_bytes.
Proof.
  intros Hn Hmax Hos HB HW. rewrite construct_run by done. destruct (shards_fit_bound n Hn) as [_ Hb].
  set (b := Z.log2_up (Z.max n 1)) in *.
  pose proof (new_engine_shards b max_bytes Hb) as Hsh.
  pose proof (new_engine_within b max_bytes Hb Hmax) as HI.
  destruct (runs_inv _ _ _ (within_ops p os 0 0 _ HI Hos ltac:(lia) ltac:(unfold USIZE_MAX; lia)))
    as (rs & e' & E & HI' & Em).
  exists (new_engine b max_bytes), rs, e'. split_and!; [done..|by eapply used_exact|].
  pose proof (wb_used _ _ _ HI') as Hu. rewrite (used_exact _ _ _ HI'). by rewrite Em in Hu.
Qed.

Definition tight_ops : list engine_op :=
  [OpSet (bs "a") (bs "1234") 0; OpSet (bs "b") (bs "1234") 0; OpGet (bs "a") 1;
   OpSet (bs "c") (bs "1234") 2; OpGet (bs "b") 3].

Lemma executions_keep_budget_witness :
  exists e0 rs e', @with_shard_count_and_capacity demo_env Debug 1 10 = Ret e0 /\
    @run_ops demo_env Debug tight_ops e0 = (Ret rs, e') /\
    eng_used_bytes e' = store_bytes (store e') /\ eng_used_bytes e' <= 10.
Proof.
  apply (@executions_keep_budget demo_env Debug 1 10 tight_ops); try (vm_compute; done).
Defined.

(** ** One shard *)

Lemma cache_ops_app max os os' es :
  cache_ops max (os ++ os') es =
    let '(rs, es1) := cache_ops max os es in let '(rs', es2) := cache_ops max os' es1 in (rs ++ rs', es2).
Proof.
  revert es. induction os as [|o os IH]; intros es; cbn [app cache_ops]; [by destruct (cache_ops max os' es)|].
  destruct (cache_op max o es) as [r es1]. rewrite IH. destruct (cache_ops max os es1) as [rs es2].
  by destruct (cache_ops max os' es2).
Qed.

(** In the specification a key just written is found exactly if it fits the limit. *)
Lemma cache_keeps_newest max k v es now :
  e_value <$> live_entry now k (fitting max (spec_set k v es)) = if zlen k + zlen v <=? max then Some v else None.
Proof.
  unfold spec_set. set (en := mkEntry k v None). destruct (Z.leb_spec (zlen k + zlen v) max) as [Hm|Hm].
  - destruct (fitting_last max (remove_key k es) en Hm) as (es' & -> & [l Hs]).
    assert (Hn : find_entry k es' = None).
    { pose proof (find_entry_remove k es) as Hr. rewrite Hs, find_entry_app in Hr. by destruct (find_entry k l). }
    unfold live_entry. rewrite find_entry_app, Hn. cbn. by rewrite decide_True.
  - by rewrite fitting_nothing.
Qed.

(** C19: an engine with one shard and any byte limit is an LRU cache: every sequence of
    calls in range (deadlines within the clock's, all bytes written together within
    [usize], at most [2 ^ 62] writes) answers as the cache that keeps its entries from least to most recently used
    and, after a write, the longest suffix that fits the limit; the shard ends with
    that cache's entries in their order.  In particular a key just written is read back
    exactly if its entry fits the limit by itself. *)
Theorem single_shard_is_lru_cache `{EngineEnv} (p : profile) (n max_bytes : Z) (os : list engine_op) :
  n <= 1 -> 0 <= max_bytes <= USIZE_MAX -> forallb op_in_range os = true ->
  ops_bytes os <= USIZE_MAX -> ops_writes os <= 2 ^ 62 ->
  exists e0 rs e' es, with_shard_count_and_capacity p n max_bytes = Ret e0 /\
    run_ops p os e0 = (Ret rs, e') /\ (rs, es) = cache_ops max_bytes os [] /\ entries <$> eng_shards e' = [es] /\
    forall os0 k v t t', os = os0 ++ [OpSet k v t; OpGet k t'] ->
      last rs = Some (ReplyValue (Ok (if zlen k + zlen v <=? max_bytes then Some v else None))).
Proof.
  intros Hn Hmax Hos HB HW. rewrite construct_run by by apply shards_fit_one. replace (Z.max n 1) with 1 by lia.
  change (Z.log2_up 1) with 0. pose proof (new_engine_within 0 max_bytes ltac:(lia) Hmax) as HI.
  assert (Hrep : eng_rep (new_engine 0 max_bytes) [[]]) by exact (wb_inv _ _ _ HI).
  destruct (runs_inv _ _ _ (single_ops p os 0 0 _ [] HI Hrep Hos ltac:(lia) ltac:(unfold USIZE_MAX; lia)))
    as (rs & e' & E & es & Ec & He').
  exists (new_engine 0 max_bytes), rs, e', es. split_and!; [done..|by rewrite <- (eng_rep_entries _ _ He')|].
  intros os0 k v t t' ->. change (eng_max_bytes _) with max_bytes in Ec. rewrite cache_ops_app in Ec.
  destruct (cache_ops max_bytes os0 []) as [rs0 es0]. cbn [cache_ops cache_op] in Ec.
  rewrite cache_keeps_newest in Ec. injection Ec as -> _.
  by rewrite last_app, last_cons_cons.
Qed.

Lemma single_shard_is_lru_cache_witness :
  exists e0 rs e', @with_shard_count_and_capacity demo_env Debug 1 10 = Ret e0 /\
    @run_ops demo_env Debug tight_ops e0 = (Ret rs, e') /\
    e_key <$> mjoin (entries <$> eng_shards e') = [bs "a"; bs "c"].
Proof.
  destruct (@single_shard_is_lru_cache demo_env Debug 1 10 tight_ops) as (e0 & rs & e' & es & E0 & E1 & E2 & E3 & _);
    [done|done|done|vm_compute; done|vm_compute; done|].
  exists e0, rs, e'. split_and!; [done..|]. rewrite E3. vm_compute in E2. injection E2 as _ ->. vm_compute. reflexivity.
Defined.

(** With two shards a key can be evicted by the call that writes it, although its
    entry fits the limit and an older one is left. *)
Lemma newest_entry_lost :
  (@run_ops demo_env Debug [OpSet (bs "a") (bs "12345") 0; OpSet (bs "b") (bs "12345") 1; OpGet (bs "b") 2; OpGet (bs "a") 2]
    (new_engine 1 10)).1 = Ret [ReplyUnit (Ok tt); ReplyUnit (Ok tt); ReplyValue (Ok None); ReplyValue (Ok (Some (bs "12345")))].
Proof. vm_compute. reflexivity. Qed.

(** ** The byte limit *)

Section engine_claims.
Context `{EngineEnv} (p : profile).

(** C18: [set] on an engine with a byte limit returns [Ok(())]; the entry becomes
    the most recently used of its shard, then, while the resident bytes exceed
    the limit and not one step longer, the first non-empty shard in round-robin
    order from the cursor loses its least recently used entry; the counter ends
    at or below the limit and every key left keeps its value.  The bytes held and
    written are within [usize], and in a debug build the cursor is not about to
    overflow. *)
Theorem set_evicts_in_lru_order e k v now :
  eng_inv e -> zlen k + zlen v + store_bytes (store e) <= USIZE_MAX ->
  0 <= eng_max_bytes e < USIZE_MAX -> 0 <= eng_eviction_cursor e <= USIZE_MAX ->
  cursor_safe p (eng_eviction_cursor e) (2 + Z.of_nat (size (store e)) + zlen (eng_shards e)) ->
  exists e', set p k v now e = (Ret (Ok tt), e') /\ eng_inv e' /\
    eng_used_bytes e' <= eng_max_bytes e /\
    evict_run (eng_max_bytes e) (eng_eviction_cursor e)
      (alter (spec_set k v) (shard_index e k) (entries <$> eng_shards e))
      (entries <$> eng_shards e') /\
    store e' ⊆ <[k := (v, None)]> (store e).
Proof.
  intros He Hsz Hmax Hc Hsafe. set (ess := entries <$> eng_shards e) in *.
  destruct (eng_rep_shard e ess k He) as [es Hes]. destruct (rep_totals e ess He) as [Hres Hcnt].
  assert (Hlen : zlen ess = zlen (eng_shards e)) by (unfold zlen, ess; by rewrite length_fmap).
  destruct (runs_inv _ _ _ (set_evicts p e ess es k v now He Hes ltac:(lia) Hmax Hc
    ltac:(by rewrite Hcnt, Hlen))) as (r & e' & E & -> & ess' & He' & _ & _ & _ & Hrun & Hsub).
  exists e'. pose proof (evict_run_bound _ _ _ _ Hrun) as Hb.
  split_and!; [done|by eapply eng_rep_inv| | |done].
  - rewrite (er_used _ _ He'), wrap64_small; [done|]. pose proof (resident_bytes_nonneg ess'). lia.
  - rewrite <- (eng_rep_entries _ _ He').
    by rewrite (list_alter_as_insert _ _ _ _ Hes).
Qed.

(** A key set is read back with its value until it is overwritten, deleted
    or expired, other keys are unaffected, and a deleted key is gone; reads at
    any later time included. *)
Theorem set_get_delete_roundtrip e k k' v now now' :
  eng_inv e -> eng_max_bytes e = USIZE_MAX -> zlen k + zlen v <= USIZE_MAX -> k' ≠ k ->
  runs (_ ← set p k v now; a ← get k now'; b ← get k' now'; c ← delete k now'; d ← get k now';
        mret (a, b, c, d)) e (fun r _ =>
    r = (Ok (Some v), Ok (fst <$> live now' k' (store e)), Ok true, Ok None)).
Proof.
  intros He Hmax Hsz Hne.
  mstep. eapply runs_mono; [by apply set_refines|]; cbn beta; intros _ e1 (He1 & _ & _ & E1).
  mstep. eapply runs_mono; [by apply get_refines|]; cbn beta; intros a e2 (He2 & _ & -> & E2).
  mstep. eapply runs_mono; [by apply get_refines|]; cbn beta; intros b e3 (He3 & _ & -> & E3).
  mstep. eapply runs_mono; [by apply delete_refines|]; cbn beta; intros c e4 (He4 & _ & -> & E4).
  mstep. eapply runs_mono; [by apply get_refines|]; cbn beta; intros d e5 (He5 & _ & -> & E5).
  mstep. rewrite E4, live_delete_eq, E3, live_settle, E2, !live_settle, E1 by done.
  rewrite live_insert_eq, live_insert_ne by done. done.
Qed.

(** C25: a time-to-live [d] set by [expire] at [t0] on a readable key, the deadline in
    the range of [Instant], makes the key readable strictly before [t0 + d] and missing
    from then on: to a [get] at any later time [t1], and likewise to a [ttl], which
    reports the time left; and on an engine without a byte limit a later [set] removes
    the deadline. *)
Theorem expire_deadline e k v d t0 :
  eng_inv e -> t0 + d <= INSTANT_MAX -> fst <$> live t0 k (store e) = Some v ->
  exists e1, expire k d t0 e = (Ret (Ok tt), e1) /\ forall t1, t0 <= t1 ->
    (get k t1 e1).1 = Ret (Ok (if t1 <? t0 + d then Some v else None)) /\
    (ttl k t1 e1).1 = Ret (Ok (if t1 <? t0 + d then ExpiresIn (t0 + d - t1) else Missing)) /\
    (eng_max_bytes e = USIZE_MAX -> forall v' t2, zlen k + zlen v' <= USIZE_MAX ->
      ((_ ← set p k v' t1; s ← ttl k t2; a ← get k t2; mret (s, a)) e1).1 = Ret (Ok NoExpiry, Ok (Some v'))).
Proof.
  intros He Hd Hv. apply fmap_Some in Hv as ([v0 d0] & Hlive & ->).
  destruct (runs_inv _ _ _ (expire_refines e k d t0 He ltac:(done))) as (x & e1 & Ee & He1 & Hc1 & -> & E1).
  rewrite Hlive in Ee. exists e1. split; [done|]. intros t1 Ht.
  assert (Hl : live t1 k (store e1) = if t1 <? t0 + d then Some (v0, Some (t0 + d)) else None).
  { rewrite E1. unfold abs_expire. rewrite Hlive. unfold live. rewrite lookup_insert_eq. unfold value_expired. simpl.
    rewrite Z.ltb_antisym. by destruct (t0 + d <=? t1). }
  split_and!.
  - destruct (runs_inv _ _ _ (get_refines e1 k t1 He1)) as (a & e2 & E & _ & _ & -> & _). rewrite E, Hl. by destruct (t1 <? t0 + d).
  - destruct (runs_inv _ _ _ (ttl_refines e1 k t1 He1)) as (a & e2 & E & _ & _ & -> & _). rewrite E. unfold abs_ttl. rewrite Hl.
    by destruct (t1 <? t0 + d).
  - intros Hmax v' t2 Hsz.
    assert (Hr : runs (_ ← set p k v' t1; s ← ttl k t2; a ← get k t2; mret (s, a)) e1 (fun r _ => r = (Ok NoExpiry, Ok (Some v')))).
    { mstep. eapply runs_mono; [apply set_refines; [done|unfold same_config in *; naive_solver congruence|done]|];
        cbn beta; intros _ e2 (He2 & _ & _ & E2).
      mstep. eapply runs_mono; [by apply ttl_refines|]; cbn beta; intros s e3 (He3 & _ & -> & E3).
      mstep. eapply runs_mono; [by apply get_refines|]; cbn beta; intros a e4 (He4 & _ & -> & E4).
      mstep. rewrite E3, live_settle by done. unfold abs_ttl. by rewrite E2, live_insert_eq. }
    destruct (runs_inv _ _ _ Hr) as (r & e2 & E & ->). by rewrite E.
Qed.

(** [expire] with a duration that takes the deadline past the clock's range
    panics when the key is live, instead of returning an error; the engine is
    left as it was. *)
Theorem expire_overflow_panics e k d now :
  eng_inv e -> is_Some (live now k (store e)) -> INSTANT_MAX < now + d ->
  expire k d now e = (Panic, e).
Proof. apply expire_panics. Qed.

(** C26: [purge_expired] removes exactly the entries whose deadline has passed and
    returns their number; the invariant holds afterwards, and the counter is the size
    of what remains, modulo its width; for any map iteration order. *)
Theorem purge_removes_expired e now :
  eng_inv e ->
  exists n e', purge_expired now e = (Ret n, e') /\ eng_inv e' /\
    store e' = filter (fun kx => value_expired now kx.2 = false) (store e) /\
    n = Z.of_nat (size (store e)) - Z.of_nat (size (store e')) /\
    eng_used_bytes e' = wrap64 (store_bytes (store e')).
Proof.
  intros He. destruct (runs_inv _ _ _ (purge_refines e now He)) as (n & e' & E & He' & _ & Es & En).
  exists n, e'. split_and!; [done..|]. rewrite (er_used _ _ He'). f_equal.
  by apply (rep_totals e').
Qed.

End engine_claims.

(** [normalize_shard_count] yields the smallest power of two that is at least
    the requested count and at least one, and the mask built from it sends every
    hash to an existing shard. *)
Theorem shard_count_and_mask `{EngineEnv} (p : profile) (n max_bytes : Z) :
  shards_fit n ->
  exists c e, normalize_shard_count p n = Ret c /\
    (exists b, 0 <= b <= 62 /\ c = 2 ^ b) /\ n <= c /\ 1 <= c /\
    (forall b, 0 <= b -> n <= 2 ^ b -> c <= 2 ^ b) /\
    with_shard_count_and_capacity p n max_bytes = Ret e /\ zlen (eng_shards e) = c /\
    forall k, (shard_index e k < length (eng_shards e))%nat.
Proof.
  intros Hn. destruct (shards_fit_bound n Hn) as [Hn62 [H0 H62]].
  set (b := Z.log2_up (Z.max n 1)) in *. exists (2 ^ b), (new_engine b max_bytes).
  assert (Hc : Z.max n 1 <= 2 ^ b).
  { destruct (Z.eq_dec (Z.max n 1) 1) as [E|E]; [unfold b; rewrite E; done|].
    apply (Z.log2_up_spec (Z.max n 1)). lia. }
  split_and!; [apply normalize_run; lia|by exists b|lia|lia| |by apply construct_run| |].
  - intros b' Hb' Hle. apply Z.pow_le_mono_r; [lia|]. apply Z.log2_up_le_pow2; [lia|].
    pose proof (pow2_pos b' Hb'). lia.
  - unfold zlen, new_engine. simpl. rewrite length_replicate, Z2Nat.id; [done|]. lia.
  - intros k. eapply eng_rep_masked. apply (new_engine_inv b max_bytes). lia.
Qed.

(** ** Instances *)

(** Two shards, at most ten bytes: "a" and "c" share a shard. *)
Definition tight_engine : MemoryEngine :=
  @engine_after demo_env Debug 1 10
    [OpSet (bs "a") (bs "1234") 0; OpSet (bs "b") (bs "123") 0; OpGet (bs "a") 1].

(** Four shards without a limit; "a" expires at time 15. *)
Definition timed_engine : MemoryEngine :=
  @engine_after demo_env Debug 2 USIZE_MAX
    [OpSet (bs "a") (bs "1") 0; OpSet (bs "b") (bs "2") 0; OpExpire (bs "a") 10 5].

Lemma set_evicts_in_lru_order_witness :
  exists e', @set demo_env Debug (bs "c") (bs "5678") 2 tight_engine = (Ret (Ok tt), e') /\
    @eng_inv demo_env e' /\ eng_used_bytes e' <= 10 /\
    evict_run (eng_max_bytes tight_engine) (eng_eviction_cursor tight_engine)
      (alter (spec_set (bs "c") (bs "5678")) (@shard_index demo_env tight_engine (bs "c"))
         (entries <$> eng_shards tight_engine)) (entries <$> eng_shards e') /\
    store e' ⊆ <[bs "c" := (bs "5678", None)]> (store tight_engine).
Proof.
  apply (@set_evicts_in_lru_order demo_env Debug tight_engine (bs "c") (bs "5678") 2).
  - by apply engine_after_inv.
  - vm_compute. done.
  - vm_compute. done.
  - vm_compute. done.
  - vm_compute. done.
Defined.

Lemma set_get_delete_roundtrip_witness :
  runs (_ ← @set demo_env Release (bs "a") (bs "9") 16; a ← @get demo_env (bs "a") 17;
        b ← @get demo_env (bs "b") 17; c ← @delete demo_env (bs "a") 17;
        d ← @get demo_env (bs "a") 17; mret (a, b, c, d)) timed_engine
    (fun r _ => r = (Ok (Some (bs "9")), Ok (fst <$> live 17 (bs "b") (store timed_engine)),
                     Ok true, Ok None)).
Proof.
  apply (@set_get_delete_roundtrip demo_env Release); [by apply engine_after_inv|done|done|done].
Defined.

Lemma expire_deadline_witness :
  exists e1, @expire demo_env (bs "b") 10 1 timed_engine = (Ret (Ok tt), e1) /\
    (@get demo_env (bs "b") 10 e1).1 = Ret (Ok (Some (bs "2"))) /\ (@get demo_env (bs "b") 11 e1).1 = Ret (Ok None) /\
    (@ttl demo_env (bs "b") 4 e1).1 = Ret (Ok (ExpiresIn 7)).
Proof.
  destruct (@expire_deadline demo_env Debug timed_engine (bs "b") (bs "2") 10 1) as (e1 & E & Hd);
    [by apply engine_after_inv|done|vm_compute; done|].
  exists e1. split; [exact E|]. split_and!; [exact (proj1 (Hd 10 ltac:(lia)))|exact (proj1 (Hd 11 ltac:(lia)))|
    exact (proj1 (proj2 (Hd 4 ltac:(lia))))].
Defined.

Lemma expire_overflow_panics_witness :
  @expire demo_env (bs "b") INSTANT_MAX 1 timed_engine = (Panic, timed_engine).
Proof.
  apply (@expire_overflow_panics demo_env timed_engine (bs "b") INSTANT_MAX 1).
  - by apply engine_after_inv.
  - exists (bs "2", None). vm_compute. done.
  - done.
Defined.

Lemma purge_removes_expired_witness :
  exists n e', @purge_expired demo_env 15 timed_engine = (Ret n, e') /\ @eng_inv demo_env e' /\
    store e' = filter (fun kx => value_expired 15 kx.2 = false) (store timed_engine) /\
    n = Z.of_nat (size (store timed_engine)) - Z.of_nat (size (store e')) /\
    eng_used_bytes e' = wrap64 (store_bytes (store e')).
Proof. apply (@purge_removes_expired demo_env timed_engine 15). by apply engine_after_inv. Defined.

Lemma shard_count_and_mask_witness :
  exists c e, normalize_shard_count Debug 5 = Ret c /\
    (exists b, 0 <= b <= 62 /\ c = 2 ^ b) /\ 5 <= c /\ 1 <= c /\
    (forall b, 0 <= b -> 5 <= 2 ^ b -> c <= 2 ^ b) /\
    @with_shard_count_and_capacity demo_env Debug 5 100 = Ret e /\ zlen (eng_shards e) = c /\
    forall k, (@shard_index demo_env e k < length (eng_shards e))%nat.
Proof. apply (@shard_count_and_mask demo_env Debug 5 100). vm_compute. done. Defined.
