(* ===== verification/EngineTests.v ===== *)
(** * The unit tests of the engine (hkv-engine/src/memory.rs, [mod tests])

    The tests as programs of the model: a failed assertion or [unwrap] is a panic.
    [clock i] is the time at the [i]-th call; a sleep moves the calls after it. *)

From S2P Require Import Prelude Assertions HkvError Shard ShardInv ShardOps Engine LockedOps KVEngine.
From S2P Require Import EngineInv EngineSpec Eviction EngineTheorems Accounting LruCache.

(** A test on an engine of its own. *)
Definition test_on (o : outcome MemoryEngine) (t : EM unit) : outcome unit := engine ← o; (t engine).1.

(** [Duration::from_millis]. *)
Definition from_millis (ms : Z) : Z := ms * 1000000.

(** ** The tests *)

Section tests.
Context `{EngineEnv} (p : profile) (clock : nat -> Z).

Definition alpha : bytes := bs "alpha".
Definition value : bytes := bs "value".

Definition set_get_roundtrip : outcome unit :=
  test_on (with_shard_count p 4) (
    r ← set p alpha value (clock 0%nat); _ ← unwrap r;
    r ← get alpha (clock 1%nat); o ← unwrap r; v ← unwrap_some o;
    assert_eq v value).

Definition delete_removes_key : outcome unit :=
  test_on (with_shard_count p 2) (
    r ← set p alpha value (clock 0%nat); _ ← unwrap r;
    r ← delete alpha (clock 1%nat); b ← unwrap r; _ ← assert b;
    r ← get alpha (clock 2%nat); o ← unwrap r;
    assert (is_none o)).

(** The sleep is between the second and the third call. *)
Definition expire_hides_value : outcome unit :=
  test_on (with_shard_count p 2) (
    r ← set p alpha value (clock 0%nat); _ ← unwrap r;
    r ← expire alpha (from_millis 1) (clock 1%nat); _ ← unwrap r;
    r ← get alpha (clock 2%nat); o ← unwrap r;
    assert (is_none o)).

Definition purge_expired_removes_entries : outcome unit :=
  test_on (with_shard_count p 2) (
    r ← set p alpha value (clock 0%nat); _ ← unwrap r;
    r ← expire alpha (from_millis 1) (clock 1%nat); _ ← unwrap r;
    removed ← purge_expired (clock 2%nat);
    _ ← assert_eq removed 1;
    r ← get alpha (clock 3%nat); o ← unwrap r;
    assert (is_none o)).

(** The sweeps of the expirer between [start_expirer] and [stop], at any times: no
    other thread calls the engine then, and [stop] waits for the last one. *)
Fixpoint expirer_sweeps (times : list Z) : EM unit :=
  match times with
  | [] => mret tt
  | now :: times => _ ← purge_expired now; expirer_sweeps times
  end.

Definition expirer_thread_clears_expired (times : list Z) : outcome unit :=
  test_on (with_shard_count p 2) (
    r ← set p alpha value (clock 0%nat); _ ← unwrap r;
    r ← expire alpha (from_millis 1) (clock 1%nat); _ ← unwrap r;
    _ ← expirer_sweeps times;
    r ← get alpha (clock 2%nat); o ← unwrap r;
    assert (is_none o)).

Definition evicts_lru_by_bytes : outcome unit :=
  test_on (with_shard_count_and_capacity p 1 10) (
    r ← set p (bs "a") (bs "1234") (clock 0%nat); _ ← unwrap r;
    r ← set p (bs "b") (bs "1234") (clock 1%nat); _ ← unwrap r;
    r ← get (bs "a") (clock 2%nat); _ ← unwrap r;
    r ← set p (bs "c") (bs "1234") (clock 3%nat); _ ← unwrap r;
    r ← get (bs "b") (clock 4%nat); o ← unwrap r; _ ← assert (is_none o);
    r ← get (bs "a") (clock 5%nat); o ← unwrap r; _ ← assert (is_some o);
    r ← get (bs "c") (clock 6%nat); o ← unwrap r; assert (is_some o)).

(** The sleep is between the fourth and the fifth call. *)
Definition ttl_reports_missing_or_expiry : outcome unit :=
  test_on (with_shard_count p 2) (
    r ← ttl (bs "missing") (clock 0%nat); s ← unwrap r; _ ← assert_eq s Missing;
    r ← set p alpha value (clock 1%nat); _ ← unwrap r;
    r ← ttl alpha (clock 2%nat); s ← unwrap r; _ ← assert_eq s NoExpiry;
    r ← expire alpha (from_millis 1) (clock 3%nat); _ ← unwrap r;
    r ← ttl alpha (clock 4%nat); s ← unwrap r; assert_eq s Missing).

(** ** They pass *)

(** The engine holds [s], without a limit. *)
Definition at_store (s : kv) (e : MemoryEngine) : Prop := eng_inv e /\ eng_max_bytes e = USIZE_MAX /\ store e = s.

(** Four shards fit the address space. *)
Context (Hfit : 4 * shard_size <= ISIZE_MAX).

Lemma test_on_ok n (t : EM unit) :
  n <= 4 -> (forall e, at_store ∅ e -> runs t e (fun _ _ => True)) -> test_on (with_shard_count p n) t = Ret tt.
Proof.
  intros Hn Ht. assert (Hs : shards_fit n).
  { unfold shards_fit. pose proof shard_size_range. assert (2 ^ Z.log2_up (Z.max n 1) <= 4); [|nia].
    change 4 with (2 ^ 2). apply Z.pow_le_mono_r; [lia|]. apply Z.log2_up_le_pow2; lia. }
  unfold test_on, with_shard_count. rewrite construct_run by done. cbn [mbind outcome_bind].
  destruct (shards_fit_bound n Hs) as [_ [? ?]].
  destruct (runs_inv _ _ _ (Ht (new_engine (Z.log2_up (Z.max n 1)) USIZE_MAX)
    ltac:(split; [apply new_engine_inv; lia|split; [done|apply new_engine_store]]))) as ([] & e' & E & _).
  by rewrite E.
Qed.

Lemma at_keep s e e' : eng_max_bytes e = USIZE_MAX -> eng_inv e' -> same_config e e' -> store e' = s -> at_store s e'.
Proof. intros Hm He (_ & Ex & _) Hs. split; [done|]. split; [by rewrite Ex|done]. Qed.

Lemma at_set s e k v now (Q : _ -> _ -> Prop) : at_store s e -> zlen k + zlen v <= USIZE_MAX ->
  (forall e', at_store (<[k := (v, None)]> s) e' -> Q (Ok tt) e') -> runs (set p k v now) e Q.
Proof.
  intros (He & Hm & <-) Hz HQ. eapply runs_mono; [by apply set_refines|]. cbn beta.
  intros r e' (He' & Hc & -> & Hst). apply HQ. by eapply at_keep.
Qed.

Lemma at_get s e k now (Q : _ -> _ -> Prop) : at_store s e ->
  (forall e', at_store (settle now k s) e' -> Q (Ok (fst <$> live now k s)) e') -> runs (get k now) e Q.
Proof.
  intros (He & Hm & <-) HQ. eapply runs_mono; [by apply get_refines|]. cbn beta.
  intros r e' (He' & Hc & -> & Hst). apply HQ. by eapply at_keep.
Qed.

Lemma at_ttl s e k now (Q : _ -> _ -> Prop) : at_store s e ->
  (forall e', at_store (settle now k s) e' -> Q (Ok (abs_ttl now k s)) e') -> runs (ttl k now) e Q.
Proof.
  intros (He & Hm & <-) HQ. eapply runs_mono; [by apply ttl_refines|]. cbn beta.
  intros r e' (He' & Hc & -> & Hst). apply HQ. by eapply at_keep.
Qed.

Lemma at_delete s e k now (Q : _ -> _ -> Prop) : at_store s e ->
  (forall e', at_store (base.delete k s) e' -> Q (Ok (bool_decide (is_Some (live now k s)))) e') -> runs (delete k now) e Q.
Proof.
  intros (He & Hm & <-) HQ. eapply runs_mono; [by apply delete_refines|]. cbn beta.
  intros r e' (He' & Hc & -> & Hst). apply HQ. by eapply at_keep.
Qed.

Lemma at_expire s e k v d now (Q : _ -> _ -> Prop) : at_store s e -> live now k s = Some (v, None) -> now + d <= INSTANT_MAX ->
  (forall e', at_store (<[k := (v, Some (now + d))]> s) e' -> Q (Ok tt) e') -> runs (expire k d now) e Q.
Proof.
  intros (He & Hm & <-) Hl Hd HQ. eapply runs_mono; [by apply expire_refines|]. cbn beta. unfold abs_expire. rewrite Hl.
  intros r e' (He' & Hc & -> & Hst). apply HQ. by eapply at_keep.
Qed.

(** Reading and sweeping an entry whose time has come. *)
Lemma live_expired (now : Z) (k v : bytes) (d : Z) (s : kv) : d <= now -> live now k (<[k := (v, Some d)]> s) = None.
Proof. intros Hd. unfold live. rewrite lookup_insert_eq. cbn. by rewrite (proj2 (Z.leb_le _ _)). Qed.

Lemma ttl_unlimited (now : Z) (k v : bytes) (s : kv) : abs_ttl now k (<[k := (v, None)]> s) = NoExpiry.
Proof. unfold abs_ttl. by rewrite live_insert_eq. Qed.

Lemma ttl_past (now : Z) (k v : bytes) (d : Z) (s : kv) : d <= now -> abs_ttl now k (<[k := (v, Some d)]> s) = Missing.
Proof. intros Hd. unfold abs_ttl. by rewrite live_expired. Qed.

Lemma at_purge_one s e (k v : bytes) (d now : Z) (Q : _ -> _ -> Prop) : at_store (<[k := (v, Some d)]> s) e -> s = <[k := (v, None)]> ∅ -> d <= now ->
  (forall e', at_store ∅ e' -> Q 1 e') -> runs (purge_expired now) e Q.
Proof.
  intros (He & Hm & Hs) -> Hd HQ. eapply runs_mono; [by apply purge_refines|]. cbn beta. intros n e' (He' & Hc & Hst & ->).
  rewrite insert_insert_eq in Hs.
  assert (E : store e' = ∅).
  { rewrite Hst, Hs. apply map_empty. intros k'. apply map_lookup_filter_None. right.
    intros x [[<- <-]|[_ Hx]]%lookup_insert_Some; [|by rewrite lookup_empty in Hx].
    cbn. by rewrite (proj2 (Z.leb_le _ _)). }
  rewrite E, Hs, map_size_insert_None, map_size_empty by done. apply HQ. by eapply at_keep.
Qed.

(** The readings of the clock in a test. *)
Record test_clock : Prop := mkTestClock {
  tc_mono : forall i, clock i <= clock (S i);
  tc_range : forall i, clock i + from_millis 5 <= INSTANT_MAX
}.

(** The test sleeps for five milliseconds before call [i]. *)
Definition sleeps_before (i : nat) : Prop := clock (pred i) + from_millis 5 <= clock i.

Ltac steps := repeat first [mstep | progress cbn [unwrap unwrap_some assert]].
Ltac setting := eapply at_set; [eassumption|vm_compute; discriminate|]; intros; steps.
Ltac getting := eapply at_get; [eassumption|]; intros; steps.

Lemma set_get_roundtrip_passes : set_get_roundtrip = Ret tt.
Proof.
  apply test_on_ok; [done|]. intros e He. mstep. setting. getting. rewrite live_insert_eq. cbn. steps.
  unfold assert_eq. rewrite bool_decide_true by done. done.
Qed.

Lemma delete_removes_key_passes : delete_removes_key = Ret tt.
Proof.
  apply test_on_ok; [done|]. intros e He. mstep. setting. eapply at_delete; [eassumption|]. intros. steps.
  rewrite live_insert_eq, bool_decide_true by eauto. steps. getting. by rewrite live_delete_eq.
Qed.

Lemma expire_hides_value_passes : test_clock -> sleeps_before 2 -> expire_hides_value = Ret tt.
Proof.
  intros [Hm Hr] Hs. apply test_on_ok; [done|]. intros e He. mstep. setting.
  eapply at_expire; [eassumption|apply live_insert_eq|specialize (Hr 1%nat); unfold from_millis in *; lia|]. intros. steps.
  getting. rewrite live_expired; [done|]. unfold sleeps_before, from_millis in *. cbn in Hs. lia.
Qed.

Lemma purge_expired_removes_entries_passes : test_clock -> sleeps_before 2 -> purge_expired_removes_entries = Ret tt.
Proof.
  intros [Hm Hr] Hs. apply test_on_ok; [done|]. intros e He. mstep. setting.
  eapply at_expire; [eassumption|apply live_insert_eq|specialize (Hr 1%nat); unfold from_millis in *; lia|]. intros. steps.
  eapply at_purge_one; [eassumption|done|unfold sleeps_before, from_millis in *; cbn in Hs; lia|]. intros. steps.
  unfold assert_eq. rewrite bool_decide_true by done. steps. getting. done.
Qed.

Lemma ttl_reports_missing_or_expiry_passes : test_clock -> sleeps_before 4 -> ttl_reports_missing_or_expiry = Ret tt.
Proof.
  intros [Hm Hr] Hs. apply test_on_ok; [done|]. intros e He. mstep. eapply at_ttl; [eassumption|]. intros. steps.
  unfold assert_eq. rewrite bool_decide_true by done. steps. setting.
  eapply at_ttl; [eassumption|]. intros. steps. rewrite ttl_unlimited, bool_decide_true by done. steps.
  eapply at_expire; [eassumption| |specialize (Hr 3%nat); unfold from_millis in *; lia|].
  { rewrite live_settle by apply Hm. apply live_insert_eq. }
  intros. steps. eapply at_ttl; [eassumption|]. intros. steps.
  rewrite ttl_past, bool_decide_true; [done|done|]. unfold sleeps_before, from_millis in *. cbn in Hs. lia.
Qed.

(** Sweeps bring nothing back. *)
Lemma sweeps_hide times e (k : bytes) (now : Z) :
  eng_inv e -> live now k (store e) = None ->
  runs (expirer_sweeps times) e (fun _ e' => eng_inv e' /\ live now k (store e') = None).
Proof.
  revert e. induction times as [|t times IH]; intros e He Hl; cbn [expirer_sweeps]; [by apply runs_ret|].
  mstep. eapply runs_mono; [by apply purge_refines|]. cbn beta. intros n e' (He' & _ & Hst & _).
  apply IH; [done|]. rewrite Hst. unfold live in *. rewrite map_lookup_filter.
  destruct (store e !! k) as [x|]; [|done]. cbn. by case_guard.
Qed.

Lemma expirer_thread_clears_expired_passes times :
  test_clock -> sleeps_before 2 -> expirer_thread_clears_expired times = Ret tt.
Proof.
  intros [Hm Hr] Hs. apply test_on_ok; [done|]. intros e He. mstep. setting.
  eapply at_expire; [eassumption|apply live_insert_eq|specialize (Hr 1%nat); unfold from_millis in *; lia|].
  intros e2 (He2 & Hm2 & Hst2). steps. eapply runs_mono; [apply (sweeps_hide times e2 alpha (clock 2%nat)); [done|]|].
  { rewrite Hst2, live_expired; [done|]. unfold sleeps_before, from_millis in *. cbn in Hs. lia. }
  cbn beta. intros _ e3 [He3 Hl3]. mstep. eapply runs_mono; [by apply get_refines|]. cbn beta.
  intros r e4 (_ & _ & -> & _). rewrite Hl3. steps. done.
Qed.

(** One shard of ten bytes is the cache of [LruCache]. *)
Lemma evicts_lru_by_bytes_passes : evicts_lru_by_bytes = Ret tt.
Proof.
  unfold evicts_lru_by_bytes, test_on. rewrite construct_run by by apply shards_fit_one. cbn [mbind outcome_bind].
  change (Z.log2_up (Z.max 1 1)) with 0. set (e0 := new_engine 0 10).
  assert (HI : within_budget 0 0 e0).
  { split; rewrite ?new_engine_store; try done. by apply new_engine_inv. }
  pose (os := [OpSet (bs "a") (bs "1234") (clock 0%nat); OpSet (bs "b") (bs "1234") (clock 1%nat); OpGet (bs "a") (clock 2%nat);
    OpSet (bs "c") (bs "1234") (clock 3%nat); OpGet (bs "b") (clock 4%nat); OpGet (bs "a") (clock 5%nat); OpGet (bs "c") (clock 6%nat)]).
  destruct (runs_inv _ _ _ (single_ops p os 0 0 e0 [] HI (wb_inv _ _ _ HI) eq_refl ltac:(done) ltac:(done)))
    as (rs & e' & E & es & Ec & _).
  assert (Ers : rs = [ReplyUnit (Ok tt); ReplyUnit (Ok tt); ReplyValue (Ok (Some (bs "1234"))); ReplyUnit (Ok tt);
    ReplyValue (Ok None); ReplyValue (Ok (Some (bs "1234"))); ReplyValue (Ok (Some (bs "1234")))]) by by injection Ec.
  clear Ec. subst rs os. revert E. unfold run_ops, run_op, mbind, M_bind, mret, M_ret. clearbody e0.
  repeat match goal with
  | |- context [set ?p ?k ?v ?t ?e] => destruct (set p k v t e) as [[?| |] ?] eqn:?; try done
  | |- context [get ?k ?t ?e] => destruct (get k t e) as [[?| |] ?] eqn:?; try done
  end.
  intros [= -> -> -> -> -> -> -> ->]. cbv [unwrap unwrap_some assert is_none is_some mret M_ret].
  repeat match goal with E : _ = (Ret _, _) |- _ => rewrite E; clear E; cbv [unwrap unwrap_some assert is_none is_some mret M_ret] end. done.
Qed.

End tests.
