(* ===== verification/Decimal.v ===== *)
(** * Decimal numbers

    The decimal text of the two RESP codecs: the digit loop of the three parsers
    ([parse_usize] and [parse_u64] of the server, [parse_i64] of the client),
    the digit buffer of the client's [push_usize], and the standard library's
    [to_string], with the lemmas that relate them. *)

From S2P Require Import Prelude.

(** ** Parsing *)

Definition is_digit (b : Z) : bool := (48 <=? b) && (b <=? 57).

(** The loop [for &b in data { if b < b'0' || b > b'9' {err}; value =
    value.saturating_mul(10).saturating_add((b - b'0') as _) }] at the type whose
    largest value is [m]. *)
Fixpoint digit_fold (m value : Z) (data : bytes) : option Z :=
  match data with
  | [] => Some value
  | b :: rest =>
      if (b <? 48) || (57 <? b) then None
      else digit_fold m (saturating_add m (saturating_mul m value 10) (b - 48)) rest
  end.

(** ** Printing *)

(** The digits of [n], least significant first. *)
Fixpoint digits_rev (fuel : nat) (n : Z) : bytes :=
  match fuel with
  | O => []
  | S f => (48 + n mod 10) :: (if n <? 10 then [] else digits_rev f (n / 10))
  end.

(** [n.to_string()] for [n >= 0]; a number has at most as many decimal digits as
    binary ones. *)
Definition decimal (n : Z) : bytes := reverse (digits_rev (S (Z.to_nat (Z.log2 n))) n).

(** [n.to_string()] for a signed integer. *)
Definition decimal_signed (n : Z) : bytes := if n <? 0 then 45 :: decimal (- n) else decimal n.

(** The [while] loop of [push_usize]: digits go into [buf] from the front, and
    an index past its end panics.  Twenty-one rounds are enough: the twenty-first
    write is out of range. *)
Fixpoint digit_loop (fuel : nat) (buf : list Z) (len : nat) (value : Z) : outcome (list Z * nat) :=
  match fuel with
  | O => OutOfFuel
  | S f =>
      if 0 <? value then
        if decide (len < length buf)%nat
        then digit_loop f (<[len := 48 + value mod 10]> buf) (S len) (value / 10)
        else Panic
      else Ret (buf, len)
  end.

(** [push_usize] (hkv-client/src/resp.rs). *)
Definition push_usize (out : bytes) (value : Z) : outcome bytes :=
  let buf := replicate 20 0 in
  '(buf, len) ← (if value =? 0 then Ret (<[0%nat := 48]> buf, 1%nat) else digit_loop 21 buf 0 value);
  Ret (out ++ reverse (take len buf)).

(** ** Lemmas *)

(** The number a digit string denotes. *)
Definition digits_value (data : bytes) : Z := fold_left (fun a b => a * 10 + (b - 48)) data 0.

Lemma digit_guard b : (b <? 48) || (57 <? b) = negb (is_digit b).
Proof.
  unfold is_digit. rewrite !Z.leb_antisym, negb_andb, !negb_involutive. done.
Qed.

Lemma saturating_step m x d :
  0 <= m -> 0 <= x -> 0 <= d ->
  saturating_add m (saturating_mul m (Z.min m x) 10) d = Z.min m (x * 10 + d).
Proof. unfold saturating_add, saturating_mul. lia. Qed.

Lemma digit_fold_value m x data :
  0 <= m -> 0 <= x -> forallb is_digit data = true ->
  digit_fold m (Z.min m x) data = Some (Z.min m (fold_left (fun a b => a * 10 + (b - 48)) data x)).
Proof.
  intros Hm. revert x. induction data as [|b data IH]; intros x Hx Hd; simpl; [done|].
  simpl in Hd. apply andb_prop in Hd as [Hb Hd]. rewrite digit_guard, Hb. simpl.
  unfold is_digit in Hb. rewrite saturating_step by lia. apply IH; [lia|done].
Qed.

(** The parsers clamp to the type's range. *)
Lemma digit_fold_ok m data :
  0 <= m -> forallb is_digit data = true ->
  digit_fold m 0 data = Some (Z.min m (digits_value data)).
Proof. intros Hm Hd. pose proof (digit_fold_value m 0 data Hm ltac:(done) Hd) as E. by rewrite Z.min_r in E. Qed.

Lemma digit_fold_bad m x data : forallb is_digit data = false -> digit_fold m x data = None.
Proof.
  revert x. induction data as [|b data IH]; intros x Hd; simpl in *; [done|].
  rewrite digit_guard. destruct (is_digit b); simpl in *; [by apply IH|done].
Qed.

Lemma digit_fold_range m x data r :
  0 <= m -> 0 <= x <= m -> digit_fold m x data = Some r -> 0 <= r <= m.
Proof.
  intros Hm. revert x. induction data as [|b data IH]; intros x Hx; simpl; [by intros [= <-]|].
  destruct ((b <? 48) || (57 <? b)) eqn:E; [done|]. apply IH.
  unfold saturating_add, saturating_mul. lia.
Qed.

Lemma digits_rev_value fuel n :
  0 <= n < 10 ^ Z.of_nat fuel ->
  fold_right (fun b a => a * 10 + (b - 48)) 0 (digits_rev fuel n) = n.
Proof.
  revert n. induction fuel as [|f IH]; intros n Hn; [simpl in *; lia|].
  rewrite Nat2Z.inj_succ, Z.pow_succ_r in Hn by lia. cbn [digits_rev fold_right].
  destruct (Z.ltb_spec n 10); simpl.
  - rewrite Z.mod_small; lia.
  - rewrite IH; [pose proof (Z.div_mod n 10); lia|].
    split; [apply Z.div_pos; lia|]. apply Z.div_lt_upper_bound; lia.
Qed.

Lemma digits_rev_digits fuel n : forallb is_digit (digits_rev fuel n) = true.
Proof.
  revert n. induction fuel as [|f IH]; intros n; [done|]. cbn [digits_rev forallb].
  pose proof (Z.mod_pos_bound n 10 ltac:(lia)). apply andb_true_intro. split.
  - unfold is_digit. lia.
  - destruct (n <? 10); [done|apply IH].
Qed.

Lemma log2_fuel n : 0 <= n -> n < 10 ^ Z.of_nat (S (Z.to_nat (Z.log2 n))).
Proof.
  intros Hn. destruct (Z.eq_dec n 0) as [->|]; [done|].
  rewrite Nat2Z.inj_succ, Z2Nat.id by apply Z.log2_nonneg.
  pose proof (Z.log2_spec n ltac:(lia)). pose proof (Z.log2_nonneg n).
  assert (2 ^ Z.succ (Z.log2 n) <= 10 ^ Z.succ (Z.log2 n)) by (apply Z.pow_le_mono_l; lia). lia.
Qed.

Lemma forallb_reverse {A} (f : A -> bool) l : forallb f (reverse l) = forallb f l.
Proof.
  induction l as [|x l IH]; [done|]. rewrite reverse_cons, forallb_app, IH. simpl.
  by rewrite andb_true_r, andb_comm.
Qed.

Lemma decimal_digits n : forallb is_digit (decimal n) = true.
Proof. unfold decimal. rewrite forallb_reverse. apply digits_rev_digits. Qed.

Lemma decimal_value n : 0 <= n -> digits_value (decimal n) = n.
Proof.
  intros Hn. unfold digits_value, decimal. unfold reverse. rewrite <- fold_left_rev_right, rev_alt.
  rewrite <- !rev_alt, rev_involutive. apply digits_rev_value. split; [done|by apply log2_fuel].
Qed.

Lemma decimal_nonempty n : decimal n ≠ [].
Proof.
  unfold decimal. intros E. apply (f_equal length) in E. rewrite length_reverse in E. done.
Qed.

(** Parsing what was printed. *)
Lemma digit_fold_decimal m n : 0 <= n <= m -> digit_fold m 0 (decimal n) = Some n.
Proof.
  intros Hn. rewrite digit_fold_ok, decimal_value by (lia || apply decimal_digits).
  by rewrite Z.min_r by lia.
Qed.

(** More fuel than digits changes nothing. *)
Lemma digits_rev_fuel f f' n :
  0 <= n < 10 ^ Z.of_nat f -> (0 < f)%nat -> (f <= f')%nat -> digits_rev f' n = digits_rev f n.
Proof.
  revert f' n. induction f as [|f IH]; intros f' n Hn Hf Hle; [lia|].
  destruct f' as [|f']; [lia|]. cbn [digits_rev].
  destruct (Z.ltb_spec n 10) as [|H10]; [done|]. f_equal.
  rewrite Nat2Z.inj_succ, Z.pow_succ_r in Hn by lia.
  destruct f as [|f]; [simpl in Hn; lia|].
  apply IH; [|lia|lia]. split; [apply Z.div_pos; lia|]. apply Z.div_lt_upper_bound; lia.
Qed.

Lemma decimal_fuel f n :
  0 <= n < 10 ^ Z.of_nat f -> (0 < f)%nat -> decimal n = reverse (digits_rev f n).
Proof.
  intros Hn Hf. unfold decimal. f_equal.
  rewrite <- (digits_rev_fuel f (f `max` S (Z.to_nat (Z.log2 n)))) by (done || lia).
  symmetry. apply digits_rev_fuel; [|lia|lia]. split; [lia|]. apply log2_fuel. lia.
Qed.

Lemma digit_loop_ok fuel buf len value pre :
  0 < value < 10 ^ Z.of_nat fuel -> (length buf = len + fuel)%nat -> take len buf = pre ->
  exists buf' len', digit_loop (S fuel) buf len value = Ret (buf', len') /\
    take len' buf' = pre ++ digits_rev fuel value.
Proof.
  revert buf len value pre. induction fuel as [|f IH]; intros buf len value pre Hv Hl Hp.
  { simpl in Hv. lia. }
  rewrite Nat2Z.inj_succ, Z.pow_succ_r in Hv by lia.
  assert (Hlen : (len < length buf)%nat) by lia.
  set (buf1 := <[len := 48 + value mod 10]> buf).
  assert (Hp1 : take (S len) buf1 = pre ++ [48 + value mod 10]).
  { rewrite (take_S_r _ _ (48 + value mod 10)) by (by apply list_lookup_insert_eq).
    unfold buf1. rewrite take_insert_ge by lia. by rewrite Hp. }
  assert (E : digit_loop (S (S f)) buf len value = digit_loop (S f) buf1 (S len) (value / 10)).
  { change (digit_loop (S (S f)) buf len value) with
      (if 0 <? value then if decide (len < length buf)%nat
         then digit_loop (S f) (<[len := 48 + value mod 10]> buf) (S len) (value / 10) else Panic
       else Ret (buf, len)).
    rewrite (proj2 (Z.ltb_lt _ _)) by lia. by rewrite decide_True. }
  rewrite E. cbn [digits_rev]. destruct (Z.ltb_spec value 10) as [H10|H10].
  - rewrite Z.div_small by lia. exists buf1, (S len). split; [done|]. by rewrite Hp1.
  - destruct (IH buf1 (S len) (value / 10) (pre ++ [48 + value mod 10])) as (b' & l' & E' & Ht).
    + split; [apply Z.div_str_pos; lia|]. apply Z.div_lt_upper_bound; lia.
    + unfold buf1. rewrite length_insert. lia.
    + done.
    + exists b', l'. split; [done|]. rewrite Ht, <- app_assoc. done.
Qed.

(** The digit buffer is large enough for every [usize]. *)
Lemma push_usize_decimal out n :
  0 <= n <= USIZE_MAX -> push_usize out n = Ret (out ++ decimal n).
Proof.
  intros Hn. unfold push_usize. destruct (Z.eqb_spec n 0) as [->|]; [done|].
  destruct (digit_loop_ok 20 (replicate 20 0) 0 n []) as (b & l & E & Ht).
  - unfold USIZE_MAX in Hn. simpl. lia.
  - done.
  - done.
  - rewrite app_nil_l in Ht. rewrite E. unfold mbind, outcome_bind. rewrite Ht.
    rewrite (decimal_fuel 20); [done| |lia]. unfold USIZE_MAX in Hn. simpl. lia.
Qed.
