(* ===== verification/Utf8.v ===== *)
(** * Text: UTF-8 (the standard library's [String::from_utf8_lossy])

    The byte sequences of Unicode scalar values, and the conversion that keeps them
    and puts a replacement character in the place of everything else.  Rust's text
    formatting of byte strings goes through it. *)

From S2P Require Import Prelude.

(** ** Encoding *)

(** [char]: a code point that is not a surrogate. *)
Definition is_char (c : Z) : bool := (0 <=? c) && (c <? 55296) || (57344 <=? c) && (c <=? 1114111).

(** [char::encode_utf8]. *)
Definition encode_utf8 (c : Z) : bytes :=
  if c <? 128 then [c]
  else if c <? 2048 then [192 + c / 64; 128 + c mod 64]
  else if c <? 65536 then [224 + c / 4096; 128 + (c / 64) mod 64; 128 + c mod 64]
  else [240 + c / 262144; 128 + (c / 4096) mod 64; 128 + (c / 64) mod 64; 128 + c mod 64].

(** A [str]: the encoding of a sequence of chars. *)
Definition utf8 (cs : list Z) : bytes := mjoin (encode_utf8 <$> cs).
Definition is_str (s : bytes) : Prop := exists cs, forallb is_char cs = true /\ s = utf8 cs.

(** ** Decoding *)

(** [utf8_char_width]. *)
Definition utf8_char_width (b : Z) : nat :=
  if b <? 128 then 1
  else if (194 <=? b) && (b <=? 223) then 2
  else if (224 <=? b) && (b <=? 239) then 3
  else if (240 <=? b) && (b <=? 244) then 4
  else 0.

(** [safe_get]: 0 past the end. *)
Definition safe_get (s : bytes) (i : nat) : Z := default 0 (s !! i).

(** [byte & 192 == TAG_CONT_U8]. *)
Definition is_cont (b : Z) : bool := Z.land b 192 =? 128.

Definition between (a x b : Z) : bool := (a <=? x) && (x <=? b).

(** The second byte of a sequence of three or four. *)
Definition second_ok (b0 b1 : Z) : bool :=
  if b0 =? 224 then between 160 b1 191
  else if b0 =? 237 then between 128 b1 159
  else if b0 =? 240 then between 144 b1 191
  else if b0 =? 244 then between 128 b1 143
  else between 128 b1 191.

(** One round of [Utf8Chunks::next]: whether a char starts the input, and the number
    of bytes looked at. *)
Definition utf8_round (s : bytes) : bool * nat :=
  let b0 := safe_get s 0 in
  match utf8_char_width b0 with
  | 1 => (true, 1)
  | 2 => if is_cont (safe_get s 1) then (true, 2) else (false, 1)
  | 3 =>
      if second_ok b0 (safe_get s 1) then
        if is_cont (safe_get s 2) then (true, 3) else (false, 2)
      else (false, 1)
  | 4 =>
      if second_ok b0 (safe_get s 1) then
        if is_cont (safe_get s 2) then
          if is_cont (safe_get s 3) then (true, 4) else (false, 3)
        else (false, 2)
      else (false, 1)
  | _ => (false, 1)
  end%nat.

(** [char::REPLACEMENT_CHARACTER]. *)
Definition REPLACEMENT : Z := 65533.

(** [String::from_utf8_lossy]; a round looks at one byte at least. *)
Fixpoint lossy (fuel : nat) (s : bytes) : bytes :=
  match fuel, s with
  | O, _ | _, [] => []
  | S f, _ =>
      let '(ok, n) := utf8_round s in
      (if ok : bool then take n s else encode_utf8 REPLACEMENT) ++ lossy f (drop n s)
  end.

Definition from_utf8_lossy (s : bytes) : bytes := lossy (length s) s.

(** ** Round trips *)

Ltac euclid := Z.to_euclidean_division_equations; lia.

Lemma land_cont b : 0 <= b <= 255 -> is_cont b = between 128 b 191.
Proof.
  intros Hb. assert (Hall : forallb (fun n => Bool.eqb (is_cont (Z.of_nat n)) (between 128 (Z.of_nat n) 191)) (seq 0 256) = true)
    by (vm_compute; reflexivity).
  rewrite forallb_forall in Hall. specialize (Hall (Z.to_nat b) ltac:(apply in_seq; lia)).
  rewrite Z2Nat.id in Hall by lia. by apply Bool.eqb_prop.
Qed.

Lemma between_true a x b : a <= x <= b -> between a x b = true.
Proof. intros [? ?]. unfold between. apply andb_true_intro. by rewrite !Z.leb_le. Qed.

Lemma between_inv a x b : between a x b = true -> a <= x <= b.
Proof. unfold between. rewrite andb_true_iff, !Z.leb_le. done. Qed.

Lemma is_char_inv c : is_char c = true -> 0 <= c < 55296 \/ 57344 <= c <= 1114111.
Proof. unfold is_char. rewrite orb_true_iff, !andb_true_iff, !Z.leb_le, Z.ltb_lt. lia. Qed.

Ltac zcase :=
  repeat match goal with
  | |- context [?a <? ?b] => destruct (Z.ltb_spec a b); try lia
  | |- context [?a <=? ?b] => destruct (Z.leb_spec a b); try lia
  | |- context [?a =? ?b] => destruct (Z.eqb_spec a b); try lia
  end.

Lemma width_two b : 194 <= b <= 223 -> utf8_char_width b = 2%nat.
Proof. intros. unfold utf8_char_width. by zcase. Qed.
Lemma width_three b : 224 <= b <= 239 -> utf8_char_width b = 3%nat.
Proof. intros. unfold utf8_char_width. by zcase. Qed.
Lemma width_four b : 240 <= b <= 244 -> utf8_char_width b = 4%nat.
Proof. intros. unfold utf8_char_width. by zcase. Qed.

Lemma cont_true b : 128 <= b <= 191 -> is_cont b = true.
Proof. intros. rewrite land_cont by lia. by apply between_true. Qed.

(** The encoding of a char is recognised, whatever follows. *)
Lemma round_encode c rest : is_char c = true -> utf8_round (encode_utf8 c ++ rest) = (true, length (encode_utf8 c)).
Proof.
  intros Hc%is_char_inv. unfold encode_utf8. destruct (Z.ltb_spec c 128) as [H1|H1].
  { unfold utf8_round, safe_get. cbn [app lookup list_lookup from_option id length]. unfold utf8_char_width. by zcase. }
  destruct (Z.ltb_spec c 2048) as [H2|H2].
  { unfold utf8_round, safe_get. cbn [app lookup list_lookup from_option id length].
    rewrite width_two by euclid. by rewrite cont_true by euclid. }
  destruct (Z.ltb_spec c 65536) as [H3|H3]; unfold utf8_round, safe_get; cbn [app lookup list_lookup from_option id length].
  - rewrite width_three by euclid. rewrite (cont_true (128 + c mod 64)) by euclid.
    assert (Hs : second_ok (224 + c / 4096) (128 + (c / 64) mod 64) = true); [|by rewrite Hs].
    unfold second_ok. zcase; apply between_true; euclid.
  - rewrite width_four by euclid. rewrite (cont_true (128 + c mod 64)), (cont_true (128 + (c / 64) mod 64)) by euclid.
    assert (Hs : second_ok (240 + c / 262144) (128 + (c / 4096) mod 64) = true); [|by rewrite Hs].
    unfold second_ok. zcase; apply between_true; euclid.
Qed.

Lemma encode_nonempty c : exists b l, encode_utf8 c = b :: l.
Proof. unfold encode_utf8. repeat case_match; eauto. Qed.

(** A [str] is kept as it is. *)
Lemma lossy_str cs fuel : forallb is_char cs = true -> (length (utf8 cs) <= fuel)%nat -> lossy fuel (utf8 cs) = utf8 cs.
Proof.
  revert fuel. induction cs as [|c cs IH]; intros fuel Hcs Hf; [by destruct fuel|].
  simpl in Hcs. apply andb_prop in Hcs as [Hc Hcs]. change (utf8 (c :: cs)) with (encode_utf8 c ++ utf8 cs) in *.
  destruct (encode_nonempty c) as (b & l & El). destruct fuel as [|fuel]; [rewrite El in Hf; cbn in Hf; lia|].
  assert (Hunf : lossy (S fuel) (encode_utf8 c ++ utf8 cs) =
    let '(ok, n) := utf8_round (encode_utf8 c ++ utf8 cs) in
    (if ok : bool then take n (encode_utf8 c ++ utf8 cs) else encode_utf8 REPLACEMENT) ++ lossy fuel (drop n (encode_utf8 c ++ utf8 cs)))
    by (rewrite El; done).
  rewrite Hunf, round_encode by done. rewrite take_app_length, drop_app_length. f_equal.
  apply IH; [done|]. rewrite length_app, El in Hf. cbn in Hf. lia.
Qed.

Definition byte_range (s : bytes) : Prop := Forall (fun b => 0 <= b <= 255) s.

Lemma safe_get_range s i : byte_range s -> 0 <= safe_get s i <= 255.
Proof.
  intros Hs. unfold safe_get. destruct (s !! i) as [b|] eqn:Hb; [|cbn; lia].
  exact (Forall_lookup_1 _ _ _ _ Hs Hb).
Qed.

(** A byte that is not 0 is there. *)
Lemma safe_get_pos s i : safe_get s i ≠ 0 -> s !! i = Some (safe_get s i).
Proof. unfold safe_get. by destruct (s !! i). Qed.

Lemma cont_inv s i : byte_range s -> is_cont (safe_get s i) = true -> s !! i = Some (safe_get s i) /\ 128 <= safe_get s i <= 191.
Proof.
  intros Hs Hc. rewrite land_cont in Hc by by apply safe_get_range. apply between_inv in Hc.
  split; [apply safe_get_pos; lia|done].
Qed.

Lemma second_inv b0 b1 : second_ok b0 b1 = true ->
  128 <= b1 <= 191 /\ (b0 = 224 -> 160 <= b1) /\ (b0 = 237 -> b1 <= 159) /\ (b0 = 240 -> 144 <= b1) /\ (b0 = 244 -> b1 <= 143).
Proof. unfold second_ok. zcase; intros Hb%between_inv; lia. Qed.

Lemma width_inv b n : utf8_char_width b = n -> 0 <= b ->
  match n with 1%nat => b < 128 | 2%nat => 194 <= b <= 223 | 3%nat => 224 <= b <= 239 | 4%nat => 240 <= b <= 244 | _ => True end.
Proof. intros <- Hb. unfold utf8_char_width. zcase; cbn; lia. Qed.

(** What is recognised is the encoding of a char. *)
Lemma round_decode b0 s n :
  byte_range (b0 :: s) -> utf8_round (b0 :: s) = (true, n) ->
  exists c, is_char c = true /\ take n (b0 :: s) = encode_utf8 c /\ (1 <= n)%nat.
Proof.
  intros Hs Hr. set (l := b0 :: s) in *. unfold utf8_round in Hr.
  assert (H0 : l !! 0%nat = Some (safe_get l 0)) by done. pose proof (safe_get_range l 0 Hs) as R0.
  set (x0 := safe_get l 0) in *. clearbody x0. destruct (utf8_char_width x0) as [|[|[|[|[|w]]]]] eqn:Hw; try done;
    pose proof (width_inv _ _ Hw ltac:(lia)) as W; cbn in W; clear Hw.
  - injection Hr as <-. exists x0. unfold is_char, encode_utf8. zcase. split_and!; [done| |lia]. by rewrite (take_S_r _ _ x0).
  - destruct (is_cont (safe_get l 1)) eqn:C1; [|done]. injection Hr as <-.
    destruct (cont_inv _ _ Hs C1) as [H1 R1]. set (x1 := safe_get l 1) in *.
    exists ((x0 - 192) * 64 + (x1 - 128)). unfold is_char, encode_utf8. zcase. split_and!; [done| |lia].
    rewrite (take_S_r _ _ x1), (take_S_r _ _ x0) by done. rewrite take_0. cbn [app]. repeat f_equal; euclid.
  - destruct (second_ok x0 (safe_get l 1)) eqn:C1; [|done]. destruct (is_cont (safe_get l 2)) eqn:C2; [|done]. injection Hr as <-.
    apply second_inv in C1 as (R1 & S1 & S2 & _). pose proof (safe_get_pos l 1 ltac:(lia)) as H1.
    destruct (cont_inv _ _ Hs C2) as [H2 R2]. set (x1 := safe_get l 1) in *. set (x2 := safe_get l 2) in *.
    exists ((x0 - 224) * 4096 + (x1 - 128) * 64 + (x2 - 128)).
    assert (Hc : x0 = 224 \/ x0 = 237 \/ 225 <= x0 <= 236 \/ 238 <= x0) by lia.
    unfold is_char, encode_utf8. zcase; (split_and!; [done| |lia]).
    all: rewrite (take_S_r _ _ x2), (take_S_r _ _ x1), (take_S_r _ _ x0) by done; rewrite take_0; cbn [app]; repeat f_equal; euclid.
  - destruct (second_ok x0 (safe_get l 1)) eqn:C1; [|done]. destruct (is_cont (safe_get l 2)) eqn:C2; [|done].
    destruct (is_cont (safe_get l 3)) eqn:C3; [|done]. injection Hr as <-.
    apply second_inv in C1 as (R1 & _ & _ & S1 & S2). pose proof (safe_get_pos l 1 ltac:(lia)) as H1.
    destruct (cont_inv _ _ Hs C2) as [H2 R2]. destruct (cont_inv _ _ Hs C3) as [H3 R3].
    set (x1 := safe_get l 1) in *. set (x2 := safe_get l 2) in *. set (x3 := safe_get l 3) in *.
    exists ((x0 - 240) * 262144 + (x1 - 128) * 4096 + (x2 - 128) * 64 + (x3 - 128)).
    unfold is_char, encode_utf8. zcase. split_and!; [done| |lia].
    rewrite (take_S_r _ _ x3), (take_S_r _ _ x2), (take_S_r _ _ x1), (take_S_r _ _ x0) by done. rewrite take_0. cbn [app]. repeat f_equal; euclid.
Qed.

Lemma is_str_app s s' : is_str s -> is_str s' -> is_str (s ++ s').
Proof.
  intros (cs & Hc & ->) (cs' & Hc' & ->). exists (cs ++ cs'). split; [by rewrite forallb_app, Hc, Hc'|].
  unfold utf8. by rewrite fmap_app, join_app.
Qed.

Lemma is_str_char c : is_char c = true -> is_str (encode_utf8 c).
Proof. intros Hc. exists [c]. split; [by cbn; rewrite Hc|]. unfold utf8. cbn. by rewrite app_nil_r. Qed.

(** ASCII text is text. *)
Lemma is_str_ascii s : Forall (fun b => 0 <= b <= 127) s -> is_str s.
Proof.
  intros Hs. exists s. induction Hs as [|b s Hb Hs [IH1 IH2]]; [done|]. split.
  - cbn. rewrite IH1, andb_true_r. unfold is_char. by zcase.
  - change (utf8 (b :: s)) with (encode_utf8 b ++ utf8 s). rewrite <- IH2. unfold encode_utf8. by zcase.
Qed.

Lemma lossy_is_str fuel s : byte_range s -> is_str (lossy fuel s).
Proof.
  revert s. induction fuel as [|fuel IH]; intros s Hs; [by exists []|]. destruct s as [|b s]; [by exists []|].
  cbn [lossy]. destruct (utf8_round (b :: s)) as [ok n] eqn:Hr.
  apply is_str_app; [|apply IH; by apply Forall_drop]. destruct ok; [|by apply is_str_char].
  destruct (round_decode b s n Hs Hr) as (c & Hc & -> & _). by apply is_str_char.
Qed.

Lemma from_utf8_lossy_str s : byte_range s -> is_str (from_utf8_lossy s).
Proof. apply lossy_is_str. Qed.

Lemma from_utf8_lossy_id s : is_str s -> from_utf8_lossy s = s.
Proof. intros (cs & Hc & ->). by apply lossy_str. Qed.

(** ** Chars of a text *)

(** The value of the bytes of one char. *)
Definition decode_utf8 (s : bytes) : Z :=
  match s with
  | [b0] => b0
  | [b0; b1] => Z.lor (Z.shiftl (Z.land b0 31) 6) (Z.land b1 63)
  | [b0; b1; b2] => Z.lor (Z.shiftl (Z.land b0 15) 12) (Z.lor (Z.shiftl (Z.land b1 63) 6) (Z.land b2 63))
  | [b0; b1; b2; b3] =>
      Z.lor (Z.shiftl (Z.land b0 7) 18)
        (Z.lor (Z.shiftl (Z.land b1 63) 12) (Z.lor (Z.shiftl (Z.land b2 63) 6) (Z.land b3 63)))
  | _ => 0
  end.

(** [str::chars]; a char has a byte at least. *)
Fixpoint chars_from (fuel : nat) (s : bytes) : list Z :=
  match fuel, s with
  | O, _ | _, [] => []
  | S f, _ => let n := (utf8_round s).2 in decode_utf8 (take n s) :: chars_from f (drop n s)
  end.

Definition chars (s : bytes) : list Z := chars_from (length s) s.

(** The low bits of a byte, and putting bits together. *)
Lemma low_bits a n x : 0 <= n -> 0 <= x < 2 ^ n -> Z.land (a * 2 ^ n + x) (Z.ones n) = x.
Proof. intros Hn Hx. rewrite Z.land_ones by lia. rewrite Z.add_comm, Z.mod_add by lia. by apply Z.mod_small. Qed.

Lemma join_bits a n x : 0 <= n -> 0 <= x < 2 ^ n -> Z.lor (Z.shiftl a n) x = a * 2 ^ n + x.
Proof.
  intros Hn Hx. rewrite <- Z.shiftl_mul_pow2 by lia. pose proof (Z.add_lor_land (Z.shiftl a n) x).
  assert (Hl : Z.land (Z.shiftl a n) x = 0); [|lia]. apply Z.bits_inj'. intros i Hi. rewrite Z.land_spec, Z.bits_0.
  destruct (Z.lt_ge_cases i n) as [Hin|Hin]; [by rewrite Z.shiftl_spec_low|].
  rewrite <- (Z.mod_small x (2 ^ n)) by done. rewrite Z.mod_pow2_bits_high by lia. apply andb_false_r.
Qed.

(** Taking a char apart and putting it together. *)
Lemma decode_encode c : is_char c = true -> decode_utf8 (encode_utf8 c) = c.
Proof.
  intros Hc%is_char_inv. unfold encode_utf8.
  assert (Hlow : forall x, Z.land (128 + x mod 64) 63 = x mod 64) by (intros x; apply (low_bits 2 6); euclid).
  destruct (Z.ltb_spec c 128) as [H1|H1]; [done|]. destruct (Z.ltb_spec c 2048) as [H2|H2]; [|destruct (Z.ltb_spec c 65536) as [H3|H3]];
    cbn [decode_utf8]; rewrite !Hlow.
  - replace (Z.land (192 + c / 64) 31) with (c / 64) by (symmetry; apply (low_bits 6 5); euclid). rewrite join_bits by euclid. euclid.
  - replace (Z.land (224 + c / 4096) 15) with (c / 4096) by (symmetry; apply (low_bits 14 4); euclid). rewrite (join_bits _ 6) by euclid. rewrite join_bits by euclid. euclid.
  - replace (Z.land (240 + c / 262144) 7) with (c / 262144) by (symmetry; apply (low_bits 30 3); euclid). rewrite (join_bits _ 6) by euclid. rewrite (join_bits _ 12) by euclid.
    rewrite join_bits by euclid. euclid.
Qed.

(** [chars] inverts the encoding. *)
Lemma chars_utf8 cs : forallb is_char cs = true -> chars (utf8 cs) = cs.
Proof.
  unfold chars. generalize (Nat.le_refl (length (utf8 cs))). generalize (length (utf8 cs)) at 2 3 as fuel. intros fuel.
  revert fuel. induction cs as [|c cs IH]; intros fuel Hf Hcs; [by destruct fuel|].
  simpl in Hcs. apply andb_prop in Hcs as [Hc Hcs]. change (utf8 (c :: cs)) with (encode_utf8 c ++ utf8 cs) in *.
  destruct (encode_nonempty c) as (b & l & El). destruct fuel as [|fuel]; [rewrite El in Hf; cbn in Hf; lia|].
  transitivity (let n := (utf8_round (encode_utf8 c ++ utf8 cs)).2 in
    decode_utf8 (take n (encode_utf8 c ++ utf8 cs)) :: chars_from fuel (drop n (encode_utf8 c ++ utf8 cs))); [by rewrite El|].
  rewrite round_encode by done. cbn [snd]. rewrite take_app_length, drop_app_length, decode_encode by done. f_equal.
  apply IH; [|done]. rewrite length_app, El in Hf. cbn in Hf. lia.
Qed.
