(* ===== verification/RespParserInv.v ===== *)
(** * Lemmas about the server's RESP2 parser

    The rounds of [parse] in closed form, termination, resumption after partial
    input, and the grammar of commands. *)

From S2P Require Import Prelude Decimal RespParser.

(** ** Lines *)

(** Reference definition of [read_line]: the prefix up to the first CRLF and
    the rest. *)
Fixpoint crlf_split (buf : bytes) : option (bytes * bytes) :=
  match buf with
  | a :: ((b :: rest') as rest) =>
      if (a =? CR) && (b =? LF) then Some ([], rest')
      else (fun lr => (a :: lr.1, lr.2)) <$> crlf_split rest
  | _ => None
  end.

Lemma crlf_split_cons2 a b r :
  crlf_split (a :: b :: r) =
    if (a =? CR) && (b =? LF) then Some ([], r)
    else (fun lr => (a :: lr.1, lr.2)) <$> crlf_split (b :: r).
Proof. done. Qed.

Lemma crlf_split_Some buf l r : crlf_split buf = Some (l, r) -> buf = l ++ crlf ++ r.
Proof.
  revert l. induction buf as [|a [|b buf] IH]; intros l; [done..|].
  rewrite crlf_split_cons2. destruct ((a =? CR) && (b =? LF)) eqn:E.
  - intros [= <- <-]. apply andb_prop in E as [->%Z.eqb_eq ->%Z.eqb_eq]. done.
  - intros ([l' r'] & Es & [= -> ->])%fmap_Some. by rewrite (IH _ Es).
Qed.

Lemma crlf_split_extend buf l r m :
  crlf_split buf = Some (l, r) -> crlf_split (buf ++ m) = Some (l, r ++ m).
Proof.
  revert l. induction buf as [|a [|b buf] IH]; intros l; [done..|].
  change ((a :: b :: buf) ++ m) with (a :: b :: (buf ++ m)). rewrite !crlf_split_cons2.
  destruct ((a =? CR) && (b =? LF)) eqn:E; [by intros [= <- <-]|].
  intros ([l' r'] & Es & [= -> ->])%fmap_Some. change (b :: buf ++ m) with ((b :: buf) ++ m).
  by rewrite (IH _ Es).
Qed.

(** A line without CR is found whole. *)
Lemma crlf_split_line l r : CR ∉ l -> crlf_split (l ++ crlf ++ r) = Some (l, r).
Proof.
  induction l as [|a l IH]; intros Hl; [done|]. apply not_elem_of_cons in Hl as [Ha Hl].
  specialize (IH Hl). destruct (l ++ crlf ++ r) as [|b t] eqn:E; [by destruct l|].
  change ((a :: l) ++ crlf ++ r) with (a :: (l ++ crlf ++ r)). rewrite E, crlf_split_cons2, IH.
  rewrite (proj2 (Z.eqb_neq a CR)) by congruence. done.
Qed.

Lemma digits_no_CR ds : forallb is_digit ds = true -> CR ∉ ds.
Proof.
  intros Hd Hin. rewrite forallb_forall in Hd. apply list_elem_of_In in Hin.
  specialize (Hd _ Hin). done.
Qed.

Lemma parse_usize_Ok data n :
  parse_usize data = Ok n <->
    data ≠ [] /\ forallb is_digit data = true /\ n = Z.min USIZE_MAX (digits_value data).
Proof.
  unfold parse_usize. destruct data as [|b data]; [split; [done|by intros [? _]]|].
  destruct (forallb is_digit (b :: data)) eqn:E.
  - rewrite digit_fold_ok by done. split; [by intros [= <-]|by intros (_ & _ & ->)].
  - rewrite digit_fold_bad by done. split; [done|by intros (_ & ? & _)].
Qed.

Lemma parse_usize_range data n : parse_usize data = Ok n -> 0 <= n <= USIZE_MAX.
Proof.
  unfold parse_usize. destruct data as [|b data]; [done|].
  destruct (digit_fold USIZE_MAX 0 (b :: data)) as [r|] eqn:E; [|done]. intros [= <-].
  eapply digit_fold_range; [..|exact E]; done.
Qed.

Section parser_lemmas.
Context `{BytesMut} (p : profile).
Implicit Types (q : RespParser) (b m : bytes).

Lemma read_line_loop_ok n idx b :
  (1 <= idx)%nat -> (length b <= n + idx)%nat ->
  read_line_loop (S n) idx b =
    Ret ((fun lr => (take (idx - 1) b ++ lr.1, lr.2)) <$> crlf_split (drop (idx - 1) b)).
Proof.
  revert idx. induction n as [|n IH]; intros idx Hi Hn.
  all: change (read_line_loop (S ?k) idx b) with
    (match b !! idx with
     | None => Ret None
     | Some x =>
         if (x =? LF) && bool_decide (b !! (idx - 1)%nat = Some CR) then
           '(line, buf) ← split_to (Z.of_nat idx - 1) b; buf ← advance 2 buf; Ret (Some (line, buf))
         else read_line_loop k (S idx) b
     end).
  all: destruct (b !! idx) as [x|] eqn:Ex.
  1: { apply lookup_lt_Some in Ex. lia. }
  1,3: apply lookup_ge_None in Ex; assert (El : (length (drop (idx - 1) b) <= 1)%nat)
      by (rewrite length_drop; lia); destruct (drop (idx - 1) b) as [|? [|? ?]]; simpl in *; done || lia.
  pose proof (lookup_lt_Some _ _ _ Ex) as Hlt.
  destruct (lookup_lt_is_Some_2 b (idx - 1)) as [a Ea]; [lia|].
  rewrite (drop_S b a (idx - 1)) by done. replace (S (idx - 1)) with idx by lia.
  rewrite (drop_S b x idx) by done. rewrite crlf_split_cons2, Ea.
  assert (Ec : bool_decide (Some a = Some CR) = (a =? CR)).
  { destruct (Z.eqb_spec a CR) as [->|Ha]; [by apply bool_decide_true|].
    apply bool_decide_false. congruence. }
  rewrite Ec, andb_comm. destruct ((a =? CR) && (x =? LF)) eqn:E.
  - rewrite split_to_in by (unfold zlen; lia). cbn -[advance].
    replace (Z.to_nat (Z.of_nat idx - 1)) with (idx - 1)%nat by lia.
    rewrite advance_in by (unfold zlen; rewrite length_drop; lia).
    rewrite drop_drop, app_nil_r. by replace (idx - 1 + Z.to_nat 2)%nat with (S idx) by lia.
  - rewrite IH by lia. replace (S idx - 1)%nat with (S (idx - 1)) by lia.
    rewrite (take_S_r _ _ _ Ea). replace (S (idx - 1)) with idx by lia.
    rewrite (drop_S b x idx) by done. destruct (crlf_split (x :: drop (S idx) b)) as [[l r]|]; [|done].
    simpl. by rewrite <- app_assoc.
Qed.

Lemma read_line_ok b : read_line b = Ret (crlf_split b).
Proof.
  unfold read_line. rewrite read_line_loop_ok by lia.
  change (1 - 1)%nat with 0%nat. rewrite drop_0, take_0.
  by destruct (crlf_split b) as [[l r]|].
Qed.

Lemma take_line_run q b :
  take_line (q, b) =
    match crlf_split b with
    | None => (Ret None, (q, b))
    | Some (l, r) => (Ret (Some l), (q, r))
    end.
Proof. unfold take_line. simpl. rewrite read_line_ok. by destruct (crlf_split b) as [[l r]|]. Qed.

(** ** The rounds in closed form *)

(** What the header line [l] of an array does. *)
Definition array_header (l : bytes) (q : RespParser) : round * RespParser :=
  if decide (head l = Some 42) then
    match parse_usize (tail l) with
    | Err e => (Return (Err e), q)
    | Ok n =>
        if n =? 0 then (Return (Ok (Some [])), mkParser ArrayLen [] n (ps_bulk_len q))
        else (Continue, mkParser BulkLen [] n (ps_bulk_len q))
    end
  else (Return (Err RespError_Protocol), q).

(** What the header line [l] of a bulk string does. *)
Definition bulk_header (l : bytes) (q : RespParser) : round * RespParser :=
  if decide (head l = Some 36) then
    match parse_usize (tail l) with
    | Err e => (Return (Err e), q)
    | Ok n => (Continue, mkParser BulkData (ps_args q) (ps_remaining q) n)
    end
  else (Return (Err RespError_Protocol), q).

(** A round that reads a line. *)
Definition line_round (f : bytes -> RespParser -> round * RespParser) q b :
    outcome round * (RespParser * bytes) :=
  match crlf_split b with
  | None => (Ret (Return (Ok None)), (q, b))
  | Some (l, r) => let '(res, q') := f l q in (Ret res, (q', r))
  end.

Lemma array_len_run q b : array_len_round (q, b) = line_round array_header q b.
Proof.
  unfold array_len_round, line_round, mbind, M_bind. rewrite take_line_run.
  destruct (crlf_split b) as [[l r]|]; [|done]. unfold array_header.
  case_decide; [|done]. destruct (parse_usize (tail l)) as [n|e]; [|done].
  simpl. by destruct (n =? 0).
Qed.

Lemma bulk_len_run q b : bulk_len_round (q, b) = line_round bulk_header q b.
Proof.
  unfold bulk_len_round, line_round, mbind, M_bind. rewrite take_line_run.
  destruct (crlf_split b) as [[l r]|]; [|done]. unfold bulk_header.
  case_decide; [|done]. by destruct (parse_usize (tail l)).
Qed.

(** The end of a bulk string: the argument is complete. *)
Definition push_arg (data : bytes) (q : RespParser) : round * RespParser :=
  let args := ps_args q ++ [data] in
  if ps_remaining q - 1 =? 0
  then (Return (Ok (Some args)), mkParser ArrayLen [] (ps_remaining q - 1) (ps_bulk_len q))
  else (Continue, mkParser BulkLen args (ps_remaining q - 1) (ps_bulk_len q)).

Definition bulk_data_spec q b : outcome round * (RespParser * bytes) :=
  let data := take (Z.to_nat (ps_bulk_len q)) b in
  match drop (Z.to_nat (ps_bulk_len q)) b with
  | c1 :: c2 :: r =>
      if c1 =? CR then
        if c2 =? LF then let '(res, q') := push_arg data q in (Ret res, (q', r))
        else (Ret (Return (Err RespError_Protocol)), (q, r))
      else (Ret (Return (Err RespError_Protocol)), (q, c2 :: r))
  | _ => (Ret (Return (Ok None)), (q, b))
  end.

Lemma bulk_data_run q b :
  0 <= ps_bulk_len q <= USIZE_MAX - 2 -> 1 <= ps_remaining q ->
  bulk_data_round p (q, b) = bulk_data_spec q b.
Proof.
  intros Hl Hr. unfold bulk_data_round, bulk_data_spec. set (n := ps_bulk_len q) in *.
  rewrite (bind_run _ _ (q, b) n (q, b)) by done.
  rewrite (bind_run _ _ (q, b) (n + 2) (q, b)).
  2: { unfold lift, usize_add. by rewrite (proj2 (Z.leb_le _ _)) by lia. }
  rewrite (bind_run _ _ (q, b) (zlen b) (q, b)) by done.
  destruct (Z.ltb_spec (zlen b) (n + 2)) as [Hlt|Hge].
  { assert (Hd : (length (drop (Z.to_nat n) b) < 2)%nat) by (rewrite length_drop; unfold zlen in *; lia).
    destruct (drop (Z.to_nat n) b) as [|? [|? ?]]; simpl in *; done || lia. }
  assert (Hd : (2 <= length (drop (Z.to_nat n) b))%nat) by (rewrite length_drop; unfold zlen in *; lia).
  assert (Ht : take_data n (q, b) = (Ret (take (Z.to_nat n) b), (q, drop (Z.to_nat n) b))).
  { unfold take_data. simpl. rewrite split_to_in by lia. done. }
  rewrite (bind_run _ _ _ _ _ Ht).
  destruct (drop (Z.to_nat n) b) as [|c1 [|c2 r]]; [simpl in Hd; lia..|].
  assert (Hu : forall q0 x r0, take_u8 (q0, x :: r0) = (Ret x, (q0, r0))).
  { intros. unfold take_u8. simpl. by rewrite get_u8_cons. }
  unfold bad_terminator. destruct (Z.eqb_spec c1 CR) as [->|Hc].
  - destruct (c2 =? LF) eqn:E2.
    + rewrite (bind_run _ _ _ false (q, r)).
      2: { rewrite (bind_run _ _ _ _ _ (Hu _ _ _)). simpl. rewrite (bind_run _ _ _ _ _ (Hu _ _ _)), E2. done. }
      unfold push_arg, usize_sub, mbind, M_bind. cbn.
      rewrite (proj2 (Z.leb_le _ _)) by lia. cbn. by destruct (ps_remaining q - 1 =? 0).
    + rewrite (bind_run _ _ _ true (q, r)); [done|].
      rewrite (bind_run _ _ _ _ _ (Hu _ _ _)). simpl. rewrite (bind_run _ _ _ _ _ (Hu _ _ _)), E2. done.
  - rewrite (bind_run _ _ _ true (q, c2 :: r)); [done|].
    rewrite (bind_run _ _ _ _ _ (Hu _ _ _)). rewrite (proj2 (Z.eqb_neq _ _)) by done. done.
Qed.

(** A declared length so large that adding two overflows. *)
Lemma bulk_data_overflow q b :
  USIZE_MAX - 2 < ps_bulk_len q <= USIZE_MAX -> zlen b <= ISIZE_MAX ->
  bulk_data_round p (q, b) =
    match p with
    | Debug => (Panic, (q, b))
    | Release => (if zlen b <? ps_bulk_len q + 2 - 18446744073709551616
                  then Ret (Return (Ok None)) else Panic, (q, b))
    end.
Proof.
  intros Hl Hb. unfold bulk_data_round. set (n := ps_bulk_len q) in *.
  rewrite (bind_run _ _ (q, b) n (q, b)) by done.
  assert (Ha : usize_add p n 2 = match p with Debug => Panic | Release => Ret (wrap64 (n + 2)) end).
  { unfold usize_add. by rewrite (proj2 (Z.leb_gt _ _)) by lia. }
  rewrite Ha. destruct p; [done|]. rewrite (bind_run _ _ (q, b) (wrap64 (n + 2)) (q, b)) by done.
  rewrite (bind_run _ _ (q, b) (zlen b) (q, b)) by done.
  unfold USIZE_MAX, ISIZE_MAX in *.
  assert (Hw : wrap64 (n + 2) = n + 2 - 18446744073709551616).
  { unfold wrap64. symmetry. apply (Z.mod_unique_pos _ _ 1); lia. }
  rewrite Hw. case_match; [done|]. unfold mbind, M_bind, take_data. simpl.
  by rewrite split_to_out by lia.
Qed.

(** ** Invariant, termination, resumption *)

(** The parser's invariant: inside an array at least one argument is missing. *)
Record parser_wf (q : RespParser) : Prop := mkParserWf {
  pw_len : 0 <= ps_bulk_len q <= USIZE_MAX;
  pw_rem : 0 <= ps_remaining q <= USIZE_MAX;
  pw_state : ps_state q ≠ ArrayLen -> 1 <= ps_remaining q;
  pw_args : ps_state q = ArrayLen -> ps_remaining q = 0 -> ps_args q = []
}.

Lemma parser_new_wf : parser_wf parser_new.
Proof. by split. Qed.

Lemma array_header_wf l q res q' : parser_wf q -> array_header l q = (res, q') -> parser_wf q'.
Proof.
  intros Hq. unfold array_header. case_decide; [|by intros [= <- <-]].
  destruct (parse_usize (tail l)) as [n|e] eqn:E; [|by intros [= <- <-]].
  apply parse_usize_range in E. destruct Hq.
  destruct (Z.eqb_spec n 0); intros [= <- <-]; split; simpl; done || lia.
Qed.

Lemma bulk_header_wf l q res q' :
  parser_wf q -> ps_state q = BulkLen -> bulk_header l q = (res, q') -> parser_wf q'.
Proof.
  intros Hq Hs. unfold bulk_header. case_decide; [|by intros [= <- <-]].
  destruct (parse_usize (tail l)) as [n|e] eqn:E; [|by intros [= <- <-]].
  apply parse_usize_range in E. destruct Hq as [Hl Hr Hst Ha]. rewrite Hs in Hst.
  intros [= <- <-]. split; simpl; try done; auto.
Qed.

Lemma push_arg_wf data q res q' :
  parser_wf q -> 1 <= ps_remaining q -> push_arg data q = (res, q') -> parser_wf q'.
Proof.
  intros Hq Hr. unfold push_arg. destruct Hq.
  destruct (Z.eqb_spec (ps_remaining q - 1) 0); intros [= <- <-]; split; simpl; done || lia.
Qed.

(** A round that yields something other than "more input" works the same when
    more input follows; asking for more input changes nothing. *)
Definition round_resumes (run : RespParser -> bytes -> outcome round * (RespParser * bytes)) q b : Prop :=
  match run q b with
  | (Ret (Return (Ok None)), s') => s' = (q, b)
  | (Ret r, (q', b')) => parser_wf q' /\ (length b' < length b)%nat /\
      forall m, run q (b ++ m) = (Ret r, (q', b' ++ m))
  | (Panic, (q', b')) => forall m, zlen (b ++ m) <= ISIZE_MAX -> run q (b ++ m) = (Panic, (q', b' ++ m))
  | (OutOfFuel, _) => False
  end.

Lemma line_round_resumes f q b :
  (forall l res q', f l q = (res, q') -> parser_wf q' /\ res ≠ Return (Ok None)) ->
  round_resumes (line_round f) q b.
Proof.
  intros Hf. unfold round_resumes, line_round. destruct (crlf_split b) as [[l r]|] eqn:E; [|done].
  destruct (f l q) as [res q'] eqn:Ef. destruct (Hf _ _ _ Ef) as [Hq' Hres].
  assert (Hlen : (length r < length b)%nat).
  { rewrite (crlf_split_Some _ _ _ E), !length_app. simpl. lia. }
  assert (Hext : forall m, crlf_split (b ++ m) = Some (l, r ++ m)) by (intros; by apply crlf_split_extend).
  destruct res as [|[[c|]|e]]; try done; (split_and!; [done..|]; intros m; by rewrite Hext, Ef).
Qed.

Lemma bulk_data_resumes q b :
  parser_wf q -> 1 <= ps_remaining q -> round_resumes bulk_data_spec q b.
Proof.
  intros Hq Hr. unfold round_resumes, bulk_data_spec. set (n := Z.to_nat (ps_bulk_len q)).
  destruct (drop n b) as [|c1 [|c2 r]] eqn:E; [done..|].
  assert (Hn : (n + 2 <= length b)%nat).
  { apply (f_equal length) in E. rewrite length_drop in E. simpl in E. lia. }
  assert (Hlen : (length b = n + S (S (length r)))%nat).
  { apply (f_equal length) in E. rewrite length_drop in E. simpl in E. lia. }
  assert (Hext : forall m, drop n (b ++ m) = c1 :: c2 :: (r ++ m) /\ take n (b ++ m) = take n b).
  { intros m. rewrite drop_app_le, take_app_le, E by lia. done. }
  destruct (push_arg (take n b) q) as [res q'] eqn:Ep.
  destruct (c1 =? CR) eqn:E1; [destruct (c2 =? LF) eqn:E2|].
  - pose proof (push_arg_wf _ _ _ _ Hq Hr Ep) as Hq'.
    assert (Hres : res ≠ Return (Ok None)) by (unfold push_arg in Ep; destruct (_ =? 0); by simplify_eq).
    destruct res as [|[[c|]|e]]; try done; (split_and!; [done|lia|]; intros m;
      destruct (Hext m) as [-> ->]; by rewrite E1, E2, Ep).
  - split_and!; [done|lia|]. intros m. destruct (Hext m) as [-> ->]. by rewrite E1, E2.
  - split_and!; [done|simpl; lia|]. intros m. destruct (Hext m) as [-> ->]. by rewrite E1.
Qed.

(** Rounds as a function of parser and buffer. *)
Definition round_at q b := parse_round p (q, b).

Lemma round_at_state q b :
  round_at q b = match ps_state q with
    | ArrayLen => line_round array_header q b
    | BulkLen => line_round bulk_header q b
    | BulkData => bulk_data_round p (q, b)
    end.
Proof.
  unfold round_at, parse_round. rewrite (bind_run _ _ (q, b) (ps_state q) (q, b)) by done.
  destruct (ps_state q); [apply array_len_run|apply bulk_len_run|done].
Qed.

Lemma round_resumes_ext run run' q b :
  (forall m, run q (b ++ m) = run' q (b ++ m)) -> round_resumes run' q b -> round_resumes run q b.
Proof.
  intros E. unfold round_resumes. pose proof (E []) as E0. rewrite app_nil_r in E0. rewrite E0.
  destruct (run' q b) as [[[|[[c|]|e]]| |] [q' b']]; try done.
  4: { intros Hm m ?. rewrite E. by apply Hm. }
  all: intros (? & ? & Hm); (split_and!; [done..|]); intros m; by rewrite E.
Qed.

Lemma parse_round_resumes q b :
  parser_wf q -> zlen b <= ISIZE_MAX -> round_resumes round_at q b.
Proof.
  intros Hq Hb. destruct (ps_state q) eqn:Es.
  - apply (round_resumes_ext _ (line_round array_header)); [intros m; by rewrite round_at_state, Es|].
    apply line_round_resumes. intros l res q' E. split; [by eapply array_header_wf|].
    unfold array_header in E. by repeat case_match; simplify_eq.
  - apply (round_resumes_ext _ (line_round bulk_header)); [intros m; by rewrite round_at_state, Es|].
    apply line_round_resumes. intros l res q' E. split; [by eapply bulk_header_wf|].
    unfold bulk_header in E. by repeat case_match; simplify_eq.
  - pose proof (pw_len _ Hq) as Hl. pose proof (pw_state _ Hq ltac:(by rewrite Es)) as Hst.
    destruct (decide (ps_bulk_len q <= USIZE_MAX - 2)) as [Hle|Hgt].
    + apply (round_resumes_ext _ bulk_data_spec); [|by apply bulk_data_resumes].
      intros m. rewrite round_at_state, Es. apply bulk_data_run; lia.
    + assert (Hrun : forall m, zlen (b ++ m) <= ISIZE_MAX -> round_at q (b ++ m) =
        match p with
        | Debug => (Panic, (q, b ++ m))
        | Release => (if zlen (b ++ m) <? ps_bulk_len q + 2 - 18446744073709551616
                      then Ret (Return (Ok None)) else Panic, (q, b ++ m))
        end).
      { intros m Hm. rewrite round_at_state, Es. apply bulk_data_overflow; lia. }
      unfold round_resumes. pose proof (Hrun [] ltac:(by rewrite app_nil_r)) as E0.
      rewrite app_nil_r in E0. rewrite E0. destruct p; [done|].
      destruct (Z.ltb_spec (zlen b) (ps_bulk_len q + 2 - 18446744073709551616)) as [|Hge]; [done|].
      intros m Hm. rewrite Hrun by done. rewrite (proj2 (Z.ltb_ge _ _)); [done|].
      rewrite zlen_app. pose proof (zlen_nonneg m). lia.
Qed.

(** Enough fuel is enough. *)
Lemma parse_loop_fuel f f' q b :
  parser_wf q -> zlen b <= ISIZE_MAX -> (length b < f)%nat -> (f <= f')%nat ->
  parse_loop p f' (q, b) = parse_loop p f (q, b).
Proof.
  revert f' q b. induction f as [|f IH]; intros f' q b Hq Hb Hf Hle; [lia|].
  destruct f' as [|f']; [lia|]. cbn [parse_loop]. unfold mbind, M_bind.
  pose proof (parse_round_resumes q b Hq Hb) as Hr. unfold round_resumes, round_at in Hr.
  destruct (parse_round p (q, b)) as [[[|r]| |] [q' b']]; [|done..].
  destruct Hr as (Hq' & Hlt & _). apply IH; [done| |lia|lia]. unfold zlen in *. lia.
Qed.

(** The loop of [parse], one round at a time. *)
Lemma parse_unfold q b :
  parser_wf q -> zlen b <= ISIZE_MAX ->
  parse p (q, b) =
    match parse_round p (q, b) with
    | (Ret Continue, s') => parse p s'
    | (Ret (Return r), s') => (Ret r, s')
    | (Panic, s') => (Panic, s')
    | (OutOfFuel, s') => (OutOfFuel, s')
    end.
Proof.
  intros Hq Hb. unfold parse at 1. cbn [snd parse_loop]. unfold mbind, M_bind.
  pose proof (parse_round_resumes q b Hq Hb) as Hr. unfold round_resumes, round_at in Hr.
  destruct (parse_round p (q, b)) as [[[|r]| |] [q' b']]; [|done..].
  destruct Hr as (Hq' & Hlt & _). unfold parse. simpl.
  apply (parse_loop_fuel (S (length b'))); [done| |lia|simpl; lia]. unfold zlen in *. lia.
Qed.

(** [parse] on a prefix of the input, and on all of it. *)
Definition parse_resumes q b : Prop :=
  match parse p (q, b) with
  | (Ret (Ok None), (q', b')) => parser_wf q' /\ (length b' <= length b)%nat /\
      forall m, zlen (b ++ m) <= ISIZE_MAX -> parse p (q, b ++ m) = parse p (q', b' ++ m)
  | (Ret r, (q', b')) => parser_wf q' /\ (length b' < length b)%nat /\
      forall m, zlen (b ++ m) <= ISIZE_MAX -> parse p (q, b ++ m) = (Ret r, (q', b' ++ m))
  | (Panic, (q', b')) =>
      forall m, zlen (b ++ m) <= ISIZE_MAX -> parse p (q, b ++ m) = (Panic, (q', b' ++ m))
  | (OutOfFuel, _) => False
  end.

Lemma parse_resumes_ok q b : parser_wf q -> zlen b <= ISIZE_MAX -> parse_resumes q b.
Proof.
  remember (length b) as n eqn:En. revert q b En.
  induction (lt_wf n) as [n _ IH]. intros q b En Hq Hb. subst n.
  pose proof (parse_round_resumes q b Hq Hb) as Hr. unfold round_resumes, round_at in Hr.
  unfold parse_resumes. rewrite parse_unfold by done.
  destruct (parse_round p (q, b)) as [[[|r]| |] [q' b']] eqn:Eround; [| | |done].
  - destruct Hr as (Hq' & Hlt & Hext).
    assert (Hb' : zlen b' <= ISIZE_MAX) by (unfold zlen in *; lia).
    specialize (IH (length b') Hlt q' b' eq_refl Hq' Hb'). unfold parse_resumes in IH.
    assert (Hstep : forall m, zlen (b ++ m) <= ISIZE_MAX -> parse p (q, b ++ m) = parse p (q', b' ++ m)).
    { intros m Hm. rewrite parse_unfold by done. by rewrite Hext. }
    assert (Hm' : forall m, zlen (b ++ m) <= ISIZE_MAX -> zlen (b' ++ m) <= ISIZE_MAX).
    { intros m. rewrite !zlen_app. unfold zlen in *. lia. }
    destruct (parse p (q', b')) as [[[[c|]|e]| |] [q2 b2]]; try done.
    4: { intros m Hm. rewrite Hstep by done. by apply IH, Hm'. }
    all: destruct IH as (Hq2 & Hlt2 & IH); (split_and!; [done|lia|]); intros m Hm;
      rewrite Hstep by done; by apply IH, Hm'.
  - destruct r as [[c|]|e].
    + destruct Hr as (Hq' & Hlt & Hext). split_and!; [done..|]. intros m Hm.
      rewrite parse_unfold by done. by rewrite Hext.
    + simplify_eq. done.
    + destruct Hr as (Hq' & Hlt & Hext). split_and!; [done..|]. intros m Hm.
      rewrite parse_unfold by done. by rewrite Hext.
  - intros m Hm. rewrite parse_unfold by done. specialize (Hr m Hm). unfold round_at in Hr. by rewrite Hr.
Qed.

(** ** The grammar of commands *)

(** A header line: a type byte, decimal digits, CRLF; numbers beyond the
    largest [usize] are clamped to it. *)
Definition num_line (c : Z) (w : bytes) (n : Z) : Prop :=
  exists ds, ds ≠ [] /\ forallb is_digit ds = true /\
    n = Z.min USIZE_MAX (digits_value ds) /\ w = c :: ds ++ crlf.

Definition bulk_frame (a w : bytes) : Prop :=
  exists hdr, num_line 36 hdr (zlen a) /\ w = hdr ++ a ++ crlf.

(** [frame args w]: [w] is one command with arguments [args]. *)
Definition frame (args : command) (w : bytes) : Prop :=
  exists hdr ws, num_line 42 hdr (zlen args) /\ Forall2 bulk_frame args ws /\ w = hdr ++ mjoin ws.

Lemma num_line_split c w n r :
  c ≠ CR -> num_line c w n ->
  exists ds, crlf_split (w ++ r) = Some (c :: ds, r) /\ parse_usize ds = Ok n.
Proof.
  intros Hc (ds & Hne & Hd & -> & ->). exists ds. split; [|by apply parse_usize_Ok].
  change ((c :: ds ++ crlf) ++ r) with (c :: (ds ++ crlf) ++ r). rewrite <- app_assoc.
  apply (crlf_split_line (c :: ds)). apply not_elem_of_cons. split; [congruence|].
  by apply digits_no_CR.
Qed.

Lemma num_line_inv b c l r n :
  crlf_split b = Some (l, r) -> head l = Some c -> parse_usize (tail l) = Ok n ->
  exists w, num_line c w n /\ b = w ++ r.
Proof.
  intros Hs Hh (Hne & Hd & ->)%parse_usize_Ok. destruct l as [|c' ds]; simplify_eq/=.
  exists (c :: ds ++ crlf). split; [by exists ds|]. rewrite (crlf_split_Some _ _ _ Hs).
  simpl. by rewrite <- app_assoc.
Qed.

Lemma parse_array_header q w n r :
  parser_wf q -> ps_state q = ArrayLen -> num_line 42 w n -> zlen (w ++ r) <= ISIZE_MAX -> n ≠ 0 ->
  parse p (q, w ++ r) = parse p (mkParser BulkLen [] n (ps_bulk_len q), r).
Proof.
  intros Hq Hs Hw Hb Hn. rewrite parse_unfold by done.
  change (parse_round p (q, w ++ r)) with (round_at q (w ++ r)). rewrite round_at_state, Hs.
  destruct (num_line_split 42 w n r ltac:(done) Hw) as (ds & Hsp & Hp).
  unfold line_round, array_header. rewrite Hsp. simpl. rewrite Hp.
  by rewrite (proj2 (Z.eqb_neq n 0)).
Qed.

Lemma parse_bulk q a w r :
  parser_wf q -> ps_state q = BulkLen -> bulk_frame a w -> zlen (w ++ r) <= ISIZE_MAX ->
  parse p (q, w ++ r) =
    let args := ps_args q ++ [a] in
    if ps_remaining q - 1 =? 0
    then (Ret (Ok (Some args)), (mkParser ArrayLen [] 0 (zlen a), r))
    else parse p (mkParser BulkLen args (ps_remaining q - 1) (zlen a), r).
Proof.
  intros Hq Hs (hdr & Hw & ->) Hb. rewrite <- !app_assoc in *.
  pose proof (pw_state _ Hq ltac:(by rewrite Hs)) as Hrem. pose proof (pw_rem _ Hq) as Hrem'.
  assert (Hza : 0 <= zlen a <= USIZE_MAX - 2).
  { rewrite !zlen_app in Hb. unfold zlen, ISIZE_MAX, USIZE_MAX in *. lia. }
  rewrite parse_unfold by done. change (parse_round p (q, ?x)) with (round_at q x).
  rewrite round_at_state, Hs.
  destruct (num_line_split 36 hdr (zlen a) (a ++ crlf ++ r) ltac:(done) Hw) as (ds & Hsp & Hp).
  unfold line_round, bulk_header. rewrite Hsp. cbn [head tail]. rewrite decide_True, Hp by done.
  set (q1 := mkParser BulkData _ _ _).
  assert (Hq1 : parser_wf q1) by (split; simpl; intros; lia || done).
  rewrite parse_unfold; [|exact Hq1|rewrite zlen_app in Hb; pose proof (zlen_nonneg hdr); lia].
  change (parse_round p (q1, ?x)) with (round_at q1 x). rewrite round_at_state. cbn [ps_state q1].
  rewrite bulk_data_run by (simpl; lia). unfold bulk_data_spec. cbn [ps_bulk_len q1].
  replace (Z.to_nat (zlen a)) with (length a) by (unfold zlen; lia).
  rewrite drop_app_length, take_app_length. cbn [crlf app]. change (CR =? CR) with true.
  change (LF =? LF) with true. cbn iota. unfold push_arg. cbn [ps_remaining ps_args ps_bulk_len q1].
  destruct (Z.eqb_spec (ps_remaining q - 1) 0) as [E|E]; [rewrite E|]; reflexivity.
Qed.

(** A parser between two commands. *)
Definition at_start (q : RespParser) : Prop :=
  ps_state q = ArrayLen /\ ps_args q = [] /\ ps_remaining q = 0 /\ 0 <= ps_bulk_len q <= USIZE_MAX.

Lemma at_start_wf q : at_start q -> parser_wf q.
Proof. intros (Hs & Ha & Hr & Hl). split; rewrite ?Hr, ?Hs; done. Qed.

Lemma parse_args args ws q r :
  parser_wf q -> ps_state q = BulkLen -> args ≠ [] -> ps_remaining q = zlen args ->
  Forall2 bulk_frame args ws -> zlen (mjoin ws ++ r) <= ISIZE_MAX ->
  exists q', at_start q' /\
    parse p (q, mjoin ws ++ r) = (Ret (Ok (Some (ps_args q ++ args))), (q', r)).
Proof.
  intros Hq Hs Hne Hrem Hws. revert q Hq Hs Hne Hrem.
  induction Hws as [|a w args ws Ha Hws IH]; intros q Hq Hs Hne Hrem Hb; [done|].
  change (mjoin (w :: ws)) with (w ++ mjoin ws) in *. rewrite <- app_assoc in *.
  pose proof (pw_rem _ Hq) as Hr. rewrite zlen_cons in Hrem. pose proof (zlen_nonneg args).
  assert (Hza : zlen a <= USIZE_MAX).
  { destruct Ha as (hdr & _ & ->). rewrite !zlen_app in Hb. unfold zlen, ISIZE_MAX, USIZE_MAX in *. lia. }
  pose proof (zlen_nonneg a).
  rewrite (parse_bulk q a w) by done. cbn zeta. destruct (Z.eqb_spec (ps_remaining q - 1) 0) as [E|E].
  - destruct args; [|rewrite zlen_cons in *; pose proof (zlen_nonneg args); lia].
    inversion Hws; subst. eexists; split; [|reflexivity]. done.
  - set (q1 := mkParser _ _ _ _).
    destruct (IH q1) as (q' & Hq' & E').
    + split; simpl; intros; lia || done.
    + done.
    + intros ->. change (zlen (@nil bytes)) with 0 in *. lia.
    + simpl. lia.
    + rewrite zlen_app in Hb. pose proof (zlen_nonneg w). lia.
    + exists q'. split; [done|]. rewrite E'. simpl. by rewrite <- app_assoc.
Qed.

(** Every command of the grammar is parsed, whatever follows it. *)
Lemma parse_frame q args w r :
  at_start q -> frame args w -> zlen (w ++ r) <= ISIZE_MAX ->
  exists q', at_start q' /\ parse p (q, w ++ r) = (Ret (Ok (Some args)), (q', r)).
Proof.
  intros Hq (hdr & ws & Hh & Hws & ->) Hb. pose proof (at_start_wf _ Hq) as Hwf.
  destruct Hq as (Hs & Ha & Hr & Hl). rewrite <- app_assoc in *.
  destruct args as [|a args].
  - inversion Hws; subst. simpl in *. exists (mkParser ArrayLen [] 0 (ps_bulk_len q)).
    split; [done|]. rewrite parse_unfold by done. change (parse_round p (q, ?x)) with (round_at q x).
    rewrite round_at_state, Hs.
    destruct (num_line_split 42 hdr 0 r ltac:(done) Hh) as (ds & Hsp & Hp).
    unfold line_round, array_header. rewrite Hsp. simpl. by rewrite Hp.
  - assert (Hn : 1 <= zlen (a :: args) <= USIZE_MAX).
    { rewrite zlen_cons. pose proof (zlen_nonneg args). split; [lia|].
      destruct Hh as (ds & _ & _ & E & _). rewrite <- zlen_cons with (x := a). lia. }
    rewrite (parse_array_header q hdr (zlen (a :: args))) by (done || lia).
    destruct (parse_args (a :: args) ws (mkParser BulkLen [] (zlen (a :: args)) (ps_bulk_len q)) r)
      as (q' & Hq' & E); [split; simpl; intros; lia || done|done..| |by exists q'].
    rewrite zlen_app in Hb. pose proof (zlen_nonneg hdr). lia.
Qed.

(** Between two commands there is nothing to parse. *)
Lemma parse_nothing q : at_start q -> parse p (q, []) = (Ret (Ok None), (q, [])).
Proof.
  intros Hs. rewrite parse_unfold by (apply at_start_wf || done; done).
  change (parse_round p (q, [])) with (round_at q []). rewrite round_at_state. destruct Hs as (-> & _). done.
Qed.

(** What has been read when [parse] returns a command, by the state it started
    in. *)
Definition consumed (q : RespParser) (args : command) (w : bytes) : Prop :=
  match ps_state q with
  | ArrayLen => frame args w
  | BulkLen => exists new ws, args = ps_args q ++ new /\ zlen new = ps_remaining q /\
      Forall2 bulk_frame new ws /\ w = mjoin ws
  | BulkData => exists a new ws, args = ps_args q ++ a :: new /\ zlen a = ps_bulk_len q /\
      1 + zlen new = ps_remaining q /\ Forall2 bulk_frame new ws /\ w = a ++ crlf ++ mjoin ws
  end.

(** One round, undone: the input of a round that continues. *)
Lemma consumed_continue q b q1 b1 args w :
  parser_wf q -> zlen b <= ISIZE_MAX -> round_at q b = (Ret Continue, (q1, b1)) ->
  consumed q1 args w -> exists w0, b = w0 ++ b1 /\ consumed q args (w0 ++ w).
Proof.
  intros Hq Hb. rewrite round_at_state. unfold consumed. destruct (ps_state q) eqn:Es.
  - unfold line_round. destruct (crlf_split b) as [[l r]|] eqn:Esp; [|done].
    unfold array_header. destruct (decide (head l = Some 42)) as [Hh|]; [|done].
    destruct (parse_usize (tail l)) as [n|e] eqn:Ep; [|done].
    destruct (n =? 0); [done|]. intros [= <- <-]. simpl.
    intros (new & ws & -> & Hn & Hws & ->).
    destruct (num_line_inv _ _ _ _ _ Esp Hh Ep) as (hdr & Hhdr & ->).
    exists hdr. split; [done|]. exists hdr, ws. by rewrite Hn.
  - unfold line_round. destruct (crlf_split b) as [[l r]|] eqn:Esp; [|done].
    unfold bulk_header. destruct (decide (head l = Some 36)) as [Hh|]; [|done].
    destruct (parse_usize (tail l)) as [n|e] eqn:Ep; [|done]. intros [= <- <-]. simpl.
    intros (a & new & ws & -> & Ha & Hn & Hws & ->).
    destruct (num_line_inv _ _ _ _ _ Esp Hh Ep) as (hdr & Hhdr & ->).
    exists hdr. split; [done|]. exists (a :: new), ((hdr ++ a ++ crlf) :: ws).
    split_and!; [done|by rewrite zlen_cons| |simpl; by rewrite <- !app_assoc].
    constructor; [|done]. exists hdr. by rewrite Ha.
  - pose proof (pw_len _ Hq) as Hl. pose proof (pw_state _ Hq ltac:(by rewrite Es)) as Hst.
    destruct (decide (ps_bulk_len q <= USIZE_MAX - 2)) as [Hle|Hgt].
    2: { rewrite bulk_data_overflow by lia. destruct p; [done|]. by destruct (_ <? _). }
    rewrite bulk_data_run by lia. unfold bulk_data_spec. set (n := Z.to_nat (ps_bulk_len q)).
    destruct (drop n b) as [|c1 [|c2 r]] eqn:Ed; [done..|].
    destruct (Z.eqb_spec c1 CR) as [->|]; [|done]. destruct (Z.eqb_spec c2 LF) as [->|]; [|done].
    unfold push_arg. destruct (_ =? 0); [done|]. intros [= <- <-]. simpl.
    intros (new & ws & -> & Hn & Hws & ->).
    assert (Hlen : (n + 2 <= length b)%nat).
    { apply (f_equal length) in Ed. rewrite length_drop in Ed. simpl in Ed. lia. }
    exists (take n b ++ crlf). split; [|exists (take n b), new, ws; split_and!].
    + rewrite <- (take_drop n b) at 1. rewrite Ed. by rewrite <- app_assoc.
    + by rewrite <- app_assoc.
    + unfold zlen. rewrite length_take. lia.
    + lia.
    + done.
    + by rewrite <- app_assoc.
Qed.

Lemma consumed_return q b args q1 b1 :
  parser_wf q -> zlen b <= ISIZE_MAX -> round_at q b = (Ret (Return (Ok (Some args))), (q1, b1)) ->
  at_start q1 /\ exists w, b = w ++ b1 /\ consumed q args w.
Proof.
  intros Hq Hb. pose proof (pw_len _ Hq) as Hl. rewrite round_at_state. unfold consumed.
  destruct (ps_state q) eqn:Es.
  - unfold line_round. destruct (crlf_split b) as [[l r]|] eqn:Esp; [|done].
    unfold array_header. destruct (decide (head l = Some 42)) as [Hh|]; [|done].
    destruct (parse_usize (tail l)) as [n|e] eqn:Ep; [|done].
    destruct (Z.eqb_spec n 0) as [->|]; [|done]. intros [= <- <- <-].
    destruct (num_line_inv _ _ _ _ _ Esp Hh Ep) as (hdr & Hhdr & ->).
    split; [done|]. exists hdr. split; [done|]. exists hdr, []. simpl.
    split_and!; [done|constructor|by rewrite app_nil_r].
  - unfold line_round. destruct (crlf_split b) as [[l r]|]; [|done].
    unfold bulk_header. case_decide; [|done]. by destruct (parse_usize (tail l)).
  - pose proof (pw_state _ Hq ltac:(by rewrite Es)) as Hst.
    destruct (decide (ps_bulk_len q <= USIZE_MAX - 2)) as [Hle|Hgt].
    2: { rewrite bulk_data_overflow by lia. destruct p; [done|]. by destruct (_ <? _). }
    rewrite bulk_data_run by lia. unfold bulk_data_spec. set (n := Z.to_nat (ps_bulk_len q)).
    destruct (drop n b) as [|c1 [|c2 r]] eqn:Ed; [done..|].
    destruct (Z.eqb_spec c1 CR) as [->|]; [|done]. destruct (Z.eqb_spec c2 LF) as [->|]; [|done].
    unfold push_arg. destruct (Z.eqb_spec (ps_remaining q - 1) 0) as [E|]; [|done].
    intros [= <- <- <-]. split; [split_and!; simpl; lia || done|].
    assert (Hlen : (n + 2 <= length b)%nat).
    { apply (f_equal length) in Ed. rewrite length_drop in Ed. simpl in Ed. lia. }
    exists (take n b ++ crlf). split; [|exists (take n b), [], []; split_and!].
    + rewrite <- (take_drop n b) at 1. rewrite Ed. by rewrite <- app_assoc.
    + done.
    + unfold zlen. rewrite length_take. lia.
    + rewrite zlen_nil. lia.
    + constructor.
    + done.
Qed.

Lemma parse_consumed q b args q' b' :
  parser_wf q -> zlen b <= ISIZE_MAX -> parse p (q, b) = (Ret (Ok (Some args)), (q', b')) ->
  at_start q' /\ exists w, b = w ++ b' /\ consumed q args w.
Proof.
  remember (length b) as n eqn:En. revert q b En.
  induction (lt_wf n) as [n _ IH]. intros q b En Hq Hb E. subst n. rewrite parse_unfold in E by done.
  pose proof (parse_round_resumes q b Hq Hb) as Hr. unfold round_resumes in Hr.
  change (parse_round p (q, b)) with (round_at q b) in E.
  destruct (round_at q b) as [[[|r]| |] [q1 b1]] eqn:Eround; [| |done..].
  - destruct Hr as (Hq1 & Hlt & _).
    destruct (IH (length b1) Hlt q1 b1 eq_refl Hq1 ltac:(unfold zlen in *; lia) E) as (Hs & w & -> & Hc).
    split; [done|]. destruct (consumed_continue q b q1 (w ++ b') args w Hq Hb Eround Hc) as (w0 & -> & Hc').
    exists (w0 ++ w). by rewrite <- app_assoc.
  - injection E as -> -> ->. by apply consumed_return.
Qed.

End parser_lemmas.
