(* ===== verification/ClientResp.v ===== *)
(** * The client's RESP2 codec (hkv-client/src/resp.rs)

    Command encoding and response parsing over a buffered reader.  Definitions,
    then lemmas; [RespClaims] states the properties. *)

From S2P Require Import Prelude Decimal.

(** ** Data *)

(** [std::io::Error], by what the client can see of it. *)
Inductive io_error := UnexpectedEof | InvalidInput | IoFailure (code : Z).

(** [enum ClientError] (hkv-client/src/client.rs). *)
Inductive ClientError :=
| ClientError_Io (err : io_error)
| ClientError_Protocol
| ClientError_Server (message : bytes)
| ClientError_UnexpectedResponse
| ClientError_PoolExhausted
| ClientError_InvalidAddress.

Abbreviation ClientResult A := (result A ClientError).

(** [enum RespValue]. *)
#[local] Set Warnings "-register-all".
Inductive RespValue :=
| Simple (s : bytes)
| Error (s : bytes)
| Integer (n : Z)
| Bulk (o : option bytes)
| Array (items : list RespValue).

(** ** Encoding *)

(** The loop over the arguments of [encode_command]. *)
Fixpoint encode_args (args : list bytes) (out : bytes) : outcome bytes :=
  match args with
  | [] => Ret out
  | arg :: rest =>
      let out := out ++ [36] in
      out ← push_usize out (zlen arg);
      let out := out ++ crlf in
      let out := out ++ arg in
      let out := out ++ crlf in
      encode_args rest out
  end.

(** [encode_command]. *)
Definition encode_command (args : list bytes) (out : bytes) : outcome bytes :=
  let out := out ++ [42] in
  out ← push_usize out (zlen args);
  let out := out ++ crlf in
  encode_args args out.

(** ** The reader

    A [BufRead] as the bytes it will still deliver and how it ends: end of
    stream, or an error (a closed connection, a timeout). *)

Record Reader := mkReader { rd_data : bytes; rd_end : option io_error }.

(** The reader together with the caller's line buffer. *)
Record ReadState := mkRead { rs_reader : Reader; rs_line : bytes }.

Abbreviation RM A := (M ReadState (ClientResult A)).

(** [?]: an error result ends the function. *)
Definition try_bind {A B} (m : RM A) (f : A -> RM B) : RM B :=
  r ← m;
  match r with
  | Ok a => f a
  | Err e => mret (Err e)
  end.

Notation "x ←? m ; k" := (try_bind m (fun x => k))
  (at level 20, m at level 100, k at level 200, right associativity, only parsing).

Definition ok {A} (a : A) : RM A := mret (Ok a).
Definition err {A} (e : ClientError) : RM A := mret (Err e).

(** Splits after the first LF. *)
Fixpoint until_lf (data : bytes) : option (bytes * bytes) :=
  match data with
  | [] => None
  | b :: rest =>
      if b =? LF then Some ([b], rest)
      else (fun lr => (b :: lr.1, lr.2)) <$> until_lf rest
  end.

(** [reader.read_until(b'\n', buf)?]: appends to the line buffer, returns the
    number of bytes. *)
Definition read_until_lf : RM Z := fun s =>
  let '(mkReader data ending) := rs_reader s in
  match until_lf data with
  | Some (l, rest) => (Ret (Ok (zlen l)), mkRead (mkReader rest ending) (rs_line s ++ l))
  | None =>
      let s' := mkRead (mkReader [] ending) (rs_line s ++ data) in
      match ending with
      | None => (Ret (Ok (zlen data)), s')
      | Some e => (Ret (Err (ClientError_Io e)), s')
      end
  end.

(** [reader.read_exact(&mut data)?] for a buffer of [n] bytes. *)
Definition read_exact (n : Z) : RM bytes := fun s =>
  let '(mkReader data ending) := rs_reader s in
  if n <=? zlen data then
    (Ret (Ok (take (Z.to_nat n) data)), mkRead (mkReader (drop (Z.to_nat n) data) ending) (rs_line s))
  else
    (Ret (Err (ClientError_Io (default UnexpectedEof ending))),
     mkRead (mkReader [] ending) (rs_line s)).

Definition set_line (f : bytes -> bytes) : RM unit :=
  _ ← modify (fun s => mkRead (rs_reader s) (f (rs_line s))); ok tt.

(** ** Response parsing *)

(** [read_line]. *)
Definition client_read_line : RM unit :=
  _ ←? set_line (fun _ => []);
  n ←? read_until_lf;
  if n =? 0 then err ClientError_Protocol
  else
    line ←? (fun s => ok (rs_line s) s);
    if decide (zlen line < 2) then err ClientError_Protocol
    else if decide (line !! (length line - 2)%nat = Some CR)
    then set_line (fun l => take (length l - 2) l)
    else err ClientError_Protocol.

(** [parse_i64]. *)
Definition parse_i64 (data : bytes) : ClientResult Z :=
  match data with
  | [] => Err ClientError_Protocol
  | b :: rest =>
      let negative := b =? 45 in
      match digit_fold I64_MAX 0 (if negative then rest else data) with
      | Some value => Ok (if negative then - value else value)
      | None => Err ClientError_Protocol
      end
  end.

(** [parse_bulk_len]; the declared length is allocated before it is read. *)
Definition parse_bulk_len (len : Z) : RM RespValue :=
  if len <? 0 then ok (Bulk None)
  else
    data ←? read_exact len;
    terminator ←? read_exact 2;
    if decide (terminator = crlf) then
      _ ←? set_line (fun _ => []);
      ok (Bulk (Some data))
    else err ClientError_Protocol.

(** The size of a [RespValue], which the language leaves open: at least the three
    words of the vector it can hold. *)
Class RespLayout := {
  respvalue_size : Z;
  respvalue_size_min : 24 <= respvalue_size
}.

Section responses.
Context `{RespLayout}.

(** [Vec::with_capacity(n)]: panics when the bytes do not fit an [isize]. *)
Definition with_capacity (n : Z) : RM unit :=
  if n * respvalue_size <=? ISIZE_MAX then ok tt else panic.

(** The [for] loop of [parse_array_len]; [n] rounds are left. *)
Fixpoint read_items (read : RM RespValue) (fuel : nat) (n : Z) (items : list RespValue) :
    RM (list RespValue) :=
  if n <=? 0 then ok items
  else
    match fuel with
    | O => out_of_fuel
    | S f =>
        item ←? read;
        read_items read f (n - 1) (items ++ [item])
    end.

(** [parse_array_len]. *)
Definition parse_array_len (read : RM RespValue) (fuel : nat) (len : Z) : RM RespValue :=
  if len <=? 0 then ok (Array [])
  else
    _ ←? with_capacity len;
    items ←? read_items read fuel len [];
    ok (Array items).

(** [read_response].  Every value consumes at least a line, so that both the
    nesting and the items are bounded by the bytes to come. *)
Fixpoint read_response_loop (fuel : nat) : RM RespValue :=
  match fuel with
  | O => out_of_fuel
  | S f =>
      _ ←? client_read_line;
      line ←? (fun s => ok (rs_line s) s);
      match line with
      | [] => err ClientError_Protocol
      | c :: rest =>
          if c =? 43 then ok (Simple rest)
          else if c =? 45 then ok (Error rest)
          else if c =? 58 then
            match parse_i64 rest with Ok n => ok (Integer n) | Err e => err e end
          else if c =? 36 then
            match parse_i64 rest with Ok n => parse_bulk_len n | Err e => err e end
          else if c =? 42 then
            match parse_i64 rest with
            | Ok n => parse_array_len (read_response_loop f) f n
            | Err e => err e
            end
          else err ClientError_Protocol
      end
  end.

Definition read_response : RM RespValue := fun s =>
  read_response_loop (S (length (rd_data (rs_reader s)))) s.

End responses.
