(* ===== verification/ClientRespInv.v ===== *)
(** * Lemmas about the client's RESP2 codec

    Command encoding in closed form; reading back every well-formed response;
    termination on every input. *)

From S2P Require Import Prelude Decimal ClientResp.

(** ** Encoding *)

Definition bulk_wire (a : bytes) : bytes := 36 :: decimal (zlen a) ++ crlf ++ a ++ crlf.
Definition command_wire (args : list bytes) : bytes :=
  42 :: decimal (zlen args) ++ crlf ++ mjoin (bulk_wire <$> args).

Definition args_sized (args : list bytes) : Prop :=
  zlen args <= USIZE_MAX /\ Forall (fun a => zlen a <= USIZE_MAX) args.

Lemma encode_args_ok args out :
  Forall (fun a => zlen a <= USIZE_MAX) args ->
  encode_args args out = Ret (out ++ mjoin (bulk_wire <$> args)).
Proof.
  intros Ha. revert out. induction Ha as [|a args Ha Hargs IH]; intros out; cbn [encode_args].
  { by rewrite app_nil_r. }
  cbn zeta. rewrite push_usize_decimal by (pose proof (zlen_nonneg a); lia).
  unfold mbind, outcome_bind. rewrite IH. f_equal. csimpl. unfold bulk_wire.
  rewrite <- !app_assoc. cbn [app]. by rewrite <- ?app_assoc.
Qed.

Lemma encode_command_ok args out :
  args_sized args -> encode_command args out = Ret (out ++ command_wire args).
Proof.
  intros [Hn Ha]. unfold encode_command. cbn zeta.
  rewrite push_usize_decimal by (pose proof (zlen_nonneg args); lia).
  unfold mbind, outcome_bind. rewrite encode_args_ok by done. f_equal. unfold command_wire.
  rewrite <- !app_assoc. cbn [app]. by rewrite <- ?app_assoc.
Qed.

(** ** Lines *)

Lemma until_lf_line l rest : LF ∉ l -> until_lf (l ++ LF :: rest) = Some (l ++ [LF], rest).
Proof.
  induction l as [|b l IH]; intros Hl; [done|]. apply not_elem_of_cons in Hl as [Hb Hl].
  simpl. rewrite (proj2 (Z.eqb_neq b LF)), IH by (done || congruence). done.
Qed.

Lemma until_lf_shape data l rest :
  until_lf data = Some (l, rest) -> data = l ++ rest /\ (0 < length l)%nat.
Proof.
  revert l. induction data as [|b data IH]; intros l; simpl; [done|].
  destruct (b =? LF); [intros [= <- <-]; split; [done|simpl; lia]|].
  intros ([l' r'] & E & [= -> ->])%fmap_Some. destruct (IH _ E) as [-> ?]. split; [done|simpl; lia].
Qed.

(** The state of a reader with [data] to come. *)
Definition reading (data : bytes) (e : option io_error) (line : bytes) : ReadState :=
  mkRead (mkReader data e) line.

Lemma client_read_line_ok l rest e line :
  LF ∉ l -> client_read_line (reading (l ++ crlf ++ rest) e line) = (Ret (Ok tt), reading rest e l).
Proof.
  intros Hl. unfold client_read_line, try_bind, set_line, mbind, M_bind, reading. simpl.
  assert (E : until_lf (l ++ CR :: LF :: rest) = Some ((l ++ [CR]) ++ [LF], rest)).
  { change (l ++ CR :: LF :: rest) with (l ++ [CR] ++ LF :: rest). rewrite app_assoc.
    apply until_lf_line. rewrite not_elem_of_app. set_solver. }
  unfold read_until_lf. simpl. rewrite E. simpl.
  rewrite !zlen_app, (proj2 (Z.eqb_neq _ _)) by (pose proof (zlen_nonneg l); unfold zlen in *; simpl; lia).
  simpl. rewrite decide_False by (rewrite !zlen_app; unfold zlen; simpl; lia).
  rewrite <- app_assoc. simpl. rewrite length_app. simpl.
  replace (length l + 2 - 2)%nat with (length l) by lia.
  rewrite list_lookup_middle by done. rewrite decide_True by done. simpl.
  rewrite length_app. simpl. replace (length l + 2 - 2)%nat with (length l) by lia.
  by rewrite take_app_length.
Qed.

Lemma is_digit_not_LF ds : forallb is_digit ds = true -> LF ∉ ds.
Proof.
  intros Hd Hin. rewrite forallb_forall in Hd. apply list_elem_of_In in Hin. by specialize (Hd _ Hin).
Qed.

Lemma decimal_signed_no_LF n : LF ∉ decimal_signed n.
Proof.
  unfold decimal_signed. pose proof (decimal_digits n). pose proof (decimal_digits (- n)).
  destruct (n <? 0); [apply not_elem_of_cons; split; [done|]|]; by apply is_digit_not_LF.
Qed.

Lemma parse_i64_decimal n : - I64_MAX <= n <= I64_MAX -> parse_i64 (decimal_signed n) = Ok n.
Proof.
  intros Hn. unfold decimal_signed, parse_i64. destruct (Z.ltb_spec n 0) as [Hneg|Hpos].
  - cbn [Z.eqb Pos.eqb]. rewrite digit_fold_decimal by lia. by rewrite Z.opp_involutive.
  - pose proof (decimal_nonempty n) as Hne. pose proof (decimal_digits n) as Hd.
    pose proof (digit_fold_decimal I64_MAX n ltac:(lia)) as E.
    destruct (decimal n) as [|b ds]; [done|]. simpl in Hd. apply andb_prop in Hd as [Hb _].
    unfold is_digit in Hb. rewrite (proj2 (Z.eqb_neq b 45)) by lia. by rewrite E.
Qed.

(** ** The wire form of responses *)

Fixpoint wire (v : RespValue) : bytes :=
  match v with
  | Simple s => 43 :: s ++ crlf
  | Error s => 45 :: s ++ crlf
  | Integer n => 58 :: decimal_signed n ++ crlf
  | Bulk None => 36 :: 45 :: 49 :: crlf
  | Bulk (Some d) => 36 :: decimal (zlen d) ++ crlf ++ d ++ crlf
  | Array items => 42 :: decimal (zlen items) ++ crlf ++ mjoin (List.map wire items)
  end.

(** The responses RESP2 can carry to this client. *)
Fixpoint wire_ok (limit : Z) (v : RespValue) : Prop :=
  match v with
  | Simple s | Error s => LF ∉ s
  | Integer n => - I64_MAX <= n <= I64_MAX
  | Bulk None => True
  | Bulk (Some d) => zlen d <= I64_MAX
  | Array items => zlen items <= limit /\ fold_right (fun v P => wire_ok limit v /\ P) True items
  end.

(** Induction over nested responses. *)
Lemma RespValue_nested_ind (P : RespValue -> Prop) :
  (forall s, P (Simple s)) -> (forall s, P (Error s)) -> (forall n, P (Integer n)) ->
  (forall o, P (Bulk o)) -> (forall items, Forall P items -> P (Array items)) -> forall v, P v.
Proof.
  intros H1 H2 H3 H4 H5. fix IH 1. intros [s|s|n|o|items]; [apply H1|apply H2|apply H3|apply H4|].
  apply H5. induction items as [|v items IHi]; constructor; [apply IH|apply IHi].
Qed.

Lemma wire_length v : (2 < length (wire v))%nat.
Proof.
  destruct v as [s|s|n|[d|]|items]; simpl; rewrite ?length_app; simpl; lia.
Qed.

Section responses_lemmas.
Context `{RespLayout}.

(** Reads [v] from [wire v], leaving what follows. *)
Definition reads_back (v : RespValue) : Prop :=
  forall f rest e line, (length (wire v ++ rest) < f)%nat ->
    exists line', read_response_loop f (reading (wire v ++ rest) e line) =
      (Ret (Ok v), reading rest e line').

Lemma read_header f c l rest e line :
  LF ∉ c :: l ->
  read_response_loop (S f) (reading (c :: l ++ crlf ++ rest) e line) =
    (if c =? 43 then ok (Simple l)
     else if c =? 45 then ok (Error l)
     else if c =? 58 then match parse_i64 l with Ok n => ok (Integer n) | Err e => err e end
     else if c =? 36 then match parse_i64 l with Ok n => parse_bulk_len n | Err e => err e end
     else if c =? 42 then
       match parse_i64 l with
       | Ok n => parse_array_len (read_response_loop f) f n
       | Err e => err e
       end
     else err ClientError_Protocol) (reading rest e (c :: l)).
Proof.
  intros Hl. cbn [read_response_loop].
  pose proof (client_read_line_ok (c :: l) rest e line Hl) as E.
  change ((c :: l) ++ crlf ++ rest) with (c :: l ++ crlf ++ rest) in E.
  unfold try_bind at 1. rewrite (bind_run _ _ _ _ _ E). done.
Qed.

Lemma read_exact_app n a rest e line :
  n = zlen a -> read_exact n (reading (a ++ rest) e line) = (Ret (Ok a), reading rest e line).
Proof.
  intros ->. unfold read_exact, reading. simpl. rewrite zlen_app, (proj2 (Z.leb_le _ _))
    by (pose proof (zlen_nonneg rest); lia).
  unfold zlen. by rewrite Nat2Z.id, take_app_length, drop_app_length.
Qed.

Lemma try_run {A B} (m : RM A) (f : A -> RM B) s a s' :
  m s = (Ret (Ok a), s') -> try_bind m f s = f a s'.
Proof. intros E. unfold try_bind. by rewrite (bind_run _ _ _ _ _ E). Qed.

Lemma parse_bulk_ok d rest e line :
  parse_bulk_len (zlen d) (reading (d ++ crlf ++ rest) e line) =
    (Ret (Ok (Bulk (Some d))), reading rest e []).
Proof.
  unfold parse_bulk_len. rewrite (proj2 (Z.ltb_ge _ _)) by apply zlen_nonneg.
  rewrite (try_run _ _ _ _ _ (read_exact_app _ _ _ _ _ eq_refl)).
  rewrite (try_run _ _ _ _ _ (read_exact_app 2 crlf _ _ _ eq_refl)).
  by rewrite decide_True.
Qed.

Lemma read_items_ok read f items acc rest e line :
  (forall rest' line', (length rest' <= length (mjoin (List.map wire items) ++ rest))%nat ->
    Forall (fun v => forall r, rest' = wire v ++ r ->
      exists l', read (reading rest' e line') = (Ret (Ok v), reading r e l')) items) ->
  (length items <= f)%nat ->
  exists line', read_items read f (zlen items) acc
      (reading (mjoin (List.map wire items) ++ rest) e line) =
    (Ret (Ok (acc ++ items)), reading rest e line').
Proof.
  revert f acc line. induction items as [|v items IH]; intros f acc line Hread Hf.
  { exists line. destruct f; simpl; by rewrite app_nil_r. }
  destruct f as [|f]; [simpl in Hf; lia|]. cbn [read_items].
  rewrite (proj2 (Z.leb_gt _ _)) by (rewrite zlen_cons; pose proof (zlen_nonneg items); lia).
  simpl in *. rewrite <- app_assoc in *.
  destruct (Forall_inv (Hread _ line (Nat.le_refl _)) _ eq_refl) as (l1 & E1).
  rewrite (try_run _ _ _ _ _ E1).
  destruct (IH f (acc ++ [v]) l1) as (l2 & E2); [|lia|].
  { intros rest' line' Hle. apply (Forall_inv_tail (a := v)). apply Hread. rewrite length_app. lia. }
  exists l2. replace (zlen (v :: items) - 1) with (zlen items) by (rewrite zlen_cons; lia).
  rewrite E2. by rewrite <- app_assoc.
Qed.

Lemma length_wires items : (length items <= length (mjoin (List.map wire items)))%nat.
Proof.
  induction items as [|v items IH]; [done|]. simpl. rewrite length_app. pose proof (wire_length v). lia.
Qed.

Lemma decimal_header n : 0 <= n <= I64_MAX -> (LF ∉ decimal n) /\ parse_i64 (decimal n) = Ok n.
Proof.
  intros Hn. split; [apply is_digit_not_LF, decimal_digits|].
  pose proof (parse_i64_decimal n ltac:(lia)) as E. unfold decimal_signed in E.
  by rewrite (proj2 (Z.ltb_ge n 0)) in E by lia.
Qed.

(** Every response is read back, and nothing more than it is consumed. *)
Lemma read_wire limit v :
  limit * respvalue_size <= ISIZE_MAX -> wire_ok limit v -> reads_back v.
Proof.
  intros Hlim. pose proof respvalue_size_min as Hsize.
  induction v as [s|s|n|[d|]|items IH] using RespValue_nested_ind; intros Hv f rest e line Hf;
    (destruct f as [|f]; [lia|]); cbn [wire] in *; cbn [wire_ok] in Hv; rewrite <- ?app_assoc in *;
    cbn [app] in *; rewrite <- ?app_assoc in *.
  - rewrite read_header by (rewrite not_elem_of_cons; done). by exists (43 :: s).
  - rewrite read_header by (rewrite not_elem_of_cons; done). by exists (45 :: s).
  - rewrite read_header by (rewrite not_elem_of_cons; split; [done|apply decimal_signed_no_LF]).
    cbn [Z.eqb Pos.eqb]. rewrite parse_i64_decimal by done. by eexists.
  - destruct (decimal_header (zlen d)) as [Hlf Hp]; [pose proof (zlen_nonneg d); lia|].
    rewrite read_header by (rewrite not_elem_of_cons; done). cbn [Z.eqb Pos.eqb]. rewrite Hp.
    exists []. apply parse_bulk_ok.
  - exists [36; 45; 49].
    apply (read_header f 36 [45; 49] rest e line). set_solver.
  - destruct Hv as [Hlen Hitems].
    assert (Hmax : 0 <= zlen items <= I64_MAX).
    { pose proof (zlen_nonneg items). change I64_MAX with ISIZE_MAX. split; [done|].
      assert (limit * 1 <= limit * respvalue_size) by (apply Z.mul_le_mono_nonneg_l; lia). lia. }
    destruct (decimal_header (zlen items) Hmax) as [Hlf Hp].
    rewrite read_header by (rewrite not_elem_of_cons; done). cbn [Z.eqb Pos.eqb]. rewrite Hp.
    unfold parse_array_len. destruct (Z.leb_spec (zlen items) 0) as [H0|H0].
    { destruct items; [by eexists|]. rewrite zlen_cons in H0. pose proof (zlen_nonneg items). lia. }
    assert (Hcap : zlen items * respvalue_size <= ISIZE_MAX).
    { assert (zlen items * respvalue_size <= limit * respvalue_size)
        by (apply Z.mul_le_mono_nonneg_r; lia). lia. }
    assert (Hc : forall s, with_capacity (zlen items) s = (Ret (Ok tt), s)).
    { intros s. unfold with_capacity. by rewrite (proj2 (Z.leb_le _ _)). }
    rewrite (try_run _ _ _ _ _ (Hc _)).
    assert (Hlen' : (length (mjoin (List.map wire items) ++ rest) < f)%nat).
    { cbn [length] in Hf. rewrite !length_app in *. lia. }
    destruct (read_items_ok (read_response_loop f) f items [] rest e (42 :: decimal (zlen items)))
      as (l' & E).
    + intros rest' line' Hle. apply Forall_forall. intros v Hv r ->.
      rewrite Forall_forall in IH. apply IH; [done| |lia].
      clear -Hitems Hv. induction items as [|v' items IHi]; [set_solver|].
      destruct Hitems as [? ?]. apply elem_of_cons in Hv as [->|Hv]; auto.
    + pose proof (length_wires items). rewrite length_app in Hlen'. lia.
    + rewrite (try_run _ _ _ _ _ E). by eexists.
Qed.

(** An array too long for the address space. *)
Lemma huge_array_panics n rest line ending :
  0 < n <= I64_MAX -> ISIZE_MAX < n * respvalue_size ->
  read_response (reading (42 :: decimal n ++ crlf ++ rest) ending line) =
    (Panic, reading rest ending (42 :: decimal n)).
Proof.
  intros Hn Hcap. unfold read_response. destruct (decimal_header n) as [Hlf Hp]; [lia|].
  rewrite read_header by (rewrite not_elem_of_cons; done). cbn [Z.eqb Pos.eqb]. rewrite Hp.
  unfold parse_array_len. rewrite (proj2 (Z.leb_gt _ _)) by lia.
  unfold try_bind, with_capacity, mbind, M_bind. by rewrite (proj2 (Z.leb_gt _ _)) by lia.
Qed.

(** ** Termination *)

Definition to_come (s : ReadState) : nat := length (rd_data (rs_reader s)).

(** [m] ends, and a successful result has consumed at least [k] bytes. *)
Definition consumes {A} (m : RM A) (k : nat) (s : ReadState) : Prop :=
  match m s with
  | (Ret (Ok _), s') => (to_come s' + k <= to_come s)%nat
  | (OutOfFuel, _) => False
  | _ => True
  end.

Lemma consumes_try {A B} (m : RM A) (f : A -> RM B) j k s :
  consumes m j s -> (forall a s', (to_come s' + j <= to_come s)%nat -> consumes (f a) k s') ->
  consumes (try_bind m f) (j + k) s.
Proof.
  unfold consumes. intros Hm Hf. unfold try_bind, mbind, M_bind.
  destruct (m s) as [[[a|e]| |] s']; try done. specialize (Hf a s' Hm).
  destruct (f a s') as [[[b|e]| |] s2]; try done. lia.
Qed.

Lemma consumes_weaken {A} (m : RM A) j k s : (k <= j)%nat -> consumes m j s -> consumes m k s.
Proof. unfold consumes. intros Hle. destruct (m s) as [[[a|e]| |] s']; try done. lia. Qed.

Lemma consumes_ok {A} (a : A) s : consumes (ok a) 0 s.
Proof. unfold consumes. simpl. lia. Qed.

Lemma consumes_read_exact n s : consumes (read_exact n) 0 s.
Proof.
  unfold consumes, read_exact, to_come. destruct s as [[data e] line]. simpl.
  destruct (n <=? zlen data); [|done]. simpl. rewrite length_drop. lia.
Qed.

Lemma consumes_read_line s : consumes client_read_line 2 s.
Proof.
  unfold consumes, client_read_line, try_bind, set_line, mbind, M_bind, to_come.
  destruct s as [[data e] line]. simpl. unfold read_until_lf. simpl.
  destruct (until_lf data) as [[l r]|] eqn:E; simpl.
  - destruct (until_lf_shape _ _ _ E) as [-> Hl]. destruct (zlen l =? 0); [done|]. simpl.
    destruct (decide (zlen l < 2)) as [|H2]; [done|]. case_decide; [|done]. simpl.
    rewrite length_app. unfold zlen in *. lia.
  - destruct e; [done|]. simpl. destruct (zlen data =? 0); [done|]. simpl.
    destruct (decide (zlen data < 2)) as [|H2]; [done|]. case_decide; [|done]. simpl.
    unfold zlen in *. lia.
Qed.

Lemma consumes_bulk n s : consumes (parse_bulk_len n) 0 s.
Proof.
  unfold parse_bulk_len. case_match; [apply consumes_ok|].
  apply (consumes_try _ _ 0 0); [apply consumes_read_exact|]. intros d s1 _.
  apply (consumes_try _ _ 0 0); [apply consumes_read_exact|]. intros t s2 _.
  case_decide; [|done]. unfold consumes, try_bind, set_line, mbind, M_bind, to_come. simpl. lia.
Qed.

Lemma consumes_items (read : RM RespValue) bound :
  (forall s, (to_come s < bound)%nat -> consumes read 1 s) ->
  forall f n items s, (to_come s < bound)%nat -> (to_come s < f)%nat ->
    consumes (read_items read f n items) 0 s.
Proof.
  intros Hread f. induction f as [|f IH]; intros n items s Hb Hf; [lia|]. cbn [read_items].
  case_match; [apply consumes_ok|].
  eapply (consumes_weaken _ (1 + 0)); [lia|]. apply consumes_try; [by apply Hread|].
  intros v s1 Hs1. apply IH; lia.
Qed.

(** [read_response] ends on every input; it consumes at least two bytes. *)
Lemma read_response_ends f s : (to_come s < f)%nat -> consumes (read_response_loop f) 2 s.
Proof.
  revert s. induction f as [|f IH]; intros s Hf; [lia|]. cbn [read_response_loop].
  eapply (consumes_weaken _ (2 + 0)); [lia|]. apply consumes_try; [apply consumes_read_line|].
  intros _ s1 Hs1. apply (consumes_try _ _ 0 0); [unfold consumes; simpl; lia|].
  intros line s2 Hs2. destruct line as [|c rest]; [done|].
  repeat case_match; try apply consumes_ok; try apply consumes_bulk; try done.
  unfold parse_array_len. case_match; [apply consumes_ok|].
  apply (consumes_try _ _ 0 0).
  { unfold consumes, with_capacity. destruct (_ <=? ISIZE_MAX); simpl; [lia|done]. }
  intros _ s3 Hs3. apply (consumes_try _ _ 0 0).
  - apply (consumes_items _ f); [|lia|lia]. intros s4 Hs4. eapply consumes_weaken; [|by apply IH]. lia.
  - intros items s4 _. apply consumes_ok.
Qed.

End responses_lemmas.
