(* ===== verification/Metrics.v ===== *)
(** * Server metrics (hkv-server/src/metrics.rs)

    Atomic counters, the fixed-bucket latency histogram and the percentile
    estimate, with binary64 arithmetic computed exactly.  The last part is the
    compare-exchange loop of [update_max] run by several threads at once. *)

From S2P Require Import Prelude.
From Stdlib Require Import SpecFloat Sorted.

(** ** [f64] *)

Abbreviation f64 := spec_float.

Definition f64_of_u64 (n : Z) : f64 := binary_normalize 53 1024 n 0 false.
Definition f64_mul (x y : f64) : f64 := SFmul 53 1024 x y.
Definition f64_div (x y : f64) : f64 := SFdiv 53 1024 x y.

(** [x.ceil() as u64]: the cast saturates, and sends NaN to zero. *)
Definition ceil_as_u64 (x : f64) : Z :=
  match x with
  | S754_finite false m e =>
      Z.min U64_MAX (if 0 <=? e then Zpos m * 2 ^ e else - (- Zpos m / 2 ^ (- e)))
  | S754_infinity false => U64_MAX
  | _ => 0
  end.

(** ** Data *)

Definition DEFAULT_LATENCY_BUCKETS_US : list Z :=
  [1; 2; 5; 10; 20; 50; 100; 200; 500; 1000; 2000; 5000].

(** [struct LatencyHistogram]. *)
Record LatencyHistogram := mkHistogram {
  lh_bounds_us : list Z;
  lh_buckets : list Z;
  lh_sum_us : Z;
  lh_samples : Z;
  lh_max_us : Z
}.

(** [struct Metrics]; [mt_started_at] is an [Instant]. *)
Record Metrics := mkMetrics {
  mt_requests_total : Z;
  mt_errors_total : Z;
  mt_inflight : Z;
  mt_latency : LatencyHistogram;
  mt_started_at : Z
}.

(** [struct LatencySnapshot]. *)
Record LatencySnapshot := mkLatencySnapshot {
  ls_bounds_us : list Z;
  ls_buckets : list Z;
  ls_samples : Z;
  ls_sum_us : Z;
  ls_max_us : Z
}.

(** [struct MetricsSnapshot]. *)
Record MetricsSnapshot := mkMetricsSnapshot {
  sn_requests_total : Z;
  sn_errors_total : Z;
  sn_inflight : Z;
  sn_uptime : Z;
  sn_latency : LatencySnapshot
}.

(** ** Operations *)

(** [LatencyHistogram::new]. *)
Definition histogram_new (bounds_us : list Z) : LatencyHistogram :=
  mkHistogram bounds_us (replicate (S (length bounds_us)) 0) 0 0 0.

(** [Metrics::with_latency_buckets] and [Metrics::new]. *)
Definition with_latency_buckets (bounds_us : list Z) (now : Z) : Metrics :=
  mkMetrics 0 0 0 (histogram_new bounds_us) now.
Definition metrics_new (now : Z) : Metrics := with_latency_buckets DEFAULT_LATENCY_BUCKETS_US now.

(** [update_max], without interference: the first compare-exchange succeeds. *)
Definition update_max (max value : Z) : Z := if max <? value then value else max.

(** The scan of [record]: the first bound not below [micros]. *)
Fixpoint bucket_index (bounds : list Z) (i : nat) (micros : Z) (none : nat) : nat :=
  match bounds with
  | [] => none
  | bound :: rest => if micros <=? bound then i else bucket_index rest (S i) micros none
  end.

(** [latency.as_micros() as u64]. *)
Definition micros_of (latency : Z) : Z := wrap64 (latency / 1000).

(** [LatencyHistogram::record]; an index out of range panics. *)
Definition record (latency : Z) : M LatencyHistogram unit := fun h =>
  let micros := micros_of latency in
  let idx := bucket_index (lh_bounds_us h) 0 micros (length (lh_bounds_us h)) in
  let h1 := mkHistogram (lh_bounds_us h) (lh_buckets h) (wrapping_add (lh_sum_us h) micros)
              (wrapping_add (lh_samples h) 1) (update_max (lh_max_us h) micros) in
  match lh_buckets h1 !! idx with
  | None => (Panic, h1)
  | Some c =>
      (Ret tt, mkHistogram (lh_bounds_us h1) (<[idx := wrapping_add c 1]> (lh_buckets h1))
                 (lh_sum_us h1) (lh_samples h1) (lh_max_us h1))
  end.

(** [Metrics::record_request_start], [record_error], [record_request_end]. *)
Definition record_request_start (m : Metrics) : Metrics :=
  mkMetrics (wrapping_add (mt_requests_total m) 1) (mt_errors_total m)
    (wrapping_add (mt_inflight m) 1) (mt_latency m) (mt_started_at m).

Definition record_error (m : Metrics) : Metrics :=
  mkMetrics (mt_requests_total m) (wrapping_add (mt_errors_total m) 1) (mt_inflight m)
    (mt_latency m) (mt_started_at m).

Definition record_request_end (latency : Z) : M Metrics unit :=
  _ ← modify (fun m => mkMetrics (mt_requests_total m) (mt_errors_total m)
        (wrapping_sub (mt_inflight m) 1) (mt_latency m) (mt_started_at m));
  zoom mt_latency (fun h m => mkMetrics (mt_requests_total m) (mt_errors_total m)
        (mt_inflight m) h (mt_started_at m)) (record latency).

(** [LatencyHistogram::snapshot] and [Metrics::snapshot]. *)
Definition histogram_snapshot (h : LatencyHistogram) : LatencySnapshot :=
  mkLatencySnapshot (lh_bounds_us h) (lh_buckets h) (lh_samples h) (lh_sum_us h) (lh_max_us h).

Definition metrics_snapshot (m : Metrics) (now : Z) : MetricsSnapshot :=
  mkMetricsSnapshot (mt_requests_total m) (mt_errors_total m) (mt_inflight m)
    (Z.max 0 (now - mt_started_at m)) (histogram_snapshot (mt_latency m)).

(** [Duration::as_secs_f64], of a duration in nanoseconds. *)
Definition as_secs_f64 (d : Z) : f64 :=
  SFadd 53 1024 (f64_of_u64 (d / 1000000000))
    (f64_div (f64_of_u64 (d mod 1000000000)) (f64_of_u64 1000000000)).

(** [f64::EPSILON]. *)
Definition EPSILON : f64 := binary_normalize 53 1024 1 (-52) false.

(** [MetricsSnapshot::qps]. *)
Definition qps (s : MetricsSnapshot) : f64 :=
  let uptime_secs := as_secs_f64 (sn_uptime s) in
  if SFleb uptime_secs EPSILON then f64_of_u64 (sn_requests_total s)
  else f64_div (f64_of_u64 (sn_requests_total s)) uptime_secs.

(** [MetricsSnapshot::error_rate]. *)
Definition error_rate (s : MetricsSnapshot) : f64 :=
  if sn_requests_total s =? 0 then S754_zero false
  else f64_div (f64_of_u64 (sn_errors_total s)) (f64_of_u64 (sn_requests_total s)).

(** [LatencySnapshot::average_us]. *)
Definition average_us (s : LatencySnapshot) : option f64 :=
  if ls_samples s =? 0 then None
  else Some (f64_div (f64_of_u64 (ls_sum_us s)) (f64_of_u64 (ls_samples s))).

(** The [for] loop of [percentile_us]. *)
Fixpoint percentile_scan (s : LatencySnapshot) (target : Z) (idx : nat) (cumulative : Z)
    (counts : list Z) : Z :=
  match counts with
  | [] => ls_max_us s
  | count :: rest =>
      let cumulative := saturating_add U64_MAX cumulative count in
      if cumulative <? target then percentile_scan s target (S idx) cumulative rest
      else match ls_bounds_us s !! idx with
           | Some bound => bound
           | None => ls_max_us s
           end
  end.

(** The rank [percentile_us] looks for. *)
Definition percentile_rank (samples : Z) (percentile : f64) : Z :=
  Z.max (ceil_as_u64 (f64_mul (f64_of_u64 samples) (f64_div percentile (f64_of_u64 100)))) 1.

(** [LatencySnapshot::percentile_us]. *)
Definition percentile_us (s : LatencySnapshot) (percentile : f64) : option Z :=
  if (ls_samples s =? 0)
     || negb (SFleb (S754_zero false) percentile && SFleb percentile (f64_of_u64 100))
     || SFeqb percentile (S754_zero false)
  then None
  else Some (percentile_scan s (percentile_rank (ls_samples s) percentile) 0 0 (ls_buckets s)).

(** ** The histogram after any sequence of measurements *)

Definition record_all (ls : list Z) (h : LatencyHistogram) : outcome unit * LatencyHistogram :=
  fold_left (fun acc l => match acc with (Ret _, h) => record l h | _ => acc end) ls (Ret tt, h).

(** The bucket of a measurement. *)
Definition bucket_of (bounds : list Z) (latency : Z) : nat :=
  bucket_index bounds 0 (micros_of latency) (length bounds).

Definition in_bucket (bounds ls : list Z) (i : nat) : Z :=
  zlen (filter (fun l => bucket_of bounds l = i) ls).

Lemma bucket_index_range bounds i micros none :
  (i + length bounds <= none)%nat ->
  (i <= bucket_index bounds i micros none <= none)%nat.
Proof.
  revert i. induction bounds as [|b bounds IH]; intros i Hi; simpl in *; [lia|].
  destruct (micros <=? b); [lia|]. specialize (IH (S i)). lia.
Qed.

Lemma bucket_of_lt bounds l : (bucket_of bounds l < S (length bounds))%nat.
Proof. unfold bucket_of. pose proof (bucket_index_range bounds 0 (micros_of l) (length bounds)). lia. Qed.

(** The histogram that holds exactly the measurements [ls]. *)
Record holds (bounds ls : list Z) (h : LatencyHistogram) : Prop := mkHolds {
  ho_bounds : lh_bounds_us h = bounds;
  ho_buckets : lh_buckets h = (fun i => wrap64 (in_bucket bounds ls i)) <$> seq 0 (S (length bounds));
  ho_samples : lh_samples h = wrap64 (zlen ls);
  ho_sum : lh_sum_us h = wrap64 (foldr Z.add 0 (micros_of <$> ls));
  ho_max : lh_max_us h = foldr Z.max 0 (micros_of <$> ls)
}.

Lemma in_bucket_snoc bounds ls l i :
  in_bucket bounds (ls ++ [l]) i = in_bucket bounds ls i + (if decide (bucket_of bounds l = i) then 1 else 0).
Proof.
  unfold in_bucket. rewrite filter_app, zlen_app, filter_cons. case_decide; done.
Qed.

Lemma foldr_add_snoc l x : foldr Z.add 0 (l ++ [x]) = foldr Z.add 0 l + x.
Proof. induction l as [|y l IH]; simpl; [lia|]. rewrite IH. lia. Qed.

Lemma foldr_max_snoc l x : 0 <= x -> foldr Z.max 0 (l ++ [x]) = Z.max (foldr Z.max 0 l) x.
Proof. intros Hx. induction l as [|y l IH]; simpl; [lia|]. rewrite IH. lia. Qed.

Lemma holds_record bounds ls h l :
  holds bounds ls h -> exists h', record l h = (Ret tt, h') /\ holds bounds (ls ++ [l]) h'.
Proof.
  intros [Hb Hk Hn Hs Hm]. unfold record. cbn zeta. rewrite Hb. cbn [lh_buckets].
  fold (bucket_of bounds l). pose proof (bucket_of_lt bounds l) as Hlt. rewrite Hk.
  rewrite list_lookup_fmap, lookup_seq_lt by done. change (?f <$> Some ?x) with (Some (f x)); cbn beta iota.
  eexists; split; [reflexivity|]. split; cbn [lh_bounds_us lh_buckets lh_samples lh_sum_us lh_max_us].
  - done.
  - apply list_eq. intros i. rewrite list_lookup_fmap.
    destruct (decide (i < S (length bounds))%nat) as [Hi|Hi].
    + rewrite lookup_seq_lt by done. change (?f <$> Some ?x) with (Some (f x)); cbn beta. rewrite in_bucket_snoc, !Nat.add_0_l.
      destruct (decide (bucket_of bounds l = i)) as [<-|Hne].
      * rewrite list_lookup_insert_eq by (rewrite length_fmap, length_seq; done).
        unfold wrapping_add. by rewrite wrap64_add_l, ?Nat.add_0_l.
      * rewrite list_lookup_insert_ne by done. rewrite list_lookup_fmap, lookup_seq_lt by done.
        change (?f <$> Some ?x) with (Some (f x)); cbn beta. by rewrite Z.add_0_r, Nat.add_0_l.
    + rewrite lookup_seq_ge by lia. apply lookup_ge_None.
      rewrite length_insert, length_fmap, length_seq. lia.
  - rewrite Hn. unfold wrapping_add. by rewrite wrap64_add_l, zlen_app.
  - rewrite Hs. unfold wrapping_add. rewrite wrap64_add_l, fmap_app.
    change (micros_of <$> [l]) with [micros_of l]. by rewrite foldr_add_snoc.
  - rewrite Hm, fmap_app. unfold update_max. pose proof (wrap64_range (l / 1000)).
    fold (micros_of l) in *. change (micros_of <$> [l]) with [micros_of l]. rewrite foldr_max_snoc by lia.
    destruct (Z.ltb_spec (foldr Z.max 0 (micros_of <$> ls)) (micros_of l)); lia.
Qed.

Lemma holds_new bounds : holds bounds [] (histogram_new bounds).
Proof.
  split; try done. simpl. f_equal. generalize 1%nat as k.
  induction (length bounds) as [|n IH]; intros k; [done|]. simpl. by rewrite <- IH.
Qed.

Lemma holds_record_all bounds ls0 ls h :
  holds bounds ls0 h -> exists h', record_all ls h = (Ret tt, h') /\ holds bounds (ls0 ++ ls) h'.
Proof.
  revert ls0 h. unfold record_all. induction ls as [|l ls IH]; intros ls0 h Hh; simpl.
  { exists h. by rewrite app_nil_r. }
  destruct (holds_record _ _ _ l Hh) as (h1 & E & Hh1). rewrite E.
  destruct (IH _ _ Hh1) as (h2 & E2 & Hh2). exists h2. by rewrite <- app_assoc in Hh2.
Qed.

(** ** The percentile estimate *)

(** How many measurements are at most [x] microseconds. *)
Definition at_most (ls : list Z) (x : Z) : Z := zlen (filter (fun l => micros_of l <= x) ls).

(** How many measurements fall into the first [k] buckets. *)
Definition cumulated (bounds ls : list Z) (k : nat) : Z :=
  zlen (filter (fun l => (bucket_of bounds l < k)%nat) ls).

Lemma cumulated_S bounds ls k :
  cumulated bounds ls (S k) = cumulated bounds ls k + in_bucket bounds ls k.
Proof.
  unfold cumulated, in_bucket. induction ls as [|l ls IH]; [done|]. rewrite !filter_cons.
  repeat case_decide; rewrite ?zlen_cons; lia.
Qed.

Lemma cumulated_0 bounds ls : cumulated bounds ls 0 = 0.
Proof. unfold cumulated. induction ls as [|l ls IH]; [done|]. rewrite filter_cons_False; [done|lia]. Qed.

Lemma zlen_filter_le {A} (P : A -> Prop) `{!forall x, Decision (P x)} l : zlen (filter P l) <= zlen l.
Proof. unfold zlen. pose proof (length_filter P l). lia. Qed.

Lemma bucket_index_sorted bounds j micros none i b :
  StronglySorted Z.le bounds -> (j + length bounds <= none)%nat -> bounds !! i = Some b ->
  (bucket_index bounds j micros none < S (j + i))%nat <-> micros <= b.
Proof.
  intros Hs. revert i j. induction Hs as [|a bounds Hs IH Ha]; intros i j Hn Hi; [done|]. simpl in *.
  destruct (Z.leb_spec micros a) as [Hle|Hgt].
  - split; [|lia]. intros _. destruct i as [|i]; simplify_eq/=; [lia|].
    rewrite Forall_forall in Ha. specialize (Ha b (list_elem_of_lookup_2 _ _ _ Hi)). lia.
  - pose proof (bucket_index_range bounds (S j) micros none ltac:(lia)).
    destruct i as [|i]; simplify_eq/=; [lia|]. rewrite <- (IH i (S j)) by (done || lia).
    by replace (S j + i)%nat with (j + S i)%nat by lia.
Qed.

(** In a sorted histogram the cumulated counts are those of the bounds. *)
Lemma cumulated_at_most bounds ls i b :
  StronglySorted Z.le bounds -> bounds !! i = Some b -> cumulated bounds ls (S i) = at_most ls b.
Proof.
  intros Hs Hi. unfold cumulated, at_most. f_equal. apply filter_ext_in. intros l _.
  apply (bucket_index_sorted bounds 0 _ _ i b Hs); [lia|done].
Qed.

Lemma sorted_lookup bounds i j a b :
  StronglySorted Z.le bounds -> bounds !! i = Some a -> bounds !! j = Some b -> (i <= j)%nat -> a <= b.
Proof.
  intros Hs. revert i j. induction Hs as [|x bounds Hs IH Hx]; intros i j Hi Hj Hle; [done|].
  destruct i as [|i], j as [|j]; simplify_eq/=; try lia.
  - rewrite Forall_forall in Hx. by apply Hx, list_elem_of_lookup_2 with j.
  - apply (IH i j); [done..|lia].
Qed.

Section percentile.
Context (bounds ls : list Z) (h : LatencyHistogram) (target : Z).
Context (Hsorted : StronglySorted Z.le bounds) (Hh : holds bounds ls h) (Hn : zlen ls <= U64_MAX).

Lemma max_us_covers : at_most ls (lh_max_us h) = zlen ls.
Proof.
  rewrite (ho_max _ _ _ Hh). clear. unfold at_most. f_equal. apply filter_all. intros l Hl.
  induction ls as [|l' ls' IH]; [set_solver|]. csimpl.
  apply elem_of_cons in Hl as [->|Hl]; [lia|]. specialize (IH Hl). lia.
Qed.

(** [v] covers [target] measurements, and no smaller bound does. *)
Definition estimates (v : Z) : Prop :=
  (target <= zlen ls -> target <= at_most ls v) /\
  (forall b, b ∈ bounds -> b < v -> at_most ls b < target).

Lemma estimate_max k :
  (length bounds <= k)%nat ->
  (forall i b, bounds !! i = Some b -> (i < k)%nat -> cumulated bounds ls (S i) < target) ->
  estimates (lh_max_us h).
Proof.
  intros Hk Hall. split; [by rewrite max_us_covers|]. intros b [i Hi]%list_elem_of_lookup _.
  rewrite <- (cumulated_at_most bounds ls i b) by done. eapply Hall; [done|].
  apply lookup_lt_Some in Hi. lia.
Qed.

Lemma percentile_scan_ok n idx :
  (idx + n = S (length bounds))%nat ->
  (forall i b, bounds !! i = Some b -> (i < idx)%nat -> cumulated bounds ls (S i) < target) ->
  estimates (percentile_scan (histogram_snapshot h) target idx (cumulated bounds ls idx)
    ((fun i => wrap64 (in_bucket bounds ls i)) <$> seq idx n)).
Proof.
  revert idx. induction n as [|n IH]; intros idx Hidx Hsmall; cbn [seq].
  { change (percentile_scan _ _ _ _ _) with (lh_max_us h).
    apply (estimate_max idx); [lia|done]. }
  rewrite fmap_cons. cbn [percentile_scan]. cbn zeta.
  assert (Hib : 0 <= in_bucket bounds ls idx <= USIZE_MAX).
  { split; [apply zlen_nonneg|]. etransitivity; [apply zlen_filter_le|exact Hn]. }
  rewrite wrap64_small by done. unfold saturating_add. rewrite <- cumulated_S.
  rewrite Z.min_r by (etransitivity; [apply zlen_filter_le|exact Hn]).
  destruct (Z.ltb_spec (cumulated bounds ls (S idx)) target) as [Hlt|Hge].
  - apply IH; [lia|]. intros i b Hi Hlt'. destruct (decide (i = idx)) as [->|]; [done|].
    eapply Hsmall; [done|lia].
  - cbn [histogram_snapshot ls_bounds_us ls_max_us]. rewrite (ho_bounds _ _ _ Hh).
    destruct (bounds !! idx) as [b|] eqn:Eb.
    + split; [by rewrite <- (cumulated_at_most bounds ls idx b)|].
      intros b' [i Hi]%list_elem_of_lookup Hb'.
      rewrite <- (cumulated_at_most bounds ls i b') by done. eapply Hsmall; [done|].
      destruct (decide (i < idx)%nat) as [|Hge']; [done|]. exfalso.
      destruct (decide (i = idx)) as [->|]; [naive_solver lia|].
      assert (b <= b') by (eapply (sorted_lookup bounds idx i); [done..|lia]).
      lia.
    + apply lookup_ge_None in Eb. by apply (estimate_max idx).
Qed.

End percentile.
