(* ===== verification/MetricsClaims.v ===== *)
(** * Properties of the metrics

    What the latency histogram counts, how good its percentiles are, and the
    compare-and-swap loop of [update_max] under any interleaving of threads. *)

From S2P Require Import Prelude Metrics.
From Stdlib Require Import SpecFloat Sorted.
From stdpp Require Import relations.

#[local] Open Scope Z_scope.

(** ** The histogram *)

(** Bucket [i] is the one of a measurement: it exceeds the bounds before, and not the
    bound of the bucket itself; the last bucket has none. *)
Definition belongs (bounds : list Z) (i : nat) (micros : Z) : bool :=
  forallb (fun bound => bound <? micros) (take i bounds) &&
  match bounds !! i with Some bound => micros <=? bound | None => true end.

Lemma bucket_index_belongs bounds i k micros :
  (k <= length bounds)%nat ->
  bucket_index bounds i micros (i + length bounds) = (i + k)%nat <-> belongs bounds k micros = true.
Proof.
  revert i k. induction bounds as [|bound bounds IH]; intros i k Hk; cbn in Hk.
  - replace k with 0%nat by lia. by split.
  - cbn [bucket_index length]. rewrite <- Nat.add_succ_comm. destruct (Z.leb_spec micros bound) as [Hle|Hgt].
    + split; [intros E|intros Hb].
      * replace k with 0%nat by lia. cbn. by apply Z.leb_le.
      * destruct k as [|k]; [lia|]. unfold belongs in Hb. cbn in Hb. by rewrite (proj2 (Z.ltb_ge _ _)) in Hb.
    + destruct k as [|k].
      * destruct (bucket_index_range bounds (S i) micros (S i + length bounds)) as [Hi _]; [done|].
        unfold belongs. cbn in Hi |- *. rewrite (proj2 (Z.leb_gt _ _)) by done. split; [lia|done].
      * rewrite <- (Nat.add_succ_comm i k), IH by lia. unfold belongs. cbn. by rewrite (proj2 (Z.ltb_lt _ _)).
Qed.

Lemma in_bucket_belongs bounds ls i :
  (i <= length bounds)%nat -> in_bucket bounds ls i = zlen (filter (fun l => belongs bounds i (micros_of l) = true) ls).
Proof.
  intros Hi. unfold in_bucket. f_equal. apply list_filter_iff. intros l. by apply (bucket_index_belongs bounds 0 i).
Qed.

(** C28: after any sequence of measurements no index was out of range, every bucket
    holds the number of measurements above the bounds before it and at most its own
    (the last bucket has no bound), and samples, sum and maximum are those of the
    measurements, all modulo the width of the counters. *)
Theorem histogram_counts (bounds ls : list Z) :
  exists h, record_all ls (histogram_new bounds) = (Ret tt, h) /\
    lh_buckets h = (fun i => wrap64 (zlen (filter (fun l => belongs bounds i (micros_of l) = true) ls))) <$>
      seq 0 (S (length bounds)) /\
    lh_samples h = wrap64 (zlen ls) /\ lh_sum_us h = wrap64 (foldr Z.add 0 (micros_of <$> ls)) /\
    lh_max_us h = foldr Z.max 0 (micros_of <$> ls).
Proof.
  destruct (holds_record_all bounds [] ls _ (holds_new bounds)) as (h & E & [_ Hb Hn Hs Hm]).
  exists h. split_and!; [done| |done..]. rewrite Hb. apply list_fmap_ext. intros j i Hi.
  apply lookup_seq in Hi as [-> Hi]. by rewrite in_bucket_belongs by lia.
Qed.



(** 99.9, the largest percentile [INFO] reports, as the compiler reads it. *)
Definition f64_99_9 : f64 := f64_div (f64_of_u64 999) (f64_of_u64 10).

(** The rank is computed with binary floating point: with 1000 samples the
    99.9th percentile looks for sample 1000 and not 999, because
    [1000.0 * (99.9 / 100.0)] is above 999. *)
Theorem p999_rank_of_1000_samples :
  percentile_rank 1000 f64_99_9 = 1000 /\ percentile_rank 1000 (f64_of_u64 99) = 990.
Proof. split; vm_compute; done. Qed.

(** ** [update_max] with several threads

    Each thread runs [update_max(max, value)] on the shared cell; a step is one
    atomic access. *)

Inductive um_pc := UmLoad | UmTry (current : Z) | UmDone.

(** One access of a thread that wants to record [value], on a cell holding
    [cell]: the new content and the thread's next point. *)
Definition um_access (cell value : Z) (pc : um_pc) : option (Z * um_pc) :=
  match pc with
  | UmLoad => Some (cell, UmTry cell)
  | UmTry current =>
      if value <=? current then Some (cell, UmDone)
      else if cell =? current then Some (value, UmDone)
      else Some (cell, UmTry cell)
  | UmDone => None
  end.

Record um_state := mkUm { um_cell : Z; um_threads : list (Z * um_pc) }.

Inductive um_step : um_state -> um_state -> Prop :=
| um_step_at st i value pc cell' pc' :
    um_threads st !! i = Some (value, pc) ->
    um_access (um_cell st) value pc = Some (cell', pc') ->
    um_step st (mkUm cell' (<[i := (value, pc')]> (um_threads st))).

Definition um_start (max : Z) (values : list Z) : um_state :=
  mkUm max ((fun v => (v, UmLoad)) <$> values).

Record um_inv (max : Z) (values : list Z) (st : um_state) : Prop := mkUmInv {
  ui_values : (um_threads st).*1 = values;
  ui_from : um_cell st = max \/ um_cell st ∈ values;
  ui_low : max <= um_cell st;
  ui_try : forall v c, (v, UmTry c) ∈ um_threads st -> c <= um_cell st;
  ui_done : forall v, (v, UmDone) ∈ um_threads st -> v <= um_cell st
}.

Lemma um_inv_start max values : um_inv max values (um_start max values).
Proof.
  split; simpl; try (by left); try lia.
  - induction values as [|v values IH]; [done|]. csimpl. by rewrite IH.
  - intros v c (? & [=] & _)%list_elem_of_fmap.
  - intros v (? & [=] & _)%list_elem_of_fmap.
Qed.

Lemma um_access_mono cell value pc cell' pc' :
  um_access cell value pc = Some (cell', pc') ->
  cell <= cell' /\ (cell' = cell \/ cell' = value).
Proof.
  unfold um_access. destruct pc as [|c|]; [intros [= <- <-]; lia| |done].
  destruct (Z.leb_spec value c); [intros [= <- <-]; lia|].
  destruct (Z.eqb_spec cell c); intros [= <- <-]; lia.
Qed.

Lemma um_inv_step max values st st' : um_inv max values st -> um_step st st' -> um_inv max values st'.
Proof.
  intros [Hv Hf Hl Ht Hd] Hstep. destruct Hstep as [st i value pc cell' pc' Hi Ha].
  pose proof (um_access_mono _ _ _ _ _ Ha) as [Hm Hw]. simpl.
  assert (Hin : forall x, x ∈ <[i := (value, pc')]> (um_threads st) ->
    x = (value, pc') \/ x ∈ um_threads st).
  { intros x [j Hj]%list_elem_of_lookup. destruct (decide (i = j)) as [->|Hne].
    - rewrite list_lookup_insert_eq in Hj by by eapply lookup_lt_Some. left. congruence.
    - rewrite list_lookup_insert_ne in Hj by done. right. by eapply list_elem_of_lookup_2. }
  assert (Hval : value ∈ values).
  { rewrite <- Hv. apply list_elem_of_fmap. exists (value, pc). split; [done|].
    by eapply list_elem_of_lookup_2. }
  assert (Htry : forall c, pc = UmTry c -> c <= um_cell st).
  { intros c ->. eapply Ht, list_elem_of_lookup_2, Hi. }
  split; simpl.
  - rewrite list_fmap_insert, <- Hv. simpl. apply list_insert_id. by rewrite list_lookup_fmap, Hi.
  - destruct Hw as [->| ->]; auto.
  - lia.
  - intros v c [[= <- E]|Hx]%Hin; [|specialize (Ht v c Hx); lia].
    unfold um_access in Ha. destruct pc as [|c'|]; simplify_eq; [lia|].
    repeat case_match; simplify_eq; lia.
  - intros v [[= <- E]|Hx]%Hin; [|specialize (Hd v Hx); lia].
    unfold um_access in Ha. destruct pc as [|c'|]; simplify_eq.
    specialize (Htry c' eq_refl).
    case_match eqn:El; simplify_eq; [apply Z.leb_le in El; lia|]. case_match; simplify_eq; lia.
Qed.

Lemma foldr_max_bounds max values :
  max <= foldr Z.max max values /\ Forall (fun v => v <= foldr Z.max max values) values /\
  (foldr Z.max max values = max \/ foldr Z.max max values ∈ values).
Proof.
  induction values as [|v values (IH1 & IH2 & IH3)]; simpl; [auto with lia|].
  split_and!; [lia|constructor; [lia|]|].
  - eapply Forall_impl; [exact IH2|]. simpl. lia.
  - destruct (Z.max_spec v (foldr Z.max max values)) as [[_ ->]|[_ ->]]; [|set_solver].
    destruct IH3; [by left|right; set_solver].
Qed.

Lemma um_steps_mono st st' : rtc um_step st st' -> um_cell st <= um_cell st'.
Proof.
  induction 1 as [|x y z [st0 i v pc cell' pc' _ Ha] _ IH]; [lia|]. etrans; [|exact IH].
  by apply um_access_mono in Ha as [Ha _].
Qed.

(** C29: however the accesses of any number of threads running [update_max]
    interleave, from any state on the cell never decreases, it is at least the
    value of every thread that has returned, and once every thread has returned it
    holds exactly the largest of the initial content and the values. *)
Theorem update_max_interleaved (max : Z) (values : list Z) (st : um_state) :
  rtc um_step (um_start max values) st ->
  (forall st', rtc um_step st st' -> um_cell st <= um_cell st') /\
  (forall v, (v, UmDone) ∈ um_threads st -> v <= um_cell st) /\
  (Forall (fun t => t.2 = UmDone) (um_threads st) -> um_cell st = foldr Z.max max values).
Proof.
  intros Hr. assert (HI : um_inv max values st).
  { revert Hr. generalize (um_inv_start max values). generalize (um_start max values) as st0.
    intros st0 H0 Hr. induction Hr as [|x y z Hxy _ IH]; [done|]. apply IH. by eapply um_inv_step. }
  destruct HI as [Hv Hf Hl Ht Hd]. split_and!; [apply um_steps_mono|done|]. intros Hall.
  assert (Hge : Forall (fun v => v <= um_cell st) values).
  { rewrite <- Hv. apply Forall_fmap, Forall_forall. intros [v pc] Hx. simpl. apply Hd.
    rewrite Forall_forall in Hall. by rewrite <- (Hall _ Hx : pc = UmDone). }
  destruct (foldr_max_bounds max values) as (H1 & H2 & H3).
  rewrite Forall_forall in Hge, H2. apply Z.le_antisymm.
  - destruct Hf as [->|Hf]; [done|by apply H2].
  - destruct H3 as [->|H3]; [done|by apply Hge].
Qed.

(** Two threads; the second one's exchange fails once. *)
Lemma update_max_interleaved_witness :
  (forall st', rtc um_step (mkUm 9 [(7, UmDone); (9, UmDone)]) st' -> 9 <= um_cell st') /\
  (forall v, (v, UmDone) ∈ [(7, UmDone); (9, UmDone)] -> v <= 9) /\
  (Forall (fun t => t.2 = UmDone) [(7, UmDone); (9, UmDone)] -> 9 = foldr Z.max 3 [7; 9]).
Proof.
  apply (update_max_interleaved 3 [7; 9] (mkUm 9 [(7, UmDone); (9, UmDone)])).
  eapply rtc_l; [by apply (um_step_at _ 0 7 UmLoad 3 (UmTry 3))|].
  eapply rtc_l; [by apply (um_step_at _ 1 9 UmLoad 3 (UmTry 3))|].
  eapply rtc_l; [by apply (um_step_at _ 0 7 (UmTry 3) 7 UmDone)|].
  eapply rtc_l; [by apply (um_step_at _ 1 9 (UmTry 3) 7 (UmTry 7))|].
  eapply rtc_l; [by apply (um_step_at _ 1 9 (UmTry 7) 9 UmDone)|].
  apply rtc_refl.
Defined.
