(* ===== verification/Bench.v ===== *)
(** * The benchmark of the engine (hkv-engine/src/bin/bench_engine.rs)

    The workload generator (options, pseudo-random indices, key and value buffers),
    the three phases of [run] on the engine, and what the program prints.  What
    [black_box] is given is returned; the measured times are arguments. *)

From S2P Require Import Prelude Decimal Utf8 Metrics HkvError Shard Engine KVEngine EngineInv EngineSpec Eviction EngineTheorems.

(** ** Options *)

Definition DEFAULT_KEY_COUNT : Z := 65536.
Definition DEFAULT_OP_COUNT : Z := 1000000.
Definition DEFAULT_KEY_SIZE : Z := 16.
Definition DEFAULT_VALUE_SIZE : Z := 128.

Record BenchConfig := mkBenchConfig {
  requested_keys : Z;
  key_count : Z;
  key_mask : Z;
  op_count : Z;
  key_size : Z;
  value_size : Z
}.

(** [usize::from_str]: digits, after an optional plus sign, of a number in range. *)
Definition usize_from_str (raw : bytes) : option Z :=
  let digits := match raw with 43 :: rest => rest | _ => raw end in
  match digits with
  | [] => None
  | _ =>
      if forallb is_digit digits && (digits_value digits <=? USIZE_MAX) then Some (digits_value digits) else None
  end.

(** [parse_usize]. *)
Definition bench_parse_usize (value : option bytes) (fallback : Z) : Z :=
  default fallback (value ≫= usize_from_str).

(** [usize::is_power_of_two], for positive numbers. *)
Definition is_power_of_two (n : Z) : bool := n =? 2 ^ Z.log2 n.

Definition normalize_power_of_two (p : profile) (value : Z) : outcome Z :=
  let value := Z.max value 1 in
  if is_power_of_two value then mret value else next_power_of_two p value.

(** [env::args]: its iterator panics at an argument that is not Unicode; bytes are
    Unicode when the lossy conversion leaves them alone. *)
Definition is_unicode (arg : bytes) : bool := bool_decide (from_utf8_lossy arg = arg).

(** [BenchConfig::from_args], on the arguments of the process, its name first: it
    reads that name and up to four more. *)
Definition from_args (p : profile) (args : list bytes) : outcome BenchConfig :=
  _ ← if forallb is_unicode (take 5 args) then mret tt else Panic;
  let args := tail args in
  let requested_keys := bench_parse_usize (args !! 0%nat) DEFAULT_KEY_COUNT in
  let op_count := bench_parse_usize (args !! 1%nat) DEFAULT_OP_COUNT in
  let key_size := bench_parse_usize (args !! 2%nat) DEFAULT_KEY_SIZE in
  let value_size := bench_parse_usize (args !! 3%nat) DEFAULT_VALUE_SIZE in
  key_count ← normalize_power_of_two p requested_keys;
  key_mask ← usize_sub p key_count 1;
  mret (mkBenchConfig requested_keys key_count key_mask op_count key_size value_size).

(** ** Pseudo-random numbers *)

(** [XorShift64]: its state, a [u64]. *)
Record XorShift64 := mkXorShift64 { xs_state : Z }.

(** [XorShift64::new]. *)
Definition xorshift_new (seed : Z) : XorShift64 := mkXorShift64 seed.

(** [x << n] and [x >> n] on [u64]. *)
Definition u64_shl (x n : Z) : Z := wrap64 (Z.shiftl x n).
Definition u64_shr (x n : Z) : Z := Z.shiftr x n.

Definition next_u64 (r : XorShift64) : Z * XorShift64 :=
  let x := xs_state r in
  let x := Z.lxor x (u64_shl x 13) in
  let x := Z.lxor x (u64_shr x 7) in
  let x := Z.lxor x (u64_shl x 17) in
  (x, mkXorShift64 x).

Definition next_index (r : XorShift64) (mask : Z) : Z * XorShift64 :=
  let '(x, r) := next_u64 r in (Z.land x mask, r).

(** ** Buffers *)

(** [u64::to_le_bytes]. *)
Definition to_le_bytes (value : Z) : bytes :=
  (fun i => Z.land (Z.shiftr value (8 * Z.of_nat i)) 255) <$> seq 0 8.

Definition write_u64_le (value : Z) (buffer : bytes) : bytes :=
  let bytes := to_le_bytes value in
  let copy_len := Nat.min (length buffer) (length bytes) in
  take copy_len bytes ++ drop copy_len buffer.

(** [vec![0u8; size]] and [Vec::with_capacity(count)] for elements of [width]
    bytes: a panic when the allocation exceeds [isize::MAX]. *)
Definition vec_zeros (size : Z) : outcome bytes :=
  if size <=? ISIZE_MAX then Ret (replicate (Z.to_nat size) 0) else Panic.
Definition vec_capacity (width count : Z) : outcome unit :=
  if width * count <=? ISIZE_MAX then Ret tt else Panic.

(** A [Vec<u8>] is a pointer, a capacity and a length. *)
Definition VEC_SIZE : Z := 24.

Fixpoint fill_buffers (idxs : list nat) (size seed : Z) : outcome (list bytes) :=
  match idxs with
  | [] => Ret []
  | i :: idxs =>
      zeros ← vec_zeros size;
      let buffer := write_u64_le (Z.lxor seed (Z.of_nat i)) zeros in
      buffers ← fill_buffers idxs size seed;
      mret (buffer :: buffers)
  end.

Definition build_buffers (count size seed : Z) : outcome (list bytes) :=
  _ ← vec_capacity VEC_SIZE count;
  fill_buffers (seq 0 (Z.to_nat count)) size seed.

(** ** Printing *)

(** The text of a float with a number of decimals ([{:.3}]), a standard-library
    function. *)
Class FixedPoint := fixed : nat -> f64 -> bytes.

(** The line of the options. *)
Definition config_line (config : BenchConfig) : bytes :=
  bs "keys: requested=" ++ decimal (requested_keys config) ++ bs ", actual=" ++ decimal (key_count config) ++
  bs ", ops=" ++ decimal (op_count config) ++ bs ", key_size=" ++ decimal (key_size config) ++
  bs ", value_size=" ++ decimal (value_size config) ++ [LF].

(** [report]; [1e9] is exact. *)
Definition report `{FixedPoint} (label : bytes) (ops elapsed : Z) : bytes :=
  let secs := as_secs_f64 elapsed in
  let ops_per_sec := f64_div (f64_of_u64 ops) secs in
  let nanos_per_op := f64_div (f64_mul secs (f64_of_u64 1000000000)) (f64_of_u64 ops) in
  label ++ bs ": " ++ decimal ops ++ bs " ops in " ++ fixed 3 secs ++ bs "s (" ++ fixed 0 ops_per_sec ++
  bs " ops/s, " ++ fixed 1 nanos_per_op ++ bs " ns/op)" ++ [LF].

(** ** The run *)

Section run.
Context `{EngineEnv} (p : profile).

(** [vec[idx]]: a panic out of bounds. *)
Definition index {A} (l : list A) (idx : Z) : EM A := expect (l !! Z.to_nat idx).

(** [engine.set(keys[idx].clone(), value)?] and the loop that fills the engine;
    [clock i] is the time of call [i]. *)
Fixpoint preload (idxs : list nat) (keys values : list bytes) (clock : nat -> Z) : EM (HkvResult unit) :=
  match idxs with
  | [] => mret (Ok tt)
  | idx :: idxs =>
      key ← index keys (Z.of_nat idx);
      value ← index values (Z.of_nat idx);
      r ← set p key value (clock idx);
      match r with
      | Ok _ => preload idxs keys values clock
      | Err err => mret (Err err)
      end
  end.

(** The loop that reads; the values given to [black_box]. *)
Fixpoint get_phase (ops : nat) (rng : XorShift64) (mask : Z) (keys : list bytes) (clock : nat -> Z) :
    EM (HkvResult (list (option bytes))) :=
  match ops with
  | O => mret (Ok [])
  | S ops =>
      let '(idx, rng) := next_index rng mask in
      key ← index keys idx;
      r ← get key (clock ops);
      match r with
      | Ok value =>
          rest ← get_phase ops rng mask keys clock;
          mret match rest with Ok values => Ok (value :: values) | Err err => Err err end
      | Err err => mret (Err err)
      end
  end.

(** [if let Some(first) = value.get_mut(0) { *first ^= 0xFF; }]. *)
Definition flip_first (value : bytes) : bytes :=
  match value with first :: rest => Z.lxor first 255 :: rest | [] => [] end.

(** The loop that overwrites. *)
Fixpoint set_phase (ops : nat) (rng : XorShift64) (mask : Z) (keys values : list bytes) (clock : nat -> Z) :
    EM (HkvResult unit) :=
  match ops with
  | O => mret (Ok tt)
  | S ops =>
      let '(idx, rng) := next_index rng mask in
      value ← index values idx;
      let value := flip_first value in
      key ← index keys idx;
      r ← set p key value (clock ops);
      match r with
      | Ok _ => set_phase ops rng mask keys values clock
      | Err err => mret (Err err)
      end
  end.

Definition KEY_SEED : Z := 0xA5A5A5A5A5A5A5A5.
Definition VALUE_SEED : Z := 0x5A5A5A5A5A5A5A5A.
Definition GET_SEED : Z := 0x123456789ABCDEF0.
Definition SET_SEED : Z := 0x0FEDCBA987654321.

(** An engine and the text printed so far. *)
Abbreviation BM := (M (MemoryEngine * bytes)).

Definition on_engine {A} (m : EM A) : BM A := zoom fst (fun engine s => (engine, s.2)) m.
Definition print (text : bytes) : BM unit := modify (fun s => (s.1, s.2 ++ text)).

(** The phases of [run] on an engine; the values the GET phase read.  The GET and
    the SET phase take [elapsed.1] and [elapsed.2]. *)
Definition run_phases `{FixedPoint} (config : BenchConfig) (keys values : list bytes) (clock : nat -> nat -> Z)
    (elapsed : Z * Z) : BM (HkvResult (list (option bytes))) :=
  r ← on_engine (preload (seq 0 (Z.to_nat (key_count config))) keys values (clock 0%nat));
  match r with
  | Err err => mret (Err err)
  | Ok _ =>
      _ ← print (config_line config);
      r ← on_engine (get_phase (Z.to_nat (op_count config)) (xorshift_new GET_SEED) (key_mask config) keys (clock 1%nat));
      match r with
      | Err err => mret (Err err)
      | Ok read =>
          _ ← print (report (bs "GET") (op_count config) elapsed.1);
          r ← on_engine (set_phase (Z.to_nat (op_count config)) (xorshift_new SET_SEED) (key_mask config) keys values
            (clock 2%nat));
          match r with
          | Err err => mret (Err err)
          | Ok _ =>
              _ ← print (report (bs "SET") (op_count config) elapsed.2);
              mret (Ok read)
          end
      end
  end.

(** Runs [m] on an engine of its own; the result and the engine at the end. *)
Definition with_engine {A} (engine : MemoryEngine) (m : BM A) : M bytes (A * MemoryEngine) := fun out =>
  let '(o, s) := m (engine, out) in
  match o with
  | Ret a => (Ret (a, s.1), s.2)
  | Panic => (Panic, s.2)
  | OutOfFuel => (OutOfFuel, s.2)
  end.

(** [run]; [threads] is [available_parallelism], if known.  The state is the
    standard output; the result comes with the engine at the end. *)
Definition bench_run `{FixedPoint} (threads : option Z) (args : list bytes) (clock : nat -> nat -> Z) (elapsed : Z * Z) :
    M bytes (HkvResult (list (option bytes)) * MemoryEngine) :=
  config ← lift (from_args p args);
  engine ← lift (engine_new p threads);
  keys ← lift (build_buffers (key_count config) (key_size config) KEY_SEED);
  values ← lift (build_buffers (key_count config) (value_size config) VALUE_SEED);
  with_engine engine (run_phases config keys values clock elapsed).

(** What a process leaves behind: its output streams and its exit status. *)
Record process_end := mkProcess { proc_stdout : bytes; proc_stderr : bytes; proc_status : Z }.

(** [main]; a panic ends the process with the output so far. *)
Definition bench_engine_main `{FixedPoint} (threads : option Z) (args : list bytes) (clock : nat -> nat -> Z)
    (elapsed : Z * Z) : outcome process_end :=
  let '(o, out) := bench_run threads args clock elapsed [] in
  r ← o;
  mret match r.1 with
       | Ok _ => mkProcess out [] 0
       | Err err => mkProcess out (bs "bench_engine failed: " ++ bs (error_label err) ++ [LF]) 1
       end.

End run.
