(* ===== verification/BenchClaims.v ===== *)
(** * Properties of the benchmark

    The workload generator is a permutation of the 64-bit states, the buffers are
    distinct as long as their size allows it, and the run on the engine succeeds
    and reads what it wrote. *)

From S2P Require Import Prelude Decimal Metrics HkvError Shard Engine KVEngine EngineInv EngineSpec Eviction EngineTheorems Bench.

Definition u64 (x : Z) : Prop := 0 <= x <= U64_MAX.

(** ** Bits *)

Lemma wrap64_mod x : wrap64 x = x mod 2 ^ 64.
Proof. done. Qed.

Lemma u64_testbit x n : u64 x -> 64 <= n -> Z.testbit x n = false.
Proof.
  intros [H0 H1] Hn. destruct (decide (x = 0)) as [->|Hx]; [apply Z.testbit_0_l|].
  apply Z.bits_above_log2; [done|]. apply Z.log2_lt_pow2; [lia|].
  apply Z.lt_le_trans with (2 ^ 64); [unfold U64_MAX in H1; lia|]. apply Z.pow_le_mono_r; lia.
Qed.

Lemma u64_bits x : 0 <= x -> (forall n, 64 <= n -> Z.testbit x n = false) -> u64 x.
Proof.
  intros H0 Hb. split; [done|]. assert (x = x mod 2 ^ 64) as ->.
  { apply Z.bits_inj'. intros n Hn. rewrite Z.testbit_mod_pow2 by lia.
    destruct (Z.ltb_spec n 64); [done|]. by rewrite Hb. }
  pose proof (Z.mod_pos_bound x (2 ^ 64)). unfold U64_MAX. lia.
Qed.

Lemma u64_ext x y : u64 x -> u64 y -> (forall n, 0 <= n < 64 -> Z.testbit x n = Z.testbit y n) -> x = y.
Proof.
  intros Hx Hy Hb. apply Z.bits_inj'. intros n Hn. destruct (decide (n < 64)); [apply Hb; lia|].
  by rewrite !u64_testbit by (done || lia).
Qed.

Lemma lxor_u64 x y : u64 x -> u64 y -> u64 (Z.lxor x y).
Proof.
  intros Hx Hy. apply u64_bits.
  - destruct Hx as [Hx _], Hy as [Hy _]. apply Z.lxor_nonneg. lia.
  - intros n Hn. by rewrite Z.lxor_spec, !u64_testbit.
Qed.

Lemma shl_bit x k n : 0 <= k -> 0 <= n < 64 -> Z.testbit (u64_shl x k) n = (k <=? n) && Z.testbit x (n - k).
Proof.
  intros Hk Hn. unfold u64_shl. rewrite wrap64_mod, Z.testbit_mod_pow2 by lia.
  rewrite (proj2 (Z.ltb_lt _ _)), Z.shiftl_spec by lia. simpl. destruct (Z.leb_spec k n); [done|].
  by rewrite Z.testbit_neg_r by lia.
Qed.

Lemma shl_u64 x k : u64 (u64_shl x k).
Proof. apply wrap64_range. Qed.

Lemma shr_u64 x k : 0 <= k -> u64 x -> u64 (u64_shr x k).
Proof.
  intros Hk Hx. apply u64_bits; [apply Z.shiftr_nonneg, Hx|]. intros n Hn. unfold u64_shr.
  rewrite Z.shiftr_spec by lia. apply u64_testbit; [done|lia].
Qed.

(** A number is determined by its exclusive or with itself, shifted left: the low
    bits first. *)
Lemma xor_shl_inj k x y :
  0 < k -> u64 x -> u64 y -> Z.lxor x (u64_shl x k) = Z.lxor y (u64_shl y k) -> x = y.
Proof.
  intros Hk Hx Hy E. apply u64_ext; [done..|]. intros n [Hn H64]. revert n Hn H64.
  apply (Z_lt_induction (fun n => n < 64 -> Z.testbit x n = Z.testbit y n)). intros n IH H64.
  destruct (decide (0 <= n)) as [Hn|Hn]; [|by rewrite !Z.testbit_neg_r by lia].
  assert (En : Z.testbit (Z.lxor x (u64_shl x k)) n = Z.testbit (Z.lxor y (u64_shl y k)) n) by by rewrite E.
  rewrite !Z.lxor_spec, !shl_bit in En by lia. destruct (Z.leb_spec k n).
  - rewrite (IH (n - k)) in En by lia. simpl in En.
    destruct (Z.testbit x n), (Z.testbit y n), (Z.testbit y (n - k)); done.
  - by rewrite !xorb_false_r in En.
Qed.

(** Shifted right: the high bits first. *)
Lemma xor_shr_inj k x y :
  0 < k -> u64 x -> u64 y -> Z.lxor x (u64_shr x k) = Z.lxor y (u64_shr y k) -> x = y.
Proof.
  intros Hk Hx Hy E. apply u64_ext; [done..|].
  enough (Hall : forall m, 0 <= m -> forall n, n = 64 - m -> 0 <= n -> Z.testbit x n = Z.testbit y n).
  { intros n Hn. apply (Hall (64 - n)); lia. }
  intros m Hm. pattern m. apply Z_lt_induction; [|done]. clear m Hm. intros m IH n -> Hn.
  destruct (decide (64 <= 64 - m)) as [Hge|Hlt]; [by rewrite !u64_testbit by (done || lia)|].
  set (n := 64 - m) in *.
  assert (En : Z.testbit (Z.lxor x (u64_shr x k)) n = Z.testbit (Z.lxor y (u64_shr y k)) n) by by rewrite E.
  unfold u64_shr in En. rewrite !Z.lxor_spec, !Z.shiftr_spec in En by lia.
  assert (Hup : Z.testbit x (n + k) = Z.testbit y (n + k)).
  { destruct (decide (n + k < 64)); [apply (IH (m - k)); lia|]. by rewrite !u64_testbit by (done || lia). }
  rewrite Hup in En. destruct (Z.testbit x n), (Z.testbit y n), (Z.testbit y (n + k)); done.
Qed.

(** ** The generator *)

Lemma next_range r : u64 (xs_state r) -> u64 (xs_state (next_u64 r).2).
Proof.
  intros Hr. unfold next_u64. cbn. repeat first [apply lxor_u64|apply shl_u64|apply shr_u64|done].
Qed.

Lemma next_inj r r' :
  u64 (xs_state r) -> u64 (xs_state r') -> (next_u64 r).1 = (next_u64 r').1 -> r = r'.
Proof.
  destruct r as [x], r' as [y]. cbn. intros Hx Hy E.
  apply xor_shl_inj in E; [|done|repeat first [apply lxor_u64|apply shl_u64|apply shr_u64|done]..].
  apply xor_shr_inj in E; [|done|repeat first [apply lxor_u64|apply shl_u64|apply shr_u64|done]..].
  apply xor_shl_inj in E; [by subst|done..].
Qed.

(** A step of the benchmark's generator maps the 64-bit states one to one to
    themselves and keeps the zero state apart, so that no seed but zero ever gets
    stuck there; with the mask of a power of two the index it yields is below that
    power. *)
Theorem generator_permutes_states (r : XorShift64) :
  u64 (xs_state r) ->
  let '(x, r1) := next_u64 r in
  u64 (xs_state r1) /\ x = xs_state r1 /\ (x = 0 <-> xs_state r = 0) /\
  (forall r', u64 (xs_state r') -> (next_u64 r').1 = x -> r' = r) /\
  (forall b, 0 <= b -> 0 <= (next_index r (Z.ones b)).1 < 2 ^ b).
Proof.
  intros Hr. destruct (next_u64 r) as [x r1] eqn:E. split_and!.
  - replace r1 with ((next_u64 r).2) by by rewrite E. by apply next_range.
  - unfold next_u64 in E. by injection E as <- <-.
  - split.
    + intros ->. assert (r = xorshift_new 0) as ->; [|done]. apply next_inj; [done..|]. by rewrite E.
    + intros H0. destruct r as [y]. cbn in H0. subst y. by injection E as <- _.
  - intros r' Hr' E'. apply next_inj; [done..|]. by rewrite E', E.
  - intros b Hb. unfold next_index. rewrite E. cbn. rewrite Z.land_ones by done.
    apply Z.mod_pos_bound. by apply Z.pow_pos_nonneg.
Qed.

Lemma generator_permutes_states_witness :
  u64 GET_SEED /\ forall b, 0 <= b -> 0 <= (next_index (xorshift_new GET_SEED) (Z.ones b)).1 < 2 ^ b.
Proof.
  assert (Hs : u64 GET_SEED) by by split. split; [done|].
  pose proof (generator_permutes_states (xorshift_new GET_SEED) Hs) as Hp.
  destruct (next_u64 (xorshift_new GET_SEED)). apply Hp.
Defined.

(** ** The buffers *)

(** The bytes of a number that a buffer of [size] bytes holds. *)
Definition stamped (size : Z) : nat := Nat.min (Z.to_nat size) 8.

(** Buffer [i] of [build_buffers]. *)
Definition buffer_of (size seed : Z) (i : nat) : bytes :=
  write_u64_le (Z.lxor seed (Z.of_nat i)) (replicate (Z.to_nat size) 0).

Definition low_bits_agree (n : Z) (v w : Z) : Prop := forall b, 0 <= b < n -> Z.testbit v b = Z.testbit w b.

Lemma byte_agree v w i :
  Z.land (Z.shiftr v (8 * i)) 255 = Z.land (Z.shiftr w (8 * i)) 255 <->
  forall b, 0 <= b < 8 -> Z.testbit v (8 * i + b) = Z.testbit w (8 * i + b).
Proof.
  change 255 with (Z.ones 8). split.
  - intros E b Hb. apply (f_equal (fun z => Z.testbit z b)) in E.
    rewrite !Z.land_spec, Z.testbit_ones_nonneg, !Z.shiftr_spec in E by lia.
    rewrite (proj2 (Z.ltb_lt b 8)), !andb_true_r in E by lia. by rewrite !(Z.add_comm (8 * i)).
  - intros Hb. apply Z.bits_inj'. intros b Hb0. rewrite !Z.land_spec, Z.testbit_ones_nonneg, !Z.shiftr_spec by lia.
    destruct (Z.ltb_spec b 8); [|by rewrite !andb_false_r]. by rewrite !(Z.add_comm b), Hb by lia.
Qed.

Lemma stamp_agree n v w :
  (n <= 8)%nat -> take n (to_le_bytes v) = take n (to_le_bytes w) <-> low_bits_agree (8 * Z.of_nat n) v w.
Proof.
  intros Hn. unfold to_le_bytes. rewrite <- !fmap_take, take_seq, Nat.min_l by done. split.
  - intros E b Hb. assert (Hi : seq 0 n !! Z.to_nat (b / 8) = Some (Z.to_nat (b / 8))).
    { rewrite lookup_seq. split; [done|]. pose proof (Z.div_lt_upper_bound b 8 (Z.of_nat n)). lia. }
    apply (f_equal (fun l => l !! Z.to_nat (b / 8))) in E. rewrite !list_lookup_fmap, Hi in E. injection E as E.
    rewrite Z2Nat.id in E by (apply Z.div_pos; lia). rewrite (Z.div_mod b 8) by done.
    eapply byte_agree; [exact E|]. by apply Z.mod_pos_bound.
  - intros Hb. apply list_fmap_ext. intros i j [-> Hj]%lookup_seq. apply byte_agree. intros b Hb8. apply Hb. lia.
Qed.

Lemma buffer_length size seed i : 0 <= size -> zlen (buffer_of size seed i) = size.
Proof.
  intros Hs. unfold buffer_of, write_u64_le, zlen. rewrite length_app, length_take, length_drop, length_replicate. lia.
Qed.

Lemma buffer_eq size seed i j :
  buffer_of size seed i = buffer_of size seed j <-> low_bits_agree (8 * Z.of_nat (stamped size)) (Z.of_nat i) (Z.of_nat j).
Proof.
  unfold buffer_of, write_u64_le. rewrite length_replicate. change (length (to_le_bytes _)) with 8%nat.
  fold (stamped size). split.
  - intros E. apply app_inj_1 in E as [E _]; [|by rewrite !length_take].
    apply stamp_agree in E; [|unfold stamped; lia]. intros b Hb. specialize (E b Hb).
    rewrite !Z.lxor_spec in E. destruct (Z.testbit seed b), (Z.testbit _ b), (Z.testbit _ b); done.
  - intros Hb. f_equal. apply stamp_agree; [unfold stamped; lia|]. intros b Hb'. rewrite !Z.lxor_spec. by rewrite Hb.
Qed.

Lemma fill_buffers_run idxs size seed :
  size <= ISIZE_MAX -> fill_buffers idxs size seed = Ret (buffer_of size seed <$> idxs).
Proof.
  intros Hs. induction idxs as [|i idxs IH]; [done|]. cbn [fill_buffers]. unfold vec_zeros.
  rewrite (proj2 (Z.leb_le _ _)), IH by done. done.
Qed.

Lemma build_buffers_run count size seed :
  size <= ISIZE_MAX -> VEC_SIZE * count <= ISIZE_MAX ->
  build_buffers count size seed = Ret (buffer_of size seed <$> seq 0 (Z.to_nat count)).
Proof.
  intros Hs Hc. unfold build_buffers, vec_capacity. rewrite (proj2 (Z.leb_le _ _)) by done. by apply fill_buffers_run.
Qed.

(** Numbers below [2 ^ n] are told apart by their low [n] bits. *)
Lemma low_bits_small n i j :
  0 <= n -> 0 <= i < 2 ^ n -> 0 <= j < 2 ^ n -> low_bits_agree n i j -> i = j.
Proof.
  intros Hn Hi Hj Hb. rewrite <- (Z.mod_small i (2 ^ n)), <- (Z.mod_small j (2 ^ n)) by done.
  apply Z.bits_inj'. intros b Hb0. rewrite !Z.testbit_mod_pow2 by done.
  destruct (Z.ltb_spec b n); [|done]. by rewrite Hb.
Qed.

Lemma buffers_distinct_nodup count size seed :
  0 <= size -> 0 <= count ->
  NoDup (buffer_of size seed <$> seq 0 (Z.to_nat count)) <-> count <= 256 ^ Z.min size 8.
Proof.
  intros Hs0 Hc0.
  assert (Hpow : 256 ^ Z.min size 8 = 2 ^ (8 * Z.of_nat (stamped size))).
  { unfold stamped. rewrite Z.pow_mul_r by lia. f_equal. lia. }
  assert (Hpos : 0 < 2 ^ (8 * Z.of_nat (stamped size))) by (apply Z.pow_pos_nonneg; lia).
  rewrite Hpow. split.
  - intros Hnd. destruct (Z.le_gt_cases count (2 ^ (8 * Z.of_nat (stamped size)))) as [?|Hgt]; [done|exfalso].
    set (q := 2 ^ (8 * Z.of_nat (stamped size))) in *.
    assert (E : Z.to_nat q = 0%nat); [|lia].
    eapply (NoDup_lookup _ (Z.to_nat q) 0 (buffer_of size seed 0) Hnd).
    + rewrite list_lookup_fmap, (proj2 (lookup_seq 0 _ (Z.to_nat q) (Z.to_nat q))) by lia. simpl. f_equal.
      apply buffer_eq. intros b Hb. rewrite Z2Nat.id by lia. unfold q. rewrite Z.pow2_bits_eqb, Z.testbit_0_l by lia.
      apply Z.eqb_neq. lia.
    + by rewrite list_lookup_fmap, (proj2 (lookup_seq 0 (Z.to_nat count) 0 0)) by lia.
  - intros Hle. apply NoDup_fmap_2_strong; [|apply NoDup_seq]. intros i j Hi Hj E%buffer_eq.
    apply elem_of_seq in Hi, Hj. apply Nat2Z.inj. apply (low_bits_small (8 * Z.of_nat (stamped size))); [lia..|done].
Qed.

(** [build_buffers] yields the requested number of buffers of the requested
    size; they are pairwise different exactly when the number can be told apart by
    the bytes, at most eight, that a buffer takes of it. *)
Theorem buffers_distinct (count size seed : Z) :
  0 <= size <= ISIZE_MAX -> 0 <= count -> VEC_SIZE * count <= ISIZE_MAX ->
  exists buffers, build_buffers count size seed = Ret buffers /\ zlen buffers = count /\
    Forall (fun b => zlen b = size) buffers /\
    (NoDup buffers <-> count <= 256 ^ Z.min size 8).
Proof.
  intros [Hs0 Hs] Hc0 Hc. rewrite build_buffers_run by done. eexists. split; [done|]. split_and!.
  - unfold zlen. rewrite length_fmap, length_seq. lia.
  - apply Forall_fmap, Forall_true. intros i. by apply buffer_length.
  - by apply buffers_distinct_nodup.
Qed.

(** The keys of the default workload are distinct; of one byte there are 256. *)
Lemma buffers_distinct_witness :
  (exists buffers, build_buffers 65536 16 KEY_SEED = Ret buffers /\ NoDup buffers) /\
  exists buffers, build_buffers 65536 1 KEY_SEED = Ret buffers /\ ~ NoDup buffers.
Proof.
  split.
  - destruct (buffers_distinct 65536 16 KEY_SEED) as (l & E & _ & _ & Hnd); [done..|].
    exists l. split; [exact E|]. apply Hnd. by vm_compute.
  - destruct (buffers_distinct 65536 1 KEY_SEED) as (l & E & _ & _ & Hnd); [done..|].
    exists l. split; [exact E|]. intros Hd. apply (proj1 Hnd) in Hd. clear -Hd.
    change (256 ^ Z.min 1 8) with 256 in Hd. lia.
Defined.

(** ** The run *)

(** The indices the generator yields. *)
Fixpoint indices (ops : nat) (r : XorShift64) (mask : Z) : list Z :=
  match ops with
  | O => []
  | S ops => let '(i, r) := next_index r mask in i :: indices ops r mask
  end.

Lemma indices_range ops r b :
  0 <= b -> u64 (xs_state r) -> Forall (fun i => 0 <= i < 2 ^ b) (indices ops r (Z.ones b)).
Proof.
  intros Hb. revert r. induction ops as [|ops IH]; intros r Hr; [by constructor|]. cbn [indices].
  pose proof (next_range r Hr) as Hr1. unfold next_index. destruct (next_u64 r) as [x r1].
  constructor; [|by apply IH]. rewrite Z.land_ones by done. apply Z.mod_pos_bound. by apply Z.pow_pos_nonneg.
Qed.

Section run.
Context `{EngineEnv} (p : profile) (keys values : list bytes) (b : Z).
Context (Hkeys : NoDup keys) (Hlen : length values = length keys) (Hb : 0 <= b) (Hcount : zlen keys = 2 ^ b).
Context (Hfit : forall i k v, keys !! i = Some k -> values !! i = Some v -> zlen k + zlen v <= USIZE_MAX).
Implicit Types (e : MemoryEngine) (content : nat -> option bytes).

(** The engine holds exactly the given value for each key. *)
Record filled content e : Prop := mkFilled {
  fi_inv : eng_inv e;
  fi_max : eng_max_bytes e = USIZE_MAX;
  fi_key : forall i k, keys !! i = Some k -> store e !! k = (fun v => (v, None)) <$> content i;
  fi_other : forall k, k ∉ keys -> store e !! k = None
}.

Lemma filled_ext content content' e :
  (forall i, (i < length keys)%nat -> content i = content' i) -> filled content e -> filled content' e.
Proof.
  intros Hc [He Hm Hk Ho]. split; [done..| |done]. intros i k Hi. rewrite (Hk i k Hi), Hc; [done|].
  by eapply lookup_lt_Some.
Qed.

Lemma set_filled content e i k v now :
  filled content e -> keys !! i = Some k -> zlen k + zlen v <= USIZE_MAX ->
  runs (set p k v now) e (fun r e' => r = Ok tt /\ filled (fun j => if decide (j = i) then Some v else content j) e').
Proof.
  intros [He Hm Hk Ho] Hi Hsz. eapply runs_mono; [by apply set_refines|]. cbn beta. intros r e' (He' & (_ & Hm' & _) & -> & Hst).
  split; [done|]. split; [done|by rewrite Hm'|..].
  - intros j k' Hj. rewrite Hst. destruct (decide (j = i)) as [->|Hne].
    + simplify_eq. by rewrite lookup_insert_eq.
    + rewrite lookup_insert_ne; [by apply Hk|]. intros ->. apply Hne. by eapply NoDup_lookup.
  - intros k' Hk'. rewrite Hst, lookup_insert_ne; [by apply Ho|]. intros ->. apply Hk'. by eapply list_elem_of_lookup_2.
Qed.

Lemma get_filled content e i k v now :
  filled content e -> keys !! i = Some k -> content i = Some v ->
  runs (get k now) e (fun r e' => r = Ok (Some v) /\ filled content e').
Proof.
  intros [He Hm Hk Ho] Hi Hv. eapply runs_mono; [by apply get_refines|]. cbn beta. intros r e' (He' & (_ & Hm' & _) & -> & Hst).
  assert (Hl : live now k (store e) = Some (v, None)) by (unfold live; by rewrite (Hk i k Hi), Hv).
  rewrite Hl. split; [done|]. unfold settle in Hst. rewrite Hl in Hst.
  split; [done|by rewrite Hm'|by rewrite Hst|by rewrite Hst].
Qed.

Lemma preload_filled j n clock e :
  (j + n = length keys)%nat -> filled (fun i => if decide (i < j)%nat then values !! i else None) e ->
  runs (preload p (seq j n) keys values clock) e (fun r e' => r = Ok tt /\ filled (fun i => values !! i) e').
Proof.
  revert j e. induction n as [|n IH]; intros j e Hn He; cbn [seq preload].
  - apply runs_ret. split; [done|]. eapply filled_ext; [|exact He]. intros i Hi. cbn beta. by rewrite decide_True by lia.
  - destruct (lookup_lt_is_Some_2 keys j) as [k Hk]; [lia|]. destruct (lookup_lt_is_Some_2 values j) as [v Hv]; [lia|].
    unfold index. rewrite Nat2Z.id, Hk, Hv. do 4 mstep.
    mstep. eapply runs_mono; [by eapply set_filled, Hfit|]. cbn beta. intros _ e' [-> He'].
    apply IH; [lia|]. eapply filled_ext; [|exact He']. intros i Hi. cbn beta.
    destruct (decide (i = j)) as [->|Hne]; [by rewrite decide_True by lia|].
    destruct (decide (i < j)%nat); [by rewrite decide_True by lia|by rewrite decide_False by lia].
Qed.

Lemma lookup_index {A} (l : list A) r :
  length l = length keys -> exists x, l !! Z.to_nat (next_index r (Z.ones b)).1 = Some x.
Proof.
  intros Hl. apply lookup_lt_is_Some_2. unfold next_index. destruct (next_u64 r) as [x r1]. cbn.
  rewrite Z.land_ones by done. pose proof (Z.mod_pos_bound x (2 ^ b)). unfold zlen in Hcount. lia.
Qed.

Lemma get_phase_reads ops r clock e :
  filled (fun i => values !! i) e ->
  runs (get_phase ops r (Z.ones b) keys clock) e (fun res e' =>
    res = Ok ((fun i => values !! Z.to_nat i) <$> indices ops r (Z.ones b)) /\ filled (fun i => values !! i) e').
Proof.
  revert r e. induction ops as [|ops IH]; intros r e He; cbn [get_phase indices]; [by apply runs_ret|].
  destruct (lookup_index keys r eq_refl) as [k Hk]. destruct (lookup_index values r Hlen) as [v Hv].
  destruct (next_index r (Z.ones b)) as [i r1]. cbn [fst] in *. unfold index. rewrite Hk. do 2 mstep.
  mstep. eapply runs_mono; [by eapply get_filled|]. cbn beta. intros _ e' [-> He'].
  mstep. eapply runs_mono; [by apply IH|]. cbn beta. intros _ e2 [-> He2]. mstep. split; [|done]. csimpl. by rewrite Hv.
Qed.

(** The values after the calls to the indices [l]. *)
Definition overwritten (l : list Z) (i : nat) : option bytes :=
  (fun v => if bool_decide (Z.of_nat i ∈ l) then flip_first v else v) <$> values !! i.

Lemma flip_first_length v : zlen (flip_first v) = zlen v.
Proof. by destruct v. Qed.

Lemma set_phase_writes ops r clock e l :
  filled (overwritten l) e ->
  runs (set_phase p ops r (Z.ones b) keys values clock) e (fun res e' =>
    res = Ok tt /\ filled (overwritten (l ++ indices ops r (Z.ones b))) e').
Proof.
  revert r e l. induction ops as [|ops IH]; intros r e l He; cbn [set_phase indices].
  { apply runs_ret. by rewrite app_nil_r. }
  destruct (lookup_index keys r eq_refl) as [k Hk]. destruct (lookup_index values r Hlen) as [v Hv].
  destruct (next_index r (Z.ones b)) as [i r1] eqn:Ei. cbn [fst] in *. unfold index. rewrite Hk, Hv. do 4 mstep.
  assert (Hi : 0 <= i).
  { unfold next_index in Ei. destruct (next_u64 r) as [x r2]. injection Ei as <- _. rewrite Z.land_ones by done.
    apply Z.mod_pos_bound. by apply Z.pow_pos_nonneg. }
  mstep. eapply runs_mono.
  { eapply set_filled; [exact He|exact Hk|]. rewrite flip_first_length. by eapply Hfit. }
  cbn beta. intros _ e' [-> He']. rewrite (cons_middle i l), app_assoc. apply IH. eapply filled_ext; [|exact He']. intros j Hj.
  cbn beta. unfold overwritten. destruct (decide (j = Z.to_nat i)) as [->|Hne].
  - rewrite Hv, Z2Nat.id by done. cbn. rewrite bool_decide_true by set_solver. done.
  - destruct (values !! j); [|done]. cbn. f_equal.
    assert (bool_decide (Z.of_nat j ∈ l ++ [i]) = bool_decide (Z.of_nat j ∈ l)) as ->; [|done].
    apply bool_decide_ext. rewrite elem_of_app, list_elem_of_singleton. split; [intros [?|?]; [done|lia]|by left].
Qed.

Lemma on_engine_runs {A} (m : EM A) e out (Q : A -> _ -> Prop) :
  runs m e (fun a e' => Q a (e', out)) -> runs (on_engine m) (e, out) Q.
Proof. unfold runs, on_engine, zoom. cbn [fst snd]. by destruct (m e) as [[a| |] e']. Qed.

Lemma run_phases_run `{FixedPoint} c clock elapsed e :
  key_count c = 2 ^ b -> key_mask c = Z.ones b -> filled (fun _ => None) e ->
  runs (run_phases p c keys values clock elapsed) (e, []) (fun res s =>
    res = Ok ((fun i => values !! Z.to_nat i) <$> indices (Z.to_nat (op_count c)) (xorshift_new GET_SEED) (Z.ones b)) /\
    filled (overwritten (indices (Z.to_nat (op_count c)) (xorshift_new SET_SEED) (Z.ones b))) s.1 /\
    s.2 = (config_line c ++ report (bs "GET") (op_count c) elapsed.1) ++ report (bs "SET") (op_count c) elapsed.2).
Proof.
  intros Hc Hm He. unfold run_phases, print. rewrite Hm. mstep. apply on_engine_runs. eapply runs_mono.
  { apply preload_filled; [rewrite Hc; unfold zlen in Hcount; lia|]. eapply filled_ext; [|exact He].
    intros i _. cbn beta. by rewrite decide_False by lia. }
  cbn beta. intros _ e1 [-> He1]. do 2 mstep. mstep. apply on_engine_runs.
  eapply runs_mono; [by apply get_phase_reads|]. cbn beta. intros _ e2 [-> He2].
  do 2 mstep. mstep. apply on_engine_runs. eapply runs_mono; [apply (set_phase_writes _ _ _ _ [])|].
  - eapply filled_ext; [|exact He2]. intros i _. unfold overwritten. cbn beta. by destruct (values !! i).
  - cbn beta. intros _ e3 [-> He3]. do 3 mstep. done.
Qed.

End run.

(** ** The whole program *)

Lemma digits_value_nonneg data : forallb is_digit data = true -> 0 <= digits_value data.
Proof.
  unfold digits_value. assert (Hgen : forall acc, 0 <= acc -> forallb is_digit data = true ->
    0 <= fold_left (fun a b => a * 10 + (b - 48)) data acc); [|by apply Hgen].
  induction data as [|d data IH]; intros acc Hacc Hd; [done|]. simpl in *. apply andb_prop in Hd as [Hd Hds].
  apply IH; [|done]. unfold is_digit in Hd. lia.
Qed.

Lemma bench_parse_range value fallback : 0 <= fallback <= USIZE_MAX -> 0 <= bench_parse_usize value fallback <= USIZE_MAX.
Proof.
  intros Hf. unfold bench_parse_usize. destruct value as [raw|]; [|done]. simpl. unfold usize_from_str.
  set (digits := match raw with 43 :: rest => rest | _ => raw end). destruct digits as [|d ds] eqn:Ed; [done|].
  destruct (forallb is_digit (d :: ds)) eqn:Hd; [|done]. destruct (Z.leb_spec (digits_value (d :: ds)) USIZE_MAX); [|done].
  simpl. split; [by apply digits_value_nonneg|done].
Qed.

Lemma power_of_two_log2_up n : 1 <= n -> is_power_of_two n = true -> 2 ^ Z.log2_up n = n.
Proof.
  intros Hn E%Z.eqb_eq. rewrite E at 1. by rewrite Z.log2_up_pow2 by apply Z.log2_nonneg.
Qed.

Lemma bind_lift {S A B} (a : A) (f : A -> M S B) s : (lift (Ret a) ≫= f) s = f a s.
Proof. done. Qed.

(** The options of a run: what they mean. *)
Lemma from_args_spec p args c :
  from_args p args = Ret c -> requested_keys c <= 2 ^ 63 ->
  exists b, 0 <= b <= 63 /\ key_count c = 2 ^ b /\ key_mask c = Z.ones b /\
    0 <= op_count c /\ 0 <= key_size c /\ 0 <= value_size c.
Proof.
  unfold from_args. destruct (forallb is_unicode _); [|done]. cbn [mbind outcome_bind]. set (rk := bench_parse_usize _ DEFAULT_KEY_COUNT). set (oc := bench_parse_usize _ DEFAULT_OP_COUNT).
  set (ks := bench_parse_usize _ DEFAULT_KEY_SIZE). set (vs := bench_parse_usize _ DEFAULT_VALUE_SIZE).
  assert (0 <= oc /\ 0 <= ks /\ 0 <= vs) as (? & ? & ?).
  { split_and!; by apply bench_parse_range. }
  clearbody rk oc ks vs. intros E Hrk.
  assert (requested_keys c = rk) as Erk.
  { destruct (normalize_power_of_two p rk) as [kc| |]; [|done..]. cbn in E.
    destruct (usize_sub p kc 1) as [m| |]; [|done..]. by injection E as <-. }
  rewrite Erk in Hrk. destruct (log2_up_bounds (Z.max rk 1)) as [Hlog0 Hlog63]; [lia|].
  set (b := Z.log2_up (Z.max rk 1)) in *. pose proof (pow2_pos b Hlog0).
  assert (Hle : 2 ^ b <= 2 ^ 63) by (apply Z.pow_le_mono_r; lia).
  assert (Hn : normalize_power_of_two p rk = Ret (2 ^ b)).
  { unfold normalize_power_of_two. destruct (is_power_of_two (Z.max rk 1)) eqn:Hp.
    - unfold b. by rewrite power_of_two_log2_up by (done || lia).
    - unfold next_power_of_two. fold b. rewrite (proj2 (Z.leb_le _ _)); [done|]. unfold USIZE_MAX. lia. }
  rewrite Hn in E. cbn in E. unfold usize_sub in E. rewrite (proj2 (Z.leb_le _ _)) in E by lia. cbn in E.
  injection E as <-. exists b. cbn. rewrite Z.ones_equiv. split_and!; try done; lia.
Qed.

(** Key and value [i] of a run, and the value of key [i] at its end. *)
Definition bench_key (c : BenchConfig) (i : nat) : bytes := buffer_of (key_size c) KEY_SEED i.
Definition bench_value (c : BenchConfig) (i : nat) : bytes := buffer_of (value_size c) VALUE_SEED i.
Definition final_value (c : BenchConfig) (i : nat) : bytes :=
  if bool_decide (Z.of_nat i ∈ indices (Z.to_nat (op_count c)) (xorshift_new SET_SEED) (key_mask c))
  then flip_first (bench_value c i) else bench_value c i.

(** C33: with options whose buffers fit the address space and whose keys are
    distinct the benchmark runs to its end without a panic or an error, on any
    number of threads whose shards fit the address space and under any clock; every GET reads the value that was
    loaded for the key the generator picked; at the end the engine holds every
    key once, with its value, the first byte flipped if a SET picked the key; the
    program prints the line of the options and the two reports, nothing on the
    error stream, and exits with status zero. *)
Theorem benchmark_reads_its_writes `{EngineEnv} `{FixedPoint} (p : profile) threads args clock elapsed c :
  shards_fit (default_shards threads) -> from_args p args = Ret c -> requested_keys c <= 2 ^ 63 ->
  key_size c + value_size c <= ISIZE_MAX -> VEC_SIZE * key_count c <= ISIZE_MAX ->
  key_count c <= 256 ^ Z.min (key_size c) 8 ->
  exists e' out, bench_run p threads args clock elapsed [] = (Ret (Ok
      ((fun i => Some (bench_value c (Z.to_nat i))) <$>
        indices (Z.to_nat (op_count c)) (xorshift_new GET_SEED) (key_mask c)), e'), out) /\
    store e' = list_to_map ((fun i => (bench_key c i, (final_value c i, None))) <$> seq 0 (Z.to_nat (key_count c))) /\
    out = (config_line c ++ report (bs "GET") (op_count c) elapsed.1) ++ report (bs "SET") (op_count c) elapsed.2 /\
    bench_engine_main p threads args clock elapsed = Ret (mkProcess out [] 0).
Proof.
  intros Hth Hargs Hrk Hsize Hvec Hdist.
  destruct (from_args_spec _ _ _ Hargs Hrk) as (b & Hb & Hc & Hm & Hops & Hks & Hvs).
  set (n := Z.to_nat (key_count c)). set (keys := bench_key c <$> seq 0 n). set (values := bench_value c <$> seq 0 n).
  assert (Hnd : NoDup keys).
  { destruct (buffers_distinct_nodup (key_count c) (key_size c) KEY_SEED) as [_ Hnd]; [lia..|]. by apply Hnd. }
  assert (Hlook : forall i, (i < n)%nat -> keys !! i = Some (bench_key c i) /\ values !! i = Some (bench_value c i)).
  { intros i Hi. unfold keys, values. rewrite !list_lookup_fmap, (proj2 (lookup_seq 0 n i i)) by lia. done. }
  assert (Hlk : length keys = n) by (unfold keys; by rewrite length_fmap, length_seq).
  assert (Hlv : length values = length keys) by (unfold values; by rewrite Hlk, length_fmap, length_seq).
  assert (Hzk : zlen keys = 2 ^ b) by (unfold zlen; rewrite Hlk; unfold n; lia).
  assert (Hfit : forall i k v, keys !! i = Some k -> values !! i = Some v -> zlen k + zlen v <= USIZE_MAX).
  { intros i k v Hi Hv. pose proof (lookup_lt_Some _ _ _ Hi) as Hlt. rewrite Hlk in Hlt.
    destruct (Hlook i Hlt) as [Hki Hvi]. simplify_eq. unfold bench_key, bench_value. rewrite !buffer_length by done.
    unfold ISIZE_MAX, USIZE_MAX in *. lia. }
  destruct (engine_new_run p threads) as (b0 & Hb0 & Hnew); [done|].
  assert (Hstart : filled keys (fun _ => None) (new_engine b0 USIZE_MAX)).
  { split; [apply new_engine_inv; lia|done|by rewrite new_engine_store|by rewrite new_engine_store]. }
  destruct (runs_inv _ _ _ (run_phases_run p keys values b Hnd Hlv ltac:(lia) Hzk Hfit c clock elapsed _ Hc Hm Hstart))
    as (res & [e' out] & E & -> & [_ _ Hkey Hother] & Hout). cbn [fst snd] in Hkey, Hother, Hout.
  assert (Erun : bench_run p threads args clock elapsed [] = (Ret (Ok ((fun i => values !! Z.to_nat i) <$>
    indices (Z.to_nat (op_count c)) (xorshift_new GET_SEED) (Z.ones b)), e'), out)).
  { unfold bench_run. rewrite Hargs, Hnew, !(bind_lift _ _ _). rewrite !build_buffers_run by (unfold ISIZE_MAX in *; lia).
    rewrite !(bind_lift _ _ _). change (run_phases p c _ _ clock elapsed) with (run_phases p c keys values clock elapsed).
    unfold with_engine. by rewrite E. }
  exists e', out. rewrite <- Hm in *. split_and!; [rewrite Erun| |done|unfold bench_engine_main; by rewrite Erun].
  - do 4 f_equal. apply list_fmap_ext. intros j i Hi. apply Hlook.
    pose proof (indices_range (Z.to_nat (op_count c)) (xorshift_new GET_SEED) b ltac:(lia) ltac:(by split)) as Hr.
    rewrite <- Hm in Hr. pose proof (Forall_lookup_1 _ _ _ _ Hr Hi) as Hi'. cbn beta in Hi'. unfold n. lia.
  - apply map_eq. intros k. destruct (decide (k ∈ keys)) as [[i Hi]%list_elem_of_lookup|Hk].
    + pose proof (lookup_lt_Some _ _ _ Hi) as Hlt. rewrite Hlk in Hlt. destruct (Hlook i Hlt) as [Hki Hvi].
      rewrite (Hkey i k Hi). unfold overwritten. rewrite Hvi. symmetry. apply elem_of_list_to_map.
      * rewrite <- list_fmap_compose. exact Hnd.
      * apply list_elem_of_fmap. exists i. split; [|by apply elem_of_seq; lia]. by simplify_eq.
    + rewrite (Hother k Hk). symmetry. apply not_elem_of_list_to_map_1. by rewrite <- list_fmap_compose.
Qed.

Definition demo_fixed : FixedPoint := fun n x => bs "0".

Lemma benchmark_reads_its_writes_witness :
  exists e' out, bench_run (H := demo_env) (H0 := demo_fixed) Debug (Some 1)
      [bs "bench_engine"; bs "3"; bs "6"; bs "2"; bs "3"] (fun _ _ => 0) (7, 9) [] =
    (Ret (Ok (Some <$> [[91; 90; 90]; [89; 90; 90]; [89; 90; 90]; [90; 90; 90]; [90; 90; 90]; [90; 90; 90]]), e'), out) /\
    out = bs "keys: requested=3, actual=4, ops=6, key_size=2, value_size=3" ++ [LF] ++
      bs "GET: 6 ops in 0s (0 ops/s, 0 ns/op)" ++ [LF] ++ bs "SET: 6 ops in 0s (0 ops/s, 0 ns/op)" ++ [LF].
Proof.
  destruct (@benchmark_reads_its_writes demo_env demo_fixed Debug (Some 1) [bs "bench_engine"; bs "3"; bs "6"; bs "2"; bs "3"]
    (fun _ _ => 0) (7, 9) (mkBenchConfig 3 4 3 6 2 3) ltac:(done) ltac:(vm_compute; reflexivity) ltac:(done) ltac:(done)
    ltac:(done) ltac:(done)) as (e' & out & E & _ & Hout & _).
  exists e', out. rewrite E, Hout. split; vm_compute; reflexivity.
Defined.
