(* ===== verification/Server.v ===== *)
(** * The TCP server (hkv-server/src/server.rs)

    Command dispatch against the engine interface, the response encoders, and
    the connection loop: chunks arrive, the parser extracts commands, each is
    dispatched and answered, and the metrics are kept.

    The clock, the latencies measured and the success of each write come from
    the environment; request [i] of a connection sees clock readings [clock i]. *)

From S2P Require Import Prelude Decimal HkvError Engine KVEngine RespParser Metrics ClientResp.

(** ** Responses *)

Definition resp_simple (message : bytes) : bytes := bs "+" ++ message ++ crlf.
Definition resp_error (message : bytes) : bytes := bs "-ERR " ++ message ++ crlf.
Definition resp_integer (value : Z) : bytes := bs ":" ++ decimal_signed value ++ crlf.
Definition resp_bulk (data : bytes) : bytes := bs "$" ++ decimal (zlen data) ++ crlf ++ data ++ crlf.
Definition resp_null : bytes := bs "$-1" ++ crlf.

(** [is_error_response]. *)
Definition is_error_response (response : bytes) : bool := bool_decide (head response = Some 45).

(** ** Arguments *)

(** [u8::to_ascii_lowercase]. *)
Definition to_ascii_lowercase (b : Z) : Z := if (65 <=? b) && (b <=? 90) then b + 32 else b.

(** [eq_ignore_ascii_case]. *)
Definition eq_ignore_ascii_case (a b : bytes) : bool :=
  (zlen a =? zlen b)
  && forallb (fun xy => to_ascii_lowercase xy.1 =? to_ascii_lowercase xy.2) (zip a b).

(** [parse_u64]: the error is the response to send. *)
Definition parse_u64 (arg : bytes) : result Z bytes :=
  match arg with
  | [] => Err (resp_error (bs "invalid integer"))
  | _ =>
      match digit_fold U64_MAX 0 arg with
      | Some value => Ok value
      | None => Err (resp_error (bs "invalid integer"))
      end
  end.

(** [Duration::from_secs], and [Duration::as_secs() as i64]. *)
Definition from_secs (s : Z) : Z := s * NANOS_PER_SEC.
Definition as_secs_i64 (d : Z) : Z :=
  let s := d / NANOS_PER_SEC in if s <=? I64_MAX then s else s - 18446744073709551616.

(** Standard-library text formatting of an [f64] with three decimals. *)
Class FloatFormat := { fmt3 : f64 -> bytes }.

(** ** Command handlers *)

(** The calls on [&MemoryEngine] as effects of a monad [T]: run on an engine
    ([engine_calls]), or kept as calls still to be made. *)
Class EngineCalls (T : Type -> Type) := {
  call_get : bytes -> Z -> T (HkvResult (option bytes));
  call_set : bytes -> bytes -> Z -> T (HkvResult unit);
  call_delete : bytes -> Z -> T (HkvResult bool);
  call_expire : bytes -> Z -> Z -> T (HkvResult unit);
  call_ttl : bytes -> Z -> T (HkvResult TtlStatus)
}.

#[global] Instance engine_calls {E : Type} `{KVEngine E} : EngineCalls (M E) := {|
  call_get := kv_get; call_set := kv_set; call_delete := kv_delete;
  call_expire := kv_expire; call_ttl := kv_ttl
|}.

Section handlers.
Context {T : Type -> Type} `{MRet T} `{MBind T} `{EngineCalls T} `{FloatFormat}.
Implicit Types (args : command) (now : nat -> Z).

Definition handle_ping args : bytes :=
  match args with
  | [_] => resp_simple (bs "PONG")
  | [_; payload] => resp_bulk payload
  | _ => resp_error (bs "wrong number of arguments for PING")
  end.

Definition handle_get args now : T bytes :=
  match args with
  | [_; key] =>
      r ← call_get key (now 0%nat);
      mret match r with
           | Ok (Some value) => resp_bulk value
           | Ok None => resp_null
           | Err _ => resp_error (bs "engine error")
           end
  | _ => mret (resp_error (bs "wrong number of arguments for GET"))
  end.

Definition handle_set args now : T bytes :=
  match args with
  | [_; key; value] =>
      r ← call_set key value (now 0%nat);
      mret match r with
           | Ok _ => resp_simple (bs "OK")
           | Err _ => resp_error (bs "engine error")
           end
  | [_; key; value; opt; arg] =>
      if eq_ignore_ascii_case opt (bs "EX") then
        match parse_u64 arg with
        | Err resp => mret resp
        | Ok seconds =>
            r ← call_set key value (now 0%nat);
            match r with
            | Err _ => mret (resp_error (bs "engine error"))
            | Ok _ =>
                r ← call_expire key (from_secs seconds) (now 1%nat);
                mret match r with
                     | Ok _ => resp_simple (bs "OK")
                     | Err _ => resp_error (bs "engine error")
                     end
            end
        end
      else mret (resp_error (bs "unsupported SET options"))
  | _ :: _ :: _ :: _ => mret (resp_error (bs "unsupported SET options"))
  | _ => mret (resp_error (bs "wrong number of arguments for SET"))
  end.

(** The loop of [handle_del]: [i] keys are done, [removed] of them removed. *)
Fixpoint del_loop (keys : list bytes) now (i : nat) (removed : Z) : T bytes :=
  match keys with
  | [] => mret (resp_integer removed)
  | key :: rest =>
      r ← call_delete key (now i);
      match r with
      | Ok true => del_loop rest now (S i) (removed + 1)
      | Ok false => del_loop rest now (S i) removed
      | Err _ => mret (resp_error (bs "engine error"))
      end
  end.

Definition handle_del args now : T bytes :=
  match args with
  | _ :: _ :: _ => del_loop (tail args) now 0 0
  | _ => mret (resp_error (bs "wrong number of arguments for DEL"))
  end.

Definition handle_expire args now : T bytes :=
  match args with
  | [_; key; arg] =>
      match parse_u64 arg with
      | Err resp => mret resp
      | Ok seconds =>
          r ← call_expire key (from_secs seconds) (now 0%nat);
          mret match r with
               | Ok _ => resp_integer 1
               | Err e => if decide (e = NotFound) then resp_integer 0
                          else resp_error (bs "engine error")
               end
      end
  | _ => mret (resp_error (bs "wrong number of arguments for EXPIRE"))
  end.

Definition handle_ttl args now : T bytes :=
  match args with
  | [_; key] =>
      r ← call_ttl key (now 0%nat);
      mret match r with
           | Ok Missing => resp_integer (-2)
           | Ok NoExpiry => resp_integer (-1)
           | Ok (ExpiresIn remaining) => resp_integer (as_secs_i64 remaining)
           | Err _ => resp_error (bs "engine error")
           end
  | _ => mret (resp_error (bs "wrong number of arguments for TTL"))
  end.

(** One line of the report. *)
Definition info_line (name : string) (value : bytes) : bytes := bs name ++ bs ":" ++ value ++ crlf.

Definition info_text (s : MetricsSnapshot) : bytes :=
  let l := sn_latency s in
  let percentile p := default 0 (percentile_us l p) in
  info_line "role" (bs "master") ++
  info_line "engine" (bs "hybridkv") ++
  info_line "requests_total" (decimal (sn_requests_total s)) ++
  info_line "errors_total" (decimal (sn_errors_total s)) ++
  info_line "inflight" (decimal (sn_inflight s)) ++
  info_line "uptime_sec" (fmt3 (as_secs_f64 (sn_uptime s))) ++
  info_line "qps_avg" (fmt3 (qps s)) ++
  info_line "error_rate" (fmt3 (error_rate s)) ++
  info_line "latency_samples" (decimal (ls_samples l)) ++
  info_line "latency_avg_us" (fmt3 (default (f64_of_u64 0) (average_us l))) ++
  info_line "latency_max_us" (decimal (ls_max_us l)) ++
  info_line "latency_p50_us" (decimal (percentile (f64_of_u64 50))) ++
  info_line "latency_p90_us" (decimal (percentile (f64_of_u64 90))) ++
  info_line "latency_p99_us" (decimal (percentile (f64_of_u64 99))) ++
  info_line "latency_p999_us" (decimal (percentile (f64_div (f64_of_u64 999) (f64_of_u64 10)))).

Definition handle_info (metrics : Metrics) now : bytes :=
  resp_bulk (info_text (metrics_snapshot metrics (now 0%nat))).

Definition dispatch_command args (metrics : Metrics) now : T bytes :=
  match args with
  | [] => mret (resp_error (bs "empty command"))
  | cmd :: _ =>
      if eq_ignore_ascii_case cmd (bs "PING") then mret (handle_ping args)
      else if eq_ignore_ascii_case cmd (bs "GET") then handle_get args now
      else if eq_ignore_ascii_case cmd (bs "SET") then handle_set args now
      else if eq_ignore_ascii_case cmd (bs "DEL") then handle_del args now
      else if eq_ignore_ascii_case cmd (bs "EXPIRE") then handle_expire args now
      else if eq_ignore_ascii_case cmd (bs "TTL") then handle_ttl args now
      else if eq_ignore_ascii_case cmd (bs "INFO") then mret (handle_info metrics now)
      else mret (resp_error (bs "unknown command"))
  end.

End handlers.

(** Dispatch on an engine. *)
Abbreviation dispatch_on E := (dispatch_command (T := M E)).

(** ** Connections *)

(** What a connection sees of the world. *)
Record World := mkWorld {
  clock : nat -> nat -> Z;
  elapsed : nat -> Z;
  write_ok : nat -> bool
}.

(** The state of [handle_connection_with_metrics]: [cn_out] is what has been
    written to the socket, [cn_served] the number of requests taken up. *)
Record Conn (E : Type) := mkConn {
  cn_parser : RespParser;
  cn_buf : bytes;
  cn_engine : E;
  cn_metrics : Metrics;
  cn_out : list bytes;
  cn_served : nat
}.
Arguments mkConn {E} _ _ _ _ _ _.
Arguments cn_parser {E} _.
Arguments cn_buf {E} _.
Arguments cn_engine {E} _.
Arguments cn_metrics {E} _.
Arguments cn_out {E} _.
Arguments cn_served {E} _.

(** Why the inner loop stops. *)
Inductive drained := NeedMore | Closed | WriteFailed.

(** How the connection ends; [Waiting] while no read has completed. *)
Inductive conn_end := Finished | IoError | Waiting.

Section connection.
Context {E : Type} `{KVEngine E} `{FloatFormat} `{BytesMut} (p : profile) (w : World).

Abbreviation CM := (M (Conn E)).

Definition on_parser {A} (m : M (RespParser * bytes) A) : CM A :=
  zoom (fun c => (cn_parser c, cn_buf c))
    (fun s c => mkConn s.1 s.2 (cn_engine c) (cn_metrics c) (cn_out c) (cn_served c)) m.
Definition on_engine {A} (m : M E A) : CM A :=
  zoom cn_engine
    (fun e c => mkConn (cn_parser c) (cn_buf c) e (cn_metrics c) (cn_out c) (cn_served c)) m.
Definition on_metrics {A} (m : M Metrics A) : CM A :=
  zoom cn_metrics
    (fun mt c => mkConn (cn_parser c) (cn_buf c) (cn_engine c) mt (cn_out c) (cn_served c)) m.

(** [stream.write_all(&response).await]: true when it succeeds. *)
Definition write_all (i : nat) (response : bytes) : CM bool :=
  if write_ok w i then
    _ ← modify (fun c => mkConn (cn_parser c) (cn_buf c) (cn_engine c) (cn_metrics c)
          (cn_out c ++ [response]) (cn_served c));
    mret true
  else mret false.

(** The number of the request that is taken up now. *)
Definition next_request : CM nat :=
  i ← gets cn_served;
  _ ← modify (fun c => mkConn (cn_parser c) (cn_buf c) (cn_engine c) (cn_metrics c) (cn_out c) (S i));
  mret i.

(** A parsed command; true when the response was written. *)
Definition serve_command (args : command) : CM bool :=
  i ← next_request;
  _ ← on_metrics (modify record_request_start);
  metrics ← gets cn_metrics;
  response ← on_engine (dispatch_command args metrics (clock w i));
  _ ← (if is_error_response response then on_metrics (modify record_error) else mret tt);
  sent ← write_all i response;
  if sent : bool then
    _ ← on_metrics (record_request_end (elapsed w i));
    mret true
  else mret false.

(** A protocol error: answered, then the connection is closed. *)
Definition serve_protocol_error : CM bool :=
  i ← next_request;
  _ ← on_metrics (modify record_request_start);
  _ ← on_metrics (modify record_error);
  sent ← write_all i (resp_error (bs "protocol error"));
  if sent : bool then
    _ ← on_metrics (record_request_end (elapsed w i));
    mret true
  else mret false.

(** The inner [loop]. *)
Fixpoint drain_loop (fuel : nat) : CM drained :=
  match fuel with
  | O => out_of_fuel
  | S f =>
      r ← on_parser (parse p);
      match r with
      | Ok (Some args) =>
          sent ← serve_command args;
          if sent : bool then drain_loop f else mret WriteFailed
      | Ok None => mret NeedMore
      | Err RespError_Protocol =>
          sent ← serve_protocol_error;
          mret (if sent : bool then Closed else WriteFailed)
      end
  end.

(** Every command consumes input: one more round than bytes is enough. *)
Definition drain : CM drained := fun c => drain_loop (S (length (cn_buf c))) c.

(** [stream.read_buf(&mut buffer)]: appends what was read. *)
Definition read_buf (chunk : bytes) : CM unit :=
  modify (fun c => mkConn (cn_parser c) (cn_buf c ++ chunk) (cn_engine c) (cn_metrics c)
    (cn_out c) (cn_served c)).

(** [handle_connection_with_metrics], over the results of its reads. *)
Fixpoint handle_connection_with_metrics (reads : list (result bytes io_error)) : CM conn_end :=
  match reads with
  | [] => mret Waiting
  | Err _ :: _ => mret IoError
  | Ok chunk :: rest =>
      _ ← read_buf chunk;
      if zlen chunk =? 0 then mret Finished
      else
        d ← drain;
        match d with
        | NeedMore => handle_connection_with_metrics rest
        | Closed => mret Finished
        | WriteFailed => mret IoError
        end
  end.

(** A fresh connection. *)
Definition conn_new (e : E) (mt : Metrics) : Conn E := mkConn parser_new [] e mt [] 0.

(** [handle_connection]: with metrics of its own. *)
Definition handle_connection (reads : list (result bytes io_error)) (e : E) (now : Z) :
    outcome conn_end * Conn E :=
  handle_connection_with_metrics reads (conn_new e (metrics_new now)).

End connection.
