(* ===== verification/ServerSpec.v ===== *)
(** * The server refines the abstract store

    The abstract store is itself an implementation of the engine interface;
    dispatching a command on any engine that meets the contract gives the reply,
    and leaves the content, of dispatching it on the abstract store. *)

From S2P Require Import Prelude Decimal HkvError Engine KVEngine RespParser Metrics ClientResp Server.

(** ** The reference engine *)

#[global] Instance store_engine : KVEngine kv := {|
  kv_get k now := fun m => (Ret (Ok (fst <$> live now k m)), settle now k m);
  kv_set k v now := fun m => (Ret (Ok tt), <[k := (v, None)]> m);
  kv_delete k now := fun m => (Ret (Ok (bool_decide (is_Some (live now k m)))), base.delete k m);
  kv_expire k ttl now := fun m =>
    (Ret match live now k m with Some _ => Ok tt | None => Err NotFound end, abs_expire now k ttl m);
  kv_ttl k now := fun m => (Ret (Ok (abs_ttl now k m)), settle now k m)
|}.

(** ** Command names *)

Definition lower (a : bytes) : bytes := to_ascii_lowercase <$> a.

Lemma eq_ignore_lower a b : eq_ignore_ascii_case a b = bool_decide (lower a = lower b).
Proof.
  unfold eq_ignore_ascii_case, lower. revert b. induction a as [|x a IH]; intros [|y b].
  - done.
  - symmetry. by apply bool_decide_false.
  - symmetry. by apply bool_decide_false.
  - specialize (IH b). rewrite !fmap_cons. cbn [zip zip_with forallb fst snd]. rewrite !zlen_cons.
    assert (El : (1 + zlen a =? 1 + zlen b) = (zlen a =? zlen b)).
    { destruct (Z.eqb_spec (zlen a) (zlen b)) as [->|]; [apply Z.eqb_refl|]. apply Z.eqb_neq. lia. }
    rewrite El. destruct (Z.eqb_spec (to_ascii_lowercase x) (to_ascii_lowercase y)) as [E|E]; simpl.
    + rewrite IH. apply bool_decide_ext. rewrite E. split; [by intros ->|by intros [= ->]].
    + rewrite andb_false_r, bool_decide_false; [done|]. by intros [= ?].
Qed.

(** ** Commands the contract covers *)

(** Sizes that fit the address space. *)
Definition args_fit (args : command) : bool := foldr Z.add 0 (zlen <$> args) <=? USIZE_MAX.

(** Deadlines in the clock's range. *)
Definition deadline_fits (arg : bytes) (now : Z) : bool :=
  match parse_u64 arg with
  | Ok seconds => now + from_secs seconds <=? INSTANT_MAX
  | Err _ => true
  end.

Definition cmd_in_range (args : command) (now : nat -> Z) : bool :=
  args_fit args &&
  match args with
  | [cmd; _; arg] => negb (eq_ignore_ascii_case cmd (bs "EXPIRE")) || deadline_fits arg (now 0%nat)
  | [cmd; _; _; opt; arg] =>
      negb (eq_ignore_ascii_case cmd (bs "SET") && eq_ignore_ascii_case opt (bs "EX"))
      || deadline_fits arg (now 1%nat)
  | _ => true
  end.

(** ** Handlers *)

Section handlers_spec.
Context {E : Type} `{KVEngineLaws E} `{FloatFormat}.
Implicit Types (args : command) (now : nat -> Z) (k v : bytes).

(** [m] on the engine behaves as [m'] on its content. *)
Definition mirrors {A : Type} (m : M E A) (m' : M kv A) (e : E) : Prop :=
  runs m e (fun r e' => kv_inv e' /\ m' (kv_store e) = (Ret r, kv_store e')).

Lemma mirrors_ret {A : Type} (a : A) e : kv_inv e -> mirrors (mret a) (mret a) e.
Proof. done. Qed.

Lemma mirrors_bind {A B : Type} (m : M E A) (m' : M kv A) (f : A -> M E B) (f' : A -> M kv B) e :
  mirrors m m' e -> (forall a e', kv_inv e' -> mirrors (f a) (f' a) e') ->
  mirrors (m ≫= f) (m' ≫= f') e.
Proof.
  intros Hm Hf. unfold mirrors. mstep. eapply runs_mono; [exact Hm|]. cbn beta.
  intros a e' [He' E']. eapply runs_mono; [by apply Hf|]. cbn beta. intros b e2 [He2 E2].
  split; [done|]. by rewrite (bind_run _ _ _ _ _ E').
Qed.

Lemma mirrors_get k t e : kv_inv e -> mirrors (kv_get k t) (kv_get k t) e.
Proof.
  intros He. eapply runs_mono; [by apply law_get|]. cbn beta. intros r e' (? & -> & E'). simpl. by rewrite E'.
Qed.

Lemma mirrors_set k v t e :
  kv_inv e -> zlen k + zlen v <= USIZE_MAX -> mirrors (kv_set k v t) (kv_set k v t) e.
Proof.
  intros He Hs. eapply runs_mono; [by apply law_set|]. cbn beta. intros r e' (? & -> & E'). simpl. by rewrite E'.
Qed.

Lemma mirrors_delete k t e : kv_inv e -> mirrors (kv_delete k t) (kv_delete k t) e.
Proof.
  intros He. eapply runs_mono; [by apply law_delete|]. cbn beta. intros r e' (? & -> & E'). simpl. by rewrite E'.
Qed.

Lemma mirrors_expire k (d t : Z) e :
  kv_inv e -> t + d <= INSTANT_MAX -> mirrors (kv_expire k d t) (kv_expire k d t) e.
Proof.
  intros He Hd. eapply runs_mono; [by apply law_expire|]. cbn beta. intros r e' (? & -> & E'). simpl. by rewrite E'.
Qed.

Lemma mirrors_ttl k t e : kv_inv e -> mirrors (kv_ttl k t) (kv_ttl k t) e.
Proof.
  intros He. eapply runs_mono; [by apply law_ttl|]. cbn beta. intros r e' (? & -> & E'). simpl. by rewrite E'.
Qed.

Lemma del_loop_mirrors keys now i removed e :
  kv_inv e -> mirrors (del_loop keys now i removed) (del_loop keys now i removed) e.
Proof.
  revert i removed e. induction keys as [|k keys IH]; intros i removed e He; cbn [del_loop].
  { by apply mirrors_ret. }
  apply mirrors_bind; [by apply mirrors_delete|]. intros [[]|err] e' He'; [by apply IH..|].
  by apply mirrors_ret.
Qed.

Lemma args_fit_key_value cmd k v rest :
  args_fit (cmd :: k :: v :: rest) = true -> zlen k + zlen v <= USIZE_MAX.
Proof.
  unfold args_fit. intros Hf%Z.leb_le. csimpl in Hf.
  assert (0 <= foldr Z.add 0 (zlen <$> rest)).
  { clear. induction rest as [|a rest IH]; csimpl; [done|]. pose proof (zlen_nonneg a). lia. }
  pose proof (zlen_nonneg cmd). lia.
Qed.

Lemma deadline_fits_Ok arg t s :
  deadline_fits arg t = true -> parse_u64 arg = Ok s -> t + from_secs s <= INSTANT_MAX.
Proof. unfold deadline_fits. intros Hd Es. rewrite Es in Hd. by apply Z.leb_le. Qed.

Lemma handle_set_mirrors cmd rest now e :
  kv_inv e -> cmd_in_range (cmd :: rest) now = true -> eq_ignore_ascii_case cmd (bs "SET") = true ->
  mirrors (handle_set (cmd :: rest) now) (handle_set (cmd :: rest) now) e.
Proof.
  intros He Hr Hn. unfold cmd_in_range in Hr. apply andb_prop in Hr as [Hf Hd].
  destruct rest as [|a1 [|a2 [|a3 [|a4 [|]]]]]; cbn [handle_set]; try by apply mirrors_ret.
  - apply args_fit_key_value in Hf. apply mirrors_bind; [by apply mirrors_set|].
    intros r e' He'. by apply mirrors_ret.
  - apply args_fit_key_value in Hf. rewrite Hn in Hd. destruct (eq_ignore_ascii_case a3 (bs "EX")); [|by apply mirrors_ret].
    simpl in Hd.
    destruct (parse_u64 a4) as [s|resp] eqn:Es; [|by apply mirrors_ret].
    apply mirrors_bind; [by apply mirrors_set|]. intros [[]|err] e' He'; [|by apply mirrors_ret].
    apply mirrors_bind; [apply mirrors_expire; [done|by eapply deadline_fits_Ok]|].
    intros r e2 He2. by apply mirrors_ret.
Qed.

Lemma handle_expire_mirrors cmd rest now e :
  kv_inv e -> cmd_in_range (cmd :: rest) now = true -> eq_ignore_ascii_case cmd (bs "EXPIRE") = true ->
  mirrors (handle_expire (cmd :: rest) now) (handle_expire (cmd :: rest) now) e.
Proof.
  intros He Hr Hn. unfold cmd_in_range in Hr. apply andb_prop in Hr as [_ Hd].
  destruct rest as [|a1 [|a2 [|]]]; cbn [handle_expire]; try by apply mirrors_ret.
  rewrite Hn in Hd. simpl in Hd. destruct (parse_u64 a2) as [s|resp] eqn:Es; [|by apply mirrors_ret].
  apply mirrors_bind; [apply mirrors_expire; [done|by eapply deadline_fits_Ok]|].
  intros r e2 He2. by apply mirrors_ret.
Qed.

(** Dispatch on the engine and on the abstract store. *)
Lemma dispatch_mirrors args mt now e :
  kv_inv e -> cmd_in_range args now = true ->
  mirrors (dispatch_command args mt now) (dispatch_command args mt now) e.
Proof.
  intros He Hr. unfold dispatch_command. destruct args as [|cmd rest]; [by apply mirrors_ret|].
  repeat case_match; try by apply mirrors_ret.
  - unfold handle_get. destruct rest as [|k [|]]; try by apply mirrors_ret.
    apply mirrors_bind; [by apply mirrors_get|]. intros r e' He'. by apply mirrors_ret.
  - by apply handle_set_mirrors.
  - unfold handle_del. destruct rest as [|k rest]; [by apply mirrors_ret|]. by apply del_loop_mirrors.
  - by apply handle_expire_mirrors.
  - unfold handle_ttl. destruct rest as [|k [|]]; try by apply mirrors_ret.
    apply mirrors_bind; [by apply mirrors_ttl|]. intros r e' He'. by apply mirrors_ret.
Qed.

End handlers_spec.
