(* ===== verification/ServerConn.v ===== *)
(** * Connections: chunking, pipelining and sessions

    The connection loop does not depend on how the network cuts the stream, it
    serves the commands of the stream one by one in order, and on an engine that
    meets the contract its replies are those of the abstract store. *)

From S2P Require Import Prelude Decimal HkvError Engine KVEngine RespParser RespParserInv Metrics.
From S2P Require Import ClientResp ClientRespInv Server ServerSpec.

(** The same connection with another parser state and buffer. *)
Definition set_input {E} (q : RespParser) (b : bytes) (c : Conn E) : Conn E :=
  mkConn q b (cn_engine c) (cn_metrics c) (cn_out c) (cn_served c).

(** More input behind the buffer. *)
Definition feed {E} (m : bytes) (c : Conn E) : Conn E := set_input (cn_parser c) (cn_buf c ++ m) c.

(** What is observable of a connection: everything but unread input. *)
Definition same_effects {E} (c c' : Conn E) : Prop :=
  cn_engine c = cn_engine c' /\ cn_metrics c = cn_metrics c' /\ cn_out c = cn_out c' /\
  cn_served c = cn_served c'.

Section connection_lemmas.
Context {E : Type} `{KVEngine E} `{FloatFormat} `{BytesMut} (p : profile) (w : World).
Implicit Types (c : Conn E) (m : bytes).

(** ** Serving does not look at the input *)

Definition ignores_input {A : Type} (f : M (Conn E) A) : Prop :=
  forall c q b, f (set_input q b c) = ((f c).1, set_input q b (f c).2) /\
    cn_parser (f c).2 = cn_parser c /\ cn_buf (f c).2 = cn_buf c.

Lemma ignores_bind {A B : Type} (f : M (Conn E) A) (g : A -> M (Conn E) B) :
  ignores_input f -> (forall a, ignores_input (g a)) -> ignores_input (f ≫= g).
Proof.
  intros Hf Hg c q b. destruct (Hf c q b) as (E1 & Ep & Eb). unfold mbind, M_bind. rewrite E1.
  destruct (f c) as [[a| |] c1]; simpl in *; [|done..].
  destruct (Hg a c1 q b) as (E2 & Ep2 & Eb2). rewrite E2, Ep2, Eb2, Ep, Eb. done.
Qed.

Lemma ignores_ret {A : Type} (a : A) : ignores_input (mret a).
Proof. done. Qed.
Lemma ignores_served : ignores_input (gets cn_served).
Proof. done. Qed.
Lemma ignores_metrics : ignores_input (gets cn_metrics).
Proof. done. Qed.
Lemma ignores_on_engine {A : Type} (f : M E A) : ignores_input (on_engine f).
Proof. intros c q b. unfold on_engine, zoom. simpl. by destruct (f (cn_engine c)). Qed.
Lemma ignores_on_metrics {A : Type} (f : M Metrics A) : ignores_input (on_metrics (E := E) f).
Proof. intros c q b. unfold on_metrics, zoom. simpl. by destruct (f (cn_metrics c)). Qed.
Lemma ignores_write i response : ignores_input (write_all (E := E) w i response).
Proof. intros c q b. unfold write_all. by destruct (write_ok w i). Qed.
Lemma ignores_next : ignores_input (next_request (E := E)).
Proof. done. Qed.

Ltac ignores :=
  repeat first
    [ apply ignores_ret | apply ignores_served | apply ignores_metrics | apply ignores_on_engine
    | apply ignores_on_metrics | apply ignores_write | apply ignores_next
    | apply ignores_bind; [|intros ?] | case_match ].

Lemma serve_command_ignores args : ignores_input (serve_command (E := E) w args).
Proof. unfold serve_command. ignores. Qed.

Lemma serve_protocol_error_ignores : ignores_input (serve_protocol_error (E := E) w).
Proof. unfold serve_protocol_error. ignores. Qed.

(** ** The inner loop, one command at a time *)

Definition conn_ok c : Prop := parser_wf (cn_parser c) /\ zlen (cn_buf c) <= ISIZE_MAX.

(** One round of the inner loop; [None] when it goes on. *)
Definition drain_round c : option (outcome drained) * Conn E :=
  match parse p (cn_parser c, cn_buf c) with
  | (Ret (Ok (Some args)), (q, b)) =>
      match serve_command w args (set_input q b c) with
      | (Ret true, c') => (None, c')
      | (Ret false, c') => (Some (Ret WriteFailed), c')
      | (Panic, c') => (Some Panic, c')
      | (OutOfFuel, c') => (Some OutOfFuel, c')
      end
  | (Ret (Ok None), (q, b)) => (Some (Ret NeedMore), set_input q b c)
  | (Ret (Err _), (q, b)) =>
      match serve_protocol_error w (set_input q b c) with
      | (Ret true, c') => (Some (Ret Closed), c')
      | (Ret false, c') => (Some (Ret WriteFailed), c')
      | (Panic, c') => (Some Panic, c')
      | (OutOfFuel, c') => (Some OutOfFuel, c')
      end
  | (Panic, (q, b)) => (Some Panic, set_input q b c)
  | (OutOfFuel, (q, b)) => (Some OutOfFuel, set_input q b c)
  end.

Lemma drain_loop_round f c :
  drain_loop p w (S f) c =
    match drain_round c with
    | (None, c') => drain_loop p w f c'
    | (Some o, c') => (o, c')
    end.
Proof.
  unfold drain_round. cbn [drain_loop]. unfold mbind at 1, M_bind at 1, on_parser, zoom.
  destruct (parse p (cn_parser c, cn_buf c)) as [[[[args|]|[]]| |] [q b]]; simpl; [|done| |done..].
  - fold (set_input q b c). unfold mbind, M_bind.
    by destruct (serve_command w args (set_input q b c)) as [[[]| |] c'].
  - fold (set_input q b c). unfold mbind, M_bind.
    by destruct (serve_protocol_error w (set_input q b c)) as [[[]| |] c'].
Qed.

(** A round on a longer buffer. *)
Lemma drain_round_feed c :
  conn_ok c ->
  match drain_round c with
  | (None, c') => conn_ok c' /\ (length (cn_buf c') < length (cn_buf c))%nat /\
      forall m, zlen (cn_buf c ++ m) <= ISIZE_MAX -> drain_round (feed m c) = (None, feed m c')
  | (Some (Ret NeedMore), c') => conn_ok c' /\ (length (cn_buf c') <= length (cn_buf c))%nat /\
      forall m, zlen (cn_buf c ++ m) <= ISIZE_MAX -> drain_round (feed m c) = drain_round (feed m c')
  | (Some o, c') =>
      forall m, zlen (cn_buf c ++ m) <= ISIZE_MAX -> drain_round (feed m c) = (Some o, feed m c')
  end.
Proof.
  intros [Hq Hb]. pose proof (parse_resumes_ok p _ _ Hq Hb) as Hr. unfold parse_resumes in Hr.
  unfold drain_round at 1.
  destruct (parse p (cn_parser c, cn_buf c)) as [[[[args|]|[]]| |] [q b]] eqn:Ep.
  - destruct Hr as (Hq' & Hlt & Hext).
    pose proof (serve_command_ignores args (set_input q b c)) as Hs.
    assert (Hrun : forall m, zlen (cn_buf c ++ m) <= ISIZE_MAX ->
      parse p (cn_parser (feed m c), cn_buf (feed m c)) = (Ret (Ok (Some args)), (q, b ++ m))).
    { intros m Hm. by apply Hext. }
    destruct (serve_command w args (set_input q b c)) as [o c'] eqn:Ec.
    assert (Hfeed : forall m, serve_command w args (set_input q (b ++ m) (feed m c)) = (o, feed m c')).
    { intros m. destruct (Hs q (b ++ m)) as (E1 & Ep' & Eb'). simpl in *.
      change (set_input q (b ++ m) (feed m c)) with (set_input q (b ++ m) (set_input q b c)).
      rewrite E1. unfold feed. by rewrite Ep', Eb'. }
    destruct (Hs q b) as (_ & Epar & Ebuf). simpl in Epar, Ebuf.
    destruct o as [[]| |].
    + rewrite <- Ebuf in Hlt. split_and!; [split|done|].
      * by rewrite Epar.
      * unfold zlen in *. lia.
      * intros m Hm. unfold drain_round. by rewrite Hrun, Hfeed.
    + intros m Hm. unfold drain_round. by rewrite Hrun, Hfeed.
    + intros m Hm. unfold drain_round. by rewrite Hrun, Hfeed.
    + intros m Hm. unfold drain_round. by rewrite Hrun, Hfeed.
  - destruct Hr as (Hq' & Hle & Hext). split_and!; [split; simpl; [done|unfold zlen in *; lia]|done|].
    intros m Hm. unfold drain_round. simpl. by rewrite Hext.
  - destruct Hr as (Hq' & Hlt & Hext).
    pose proof (serve_protocol_error_ignores (set_input q b c)) as Hs.
    destruct (serve_protocol_error w (set_input q b c)) as [o c'] eqn:Ec.
    assert (Hfeed : forall m, serve_protocol_error w (set_input q (b ++ m) (feed m c)) = (o, feed m c')).
    { intros m. destruct (Hs q (b ++ m)) as (E1 & Ep' & Eb'). simpl in *.
      change (set_input q (b ++ m) (feed m c)) with (set_input q (b ++ m) (set_input q b c)).
      rewrite E1. unfold feed. by rewrite Ep', Eb'. }
    destruct o as [[]| |]; intros m Hm; unfold drain_round; simpl; by rewrite Hext, Hfeed.
  - intros m Hm. unfold drain_round. simpl. by rewrite Hr.
  - done.
Qed.

Lemma drain_loop_fuel f f' c :
  conn_ok c -> (length (cn_buf c) < f)%nat -> (f <= f')%nat -> drain_loop p w f' c = drain_loop p w f c.
Proof.
  revert f' c. induction f as [|f IH]; intros f' c Hc Hf Hle; [lia|]. destruct f' as [|f']; [lia|].
  rewrite !drain_loop_round. pose proof (drain_round_feed c Hc) as Hr.
  destruct (drain_round c) as [[o|] c']; [done|]. destruct Hr as (Hc' & Hlt & _). apply IH; [done|lia|lia].
Qed.

Lemma drain_unfold c :
  conn_ok c ->
  drain p w c = match drain_round c with
    | (None, c') => drain p w c'
    | (Some o, c') => (o, c')
    end.
Proof.
  intros Hc. unfold drain at 1. rewrite drain_loop_round. pose proof (drain_round_feed c Hc) as Hr.
  destruct (drain_round c) as [[o|] c']; [done|]. destruct Hr as (Hc' & Hlt & _).
  apply (drain_loop_fuel (S (length (cn_buf c')))); [done|lia|lia].
Qed.

(** ** Chunks *)

(** Serving what has arrived and then the rest is serving everything. *)
Lemma drain_feed c m :
  conn_ok c -> zlen (cn_buf c ++ m) <= ISIZE_MAX ->
  match drain p w c with
  | (Ret NeedMore, c') => conn_ok c' /\ (length (cn_buf c') <= length (cn_buf c))%nat /\
      drain p w (feed m c) = drain p w (feed m c')
  | (o, c') => drain p w (feed m c) = (o, feed m c')
  end.
Proof.
  remember (length (cn_buf c)) as n eqn:En. revert c En.
  induction (lt_wf n) as [n _ IH]. intros c En Hc Hm. subst n.
  assert (Hfc : conn_ok (feed m c)) by (by destruct Hc).
  rewrite (drain_unfold c) by done. rewrite (drain_unfold (feed m c)) by done.
  pose proof (drain_round_feed c Hc) as Hr.
  destruct (drain_round c) as [[o|] c'] eqn:Er.
  - destruct o as [[]| |]; try (by rewrite Hr by done).
    destruct Hr as (Hc' & Hle & Hext). split_and!; [done..|]. rewrite Hext by done.
    rewrite <- drain_unfold; [done|]. destruct Hc'. split; simpl; [done|].
    rewrite zlen_app in *. unfold zlen in *. lia.
  - destruct Hr as (Hc' & Hlt & Hext). rewrite Hext by done.
    specialize (IH (length (cn_buf c')) Hlt c' eq_refl Hc').
    assert (Hm' : zlen (cn_buf c' ++ m) <= ISIZE_MAX).
    { rewrite zlen_app in *. unfold zlen in *. lia. }
    specialize (IH Hm'). destruct (drain p w c') as [[[]| |] c2]; try done.
    destruct IH as (Hc2 & Hle & E2). split_and!; [done|lia|done].
Qed.

(** The reads of a stream that arrives as [chunks] and is then closed. *)
Definition stream_of (chunks : list bytes) : list (result bytes io_error) := (Ok <$> chunks) ++ [Ok []].

Definition same_outcome (r r' : outcome conn_end * Conn E) : Prop :=
  r.1 = r'.1 /\ same_effects r.2 r'.2.

Lemma same_effects_feed c m m' : same_effects (feed m c) (feed m' c).
Proof. done. Qed.

Lemma handle_chunk c m rest :
  m ≠ [] ->
  handle_connection_with_metrics p w (Ok m :: rest) c =
    match drain p w (feed m c) with
    | (Ret NeedMore, c') => handle_connection_with_metrics p w rest c'
    | (Ret Closed, c') => (Ret Finished, c')
    | (Ret WriteFailed, c') => (Ret IoError, c')
    | (Panic, c') => (Panic, c')
    | (OutOfFuel, c') => (OutOfFuel, c')
    end.
Proof.
  intros Hm. cbn [handle_connection_with_metrics].
  rewrite (bind_run (read_buf m) _ c tt (feed m c)) by done.
  rewrite (proj2 (Z.eqb_neq (zlen m) 0)).
  - unfold mbind, M_bind. by destruct (drain p w (feed m c)) as [[[]| |] c'].
  - destruct m; [done|]. rewrite zlen_cons. pose proof (zlen_nonneg m). lia.
Qed.

Lemma chunks_as_one c m chunks :
  conn_ok c -> m ≠ [] -> Forall (fun x => x ≠ []) chunks ->
  zlen (cn_buf c ++ m ++ mjoin chunks) <= ISIZE_MAX ->
  same_outcome (handle_connection_with_metrics p w (stream_of (m :: chunks)) c)
    (handle_connection_with_metrics p w (stream_of [m ++ mjoin chunks]) c).
Proof.
  intros Hc Hm Hch. revert c m Hc Hm. induction Hch as [|x chunks Hx Hch IH]; intros c m Hc Hm Hsz.
  { simpl. by rewrite app_nil_r. }
  change (stream_of (m :: x :: chunks)) with (Ok m :: stream_of (x :: chunks)).
  change (mjoin (x :: chunks)) with (x ++ mjoin chunks) in *. set (rest := x ++ mjoin chunks) in *.
  change (stream_of [m ++ rest]) with (@Ok bytes io_error (m ++ rest) :: [Ok []]).
  rewrite (handle_chunk c m) by done. rewrite (handle_chunk c (m ++ rest)) by (by destruct m).
  assert (Hfm : conn_ok (feed m c)).
  { destruct Hc. split; [done|]. simpl. rewrite app_assoc, zlen_app in Hsz.
    pose proof (zlen_nonneg rest). lia. }
  assert (Efeed : feed (m ++ rest) c = feed rest (feed m c)).
  { unfold feed, set_input. simpl. by rewrite app_assoc. }
  rewrite Efeed. pose proof (drain_feed (feed m c) rest Hfm) as Hd. simpl in Hd.
  rewrite <- app_assoc in Hd. specialize (Hd Hsz).
  destruct (drain p w (feed m c)) as [[[]| |] c'] eqn:Ed; try (by rewrite Hd).
  destruct Hd as (Hc' & Hle & Hd). rewrite Hd.
  assert (Hsz' : zlen (cn_buf c' ++ x ++ mjoin chunks) <= ISIZE_MAX).
  { fold rest. rewrite app_assoc, zlen_app in Hsz. rewrite zlen_app. simpl in Hle. unfold zlen in *. lia. }
  specialize (IH c' x Hc' Hx Hsz'). fold rest in IH.
  change (stream_of [rest]) with (@Ok bytes io_error rest :: [Ok []]) in IH.
  rewrite (handle_chunk c' rest) in IH; [exact IH|]. unfold rest. by destruct x.
Qed.

End connection_lemmas.
