(* ===== verification/ServerSession.v ===== *)
(** * Sessions: a stream of commands against the abstract store

    Serving the encoded commands of a session in any chunks, and what the session
    adds to the metrics. *)

From S2P Require Import Prelude Decimal HkvError Engine KVEngine RespParser RespParserInv Metrics.
From S2P Require Import ClientResp ClientRespInv Server ServerSpec ServerConn.

(** ** What a client encodes is a command of the server's grammar *)

Lemma num_line_decimal c n : 0 <= n <= USIZE_MAX -> num_line c (c :: decimal n ++ crlf) n.
Proof.
  intros Hn. exists (decimal n). split_and!; [apply decimal_nonempty|apply decimal_digits| |done].
  rewrite decimal_value by lia. lia.
Qed.

Lemma bulk_wire_frame a : zlen a <= USIZE_MAX -> bulk_frame a (bulk_wire a).
Proof.
  intros Ha. exists (36 :: decimal (zlen a) ++ crlf). split.
  - apply num_line_decimal. pose proof (zlen_nonneg a). lia.
  - unfold bulk_wire. simpl. by rewrite <- app_assoc.
Qed.

Lemma command_wire_frame args : args_sized args -> frame args (command_wire args).
Proof.
  intros [Hn Ha]. exists (42 :: decimal (zlen args) ++ crlf), (bulk_wire <$> args). split_and!.
  - apply num_line_decimal. pose proof (zlen_nonneg args). lia.
  - apply Forall2_fmap_r. induction Ha; constructor; [by apply bulk_wire_frame|].
    apply IHHa. rewrite zlen_cons in Hn. lia.
  - unfold command_wire. simpl. by rewrite <- app_assoc.
Qed.

(** ** Metrics of a request *)

Definition hist_ok (h : LatencyHistogram) : Prop := length (lh_buckets h) = S (length (lh_bounds_us h)).

Lemma record_ok l h : hist_ok h -> exists h', record l h = (Ret tt, h') /\ hist_ok h' /\
  lh_samples h' = wrapping_add (lh_samples h) 1.
Proof.
  intros Hh. unfold record. cbn zeta. cbn [lh_buckets].
  destruct (lookup_lt_is_Some_2 (lh_buckets h) (bucket_of (lh_bounds_us h) l)) as [x Hx].
  { unfold hist_ok in Hh. rewrite Hh. apply bucket_of_lt. }
  unfold bucket_of in Hx. rewrite Hx. eexists. split; [done|]. split; [|done].
  unfold hist_ok in *. simpl. by rewrite length_insert.
Qed.

(** The metrics after a request that was answered with [response]. *)
Definition answered (latency : Z) (response : bytes) (mt : Metrics) : Metrics :=
  let mt := if is_error_response response then record_error mt else mt in
  (record_request_end latency mt).2.

Lemma record_request_end_ok l mt :
  hist_ok (mt_latency mt) -> exists mt', record_request_end l mt = (Ret tt, mt') /\
    hist_ok (mt_latency mt') /\ mt_requests_total mt' = mt_requests_total mt /\
    mt_errors_total mt' = mt_errors_total mt /\ mt_inflight mt' = wrapping_sub (mt_inflight mt) 1 /\
    lh_samples (mt_latency mt') = wrapping_add (lh_samples (mt_latency mt)) 1.
Proof.
  intros Hh. destruct (record_ok l _ Hh) as (h' & E & Hh' & Hn).
  unfold record_request_end, mbind, M_bind, modify, zoom. simpl. rewrite E. simpl.
  eexists. split; [done|]. done.
Qed.

(** ** Sessions on the abstract store *)

Section session.
Context `{FloatFormat} (w : World).

(** The replies to [cmds], starting with request number [i], and the metrics and
    content they leave. *)
Fixpoint session (i : nat) (cmds : list command) (mt : Metrics) (m : kv) :
    list bytes * Metrics * kv :=
  match cmds with
  | [] => ([], mt, m)
  | args :: rest =>
      let mt1 := record_request_start mt in
      match dispatch_on kv args mt1 (clock w i) m with
      | (Ret r, m1) =>
          let '(rs, mt2, m2) := session (S i) rest (answered (elapsed w i) r mt1) m1 in
          (r :: rs, mt2, m2)
      | (_, m1) => ([], mt1, m1)
      end
  end.

(** Every command is in the range of the contract when it is its turn. *)
Fixpoint session_in_range (i : nat) (cmds : list command) : bool :=
  match cmds with
  | [] => true
  | args :: rest => cmd_in_range args (clock w i) && session_in_range (S i) rest
  end.

End session.

Section session_lemmas.
Context {E : Type} `{KVEngineLaws E} `{FloatFormat} `{BytesMut} (p : profile) (w : World).
Implicit Types (c : Conn E).

(** A command up to the point where its response is written. *)
Lemma serve_command_dispatch args c :
  kv_inv (cn_engine c) -> cmd_in_range args (clock w (cn_served c)) = true ->
  exists r e', let mt := record_request_start (cn_metrics c) in
    let mt1 := if is_error_response r then record_error mt else mt in
    dispatch_on kv args mt (clock w (cn_served c)) (kv_store (cn_engine c)) = (Ret r, kv_store e') /\
    kv_inv e' /\
    serve_command w args c =
      (sent ← write_all w (cn_served c) r;
       if sent : bool then _ ← on_metrics (record_request_end (elapsed w (cn_served c))); mret true
       else mret false)
      (mkConn (cn_parser c) (cn_buf c) e' mt1 (cn_out c) (S (cn_served c))).
Proof.
  intros He Hr. set (i := cn_served c) in *. set (mt := record_request_start (cn_metrics c)).
  destruct (runs_inv _ _ _ (dispatch_mirrors args mt (clock w i) _ He Hr)) as (r & e' & Ed & He' & Es).
  exists r, e'. cbn zeta. split; [done|]. split; [done|].
  set (mt1 := if is_error_response r then record_error mt else mt). unfold serve_command.
  rewrite (bind_run next_request _ c i (mkConn (cn_parser c) (cn_buf c) (cn_engine c) (cn_metrics c) (cn_out c) (S i))) by done.
  erewrite bind_run by done. erewrite bind_run by done. cbn [cn_metrics].
  erewrite bind_run by (unfold on_engine, zoom; cbn [cn_engine]; fold mt; rewrite Ed; done).
  erewrite bind_run; [reflexivity|]. unfold mt1. by destruct (is_error_response r).
Qed.

Lemma serve_command_ok args c :
  kv_inv (cn_engine c) -> cmd_in_range args (clock w (cn_served c)) = true ->
  write_ok w (cn_served c) = true -> hist_ok (mt_latency (cn_metrics c)) ->
  exists r e', let mt := record_request_start (cn_metrics c) in
    let mt' := answered (elapsed w (cn_served c)) r mt in
    dispatch_on kv args mt (clock w (cn_served c)) (kv_store (cn_engine c)) = (Ret r, kv_store e') /\
    kv_inv e' /\ hist_ok (mt_latency mt') /\
    serve_command w args c =
      (Ret true, mkConn (cn_parser c) (cn_buf c) e' mt' (cn_out c ++ [r]) (S (cn_served c))).
Proof.
  intros He Hr Hw Hh. destruct (serve_command_dispatch args c He Hr) as (r & e' & Ed & He' & Es).
  exists r, e'. cbn zeta in *. split; [done|]. split; [done|].
  set (mt := record_request_start (cn_metrics c)) in *.
  set (mt1 := if is_error_response r then record_error mt else mt) in *.
  assert (Hh1 : hist_ok (mt_latency mt1)) by (unfold mt1; by destruct (is_error_response r)).
  destruct (record_request_end_ok (elapsed w (cn_served c)) mt1 Hh1) as (mt' & Eend & Hh' & _).
  assert (Ea : answered (elapsed w (cn_served c)) r mt = mt') by (unfold answered; fold mt1; by rewrite Eend).
  rewrite Ea. split; [done|]. rewrite Es.
  erewrite bind_run by (unfold write_all; rewrite Hw; done). cbn [cn_out].
  erewrite bind_run by (unfold on_metrics, zoom; cbn [cn_metrics]; rewrite Eend; done). done.
Qed.

(** Serving a buffer that holds the commands [cmds]. *)
Lemma drain_session cmds c :
  at_start (cn_parser c) -> cn_buf c = mjoin (command_wire <$> cmds) ->
  zlen (cn_buf c) <= ISIZE_MAX -> Forall args_sized cmds ->
  session_in_range w (cn_served c) cmds = true -> (forall i, write_ok w i = true) ->
  kv_inv (cn_engine c) -> hist_ok (mt_latency (cn_metrics c)) ->
  exists c' rs, drain p w c = (Ret NeedMore, c') /\ cn_buf c' = [] /\ kv_inv (cn_engine c') /\
    at_start (cn_parser c') /\ hist_ok (mt_latency (cn_metrics c')) /\
    cn_out c' = cn_out c ++ rs /\ cn_served c' = (cn_served c + length cmds)%nat /\
    session w (cn_served c) cmds (cn_metrics c) (kv_store (cn_engine c)) =
      (rs, cn_metrics c', kv_store (cn_engine c')).
Proof.
  revert c. induction cmds as [|args cmds IH]; intros c Hs Hb Hsz Hargs Hr Hw He Hh.
  { simpl in Hb. assert (Hc : conn_ok c) by (split; [by apply at_start_wf|done]).
    rewrite drain_unfold by done. unfold drain_round.
    rewrite Hb, parse_nothing by done. exists c, []. rewrite app_nil_r, Nat.add_0_r. destruct c; cbn in *. by subst. }
  cbn [session_in_range] in Hr. apply andb_prop in Hr as [Hr Hrs].
  inversion Hargs as [|? ? Ha Hargs']; subst.
  change (mjoin (command_wire <$> args :: cmds)) with (command_wire args ++ mjoin (command_wire <$> cmds)) in Hb.
  assert (Hc : conn_ok c) by (split; [by apply at_start_wf|done]).
  rewrite drain_unfold by done. unfold drain_round. rewrite Hb in *.
  destruct (parse_frame p (cn_parser c) args (command_wire args) (mjoin (command_wire <$> cmds)))
    as (q' & Hq' & Ep); [done|by apply command_wire_frame|done|].
  rewrite Ep. set (c1 := set_input q' (mjoin (command_wire <$> cmds)) c).
  destruct (serve_command_ok args c1 He Hr (Hw _) Hh) as (r & e' & Ed & He' & Hh' & Esv).
  rewrite Esv. set (c2 := mkConn _ _ _ _ _ _).
  destruct (IH c2) as (c' & rs & Edr & Eb & He2 & Hs2 & Hh2 & Eo & En & Es); try done.
  { simpl. rewrite zlen_app in Hsz. pose proof (zlen_nonneg (command_wire args)). lia. }
  exists c', (r :: rs). split_and!; [done|done|done|done|done| | |].
  - rewrite Eo. simpl. by rewrite <- app_assoc.
  - rewrite En. simpl. lia.
  - cbn [session]. cbn zeta. simpl in Ed. rewrite Ed. simpl in Es. by rewrite Es.
Qed.

(** A stream of encoded commands in any chunks is one session. *)
Lemma connection_session (e : E) (mt : Metrics) (cmds : list command) (chunks : list bytes) :
  kv_inv e -> hist_ok (mt_latency mt) -> Forall args_sized cmds -> (forall i, write_ok w i = true) ->
  session_in_range w 0 cmds = true -> Forall (fun x => x ≠ []) chunks ->
  mjoin chunks = mjoin (command_wire <$> cmds) -> zlen (mjoin chunks) <= ISIZE_MAX ->
  exists c, handle_connection_with_metrics p w (stream_of chunks) (conn_new e mt) = (Ret Finished, c) /\
    kv_inv (cn_engine c) /\
    session w 0 cmds mt (kv_store e) = (cn_out c, cn_metrics c, kv_store (cn_engine c)).
Proof.
  intros He Hh Ha Hw Hr Hch Ej Hsz. destruct chunks as [|m chunks].
  { destruct cmds as [|args cmds]; [|by destruct args]. eexists. split; [done|]. done. }
  inversion Hch as [|? ? Hm Hch']; subst. change (mjoin (m :: chunks)) with (m ++ mjoin chunks) in *.
  destruct (chunks_as_one p w (conn_new e mt) m chunks) as [Eo Es];
    [split; [apply parser_new_wf|done]|done|done|done|].
  set (whole := m ++ mjoin chunks) in *.
  change (stream_of [whole]) with (@Ok bytes io_error whole :: [Ok []]) in *.
  rewrite handle_chunk in Eo, Es by (unfold whole; by destruct m).
  destruct (drain_session cmds (feed whole (conn_new e mt)))
    as (c' & rs & Ed & Eb & He' & _ & _ & Eout & En & Ess); try done.
  rewrite Ed in Eo, Es.
  assert (Elast : handle_connection_with_metrics p w [@Ok bytes io_error []] c' =
    (Ret Finished, feed [] c')) by done.
  rewrite Elast in Eo, Es.
  destruct (handle_connection_with_metrics p w (stream_of (m :: chunks)) (conn_new e mt)) as [o c] eqn:Ehc.
  simpl in Eo. subst o. destruct Es as (Ee & Em & Eou & _). exists c. split; [done|].
  simpl in Ee, Em, Eou. rewrite Ee, Em, Eou, Eout. done.
Qed.

End session_lemmas.

(** ** What a session adds to the metrics *)

#[global] Instance store_engine_laws : KVEngineLaws kv.
Proof. refine {| kv_inv _ := True; kv_store m := m |}; done. Defined.

Lemma wrapping_sub_add x : wrapping_sub (wrapping_add x 1) 1 = wrap64 x.
Proof. unfold wrapping_sub, wrapping_add. rewrite wrap64_sub_l. f_equal. lia. Qed.

Definition error_count (rs : list bytes) : Z := zlen (filter (fun r => is_error_response r = true) rs).

(** [mt'] is [mt] after [n] more requests, of which [k] were answered with an
    error, all of them finished. *)
Record counted (n k : Z) (mt mt' : Metrics) : Prop := mkCounted {
  ct_requests : mt_requests_total mt' = wrap64 (mt_requests_total mt + n);
  ct_errors : mt_errors_total mt' = wrap64 (mt_errors_total mt + k);
  ct_inflight : mt_inflight mt' = wrap64 (mt_inflight mt);
  ct_samples : lh_samples (mt_latency mt') = wrap64 (lh_samples (mt_latency mt) + n) }.

(** The counters hold 64-bit values. *)
Definition counters_ok (mt : Metrics) : Prop :=
  Forall (fun x => 0 <= x <= U64_MAX)
    [mt_requests_total mt; mt_errors_total mt; mt_inflight mt; lh_samples (mt_latency mt)].

Lemma counted_refl mt : counters_ok mt -> counted 0 0 mt mt.
Proof.
  unfold counters_ok. rewrite !Forall_cons. intros (? & ? & ? & ? & _).
  split; symmetry; rewrite ?Z.add_0_r; apply wrap64_small; change USIZE_MAX with U64_MAX; lia.
Qed.

Lemma counted_trans n k n' k' mt1 mt2 mt3 :
  counted n k mt1 mt2 -> counted n' k' mt2 mt3 -> counted (n + n') (k + k') mt1 mt3.
Proof.
  intros [A1 A2 A3 A4] [B1 B2 B3 B4]. split; rewrite ?B1, ?B2, ?B3, ?B4, ?A1, ?A2, ?A3, ?A4, ?wrap64_add_l;
    try (f_equal; lia). apply wrap64_small, wrap64_range.
Qed.

Lemma counted_ok n k mt mt' : counted n k mt mt' -> counters_ok mt'.
Proof. intros [A1 A2 A3 A4]. unfold counters_ok. rewrite A1, A2, A3, A4. repeat constructor; apply wrap64_range. Qed.

Lemma answered_counted l r mt :
  hist_ok (mt_latency mt) -> counters_ok mt ->
  hist_ok (mt_latency (answered l r (record_request_start mt))) /\
  counted 1 (error_count [r]) mt (answered l r (record_request_start mt)).
Proof.
  intros Hh Hc. unfold answered, error_count. rewrite filter_cons.
  assert (Hw : mt_errors_total mt = wrap64 (mt_errors_total mt)).
  { symmetry. apply wrap64_small. unfold counters_ok in Hc. rewrite !Forall_cons in Hc.
    change USIZE_MAX with U64_MAX. lia. }
  destruct (is_error_response r); cbn zeta.
  - destruct (record_request_end_ok l (record_error (record_request_start mt)) Hh)
      as (mt' & -> & Hh' & Eq & Ee & Ei & Es). split; [done|]. split; cbn in *.
    + by rewrite Eq. + by rewrite Ee. + by rewrite Ei, wrapping_sub_add. + by rewrite Es.
  - destruct (record_request_end_ok l (record_request_start mt) Hh) as (mt' & -> & Hh' & Eq & Ee & Ei & Es).
    split; [done|]. split; cbn in *.
    + by rewrite Eq. + rewrite Ee, Z.add_0_r. done. + by rewrite Ei, wrapping_sub_add. + by rewrite Es.
Qed.

Lemma session_counted `{FloatFormat} (w : World) (i : nat) (cmds : list command) (mt : Metrics) (m : kv) :
  hist_ok (mt_latency mt) -> counters_ok mt -> session_in_range w i cmds = true ->
  let '(rs, mt', _) := session w i cmds mt m in
  length rs = length cmds /\ counted (zlen cmds) (error_count rs) mt mt'.
Proof.
  revert i mt m. induction cmds as [|args cmds IH]; intros i mt m Hh Hc Hr; cbn [session].
  { split; [done|]. by apply counted_refl. }
  cbn [session_in_range] in Hr. apply andb_prop in Hr as [Hr Hrs]. cbn zeta.
  assert (Hinv : kv_inv m) by exact I.
  destruct (runs_inv _ _ _ (dispatch_mirrors args (record_request_start mt) (clock w i) m Hinv Hr))
    as (r & m1 & Ed & _). rewrite Ed.
  destruct (answered_counted (elapsed w i) r mt Hh Hc) as [Hh2 Hc2].
  specialize (IH (S i) _ m1 Hh2 (counted_ok _ _ _ _ Hc2) Hrs).
  destruct (session w (S i) cmds _ m1) as [[rs mt'] m']. destruct IH as [IHl IHc].
  split; [simpl; lia|].
  replace (zlen (args :: cmds)) with (1 + zlen cmds) by (rewrite zlen_cons; lia).
  replace (error_count (r :: rs)) with (error_count [r] + error_count rs).
  - by eapply counted_trans.
  - unfold error_count. change (r :: rs) with ([r] ++ rs). by rewrite filter_app, zlen_app.
Qed.
