(* ===== verification/RespClaims.v ===== *)
(** * Properties of the RESP2 codecs

    The client's encoder against the server's parser, the server's encoders
    against the client's reader, and the inputs on which the two parsers panic. *)

From S2P Require Import Prelude Decimal HkvError Engine KVEngine RespParser RespParserInv Metrics.
From S2P Require Import ClientResp ClientRespInv Server ServerSpec ServerConn ServerSession.

(** A layout in which a response takes 32 bytes. *)
Definition demo_layout : RespLayout := {| respvalue_size := 32; respvalue_size_min := ltac:(lia) |}.

(** ** Commands: client to server *)

(** C20: for every command a client can encode, [encode_command] does not run
    out of its digit buffer, and the server's parser, between two commands,
    returns exactly its arguments and leaves exactly the bytes that follow,
    ready for the next command. *)
Theorem command_roundtrip `{BytesMut} (p : profile) (q : RespParser) (args : command) (rest : bytes) :
  at_start q -> args_sized args -> zlen (command_wire args ++ rest) <= ISIZE_MAX ->
  exists out q', encode_command args [] = Ret out /\ at_start q' /\
    parse p (q, out ++ rest) = (Ret (Ok (Some args)), (q', rest)).
Proof.
  intros Hq Ha Hsz. rewrite encode_command_ok by done.
  destruct (parse_frame p q args (command_wire args) rest) as (q' & Hq' & E);
    [done|by apply command_wire_frame|done|].
  exists (command_wire args), q'. done.
Qed.

Lemma command_roundtrip_witness :
  exists out q', encode_command [bs "SET"; bs "k"; crlf] [] = Ret out /\ at_start q' /\
    @parse demo_buf Debug (parser_new, out ++ bs "*1") =
      (Ret (Ok (Some [bs "SET"; bs "k"; crlf])), (q', bs "*1")).
Proof.
  apply (@command_roundtrip demo_buf Debug parser_new [bs "SET"; bs "k"; crlf] (bs "*1")).
  - done.
  - split; [done|]. repeat constructor; done.
  - vm_compute. done.
Defined.

(** C14: the server's parser accepts exactly the grammar of commands.  Started
    between two commands, on input that fits the address space, it terminates, with a
    result or a panic; if it returns [args] and leaves [rest] then the input is a
    frame of [args] followed by [rest], and the parser is between two commands again;
    and on every frame of [args] followed by [rest] it returns [args] and leaves
    [rest]. *)
Theorem parser_accepts_grammar `{BytesMut} (p : profile) (q : RespParser) (b rest : bytes) (args : command) :
  at_start q -> zlen b <= ISIZE_MAX ->
  (parse p (q, b)).1 ≠ OutOfFuel /\
  (forall q', parse p (q, b) = (Ret (Ok (Some args)), (q', rest)) ->
    at_start q' /\ exists f, frame args f /\ b = f ++ rest) /\
  (forall f, frame args f -> b = f ++ rest -> exists q', parse p (q, b) = (Ret (Ok (Some args)), (q', rest))).
Proof.
  intros Hq Hb. pose proof (at_start_wf _ Hq) as Hwf. split_and!.
  - pose proof (parse_resumes_ok p q b Hwf Hb) as Hr. unfold parse_resumes in Hr.
    by destruct (parse p (q, b)) as [[r| |] [q' b']].
  - intros q' E. destruct (parse_consumed p q b args q' rest Hwf Hb E) as (Hq' & f & -> & Hc).
    split; [done|]. exists f. split; [|done]. unfold consumed in Hc. destruct Hq as (Hs & _). by rewrite Hs in Hc.
  - intros f Hf ->. destruct (parse_frame p q args f rest Hq Hf Hb) as (q' & _ & E). by exists q'.
Qed.

(** Leading zeros are part of the grammar. *)
Lemma parser_accepts_grammar_witness :
  exists q', @parse demo_buf Release (parser_new, bs "*01" ++ crlf ++ bs "$2" ++ crlf ++ bs "hi" ++ crlf)
    = (Ret (Ok (Some [bs "hi"])), (q', [])).
Proof.
  destruct (@parser_accepts_grammar demo_buf Release parser_new (bs "*01" ++ crlf ++ bs "$2" ++ crlf ++ bs "hi" ++ crlf)
    [] [bs "hi"]) as (_ & _ & Hacc); [done|vm_compute; done|].
  apply (Hacc (bs "*01" ++ crlf ++ bs "$2" ++ crlf ++ bs "hi" ++ crlf)); [|by vm_compute].
  exists (bs "*01" ++ crlf), [bs "$2" ++ crlf ++ bs "hi" ++ crlf]. split_and!; [|repeat constructor|reflexivity].
  - exists (bs "01"). split_and!; by vm_compute.
  - exists (bs "$2" ++ crlf). split; [|reflexivity]. exists (bs "2"). split_and!; by vm_compute.
Defined.

(** C21: a partial frame loses nothing: when [parse] asks for more input, giving
    it the rest later yields what the whole input would have yielded at once, in
    every case (a command, a protocol error, a panic, or still not enough). *)
Theorem parse_partial_input `{BytesMut} (p : profile) (q q' : RespParser) (b b' more : bytes) :
  parser_wf q -> zlen (b ++ more) <= ISIZE_MAX ->
  parse p (q, b) = (Ret (Ok None), (q', b')) ->
  parser_wf q' /\ parse p (q', b' ++ more) = parse p (q, b ++ more).
Proof.
  intros Hq Hsz E. assert (Hb : zlen b <= ISIZE_MAX).
  { rewrite zlen_app in Hsz. pose proof (zlen_nonneg more). lia. }
  pose proof (parse_resumes_ok p q b Hq Hb) as Hr. unfold parse_resumes in Hr. rewrite E in Hr.
  destruct Hr as (Hq' & _ & Hext). split; [done|]. symmetry. by apply Hext.
Qed.

Lemma parse_partial_input_witness :
  parser_wf (mkParser BulkData [] 1 4) /\
  @parse demo_buf Debug (mkParser BulkData [] 1 4, bs "PIN" ++ bs "G" ++ crlf) =
    @parse demo_buf Debug (parser_new, (bs "*1" ++ crlf ++ bs "$4" ++ crlf ++ bs "PIN") ++ bs "G" ++ crlf).
Proof.
  apply (@parse_partial_input demo_buf Debug parser_new (mkParser BulkData [] 1 4)
    (bs "*1" ++ crlf ++ bs "$4" ++ crlf ++ bs "PIN") (bs "PIN") (bs "G" ++ crlf)).
  - apply parser_new_wf.
  - vm_compute. done.
  - vm_compute. done.
Defined.

(** C37: a bulk header whose length is one of the two largest [usize] makes the
    parser panic, instead of returning a protocol error: a debug build as soon as
    the header line is complete, whatever follows it; a release build then too,
    except that for the largest length it asks for more input as long as nothing
    follows, and panics at the next byte. *)
Theorem huge_bulk_length_panics `{BytesMut} (p : profile) (q : RespParser) (hdr rest : bytes) (n : Z) :
  parser_wf q -> ps_state q = BulkLen -> num_line 36 hdr n -> USIZE_MAX - 2 < n ->
  zlen (hdr ++ rest) <= ISIZE_MAX ->
  (parse p (q, hdr ++ rest)).1 =
    match p, rest with
    | Release, [] => if n =? USIZE_MAX then Ret (Ok None) else Panic
    | _, _ => Panic
    end.
Proof.
  intros Hq Hs Hh Hn Hsz. assert (Hmax : n <= USIZE_MAX).
  { destruct Hh as (ds & _ & _ & -> & _). lia. }
  rewrite parse_unfold by done. change (parse_round p (q, ?x)) with (round_at p q x).
  rewrite round_at_state, Hs.
  destruct (num_line_split 36 hdr n rest ltac:(done) Hh) as (ds & Hsp & Hp).
  unfold line_round, bulk_header. rewrite Hsp. cbn [head tail]. rewrite decide_True, Hp by done.
  set (q1 := mkParser BulkData _ _ _).
  assert (Hq1 : parser_wf q1).
  { pose proof (pw_rem _ Hq). pose proof (pw_state _ Hq ltac:(by rewrite Hs)).
    split; simpl; intros; unfold USIZE_MAX in *; lia || done. }
  assert (Hrest : zlen rest <= ISIZE_MAX) by (rewrite zlen_app in Hsz; pose proof (zlen_nonneg hdr); lia).
  rewrite parse_unfold by done. change (parse_round p (q1, ?x)) with (round_at p q1 x).
  rewrite round_at_state. cbn [ps_state q1]. rewrite bulk_data_overflow by (simpl; done).
  destruct p; [done|]. cbn [ps_bulk_len q1]. destruct rest as [|c rest].
  - change (zlen []) with 0. destruct (Z.eqb_spec n USIZE_MAX) as [->|Hne]; [done|].
    rewrite (proj2 (Z.ltb_ge _ _)); [done|]. unfold USIZE_MAX in *. lia.
  - rewrite (proj2 (Z.ltb_ge _ _)); [done|]. rewrite zlen_cons. pose proof (zlen_nonneg rest). unfold USIZE_MAX in *. lia.
Qed.

(** The two largest lengths, with nothing after the header and with one byte. *)
Lemma huge_bulk_length_panics_witness :
  let after p len rest := (@parse demo_buf p (mkParser BulkLen [] 1 0, (bs "$" ++ decimal len ++ crlf) ++ rest)).1 in
  after Debug USIZE_MAX [] = Panic /\ after Release USIZE_MAX [] = Ret (Ok None) /\
  after Release USIZE_MAX [65] = Panic /\ after Release (USIZE_MAX - 1) [] = Panic.
Proof.
  cbn zeta. split_and!.
  - apply (@huge_bulk_length_panics demo_buf Debug (mkParser BulkLen [] 1 0) _ [] USIZE_MAX); [by split|done| |done|by vm_compute].
    exists (decimal USIZE_MAX). split_and!; by vm_compute.
  - apply (@huge_bulk_length_panics demo_buf Release (mkParser BulkLen [] 1 0) _ [] USIZE_MAX); [by split|done| |done|by vm_compute].
    exists (decimal USIZE_MAX). split_and!; by vm_compute.
  - apply (@huge_bulk_length_panics demo_buf Release (mkParser BulkLen [] 1 0) _ [65] USIZE_MAX); [by split|done| |done|by vm_compute].
    exists (decimal USIZE_MAX). split_and!; by vm_compute.
  - apply (@huge_bulk_length_panics demo_buf Release (mkParser BulkLen [] 1 0) _ [] (USIZE_MAX - 1)); [by split|done| |done|by vm_compute].
    exists (decimal (USIZE_MAX - 1)). split_and!; by vm_compute.
Defined.

(** ** Responses: server to client *)

Section responses_claims.
Context `{RespLayout}.

(** C22: the client's reader reads back every RESP2 value with text lines
    without LF, integers above the smallest [i64], and arrays that fit the
    address space, nested to any depth; it consumes exactly the value. *)
Theorem response_roundtrip (limit : Z) (v : RespValue) (rest line : bytes) (ending : option io_error) :
  limit * respvalue_size <= ISIZE_MAX -> wire_ok limit v ->
  exists line', read_response (reading (wire v ++ rest) ending line) =
    (Ret (Ok v), reading rest ending line').
Proof. intros Hl Hv. apply (read_wire limit v Hl Hv). simpl. lia. Qed.

(** The smallest [i64] is not among them: its digits saturate before the sign is
    applied, and the client reads the number above it. *)
Theorem smallest_integer_is_misread (rest line : bytes) (ending : option io_error) :
  exists line', read_response (reading (wire (Integer (- I64_MAX - 1)) ++ rest) ending line) =
    (Ret (Ok (Integer (- I64_MAX))), reading rest ending line').
Proof.
  eexists. unfold read_response, wire. cbn [app]. rewrite <- app_assoc.
  rewrite read_header by (rewrite not_elem_of_cons; split; [done|apply decimal_signed_no_LF]). reflexivity.
Qed.

(** Every kind of response the server sends is read back by the client as
    the value it stands for: a status, an error with its prefix, an integer, a
    value (any bytes), a missing value. *)
Theorem server_responses_read_back (message data rest line : bytes) (n : Z) (ending : option io_error) :
  LF ∉ message -> - I64_MAX <= n <= I64_MAX -> zlen data <= I64_MAX ->
  let reads response v := exists line', read_response (reading (response ++ rest) ending line) =
    (Ret (Ok v), reading rest ending line') in
  reads (resp_simple message) (Simple message) /\
  reads (resp_error message) (Error (bs "ERR " ++ message)) /\
  reads (resp_integer n) (Integer n) /\
  reads (resp_bulk data) (Bulk (Some data)) /\
  reads resp_null (Bulk None).
Proof.
  intros Hm Hn Hd. cbn zeta. pose proof respvalue_size_min.
  assert (Hr : forall v, wire_ok 0 v -> exists line', read_response (reading (wire v ++ rest) ending line) =
    (Ret (Ok v), reading rest ending line')).
  { intros v Hv. apply (read_wire 0 v); [done|done|simpl; lia]. }
  assert (Hm' : LF ∉ bs "ERR " ++ message).
  { apply not_elem_of_app. split; [vm_compute; set_solver|done]. }
  split_and!; [apply (Hr (Simple message) Hm)|apply (Hr (Error _) Hm')|apply (Hr (Integer n) Hn)
    |apply (Hr (Bulk (Some data)) Hd)|apply (Hr (Bulk None) I)].
Qed.

(** C32: on every input the reader returns: it never loops, and any value it
    returns has consumed at least two bytes.  The only other outcome is a panic. *)
Theorem read_response_terminates (s : ReadState) :
  match read_response s with
  | (Ret (Ok _), s') => (to_come s' + 2 <= to_come s)%nat
  | (Ret (Err _), _) | (Panic, _) => True
  | (OutOfFuel, _) => False
  end.
Proof.
  pose proof (read_response_ends (S (to_come s)) s ltac:(lia)) as Hc. unfold consumes in Hc.
  change (read_response s) with (read_response_loop (S (to_come s)) s).
  by destruct (read_response_loop (S (to_come s)) s) as [[[]| |] s'].
Qed.

(** An array header that announces more elements than fit the address
    space makes the client panic before any element has arrived, instead of
    returning a protocol error; what follows stays unread. *)
Theorem huge_array_length_panics (n : Z) (rest line : bytes) (ending : option io_error) :
  0 < n <= I64_MAX -> ISIZE_MAX < n * respvalue_size ->
  read_response (reading (bs "*" ++ decimal n ++ crlf ++ rest) ending line) =
    (Panic, reading rest ending (bs "*" ++ decimal n)).
Proof.
  apply huge_array_panics.
Qed.

End responses_claims.

Definition nested_value : RespValue :=
  Array [Simple (bs "OK"); Integer (-7); Array [Bulk None; Bulk (Some crlf)]; Error (bs "ERR x")].

Lemma response_roundtrip_witness :
  exists line', @read_response demo_layout (reading (wire nested_value ++ bs "+next") None []) =
    (Ret (Ok nested_value), reading (bs "+next") None line').
Proof.
  apply (@response_roundtrip demo_layout 1000 nested_value (bs "+next") [] None); [done|].
  vm_compute. repeat split; try done; set_solver.
Defined.

Lemma server_responses_read_back_witness :
  let reads response v := exists line',
    @read_response demo_layout (reading (response ++ [1]) None []) = (Ret (Ok v), reading [1] None line') in
  reads (resp_simple (bs "OK")) (Simple (bs "OK")) /\
  reads (resp_error (bs "OK")) (Error (bs "ERR " ++ bs "OK")) /\
  reads (resp_integer (-2)) (Integer (-2)) /\
  reads (resp_bulk crlf) (Bulk (Some crlf)) /\
  reads resp_null (Bulk None).
Proof.
  apply (@server_responses_read_back demo_layout (bs "OK") crlf [1] [] (-2) None); try done.
  vm_compute. set_solver.
Defined.

Lemma huge_array_length_panics_witness :
  @read_response demo_layout (reading (bs "*" ++ decimal I64_MAX ++ crlf ++ bs "+OK") None []) =
    (Panic, reading (bs "+OK") None (bs "*" ++ decimal I64_MAX)).
Proof. apply (@huge_array_length_panics demo_layout I64_MAX (bs "+OK") [] None); done. Defined.
