(* ===== verification/ServerClaims.v ===== *)
(** * Properties of the server

    The meaning of the commands, connections under any chunking, pipelined
    sessions and their metrics, and two failures: a write error and a deadline
    out of the clock's range. *)

From S2P Require Import Prelude Decimal HkvError Shard ShardInv ShardOps Engine LockedOps KVEngine.
From S2P Require Import EngineInv EngineSpec Eviction EngineTheorems Accounting EngineClaims RespParser RespParserInv Metrics.
From S2P Require Import ClientResp ClientRespInv Server ServerSpec ServerConn ServerSession.

(** ** Command names *)

(** Settles the comparisons of [dispatch_command] once the name is known. *)
Ltac dispatch_name name H :=
  unfold dispatch_command; rewrite !(eq_ignore_lower name), H;
  repeat match goal with
    | |- context [bool_decide (bs ?a = lower (bs ?b))] =>
        let r := eval vm_compute in (bool_decide (bs a = lower (bs b))) in
        change (bool_decide (bs a = lower (bs b))) with r
    end; cbn iota.

Section command_semantics.
Context {E : Type} `{KVEngineLaws E} `{FloatFormat}.
Implicit Types (m : kv) (mt : Metrics) (t : Z) (now : nat -> Z) (k v : bytes) (e : E).

(** Dispatching [args] on the engine answers [r] and leaves the content [m']. *)
Definition answers (args : command) mt now e (r : bytes) (m' : kv) : Prop :=
  runs (dispatch_command args mt now) e (fun r' e' => kv_inv e' /\ r' = r /\ kv_store e' = m').

(** What the abstract store answers, any engine answers. *)
Lemma answers_as_store args mt now e r m' :
  kv_inv e -> cmd_in_range args now = true ->
  dispatch_on kv args mt now (kv_store e) = (Ret r, m') -> answers args mt now e r m'.
Proof.
  intros He Hr Es. eapply runs_mono; [by apply (dispatch_mirrors args mt now)|]. cbn beta.
  intros r' e' [He' E']. rewrite Es in E'. by injection E' as -> ->.
Qed.

(** The keys that are live when their turn comes. *)
Definition live_keys now (i : nat) (keys : list bytes) m : list (nat * bytes) :=
  filter (fun ik => is_Some (live (now ik.1) ik.2 m)) (zip (seq i (length keys)) keys).

Lemma live_keys_delete now i keys k m :
  k ∉ keys -> live_keys now i keys (base.delete k m) = live_keys now i keys m.
Proof.
  intros Hk. apply filter_ext_in. intros [j k'] Hin%elem_of_zip_r. simpl.
  rewrite live_delete_ne by set_solver. done.
Qed.

Lemma del_loop_count now keys i removed m :
  NoDup keys ->
  del_loop (T := M kv) keys now i removed m =
    (Ret (resp_integer (removed + zlen (live_keys now i keys m))),
     foldr (fun k m => base.delete k m) m (reverse keys)).
Proof.
  revert i removed m. induction keys as [|k keys IH]; intros i removed m Hnd; cbn [del_loop].
  { rewrite Z.add_0_r. done. }
  apply NoDup_cons in Hnd as [Hk Hnd]. rewrite reverse_cons, foldr_app. cbn [foldr].
  erewrite bind_run by (simpl; done). unfold live_keys. cbn [length seq zip zip_with].
  rewrite filter_cons. fold (live_keys now (S i) keys m). cbn [fst snd].
  destruct (decide (is_Some (live (now i) k m))) as [Hl|Hl].
  - rewrite bool_decide_true by done. rewrite IH, live_keys_delete by done. rewrite zlen_cons.
    do 3 f_equal. lia.
  - rewrite bool_decide_false by done. by rewrite IH, live_keys_delete.
Qed.

(** C23: the meaning of the commands, whatever the case of their names, on any
    engine that meets the contract, with sizes and deadlines in range: GET returns the live value or the null reply;
    SET stores without a deadline and SET EX with one; DEL counts and removes the
    live keys among distinct ones; EXPIRE answers 1 or 0; TTL gives the whole
    seconds left, -1 or -2; anything else is an error that leaves the content
    alone. *)
Theorem command_semantics mt now e (name k v : bytes) (keys : list bytes) (secs : Z) :
  let m := kv_store e in let t := now 0%nat in
  kv_inv e -> 0 <= secs <= U64_MAX -> NoDup keys -> keys ≠ [] ->
  (lower name = bs "get" -> cmd_in_range [name; k] now = true ->
     answers [name; k] mt now e
       match live t k m with Some (x, _) => resp_bulk x | None => resp_null end (settle t k m)) /\
  (lower name = bs "set" -> cmd_in_range [name; k; v] now = true ->
     answers [name; k; v] mt now e (resp_simple (bs "OK")) (<[k := (v, None)]> m)) /\
  (lower name = bs "set" -> cmd_in_range [name; k; v; bs "ex"; decimal secs] now = true ->
     answers [name; k; v; bs "ex"; decimal secs] mt now e (resp_simple (bs "OK"))
       (<[k := (v, Some (now 1%nat + secs * NANOS_PER_SEC))]> m)) /\
  (lower name = bs "del" -> cmd_in_range (name :: keys) now = true ->
     answers (name :: keys) mt now e (resp_integer (zlen (live_keys now 0 keys m)))
       (foldr (fun k m => base.delete k m) m (reverse keys))) /\
  (lower name = bs "expire" -> cmd_in_range [name; k; decimal secs] now = true ->
     answers [name; k; decimal secs] mt now e (resp_integer (if decide (is_Some (live t k m)) then 1 else 0))
       (abs_expire t k (secs * NANOS_PER_SEC) m)) /\
  (lower name = bs "ttl" -> cmd_in_range [name; k] now = true ->
     answers [name; k] mt now e
       (resp_integer match live t k m with
          | None => -2 | Some (_, None) => -1 | Some (_, Some d) => as_secs_i64 (d - t) end)
       (settle t k m)) /\
  (lower name ∉ bs <$> ["ping"; "get"; "set"; "del"; "expire"; "ttl"; "info"]%string ->
     cmd_in_range (name :: keys) now = true ->
     answers (name :: keys) mt now e (resp_error (bs "unknown command")) m).
Proof.
  intros m t He Hsecs Hnd Hne.
  assert (Hp : parse_u64 (decimal secs) = Ok secs).
  { unfold parse_u64. pose proof (decimal_nonempty secs). pose proof (digit_fold_decimal U64_MAX secs Hsecs) as E'.
    destruct (decimal secs); [done|]. by rewrite E'. }
  split_and!; intros Hn Hr; apply answers_as_store; try done; clear Hr; fold m.
  - dispatch_name name Hn. unfold handle_get. erewrite bind_run by (simpl; done). fold t.
    by destruct (live t k m) as [[x d]|].
  - by dispatch_name name Hn.
  - dispatch_name name Hn. unfold handle_set.
    change (eq_ignore_ascii_case (bs "ex") (bs "EX")) with true. cbn iota. rewrite Hp.
    erewrite bind_run by (simpl; done). cbn iota. erewrite bind_run by (simpl; done).
    rewrite live_insert_eq. unfold abs_expire. rewrite live_insert_eq. unfold from_secs, mret, M_ret.
    by rewrite insert_insert_eq.
  - dispatch_name name Hn. unfold handle_del. destruct keys as [|k0 keys]; [done|].
    cbn [tail]. rewrite del_loop_count by done. by rewrite Z.add_0_l.
  - dispatch_name name Hn. unfold handle_expire. rewrite Hp.
    erewrite bind_run by (simpl; done). unfold from_secs. fold t.
    destruct (live t k m) as [x|] eqn:El.
    + rewrite (decide_True (P := is_Some (Some x))) by eauto. done.
    + rewrite (decide_False (P := is_Some None)) by (by intros [? ?]). done.
  - dispatch_name name Hn. unfold handle_ttl. erewrite bind_run by (simpl; done).
    unfold abs_ttl. fold t. by destruct (live t k m) as [[x [d|]]|].
  - unfold dispatch_command. rewrite !eq_ignore_lower.
    rewrite !bool_decide_false; [done|intros E'; apply Hn; rewrite E'; vm_compute; set_solver..].
Qed.

End command_semantics.

(** ** Connections *)

Section connection_claims.
Context {E : Type} `{KVEngineLaws E} `{FloatFormat} `{BytesMut} (p : profile) (w : World).

(** C15: how the network cuts the stream does not matter: for any bytes, valid
    or not, delivered in any non-empty chunks, the connection ends the same way,
    writes the same responses, leaves the engine and the metrics in the same
    state, as if everything had arrived in one read. *)
Theorem chunking_is_invisible (e : E) (mt : Metrics) (m : bytes) (chunks : list bytes) :
  m ≠ [] -> Forall (fun x => x ≠ []) chunks -> zlen (m ++ mjoin chunks) <= ISIZE_MAX ->
  same_outcome (handle_connection_with_metrics p w (stream_of (m :: chunks)) (conn_new e mt))
    (handle_connection_with_metrics p w (stream_of [m ++ mjoin chunks]) (conn_new e mt)).
Proof.
  intros Hm Hch Hsz. apply chunks_as_one; [|done|done|done]. split; [apply parser_new_wf|done].
Qed.

(** C10: a stream of encoded commands, their sizes and deadlines in range, cut into
    any chunks, is served completely and in order on any engine that meets the
    contract, as long as the responses can be written: the connection ends
    normally, and the responses written, the metrics and the engine's content are
    those of the same session on the abstract store. *)
Theorem pipelined_session (e : E) (mt : Metrics) (cmds : list command) (chunks : list bytes) :
  kv_inv e -> hist_ok (mt_latency mt) -> Forall args_sized cmds -> (forall i, write_ok w i = true) ->
  session_in_range w 0 cmds = true -> Forall (fun x => x ≠ []) chunks ->
  mjoin chunks = mjoin (command_wire <$> cmds) -> zlen (mjoin chunks) <= ISIZE_MAX ->
  exists c, handle_connection_with_metrics p w (stream_of chunks) (conn_new e mt) = (Ret Finished, c) /\
    kv_inv (cn_engine c) /\
    session w 0 cmds mt (kv_store e) = (cn_out c, cn_metrics c, kv_store (cn_engine c)).
Proof. apply connection_session. Qed.

(** C39: when the response to the first command of a connection cannot be written, the
    command being in range, the connection ends
    with the I/O error and the command's effect on the engine stays, but the
    request remains counted as in flight and its latency is not recorded. *)
Theorem failed_write_leaks_inflight (e : E) (mt : Metrics) (args : command) :
  kv_inv e -> args_sized args -> cmd_in_range args (clock w 0) = true ->
  zlen (command_wire args) <= ISIZE_MAX -> write_ok w 0 = false ->
  exists r c, handle_connection_with_metrics p w [Ok (command_wire args)] (conn_new e mt) = (Ret IoError, c) /\
    cn_out c = [] /\ mt_inflight (cn_metrics c) = wrapping_add (mt_inflight mt) 1 /\
    mt_latency (cn_metrics c) = mt_latency mt /\
    dispatch_on kv args (record_request_start mt) (clock w 0) (kv_store e) =
      (Ret r, kv_store (cn_engine c)).
Proof.
  intros He Ha Hr Hsz Hw. rewrite handle_chunk by done.
  assert (Hc : conn_ok (feed (command_wire args) (conn_new e mt))) by (split; [apply parser_new_wf|done]).
  rewrite drain_unfold by done. unfold drain_round. cbn [feed set_input conn_new cn_parser cn_buf app].
  destruct (parse_frame p parser_new args (command_wire args) []) as (q' & Hq' & Ep);
    [done|by apply command_wire_frame|by rewrite app_nil_r|].
  rewrite app_nil_r in Ep. rewrite Ep.
  destruct (serve_command_dispatch w args (set_input q' [] (conn_new e mt)) He Hr)
    as (r & e' & Ed & He' & Es). cbn zeta in Es. cbn [set_input conn_new cn_served cn_metrics] in *.
  change (set_input q' [] (feed (command_wire args) (conn_new e mt))) with (set_input q' [] (conn_new e mt)).
  rewrite Es. erewrite bind_run by (unfold write_all; rewrite Hw; done).
  eexists r, _. split; [done|]. cbn. by destruct (is_error_response r).
Qed.

(** Over a connection that carries a session of commands, every command gets
    exactly one response; the request counter grows by their number, the error
    counter by the number of error responses, the histogram by one sample each,
    and the number of requests in flight is back where it was. *)
Theorem session_accounts_requests (e : E) (mt : Metrics) (cmds : list command) (chunks : list bytes) :
  kv_inv e -> hist_ok (mt_latency mt) -> counters_ok mt -> Forall args_sized cmds ->
  (forall i, write_ok w i = true) -> session_in_range w 0 cmds = true -> Forall (fun x => x ≠ []) chunks ->
  mjoin chunks = mjoin (command_wire <$> cmds) -> zlen (mjoin chunks) <= ISIZE_MAX ->
  exists c, handle_connection_with_metrics p w (stream_of chunks) (conn_new e mt) = (Ret Finished, c) /\
    length (cn_out c) = length cmds /\
    mt_requests_total (cn_metrics c) = wrap64 (mt_requests_total mt + zlen cmds) /\
    mt_errors_total (cn_metrics c) = wrap64 (mt_errors_total mt + error_count (cn_out c)) /\
    mt_inflight (cn_metrics c) = mt_inflight mt /\
    lh_samples (mt_latency (cn_metrics c)) = wrap64 (lh_samples (mt_latency mt) + zlen cmds).
Proof.
  intros He Hh Hk Ha Hw Hr Hch Ej Hsz.
  destruct (connection_session p w e mt cmds chunks) as (c & Ec & _ & Es); try done.
  exists c. split; [done|]. pose proof (session_counted w 0 cmds mt (kv_store e) Hh Hk Hr) as Hs.
  rewrite Es in Hs. destruct Hs as [Hl [Hq Herr Hi Hsm]]. split_and!; try done.
  rewrite Hi. apply wrap64_small. unfold counters_ok in Hk. rewrite !Forall_cons in Hk.
  change USIZE_MAX with U64_MAX. lia.
Qed.

End connection_claims.

(** ** The in-memory engine behind the server *)

(** C38: EXPIRE on a live key with a number of seconds that takes the deadline
    past the range of the clock panics inside the handler, whatever the case of the
    command's name, and leaves the engine as it was. *)
Theorem expire_seconds_overflow_panics `{EngineEnv} `{FloatFormat} (p : profile) (e : MemoryEngine)
    (mt : Metrics) (name k : bytes) (secs : Z) (now : nat -> Z) :
  eng_inv e -> lower name = bs "expire" -> 0 <= secs <= U64_MAX ->
  is_Some (live (now 0%nat) k (store e)) -> INSTANT_MAX < now 0%nat + secs * NANOS_PER_SEC ->
  dispatch_command (H1 := engine_calls (H := memory_kv_engine p)) [name; k; decimal secs] mt now e = (Panic, e).
Proof.
  intros He Hn Hsecs Hl Ho. dispatch_name name Hn. unfold handle_expire.
  assert (Hp : parse_u64 (decimal secs) = Ok secs).
  { unfold parse_u64. pose proof (decimal_nonempty secs). pose proof (digit_fold_decimal U64_MAX secs Hsecs) as E.
    destruct (decimal secs); [done|]. by rewrite E. }
  rewrite Hp. unfold mbind, M_bind, call_expire, engine_calls, kv_expire, memory_kv_engine. unfold from_secs.
  by rewrite (expire_panics e k (secs * NANOS_PER_SEC) (now 0%nat)).
Qed.

(** ** Instances *)

(** Three zeros for every number. *)
Definition demo_fmt : FloatFormat := {| fmt3 := fun _ => bs "0.000" |}.

Definition demo_world : World := mkWorld (fun i _ => Z.of_nat i) (fun _ => 1500) (fun _ => true).
Definition broken_world : World := mkWorld (fun i _ => Z.of_nat i) (fun _ => 1500) (fun _ => false).

Definition demo_cmds : list command :=
  [[bs "SET"; bs "x"; bs "1"]; [bs "get"; bs "x"]; [bs "EXPIRE"; bs "x"; bs "5"];
   [bs "DEL"; bs "x"; bs "a"]; [bs "NOPE"]].

(** The in-memory engine of the examples, behind the interface. *)
#[local] Instance demo_engine : KVEngine MemoryEngine := @memory_kv_engine demo_env Debug.
#[local] Instance demo_laws : KVEngineLaws MemoryEngine := @memory_kv_laws demo_env Debug.

Lemma timed_engine_inv : kv_inv timed_engine.
Proof. split; [by apply (@engine_after_inv demo_env)|done]. Qed.

Lemma command_semantics_witness :
  let m := kv_store timed_engine in
  @answers MemoryEngine _ _ demo_fmt [bs "gEt"; bs "b"] (metrics_new 0) (fun _ => 3) timed_engine
    match live 3 (bs "b") m with Some (x, _) => resp_bulk x | None => resp_null end (settle 3 (bs "b") m).
Proof.
  destruct (@command_semantics MemoryEngine _ _ demo_fmt (metrics_new 0) (fun _ => 3) timed_engine (bs "gEt")
    (bs "b") [] [bs "b"] 4) as [Hget _]; [apply timed_engine_inv|done|apply NoDup_singleton|done|].
  exact (Hget eq_refl eq_refl).
Defined.

Lemma chunking_is_invisible_witness :
  same_outcome
    (@handle_connection_with_metrics MemoryEngine _ demo_fmt demo_buf Debug demo_world
       (stream_of [bs "*1"; crlf ++ bs "$4"; crlf ++ bs "PI"; bs "NG" ++ crlf]) (conn_new timed_engine (metrics_new 0)))
    (@handle_connection_with_metrics MemoryEngine _ demo_fmt demo_buf Debug demo_world
       (stream_of [bs "*1" ++ mjoin [crlf ++ bs "$4"; crlf ++ bs "PI"; bs "NG" ++ crlf]])
       (conn_new timed_engine (metrics_new 0))).
Proof.
  apply (@chunking_is_invisible MemoryEngine _ demo_fmt demo_buf Debug demo_world timed_engine (metrics_new 0)
    (bs "*1") [crlf ++ bs "$4"; crlf ++ bs "PI"; bs "NG" ++ crlf]); [done| |vm_compute; done].
  repeat constructor; done.
Defined.

Lemma demo_cmds_sized : Forall args_sized demo_cmds.
Proof. repeat constructor; vm_compute; done. Qed.

Lemma pipelined_session_witness :
  exists c, @handle_connection_with_metrics MemoryEngine _ demo_fmt demo_buf Debug demo_world
      (stream_of [mjoin (command_wire <$> demo_cmds)]) (conn_new timed_engine (metrics_new 0)) = (Ret Finished, c) /\
    kv_inv (cn_engine c) /\
    @session demo_fmt demo_world 0 demo_cmds (metrics_new 0) (kv_store timed_engine) =
      (cn_out c, cn_metrics c, kv_store (cn_engine c)).
Proof.
  apply (@pipelined_session MemoryEngine _ _ demo_fmt demo_buf Debug demo_world timed_engine (metrics_new 0)
    demo_cmds [mjoin (command_wire <$> demo_cmds)]).
  - apply timed_engine_inv.
  - done.
  - apply demo_cmds_sized.
  - done.
  - vm_compute. done.
  - repeat constructor; done.
  - vm_compute. done.
  - vm_compute. done.
Defined.

Lemma failed_write_leaks_inflight_witness :
  exists r c, @handle_connection_with_metrics MemoryEngine _ demo_fmt demo_buf Debug broken_world
      [Ok (command_wire [bs "SET"; bs "x"; bs "1"])] (conn_new timed_engine (metrics_new 0)) = (Ret IoError, c) /\
    cn_out c = [] /\ mt_inflight (cn_metrics c) = wrapping_add 0 1 /\
    mt_latency (cn_metrics c) = mt_latency (metrics_new 0) /\
    dispatch_command (T := M kv) (H2 := demo_fmt) [bs "SET"; bs "x"; bs "1"] (record_request_start (metrics_new 0))
      (clock broken_world 0) (kv_store timed_engine) = (Ret r, kv_store (cn_engine c)).
Proof.
  apply (@failed_write_leaks_inflight MemoryEngine _ _ demo_fmt demo_buf Debug broken_world timed_engine
    (metrics_new 0) [bs "SET"; bs "x"; bs "1"]).
  - apply timed_engine_inv.
  - split; [done|]. repeat constructor; done.
  - vm_compute. done.
  - vm_compute. done.
  - done.
Defined.

Lemma session_accounts_requests_witness :
  exists c, @handle_connection_with_metrics MemoryEngine _ demo_fmt demo_buf Debug demo_world
      (stream_of [mjoin (command_wire <$> demo_cmds)]) (conn_new timed_engine (metrics_new 0)) = (Ret Finished, c) /\
    length (cn_out c) = 5%nat /\ mt_requests_total (cn_metrics c) = wrap64 (0 + 5) /\
    mt_errors_total (cn_metrics c) = wrap64 (0 + error_count (cn_out c)) /\
    mt_inflight (cn_metrics c) = 0 /\ lh_samples (mt_latency (cn_metrics c)) = wrap64 (0 + 5).
Proof.
  apply (@session_accounts_requests MemoryEngine _ _ demo_fmt demo_buf Debug demo_world timed_engine
    (metrics_new 0) demo_cmds [mjoin (command_wire <$> demo_cmds)]).
  - apply timed_engine_inv.
  - done.
  - repeat constructor; done.
  - apply demo_cmds_sized.
  - done.
  - vm_compute. done.
  - repeat constructor; done.
  - vm_compute. done.
  - vm_compute. done.
Defined.

Lemma expire_seconds_overflow_panics_witness :
  dispatch_command (H1 := engine_calls (H := @memory_kv_engine demo_env Release)) (H2 := demo_fmt)
    [bs "EXPIRE"; bs "b"; decimal U64_MAX] (metrics_new 0) (fun _ => 1) timed_engine = (Panic, timed_engine).
Proof.
  apply (@expire_seconds_overflow_panics demo_env demo_fmt Release timed_engine (metrics_new 0)
    (bs "EXPIRE") (bs "b") U64_MAX (fun _ => 1)).
  - by apply (@engine_after_inv demo_env).
  - done.
  - done.
  - exists (bs "2", None). vm_compute. done.
  - done.
Defined.
