(* ===== verification/ServerTasks.v ===== *)
(** * The server process (hkv-server/src/main.rs)

    The accept loop and the connections it spawns, over one engine and one
    [Metrics].  Connections are tasks that run in parallel: a step of a task is one
    call on the engine, one atomic access to the metrics, one read or write of its
    socket, or work on its own data.  The engine's calls are single steps here; how
    they interleave inside the engine is [Concurrent].

    A task runs the code of [Server]: the handlers are the same definitions, at the
    monad [prog] of programs that still have their engine calls to make. *)

From S2P Require Import Prelude Decimal HkvError Shard Engine KVEngine EngineTheorems.
From S2P Require Import RespParser Metrics ClientResp Server.

(** ** Engine calls *)

Inductive kv_call :=
| CallGet (k : bytes) (now : Z)
| CallSet (k v : bytes) (now : Z)
| CallDelete (k : bytes) (now : Z)
| CallExpire (k : bytes) (ttl now : Z)
| CallTtl (k : bytes) (now : Z).

Definition reply_of (c : kv_call) : Type :=
  match c with
  | CallGet _ _ => HkvResult (option bytes)
  | CallSet _ _ _ | CallExpire _ _ _ => HkvResult unit
  | CallDelete _ _ => HkvResult bool
  | CallTtl _ _ => HkvResult TtlStatus
  end.

Definition call_key (c : kv_call) : bytes :=
  match c with CallGet k _ | CallSet k _ _ | CallDelete k _ | CallExpire k _ _ | CallTtl k _ => k end.

Definition call_now (c : kv_call) : Z :=
  match c with CallGet _ t | CallSet _ _ t | CallDelete _ t | CallExpire _ _ t | CallTtl _ t => t end.

(** A program: its result, or a call and what follows its reply. *)
Inductive prog (A : Type) :=
| Done (a : A)
| Call (c : kv_call) (next : reply_of c -> prog A).
Arguments Done {A} _.
Arguments Call {A} _ _.

#[global] Instance prog_ret : MRet prog := fun A a => Done a.
#[global] Instance prog_bind : MBind prog := fun A B f =>
  fix bind (x : prog A) : prog B :=
    match x with
    | Done a => f a
    | Call c next => Call c (fun r => bind (next r))
    end.

#[global] Instance prog_calls : EngineCalls prog := {|
  call_get := fun k now => Call (CallGet k now) Done;
  call_set := fun k v now => Call (CallSet k v now) Done;
  call_delete := fun k now => Call (CallDelete k now) Done;
  call_expire := fun k ttl now => Call (CallExpire k ttl now) Done;
  call_ttl := fun k now => Call (CallTtl k now) Done
|}.

Definition run_call {E : Type} `{KVEngine E} (c : kv_call) : M E (reply_of c) :=
  match c with
  | CallGet k now => kv_get k now
  | CallSet k v now => kv_set k v now
  | CallDelete k now => kv_delete k now
  | CallExpire k ttl now => kv_expire k ttl now
  | CallTtl k now => kv_ttl k now
  end.

(** The program on an engine of its own. *)
Fixpoint run_prog {E A : Type} `{KVEngine E} (x : prog A) : M E A :=
  match x with
  | Done a => mret a
  | Call c next => r ← run_call c; run_prog (next r)
  end.

(** The background sweep of one shard, as far as the server's tasks see it. *)
Class Sweeper (E : Type) := { kv_sweep : nat -> Z -> M E Z }.

#[global] Instance memory_sweeper `{EngineEnv} : Sweeper MemoryEngine := {|
  kv_sweep j now := lock_shard j (purge_locked now)
|}.

(** ** Accesses to the metrics *)

(** The atomic updates of [record_request_start], [record_error] and
    [record_request_end]. *)
Inductive metric_write :=
| AddRequests
| AddInflight
| AddErrors
| SubInflight
| AddSamples
| AddSum (micros : Z)
| MaxUs (micros : Z)
| AddBucket (i : nat).

Definition on_latency (f : LatencyHistogram -> LatencyHistogram) (m : Metrics) : Metrics :=
  mkMetrics (mt_requests_total m) (mt_errors_total m) (mt_inflight m) (f (mt_latency m)) (mt_started_at m).

(** [update_max] is one step: its loop is [Metrics.um_access]. *)
Definition write_metric (x : metric_write) (m : Metrics) : outcome unit * Metrics :=
  let mk r e i := mkMetrics r e i (mt_latency m) (mt_started_at m) in
  let h f := on_latency (fun h => f (lh_bounds_us h) (lh_buckets h) (lh_sum_us h) (lh_samples h) (lh_max_us h)) m in
  match x with
  | AddRequests => (Ret tt, mk (wrapping_add (mt_requests_total m) 1) (mt_errors_total m) (mt_inflight m))
  | AddInflight => (Ret tt, mk (mt_requests_total m) (mt_errors_total m) (wrapping_add (mt_inflight m) 1))
  | AddErrors => (Ret tt, mk (mt_requests_total m) (wrapping_add (mt_errors_total m) 1) (mt_inflight m))
  | SubInflight => (Ret tt, mk (mt_requests_total m) (mt_errors_total m) (wrapping_sub (mt_inflight m) 1))
  | AddSamples => (Ret tt, h (fun b c s n x => mkHistogram b c s (wrapping_add n 1) x))
  | AddSum micros => (Ret tt, h (fun b c s n x => mkHistogram b c (wrapping_add s micros) n x))
  | MaxUs micros => (Ret tt, h (fun b c s n x => mkHistogram b c s n (update_max x micros)))
  | AddBucket i =>
      match lh_buckets (mt_latency m) !! i with
      | None => (Panic, m)
      | Some count => (Ret tt, h (fun b c s n x => mkHistogram b (<[i := wrapping_add count 1]> c) s n x))
      end
  end.

Definition start_writes : list metric_write := [AddRequests; AddInflight].
Definition error_writes (response : bytes) : list metric_write :=
  if is_error_response response then [AddErrors] else [].
Definition end_writes (bounds : list Z) (latency : Z) : list metric_write :=
  let micros := micros_of latency in
  [SubInflight; AddSamples; AddSum micros; MaxUs micros; AddBucket (bucket_of bounds latency)].

(** The atomic loads of [snapshot], in its order. *)
Inductive metric_load :=
| LoadRequests
| LoadErrors
| LoadInflight
| LoadBucket (i : nat)
| LoadSamples
| LoadSum
| LoadMax.

Definition snapshot_loads (m : Metrics) : list metric_load :=
  [LoadRequests; LoadErrors; LoadInflight] ++ (LoadBucket <$> seq 0 (length (lh_buckets (mt_latency m)))) ++
  [LoadSamples; LoadSum; LoadMax].

(** What never changes in the metrics, the counters left out. *)
Definition blank (m : Metrics) : Metrics :=
  mkMetrics 0 0 0 (mkHistogram (lh_bounds_us (mt_latency m))
    (replicate (length (lh_buckets (mt_latency m))) 0) 0 0 0) (mt_started_at m).

(** Copies one counter of [m] into what has been [seen]. *)
Definition load_metric (x : metric_load) (m seen : Metrics) : Metrics :=
  let mk r e i := mkMetrics r e i (mt_latency seen) (mt_started_at seen) in
  let h f := on_latency (fun h => f (lh_bounds_us h) (lh_buckets h) (lh_sum_us h) (lh_samples h) (lh_max_us h)) seen in
  let l := mt_latency m in
  match x with
  | LoadRequests => mk (mt_requests_total m) (mt_errors_total seen) (mt_inflight seen)
  | LoadErrors => mk (mt_requests_total seen) (mt_errors_total m) (mt_inflight seen)
  | LoadInflight => mk (mt_requests_total seen) (mt_errors_total seen) (mt_inflight m)
  | LoadBucket i => h (fun b c s n x => mkHistogram b (<[i := default 0 (lh_buckets l !! i)]> c) s n x)
  | LoadSamples => h (fun b c s n x => mkHistogram b c s (lh_samples l) x)
  | LoadSum => h (fun b c s n x => mkHistogram b c (lh_sum_us l) n x)
  | LoadMax => h (fun b c s n x => mkHistogram b c s n (lh_max_us l))
  end.

(** ** Tasks *)

(** Where a task is.  [Recording ws next]: it has the updates [ws] still to make,
    then goes on at [next].  [Loading] is [snapshot], [Running] a handler with its
    calls, [Sending] the write of a response, after which a protocol error closes
    the connection.  [Ended] keeps a response that could not be written. *)
Inductive task_pc :=
| Reading
| Parsing
| Recording (ws : list metric_write) (next : task_pc)
| Dispatching (args : command)
| Loading (loads : list metric_load) (seen : Metrics) (args : command)
| Running (x : prog bytes)
| Sending (response : bytes) (closing : bool)
| Ended (r : conn_end) (unsent : option bytes)
| Crashed.

(** A task: the locals of [handle_connection_with_metrics], the reads to come, and
    what it has written. *)
Record task := mkTask {
  tk_world : World;
  tk_parser : RespParser;
  tk_buf : bytes;
  tk_out : list bytes;
  tk_served : nat;
  tk_reads : list (result bytes io_error);
  tk_pc : task_pc
}.

(** What a client does: the results of the reads, clock readings, and so on. *)
Definition client : Type := World * list (result bytes io_error).

Definition task_new (x : client) : task := mkTask x.1 parser_new [] [] 0 x.2 Reading.

(** The request that is being served. *)
Definition tk_request (t : task) : nat := pred (tk_served t).

Definition goto (pc : task_pc) (t : task) : task :=
  mkTask (tk_world t) (tk_parser t) (tk_buf t) (tk_out t) (tk_served t) (tk_reads t) pc.

(** With the parser's state [q], the buffer [b] and [n] requests taken up. *)
Definition parsed (q : RespParser) (b : bytes) (n : nat) (pc : task_pc) (t : task) : task :=
  mkTask (tk_world t) q b (tk_out t) n (tk_reads t) pc.

Definition is_info (args : command) : bool :=
  match args with cmd :: _ => eq_ignore_ascii_case cmd (bs "INFO") | [] => false end.

(** What a step did to the engine: a call of a task, a sweep. *)
Inductive server_event :=
| Called (c : kv_call)
| Swept (j : nat) (now : Z).

Section tasks.
Context {E : Type} `{KVEngine E} `{FloatFormat} `{BytesMut} (p : profile).

(** [stream.read_buf(&mut buffer).await?]. *)
Definition read_step (t : task) : option task :=
  match tk_reads t with
  | [] => None
  | Err _ :: rest => Some (mkTask (tk_world t) (tk_parser t) (tk_buf t) (tk_out t) (tk_served t) rest (Ended IoError None))
  | Ok chunk :: rest =>
      Some (mkTask (tk_world t) (tk_parser t) (tk_buf t ++ chunk) (tk_out t) (tk_served t) rest
              (if zlen chunk =? 0 then Ended Finished None else Parsing))
  end.

(** [parser.parse(&mut buffer)] and the branch taken. *)
Definition parse_step (t : task) : task :=
  let '(o, (q, b)) := parse p (tk_parser t, tk_buf t) in
  match o with
  | Ret (Ok (Some args)) => parsed q b (S (tk_served t)) (Recording start_writes (Dispatching args)) t
  | Ret (Ok None) => parsed q b (tk_served t) Reading t
  | Ret (Err RespError_Protocol) =>
      let response := resp_error (bs "protocol error") in
      parsed q b (S (tk_served t)) (Recording (start_writes ++ error_writes response) (Sending response true)) t
  | _ => parsed q b (tk_served t) Crashed t
  end.

(** [dispatch_command]: INFO takes its snapshot first. *)
Definition dispatch_step (args : command) (m : Metrics) (t : task) : task :=
  goto (if is_info args then Loading (snapshot_loads m) (blank m) args
        else Running (dispatch_command args (blank m) (clock (tk_world t) (tk_request t)))) t.

(** [stream.write_all(&response).await?], and [record_request_end]. *)
Definition send_step (response : bytes) (closing : bool) (m : Metrics) (t : task) : task :=
  let i := tk_request t in
  if write_ok (tk_world t) i then
    mkTask (tk_world t) (tk_parser t) (tk_buf t) (tk_out t ++ [response]) (tk_served t) (tk_reads t)
      (Recording (end_writes (lh_bounds_us (mt_latency m)) (elapsed (tk_world t) i))
         (if closing then Ended Finished None else Parsing))
  else goto (Ended IoError (Some response)) t.

(** One step of a task; [None] when it waits for its client or has ended. *)
Definition task_step (e : E) (m : Metrics) (t : task) : option (E * Metrics * task * option server_event) :=
  let local t' := Some (e, m, t', None) in
  match tk_pc t with
  | Reading => t' ← read_step t; local t'
  | Parsing => local (parse_step t)
  | Recording [] next => local (goto next t)
  | Recording (x :: ws) next =>
      let '(o, m') := write_metric x m in
      Some (e, m', goto (match o with Ret _ => Recording ws next | _ => Crashed end) t, None)
  | Dispatching args => local (dispatch_step args m t)
  | Loading [] seen args =>
      local (goto (Running (dispatch_command args seen (clock (tk_world t) (tk_request t)))) t)
  | Loading (x :: loads) seen args => local (goto (Loading loads (load_metric x m seen) args) t)
  | Running (Done response) => local (goto (Recording (error_writes response) (Sending response false)) t)
  | Running (Call c next) =>
      match run_call c e with
      | (Ret r, e') => Some (e', m, goto (Running (next r)) t, Some (Called c))
      | (_, e') => Some (e', m, goto Crashed t, Some (Called c))
      end
  | Sending response closing => local (send_step response closing m t)
  | Ended _ _ | Crashed => None
  end.

End tasks.

(** ** The process *)

(** The engine and the metrics, the tasks in the order of their connections, the
    results of [accept] to come, and the error [main] has returned. *)
Record server (E : Type) := mkServer {
  sv_engine : E;
  sv_metrics : Metrics;
  sv_tasks : list task;
  sv_incoming : list (result client io_error);
  sv_exit : option io_error
}.
Arguments mkServer {E} _ _ _ _ _.
Arguments sv_engine {E} _.
Arguments sv_metrics {E} _.
Arguments sv_tasks {E} _.
Arguments sv_incoming {E} _.
Arguments sv_exit {E} _.

(** Who makes the next step: the accept loop, the expirer at shard [j] (at any time,
    with any reading of the clock), task [a]. *)
Inductive actor :=
| ActAccept
| ActSweep (j : nat) (now : Z)
| ActTask (a : nat).

(** Before the loop of [main], once the listener is bound. *)
Definition server_start {E : Type} (e : E) (m : Metrics) (incoming : list (result client io_error)) : server E :=
  mkServer e m [] incoming None.

(** [main] up to its loop: [addr] is the environment's [HKV_ADDR], [bind] the
    answer of the system, [threads] the available parallelism. *)
Definition server_main `{EngineEnv} (p : profile) (threads : option Z) (addr : option bytes)
    (bind : bytes -> option io_error) (now : Z) (incoming : list (result client io_error)) :
    outcome (result (server MemoryEngine) io_error) :=
  match bind (default (bs "127.0.0.1:6379") addr) with
  | Some err => mret (Err err)
  | None =>
      engine ← engine_new p threads;
      mret (Ok (server_start engine (metrics_new now) incoming))
  end.

Section process.
Context {E : Type} `{KVEngine E} `{Sweeper E} `{FloatFormat} `{BytesMut} (p : profile).

(** [listener.accept().await?] and the spawned task. *)
Definition accept_step (s : server E) : option (server E) :=
  match sv_exit s, sv_incoming s with
  | None, Ok x :: rest =>
      Some (mkServer (sv_engine s) (sv_metrics s) (sv_tasks s ++ [task_new x]) rest None)
  | None, Err err :: rest => Some (mkServer (sv_engine s) (sv_metrics s) (sv_tasks s) rest (Some err))
  | _, _ => None
  end.

Definition server_step (x : actor) (s : server E) : option (server E * option (nat * server_event)) :=
  match x with
  | ActAccept => match accept_step s with Some s' => Some (s', None) | None => None end
  | ActSweep j now =>
      match kv_sweep j now (sv_engine s) with
      | (Ret _, e') =>
          Some (mkServer e' (sv_metrics s) (sv_tasks s) (sv_incoming s) (sv_exit s), Some (0%nat, Swept j now))
      | _ => None
      end
  | ActTask a =>
      match sv_tasks s !! a with
      | None => None
      | Some t =>
          match task_step p (sv_engine s) (sv_metrics s) t with
          | None => None
          | Some (e', m', t', ev) =>
              Some (mkServer e' m' (<[a := t']> (sv_tasks s)) (sv_incoming s) (sv_exit s),
                    match ev with Some ev => Some (a, ev) | None => None end)
          end
      end
  end.

(** A schedule; an actor that cannot step is passed over.  Returns the process and
    the events, with their tasks, behind [h]. *)
Fixpoint run_server (sched : list actor) (s : server E) (h : list (nat * server_event)) :
    server E * list (nat * server_event) :=
  match sched with
  | [] => (s, h)
  | x :: sched =>
      match server_step x s with
      | Some (s', Some ev) => run_server sched s' (h ++ [ev])
      | Some (s', None) => run_server sched s' h
      | None => run_server sched s h
      end
  end.

End process.
