(* ===== verification/ServerTasksAlone.v ===== *)
(** * A task that is not disturbed

    The steps of a task of [ServerTasks], one after the other, do what
    [handle_connection_with_metrics] of [Server] does on the engine and the metrics:
    the two descriptions of a connection agree. *)

From S2P Require Import Prelude Decimal HkvError Engine KVEngine RespParser Metrics ClientResp Server ServerTasks.

(** ** Programs with calls *)

Section programs.
Context {E : Type} `{KVEngine E} `{FloatFormat}.

(** The program [x] does on an engine what [m] does. *)
Definition does {A : Type} (x : prog A) (m : M E A) : Prop := forall e, run_prog x e = m e.

Lemma does_ret {A : Type} (a : A) : does (mret a) (mret a).
Proof. done. Qed.

Lemma does_bind {A B : Type} (x : prog A) (m : M E A) (f : A -> prog B) (g : A -> M E B) :
  does x m -> (forall a, does (f a) (g a)) -> does (x ≫= f) (m ≫= g).
Proof.
  intros Hx Hf e. transitivity ((run_prog x ≫= g) e); [|by unfold mbind, M_bind; rewrite Hx].
  clear Hx. revert e. induction x as [a|c next IH]; intros e.
  - exact (Hf a e).
  - cbn [run_prog mbind prog_bind]. unfold mbind at 1 3 4, M_bind.
    destruct (run_call c e) as [[r| |] e']; [|done..]. exact (IH r e').
Qed.

Lemma does_call c : does (Call c Done) (run_call c).
Proof. intros e. cbn [run_prog]. unfold mbind, M_bind. by destruct (run_call c e) as [[r| |] e']. Qed.

Lemma does_if {A : Type} (b : bool) (x y : prog A) (m n : M E A) :
  does x m -> does y n -> does (if b then x else y) (if b then m else n).
Proof. by destruct b. Qed.

End programs.

Create HintDb does discriminated.
#[export] Hint Resolve does_ret does_call does_bind does_if : does.

Section dispatch.
Context {E : Type} `{KVEngine E} `{FloatFormat}.

Ltac does := repeat first [ case_match | progress auto with does | apply does_bind; [|intros ?] | apply (does_call (CallGet _ _))
  | apply (does_call (CallSet _ _ _)) | apply (does_call (CallDelete _ _)) | apply (does_call (CallExpire _ _ _))
  | apply (does_call (CallTtl _ _)) ].

Lemma del_loop_does keys now i removed :
  does (del_loop (T := prog) keys now i removed) (del_loop (T := M E) keys now i removed).
Proof. revert i removed. induction keys as [|k keys IH]; intros i removed; cbn [del_loop]; does. Qed.

(** A handler with its calls still to make is the handler on an engine. *)
Lemma dispatch_does args m now : does (dispatch_command (T := prog) args m now) (dispatch_on E args m now).
Proof.
  unfold dispatch_command. destruct args as [|cmd args]; [apply does_ret|].
  repeat apply does_if; try apply does_ret.
  - unfold handle_get. does.
  - unfold handle_set. does.
  - unfold handle_del. destruct args; [apply does_ret|apply del_loop_does].
  - unfold handle_expire. does.
  - unfold handle_ttl. does.
Qed.

(** Only INFO looks at the metrics. *)
Lemma dispatch_blind {T : Type -> Type} `{MRet T} `{MBind T} `{EngineCalls T} args m m' now :
  is_info args = false -> dispatch_command (T := T) args m now = dispatch_command args m' now.
Proof. destruct args as [|cmd args]; [done|]. simpl. by intros ->. Qed.

End dispatch.

(** ** Updates and loads of the metrics *)

(** Several updates in a row. *)
Fixpoint write_metrics (ws : list metric_write) (m : Metrics) : outcome unit * Metrics :=
  match ws with
  | [] => (Ret tt, m)
  | x :: ws => match write_metric x m with (Ret _, m') => write_metrics ws m' | (o, m') => (o, m') end
  end.

Lemma start_writes_ok m : write_metrics start_writes m = (Ret tt, record_request_start m).
Proof. done. Qed.

Lemma error_writes_ok r m :
  write_metrics (error_writes r) m = (Ret tt, if is_error_response r then record_error m else m).
Proof. unfold error_writes. by destruct (is_error_response r). Qed.

Lemma end_writes_ok l m : write_metrics (end_writes (lh_bounds_us (mt_latency m)) l) m = record_request_end l m.
Proof.
  destruct m as [r e i [bounds counts sum samples max] t]. unfold end_writes, record_request_end, mbind, M_bind, modify, zoom.
  cbn. unfold record, bucket_of. cbn. by destruct (counts !! _).
Qed.

Lemma write_metrics_app ws ws' m :
  write_metrics (ws ++ ws') m = match write_metrics ws m with (Ret _, m') => write_metrics ws' m' | r => r end.
Proof.
  revert m. induction ws as [|x ws IH]; intros m; [done|]. simpl.
  by destruct (write_metric x m) as [[[]| |] m'].
Qed.

(** The buckets seen after the first [n] loads. *)
Lemma load_buckets_ok m seen n :
  length (lh_buckets (mt_latency seen)) = length (lh_buckets (mt_latency m)) ->
  (n <= length (lh_buckets (mt_latency m)))%nat ->
  foldl (fun seen x => load_metric x m seen) seen (LoadBucket <$> seq 0 n) =
  on_latency (fun h => mkHistogram (lh_bounds_us h) (take n (lh_buckets (mt_latency m)) ++ drop n (lh_buckets h))
    (lh_sum_us h) (lh_samples h) (lh_max_us h)) seen.
Proof.
  intros Hlen. induction n as [|n IH]; intros Hn.
  - destruct seen as [r e i [b c s k x] t]. done.
  - rewrite seq_S, fmap_app, foldl_app, IH by lia. destruct seen as [r e i [b c s k x] t]. cbn in *.
    unfold on_latency. cbn. f_equal. f_equal.
    destruct (lookup_lt_is_Some_2 (lh_buckets (mt_latency m)) n) as [y Hy]; [lia|]. rewrite Hy. cbn.
    rewrite insert_app_r_alt by (rewrite length_take; lia). rewrite length_take, Nat.min_l by lia.
    rewrite Nat.sub_diag, (take_S_r _ _ y) by done. rewrite <- app_assoc. f_equal.
    destruct (lookup_lt_is_Some_2 c n) as [z Hz]; [lia|]. rewrite (drop_S _ z) by done. done.
Qed.

(** A snapshot nobody disturbs sees the metrics. *)
Lemma snapshot_loads_ok m : foldl (fun seen x => load_metric x m seen) (blank m) (snapshot_loads m) = m.
Proof.
  unfold snapshot_loads. rewrite !foldl_app, load_buckets_ok.
  - destruct m as [r e i [b c s k x] t]. cbn. unfold on_latency. cbn.
    by rewrite firstn_all, drop_ge, app_nil_r by (by rewrite length_replicate).
  - cbn. by rewrite length_replicate.
  - done.
Qed.

(** ** The steps of one task *)

Section alone.
Context {E : Type} `{KVEngine E} `{Sweeper E} `{FloatFormat} `{BytesMut} (p : profile) (w : World).

(** A process, and the number of a task in it. *)
Context (s : server E) (a : nat) (Ha : (a < length (sv_tasks s))%nat).
Implicit Types (c : Conn E) (pc : task_pc).

(** The task with the locals of [c], and the process with it. *)
Definition task_of c (reads : list (result bytes io_error)) pc : task :=
  mkTask w (cn_parser c) (cn_buf c) (cn_out c) (cn_served c) reads pc.

Definition process_of c reads pc : server E :=
  mkServer (cn_engine c) (cn_metrics c) (<[a := task_of c reads pc]> (sv_tasks s)) (sv_incoming s) (sv_exit s).

(** The task's steps lead from one point to another. *)
Definition goes c reads pc c' reads' pc' : Prop := exists k evs, forall h,
  run_server p (replicate k (ActTask a)) (process_of c reads pc) h = (process_of c' reads' pc', h ++ evs).

Lemma goes_refl c reads pc : goes c reads pc c reads pc.
Proof. exists 0%nat, []. intros h. by rewrite app_nil_r. Qed.

Lemma run_server_app sched sched' (s0 : server E) h :
  run_server p (sched ++ sched') s0 h =
  let '(s1, h1) := run_server p sched s0 h in run_server p sched' s1 h1.
Proof.
  revert s0 h. induction sched as [|x sched IH]; intros s0 h; [done|]. simpl.
  destruct (server_step p x s0) as [[s1 [ev|]]|]; apply IH.
Qed.

Lemma goes_trans c1 r1 pc1 c2 r2 pc2 c3 r3 pc3 :
  goes c1 r1 pc1 c2 r2 pc2 -> goes c2 r2 pc2 c3 r3 pc3 -> goes c1 r1 pc1 c3 r3 pc3.
Proof.
  intros (k & evs & E1) (k' & evs' & E2). exists (k + k')%nat, (evs ++ evs'). intros h.
  by rewrite replicate_add, run_server_app, E1, E2, app_assoc.
Qed.

Lemma goes_step c reads pc c' reads' pc' ev :
  task_step p (cn_engine c) (cn_metrics c) (task_of c reads pc) =
    Some (cn_engine c', cn_metrics c', task_of c' reads' pc', ev) ->
  goes c reads pc c' reads' pc'.
Proof.
  intros Hs. exists 1%nat, (match ev with Some ev => [(a, ev)] | None => [] end). intros h.
  cbn [replicate run_server server_step process_of sv_tasks sv_engine sv_metrics sv_incoming sv_exit].
  rewrite list_lookup_insert_eq by done. rewrite Hs, list_insert_insert_eq. destruct ev; [done|by rewrite app_nil_r].
Qed.

(** One step, then the rest. *)
Lemma goes_then c reads pc c1 r1 pc1 ev c' reads' pc' :
  task_step p (cn_engine c) (cn_metrics c) (task_of c reads pc) =
    Some (cn_engine c1, cn_metrics c1, task_of c1 r1 pc1, ev) ->
  goes c1 r1 pc1 c' reads' pc' -> goes c reads pc c' reads' pc'.
Proof. intros Hs. apply goes_trans. by eapply goes_step. Qed.

Definition with_engine (e : E) c : Conn E :=
  mkConn (cn_parser c) (cn_buf c) e (cn_metrics c) (cn_out c) (cn_served c).
Definition with_metrics (m : Metrics) c : Conn E :=
  mkConn (cn_parser c) (cn_buf c) (cn_engine c) m (cn_out c) (cn_served c).

(** Where a computation of [Server] has arrived, when it returns to [next]. *)
Definition arrives {A : Type} c reads pc (r : outcome A * Conn E) (next : A -> list (result bytes io_error) -> task_pc -> Prop) : Prop :=
  match r with
  | (Ret x, c') => exists reads' pc', goes c reads pc c' reads' pc' /\ next x reads' pc'
  | (Panic, c') => exists reads', goes c reads pc c' reads' Crashed
  | (OutOfFuel, _) => True
  end.

Lemma arrives_goes {A : Type} c reads pc c1 r1 pc1 (r : outcome A * Conn E) next :
  goes c reads pc c1 r1 pc1 -> arrives c1 r1 pc1 r next -> arrives c reads pc r next.
Proof.
  intros Hg. unfold arrives. destruct r as [[x| |] c']; [|intros (r2 & Hg2)|done].
  - intros (r2 & pc2 & Hg2 & Hn). exists r2, pc2. split; [by eapply goes_trans|done].
  - exists r2. by eapply goes_trans.
Qed.

Lemma arrives_bind {A B : Type} c0 c reads pc (m : M (Conn E) A) (f : A -> M (Conn E) B) next next' :
  arrives c reads pc (m c0) next ->
  (forall x c1 r1 pc1, next x r1 pc1 -> arrives c1 r1 pc1 (f x c1) next') ->
  arrives c reads pc ((m ≫= f) c0) next'.
Proof.
  intros Hm Hf. unfold mbind, M_bind. destruct (m c0) as [[x| |] c1]; [|done..].
  destruct Hm as (r1 & pc1 & Hg & Hn). by eapply arrives_goes, Hf.
Qed.

Lemma arrives_mono {A : Type} c reads pc (r : outcome A * Conn E) (next next' : A -> list (result bytes io_error) -> task_pc -> Prop) :
  arrives c reads pc r next -> (forall x r1 pc1, next x r1 pc1 -> next' x r1 pc1) -> arrives c reads pc r next'.
Proof. unfold arrives. destruct r as [[x| |] c']; [|done..]. naive_solver. Qed.

(** ** Updates *)

Lemma recording_goes c reads ws next :
  match write_metrics ws (cn_metrics c) with
  | (Ret _, m) => goes c reads (Recording ws next) (with_metrics m c) reads next
  | (Panic, m) => goes c reads (Recording ws next) (with_metrics m c) reads Crashed
  | (OutOfFuel, _) => True
  end.
Proof.
  revert c. induction ws as [|x ws IH]; intros c.
  - apply (goes_step _ _ _ _ _ _ None). by destruct c.
  - simpl. destruct (write_metric x (cn_metrics c)) as [[[]| |] m] eqn:Ex.
    + specialize (IH (with_metrics m c)). cbn [cn_metrics with_metrics] in IH.
      destruct (write_metrics ws m) as [[[]| |] m']; [| |done];
        (eapply goes_then; [|exact IH]; cbn; rewrite Ex; reflexivity).
    + apply (goes_step _ _ _ _ _ _ None). cbn. by rewrite Ex.
    + done.
Qed.

(** ** A handler *)

Lemma running_goes c reads x :
  match run_prog x (cn_engine c) with
  | (Ret r, e) => goes c reads (Running x) (with_engine e c) reads (Running (Done r))
  | (Panic, e) => goes c reads (Running x) (with_engine e c) reads Crashed
  | (OutOfFuel, _) => True
  end.
Proof.
  revert c. induction x as [r|call next IH]; intros c.
  - destruct c. apply goes_refl.
  - cbn [run_prog]. unfold mbind, M_bind. destruct (run_call call (cn_engine c)) as [[r| |] e] eqn:Ec.
    + specialize (IH r (with_engine e c)). cbn [cn_engine with_engine] in IH.
      destruct (run_prog (next r) e) as [[r'| |] e']; [| |done];
        (eapply goes_then; [|exact IH]; cbn; rewrite Ec; reflexivity).
    + apply (goes_step _ _ _ _ _ _ (Some (Called call))). cbn. by rewrite Ec.
    + done.
Qed.

Lemma loading_goes c reads loads seen args :
  goes c reads (Loading loads seen args) c reads
    (Running (dispatch_command args (foldl (fun seen x => load_metric x (cn_metrics c) seen) seen loads)
       (clock w (pred (cn_served c))))).
Proof.
  revert seen. induction loads as [|x loads IH]; intros seen.
  - by apply (goes_step _ _ _ _ _ _ None).
  - eapply goes_then; [|apply IH]. reflexivity.
Qed.

Lemma dispatching_goes c reads args :
  goes c reads (Dispatching args) c reads
    (Running (dispatch_command args (cn_metrics c) (clock w (pred (cn_served c))))).
Proof.
  destruct (is_info args) eqn:Hi.
  - eapply goes_then; [cbn; unfold dispatch_step; rewrite Hi; reflexivity|].
    pose proof (loading_goes c reads (snapshot_loads (cn_metrics c)) (blank (cn_metrics c)) args) as Hl.
    by rewrite snapshot_loads_ok in Hl.
  - apply (goes_step _ _ _ _ _ _ None). cbn. unfold dispatch_step. rewrite Hi.
    by rewrite (dispatch_blind args (blank (cn_metrics c)) (cn_metrics c)).
Qed.

(** ** Commands *)

(** After a response: back to the parser, or at the end when it was not written. *)
Definition served_next (reads : list (result bytes io_error)) (sent : bool) (reads' : list (result bytes io_error)) pc' : Prop :=
  reads' = reads /\ if sent then pc' = Parsing else exists r, pc' = Ended IoError (Some r).

(** A request counted in, with its number taken. *)
Definition take_up c : Conn E :=
  mkConn (cn_parser c) (cn_buf c) (cn_engine c) (cn_metrics c) (cn_out c) (S (cn_served c)).

Lemma ends_arrives c reads latency (next : task_pc) :
  arrives c reads (Recording (end_writes (lh_bounds_us (mt_latency (cn_metrics c))) latency) next)
    ((_ ← on_metrics (record_request_end latency); mret true) c)
    (fun (b : bool) reads' pc' => b = true /\ reads' = reads /\ pc' = next).
Proof.
  pose proof (recording_goes c reads (end_writes (lh_bounds_us (mt_latency (cn_metrics c))) latency) next) as Hg.
  rewrite end_writes_ok in Hg. unfold mbind, M_bind, on_metrics, zoom.
  destruct (record_request_end latency (cn_metrics c)) as [[[]| |] m]; cbn in *; [|by eexists|done].
  by exists reads, next.
Qed.

(** The write of a response and what follows it. *)
Lemma sending_arrives c reads i r closing :
  i = pred (cn_served c) ->
  arrives c reads (Sending r closing)
    ((sent ← write_all w i r;
      if sent : bool then _ ← on_metrics (record_request_end (elapsed w i)); mret true else mret false) c)
    (fun (sent : bool) reads' pc' => reads' = reads /\
       if sent then pc' = (if closing then Ended Finished None else Parsing) else pc' = Ended IoError (Some r)).
Proof.
  intros ->. set (i := pred (cn_served c)). destruct (write_ok w i) eqn:Hw.
  - set (c1 := mkConn (cn_parser c) (cn_buf c) (cn_engine c) (cn_metrics c) (cn_out c ++ [r]) (cn_served c)).
    rewrite (bind_run _ _ c true c1) by (unfold write_all; by rewrite Hw).
    eapply arrives_goes; [apply (goes_step _ _ _ c1 reads (Recording (end_writes (lh_bounds_us (mt_latency (cn_metrics c1))) (elapsed w i))
      (if closing then Ended Finished None else Parsing)) None)|].
    + cbn. unfold send_step, tk_request. cbn. fold i. by rewrite Hw.
    + eapply arrives_mono; [apply ends_arrives|]. by intros b r1 pc1 (-> & -> & ->).
  - rewrite (bind_run _ _ c false c) by (unfold write_all; by rewrite Hw).
    exists reads, (Ended IoError (Some r)). split; [|done].
    apply (goes_step _ _ _ _ _ _ None). cbn. unfold send_step, tk_request. cbn. fold i. by rewrite Hw.
Qed.

Lemma error_goes c reads r next :
  goes c reads (Recording (error_writes r) next)
    (with_metrics (if is_error_response r then record_error (cn_metrics c) else cn_metrics c) c) reads next.
Proof. pose proof (recording_goes c reads (error_writes r) next) as Hg. by rewrite error_writes_ok in Hg. Qed.

Lemma serve_command_arrives c reads args :
  arrives (take_up c) reads (Recording start_writes (Dispatching args)) (serve_command w args c) (served_next reads).
Proof.
  set (c1 := with_metrics (record_request_start (cn_metrics c)) (take_up c)). set (i := cn_served c).
  pose proof (recording_goes (take_up c) reads start_writes (Dispatching args)) as Hg. rewrite start_writes_ok in Hg. cbn in Hg.
  eapply arrives_goes; [exact Hg|]. clear Hg. fold c1. eapply arrives_goes; [apply dispatching_goes|].
  pose proof (running_goes c1 reads (dispatch_command args (cn_metrics c1) (clock w i))) as Hr.
  rewrite (dispatch_does args (cn_metrics c1) (clock w i)) in Hr. cbn in Hr. unfold serve_command.
  rewrite (bind_run next_request _ c i (take_up c)) by done.
  erewrite (bind_run (on_metrics _) _ _ tt c1) by done. erewrite (bind_run (gets cn_metrics)) by done.
  unfold mbind at 1, M_bind at 1, on_engine, zoom. cbn in *. change (cn_engine c) with (cn_engine c1) in *.
  destruct (dispatch_on E args (record_request_start (cn_metrics c)) (clock w i) (cn_engine c1)) as [[r| |] e];
    [|by exists reads|done].
  eapply arrives_goes; [exact Hr|]. clear Hr. set (c2 := with_engine e c1).
  eapply arrives_goes; [by apply (goes_step c2 reads _ c2 reads (Recording (error_writes r) (Sending r false)) None)|].
  eapply arrives_goes; [apply error_goes|].
  set (c3 := with_metrics (if is_error_response r then record_error (cn_metrics c2) else cn_metrics c2) c2).
  erewrite (bind_run _ _ _ tt c3) by (unfold c3; by destruct (is_error_response r)).
  eapply arrives_mono; [by apply (sending_arrives c3 reads i r false)|].
  intros sent r1 pc1 [-> Hpc]. split; [done|]. destruct sent; [done|by exists r].
Qed.

Lemma serve_protocol_error_arrives c reads :
  let r := resp_error (bs "protocol error") in
  arrives (take_up c) reads (Recording (start_writes ++ error_writes r) (Sending r true)) (serve_protocol_error w c)
    (fun sent reads' pc' => reads' = reads /\ if sent then pc' = Ended Finished None else exists r, pc' = Ended IoError (Some r)).
Proof.
  intros r. set (i := cn_served c).
  set (c1 := with_metrics (record_error (record_request_start (cn_metrics c))) (take_up c)).
  pose proof (recording_goes (take_up c) reads (start_writes ++ error_writes r) (Sending r true)) as Hg.
  cbn in Hg. eapply arrives_goes; [exact Hg|]. clear Hg. change (arrives c1 reads (Sending r true) (serve_protocol_error w c)
    (fun sent reads' pc' => reads' = reads /\ if sent then pc' = Ended Finished None else exists r, pc' = Ended IoError (Some r))).
  unfold serve_protocol_error. rewrite (bind_run next_request _ c i (take_up c)) by done.
  erewrite (bind_run (on_metrics _)) by done. erewrite (bind_run (on_metrics _) _ _ tt c1) by done.
  eapply arrives_mono; [by apply (sending_arrives c1 reads i r true)|].
  intros sent r1 pc1 [-> Hpc]. split; [done|]. destruct sent; [done|by exists r].
Qed.

(** ** The loops *)

Definition drained_next (reads : list (result bytes io_error)) (d : drained) (reads' : list (result bytes io_error)) pc' : Prop :=
  reads' = reads /\
  match d with
  | NeedMore => pc' = Reading
  | Closed => pc' = Ended Finished None
  | WriteFailed => exists r, pc' = Ended IoError (Some r)
  end.

Ltac parse_with Ep := cbn -[parse resp_error]; unfold parse_step; cbn -[parse resp_error]; rewrite Ep.

Lemma drain_loop_arrives fuel c reads :
  arrives c reads Parsing (drain_loop p w fuel c) (drained_next reads).
Proof.
  revert c. induction fuel as [|f IH]; intros c; [done|]. cbn [drain_loop].
  unfold mbind at 1, M_bind at 1, on_parser, zoom. destruct (parse p (cn_parser c, cn_buf c)) as [o [q b]] eqn:Ep.
  set (c1 := mkConn q b (cn_engine c) (cn_metrics c) (cn_out c) (cn_served c)).
  destruct o as [[[args|]|[]]| |]; cbn [fst snd]; fold c1.
  - eapply arrives_goes; [apply (goes_step _ _ _ (take_up c1) reads (Recording start_writes (Dispatching args)) None)|].
    { by parse_with Ep. }
    eapply arrives_bind; [apply serve_command_arrives|]. intros sent c2 r2 pc2 [-> Hpc]. destruct sent; subst.
    + apply IH.
    + eexists _, _. split; [apply goes_refl|done].
  - exists reads, Reading. split; [|done]. apply (goes_step _ _ _ _ _ _ None). by parse_with Ep.
  - set (r := resp_error (bs "protocol error")).
    eapply arrives_goes; [apply (goes_step _ _ _ (take_up c1) reads
      (Recording (start_writes ++ error_writes r) (Sending r true)) None)|].
    { by parse_with Ep. }
    eapply arrives_bind; [apply serve_protocol_error_arrives|]. intros sent c2 r2 pc2 [-> Hpc].
    exists reads, pc2. split; [apply goes_refl|]. by destruct sent.
  - exists reads. apply (goes_step _ _ _ _ _ _ None). by parse_with Ep.
  - done.
Qed.

(** Where a task is when its connection has ended that way, or waits. *)
Definition conn_next (o : conn_end) (reads' : list (result bytes io_error)) pc' : Prop :=
  match o with
  | Waiting => reads' = [] /\ pc' = Reading
  | Finished => pc' = Ended Finished None
  | IoError => exists r, pc' = Ended IoError r
  end.

Lemma connection_arrives reads c :
  arrives c reads Reading (handle_connection_with_metrics p w reads c) conn_next.
Proof.
  revert c. induction reads as [|[chunk|err] reads IH]; intros c; cbn [handle_connection_with_metrics].
  - exists [], Reading. split; [apply goes_refl|done].
  - set (c1 := mkConn (cn_parser c) (cn_buf c ++ chunk) (cn_engine c) (cn_metrics c) (cn_out c) (cn_served c)).
    rewrite (bind_run (read_buf chunk) _ c tt c1) by done.
    eapply arrives_goes; [apply (goes_step _ _ _ c1 reads (if zlen chunk =? 0 then Ended Finished None else Parsing) None); done|].
    destruct (zlen chunk =? 0); [eexists _, _; split; [apply goes_refl|done]|].
    eapply arrives_bind; [apply drain_loop_arrives|]. intros d c2 r2 pc2 [-> Hpc]. destruct d; subst.
    + apply IH.
    + eexists _, _. split; [apply goes_refl|done].
    + destruct Hpc as [r ->]. eexists _, _. split; [apply goes_refl|by exists (Some r)].
  - exists reads, (Ended IoError None). split; [by apply (goes_step _ _ _ _ _ _ None)|by exists None].
Qed.

End alone.
