(* ===== verification/ServerTasksMetrics.v ===== *)
(** * The metrics of a server with many connections

    Tasks update the counters one at a time and in any order.  What has been
    written, with what tasks are about to write, is what their requests amount to;
    the counters are the tally of what has been written. *)

From S2P Require Import Prelude Decimal HkvError Engine KVEngine RespParser Metrics ClientResp Server ServerTasks.
From S2P Require Import ServerSession ServerTasksAlone.

(** ** The tally of a list of updates *)

Definition weight (f : metric_write -> Z) (ws : list metric_write) : Z := zsum (f <$> ws).

Definition requests_w (x : metric_write) : Z := match x with AddRequests => 1 | _ => 0 end.
Definition errors_w (x : metric_write) : Z := match x with AddErrors => 1 | _ => 0 end.
Definition inflight_w (x : metric_write) : Z := match x with AddInflight => 1 | SubInflight => -1 | _ => 0 end.
Definition samples_w (x : metric_write) : Z := match x with AddSamples => 1 | _ => 0 end.
Definition sum_w (x : metric_write) : Z := match x with AddSum micros => micros | _ => 0 end.
Definition max_w (x : metric_write) : Z := match x with MaxUs micros => micros | _ => 0 end.
Definition bucket_w (i : nat) (x : metric_write) : Z :=
  match x with AddBucket j => if decide (j = i) then 1 else 0 | _ => 0 end.

(** The metrics created at [now] with [bounds], after the updates [ws]. *)
Definition tally (bounds : list Z) (now : Z) (ws : list metric_write) : Metrics :=
  mkMetrics (wrap64 (weight requests_w ws)) (wrap64 (weight errors_w ws)) (wrap64 (weight inflight_w ws))
    (mkHistogram bounds ((fun i => wrap64 (weight (bucket_w i) ws)) <$> seq 0 (S (length bounds)))
      (wrap64 (weight sum_w ws)) (wrap64 (weight samples_w ws)) (foldr Z.max 0 (max_w <$> ws))) now.

(** An update that finds its bucket, with a measurement that is not negative. *)
Definition in_bounds (bounds : list Z) (x : metric_write) : Prop :=
  match x with AddBucket i => (i < S (length bounds))%nat | MaxUs micros => 0 <= micros | _ => True end.

Lemma weight_app f ws ws' : weight f (ws ++ ws') = weight f ws + weight f ws'.
Proof. unfold weight. by rewrite fmap_app, zsum_app. Qed.

Lemma weight_perm f ws ws' : ws ≡ₚ ws' -> weight f ws = weight f ws'.
Proof. unfold weight. induction 1; rewrite ?fmap_cons; cbn [foldr]; lia. Qed.

Lemma weight_one f x : weight f [x] = f x.
Proof. unfold weight. simpl. lia. Qed.

Lemma max_perm l l' : l ≡ₚ l' -> foldr Z.max 0 l = foldr Z.max 0 l'.
Proof. induction 1; simpl; lia. Qed.

Lemma max_nonneg l : 0 <= foldr Z.max 0 l.
Proof. induction l; simpl; lia. Qed.

Lemma tally_perm bounds now ws ws' : ws ≡ₚ ws' -> tally bounds now ws = tally bounds now ws'.
Proof.
  intros Hp. unfold tally. rewrite !(weight_perm _ _ _ Hp).
  rewrite (max_perm (max_w <$> ws) (max_w <$> ws')) by by apply fmap_Permutation. do 2 f_equal.
  apply list_fmap_ext. intros i x _. by rewrite (weight_perm _ _ _ Hp).
Qed.

Lemma tally_nil bounds now : tally bounds now [] = with_latency_buckets bounds now.
Proof.
  unfold tally, with_latency_buckets, histogram_new. do 2 f_equal. generalize 0%nat as k.
  induction (S (length bounds)) as [|n IH]; intros k; [done|]. simpl. by rewrite <- (IH (S k)).
Qed.

Lemma tally_write bounds now ws x :
  in_bounds bounds x -> write_metric x (tally bounds now ws) = (Ret tt, tally bounds now (ws ++ [x])).
Proof.
  intros Hx. unfold tally. rewrite !weight_app, !weight_one, fmap_app. cbn [fmap list_fmap].
  assert (Hbuckets : forall w, (forall i, bucket_w i w = 0) ->
    ((fun i => wrap64 (weight (bucket_w i) (ws ++ [w]))) <$> seq 0 (S (length bounds))) =
    ((fun i => wrap64 (weight (bucket_w i) ws)) <$> seq 0 (S (length bounds)))).
  { intros w Hw. apply list_fmap_ext. intros i y _. by rewrite weight_app, weight_one, Hw, Z.add_0_r. }
  assert (Hmax : max_w x = 0 -> foldr Z.max 0 ((max_w <$> ws) ++ [max_w x]) = foldr Z.max 0 (max_w <$> ws)).
  { intros ->. rewrite foldr_max_snoc by lia. pose proof (max_nonneg (max_w <$> ws)). lia. }
  destruct x as [| | | | |micros|micros|i]; cbn in Hx; unfold write_metric, on_latency, wrapping_add, wrapping_sub;
    cbn [mt_requests_total mt_errors_total mt_inflight mt_latency mt_started_at lh_bounds_us lh_buckets lh_sum_us
      lh_samples lh_max_us requests_w errors_w inflight_w samples_w sum_w];
    rewrite ?(wrap64_add_l _ 1), ?wrap64_add_l, ?wrap64_sub_l, ?Z.add_0_r;
    try (rewrite Hbuckets by done; rewrite Hmax by done; reflexivity).
  - rewrite Hbuckets by done. unfold update_max. cbn [max_w]. rewrite foldr_max_snoc by done. do 3 f_equal.
    destruct (Z.ltb_spec (foldr Z.max 0 (max_w <$> ws)) micros); lia.
  - rewrite list_lookup_fmap, lookup_seq_lt by done. cbn [fmap option_fmap option_map]. rewrite Hmax by done.
    do 3 f_equal. apply list_eq. intros j. rewrite list_lookup_fmap.
    destruct (decide (j < S (length bounds))%nat) as [Hj|Hj].
    + rewrite lookup_seq_lt by done. cbn [fmap option_fmap option_map].
      rewrite !Nat.add_0_l, weight_app, weight_one. cbn [bucket_w]. destruct (decide (i = j)) as [->|Hne].
      * rewrite list_lookup_insert_eq by (rewrite length_fmap, length_seq; done). by rewrite wrap64_add_l.
      * rewrite list_lookup_insert_ne by done. rewrite list_lookup_fmap, lookup_seq_lt by done.
        cbn [fmap option_fmap option_map]. by rewrite Z.add_0_r.
    + rewrite lookup_seq_ge by lia. apply lookup_ge_None. rewrite length_insert, length_fmap, length_seq. lia.
Qed.

(** ** What a task has to write *)

(** The updates a task still has to make before it goes on. *)
Definition pending (t : task) : list metric_write := match tk_pc t with Recording ws _ => ws | _ => [] end.

(** The response of the current request, once it is known and not yet written. *)
Fixpoint unsent (pc : task_pc) : option bytes :=
  match pc with
  | Sending r _ | Ended _ (Some r) => Some r
  | Recording _ next => unsent next
  | _ => None
  end.

(** Whether a request has been taken up and not been answered. *)
Fixpoint in_request (pc : task_pc) : option bool :=
  match pc with
  | Reading | Parsing | Ended _ None => Some false
  | Dispatching _ | Loading _ _ _ | Running _ | Sending _ _ | Ended _ (Some _) => Some true
  | Recording _ (Recording _ _) => None
  | Recording _ next => in_request next
  | Crashed => None
  end.

Definition opt_errors (r : option bytes) : list metric_write :=
  match r with Some r => error_writes r | None => [] end.

(** The updates of one answered request, and of all a task has taken up. *)
Definition request_writes (bounds : list Z) (r : bytes) (latency : Z) : list metric_write :=
  start_writes ++ error_writes r ++ end_writes bounds latency.

Definition latencies (t : task) : list Z := elapsed (tk_world t) <$> seq 0 (length (tk_out t)).

Definition planned (bounds : list Z) (t : task) : list metric_write :=
  mjoin (zip_with (request_writes bounds) (tk_out t) (latencies t)) ++
  (if decide (tk_served t = length (tk_out t)) then [] else start_writes ++ opt_errors (unsent (tk_pc t))).

Record task_ok (bounds : list Z) (t : task) : Prop := mkTaskOk {
  to_served : (length (tk_out t) <= tk_served t <= S (length (tk_out t)))%nat;
  to_request : match tk_pc t with
    | Crashed => True
    | pc => in_request pc = Some (negb (bool_decide (tk_served t = length (tk_out t))))
    end;
  to_bounds : Forall (in_bounds bounds) (pending t)
}.

(** One step adds the same updates to what is planned and to what is pending, or
    makes one that was pending. *)
Inductive writes_step (bounds : list Z) (t t' : task) : list metric_write -> Prop :=
| ws_plan ws : pending t' ≡ₚ pending t ++ ws -> planned bounds t' ≡ₚ planned bounds t ++ ws -> writes_step bounds t t' []
| ws_write x : pending t = x :: pending t' -> planned bounds t' = planned bounds t -> writes_step bounds t t' [x].

Lemma micros_nonneg l : 0 <= micros_of l.
Proof. pose proof (wrap64_range (l / 1000)). unfold micros_of. lia. Qed.

Lemma end_in_bounds bounds l : Forall (in_bounds bounds) (end_writes bounds l).
Proof.
  unfold end_writes. cbn zeta. rewrite !Forall_cons. split_and!; try done; [apply micros_nonneg|apply bucket_of_lt].
Qed.

Lemma error_in_bounds bounds r : Forall (in_bounds bounds) (error_writes r).
Proof. unfold error_writes. destruct (is_error_response r); repeat constructor. Qed.

Lemma planned_same bounds t t' :
  tk_world t' = tk_world t -> tk_out t' = tk_out t -> tk_served t' = tk_served t -> unsent (tk_pc t') = unsent (tk_pc t) ->
  planned bounds t' = planned bounds t.
Proof. intros Hw Ho Hs Hu. unfold planned, latencies. by rewrite Hw, Ho, Hs, Hu. Qed.

(** Nothing to do with the metrics. *)
Lemma step_quiet bounds t t' :
  tk_world t' = tk_world t -> tk_out t' = tk_out t -> tk_served t' = tk_served t -> unsent (tk_pc t') = unsent (tk_pc t) ->
  pending t = [] -> pending t' = [] -> writes_step bounds t t' [].
Proof.
  intros Hw Ho Hs Hu Hp Hp'. apply (ws_plan _ _ _ []); [by rewrite Hp, Hp'|]. by rewrite (planned_same _ t t'), app_nil_r.
Qed.

(** ** Every step of a task *)

Section task_steps.
Context {E : Type} `{KVEngine E} `{FloatFormat} `{BytesMut} (p : profile).

(** What a step does to the tally [done]. *)
Definition step_ok (bounds : list Z) (now : Z) (done : list metric_write) (t : task)
    (r : option (E * Metrics * task * option server_event)) : Prop :=
  match r with
  | None => True
  | Some (_, m', t', _) =>
      exists ws, task_ok bounds t' /\ writes_step bounds t t' ws /\ m' = tally bounds now (done ++ ws)
  end.

(** A step that leaves the metrics alone. *)
Lemma local_ok bounds now done e t t' ev :
  task_ok bounds t' /\ writes_step bounds t t' [] -> step_ok bounds now done t (Some (e, tally bounds now done, t', ev)).
Proof. intros [Hok Hw]. exists []. split; [done|]. split; [done|]. by rewrite app_nil_r. Qed.

(** On to another point of the same request. *)
Lemma goto_ok bounds t pc :
  task_ok bounds t -> pending t = [] -> in_request pc = in_request (tk_pc t) -> tk_pc t ≠ Crashed -> pc ≠ Crashed ->
  pending (goto pc t) = [] -> unsent pc = unsent (tk_pc t) ->
  task_ok bounds (goto pc t) /\ writes_step bounds t (goto pc t) [].
Proof.
  intros [Hs Hr Hb] Hp Hi Hc Hc' Hp' Hu. split; [split; [done| |by rewrite Hp']|by apply step_quiet].
  assert (Hr' : in_request (tk_pc t) = Some (negb (bool_decide (tk_served t = length (tk_out t))))) by (destruct (tk_pc t); first [exact Hr | done]).
  rewrite <- Hi in Hr'. cbn [tk_pc goto tk_served tk_out].
  destruct pc; first [exact Hr' | done].
Qed.

Lemma planned_answered bounds t r :
  tk_served t = S (length (tk_out t)) -> unsent (tk_pc t) = Some r ->
  forall t', tk_world t' = tk_world t -> tk_out t' = tk_out t ++ [r] -> tk_served t' = tk_served t ->
  planned bounds t' ≡ₚ planned bounds t ++ end_writes bounds (elapsed (tk_world t) (tk_request t)).
Proof.
  intros Hs Hu t' Hw Ho Hs'. unfold planned, latencies. rewrite Hw, Ho, Hs', Hu, Hs, length_app. cbn [length].
  rewrite (decide_True (P := S _ = _)) by lia. rewrite decide_False by lia. rewrite Nat.add_1_r, seq_S, fmap_app.
  rewrite zip_with_app by (by rewrite length_fmap, length_seq). rewrite join_app, app_nil_r. cbn.
  rewrite app_nil_r. unfold tk_request, request_writes. rewrite Hs. cbn. by rewrite <- !app_assoc.
Qed.

Lemma request_open bounds t : task_ok bounds t ->
  match in_request (tk_pc t) with
  | Some true => tk_served t = S (length (tk_out t))
  | Some false => tk_served t = length (tk_out t)
  | None => True
  end.
Proof.
  intros [Hs Hr _]. destruct (in_request (tk_pc t)) as [b|] eqn:Hb; [|done].
  assert (Hn : b = negb (bool_decide (tk_served t = length (tk_out t)))) by (destruct (tk_pc t); try done; congruence).
  rewrite Hn. case_bool_decide; simpl; lia.
Qed.

Lemma read_step_ok bounds t t' : task_ok bounds t -> tk_pc t = Reading -> read_step t = Some t' ->
  task_ok bounds t' /\ writes_step bounds t t' [].
Proof.
  intros [Hs Hr _] Hpc Ht. unfold read_step in Ht. rewrite Hpc in Hr.
  destruct (tk_reads t) as [|[chunk|err] reads]; [done|injection Ht as <-..].
  - destruct (zlen chunk =? 0); (split; [split; [done|done|constructor]|]);
      apply step_quiet; unfold pending; rewrite ?Hpc; done.
  - split; [split; [done|done|constructor]|]. apply step_quiet; unfold pending; rewrite ?Hpc; done.
Qed.

Lemma parse_step_ok bounds t : task_ok bounds t -> tk_pc t = Parsing ->
  task_ok bounds (parse_step p t) /\ writes_step bounds t (parse_step p t) [].
Proof.
  intros Hok Hpc. pose proof (request_open _ _ Hok) as Hopen. destruct Hok as [Hs Hr _]. rewrite Hpc in Hr, Hopen. cbn in Hopen.
  assert (Hplan : forall q b r next, pending (parsed q b (S (tk_served t)) (Recording (start_writes ++ opt_errors r) next) t) =
      start_writes ++ opt_errors r -> unsent (Recording (start_writes ++ opt_errors r) next) = r ->
      writes_step bounds t (parsed q b (S (tk_served t)) (Recording (start_writes ++ opt_errors r) next) t) []).
  { intros q b r next Hp Hu. apply (ws_plan _ _ _ (start_writes ++ opt_errors r)).
    - rewrite Hp. unfold pending. by rewrite Hpc.
    - unfold planned, latencies. cbn [parsed tk_world tk_out tk_served tk_pc]. rewrite Hu, Hopen.
      rewrite (decide_True (P := length _ = length _)) by done. rewrite decide_False by lia. by rewrite app_nil_r. }
  unfold parse_step. destruct (parse p (tk_parser t, tk_buf t)) as [[[[args|]|[]]| |] [q b]].
  - split; [|exact (Hplan q b None (Dispatching args) eq_refl eq_refl)].
    split; cbn; [lia|rewrite bool_decide_eq_false_2 by lia; done|repeat constructor].
  - split; [split; cbn; [lia|by rewrite bool_decide_eq_true_2|constructor]|].
    apply step_quiet; unfold pending; rewrite ?Hpc; done.
  - split; [|exact (Hplan q b (Some (resp_error (bs "protocol error"))) (Sending (resp_error (bs "protocol error")) true) eq_refl eq_refl)].
    split; cbn -[resp_error]; [lia|rewrite bool_decide_eq_false_2 by lia; done|].
    repeat apply Forall_cons_2; done.
  - split; [split; cbn; [lia|done|constructor]|]. apply step_quiet; unfold pending; rewrite ?Hpc; done.
  - split; [split; cbn; [lia|done|constructor]|]. apply step_quiet; unfold pending; rewrite ?Hpc; done.
Qed.

Lemma send_step_ok bounds now ws r closing t : task_ok bounds t -> tk_pc t = Sending r closing ->
  let t' := send_step r closing (tally bounds now ws) t in task_ok bounds t' /\ writes_step bounds t t' [].
Proof.
  intros Hok Hpc. pose proof (request_open _ _ Hok) as Hopen. rewrite Hpc in Hopen. cbn in Hopen.
  destruct Hok as [Hs Hr _]. rewrite Hpc in Hr. unfold send_step. cbn [mt_latency tally lh_bounds_us].
  destruct (write_ok (tk_world t) (tk_request t)).
  - split.
    + split; cbn -[end_writes]; rewrite ?length_app; cbn [length]; [lia| |apply end_in_bounds].
      rewrite bool_decide_eq_true_2 by lia. by destruct closing.
    + apply (ws_plan _ _ _ (end_writes bounds (elapsed (tk_world t) (tk_request t)))).
      * unfold pending. by rewrite Hpc.
      * by apply (planned_answered _ _ r Hopen); [rewrite Hpc|..].
  - split; [split; cbn; [lia|exact Hr|constructor]|].
    apply step_quiet; unfold pending, goto; cbn; rewrite ?Hpc; done.
Qed.

Lemma recording_ok bounds now done e t x ws next :
  task_ok bounds t -> tk_pc t = Recording (x :: ws) next ->
  step_ok bounds now done t
    (let '(o, m') := write_metric x (tally bounds now done) in
     Some (e, m', goto (match o with Ret _ => Recording ws next | _ => Crashed end) t, None)).
Proof.
  intros [Hs Hr Hb] Hpc. unfold pending in Hb. rewrite Hpc in Hb. apply Forall_cons in Hb as [Hx Hb].
  rewrite tally_write by done. exists [x]. split; [|split; [|done]].
  - split; [done|rewrite Hpc in Hr; exact Hr|exact Hb].
  - apply ws_write; [unfold pending; by rewrite Hpc|]. apply planned_same; try done. cbn [tk_pc goto]. by rewrite Hpc.
Qed.

Lemma responded_ok bounds t r :
  task_ok bounds t -> tk_pc t = Running (Done r) ->
  let t' := goto (Recording (error_writes r) (Sending r false)) t in task_ok bounds t' /\ writes_step bounds t t' [].
Proof.
  intros Hok Hpc. pose proof (request_open _ _ Hok) as Hopen. rewrite Hpc in Hopen. cbn in Hopen.
  destruct Hok as [Hs Hr _]. rewrite Hpc in Hr. split.
  - split; [done|exact Hr|apply error_in_bounds].
  - apply (ws_plan _ _ _ (error_writes r)); [unfold pending; by rewrite Hpc|]. unfold planned, latencies.
    cbn [goto tk_world tk_out tk_served tk_pc unsent]. rewrite Hpc. rewrite !decide_False by lia. cbn [unsent opt_errors].
    by rewrite app_nil_r, app_assoc.
Qed.

Lemma crashed_ok bounds t x : task_ok bounds t -> tk_pc t = Running x ->
  task_ok bounds (goto Crashed t) /\ writes_step bounds t (goto Crashed t) [].
Proof.
  intros [Hs Hr _] Hpc. split; [split; [done|done|constructor]|].
  apply step_quiet; unfold pending; cbn; rewrite ?Hpc; done.
Qed.

Lemma task_step_ok bounds now done e t :
  task_ok bounds t -> step_ok bounds now done t (task_step p e (tally bounds now done) t).
Proof.
  intros Hok. unfold task_step. destruct (tk_pc t) as [| |[|x ws] next|args|[|x loads] seen args|[r|c next]|r closing|r u|] eqn:Hpc; try done.
  - destruct (read_step t) as [t'|] eqn:Ht; [|done]. by apply local_ok, read_step_ok.
  - by apply local_ok, parse_step_ok.
  - apply local_ok. destruct Hok as [Hs Hr Hb]. rewrite Hpc in Hr. destruct next; try done;
      (split; [split; [done|first [exact Hr|done]|exact (Forall_nil_2 _)]|]; apply step_quiet; unfold pending; cbn; rewrite ?Hpc; done).
  - by apply recording_ok.
  - apply local_ok. unfold dispatch_step. apply goto_ok; rewrite ?Hpc; try done; unfold pending; rewrite ?Hpc;
      by destruct (is_info args).
  - apply local_ok, goto_ok; unfold pending; rewrite ?Hpc; done.
  - apply local_ok, goto_ok; unfold pending; rewrite ?Hpc; done.
  - by apply local_ok, responded_ok.
  - destruct (run_call c e) as [[r| |] e'].
    + apply local_ok, goto_ok; unfold pending; rewrite ?Hpc; done.
    + by eapply local_ok, crashed_ok.
    + by eapply local_ok, crashed_ok.
  - by apply local_ok, send_step_ok.
Qed.

End task_steps.

(** ** The process *)

Section process.
Context {E : Type} `{KVEngine E} `{Sweeper E} `{FloatFormat} `{BytesMut} (p : profile) (bounds : list Z) (now : Z).

(** What has been written is what the tasks have planned but for what is pending. *)
Definition metrics_inv (s : server E) : Prop := exists written,
  sv_metrics s = tally bounds now written /\
  written ++ mjoin (pending <$> sv_tasks s) ≡ₚ mjoin (planned bounds <$> sv_tasks s) /\
  Forall (task_ok bounds) (sv_tasks s).

Lemma join_insert_perm {A : Type} (f : task -> list A) ts a t t' l :
  ts !! a = Some t -> mjoin (f <$> <[a := t']> ts) ++ f t ++ l ≡ₚ f t' ++ mjoin (f <$> ts) ++ l.
Proof.
  intros Ha. pose proof (lookup_lt_Some _ _ _ Ha). rewrite <- (take_drop_middle ts a t Ha) at 2.
  rewrite insert_take_drop by done. rewrite !fmap_app, !fmap_cons, !join_app. cbn [mjoin list_join].
  set (x := mjoin (f <$> take a ts)). set (y := mjoin (f <$> drop (S a) ts)). solve_Permutation.
Qed.

Lemma task_new_ok x : task_ok bounds (task_new x).
Proof. split; [cbn; lia|done|constructor]. Qed.

Lemma server_step_inv x s s' ev : metrics_inv s -> server_step p x s = Some (s', ev) -> metrics_inv s'.
Proof.
  intros (written & Hm & Hp & Hok) Hs. destruct x as [|j t0|a]; cbn in Hs.
  - destruct (accept_step s) as [s1|] eqn:Ha; [|done]. simplify_eq/=. unfold accept_step in Ha.
    destruct (sv_exit s), (sv_incoming s) as [|[x|err] rest]; simplify_eq/=; exists written; cbn.
    + split; [done|]. rewrite !fmap_app, !join_app. cbn. split; [by rewrite !app_nil_r|].
      apply Forall_app. split; [done|]. constructor; [apply task_new_ok|constructor].
    + done.
  - destruct (kv_sweep j t0 (sv_engine s)) as [[n| |] e]; simplify_eq/=. by exists written.
  - destruct (sv_tasks s !! a) as [t|] eqn:Ha; [|done]. rewrite Hm in Hs.
    pose proof (task_step_ok p bounds now written (sv_engine s) t (Forall_lookup_1 _ _ _ _ Hok Ha)) as Hstep.
    destruct (task_step p (sv_engine s) (tally bounds now written) t) as [[[[e' m'] t'] ev']|]; [|done].
    destruct Hstep as (ws & Hok' & Hws & ->). simplify_eq/=. exists (written ++ ws). cbn.
    split; [done|]. split; [|by apply Forall_insert].
    pose proof (join_insert_perm pending _ a t t' [] Ha) as Hpe.
    pose proof (join_insert_perm (planned bounds) _ a t t' [] Ha) as Hpl. rewrite !app_nil_r in Hpe, Hpl.
    destruct Hws as [ws Ep El|x Ep El].
    + assert (Hpe' : mjoin (pending <$> <[a:=t']> (sv_tasks s)) ≡ₚ ws ++ mjoin (pending <$> sv_tasks s)).
      { apply (Permutation_app_inv_r (pending t)). rewrite Hpe, Ep. solve_Permutation. }
      assert (Hpl' : mjoin (planned bounds <$> <[a:=t']> (sv_tasks s)) ≡ₚ ws ++ mjoin (planned bounds <$> sv_tasks s)).
      { apply (Permutation_app_inv_r (planned bounds t)). rewrite Hpl, El. solve_Permutation. }
      rewrite Hpe', Hpl', <- Hp. solve_Permutation.
    + rewrite El, (Permutation_app_comm (planned bounds t)) in Hpl. apply Permutation_app_inv_r in Hpl. rewrite Hpl, <- Hp.
      rewrite <- app_assoc. apply Permutation_app_head. apply (Permutation_app_inv_r (pending t')).
      rewrite Ep in Hpe. etransitivity; [|rewrite Permutation_app_comm; exact Hpe]. solve_Permutation.
Qed.

Lemma run_server_inv sched s h : metrics_inv s -> metrics_inv (run_server p sched s h).1.
Proof.
  revert s h. induction sched as [|x sched IH]; intros s h Hs; [done|]. simpl.
  destruct (server_step p x s) as [[s' [ev|]]|] eqn:Ex; apply IH; [by eapply server_step_inv..|done].
Qed.

Lemma server_start_inv (e : E) incoming : metrics_inv (server_start e (with_latency_buckets bounds now) incoming).
Proof. exists []. split; [by rewrite tally_nil|]. split; [done|constructor]. Qed.

End process.

(** ** What tasks have planned, in numbers *)

Definition errors_of (t : task) : Z :=
  error_count (tk_out t) + match unsent (tk_pc t) with Some r => error_count [r] | None => 0 end.

Lemma weight_join {A : Type} f (g : A -> list metric_write) (l : list A) :
  weight f (mjoin (g <$> l)) = zsum ((fun x => weight f (g x)) <$> l).
Proof. induction l as [|x l IH]; [done|]. rewrite !fmap_cons. change (mjoin (?x :: ?ls)) with (x ++ mjoin ls). rewrite weight_app, IH. done. Qed.

(** Of answered requests. *)
Lemma weight_answered f bounds rs ls :
  length rs = length ls ->
  weight f (mjoin (zip_with (request_writes bounds) rs ls)) =
  zlen rs * weight f start_writes + zsum ((fun r => weight f (error_writes r)) <$> rs) +
  zsum ((fun l => weight f (end_writes bounds l)) <$> ls).
Proof.
  revert ls. induction rs as [|r rs IH]; intros [|l ls] Hlen; try done. cbn [zip_with].
  change (mjoin (?x :: ?ls)) with (x ++ mjoin ls). rewrite weight_app, IH by (simpl in Hlen; lia). unfold request_writes at 1. rewrite !weight_app, !fmap_cons, zlen_cons.
  cbn [foldr]. lia.
Qed.

Lemma weight_errors f r : weight f (error_writes r) = (if is_error_response r then f AddErrors else 0).
Proof. unfold error_writes. destruct (is_error_response r); [apply weight_one|done]. Qed.

Definition open_writes (t : task) : list metric_write :=
  if decide (tk_served t = length (tk_out t)) then [] else start_writes ++ opt_errors (unsent (tk_pc t)).

Lemma weight_planned f bounds t :
  weight f (planned bounds t) =
  zlen (tk_out t) * weight f start_writes + zsum ((fun r => weight f (error_writes r)) <$> tk_out t) +
  zsum ((fun l => weight f (end_writes bounds l)) <$> latencies t) + weight f (open_writes t).
Proof.
  unfold planned. rewrite weight_app, weight_answered; [done|]. unfold latencies. by rewrite length_fmap, length_seq.
Qed.

Lemma zsum_const {A : Type} (f : A -> Z) c (l : list A) : (forall x, f x = c) -> zsum (f <$> l) = zlen l * c.
Proof.
  intros Hf. induction l as [|x l IH]; [done|]. rewrite fmap_cons, zlen_cons. cbn [foldr]. rewrite IH, Hf. lia.
Qed.

Lemma zlen_latencies t : zlen (latencies t) = zlen (tk_out t).
Proof. unfold zlen, latencies. by rewrite length_fmap, length_seq. Qed.

Lemma weight_end f bounds l :
  weight f (end_writes bounds l) =
  f SubInflight + f AddSamples + f (AddSum (micros_of l)) + f (MaxUs (micros_of l)) + f (AddBucket (bucket_of bounds l)).
Proof. unfold weight, end_writes. cbn zeta. rewrite !fmap_cons. cbn [foldr fmap list_fmap]. lia. Qed.

Lemma open_served bounds t : task_ok bounds t ->
  Z.of_nat (tk_served t) = zlen (tk_out t) + (if decide (tk_served t = length (tk_out t)) then 0 else 1).
Proof. intros [Hs _ _]. unfold zlen. case_decide; lia. Qed.

Lemma planned_requests bounds t : task_ok bounds t -> weight requests_w (planned bounds t) = Z.of_nat (tk_served t).
Proof.
  intros Hok. rewrite weight_planned, (zsum_const _ 0), (zsum_const _ 0).
  - rewrite (open_served _ _ Hok). unfold open_writes. case_decide; [unfold weight; cbn; lia|].
    rewrite weight_app. destruct (unsent (tk_pc t)) as [r|]; [cbn [opt_errors]; rewrite weight_errors; destruct (is_error_response r)|];
      unfold weight; cbn; lia.
  - intros l. by rewrite weight_end.
  - intros r. rewrite weight_errors. by destruct (is_error_response r).
Qed.

Lemma planned_inflight bounds t : task_ok bounds t ->
  weight inflight_w (planned bounds t) = Z.of_nat (tk_served t) - zlen (tk_out t).
Proof.
  intros Hok. rewrite weight_planned, (zsum_const _ 0), (zsum_const _ (-1)), zlen_latencies.
  - rewrite (open_served _ _ Hok). unfold open_writes. case_decide; [unfold weight; cbn; lia|].
    rewrite weight_app. destruct (unsent (tk_pc t)) as [r|]; [cbn [opt_errors]; rewrite weight_errors; destruct (is_error_response r)|];
      unfold weight; cbn; lia.
  - intros l. by rewrite weight_end.
  - intros r. rewrite weight_errors. by destruct (is_error_response r).
Qed.

Lemma zsum_error_count rs : zsum ((fun r => if is_error_response r then 1 else 0) <$> rs) = error_count rs.
Proof.
  unfold error_count. induction rs as [|r rs IH]; [done|]. rewrite fmap_cons, filter_cons. cbn [foldr]. rewrite IH.
  case_decide as Hr; [rewrite Hr, zlen_cons; lia|]. by destruct (is_error_response r).
Qed.

Lemma unsent_open bounds t : task_ok bounds t -> tk_served t = length (tk_out t) -> unsent (tk_pc t) = None.
Proof.
  intros [_ Hr _] Hs. assert (Hu : forall pc, in_request pc = Some false -> unsent pc = None).
  { intros pc. induction pc as [| |ws next IH| | | | |r [u|]|]; try done. intros Hi. apply IH. by destruct next. }
  rewrite bool_decide_eq_true_2 in Hr by done. destruct (tk_pc t); try (by apply Hu); done.
Qed.

Lemma planned_errors bounds t : task_ok bounds t -> weight errors_w (planned bounds t) = errors_of t.
Proof.
  intros Hok. rewrite weight_planned, (zsum_const (fun l => weight errors_w (end_writes bounds l)) 0) by (intros l; by rewrite weight_end).
  rewrite (list_fmap_ext _ (fun r => if is_error_response r then 1 else 0)) by (intros i r _; apply weight_errors).
  rewrite zsum_error_count. unfold errors_of, open_writes. case_decide as Hs.
  - rewrite (unsent_open _ _ Hok Hs). unfold weight. cbn. lia.
  - rewrite weight_app. destruct (unsent (tk_pc t)) as [r|]; [|unfold weight; cbn; lia]. cbn [opt_errors].
    rewrite weight_errors, <- (zsum_error_count [r]). unfold weight. cbn. destruct (is_error_response r); lia.
Qed.

(** What only measurements add to. *)
Definition measured (f : metric_write -> Z) : Prop := f AddRequests = 0 /\ f AddInflight = 0 /\ f AddErrors = 0.

Lemma planned_measured f bounds ts : measured f ->
  weight f (mjoin (planned bounds <$> ts)) = zsum ((fun l => weight f (end_writes bounds l)) <$> mjoin (latencies <$> ts)).
Proof.
  intros (H1 & H2 & H3). rewrite weight_join. induction ts as [|t ts IH]; [done|].
  rewrite !fmap_cons. change (mjoin (?x :: ?ls)) with (x ++ mjoin ls). rewrite fmap_app, zsum_app. cbn [foldr]. rewrite IH.
  assert (Hst : weight f start_writes = 0) by (unfold weight; cbn; lia).
  assert (He : forall r, weight f (error_writes r) = 0) by (intros r; rewrite weight_errors, H3; by destruct (is_error_response r)).
  rewrite weight_planned, Hst, (zsum_const _ 0 (tk_out t)) by done.
  assert (Ho : weight f (open_writes t) = 0); [|lia]. unfold open_writes. case_decide; [done|]. rewrite weight_app, Hst.
  destruct (unsent (tk_pc t)); [cbn [opt_errors]; by rewrite He|done].
Qed.

Lemma max_planned bounds ts :
  foldr Z.max 0 (max_w <$> mjoin (planned bounds <$> ts)) = foldr Z.max 0 (micros_of <$> mjoin (latencies <$> ts)).
Proof.
  induction ts as [|t ts IH]; [done|]. rewrite !fmap_cons.
  change (mjoin (?x :: ?ls)) with (x ++ mjoin ls). rewrite !fmap_app, !foldr_app, IH.
  set (b := foldr Z.max 0 (micros_of <$> mjoin (latencies <$> ts))).
  assert (Hb : 0 <= b) by apply max_nonneg. unfold planned. rewrite fmap_app, foldr_app.
  assert (Ho : foldr Z.max b (max_w <$> open_writes t) = b).
  { unfold open_writes. case_decide; [done|]. destruct (unsent (tk_pc t)) as [r|]; cbn; [|lia].
    unfold error_writes. destruct (is_error_response r); cbn; lia. }
  unfold open_writes in Ho. rewrite Ho. clear Ho. assert (Hlen : length (tk_out t) = length (latencies t)).
  { unfold latencies. by rewrite length_fmap, length_seq. }
  revert Hlen. generalize (latencies t) as ls. induction (tk_out t) as [|r rs IHr]; intros [|l ls] Hlen; try done.
  cbn [zip_with]. change (mjoin (?x :: ?ls)) with (x ++ mjoin ls). rewrite fmap_app, foldr_app, IHr by (simpl in Hlen; lia).
  rewrite fmap_cons. cbn [foldr]. set (x := foldr Z.max b (micros_of <$> ls)).
  assert (Hx : 0 <= x).
  { unfold x. clear -Hb. induction ls as [|l ls IH]; [done|]. rewrite fmap_cons. cbn [foldr]. lia. }
  unfold request_writes, error_writes, end_writes. pose proof (micros_nonneg l).
  destruct (is_error_response r); cbn; lia.
Qed.

Lemma measured_holds bounds now ts :
  holds bounds (mjoin (latencies <$> ts)) (mt_latency (tally bounds now (mjoin (planned bounds <$> ts)))).
Proof.
  set (ls := mjoin (latencies <$> ts)).
  split; cbn [tally mt_latency lh_bounds_us lh_buckets lh_samples lh_sum_us lh_max_us]; [done|..].
  - apply list_fmap_ext. intros i j _. f_equal. rewrite planned_measured by done. fold ls. unfold in_bucket.
    induction ls as [|l ls' IH]; [done|]. rewrite fmap_cons, filter_cons. cbn [foldr]. rewrite IH, weight_end. cbn [bucket_w].
    case_decide; [rewrite zlen_cons|]; lia.
  - f_equal. rewrite planned_measured by done. fold ls. rewrite (zsum_const _ 1); [lia|]. intros l. by rewrite weight_end.
  - f_equal. rewrite planned_measured by done. f_equal. apply list_fmap_ext. intros i l _. rewrite weight_end. cbn. lia.
  - apply max_planned.
Qed.

(** With nothing pending, the counters are those of the requests of all tasks. *)
Lemma resting_metrics {E : Type} bounds now (s : server E) :
  metrics_inv bounds now s -> Forall (fun t => pending t = []) (sv_tasks s) ->
  let m := sv_metrics s in let ts := sv_tasks s in
  mt_requests_total m = wrap64 (zsum ((fun t => Z.of_nat (tk_served t)) <$> ts)) /\
  mt_errors_total m = wrap64 (zsum (errors_of <$> ts)) /\
  mt_inflight m = wrap64 (zsum ((fun t => Z.of_nat (tk_served t) - zlen (tk_out t)) <$> ts)) /\
  holds bounds (mjoin (latencies <$> ts)) (mt_latency m).
Proof.
  intros (written & Hm & Hp & Hok) Hrest. cbn zeta.
  assert (Hnone : mjoin (pending <$> sv_tasks s) = []).
  { clear -Hrest. induction Hrest as [|t ts Ht _ IH]; [done|]. rewrite fmap_cons, Ht. exact IH. }
  rewrite Hnone, app_nil_r in Hp. rewrite Hm, (tally_perm _ _ _ _ Hp).
  split_and!; [..|apply measured_holds]; cbn [tally mt_requests_total mt_errors_total mt_inflight]; f_equal;
    rewrite weight_join; f_equal; apply list_fmap_ext; intros i t Ht; pose proof (Forall_lookup_1 _ _ _ _ Hok Ht).
  - by apply planned_requests.
  - by apply planned_errors.
  - by apply planned_inflight.
Qed.
