(* ===== verification/ServerTasksIsolated.v ===== *)
(** * Connections that share no keys

    In a process with many connections and the sweeps of the expirer, a connection
    that never touches the keys of another one goes through the same states as it
    would alone on the abstract store: nobody can tell, however the tasks are
    interleaved, that the engine is shared. *)

From S2P Require Import Prelude Decimal HkvError Shard ShardInv ShardOps Engine LockedOps KVEngine EngineInv EngineSpec Eviction EngineTheorems.
From S2P Require Import Concurrent ConcurrentSteps RespParser Metrics ClientResp Server ServerSpec ServerTasks ServerTasksAlone.

(** ** Sweeps *)

(** What the server needs to know of a sweep at [now]: it drops expired entries, and
    nothing else. *)
Class SweeperLaws (E : Type) `{KVEngineLaws E} `{Sweeper E} :=
  law_sweep : forall e j now n e', kv_inv e -> kv_sweep j now e = (Ret n, e') ->
    kv_inv e' /\
    forall k, kv_store e' !! k = kv_store e !! k \/
      kv_store e' !! k = None /\ exists x, kv_store e !! k = Some x /\ value_expired now x = true.

#[global] Instance store_sweeper : Sweeper kv := {|
  kv_sweep _ now := fun m =>
    let m' := filter (fun kx : bytes * (bytes * option Z) => value_expired now kx.2 = false) m in
    (Ret (Z.of_nat (size m) - Z.of_nat (size m')), m')
|}.

Lemma lock_purge_store `{EngineEnv} j now e n e' :
  eng_inv e -> lock_shard j (purge_locked now) e = (Ret n, e') ->
  eng_inv e' /\ store e' = abs_sweep e j now (store e) /\ same_config e e'.
Proof.
  intros He Hrun. set (ess := entries <$> eng_shards e).
  assert (exists es, ess !! j = Some es) as [es Hes].
  { unfold lock_shard in Hrun. destruct (eng_shards e !! j) as [s|] eqn:Hs; [|done].
    exists (entries s). unfold ess. by rewrite list_lookup_fmap, Hs. }
  pose proof (lock_shard_ok j (purge_locked now) _ _ es
    (fun n x => n = expired_count now es /\ x = spec_purge now es) He Hes) as Hok. unfold runs in Hok. rewrite Hrun in Hok.
  destruct Hok as (x & [_ ->] & He' & Hc).
  - intros t0 l Hl. eapply runs_mono; [by apply purge_locked_ok|]. cbn beta. intros n0 l' [-> Hl']. eauto 6.
  - intros n0 x en [_ ->] [_ Hen]%list_elem_of_filter. by eapply (er_placed _ _ He).
  - split; [by eapply eng_rep_inv|]. split; [|done]. rewrite (eng_rep_store _ _ He').
    exact (sweep_store _ _ _ _ _ _ He Hes He' Hc).
Qed.

#[global] Instance memory_sweeper_laws `{EngineEnv} (p : profile) :
  SweeperLaws MemoryEngine (H := memory_kv_engine p) (H0 := memory_kv_laws p).
Proof.
  intros e j now n e' [He Hmax] Hrun. destruct (lock_purge_store _ _ _ _ _ He Hrun) as (He' & Hst & Hc).
  split; [split; [done|by rewrite (proj1 (proj2 Hc))]|]. intros k. change (store e' !! k = store e !! k \/
    store e' !! k = None /\ exists x, store e !! k = Some x /\ value_expired now x = true).
  rewrite Hst. unfold abs_sweep. rewrite map_lookup_filter.
  destruct (store e !! k) as [x|]; cbn; [|by left]. case_guard as Hg; [by left|]. right. split; [done|].
  exists x. split; [done|]. destruct (value_expired now x) eqn:Hx; [done|]. destruct Hg. naive_solver.
Qed.

(** ** What a call sees and changes *)

Implicit Types (k v : bytes) (now t : Z) (c : kv_call).

(** Equal content at [k] for every clock reading from [t] on. *)
Definition same_at (t : Z) (k : bytes) (m m' : kv) : Prop := forall now, t <= now -> live now k m = live now k m'.

(** A call the contract of the engine covers. *)
Definition call_fits (c : kv_call) (m : kv) : Prop :=
  match c with
  | CallSet k v _ => zlen k + zlen v <= USIZE_MAX
  | CallExpire k ttl now => is_Some (live now k m) -> now + ttl <= INSTANT_MAX
  | _ => True
  end.

(** The same, whatever the content. *)
Definition call_sized (c : kv_call) : Prop :=
  match c with
  | CallSet k v _ => zlen k + zlen v <= USIZE_MAX
  | CallExpire _ ttl now => now + ttl <= INSTANT_MAX
  | _ => True
  end.

Lemma call_sized_fits c m : call_sized c -> call_fits c m.
Proof. destruct c; cbn; auto. Qed.

Lemma live_lookup now k (m m' : kv) : m !! k = m' !! k -> live now k m = live now k m'.
Proof. unfold live. by intros ->. Qed.

Lemma settle_ne now k k' (m : kv) : k' ≠ k -> settle now k m !! k' = m !! k'.
Proof. intros Hne. unfold settle. destruct (live now k m); [done|]. by rewrite lookup_delete_ne. Qed.

(** A sweep of the left-hand side cannot be seen afterwards. *)
Lemma sweep_same (latest now : Z) k (m m' sto : kv) :
  m' !! k = m !! k \/ m' !! k = None /\ (exists x, m !! k = Some x /\ value_expired now x = true) ->
  same_at latest k m sto -> same_at (Z.max latest now) k m' sto.
Proof.
  intros Hk Hs t Hle. rewrite <- (Hs t) by lia. destruct Hk as [E1|(E1 & y & E2 & Hy)].
  - by apply live_lookup.
  - unfold live. rewrite E1, E2. unfold value_expired in *. destruct y as [v [d|]]; [|done]. cbn in *.
    apply Z.leb_le in Hy. by rewrite (proj2 (Z.leb_le d t)) by lia.
Qed.

(** A call of the abstract store leaves other keys alone. *)
Lemma store_call_ne c (m m' : kv) r k : run_call c m = (Ret r, m') -> k ≠ call_key c -> m' !! k = m !! k.
Proof.
  intros Hc Hk. destruct c as [k0 t|k0 v t|k0 t|k0 d t|k0 t]; cbn in Hc, Hk; simplify_eq.
  - by apply settle_ne.
  - by rewrite lookup_insert_ne.
  - by rewrite lookup_delete_ne.
  - unfold abs_expire. destruct (live t k0 m) as [[v d0]|]; [by rewrite lookup_insert_ne|by rewrite lookup_delete_ne].
  - by apply settle_ne.
Qed.

(** It answers and acts alike on contents it cannot tell apart. *)
Lemma store_call_same c (m m1 m' : kv) r t :
  same_at t (call_key c) m m1 -> t <= call_now c -> run_call c m = (Ret r, m') ->
  exists m1', run_call c m1 = (Ret r, m1') /\ same_at t (call_key c) m' m1'.
Proof.
  intros Hs Ht Hc. destruct c as [k now|k v now|k now|k d now|k now]; cbn in Hc, Hs, Ht; simplify_eq; cbn.
  - rewrite (Hs now Ht). eexists. split; [done|]. intros now' Hle. unfold settle. rewrite (Hs now Ht).
    destruct (live now k m1); [by apply Hs|by rewrite !live_delete_eq].
  - eexists. split; [done|]. intros now' Hle. by rewrite !live_insert_eq.
  - rewrite (Hs now Ht). eexists. split; [done|]. intros now' Hle. by rewrite !live_delete_eq.
  - rewrite (Hs now Ht). eexists. split; [done|]. intros now' Hle. unfold abs_expire. rewrite (Hs now Ht).
    destruct (live now k m1) as [[v d0]|]; [|by rewrite !live_delete_eq]. unfold live. by rewrite !lookup_insert_eq.
  - unfold abs_ttl. rewrite (Hs now Ht). eexists. split; [done|]. intros now' Hle. unfold settle.
    rewrite (Hs now Ht). destruct (live now k m1); [by apply Hs|by rewrite !live_delete_eq].
Qed.

Lemma call_fits_same c (m m1 : kv) t : same_at t (call_key c) m m1 -> t <= call_now c -> call_fits c m1 -> call_fits c m.
Proof. destruct c; cbn; try done. intros Hs Ht. by rewrite (Hs _ Ht). Qed.

Lemma call_mirrors {E : Type} `{KVEngineLaws E} c (e : E) :
  kv_inv e -> call_fits c (kv_store e) -> mirrors (run_call c) (run_call c) e.
Proof.
  intros He Hf. destruct c as [k now|k v now|k now|k d now|k now]; cbn in *.
  - by apply mirrors_get.
  - by apply mirrors_set.
  - by apply mirrors_delete.
  - eapply runs_mono; [by apply law_expire|]. cbn beta. intros r e' (? & -> & E'). simpl. by rewrite E'.
  - by apply mirrors_ttl.
Qed.

(** ** One step of a task, on the shared engine and alone *)

Lemma blank_eq (m m' : Metrics) : blank m = blank m' ->
  lh_bounds_us (mt_latency m) = lh_bounds_us (mt_latency m') /\
  length (lh_buckets (mt_latency m)) = length (lh_buckets (mt_latency m')).
Proof.
  intros Hb. split; [by injection Hb|]. assert (Hl : length (lh_buckets (mt_latency (blank m))) = length (lh_buckets (mt_latency (blank m'))))
    by by rewrite Hb. cbn in Hl. by rewrite !length_replicate in Hl.
Qed.

Lemma blank_write x (m : Metrics) : blank (write_metric x m).2 = blank m.
Proof.
  destruct m as [r e i [b c s n y] t0]. destruct x; try done. cbn. destruct (c !! i0) eqn:Hc; [|done].
  cbn. unfold blank. cbn. by rewrite length_insert.
Qed.

Lemma write_outcome x (m m' : Metrics) : blank m = blank m' -> (write_metric x m).1 = (write_metric x m').1.
Proof.
  intros [_ Hl]%blank_eq. destruct x; try done. cbn.
  destruct (lh_buckets (mt_latency m) !! i) eqn:H1, (lh_buckets (mt_latency m') !! i) eqn:H2; try done.
  - apply lookup_lt_Some in H1. apply lookup_ge_None in H2. lia.
  - apply lookup_ge_None in H1. apply lookup_lt_Some in H2. lia.
Qed.

(** What the next step of a task needs of the engine. *)
Definition next_call (t : task) : option kv_call :=
  match tk_pc t with Running (Call c _) => Some c | _ => None end.

Definition is_loading (t : task) : bool := match tk_pc t with Loading _ _ _ => true | _ => false end.

Section step.
Context {E : Type} `{KVEngineLaws E} `{FloatFormat} `{BytesMut} (p : profile).
Implicit Types (e : E) (m : Metrics) (u : task).

(** A step that calls nothing is the same on every engine. *)
Lemma quiet_step_same e (sto : kv) m m1 u e' m' u' ev :
  blank m = blank m1 -> next_call u = None -> is_loading u = false ->
  task_step p e m u = Some (e', m', u', ev) ->
  e' = e /\ ev = None /\ blank m' = blank m /\ exists m1', task_step p sto m1 u = Some (sto, m1', u', None) /\ blank m1' = blank m1.
Proof.
  intros Hb Hn Hl Hs. unfold next_call, is_loading in *. unfold task_step in *.
  destruct (tk_pc u) as [| |[|x ws] next|args| |[r|c next]|r closing| |]; try done.
  - destruct (read_step u); [injection Hs as <- <- <- <-; eauto 10|done].
  - injection Hs as <- <- <- <-. eauto 10.
  - injection Hs as <- <- <- <-. eauto 10.
  - pose proof (write_outcome x _ _ Hb) as Ho. pose proof (blank_write x m) as Hw. pose proof (blank_write x m1) as Hw1.
    destruct (write_metric x m) as [o m2], (write_metric x m1) as [o1 m3]. cbn in Ho, Hw, Hw1. rewrite <- Ho.
    injection Hs as <- <- <- <-. eauto 10.
  - injection Hs as <- <- <- <-. split_and!; [done|done|done|]. exists m1. split; [|done]. unfold dispatch_step.
    destruct (blank_eq _ _ Hb) as [_ Hlen]. unfold snapshot_loads. by rewrite Hb, Hlen.
  - injection Hs as <- <- <- <-. eauto 10.
  - injection Hs as <- <- <- <-. split_and!; [done|done|done|]. exists m1. split; [|done]. unfold send_step.
    by rewrite (proj1 (blank_eq _ _ Hb)).
Qed.

(** A step that calls the engine. *)
Lemma call_step_same e (sto : kv) m m1 u c e' m' u' ev t :
  kv_inv e -> next_call u = Some c -> task_step p e m u = Some (e', m', u', ev) ->
  ev = Some (Called c) /\ m' = m /\
  (same_at t (call_key c) (kv_store e) sto -> t <= call_now c -> call_fits c sto ->
   kv_inv e' /\ (forall k, k ≠ call_key c -> kv_store e' !! k = kv_store e !! k) /\
   exists sto', task_step p sto m1 u = Some (sto', m1, u', ev) /\ same_at t (call_key c) (kv_store e') sto' /\
     (forall k, k ≠ call_key c -> sto' !! k = sto !! k)).
Proof.
  intros He Hn Hs. unfold next_call in Hn. unfold task_step in *.
  destruct (tk_pc u) as [| | | | |[r|c0 next]| | |]; try done. injection Hn as ->.
  assert (Hev : ev = Some (Called c) /\ m' = m) by (destruct (run_call c e) as [[r| |] e0]; simplify_eq/=; done).
  destruct Hev as [-> ->]. split; [done|]. split; [done|]. intros Hsame Ht Hf.
  pose proof (call_mirrors c e He (call_fits_same _ _ _ _ Hsame Ht Hf)) as Hm.
  destruct (runs_inv _ _ _ Hm) as (r & e1 & E1 & He1 & E2). rewrite E1 in Hs. simplify_eq/=.
  split; [done|]. split; [intros k Hk; exact (store_call_ne _ _ _ _ _ E2 Hk)|].
  destruct (store_call_same _ _ _ _ _ _ Hsame Ht E2) as (sto' & E3 & Hsame').
  exists sto'. rewrite E3. split_and!; [done|done|]. intros k Hk. exact (store_call_ne _ _ _ _ _ E3 Hk).
Qed.

End step.

(** ** Alone *)

(** Time does not run backwards: no sweep has read a clock ahead of a later call. *)
Fixpoint chronological (latest : Z) (h : list (nat * server_event)) : Prop :=
  match h with
  | [] => True
  | (_, Swept _ now) :: h => chronological (Z.max latest now) h
  | (_, Called c) :: h => latest <= call_now c /\ chronological latest h
  end.

(** The latest clock reading of a sweep. *)
Definition latest_sweep (latest : Z) (h : list (nat * server_event)) : Z :=
  foldl (fun t x => match x.2 with Swept _ now => Z.max t now | Called _ => t end) latest h.

Lemma chronological_app latest h h' :
  chronological latest (h ++ h') <-> chronological latest h /\ chronological (latest_sweep latest h) h'.
Proof.
  revert latest. induction h as [|[a [c|j now]] h IH]; intros latest; simpl; [naive_solver| |]; rewrite IH; naive_solver.
Qed.

Section isolated.
Context {E : Type} `{SweeperLaws E} `{FloatFormat} `{BytesMut} (p : profile).
Context (m0 : Metrics) (sto0 : kv).

(** The first [n] steps of a connection that is the only one, on the abstract store
    and with its own metrics. *)
Definition alone (x : client) (n : nat) : server kv :=
  (run_server p (replicate n (ActTask 0)) (mkServer sto0 m0 [task_new x] [] None) []).1.

(** Alone, the connection touches only keys in [K], within the engine's contract,
    and does not ask for the metrics. *)
Definition private (K : bytes -> Prop) (x : client) : Prop := forall n u,
  sv_tasks (alone x n) !! 0%nat = Some u ->
  is_loading u = false /\
  forall c, next_call u = Some c -> K (call_key c) /\ call_fits c (sv_engine (alone x n)).

Lemma run_server_fst {E' : Type} `{KVEngine E'} `{Sweeper E'} sched (s : server E') h h' :
  (run_server p sched s h).1 = (run_server p sched s h').1.
Proof.
  revert s h h'. induction sched as [|x sched IH]; intros s h h'; [done|]. simpl.
  destruct (server_step p x s) as [[s' [ev|]]|]; apply IH.
Qed.

Lemma alone_next x n : alone x (S n) =
  match server_step p (ActTask 0) (alone x n) with Some (s, _) => s | None => alone x n end.
Proof.
  unfold alone. rewrite <- Nat.add_1_r, replicate_add, run_server_app.
  destruct (run_server p (replicate n (ActTask 0)) _ []) as [s h]. cbn [replicate run_server fst].
  by destruct (server_step p (ActTask 0) s) as [[s' [ev|]]|].
Qed.

(** It has ended, or waits for its client. *)
Definition waits (u : task) : Prop :=
  match tk_pc u with Reading => tk_reads u = [] | Ended _ _ | Crashed => True | _ => False end.

Lemma waits_stuck {E' : Type} `{KVEngine E'} (e : E') m u : waits u -> task_step p e m u = None.
Proof.
  unfold waits, task_step. destruct (tk_pc u); try done. intros Hr. unfold read_step. by rewrite Hr.
Qed.

Lemma stuck_waits {E' : Type} `{KVEngine E'} (e : E') m u : task_step p e m u = None -> waits u.
Proof.
  unfold waits, task_step. destruct (tk_pc u) as [| |[|w ws] next|args|[|w loads] seen args|[r|c next]|r closing| |]; try done.
  - unfold read_step. by destruct (tk_reads u) as [|[]].
  - by destruct (write_metric w m).
  - by destruct (run_call c e) as [[r| |] e'].
Qed.

(** Where connection [a] of the process is after [turns] of its turns, compared with
    the connection alone. *)
Record follows (latest : Z) (K : bytes -> Prop) (s : server E) (ou : option task) (x : client) (n turns : nat) : Prop := mkFollows {
  fo_task : sv_tasks (alone x n) !! 0%nat = Some (default (task_new x) ou);
  fo_new : ou = None -> n = 0%nat;
  fo_metrics : blank (sv_metrics (alone x n)) = blank m0;
  fo_store : forall k, K k -> same_at latest k (kv_store (sv_engine s)) (sv_engine (alone x n));
  fo_turns : (turns <= n)%nat \/ waits (default (task_new x) ou)
}.

Context (incoming : list (result client io_error)) (K : nat -> bytes -> Prop).
Context (Hprivate : forall a x, incoming !! a = Some (Ok x) -> private (K a) x).
Context (Hdisjoint : forall a b k, a ≠ b -> K a k -> K b k -> False).

Record isolated_inv (latest : Z) (turns : nat -> nat) (s : server E) : Prop := mkIsolated {
  is_inv : kv_inv (sv_engine s);
  is_metrics : blank (sv_metrics s) = blank m0;
  is_tasks : forall a u, sv_tasks s !! a = Some u -> exists x, incoming !! a = Some (Ok x);
  is_incoming : sv_exit s = None -> sv_incoming s = drop (length (sv_tasks s)) incoming;
  is_follows : forall a x, incoming !! a = Some (Ok x) -> exists n, follows latest (K a) s (sv_tasks s !! a) x n (turns a)
}.

Lemma same_at_mono t t' k m m' : t <= t' -> same_at t k m m' -> same_at t' k m m'.
Proof. intros Ht Hs now Hn. apply Hs. lia. Qed.

Lemma accept_isolated latest turns s s' : isolated_inv latest turns s -> accept_step s = Some s' -> isolated_inv latest turns s'.
Proof.
  intros [He Hm Ht Hin Hf] Ha. unfold accept_step in Ha.
  destruct (sv_exit s) eqn:Hx; [by destruct (sv_incoming s)|]. specialize (Hin eq_refl).
  destruct (sv_incoming s) as [|[x|err] rest] eqn:Hi; [done|injection Ha as <-..].
  - assert (Hlen : incoming !! length (sv_tasks s) = Some (Ok x)).
    { rewrite <- (Nat.add_0_r (length _)), <- lookup_drop, <- Hin. done. }
    split; cbn; [done|done| | |].
    + intros a u [Hu|[Hl Hu]]%lookup_app_Some; [by eapply Ht|].
      destruct (a - length (sv_tasks s))%nat eqn:Hd; [|done]. exists x.
      replace a with (length (sv_tasks s)) by lia. done.
    + intros _. rewrite length_app. cbn [length]. rewrite <- drop_drop, <- Hin. done.
    + intros a y Hy. destruct (Hf a y Hy) as (n & [F1 F2 F3 F4 F5]). exists n.
      destruct (decide (a = length (sv_tasks s))) as [->|Hne].
      * assert (y = x) as -> by congruence. rewrite (lookup_ge_None_2 (sv_tasks s)) in F1, F2, F5 by lia.
        rewrite list_lookup_middle by done. by split.
      * assert (Hsame : (sv_tasks s ++ [task_new x]) !! a = sv_tasks s !! a).
        { destruct (decide (a < length (sv_tasks s))%nat); [by rewrite lookup_app_l|].
          rewrite !lookup_ge_None_2; [done|lia|rewrite length_app; cbn [length]; lia]. }
        rewrite Hsame. by split.
  - split; cbn; [done|done|done|done|]. intros a y Hy. destruct (Hf a y Hy) as (n & [F1 F2 F3 F4 F5]). exists n. by split.
Qed.

Lemma sweep_isolated latest turns s j now n e' :
  isolated_inv latest turns s -> kv_sweep j now (sv_engine s) = (Ret n, e') ->
  isolated_inv (Z.max latest now) turns (mkServer e' (sv_metrics s) (sv_tasks s) (sv_incoming s) (sv_exit s)).
Proof.
  intros [He Hm Ht Hin Hf] Hs. destruct (law_sweep _ _ _ _ _ He Hs) as [He' Hk].
  split; cbn; [done..|]. intros a x Hx. destruct (Hf a x Hx) as (i & [F1 F2 F3 F4 F5]). exists i. split; try done. cbn.
  intros k HK. by eapply sweep_same, F4.
Qed.

(** Task [a] has had one more turn. *)
Definition took (a : nat) (turns : nat -> nat) (b : nat) : nat := if decide (b = a) then S (turns b) else turns b.

(** A turn in which the task cannot go on. *)
Lemma wait_isolated latest turns s a u :
  isolated_inv latest turns s -> sv_tasks s !! a = Some u -> waits u -> isolated_inv latest (took a turns) s.
Proof.
  intros [He Hm Ht Hin Hf] Hu Hw. split; try done. intros b y Hy. destruct (Hf b y Hy) as (i & [F1 F2 F3 F4 F5]).
  exists i. split; try done. unfold took. destruct (decide (b = a)) as [->|_]; [|done]. right. by rewrite Hu.
Qed.

(** A step of a task that makes no call. *)
Lemma quiet_isolated latest turns s a u m' u' e' ev :
  isolated_inv latest turns s -> sv_tasks s !! a = Some u -> next_call u = None ->
  task_step p (sv_engine s) (sv_metrics s) u = Some (e', m', u', ev) ->
  ev = None /\ isolated_inv latest (took a turns) (mkServer e' m' (<[a := u']> (sv_tasks s)) (sv_incoming s) (sv_exit s)).
Proof.
  intros [He Hm Ht Hin Hf] Hu Hn Hs. destruct (Ht a u Hu) as [x Hx]. destruct (Hf a x Hx) as (n & [F1 F2 F3 F4 F5]).
  rewrite Hu in F1, F5. change (default (task_new x) (Some u)) with u in F1, F5.
  assert (Hturns : (turns a <= n)%nat) by (destruct F5 as [F5|F5]; [done|by rewrite (waits_stuck _ _ _ F5) in Hs]).
   destruct (Hprivate a x Hx n u F1) as [Hl _].
  destruct (quiet_step_same p (sv_engine s) (sv_engine (alone x n)) (sv_metrics s) (sv_metrics (alone x n)) u e' m' u' ev)
    as (-> & -> & Hm' & m1 & Hs1 & Hm1); [by rewrite Hm, F3|done..|].
  split; [done|]. split; cbn; [done|congruence| |by rewrite length_insert|].
  - intros b w [(-> & _)|[_ Hw]]%list_lookup_insert_Some; [by exists x|by eapply Ht].
  - intros b y Hy. destruct (decide (b = a)) as [->|Hne].
    + assert (y = x) as -> by congruence. exists (S n). rewrite list_lookup_insert_eq by by eapply lookup_lt_Some.
      assert (Hnext : alone x (S n) = mkServer (sv_engine (alone x n)) m1 (<[0%nat := u']> (sv_tasks (alone x n)))
        (sv_incoming (alone x n)) (sv_exit (alone x n))).
      { rewrite alone_next. cbn [server_step]. by rewrite F1, Hs1. }
      split; rewrite ?Hnext; cbn; [|done|congruence|done|left; unfold took; rewrite decide_True by done; lia].
      apply list_lookup_insert_eq. by eapply lookup_lt_Some.
    + destruct (Hf b y Hy) as (i & [G1 G2 G3 G4 G5]). exists i. rewrite list_lookup_insert_ne by done. unfold took. rewrite decide_False by done. by split.
Qed.

(** A step of a task that calls the engine. *)
Lemma call_isolated latest turns s a u c m' u' e' ev :
  isolated_inv latest turns s -> sv_tasks s !! a = Some u -> next_call u = Some c -> latest <= call_now c ->
  task_step p (sv_engine s) (sv_metrics s) u = Some (e', m', u', ev) ->
  isolated_inv latest (took a turns) (mkServer e' m' (<[a := u']> (sv_tasks s)) (sv_incoming s) (sv_exit s)).
Proof.
  intros [He Hm Ht Hin Hf] Hu Hn Hlate Hs. destruct (Ht a u Hu) as [x Hx]. destruct (Hf a x Hx) as (n & [F1 F2 F3 F4 F5]).
  rewrite Hu in F1, F5. change (default (task_new x) (Some u)) with u in F1, F5.
  assert (Hturns : (turns a <= n)%nat) by (destruct F5 as [F5|F5]; [done|by rewrite (waits_stuck _ _ _ F5) in Hs]).
   destruct (Hprivate a x Hx n u F1) as [_ Hc]. destruct (Hc c Hn) as [HK Hfits].
  destruct (call_step_same p (sv_engine s) (sv_engine (alone x n)) (sv_metrics s) (sv_metrics (alone x n)) u c e' m' u' ev latest)
    as (-> & -> & Hstep); [done..|].
  destruct (Hstep (F4 _ HK) Hlate Hfits) as (He' & Hother & sto' & Hs1 & Hsame & Hother1).
  split; cbn; [done|done| |by rewrite length_insert|].
  - intros b w [(-> & _)|[_ Hw]]%list_lookup_insert_Some; [by exists x|by eapply Ht].
  - intros b y Hy. destruct (decide (b = a)) as [->|Hne].
    + assert (y = x) as -> by congruence. exists (S n). rewrite list_lookup_insert_eq by by eapply lookup_lt_Some.
      assert (Hnext : alone x (S n) = mkServer sto' (sv_metrics (alone x n)) (<[0%nat := u']> (sv_tasks (alone x n)))
        (sv_incoming (alone x n)) (sv_exit (alone x n))).
      { rewrite alone_next. cbn [server_step]. by rewrite F1, Hs1. }
      split; rewrite ?Hnext; cbn; [|done|done| |left; unfold took; rewrite decide_True by done; lia].
      * apply list_lookup_insert_eq. by eapply lookup_lt_Some.
      * intros k Hk. destruct (decide (k = call_key c)) as [->|Hkey]; [exact Hsame|]. intros t Htime.
        rewrite (live_lookup _ _ _ _ (Hother k Hkey)), (live_lookup _ _ _ _ (Hother1 k Hkey)). by apply F4.
    + destruct (Hf b y Hy) as (i & [G1 G2 G3 G4 G5]). exists i. rewrite list_lookup_insert_ne by done. unfold took. rewrite decide_False by done. split; try done. cbn.
      intros k Hk t Htime. rewrite (live_lookup _ _ _ _ (Hother k ltac:(intros ->; by eapply (Hdisjoint b a)))). by apply G4.
Qed.

Lemma task_event e m u e' m' u' ev : task_step p e m u = Some (e', m', u', ev) ->
  ev = match next_call u with Some c => Some (Called c) | None => None end.
Proof.
  unfold task_step, next_call. destruct (tk_pc u) as [| |[|x ws] next|args|[|x loads] seen args|[r|c next]|r closing| |]; try naive_solver.
  - destruct (read_step u); naive_solver.
  - destruct (write_metric x m). naive_solver.
  - destruct (run_call c e) as [[r| |] e0]; naive_solver.
Qed.

(** Connections stay. *)
Lemma step_keeps (s : server E) x s' ev b :
  server_step p x s = Some (s', ev) -> is_Some (sv_tasks s !! b) -> is_Some (sv_tasks s' !! b).
Proof.
  intros Hstep Hb. apply lookup_lt_is_Some in Hb. apply lookup_lt_is_Some_2. destruct x as [|j now|a]; cbn in Hstep.
  - unfold accept_step in Hstep. destruct (sv_exit s); [by destruct (sv_incoming s)|].
    destruct (sv_incoming s) as [|[x|err] rest]; [done|injection Hstep as <- <-; cbn..]; [rewrite length_app; lia|done].
  - destruct (kv_sweep j now (sv_engine s)) as [[n| |] e']; [|done..]. by injection Hstep as <- <-.
  - destruct (sv_tasks s !! a); [|done]. destruct (task_step p _ _ t) as [[[[? ?] ?] ?]|]; [|done].
    injection Hstep as <- <-. cbn. by rewrite length_insert.
Qed.

Lemma run_keeps sched (s : server E) h b :
  is_Some (sv_tasks s !! b) -> is_Some (sv_tasks (run_server p sched s h).1 !! b).
Proof.
  revert s h. induction sched as [|x sched IH]; intros s h Hb; [done|]. simpl.
  destruct (server_step p x s) as [[s' [ev|]]|] eqn:Hx; [apply IH; by eapply step_keeps..|by apply IH].
Qed.

(** The turns of task [a] in a schedule. *)
Fixpoint turns_of (a : nat) (sched : list actor) : nat :=
  match sched with
  | [] => 0
  | ActTask b :: sched => if decide (a = b) then S (turns_of a sched) else turns_of a sched
  | _ :: sched => turns_of a sched
  end.

Lemma server_history {E' : Type} `{KVEngine E'} `{Sweeper E'} sched (s : server E') h :
  exists h', (run_server p sched s h).2 = h ++ h'.
Proof.
  revert s h. induction sched as [|x sched IH]; intros s h; [exists []; by rewrite app_nil_r|]. simpl.
  destruct (server_step p x s) as [[s' [ev|]]|]; [|apply IH..].
  destruct (IH s' (h ++ [ev])) as [h' ->]. exists (ev :: h'). by rewrite <- app_assoc.
Qed.

Lemma task_isolated latest turns s a u h s' ev :
  isolated_inv (latest_sweep latest h) turns s -> sv_tasks s !! a = Some u ->
  server_step p (ActTask a) s = Some (s', ev) -> chronological latest (h ++ option_list ev) ->
  latest_sweep latest (h ++ option_list ev) = latest_sweep latest h /\
  isolated_inv (latest_sweep latest h) (took a turns) s'.
Proof.
  intros Hs Hu Hstep Hh. cbn [server_step] in Hstep. rewrite Hu in Hstep.
  destruct (task_step p (sv_engine s) (sv_metrics s) u) as [[[[e' m'] u'] ev']|] eqn:Ht; [|done].
  pose proof (task_event _ _ _ _ _ _ _ Ht) as Hev. injection Hstep as <- <-.
  destruct (next_call u) as [c|] eqn:Hc; subst ev'; cbn [option_list] in *.
  - unfold latest_sweep at 1. rewrite foldl_app. split; [done|].
    apply chronological_app in Hh as [_ [Hh _]]. by eapply call_isolated.
  - rewrite app_nil_r. split; [done|]. by eapply quiet_isolated.
Qed.

Lemma run_isolated sched latest turns s h :
  isolated_inv (latest_sweep latest h) turns s -> chronological latest (run_server p sched s h).2 ->
  exists turns', isolated_inv (latest_sweep latest (run_server p sched s h).2) turns' (run_server p sched s h).1 /\
    forall a, is_Some (sv_tasks s !! a) -> (turns a + turns_of a sched <= turns' a)%nat.
Proof.
  revert turns s h. induction sched as [|x sched IH]; intros turns s h Hs Hh.
  { exists turns. split; [done|]. intros a _. cbn. lia. }
  simpl in *. destruct x as [|j now|a].
  - destruct (server_step p ActAccept s) as [[s' ev]|] eqn:Hx; [|by apply IH]. cbn in Hx.
    destruct (accept_step s) as [s1|] eqn:Ha; [|done]. injection Hx as <- <-.
    destruct (IH turns s1 h) as (t' & Hinv & Ht); [by eapply accept_isolated|done|].
    exists t'. split; [done|]. intros a Hsome. apply Ht. by eapply (step_keeps s ActAccept); [cbn; by rewrite Ha|].
  - destruct (server_step p (ActSweep j now) s) as [[s' ev]|] eqn:Hx; [|by apply IH]. cbn in Hx.
    destruct (kv_sweep j now (sv_engine s)) as [[n| |] e'] eqn:Hk; [|done..]. injection Hx as <- <-.
    refine (IH turns (mkServer e' _ (sv_tasks s) _ _) (h ++ [_]) _ Hh).
    unfold latest_sweep. rewrite foldl_app. cbn. by eapply sweep_isolated.
  - destruct (sv_tasks s !! a) as [u|] eqn:Hu.
    + destruct (server_step p (ActTask a) s) as [[s' ev]|] eqn:Hx.
      * destruct (server_history sched s' (h ++ option_list ev)) as [h' Hh'].
        assert (Hrun : (match ev with Some y => run_server p sched s' (h ++ [y]) | None => run_server p sched s' h end) =
          run_server p sched s' (h ++ option_list ev)) by (destruct ev; [done|cbn; by rewrite app_nil_r]).
        rewrite Hrun in *. rewrite Hh' in Hh. apply chronological_app in Hh as [Hh Hh2].
        destruct (task_isolated latest turns s a u h s' ev Hs Hu Hx Hh) as [El Hinv].
        destruct (IH (took a turns) s' (h ++ option_list ev)) as (t' & Hinv' & Ht).
        { by rewrite El. } { rewrite Hh'. by apply chronological_app. }
        exists t'. split; [done|]. intros b Hb. specialize (Ht b (step_keeps _ _ _ _ _ Hx Hb)). unfold took in Ht.
        repeat case_decide; subst; done || lia.
      * destruct (IH (took a turns) s h) as (t' & Hinv' & Ht); [|done|].
        { eapply wait_isolated; [done..|]. cbn [server_step] in Hx. rewrite Hu in Hx.
          destruct (task_step p _ _ u) as [[[[? ?] ?] ?]|] eqn:Hn; [done|by eapply stuck_waits]. }
        exists t'. split; [done|]. intros b Hb. specialize (Ht b Hb). unfold took in Ht. repeat case_decide; subst; done || lia.
    + assert (Hx : server_step p (ActTask a) s = None) by (cbn [server_step]; by rewrite Hu). rewrite Hx in *.
      destruct (IH turns s h Hs Hh) as (t' & Hinv' & Ht). exists t'. split; [done|]. intros b Hb.
      destruct (decide (b = a)) as [->|]; [by rewrite Hu in Hb; destruct Hb|]. by apply Ht.
Qed.

Lemma start_isolated (e : E) : kv_inv e -> sto0 = kv_store e -> isolated_inv 0 (fun _ => 0%nat) (server_start e m0 incoming).
Proof.
  intros He Hsto. split; cbn; [done|done|by intros a u Hu; rewrite lookup_nil in Hu|done|].
  intros a x _. exists 0%nat. rewrite lookup_nil. split; [done|done|done| |left; cbn; lia].
  intros k _ t _. change (live t k (kv_store e) = live t k sto0). by rewrite Hsto.
Qed.

(** ** The end of a connection *)

Lemma alone_stuck x n (i : nat) u : sv_tasks (alone x n) !! 0%nat = Some u -> waits u -> alone x (n + i) = alone x n.
Proof.
  intros Hu Hw. induction i as [|i IH]; [by rewrite Nat.add_0_r|].
  rewrite Nat.add_succ_r, alone_next, IH. cbn [server_step]. by rewrite Hu, waits_stuck.
Qed.

(** Alone, it gets there, having written what [Server] writes. *)
Lemma alone_ends (x : client) (o : outcome conn_end) (c : Conn kv) :
  handle_connection_with_metrics p x.1 x.2 (conn_new sto0 m0) = (o, c) -> o ≠ OutOfFuel ->
  exists n u, sv_tasks (alone x n) !! 0%nat = Some u /\ waits u /\ tk_out u = cn_out c.
Proof.
  intros Ho Hfuel. set (s0 := mkServer sto0 m0 [task_new x] [] None).
  pose proof (connection_arrives p x.1 s0 0 ltac:(cbn; lia) x.2 (conn_new sto0 m0)) as Ha. rewrite Ho in Ha.
  assert (Hend : exists reads pc, goes p x.1 s0 0 (conn_new sto0 m0) x.2 Reading c reads pc /\ waits (task_of x.1 c reads pc)).
  { destruct o as [r| |]; [|by destruct Ha as [reads Hg]; exists reads, Crashed|done].
    destruct Ha as (reads & pc & Hg & Hn). exists reads, pc. split; [done|].
    destruct r; cbn in Hn; [by subst|by destruct Hn as [r ->]|by destruct Hn as [-> ->]]. }
  destruct Hend as (reads & pc & (k & evs & Hk) & Hw'). exists k, (task_of x.1 c reads pc). split; [|done].
  unfold alone. change (mkServer sto0 m0 [task_new x] [] None) with (process_of x.1 s0 0 (conn_new sto0 m0) x.2 Reading).
  by rewrite Hk.
Qed.

(** Two points at which it cannot go on are the same. *)
Lemma alone_stuck_eq x n (k : nat) u u' :
  sv_tasks (alone x n) !! 0%nat = Some u -> waits u -> sv_tasks (alone x k) !! 0%nat = Some u' -> waits u' -> u = u'.
Proof.
  intros Hu Hw Hu' Hw'. assert (Heq : alone x n = alone x k).
  { destruct (Nat.le_ge_cases n k) as [Hle|Hle].
    - rewrite <- (alone_stuck x n (k - n) u Hu Hw). f_equal. lia.
    - rewrite <- (alone_stuck x k (n - k) _ Hu' Hw'). f_equal. lia. }
  rewrite Heq, Hu' in Hu. by injection Hu.
Qed.

(** What has been written is never taken back. *)
Lemma task_step_out {E' : Type} `{KVEngine E'} (e : E') m u e' m' u' ev :
  task_step p e m u = Some (e', m', u', ev) -> tk_out u `prefix_of` tk_out u'.
Proof.
  unfold task_step. destruct (tk_pc u) as [| |[|w ws] next|args|[|w loads] seen args|[r|c next]|r closing| |]; try (intros; simplify_eq/=; done).
  - unfold read_step. destruct (tk_reads u) as [|[chunk|err] rest]; intros; simplify_eq/=; done.
  - unfold parse_step. destruct (parse p _) as [[[[args|]|[]]| |] [q b]]; intros; simplify_eq/=; done.
  - destruct (write_metric w m). intros; simplify_eq/=; done.
  - destruct (run_call c e) as [[r| |] e0]; intros; simplify_eq/=; done.
  - intros [= <- <- <- <-]. unfold send_step. destruct (write_ok _ _); [|done]. by apply prefix_app_r.
Qed.

Lemma alone_task x n : exists u, sv_tasks (alone x n) !! 0%nat = Some u.
Proof.
  induction n as [|n [u IH]]; [by eexists|]. rewrite alone_next. cbn [server_step]. rewrite IH.
  destruct (task_step p _ _ u) as [[[[e' m'] u'] ev]|]; [|by eexists]. exists u'. cbn.
  apply list_lookup_insert_eq. by eapply lookup_lt_Some.
Qed.

Lemma alone_out x n i u u' :
  sv_tasks (alone x n) !! 0%nat = Some u -> sv_tasks (alone x (n + i)) !! 0%nat = Some u' -> tk_out u `prefix_of` tk_out u'.
Proof.
  intros Hu. revert u'. induction i as [|i IH]; intros u'; [rewrite Nat.add_0_r, Hu; by intros [= <-]|].
  destruct (alone_task x (n + i)) as [u1 Hu1]. specialize (IH u1 Hu1).
  rewrite Nat.add_succ_r, alone_next. cbn [server_step]. rewrite Hu1.
  destruct (task_step p _ _ u1) as [[[[e' m'] u2] ev]|] eqn:Hs; cbn.
  - rewrite list_lookup_insert_eq by (by eapply lookup_lt_Some). intros [= <-].
    etransitivity; [exact IH|exact (task_step_out _ _ _ _ _ _ _ Hs)].
  - rewrite Hu1. by intros [= <-].
Qed.

(** The connection in the process: what it has written so far, and after [k] turns. *)
Lemma isolated_end (e : E) (x : client) (a : nat) (o : outcome conn_end) (c : Conn kv) :
  kv_inv e -> sto0 = kv_store e -> incoming !! a = Some (Ok x) ->
  handle_connection_with_metrics p x.1 x.2 (conn_new sto0 m0) = (o, c) -> o ≠ OutOfFuel ->
  exists n0 : nat, forall sched sched', let start := server_start e m0 incoming in
  let r := run_server p (sched ++ sched') start [] in
  chronological 0 r.2 -> is_Some (sv_tasks (run_server p sched start []).1 !! a) ->
  exists u, sv_tasks r.1 !! a = Some u /\ tk_out u `prefix_of` cn_out c /\
    ((n0 <= turns_of a sched')%nat \/ waits u -> waits u /\ tk_out u = cn_out c).
Proof.
  intros He Hsto Ha Ho Hfuel. destruct (alone_ends x o c Ho Hfuel) as (n0 & u0 & Hu0 & Hw0 & Eo). exists n0.
  intros sched sched' start r Hh Htask. unfold r in *. clear r. rewrite run_server_app in *.
  destruct (run_server p sched start []) as [s1 h1] eqn:Er. cbn [fst snd] in *.
  destruct (server_history sched' s1 h1) as [h2 Eh]. pose proof Hh as Hh'. rewrite Eh in Hh. apply chronological_app in Hh as [Hh1 _].
  pose proof (run_isolated sched 0 (fun _ => 0%nat) start [] (start_isolated e He Hsto)) as Hrun. rewrite Er in Hrun.
  destruct (Hrun Hh1) as (t1 & Hinv1 & _). clear Hrun.
  destruct (run_isolated sched' 0 t1 s1 h1 Hinv1 Hh') as (t2 & Hinv2 & Ht). specialize (Ht a Htask).
  pose proof (run_keeps sched' s1 h1 a Htask) as [u Hu].
  destruct (run_server p sched' s1 h1) as [s2 h3]. cbn [fst snd] in *.
  destruct (is_follows _ _ _ Hinv2 a x Ha) as (n & [F1 F2 _ _ F5]).
  rewrite Hu in F1, F5. cbn [default] in F1, F5. exists u. split; [done|].
  assert (Hend : waits u -> tk_out u = cn_out c).
  { intros Hw. by rewrite (alone_stuck_eq x n n0 u u0 F1 Hw Hu0 Hw0). }
  split.
  - rewrite <- Eo. destruct (Nat.le_ge_cases n n0) as [Hle|Hle].
    + apply (alone_out x n (n0 - n)); [done|]. by replace (n + (n0 - n))%nat with n0 by lia.
    + rewrite <- (alone_stuck x n0 (n - n0) u0 Hu0 Hw0) in Hu0. replace (n0 + (n - n0))%nat with n in Hu0 by lia. naive_solver.
  - intros Hor. assert (Hw : waits u); [|by auto]. destruct Hor as [Hk|]; [|done]. destruct F5 as [F5|]; [|done].
    assert (Hn : alone x n = alone x n0) by (rewrite <- (alone_stuck x n0 (n - n0) u0 Hu0 Hw0); f_equal; lia).
    rewrite Hn, Hu0 in F1. by injection F1 as <-.
Qed.

End isolated.
