(* ===== verification/ServerTasksSessions.v ===== *)
(** * Sessions of a task

    What the isolation of [ServerTasksIsolated] asks of a connection, as a property
    of the text its client sends: a session of encoded commands, in any chunks,
    whose keys are in a set and that leaves out INFO. *)

From S2P Require Import Prelude Decimal HkvError Engine KVEngine EngineTheorems.
From S2P Require Import RespParser RespParserInv Metrics ClientResp ClientRespInv Server ServerSpec ServerConn ServerSession.
From S2P Require Import ServerTasks ServerTasksAlone ServerTasksIsolated.

(** ** The keys of a command *)

(** The keys [dispatch_command] uses, by the handler it selects. *)
Definition cmd_keys (args : command) : list bytes :=
  match args with
  | cmd :: key :: rest =>
      if eq_ignore_ascii_case cmd (bs "PING") then []
      else if eq_ignore_ascii_case cmd (bs "GET") then [key]
      else if eq_ignore_ascii_case cmd (bs "SET") then [key]
      else if eq_ignore_ascii_case cmd (bs "DEL") then key :: rest
      else if eq_ignore_ascii_case cmd (bs "EXPIRE") then [key]
      else if eq_ignore_ascii_case cmd (bs "TTL") then [key]
      else []
  | _ => []
  end.

(** ** The calls of a program *)

(** Every call of [x] meets [P], whatever the replies. *)
Fixpoint makes {A : Type} (P : kv_call -> Prop) (x : prog A) : Prop :=
  match x with
  | Done _ => True
  | Call c next => P c /\ forall r, makes P (next r)
  end.

Lemma makes_ret {A : Type} (P : kv_call -> Prop) (a : A) : makes P (mret (M := prog) a).
Proof. done. Qed.

Lemma makes_call {A : Type} (P : kv_call -> Prop) c (f : reply_of c -> prog A) :
  P c -> (forall r, makes P (f r)) -> makes P (Call c Done ≫= f).
Proof. done. Qed.

Lemma makes_mono {A : Type} (P Q : kv_call -> Prop) (x : prog A) :
  (forall c, P c -> Q c) -> makes P x -> makes Q x.
Proof. intros Hpq. induction x as [a|c next IH]; [done|]. intros [Hc Hn]. split; [by apply Hpq|]. intros r. by apply IH. Qed.

(** On the given keys, and in the range of the contract. *)
Definition call_in (keys : list bytes) (c : kv_call) : Prop :=
  call_key c ∈ keys /\ call_sized c.

Lemma call_in_fits keys c m : call_in keys c -> call_fits c m.
Proof. intros [_ Hc]. by apply call_sized_fits. Qed.

Section dispatch.
Context `{FloatFormat}.

Ltac makes :=
  repeat first [ apply makes_ret | case_match | apply makes_call; [split; cbn; [set_solver|done] | intros ?] ].

Lemma del_loop_makes keys keys' now i removed :
  keys ⊆ keys' -> makes (call_in keys') (del_loop (T := prog) keys now i removed).
Proof.
  revert i removed. induction keys as [|k keys IH]; intros i removed Hk; cbn [del_loop]; [done|].
  apply makes_call; [split; [cbn; set_solver|done]|]. intros [[]|err]; [apply IH; set_solver..|done].
Qed.

Lemma handle_set_makes cmd rest key now :
  cmd_in_range (cmd :: key :: rest) now = true -> eq_ignore_ascii_case cmd (bs "SET") = true ->
  makes (call_in [key]) (handle_set (T := prog) (cmd :: key :: rest) now).
Proof.
  intros Hr Hn. unfold cmd_in_range in Hr. apply andb_prop in Hr as [Hf Hd].
  destruct rest as [|a2 [|a3 [|a4 [|]]]]; cbn [handle_set]; try apply makes_ret; apply args_fit_key_value in Hf.
  - makes.
  - rewrite Hn in Hd. destruct (eq_ignore_ascii_case a3 (bs "EX")); [|done]. simpl in Hd.
    destruct (parse_u64 a4) as [s|resp] eqn:Es; [|done]. apply makes_call; [split; cbn; [set_solver|done]|].
    intros [[]|err]; [|done]. apply makes_call; [|intros ?; done].
    split; cbn; [set_solver|]. by eapply deadline_fits_Ok.
Qed.

Lemma handle_expire_makes cmd rest key now :
  cmd_in_range (cmd :: key :: rest) now = true -> eq_ignore_ascii_case cmd (bs "EXPIRE") = true ->
  makes (call_in [key]) (handle_expire (T := prog) (cmd :: key :: rest) now).
Proof.
  intros Hr Hn. unfold cmd_in_range in Hr. apply andb_prop in Hr as [_ Hd].
  destruct rest as [|a2 [|]]; cbn [handle_expire]; try apply makes_ret. rewrite Hn in Hd. simpl in Hd.
  destruct (parse_u64 a2) as [s|resp] eqn:Es; [|done]. apply makes_call; [|intros ?; done].
  split; cbn; [set_solver|]. by eapply deadline_fits_Ok.
Qed.

(** A command calls the engine on its keys only. *)
Lemma dispatch_makes args mt now :
  cmd_in_range args now = true -> makes (call_in (cmd_keys args)) (dispatch_command (T := prog) args mt now).
Proof.
  intros Hr. destruct args as [|cmd [|key rest]]; [done|by unfold dispatch_command; repeat case_match|].
  unfold dispatch_command, cmd_keys.
  destruct (eq_ignore_ascii_case cmd (bs "PING")); [done|].
  destruct (eq_ignore_ascii_case cmd (bs "GET")); [unfold handle_get; makes|].
  destruct (eq_ignore_ascii_case cmd (bs "SET")) eqn:Hset; [by apply handle_set_makes|].
  destruct (eq_ignore_ascii_case cmd (bs "DEL")); [by apply del_loop_makes|].
  destruct (eq_ignore_ascii_case cmd (bs "EXPIRE")) eqn:Hexp; [by apply handle_expire_makes|].
  destruct (eq_ignore_ascii_case cmd (bs "TTL")); [unfold handle_ttl; makes|].
  by case_match.
Qed.

End dispatch.

(** ** The commands to come *)

Section sessions.
Context `{FloatFormat} `{BytesMut} (p : profile) (w : World) (K : bytes -> Prop).
Implicit Types (q : RespParser) (b : bytes) (cmds : list command) (u : task) (pc : task_pc).

(** Parsing [b] from [q] on gives the commands [cmds], and then asks for more. *)
Fixpoint yields q b cmds : Prop :=
  match cmds with
  | [] => exists s, parse p (q, b) = (Ret (Ok None), s)
  | args :: rest => exists q' b', parse p (q, b) = (Ret (Ok (Some args)), (q', b')) /\ yields q' b' rest
  end.

Lemma encoded_yields q cmds :
  at_start q -> Forall args_sized cmds -> zlen (mjoin (command_wire <$> cmds)) <= ISIZE_MAX ->
  yields q (mjoin (command_wire <$> cmds)) cmds.
Proof.
  intros Hq Hc. revert q Hq. induction Hc as [|args cmds Ha Hc IH]; intros q Hq Hsz.
  { eexists. by apply parse_nothing. }
  change (mjoin (command_wire <$> args :: cmds)) with (command_wire args ++ mjoin (command_wire <$> cmds)) in *.
  destruct (parse_frame p q args (command_wire args) (mjoin (command_wire <$> cmds))) as (q' & Hq' & Ep);
    [done|by apply command_wire_frame|done|].
  exists q', (mjoin (command_wire <$> cmds)). split; [exact Ep|]. apply IH; [done|].
  rewrite zlen_app in Hsz. pose proof (zlen_nonneg (command_wire args)). lia.
Qed.

(** Parsing what has arrived, with [m] still to come. *)
Lemma yields_parse q b m cmds :
  parser_wf q -> zlen (b ++ m) <= ISIZE_MAX -> yields q (b ++ m) cmds ->
  match parse p (q, b) with
  | (Ret (Ok (Some args)), (q', b')) => parser_wf q' /\ zlen (b' ++ m) <= ISIZE_MAX /\
      exists rest, cmds = args :: rest /\ yields q' (b' ++ m) rest
  | (Ret (Ok None), (q', b')) => parser_wf q' /\ zlen (b' ++ m) <= ISIZE_MAX /\ yields q' (b' ++ m) cmds
  | _ => False
  end.
Proof.
  intros Hq Hsz Hy. assert (Hb : zlen b <= ISIZE_MAX) by (rewrite zlen_app in Hsz; pose proof (zlen_nonneg m); lia).
  pose proof (parse_resumes_ok p q b Hq Hb) as Hr. unfold parse_resumes in Hr.
  destruct (parse p (q, b)) as [[[[args|]|[]]| |] [q' b']]; [| |exfalso..].
  - destruct Hr as (Hq' & Hlt & Hm). specialize (Hm m Hsz). split; [done|]. split; [unfold zlen in *; rewrite !length_app in *; lia|].
    destruct cmds as [|args' rest]; cbn [yields] in Hy; rewrite Hm in Hy; [by destruct Hy|].
    destruct Hy as (q2 & b2 & [= <- <- <-] & Hy). by exists rest.
  - destruct Hr as (Hq' & Hle & Hm). specialize (Hm m Hsz). split; [done|]. split; [unfold zlen in *; rewrite !length_app in *; lia|].
    destruct cmds; cbn [yields] in *; by rewrite Hm in Hy.
  - destruct Hr as (_ & _ & Hm). specialize (Hm m Hsz). destruct cmds; cbn [yields] in Hy; rewrite Hm in Hy; naive_solver.
  - specialize (Hr m Hsz). destruct cmds; cbn [yields] in Hy; rewrite Hr in Hy; naive_solver.
  - done.
Qed.

(** ** The task *)

(** Request [i] is for the command [args]. *)
Definition request_ok (i : nat) (args : command) : Prop :=
  is_info args = false /\ cmd_in_range args (clock w i) = true /\ forall k, k ∈ cmd_keys args -> K k.

(** The call is on keys in [K], and covered by the contract. *)
Definition call_allowed (c : kv_call) : Prop := K (call_key c) /\ forall m, call_fits c m.

Fixpoint pc_allowed (i : nat) pc : Prop :=
  match pc with
  | Recording _ next => pc_allowed i next
  | Dispatching args => request_ok (pred i) args
  | Loading _ _ _ => False
  | Running x => makes call_allowed x
  | _ => True
  end.

(** [cmds] are the commands of the session that the task has not taken up. *)
Record in_session u cmds (rest : list bytes) : Prop := mkInSession {
  ns_world : tk_world u = w;
  ns_parser : parser_wf (tk_parser u);
  ns_size : zlen (tk_buf u ++ mjoin rest) <= ISIZE_MAX;
  ns_reads : tk_reads u = stream_of rest;
  ns_yields : yields (tk_parser u) (tk_buf u ++ mjoin rest) cmds;
  ns_cmds : forall i args, cmds !! i = Some args -> request_ok (tk_served u + i) args;
  ns_pc : pc_allowed (tk_served u) (tk_pc u)
}.

Definition task_ended u : bool := match tk_pc u with Ended _ _ | Crashed => true | _ => false end.

Definition session_task u : Prop := task_ended u = true \/ exists cmds rest, in_session u cmds rest.

Lemma session_task_allowed u : session_task u ->
  is_loading u = false /\ forall c, next_call u = Some c -> call_allowed c.
Proof.
  unfold session_task, task_ended, is_loading, next_call. intros [Hu|(cmds & rest & Hu)].
  - by destruct (tk_pc u).
  - pose proof (ns_pc _ _ _ Hu) as Hpc. destruct (tk_pc u) as [| | | | |[r|c next]| | |]; try done.
    split; [done|]. intros c' [= <-]. apply Hpc.
Qed.

Lemma in_session_goto u cmds rest pc :
  in_session u cmds rest -> pc_allowed (tk_served u) pc -> session_task (goto pc u).
Proof. intros [H1 H2 H3 H4 H5 H6 H7] Hpc. right. exists cmds, rest. by split. Qed.

Lemma read_in_session u u' cmds rest : in_session u cmds rest -> read_step u = Some u' -> session_task u'.
Proof.
  intros [H1 H2 H3 H4 H5 H6 H7]. unfold read_step. rewrite H4. destruct rest as [|chunk rest].
  { intros [= <-]. by left. }
  change (stream_of (chunk :: rest)) with (@Ok bytes io_error chunk :: stream_of rest). intros [= <-].
  change (mjoin (chunk :: rest)) with (chunk ++ mjoin rest) in *. rewrite app_assoc in *.
  destruct (zlen chunk =? 0); [by left|]. right. exists cmds, rest. by split.
Qed.

Lemma parse_in_session u cmds rest : in_session u cmds rest -> session_task (parse_step p u).
Proof.
  intros [H1 H2 H3 H4 H5 H6 H7]. pose proof (yields_parse _ _ _ _ H2 H3 H5) as Hy. unfold parse_step.
  destruct (parse p (tk_parser u, tk_buf u)) as [[[[args|]|[]]| |] [q b]]; [| |done..].
  - destruct Hy as (Hq & Hsz & cmds' & -> & Hy). right. exists cmds', rest. split; cbn; try done.
    + intros i args' Hi. rewrite <- Nat.add_succ_r. by apply H6.
    + rewrite <- (Nat.add_0_r (tk_served u)). by apply H6.
  - destruct Hy as (Hq & Hsz & Hy). right. by exists cmds, rest.
Qed.

Lemma step_in_session {E : Type} `{KVEngine E} (e : E) m u e' m' u' ev :
  session_task u -> task_step p e m u = Some (e', m', u', ev) -> session_task u'.
Proof.
  intros [Hu|(cmds & rest & Hu)] Hs.
  { unfold task_ended, task_step in *. by destruct (tk_pc u). }
  pose proof (ns_pc _ _ _ Hu) as Hpc. unfold task_step in Hs.
  destruct (tk_pc u) as [| |[|x ws] next|args|loads seen args|[r|c next]|r closing| |]; try done.
  - destruct (read_step u) as [u1|] eqn:Hr; [|done]. injection Hs as <- <- <- <-. by eapply read_in_session.
  - injection Hs as <- <- <- <-. by eapply parse_in_session.
  - injection Hs as <- <- <- <-. by eapply in_session_goto.
  - destruct (write_metric x m) as [[| |] m1]; injection Hs as <- <- <- <-; [by eapply in_session_goto|by left..].
  - injection Hs as <- <- <- <-. destruct Hpc as (Hi & Hr & Hk). unfold dispatch_step. rewrite Hi. eapply in_session_goto; [done|].
    cbn. rewrite (ns_world _ _ _ Hu). unfold tk_request.
    eapply makes_mono; [|by apply dispatch_makes]. intros c Hc. split; [apply Hk, Hc|]. intros m1. by eapply call_in_fits.
  - injection Hs as <- <- <- <-. eapply in_session_goto; [done|]. done.
  - destruct Hpc as [_ Hnext]. destruct (run_call c e) as [[r| |] e1]; injection Hs as <- <- <- <-; [|by left..].
    eapply in_session_goto; [done|]. apply Hnext.
  - injection Hs as <- <- <- <-. unfold send_step. destruct (write_ok _ _); [|by left].
    right. exists cmds, rest. destruct Hu as [A1 A2 A3 A4 A5 A6 A7]. split; try done. cbn. by destruct closing.
Qed.

End sessions.

(** ** Clients *)

(** The client sends the commands [cmds] in some chunks, then closes; every write to
    it succeeds. *)
Record session_client (x : client) (cmds : list command) : Prop := mkSessionClient {
  sc_reads : exists chunks, x.2 = stream_of chunks /\ Forall (fun chunk => chunk ≠ []) chunks /\
    mjoin chunks = mjoin (command_wire <$> cmds);
  sc_size : zlen (mjoin (command_wire <$> cmds)) <= ISIZE_MAX;
  sc_sized : Forall args_sized cmds;
  sc_range : session_in_range x.1 0 cmds = true;
  sc_writes : forall i, write_ok x.1 i = true
}.

Lemma session_in_range_lookup w i cmds j args :
  session_in_range w i cmds = true -> cmds !! j = Some args -> cmd_in_range args (clock w (i + j)) = true.
Proof.
  revert i j. induction cmds as [|args' cmds IH]; intros i j Hr Hj; [done|].
  cbn [session_in_range] in Hr. apply andb_prop in Hr as [Hr Hrs]. destruct j as [|j].
  - injection Hj as ->. by rewrite Nat.add_0_r.
  - rewrite <- Nat.add_succ_comm. by apply IH.
Qed.

Section clients.
Context `{FloatFormat} `{BytesMut} (p : profile) (m0 : Metrics) (sto0 : kv).

(** A session that leaves out INFO is private to the keys it names. *)
Lemma session_private (x : client) (cmds : list command) :
  session_client x cmds -> Forall (fun args => is_info args = false) cmds ->
  private p m0 sto0 (fun k => k ∈ mjoin (cmd_keys <$> cmds)) x.
Proof.
  intros [(chunks & Hx & _ & Hj) Hsz Hs Hr _] Hi. set (K k := k ∈ mjoin (cmd_keys <$> cmds)).
  assert (Hall : forall n u, sv_tasks (alone p m0 sto0 x n) !! 0%nat = Some u -> session_task p x.1 K u).
  { induction n as [|n IH]; intros u Hu.
    - injection Hu as <-. right. exists cmds, chunks. split; cbn; try done.
      + by rewrite Hj.
      + rewrite Hj. by apply encoded_yields.
      + intros i args Ha. split; [exact (Forall_lookup_1 _ _ _ _ Hi Ha)|]. split; [by eapply (session_in_range_lookup _ 0)|].
        intros k Hk. unfold K. apply list_elem_of_join. exists (cmd_keys args). split; [done|].
        apply list_elem_of_fmap. exists args. split; [done|by eapply list_elem_of_lookup_2].
    - destruct (alone_task p m0 sto0 x n) as [u1 Hu1]. specialize (IH u1 Hu1). rewrite alone_next in Hu.
      cbn [server_step] in Hu. rewrite Hu1 in Hu.
      destruct (task_step p _ _ u1) as [[[[e' m'] u2] ev]|] eqn:Hstep; cbn in Hu.
      + rewrite list_lookup_insert_eq in Hu by (by eapply lookup_lt_Some). injection Hu as <-. by eapply step_in_session.
      + rewrite Hu1 in Hu. by injection Hu as <-. }
  intros n u Hu. destruct (session_task_allowed _ _ _ _ (Hall n u Hu)) as [Hl Hc]. split; [done|].
  intros c Hn. destruct (Hc c Hn) as [HK Hf]. by split.
Qed.

(** Alone it is served to its end, with the replies of the session. *)
Lemma session_served (x : client) (cmds : list command) :
  session_client x cmds -> hist_ok (mt_latency m0) ->
  exists c, handle_connection_with_metrics p x.1 x.2 (conn_new sto0 m0) = (Ret Finished, c) /\
    session x.1 0 cmds m0 sto0 = (cn_out c, cn_metrics c, cn_engine c).
Proof.
  intros [(chunks & Hx & Hne & Hj) Hsz Hs Hr Hw] Hh.
  destruct (connection_session p x.1 sto0 m0 cmds chunks) as (c & Ec & _ & Es); try done; [by rewrite Hj|].
  exists c. rewrite Hx. by split.
Qed.

End clients.
