(* ===== verification/ServerTasksInfo.v ===== *)
(** * What INFO shows while other connections are served

    A snapshot loads the counters one after the other, so that they need not belong
    together; each of them still lies between its values when the command was
    dispatched and when the response has been written. *)

From S2P Require Import Prelude Decimal HkvError Engine KVEngine EngineTheorems.
From S2P Require Import RespParser Metrics ClientResp Server ServerSpec ServerTasks ServerTasksAlone ServerTasksIsolated.

(** ** Counters *)

#[global] Instance metric_load_eq_dec : EqDecision metric_load.
Proof. solve_decision. Defined.

(** The counter that a load reads. *)
Definition counter (x : metric_load) (m : Metrics) : Z :=
  match x with
  | LoadRequests => mt_requests_total m
  | LoadErrors => mt_errors_total m
  | LoadInflight => mt_inflight m
  | LoadBucket i => default 0 (lh_buckets (mt_latency m) !! i)
  | LoadSamples => lh_samples (mt_latency m)
  | LoadSum => lh_sum_us (mt_latency m)
  | LoadMax => lh_max_us (mt_latency m)
  end.

(** The counters that go up by one at a time, and those that never go down as long as
    these do not overflow. *)
Definition counts (x : metric_load) : bool :=
  match x with LoadRequests | LoadErrors | LoadBucket _ | LoadSamples => true | _ => false end.
Definition rises (x : metric_load) : bool :=
  match x with LoadMax => true | _ => counts x end.

Definition bounded (n : Z) (m : Metrics) : Prop := forall x, counts x = true -> 0 <= counter x m <= n.
Definition risen (m m' : Metrics) : Prop := forall x, rises x = true -> counter x m <= counter x m'.

#[global] Instance risen_preorder : PreOrder risen.
Proof. split; [intros m x; done|]. intros m1 m2 m3 H1 H2 x Hx. specialize (H1 x Hx). specialize (H2 x Hx). lia. Qed.

Lemma write_counter w m (n : Z) x :
  bounded n m -> n < U64_MAX -> counts x = true -> counter x m <= counter x (write_metric w m).2 <= counter x m + 1.
Proof.
  intros Hb Hn Hx. pose proof (Hb x Hx) as Hxm.
  assert (Hw : forall c, 0 <= c <= n -> wrapping_add c 1 = c + 1).
  { intros c Hc. unfold wrapping_add. apply wrap64_small. change USIZE_MAX with U64_MAX. lia. }
  destruct w as [| | | | | | |j]; destruct x as [| | |i| | |]; try done; cbn in *; try lia; try (rewrite Hw by done; lia).
  all: destruct (lh_buckets (mt_latency m) !! j) as [c|] eqn:Hc; cbn in *; try lia.
  destruct (decide (i = j)) as [->|Hne].
  - rewrite list_lookup_insert_eq by (by eapply lookup_lt_Some). rewrite Hc in *. cbn in *. rewrite Hw by done. lia.
  - rewrite list_lookup_insert_ne by done. lia.
Qed.

Lemma write_rises w m n : bounded n m -> n < U64_MAX -> bounded (n + 1) (write_metric w m).2 /\ risen m (write_metric w m).2.
Proof.
  intros Hb Hn. split; intros x Hx.
  - pose proof (write_counter w m n x Hb Hn Hx). pose proof (Hb x Hx). lia.
  - destruct (counts x) eqn:Hc; [by apply (write_counter w m n)|]. destruct x; try done.
    destruct w; cbn; try lia; [unfold update_max; destruct (Z.ltb_spec (lh_max_us (mt_latency m)) micros); lia|].
    by destruct (lh_buckets (mt_latency m) !! i).
Qed.

(** ** The snapshot *)

(** What has been [seen], with [loads] still to make: every other counter that rises
    was read between [m1] and [m]. *)
Definition shows (m1 m : Metrics) (loads : list metric_load) (seen : Metrics) : Prop :=
  blank seen = blank m /\
  forall x, rises x = true -> x ∈ loads \/ counter x m1 <= counter x seen <= counter x m.

Lemma shows_mono m1 m m' loads seen : blank m' = blank m -> risen m m' -> shows m1 m loads seen -> shows m1 m' loads seen.
Proof.
  intros Hb Hr [Hs Hx]. split; [congruence|]. intros x H. destruct (Hx x H) as [|Hle]; [by left|].
  specialize (Hr x H). right. lia.
Qed.

Lemma bucket_in_loads m i : LoadBucket i ∈ snapshot_loads m \/ (length (lh_buckets (mt_latency m)) <= i)%nat.
Proof.
  destruct (decide (i < length (lh_buckets (mt_latency m)))%nat) as [Hi|]; [left|right; lia].
  unfold snapshot_loads. rewrite !elem_of_app. right. left. apply list_elem_of_fmap. exists i. split; [done|].
  apply elem_of_seq. lia.
Qed.

Lemma shows_start m1 m : blank m = blank m1 -> shows m1 m (snapshot_loads m) (blank m).
Proof.
  intros Hb. split.
  { unfold blank. cbn. by rewrite length_replicate. }
  intros x Hx. destruct x as [| | |i| | |]; try done.
  - left. unfold snapshot_loads. set_solver.
  - left. unfold snapshot_loads. set_solver.
  - destruct (bucket_in_loads m i) as [|Hi]; [by left|right]. destruct (blank_eq _ _ Hb) as [_ Hl]. cbn.
    rewrite !lookup_ge_None_2 by (rewrite ?length_replicate; lia). cbn. lia.
  - left. unfold snapshot_loads. set_solver.
  - left. unfold snapshot_loads. set_solver.
Qed.

Lemma load_counter x y m seen : blank seen = blank m ->
  counter x (load_metric y m seen) = if decide (x = y) then counter x m else counter x seen.
Proof.
  intros [_ Hl]%blank_eq. destruct (decide (x = y)) as [<-|Hne].
  - destruct x as [| | |i| | |]; cbn; try done. destruct (decide (i < length (lh_buckets (mt_latency seen)))%nat) as [Hi|Hi].
    + by rewrite list_lookup_insert_eq.
    + rewrite list_insert_ge by lia. by rewrite !lookup_ge_None_2 by lia.
  - destruct x as [| | |i| | |], y as [| | |j| | |]; cbn; try done. by rewrite list_lookup_insert_ne by congruence.
Qed.

Lemma blank_load x m seen : blank (load_metric x m seen) = blank seen.
Proof. destruct x; try done. unfold blank. cbn. by rewrite length_insert. Qed.

Lemma shows_load m1 m x loads seen : risen m1 m -> shows m1 m (x :: loads) seen -> shows m1 m loads (load_metric x m seen).
Proof.
  intros Hr [Hs Hx]. split; [by rewrite blank_load|]. intros y Hy. rewrite load_counter by done.
  destruct (decide (y = x)) as [->|Hne]; [right; specialize (Hr x Hy); lia|].
  destruct (Hx y Hy) as [[?|?]%elem_of_cons|?]; [done|by left|by right].
Qed.

(** [INFO] is answered from the snapshot. *)
Lemma dispatch_info `{FloatFormat} args m (now : nat -> Z) :
  is_info args = true -> dispatch_command (T := prog) args m now = Done (handle_info m now).
Proof.
  destruct args as [|cmd args]; [done|]. cbn [is_info]. intros Hi. unfold dispatch_command.
  assert (Hn : forall other, eq_ignore_ascii_case (bs "INFO") other = false -> eq_ignore_ascii_case cmd other = false).
  { intros other. rewrite !eq_ignore_lower. rewrite eq_ignore_lower in Hi. apply bool_decide_eq_true in Hi. by rewrite Hi. }
  rewrite !Hn by done. by rewrite Hi.
Qed.

Section info.
Context {E : Type} `{KVEngine E} `{Sweeper E} `{FloatFormat} `{BytesMut} (p : profile).
Implicit Types (s : server E) (m : Metrics) (u : task).

(** A step writes at most one metric. *)
Lemma task_writes (e : E) m u e' m' u' ev :
  task_step p e m u = Some (e', m', u', ev) -> m' = m \/ exists w, m' = (write_metric w m).2.
Proof.
  unfold task_step. destruct (tk_pc u) as [| |[|w ws] next|args|[|x loads] seen args|[r|c next]|r closing| |]; try naive_solver.
  - destruct (read_step u); naive_solver.
  - destruct (write_metric w m) as [o m1] eqn:Ew. intros [= _ <- _ _]. right. exists w. by rewrite Ew.
  - destruct (run_call c e) as [[r| |] e0]; naive_solver.
Qed.

Lemma step_rises x s s' ev n :
  server_step p x s = Some (s', ev) -> bounded n (sv_metrics s) -> n < U64_MAX ->
  bounded (n + 1) (sv_metrics s') /\ risen (sv_metrics s) (sv_metrics s') /\ blank (sv_metrics s') = blank (sv_metrics s).
Proof.
  intros Hs Hb Hn.
  assert (Hsame : forall m', m' = sv_metrics s \/ (exists w, m' = (write_metric w (sv_metrics s)).2) ->
    bounded (n + 1) m' /\ risen (sv_metrics s) m' /\ blank m' = blank (sv_metrics s)).
  { intros m' [->|[w ->]].
    - split_and!; [|reflexivity|done]. intros x' Hx. specialize (Hb x' Hx). lia.
    - destruct (write_rises w _ _ Hb Hn). split_and!; [done..|]. apply blank_write. }
  apply Hsame. destruct x as [|j now|a]; cbn [server_step] in Hs.
  - unfold accept_step in Hs. destruct (sv_exit s), (sv_incoming s) as [|[]]; naive_solver.
  - destruct (kv_sweep j now (sv_engine s)) as [[| |] ?]; naive_solver.
  - destruct (sv_tasks s !! a) as [u|]; [|done]. destruct (task_step p _ _ u) as [[[[e' m'] u'] ev']|] eqn:Hu; [|done].
    injection Hs as <- _. by eapply task_writes.
Qed.

(** ** The task that serves it *)

(** The response shows counters from between [m1] and [m]. *)
Definition answers (m1 m : Metrics) (now : nat -> Z) (r : bytes) : Prop :=
  exists seen, r = handle_info seen now /\ shows m1 m [] seen.

(** How far the task is that was about to dispatch INFO as [u0]. *)
Definition stage (m1 : Metrics) (u0 : task) (args : command) (m : Metrics) (u : task) : Prop :=
  let now := clock (tk_world u0) (tk_request u0) in
  (tk_out u = tk_out u0 /\ tk_world u = tk_world u0 /\ tk_served u = tk_served u0 /\
    match tk_pc u with
    | Dispatching a => a = args
    | Loading loads seen a => a = args /\ shows m1 m loads seen
    | Running x => exists r, x = Done r /\ answers m1 m now r
    | Recording _ next => exists r, next = Sending r false /\ answers m1 m now r
    | Sending r _ => answers m1 m now r
    | Ended _ _ | Crashed => True
    | Reading | Parsing => False
    end) \/
  exists r rest, tk_out u = tk_out u0 ++ r :: rest /\ answers m1 m now r.

Lemma answers_mono m1 m m' now r : blank m' = blank m -> risen m m' -> answers m1 m now r -> answers m1 m' now r.
Proof. intros Hb Hr (seen & -> & Hs). exists seen. split; [done|by eapply shows_mono]. Qed.

Lemma stage_mono m1 u0 args m m' u : blank m' = blank m -> risen m m' -> stage m1 u0 args m u -> stage m1 u0 args m' u.
Proof.
  intros Hb Hr. pose proof (fun r => answers_mono m1 m m' (clock (tk_world u0) (tk_request u0)) r Hb Hr) as Ha.
  unfold stage. intros [(Ho & Hw & Hs & Hpc)|(r & rest & Ho & Hx)]; [left|right; eauto 6].
  split_and!; [done..|]. destruct (tk_pc u); try done; [naive_solver| |naive_solver|auto].
  destruct Hpc as [? Hpc]. split; [done|by eapply shows_mono].
Qed.

Lemma stage_step m1 u0 args (e : E) m u e' m' u' ev :
  is_info args = true -> blank m = blank m1 -> risen m1 m -> blank m' = blank m -> risen m m' ->
  stage m1 u0 args m u -> task_step p e m u = Some (e', m', u', ev) -> stage m1 u0 args m' u'.
Proof.
  intros Hi Hb Hr Hb' Hr' [(Ho & Hw & Hs & Hpc)|(r & rest & Ho & Hx)] Hstep.
  - apply (stage_mono _ _ _ m); [done..|]. clear Hb' Hr'. unfold stage. unfold task_step in Hstep.
    destruct (tk_pc u) as [| |[|w ws] next|a|[|x loads] seen a|[r|c next]|r closing| |]; try done.
    + destruct Hpc as (r & -> & Hx). injection Hstep as _ _ <- _. by left.
    + destruct Hpc as (r & -> & Hx). destruct (write_metric w m) as [[| |] m2]; injection Hstep as _ _ <- _; left; split_and!; try done; cbn; by eauto.
    + subst a. injection Hstep as _ _ <- _. left. unfold dispatch_step. rewrite Hi. cbn. split_and!; [done..|]. by apply shows_start.
    + destruct Hpc as [-> Hx]. injection Hstep as _ _ <- _. left. cbn. split_and!; [done..|].
      rewrite dispatch_info by done. eexists. split; [done|]. exists seen. split; [|done].
      unfold tk_request. by rewrite Hw, Hs.
    + destruct Hpc as [-> Hx]. injection Hstep as _ _ <- _. left. cbn. split_and!; [done..|]. by apply shows_load.
    + destruct Hpc as (r' & [= ->] & Hx). injection Hstep as _ _ <- _. left. split_and!; try done; cbn; by eauto.
    + by destruct Hpc as (r' & ? & _).
    + injection Hstep as _ _ <- _. unfold send_step. destruct (write_ok _ _); [right|left; done].
      exists r, []. cbn. by rewrite Ho.
  - right. destruct (task_step_out p _ _ _ _ _ _ _ Hstep) as [more Hm]. exists r, (rest ++ more).
    rewrite Hm, Ho, <- app_assoc. split; [done|]. by eapply answers_mono.
Qed.

(** A turn of anybody. *)
Lemma server_stage m1 u0 args x s s' ev n a u :
  is_info args = true -> bounded n (sv_metrics s) -> n < U64_MAX ->
  blank (sv_metrics s) = blank m1 -> risen m1 (sv_metrics s) ->
  sv_tasks s !! a = Some u -> stage m1 u0 args (sv_metrics s) u -> server_step p x s = Some (s', ev) ->
  exists u', sv_tasks s' !! a = Some u' /\ stage m1 u0 args (sv_metrics s') u'.
Proof.
  intros Hi Hb Hn Hm Hr Ha Hu Hs. destruct (step_rises _ _ _ _ _ Hs Hb Hn) as (_ & Hr' & Hb').
  pose proof (stage_mono _ _ _ _ _ _ Hb' Hr' Hu) as Hu'. destruct x as [|j now|b]; cbn [server_step] in Hs.
  - exists u. split; [|done]. unfold accept_step in Hs. destruct (sv_exit s); [by destruct (sv_incoming s)|].
    destruct (sv_incoming s) as [|[x|err] rest]; [done|injection Hs as <- _; cbn..]; [by apply lookup_app_l_Some|done].
  - exists u. split; [|done]. destruct (kv_sweep j now (sv_engine s)) as [[| |] ?]; [|done..]. by injection Hs as <- _.
  - destruct (sv_tasks s !! b) as [t|] eqn:Hb0; [|done].
    destruct (task_step p _ _ t) as [[[[e' m'] t'] ev']|] eqn:Ht; [|done]. injection Hs as <- _. cbn in *.
    destruct (decide (a = b)) as [<-|Hne].
    + exists t'. rewrite list_lookup_insert_eq by (by eapply lookup_lt_Some). rewrite Ha in Hb0. injection Hb0 as <-. split; [done|].
      exact (stage_step _ _ _ _ _ _ _ _ _ _ Hi Hm Hr Hb' Hr' Hu Ht).
    + exists u. by rewrite list_lookup_insert_ne.
Qed.

Lemma run_rises sched s h n :
  bounded n (sv_metrics s) -> n + zlen sched <= U64_MAX ->
  bounded (n + zlen sched) (sv_metrics (run_server p sched s h).1) /\
  risen (sv_metrics s) (sv_metrics (run_server p sched s h).1).
Proof.
  revert s h n. induction sched as [|x sched IH]; intros s h n Hb Hn; [by rewrite Z.add_0_r|].
  rewrite zlen_cons in *. pose proof (zlen_nonneg sched). cbn [run_server]. rewrite Z.add_assoc.
  destruct (server_step p x s) as [[s' ev]|] eqn:Hs.
  - destruct (step_rises _ _ _ _ _ Hs Hb ltac:(lia)) as (Hb' & Hr & _).
    assert (Hall : forall h', bounded (n + 1 + zlen sched) (sv_metrics (run_server p sched s' h').1) /\
      risen (sv_metrics s) (sv_metrics (run_server p sched s' h').1)).
    { intros h'. destruct (IH s' h' (n + 1) Hb' ltac:(lia)) as [Hb2 Hr2]. split; [done|]. by etrans. }
    destruct ev; apply Hall.
  - destruct (IH s h n Hb ltac:(lia)) as [Hb' Hr]. split; [|done]. intros y Hy. specialize (Hb' y Hy). lia.
Qed.

Lemma run_stage m1 u0 args sched s h n a u :
  is_info args = true -> bounded n (sv_metrics s) -> n + zlen sched <= U64_MAX ->
  blank (sv_metrics s) = blank m1 -> risen m1 (sv_metrics s) ->
  sv_tasks s !! a = Some u -> stage m1 u0 args (sv_metrics s) u ->
  exists u', sv_tasks (run_server p sched s h).1 !! a = Some u' /\ stage m1 u0 args (sv_metrics (run_server p sched s h).1) u'.
Proof.
  intros Hi. revert s h n u. induction sched as [|x sched IH]; intros s h n u Hb Hn Hm Hr Ha Hu; [by exists u|].
  rewrite zlen_cons in Hn. pose proof (zlen_nonneg sched). cbn [run_server].
  destruct (server_step p x s) as [[s' ev]|] eqn:Hs; [|by apply (IH s h n u); try done; lia].
  destruct (step_rises _ _ _ _ _ Hs Hb ltac:(lia)) as (Hb' & Hr' & Hm').
  destruct (server_stage _ _ _ _ _ _ _ _ _ _ Hi Hb ltac:(lia) Hm Hr Ha Hu Hs) as (u' & Ha' & Hu').
  destruct ev as [ev|]; (eapply (IH s' _ (n + 1) u'); [done|lia|congruence|by etrans|done|done]).
Qed.

End info.
