(* ===== verification/ServerTasksClaims.v ===== *)
(** * Properties of the server process

    The statements about many connections over one engine and one [Metrics] this
    development vouches for, each with an instance. *)

From S2P Require Import Prelude Decimal HkvError Shard ShardInv Engine KVEngine EngineInv EngineSpec Eviction EngineTheorems.
From S2P Require Import RespParser Metrics ClientResp ClientRespInv Server ServerSpec ServerConn ServerSession ServerTasks ServerTasksAlone.
From S2P Require Import ServerTasksMetrics ServerTasksIsolated ServerTasksSessions ServerTasksInfo.

(** ** The start *)

(** Once the address is bound, [main] enters its loop with a fresh engine that meets
    the contract, empty and without a byte limit. *)
Lemma server_main_ready `{EngineEnv} (p : profile) threads addr bind now incoming :
  shards_fit (default_shards threads) -> bind (default (bs "127.0.0.1:6379") addr) = None ->
  exists e, server_main p threads addr bind now incoming = Ret (Ok (server_start e (metrics_new now) incoming)) /\
    kv_inv (H := memory_kv_engine p) e /\ kv_store (H := memory_kv_engine p) e = ∅.
Proof.
  intros Ht Hbind. destruct (engine_new_run p threads Ht) as (b & Hb & Hnew). exists (new_engine b USIZE_MAX).
  unfold server_main. rewrite Hbind, Hnew. split; [done|]. split; [|apply new_engine_store].
  split; [apply new_engine_inv; lia|done].
Qed.

(** ** One connection *)

(** The steps of a task, when no other task is scheduled in between, do exactly
    what [handle_connection_with_metrics] does as one computation: the same engine,
    metrics, responses and parser state, and the task has ended the way the
    connection ends; on any engine, and whatever else the process holds. *)
Theorem undisturbed_connection {E : Type} `{KVEngine E} `{Sweeper E} `{FloatFormat} `{BytesMut} (p : profile)
    (s : server E) (a : nat) (x : client) o c :
  sv_tasks s !! a = Some (task_new x) ->
  handle_connection_with_metrics p x.1 x.2 (conn_new (sv_engine s) (sv_metrics s)) = (o, c) -> o ≠ OutOfFuel ->
  exists k evs reads pc,
    let u := mkTask x.1 (cn_parser c) (cn_buf c) (cn_out c) (cn_served c) reads pc in
    (forall h, run_server p (replicate k (ActTask a)) s h =
      (mkServer (cn_engine c) (cn_metrics c) (<[a := u]> (sv_tasks s)) (sv_incoming s) (sv_exit s), h ++ evs)) /\
    match o with
    | Ret Finished => pc = Ended Finished None
    | Ret IoError => exists r, pc = Ended IoError r
    | Ret Waiting => pc = Reading /\ reads = []
    | _ => pc = Crashed
    end.
Proof.
  intros Ha Ho Hfuel. pose proof (lookup_lt_Some _ _ _ Ha) as Hlt.
  pose proof (connection_arrives p x.1 s a Hlt x.2 (conn_new (sv_engine s) (sv_metrics s))) as Harr. rewrite Ho in Harr.
  assert (Hs : process_of x.1 s a (conn_new (sv_engine s) (sv_metrics s)) x.2 Reading = s).
  { unfold process_of. change (task_of x.1 (conn_new (sv_engine s) (sv_metrics s)) x.2 Reading) with (task_new x).
    rewrite list_insert_id by done. by destruct s. }
  destruct o as [r| |]; [|destruct Harr as (reads & k & evs & Hk); by exists k, evs, reads, Crashed; rewrite Hs in Hk|done].
  destruct Harr as (reads & pc & (k & evs & Hk) & Hn). rewrite Hs in Hk. exists k, evs, reads, pc. split; [exact Hk|].
  destruct r; cbn in Hn; naive_solver.
Qed.

(** ** The metrics *)

(** C12: however connections are accepted and interleaved, with each other and with
    the expirer, and whatever they send, the metrics add up: whenever no task is in
    the middle of updating them, the counters are, modulo their width, the requests
    taken up by all connections, their error responses, and the requests without a
    response (in progress, or lost to a failed write or a panic); the histogram
    holds exactly the latencies of the requests answered.  No update is lost. *)
Theorem shared_metrics_add_up {E : Type} `{KVEngine E} `{Sweeper E} `{FloatFormat} `{BytesMut} (p : profile)
    (e : E) (now : Z) (incoming : list (result client io_error)) (sched : list actor) :
  let s := (run_server p sched (server_start e (metrics_new now) incoming) []).1 in
  let m := sv_metrics s in let ts := sv_tasks s in
  Forall (fun t => pending t = []) ts ->
  mt_requests_total m = wrap64 (zsum ((fun t => Z.of_nat (tk_served t)) <$> ts)) /\
  mt_errors_total m = wrap64 (zsum (errors_of <$> ts)) /\
  mt_inflight m = wrap64 (zsum ((fun t => Z.of_nat (tk_served t) - zlen (tk_out t)) <$> ts)) /\
  holds DEFAULT_LATENCY_BUCKETS_US (mjoin (latencies <$> ts)) (mt_latency m).
Proof.
  intros s m ts Hrest. eapply (resting_metrics _ now); [|exact Hrest].
  apply run_server_inv, server_start_inv.
Qed.

(** ** INFO *)

(** C13: what INFO shows while other connections are served: whatever the other tasks
    do between its dispatch and its response, the response is the text of a snapshot
    in which the numbers of requests, errors and samples, every bucket and the maximum
    each lie between their value when the command was dispatched and their value now
    (as long as the process has made less than [2 ^ 64] steps, so that no counter has
    wrapped around).  They need not belong to one moment. *)
Theorem info_shows_counters_between {E : Type} `{KVEngine E} `{Sweeper E} `{FloatFormat} `{BytesMut} (p : profile)
    (e : E) (now : Z) (incoming : list (result client io_error)) (sched sched' : list actor) (a : nat) (u : task)
    (args : command) :
  let start := server_start e (metrics_new now) incoming in
  let before := (run_server p sched start []).1 in let after := (run_server p (sched ++ sched') start []).1 in
  zlen (sched ++ sched') <= U64_MAX -> sv_tasks before !! a = Some u -> tk_pc u = Dispatching args -> is_info args = true ->
  exists u', sv_tasks after !! a = Some u' /\
    forall response, tk_out u' !! length (tk_out u) = Some response -> exists seen,
      response = resp_bulk (info_text (metrics_snapshot seen (clock (tk_world u) (tk_request u) 0%nat))) /\
      forall x, rises x = true -> counter x (sv_metrics before) <= counter x seen <= counter x (sv_metrics after).
Proof.
  intros start before after Hlen Hu Hpc Hi. rewrite zlen_app in Hlen.
  assert (H0' : bounded 0 (sv_metrics start)).
  { intros x Hx. destruct x as [| | |i| | |]; try done. cbn. by do 13 (destruct i as [|i]; [done|]). }
  destruct (run_rises p sched start [] 0 H0') as [Hb _]; [pose proof (zlen_nonneg sched'); lia|].
  unfold after. rewrite run_server_app. fold before in Hb. destruct (run_server p sched start []) as [s1 h1] eqn:Er.
  cbn [fst] in *. subst before.
  destruct (run_stage p (sv_metrics s1) u args sched' s1 h1 (0 + zlen sched) a u Hi Hb ltac:(lia) eq_refl ltac:(reflexivity) Hu)
    as (u' & Hu' & Hst).
  { left. by rewrite Hpc. }
  exists u'. split; [done|]. intros response Hr. destruct Hst as [(Eo & _)|(r & rest & Eo & seen & -> & Hs)].
  - rewrite Eo in Hr. apply lookup_lt_Some in Hr. lia.
  - rewrite Eo, list_lookup_middle in Hr by done. injection Hr as <-. exists seen. split; [done|]. intros x Hx.
    by destruct (proj2 Hs x Hx) as [?%not_elem_of_nil|].
Qed.

(** ** Isolation *)

(** C11: sessions on keys of their own are served as if each had a server of its own,
    as long as no sweep of the expirer has read a clock ahead of a call that takes
    effect after it: under every such interleaving with other connections and with
    the sweeps, a connection has at any time written a prefix of the replies its
    session gets on the abstract store, and after a fixed number of turns, or when it
    cannot go on, all of them; however the network cuts its input.  The commands are
    in the range of sizes and of the clock, and every write of a response succeeds.
    INFO is left out: it reads the shared metrics. *)
Theorem sessions_are_isolated {E : Type} `{SweeperLaws E} `{FloatFormat} `{BytesMut} (p : profile)
    (e : E) (now : Z) (incoming : list (result client io_error)) (cmds : nat -> list command) :
  let start := server_start e (metrics_new now) incoming in
  kv_inv e ->
  (forall a x, incoming !! a = Some (Ok x) ->
    session_client x (cmds a) /\ Forall (fun args => is_info args = false) (cmds a)) ->
  (forall a b k, a ≠ b -> k ∈ mjoin (cmd_keys <$> cmds a) -> k ∈ mjoin (cmd_keys <$> cmds b) -> False) ->
  forall a x, incoming !! a = Some (Ok x) ->
  let replies := (session x.1 0 (cmds a) (metrics_new now) (kv_store e)).1.1 in
  exists n : nat, forall sched sched', let r := run_server p (sched ++ sched') start [] in
    chronological 0 r.2 -> is_Some (sv_tasks (run_server p sched start []).1 !! a) ->
    exists u, sv_tasks r.1 !! a = Some u /\ tk_out u `prefix_of` replies /\
      ((n <= turns_of a sched')%nat \/ waits u -> waits u /\ tk_out u = replies).
Proof.
  intros start He Hc Hd a x Ha replies. destruct (Hc a x Ha) as [Hx Hi].
  destruct (session_served p (metrics_new now) (kv_store e) x (cmds a)) as (c & Ec & Es); [done|done|].
  assert (Er : replies = cn_out c) by (unfold replies; by rewrite Es). rewrite Er.
  eapply (isolated_end p (metrics_new now) (kv_store e) incoming (fun a k => k ∈ mjoin (cmd_keys <$> cmds a))); try done.
  intros b y Hb. destruct (Hc b y Hb). by apply session_private.
Qed.

(** ** Instances *)

#[local] Instance demo_engine : KVEngine MemoryEngine := @memory_kv_engine demo_env Debug.
#[local] Instance demo_laws : KVEngineLaws MemoryEngine := @memory_kv_laws demo_env Debug.
#[local] Instance demo_sweeper : Sweeper MemoryEngine := @memory_sweeper demo_env.
#[local] Instance demo_sweeps : SweeperLaws MemoryEngine := @memory_sweeper_laws demo_env Debug.
#[local] Instance demo_format : FloatFormat := {| fmt3 := fun _ => bs "0.000" |}.
#[local] Existing Instance demo_buf.

(** Two shards, no byte limit. *)
Definition demo_shared : MemoryEngine := new_engine 1 USIZE_MAX.

Lemma demo_shared_inv : kv_inv demo_shared.
Proof. split; [by apply new_engine_inv|done]. Qed.

(** A client whose clock stands at [now]; every answer takes [latency], and what it
    sends arrives in two pieces. *)
Definition demo_client (now latency : Z) (cmds : list command) : client :=
  let input := mjoin (command_wire <$> cmds) in
  (mkWorld (fun _ _ => now) (fun _ => latency) (fun _ => true), stream_of [take 10 input; drop 10 input]).

(** What the two clients send. *)
Definition demo_sent (a : nat) : list command :=
  match a with
  | 0%nat => [[bs "SET"; bs "a"; bs "1"]; [bs "GET"; bs "a"]; [bs "NONE"]]
  | 1%nat => [[bs "SET"; bs "b"; bs "2"; bs "EX"; bs "1"]; [bs "TTL"; bs "b"]; [bs "DEL"; bs "b"]]
  | _ => []
  end.

Definition client_a : client := demo_client 5 1000 (demo_sent 0).
Definition client_b : client := demo_client 7 3000 (demo_sent 1).
Definition demo_incoming : list (result client io_error) := [Ok client_a; Ok client_b].

(** Both make their steps in turn, the expirer between them. *)
Definition demo_turns : list actor :=
  mjoin (replicate 60 [ActTask 0; ActTask 1; ActSweep 0 3; ActTask 1; ActTask 0; ActSweep 1 4]).

Definition demo_sched : list actor := [ActAccept; ActAccept] ++ demo_turns.

Abbreviation demo_run := (run_server Debug demo_sched (server_start demo_shared (metrics_new 0) demo_incoming) []).

Definition is_pending (u : task) : bool := match pending u with [] => false | _ => true end.

Lemma undisturbed_connection_witness :
  let s := server_start demo_shared (metrics_new 0) [] in
  let s1 := mkServer (sv_engine s) (sv_metrics s) [task_new client_b; task_new client_a] [] None in
  exists k evs reads pc c, let u := mkTask client_a.1 (cn_parser c) (cn_buf c) (cn_out c) (cn_served c) reads pc in
    (forall h, run_server Debug (replicate k (ActTask 1)) s1 h =
      (mkServer (cn_engine c) (cn_metrics c) [task_new client_b; u] [] None, h ++ evs)) /\
    cn_out c = [resp_simple (bs "OK"); resp_bulk (bs "1"); resp_error (bs "unknown command")].
Proof.
  destruct (handle_connection_with_metrics Debug client_a.1 client_a.2 (conn_new demo_shared (metrics_new 0))) as [o c] eqn:Ho.
  assert (Hc : o = Ret Finished /\ cn_out c = [resp_simple (bs "OK"); resp_bulk (bs "1"); resp_error (bs "unknown command")]).
  { vm_compute in Ho. injection Ho as <- <-. split; reflexivity. }
  destruct (undisturbed_connection Debug (mkServer demo_shared (metrics_new 0) [task_new client_b; task_new client_a] [] None)
    1 client_a o c eq_refl Ho) as (k & evs & reads & pc & Hk & _); [by rewrite (proj1 Hc)|].
  exists k, evs, reads, pc, c. split; [exact Hk|apply Hc].
Defined.

Lemma demo_run_resting : Forall (fun t => pending t = []) (sv_tasks demo_run.1).
Proof. vm_compute. repeat constructor. Qed.

Lemma shared_metrics_add_up_witness :
  mt_requests_total (sv_metrics demo_run.1) = 6 /\ mt_errors_total (sv_metrics demo_run.1) = 1 /\
  mt_inflight (sv_metrics demo_run.1) = 0.
Proof.
  destruct (shared_metrics_add_up Debug demo_shared 0 demo_incoming demo_sched demo_run_resting) as (H1 & H2 & H3 & _).
  rewrite H1, H2, H3. vm_compute. split_and!; reflexivity.
Defined.

Lemma demo_session (a : nat) x :
  demo_incoming !! a = Some (Ok x) -> session_client x (demo_sent a) /\ Forall (fun args => is_info args = false) (demo_sent a).
Proof.
  assert (Hd : forall now latency cmds, Forall args_sized cmds -> session_in_range (demo_client now latency cmds).1 0 cmds = true ->
    (10 < length (mjoin (command_wire <$> cmds)))%nat -> zlen (mjoin (command_wire <$> cmds)) <= ISIZE_MAX ->
    session_client (demo_client now latency cmds) cmds).
  { intros now latency cmds Hs Hr Hl Hz. set (input := mjoin (command_wire <$> cmds)) in *. split; [|done..].
    exists [take 10 input; drop 10 input]. split; [done|].
    split; [|by change (take 10 input ++ drop 10 input ++ [] = input); rewrite app_nil_r, take_drop].
    assert (Hlen : forall l : bytes, l ≠ [] <-> length l ≠ 0%nat) by (intros []; cbn; split; congruence).
    repeat constructor; apply Hlen; rewrite ?length_take, ?length_drop; lia. }
  destruct a as [|[|a]]; [..|done]; intros [= <-]; (split; [|by repeat constructor]).
  all: apply Hd; [repeat constructor; vm_compute; done|vm_compute; reflexivity|apply Nat.ltb_lt; vm_compute; reflexivity|].
  all: vm_compute; discriminate.
Qed.

Lemma demo_keys_disjoint (a b : nat) k : a ≠ b ->
  k ∈ mjoin (cmd_keys <$> demo_sent a) -> k ∈ mjoin (cmd_keys <$> demo_sent b) -> False.
Proof.
  assert (Hk : forall c : nat, k ∈ mjoin (cmd_keys <$> demo_sent c) -> (c = 0%nat /\ k = bs "a") \/ (c = 1%nat /\ k = bs "b")).
  { intros [|[|c]]; vm_compute; set_solver. }
  intros Hab Ha Hb. destruct (Hk a Ha) as [[-> ->]|[-> ->]], (Hk b Hb) as [[-> E]|[-> E]]; done.
Qed.

(** Two clients that race for one key, while the expirer sweeps. *)
Definition demo_racing : list (result client io_error) :=
  [Ok (demo_client 5 1000 [[bs "SET"; bs "k"; bs "v"; bs "EX"; bs "10"]; [bs "INFO"]]); Ok (demo_client 5 1000 [[bs "DEL"; bs "k"]; [bs "TTL"; bs "k"]])].

Lemma demo_between x lo hi (m m' seen : Metrics) :
  counter x m = lo -> counter x m' = hi -> counter x m <= counter x seen <= counter x m' -> lo <= counter x seen <= hi.
Proof. by intros <- <-. Qed.

(** INFO is dispatched after 74 steps, with four requests taken up and two finished. *)
Lemma info_shows_counters_between_witness : exists u response seen,
  sv_tasks (run_server Debug (take 74 demo_sched ++ drop 74 demo_sched)
    (server_start demo_shared (metrics_new 0) demo_racing) []).1 !! 0%nat = Some u /\
  tk_out u !! 1%nat = Some response /\ response = resp_bulk (info_text (metrics_snapshot seen 5)) /\
  4 <= mt_requests_total seen <= 4 /\ 2 <= lh_samples (mt_latency seen) <= 4.
Proof.
  assert (Hu : exists u, sv_tasks (run_server Debug (take 74 demo_sched) (server_start demo_shared (metrics_new 0) demo_racing) []).1
    !! 0%nat = Some u /\ tk_pc u = Dispatching [bs "INFO"] /\ length (tk_out u) = 1%nat /\
    clock (tk_world u) (tk_request u) 0%nat = 5) by (eexists; split; [vm_compute; reflexivity|split_and!; reflexivity]).
  destruct Hu as (u & Hu & Hpc & Hout & Hclock).
  destruct (info_shows_counters_between Debug demo_shared 0 demo_racing (take 74 demo_sched) (drop 74 demo_sched) 0 u [bs "INFO"])
    as (u' & Hu' & Hr); [by vm_compute|exact Hu|exact Hpc|done|].
  assert (Hresp : exists response, tk_out u' !! length (tk_out u) = Some response).
  { rewrite Hout. vm_compute in Hu'. injection Hu' as <-. eexists. reflexivity. }
  destruct Hresp as [response Hresp]. destruct (Hr response Hresp) as (seen & -> & Hx). rewrite Hclock, Hout in *.
  exists u', (resp_bulk (info_text (metrics_snapshot seen 5))), seen. split; [exact Hu'|]. split; [exact Hresp|].
  split; [reflexivity|]. split; [eapply (demo_between LoadRequests 4 4)|eapply (demo_between LoadSamples 2 4)];
    try (apply Hx; reflexivity); vm_compute; reflexivity.
Defined.

(** Client [a] among the others gets the answers it gets alone. *)
Lemma sessions_are_isolated_witness : exists u,
  sv_tasks demo_run.1 !! 0%nat = Some u /\
  tk_out u = [resp_simple (bs "OK"); resp_bulk (bs "1"); resp_error (bs "unknown command")].
Proof.
  destruct (sessions_are_isolated Debug demo_shared 0 demo_incoming demo_sent demo_shared_inv demo_session demo_keys_disjoint
    0 client_a eq_refl) as (n & Hn).
  destruct (Hn [ActAccept; ActAccept] demo_turns) as (u & Hu & _ & Hend).
  - vm_compute. repeat split; discriminate.
  - vm_compute. by eexists.
  - assert (Hw : exists u, sv_tasks demo_run.1 !! 0%nat = Some u /\ waits u) by (eexists; split; vm_compute; reflexivity).
    destruct Hw as (u' & Hu' & Hw). change ([ActAccept; ActAccept] ++ demo_turns) with demo_sched in Hu.
    rewrite Hu in Hu'. injection Hu' as <-. exists u. split; [exact Hu|].
    destruct (Hend (or_intror Hw)) as [_ ->]. vm_compute. reflexivity.
Defined.

(** ** What interleaving makes visible *)

(** Both calls of the client read the clock at 5, and the sweep between them reads it
    eleven seconds later: the key is gone although it has not expired for its
    reader.  The expirer can be that far ahead, since the engine's calls read the
    clock before they take the lock. *)
Lemma sweep_ahead_is_visible :
  let clients := [demo_client 5 1000 [[bs "SET"; bs "k"; bs "v"; bs "EX"; bs "10"]; [bs "GET"; bs "k"]]] in
  let run sweeps := run_server Debug ([ActAccept] ++ replicate 23 (ActTask 0) ++ sweeps ++ replicate 30 (ActTask 0))
    (server_start demo_shared (metrics_new 0) (Ok <$> clients)) [] in
  let late := run [ActSweep 0 (from_secs 11); ActSweep 1 (from_secs 11)] in
  tk_out <$> sv_tasks late.1 = [[resp_simple (bs "OK"); resp_null]] /\
  tk_out <$> sv_tasks (run []).1 = [[resp_simple (bs "OK"); resp_bulk (bs "v")]] /\ ~ chronological 0 late.2.
Proof. vm_compute. split_and!; [reflexivity|reflexivity|]. intros Hc. decompose [and] Hc. congruence. Qed.

Definition racing (cmds : list command) : client := demo_client 5 1000 cmds.

Definition outputs (s : server MemoryEngine) : list (list bytes) := tk_out <$> sv_tasks s.

(** [SET key value EX seconds] is two calls: a DEL of another connection between
    them makes the second one fail, and the client is told of an engine error although
    its value was stored. *)
Lemma set_ex_is_not_atomic :
  let clients := [racing [[bs "SET"; bs "k"; bs "v"; bs "EX"; bs "10"]]; racing [[bs "DEL"; bs "k"]]] in
  let sched := [ActAccept; ActAccept] ++ replicate 9 (ActTask 0) ++ replicate 30 (ActTask 1) ++ replicate 30 (ActTask 0) in
  let s := (run_server Debug sched (server_start demo_shared (metrics_new 0) (Ok <$> clients)) []).1 in
  outputs s = [[resp_error (bs "engine error")]; [resp_integer 1]] /\ kv_store (sv_engine s) = ∅ /\ Forall waits (sv_tasks s).
Proof. vm_compute. split_and!; try reflexivity. repeat constructor. Qed.

(** And a reader between them sees a value that never expires. *)
Lemma set_ex_shows_no_expiry :
  let clients := [racing [[bs "SET"; bs "k"; bs "v"; bs "EX"; bs "10"]]; racing [[bs "TTL"; bs "k"]]] in
  let sched := [ActAccept; ActAccept] ++ replicate 9 (ActTask 0) ++ replicate 30 (ActTask 1) ++ replicate 30 (ActTask 0) in
  let s := (run_server Debug sched (server_start demo_shared (metrics_new 0) (Ok <$> clients)) []).1 in
  outputs s = [[resp_simple (bs "OK")]; [resp_integer (-1)]].
Proof. vm_compute. reflexivity. Qed.

(** A snapshot is not of one point in time: here INFO has seen more errors than
    requests. *)
Lemma snapshot_is_torn :
  let clients := [racing [[bs "INFO"]]; racing [[bs "NONE"]; [bs "NONE"]]] in
  let sched := [ActAccept; ActAccept] ++ replicate 9 (ActTask 0) ++ replicate 40 (ActTask 1) ++ [ActTask 0] in
  let s := (run_server Debug sched (server_start demo_shared (metrics_new 0) (Ok <$> clients)) []).1 in
  exists u loads seen args, sv_tasks s !! 0%nat = Some u /\ tk_pc u = Loading loads seen args /\
    mt_requests_total seen = 1 /\ mt_errors_total seen = 2.
Proof. do 4 eexists. split_and!; vm_compute; reflexivity. Qed.
