(* ===== verification/Types.v ===== *)
(** * Type soundness of the integer models: the engine

    Bytes, machine words and instants are modelled by [Z].  Every operation of the
    engine keeps every such value of its state within the range of its Rust type,
    and returns such values, whether it returns or panics, on any engine, links
    and indices broken or not. *)

From S2P Require Import Prelude HkvError Shard Engine KVEngine EngineTheorems.

(** ** Typed values *)

Definition is_byte (b : Z) : Prop := 0 <= b <= 255.
Definition is_bytes (l : bytes) : Prop := Forall is_byte l.
Definition is_usize (x : Z) : Prop := 0 <= x <= USIZE_MAX.

(** Records, so that unification does not compare their bounds. *)
Record is_instant (t : Z) : Prop := instant_range { instant_nonneg : 0 <= t; instant_max : t <= INSTANT_MAX }.

(** A [Duration]: 64 bits of seconds and less than a second. *)
Record is_duration (d : Z) : Prop := duration_range {
  duration_nonneg : 0 <= d;
  duration_max : d <= U64_MAX * NANOS_PER_SEC + 999999999
}.

(** [opt P]: of an optional value. *)
Definition opt {A} (P : A -> Prop) (o : option A) : Prop := forall a, o = Some a -> P a.

(** Of a [Result]: a typed value, or an error. *)
Definition res {A} (P : A -> Prop) (r : HkvResult A) : Prop := forall a, r = Ok a -> P a.

Definition any {A} (a : A) : Prop := True.

#[global] Instance is_byte_dec b : Decision (is_byte b).
Proof. unfold is_byte. apply _. Defined.

(** ** Computations that keep a property of the state *)

Definition keeps {S A} (P : S -> Prop) (Q : A -> Prop) (m : M S A) : Prop :=
  forall s, P s -> P (m s).2 /\ forall a, (m s).1 = Ret a -> Q a.

Section keeps_lemmas.
Context {S : Type} (P : S -> Prop).

Lemma keeps_ret {A} (Q : A -> Prop) a : Q a -> keeps P Q (mret a).
Proof. intros Ha s Hs. split; [done|]. by intros ? [= <-]. Qed.

Lemma keeps_bind {A B} (Q : A -> Prop) (R : B -> Prop) (m : M S A) (f : A -> M S B) :
  keeps P Q m -> (forall a, Q a -> keeps P R (f a)) -> keeps P R (m ≫= f).
Proof.
  intros Hm Hf s Hs. destruct (Hm s Hs) as [Hs' Ha]. unfold mbind, M_bind.
  destruct (m s) as [[a| |] s']; [|by split..]. by apply Hf; [apply Ha|].
Qed.

Lemma keeps_gets {A} (Q : A -> Prop) (f : S -> A) : (forall s, P s -> Q (f s)) -> keeps P Q (gets f).
Proof. intros Hf s Hs. split; [done|]. intros ? [= <-]. by apply Hf. Qed.

Lemma keeps_modify (f : S -> S) : (forall s, P s -> P (f s)) -> keeps P any (modify f).
Proof. intros Hf s Hs. split; [by apply Hf|done]. Qed.

Lemma keeps_lift {A} (Q : A -> Prop) (o : outcome A) : (forall a, o = Ret a -> Q a) -> keeps P Q (lift o).
Proof. intros Ho s Hs. by split. Qed.

Lemma keeps_expect {A} (Q : A -> Prop) (o : option A) : opt Q o -> keeps P Q (expect o).
Proof. intros Ho s Hs. destruct o as [a|]; (split; [done|]); [|done]. intros ? [= <-]. by apply Ho. Qed.

Lemma keeps_fuel {A} (Q : A -> Prop) : keeps P Q out_of_fuel.
Proof. by intros s Hs. Qed.

Lemma keeps_mono {A} (Q R : A -> Prop) (m : M S A) : (forall a, Q a -> R a) -> keeps P Q m -> keeps P R m.
Proof. intros HQ Hm s Hs. destruct (Hm s Hs) as [? Ha]. split; [done|]. intros a E. by apply HQ, Ha. Qed.

Lemma keeps_any {A} (Q : A -> Prop) (m : M S A) : keeps P Q m -> keeps P any m.
Proof. by apply keeps_mono. Qed.

Lemma keeps_zoom {T A} (P' : T -> Prop) (Q : A -> Prop) (g : S -> T) (put : T -> S -> S) (m : M T A) :
  (forall s, P s -> P' (g s)) -> (forall s t, P s -> P' t -> P (put t s)) -> keeps P' Q m -> keeps P Q (zoom g put m).
Proof.
  intros Hg Hput Hm s Hs. destruct (Hm (g s) (Hg s Hs)) as [Ht Ha]. unfold zoom.
  destruct (m (g s)) as [o t]. split; [by apply Hput|done].
Qed.

End keeps_lemmas.

Create HintDb types discriminated.
#[export] Hint Resolve keeps_ret keeps_gets keeps_modify keeps_lift keeps_expect keeps_fuel : types.
#[export] Hint Extern 1 (any _) => exact I : types.
#[export] Hint Extern 1 (opt _ None) => discriminate : types.
#[export] Hint Extern 1 (res _ (Err _)) => discriminate : types.

(** The next bind of a program, the property of its first part given. *)
Ltac kbind Q := apply (keeps_bind _ Q); [|let a := fresh "a" in let Ha := fresh "Ha" in intros a Ha].

Lemma opt_Some {A} (P : A -> Prop) a : P a -> opt P (Some a).
Proof. by intros ? ? [= <-]. Qed.

Lemma res_Ok {A} (P : A -> Prop) a : P a -> res P (Ok a).
Proof. by intros ? ? [= <-]. Qed.
#[export] Hint Resolve opt_Some res_Ok : types.

(** ** Shards *)

Record node_typed (n : Node) : Prop := mkNodeTyped {
  nt_key : is_bytes (node_key n);
  nt_value : is_bytes (node_value n);
  nt_expires : opt is_instant (node_expires_at n);
  nt_size : is_usize (node_size n)
}.

(** The entries and the keys of the map; slot indices are positions of the arena, and
    [ShardInv] keeps them within it. *)
Record shard_typed (s : ShardInner) : Prop := mkShardTyped {
  st_nodes : Forall (opt node_typed) (sh_nodes s);
  st_map : map_Forall (fun k _ => is_bytes k) (sh_map s)
}.

Lemma shard_typed_new : shard_typed shard_new.
Proof. by split. Qed.

Lemma typed_node_slot idx : keeps shard_typed (opt node_typed) (node_slot idx).
Proof.
  unfold node_slot. kbind (opt (opt node_typed)); [|auto with types].
  apply keeps_gets. intros s Hs o Ho. exact (Forall_lookup_1 _ _ _ _ (st_nodes _ Hs) Ho).
Qed.

Lemma typed_set_slot idx o : opt node_typed o -> keeps shard_typed any (set_slot idx o).
Proof.
  intros Ho. unfold set_slot. kbind (opt node_typed); [apply typed_node_slot|].
  apply keeps_modify. intros s [Hn Hm]. split; [by apply Forall_insert|done].
Qed.

(** Only links are written. *)
Definition keeps_content (f : Node -> Node) : Prop := forall n, node_typed n -> node_typed (f n).

Lemma links_content p q : keeps_content (set_links p q).
Proof. by intros n [? ? ? ?]. Qed.
Lemma prev_content p : keeps_content (set_prev p).
Proof. by intros n [? ? ? ?]. Qed.
Lemma next_content q : keeps_content (set_next q).
Proof. by intros n [? ? ? ?]. Qed.

Lemma typed_update_node idx f : keeps_content f -> keeps shard_typed any (update_node idx f).
Proof.
  intros Hf. unfold update_node. kbind (opt node_typed); [apply typed_node_slot|].
  destruct a as [n|]; [|auto with types]. apply typed_set_slot, opt_Some, Hf. by apply Ha.
Qed.

Lemma typed_fields (f : ShardInner -> ShardInner) :
  (forall s, sh_nodes (f s) = sh_nodes s /\ sh_map (f s) = sh_map s) -> keeps shard_typed any (modify f).
Proof. intros Hf. apply keeps_modify. intros s [Hn Hm]. destruct (Hf s) as [En Em]. split; by rewrite ?En, ?Em. Qed.

#[local] Hint Resolve typed_node_slot typed_set_slot typed_update_node links_content prev_content next_content
  typed_fields keeps_any : types.

Lemma typed_lru_remove idx : keeps shard_typed any (lru_remove idx).
Proof.
  unfold lru_remove. kbind (opt node_typed); [apply typed_node_slot|].
  kbind node_typed; [auto with types|].
  kbind (@any unit); [by destruct (node_prev a0); auto with types|].
  kbind (@any unit); [by destruct (node_next a0); auto with types|]. auto with types.
Qed.

Lemma typed_lru_push_back idx : keeps shard_typed any (lru_push_back idx).
Proof.
  unfold lru_push_back. kbind (@any (option nat)); [auto with types|].
  kbind (@any unit); [auto with types|].
  kbind (@any unit); [by destruct a; auto with types|]. auto with types.
Qed.

Lemma typed_touch idx : keeps shard_typed any (touch idx).
Proof.
  unfold touch. kbind (@any (option nat)); [auto with types|]. destruct (decide _); [auto with types|].
  kbind (@any unit); [apply typed_lru_remove|apply typed_lru_push_back].
Qed.

Lemma typed_insert_new key value size :
  is_bytes key -> is_bytes value -> is_usize size -> keeps shard_typed any (insert_new key value size).
Proof.
  intros Hk Hv Hs. unfold insert_new, alloc_slot. kbind (@any nat).
  { kbind (@any (list nat)); [auto with types|]. destruct (vec_pop a) as [[idx rest]|].
    - kbind (@any unit); auto with types.
    - kbind (@any unit); [|auto with types]. apply keeps_modify. intros s [Hn Hm]. split; [|done].
      apply Forall_app. split; [done|]. by repeat constructor. }
  kbind (@any unit); [by apply typed_set_slot, opt_Some|].
  kbind (@any unit); [apply typed_lru_push_back|]. kbind (@any unit); [|auto with types].
  apply keeps_modify. intros s [Hn Hm]. split; [done|]. by apply map_Forall_insert_2.
Qed.

Lemma typed_remove_idx idx : keeps shard_typed (opt is_usize) (remove_idx idx).
Proof.
  unfold remove_idx. kbind (opt node_typed); [apply typed_node_slot|]. destruct a as [n|]; [|auto with types].
  kbind (@any unit); [apply typed_lru_remove|]. kbind (@any unit); [auto with types|].
  kbind (@any unit). { apply keeps_modify. intros s [Hn Hm]. split; [done|]. by apply map_Forall_delete. }
  kbind (@any unit); [auto with types|]. apply keeps_ret, opt_Some, nt_size. by apply Ha.
Qed.

Lemma typed_pop_lru : keeps shard_typed (opt is_usize) pop_lru.
Proof.
  unfold pop_lru. kbind (@any (option nat)); [auto with types|]. destruct a; [apply typed_remove_idx|auto with types].
Qed.

(** ** Critical sections *)

Definition locked_typed (l : Locked) : Prop := shard_typed (lk_inner l).

Lemma typed_inner {A} (Q : A -> Prop) (m : SM A) : keeps shard_typed Q m -> keeps locked_typed Q (inner m).
Proof. by apply keeps_zoom. Qed.

Lemma typed_used_sub n : keeps locked_typed any (used_sub n).
Proof. by apply keeps_modify. Qed.
Lemma typed_used_add n : keeps locked_typed any (used_add n).
Proof. by apply keeps_modify. Qed.

Lemma typed_slot idx : keeps locked_typed (opt node_typed) (inner (node_slot idx)).
Proof. apply typed_inner, typed_node_slot. Qed.

Lemma typed_map_get key : keeps locked_typed any (map_get key).
Proof. apply typed_inner. auto with types. Qed.

Lemma typed_remove_and_account idx : keeps locked_typed any (remove_and_account idx).
Proof.
  unfold remove_and_account. kbind (opt is_usize); [apply typed_inner, typed_remove_idx|].
  destruct a; [apply typed_used_sub|auto with types].
Qed.

Lemma typed_slot_expired idx now : keeps locked_typed any (slot_expired idx now).
Proof. unfold slot_expired. kbind (opt node_typed); [apply typed_slot|auto with types]. Qed.

#[local] Hint Resolve typed_used_sub typed_used_add typed_slot typed_map_get typed_remove_and_account
  typed_slot_expired : types.

Lemma typed_get_locked key now : keeps locked_typed (res (opt is_bytes)) (get_locked key now).
Proof.
  unfold get_locked. kbind (@any (option nat)); [auto with types|]. destruct a as [idx|]; [|auto with types].
  kbind (opt node_typed); [auto with types|]. destruct a as [n|]; [|auto with types].
  destruct (is_expired n now); [kbind (@any unit); auto with types|].
  kbind (opt node_typed); [auto with types|]. kbind (@any unit); [apply typed_inner, typed_touch|].
  apply keeps_ret, res_Ok. intros v Hv. destruct a as [n'|]; [|done]. injection Hv as <-. by apply nt_value, Ha1.
Qed.

Lemma usize_add_typed p x y z : 0 <= x -> 0 <= y -> usize_add p x y = Ret z -> is_usize z.
Proof.
  unfold usize_add. intros Hx Hy. destruct (Z.leb_spec (x + y) USIZE_MAX); [by intros [= <-]; split; lia|].
  destruct p; [done|]. intros [= <-]. apply wrap64_range.
Qed.

Lemma typed_set_locked p key value now :
  is_bytes key -> is_bytes value -> keeps locked_typed any (set_locked p key value now).
Proof.
  intros Hk Hv. unfold set_locked. kbind is_usize.
  { apply keeps_lift. intros x. by apply usize_add_typed; apply zlen_nonneg. }
  kbind (@any unit).
  { unfold set_cleanup. kbind (@any (option nat)); [auto with types|]. destruct a0 as [idx|]; [|auto with types].
    kbind (opt node_typed); [auto with types|]. destruct (default _ _); auto with types. }
  unfold set_store. kbind (@any (option nat)); [auto with types|]. destruct a1 as [idx|].
  - kbind (opt node_typed); [auto with types|]. destruct a1 as [n|]; [|auto with types].
    kbind (@any unit).
    { apply typed_inner, typed_set_slot, opt_Some. destruct (Ha2 n eq_refl). by split. }
    kbind (@any unit); [apply typed_inner, typed_touch|].
    destruct (_ <? _); [auto with types|]. destruct (_ <? _); auto with types.
  - kbind (@any nat); [by apply typed_inner, typed_insert_new|auto with types].
Qed.

Lemma typed_delete_locked key now : keeps locked_typed any (delete_locked key now).
Proof.
  unfold delete_locked. kbind (@any (option nat)); [auto with types|]. destruct a as [idx|]; [|auto with types].
  kbind (@any bool); [auto with types|]. kbind (@any unit); auto with types.
Qed.

Lemma typed_expire_locked key ttl now :
  is_instant now -> is_duration ttl -> keeps locked_typed any (expire_locked key ttl now).
Proof.
  intros [Hn _] [Ht _]. unfold expire_locked. kbind (@any (option nat)); [auto with types|].
  destruct a as [idx|]; [|auto with types]. kbind (@any bool); [auto with types|].
  destruct a; [kbind (@any unit); auto with types|]. kbind (opt node_typed); [auto with types|].
  kbind (@any unit); [|auto with types]. destruct a as [n|]; [|auto with types].
  kbind is_instant.
  { apply keeps_lift. intros d. unfold instant_add. destruct (Z.leb_spec (now + ttl) INSTANT_MAX); [|done].
    intros [= <-]. split; lia. }
  apply typed_inner, typed_set_slot, opt_Some. destruct (Ha1 n eq_refl). split; [done..|by apply opt_Some|done].
Qed.

Definition ttl_typed (s : TtlStatus) : Prop := match s with ExpiresIn d => is_duration d | _ => True end.

Lemma typed_ttl_locked key now : is_instant now -> keeps locked_typed (res ttl_typed) (ttl_locked key now).
Proof.
  intros [Hnow _]. unfold ttl_locked. kbind (@any (option nat)); [auto with types|].
  destruct a as [idx|]; [|by apply keeps_ret, res_Ok]. kbind (@any bool); [auto with types|].
  destruct a; [kbind (@any unit); [auto with types|by apply keeps_ret, res_Ok]|].
  kbind (opt node_typed); [auto with types|].
  destruct (a ≫= node_expires_at) as [deadline|] eqn:Hd; [|by apply keeps_ret, res_Ok].
  destruct (Z.leb_spec deadline now); [kbind (@any unit); [auto with types|by apply keeps_ret, res_Ok]|].
  apply keeps_ret, res_Ok. destruct a as [n|]; [|done].
  destruct (nt_expires _ (Ha1 n eq_refl) _ Hd) as [_ Hmax]. split; [lia|].
  unfold INSTANT_MAX, I64_MAX, U64_MAX, NANOS_PER_SEC in *. lia.
Qed.

(** ** The engine *)

Record engine_typed (e : MemoryEngine) : Prop := mkEngineTyped {
  et_shards : Forall shard_typed (eng_shards e);
  et_mask : is_usize (eng_shard_mask e);
  et_max : is_usize (eng_max_bytes e);
  et_used : is_usize (eng_used_bytes e);
  et_cursor : is_usize (eng_eviction_cursor e)
}.

Section engine.
Context `{EngineEnv} (p : profile).

Lemma apply_ops_typed used ops : is_usize used -> is_usize (apply_ops used ops).
Proof.
  unfold apply_ops. revert used. induction ops as [|d ops IH]; intros used Hu; [done|]. apply IH, wrap64_range.
Qed.

Lemma typed_lock_shard {A} (Q : A -> Prop) i (m : M Locked A) :
  keeps locked_typed Q m -> keeps engine_typed Q (lock_shard i m).
Proof.
  intros Hm e [Hs Hk Hx Hu Hc]. unfold lock_shard. destruct (eng_shards e !! i) as [s|] eqn:Hi; [|done].
  destruct (Hm (mkLocked s []) (Forall_lookup_1 _ _ _ _ Hs Hi)) as [Hl Ha].
  destruct (m (mkLocked s [])) as [o l]. split; [|done]. split; cbn; try done; [by apply Forall_insert|by apply apply_ops_typed].
Qed.

Lemma typed_lock_for {A} (Q : A -> Prop) key (m : M Locked A) :
  keeps locked_typed Q m -> keeps engine_typed Q (lock_for key m).
Proof. intros Hm. unfold lock_for. kbind (@any nat); [auto with types|by apply typed_lock_shard]. Qed.

Lemma typed_evict_scan start offsets : is_usize start -> keeps engine_typed any (evict_scan p start offsets).
Proof.
  intros Hst. induction offsets as [|off offsets IH]; cbn [evict_scan]; [auto with types|].
  kbind (@any Z); [auto with types|]. kbind (@any Z); [auto with types|].
  kbind (opt is_usize); [by apply typed_lock_shard, typed_inner, typed_pop_lru|]. destruct a1 as [size|]; [|done].
  kbind (@any unit); [|auto with types]. apply keeps_modify. intros e [? ? ? ? ?]. split; try done. apply wrap64_range.
Qed.

Lemma typed_evict_loop fuel : keeps engine_typed any (evict_loop p fuel).
Proof.
  induction fuel as [|fuel IH]; cbn [evict_loop]; [auto with types|].
  kbind (@any Z); [auto with types|]. kbind (@any Z); [auto with types|]. destruct (_ <=? _); [auto with types|].
  kbind is_usize; [apply keeps_gets; by intros e []|]. kbind (@any unit).
  { apply keeps_modify. intros e [? ? ? ? ?]. split; try done. apply wrap64_range. }
  kbind (@any nat); [auto with types|]. kbind (@any bool); [by apply typed_evict_scan|]. destruct a4; auto with types.
Qed.

Lemma typed_get k now : keeps engine_typed (res (opt is_bytes)) (get k now).
Proof. apply typed_lock_for, typed_get_locked. Qed.

Lemma typed_set k v now : is_bytes k -> is_bytes v -> keeps engine_typed any (set p k v now).
Proof.
  intros Hk Hv. unfold set. kbind (@any unit); [by apply typed_lock_for, typed_set_locked|].
  kbind (@any unit); [|auto with types]. unfold evict_if_needed. kbind (@any Z); [auto with types|].
  destruct (_ =? _); [auto with types|]. kbind (@any nat); [auto with types|apply typed_evict_loop].
Qed.

Lemma typed_delete k now : keeps engine_typed any (delete k now).
Proof. apply typed_lock_for, typed_delete_locked. Qed.

Lemma typed_expire k d now : is_instant now -> is_duration d -> keeps engine_typed any (expire k d now).
Proof. intros Hn Hd. exact (typed_lock_for _ _ _ (typed_expire_locked k d now Hn Hd)). Qed.

Lemma typed_ttl k now : is_instant now -> keeps engine_typed (res ttl_typed) (ttl k now).
Proof. intros Hn. exact (typed_lock_for _ _ _ (typed_ttl_locked k now Hn)). Qed.

Lemma typed_purge now : keeps engine_typed any (purge_expired now).
Proof.
  unfold purge_expired. kbind (@any nat); [auto with types|].
  assert (Hall : forall idxs, keeps engine_typed any (purge_shards now idxs)); [|apply Hall].
  intros idxs. induction idxs as [|i idxs IH]; cbn [purge_shards]; [auto with types|].
  kbind (@any Z); [|kbind (@any Z); auto with types]. apply typed_lock_shard. unfold purge_locked.
  kbind (@any (list nat)); [apply typed_inner; auto with types|]. kbind (@any (list nat)).
  - generalize a0 as l. intros l. induction l as [|idx l IHl]; cbn [collect_expired]; [auto with types|].
    kbind (opt node_typed); [auto with types|]. kbind (@any (list nat)); auto with types.
  - generalize a1 as l. intros l. induction l as [|idx l IHl]; cbn [remove_all]; [auto with types|].
    kbind (opt is_usize); [apply typed_inner, typed_remove_idx|]. destruct a2 as [size|]; [|done].
    kbind (@any unit); [auto with types|]. kbind (@any Z); auto with types.
Qed.

End engine.
