(* ===== verification/ServerTypes.v ===== *)
(** * Type soundness of the integer models: the server

    Whatever bytes a client sends and however the network cuts them, the buffers,
    the parser, the metrics and the engine of a connection stay within the ranges
    of their Rust types, and every response is a byte string with a RESP2 type
    byte and a line end, also when a handler panics. *)

From S2P Require Import Prelude Decimal HkvError Shard Engine KVEngine EngineTheorems RespParser Metrics ClientResp.
From S2P Require Import Server Types.

(** ** Interfaces *)

(** What the server relies on of an engine's types. *)
Class KVEngineTypes (E : Type) `{KVEngine E} := {
  kv_typed : E -> Prop;
  types_get : forall k now, is_bytes k -> is_instant now -> keeps kv_typed (res (opt is_bytes)) (kv_get k now);
  types_set : forall k v now, is_bytes k -> is_bytes v -> is_instant now -> keeps kv_typed any (kv_set k v now);
  types_delete : forall k now, is_bytes k -> is_instant now -> keeps kv_typed any (kv_delete k now);
  types_expire : forall k d now, is_bytes k -> is_duration d -> is_instant now -> keeps kv_typed any (kv_expire k d now);
  types_ttl : forall k now, is_bytes k -> is_instant now -> keeps kv_typed (res ttl_typed) (kv_ttl k now)
}.

#[global] Instance memory_engine_types `{EngineEnv} (p : profile) : @KVEngineTypes MemoryEngine (memory_kv_engine p).
Proof.
  refine {| kv_typed := engine_typed |}.
  - intros k now _ _. apply typed_get.
  - intros k v now Hk Hv _. by apply typed_set.
  - intros k now _ _. apply typed_delete.
  - intros k d now _ Hd Hn. by apply typed_expire.
  - intros k now _ Hn. by apply typed_ttl.
Defined.

(** The text of a float consists of bytes. *)
Class FloatText `{FloatFormat} := fmt3_bytes : forall x, is_bytes (fmt3 x).

(** ** Bytes *)

Lemma bytes_app a b : is_bytes a -> is_bytes b -> is_bytes (a ++ b).
Proof. intros. by apply Forall_app. Qed.

Lemma bytes_decimal n : is_bytes (decimal n).
Proof.
  pose proof (decimal_digits n) as Hd. rewrite forallb_forall in Hd. apply Forall_forall. intros b Hb.
  apply list_elem_of_In, Hd in Hb. unfold is_digit in Hb. unfold is_byte. lia.
Qed.

Lemma bytes_signed n : is_bytes (decimal_signed n).
Proof. unfold decimal_signed. destruct (n <? 0); [|apply bytes_decimal]. constructor; [by unfold is_byte|apply bytes_decimal]. Qed.

(** A literal. *)
Ltac literal := apply (bool_decide_unpack _); vm_compute; exact I.

Lemma bytes_crlf : is_bytes crlf.
Proof. literal. Qed.

#[local] Hint Resolve bytes_app bytes_decimal bytes_signed bytes_crlf fmt3_bytes : types.
#[local] Hint Extern 2 (is_bytes (bs _)) => literal : types.

(** ** Responses *)

Definition type_bytes : list Z := [43; 45; 58; 36].

(** Bytes that begin with a type byte and end a line. *)
Definition response_typed (r : bytes) : Prop :=
  is_bytes r /\ exists t body, r = t :: body ++ crlf /\ t ∈ type_bytes.

Lemma response_intro t body : t ∈ type_bytes -> is_bytes body -> response_typed (t :: body ++ crlf).
Proof.
  intros Ht Hb. split; [|eauto]. constructor; [|by apply bytes_app, bytes_crlf].
  unfold type_bytes in Ht. unfold is_byte. set_unfold. lia.
Qed.

Lemma typed_simple m : is_bytes m -> response_typed (resp_simple m).
Proof. intros Hm. apply response_intro; [set_solver|done]. Qed.
Lemma typed_error m : is_bytes m -> response_typed (resp_error m).
Proof. intros Hm. apply (response_intro 45 (bs "ERR " ++ m)); [set_solver|]. apply bytes_app; [literal|done]. Qed.
Lemma typed_integer n : response_typed (resp_integer n).
Proof. apply response_intro; [set_solver|apply bytes_signed]. Qed.
Lemma typed_bulk d : is_bytes d -> response_typed (resp_bulk d).
Proof.
  intros Hd. pose proof (response_intro 36 (decimal (zlen d) ++ crlf ++ d) ltac:(set_solver)) as Hr.
  unfold resp_bulk. rewrite <- !app_assoc in Hr. apply Hr. auto with types.
Qed.
Lemma typed_null : response_typed resp_null.
Proof. apply (response_intro 36 (bs "-1")); [set_solver|literal]. Qed.

#[local] Hint Resolve typed_simple typed_error typed_integer typed_bulk typed_null : types.

(** ** Handlers *)

Section handlers.
Context {E : Type} `{KVEngineTypes E} `{FloatText}.
Implicit Types (args : command) (now : nat -> Z).

Lemma parse_u64_typed arg :
  match parse_u64 arg with Ok s => is_duration (from_secs s) | Err resp => response_typed resp end.
Proof.
  unfold parse_u64. destruct arg as [|b arg]; [by apply typed_error; literal|].
  destruct (digit_fold U64_MAX 0 (b :: arg)) as [s|] eqn:Es; [|by apply typed_error; literal].
  pose proof (digit_fold_range U64_MAX 0 (b :: arg) s) as Hr. specialize (Hr ltac:(done) ltac:(done) Es).
  split; unfold from_secs, NANOS_PER_SEC, U64_MAX in *; lia.
Qed.

Lemma ping_typed args : Forall is_bytes args -> response_typed (handle_ping args).
Proof.
  intros Ha. unfold handle_ping. destruct args as [|a1 [|a2 [|]]]; auto with types.
  apply typed_bulk. by inversion_clear Ha as [|? ? _ Ha2]; inversion_clear Ha2.
Qed.

Context (now : nat -> Z) (Hnow : forall i, is_instant (now i)).

Lemma get_typed args : Forall is_bytes args -> keeps kv_typed response_typed (handle_get args now).
Proof.
  intros Ha. unfold handle_get. destruct args as [|a1 [|a2 [|]]]; auto with types.
  kbind (res (opt is_bytes)). { apply types_get; [|done]. by inversion_clear Ha as [|? ? _ Ha2]; inversion_clear Ha2. }
  apply keeps_ret. destruct a as [[v|]|err]; auto with types. apply typed_bulk. by apply (Ha0 (Some v)).
Qed.

Lemma set_typed args : Forall is_bytes args -> keeps kv_typed response_typed (handle_set args now).
Proof.
  intros Ha. assert (Hnth : forall i a, args !! i = Some a -> is_bytes a) by (intros i a; by apply Forall_lookup_1).
  unfold handle_set. destruct args as [|a1 [|k [|v [|a4 [|arg [|]]]]]]; auto with types.
  - kbind (@any (HkvResult unit)); [by apply types_set; [apply (Hnth 1%nat)|apply (Hnth 2%nat)|]|].
    destruct a; auto with types.
  - destruct (eq_ignore_ascii_case a4 _); [|auto with types]. pose proof (parse_u64_typed arg) as Hp.
    destruct (parse_u64 arg) as [s|resp]; [|by apply keeps_ret].
    kbind (@any (HkvResult unit)); [by apply types_set; [apply (Hnth 1%nat)|apply (Hnth 2%nat)|]|].
    destruct a; [|auto with types].
    kbind (@any (HkvResult unit)); [by apply types_expire; [apply (Hnth 1%nat)| |]|]. destruct a0; auto with types.
Qed.

Lemma del_loop_typed keys i removed : Forall is_bytes keys -> keeps kv_typed response_typed (del_loop keys now i removed).
Proof.
  intros Hk. revert i removed. induction Hk as [|k keys Hk _ IH]; intros i removed; cbn [del_loop]; [auto with types|].
  kbind (@any (HkvResult bool)); [by apply types_delete|]. destruct a as [[]|err]; auto with types.
Qed.

Lemma del_typed args : Forall is_bytes args -> keeps kv_typed response_typed (handle_del args now).
Proof.
  intros Ha. unfold handle_del. destruct args as [|a1 [|a2 args]]; auto with types.
  apply del_loop_typed. by inversion_clear Ha.
Qed.

Lemma expire_typed args : Forall is_bytes args -> keeps kv_typed response_typed (handle_expire args now).
Proof.
  intros Ha. assert (Hnth : forall i a, args !! i = Some a -> is_bytes a) by (intros i a; by apply Forall_lookup_1).
  unfold handle_expire. destruct args as [|a1 [|k [|arg [|]]]]; auto with types.
  pose proof (parse_u64_typed arg) as Hp. destruct (parse_u64 arg) as [s|resp]; [|by apply keeps_ret].
  kbind (@any (HkvResult unit)); [by apply types_expire; [apply (Hnth 1%nat)| |]|].
  destruct a as [|err]; [auto with types|]. destruct (decide _); auto with types.
Qed.

Lemma ttl_typed_resp args : Forall is_bytes args -> keeps kv_typed response_typed (handle_ttl args now).
Proof.
  intros Ha. unfold handle_ttl. destruct args as [|a1 [|k [|]]]; auto with types.
  kbind (res ttl_typed). { apply types_ttl; [|done]. by inversion_clear Ha as [|? ? _ Ha2]; inversion_clear Ha2. }
  destruct a as [[]|err]; auto with types.
Qed.

Lemma info_typed m : response_typed (handle_info m now).
Proof.
  unfold handle_info. apply typed_bulk. unfold info_text, info_line.
  repeat apply bytes_app; auto with types.
Qed.

Lemma dispatch_typed args m : Forall is_bytes args -> keeps kv_typed response_typed (dispatch_command args m now).
Proof.
  intros Ha. unfold dispatch_command. destruct args as [|cmd rest]; [auto with types|].
  destruct (eq_ignore_ascii_case cmd (bs "PING")); [by apply keeps_ret, ping_typed|].
  destruct (eq_ignore_ascii_case cmd (bs "GET")); [by apply get_typed|].
  destruct (eq_ignore_ascii_case cmd (bs "SET")); [by apply set_typed|].
  destruct (eq_ignore_ascii_case cmd (bs "DEL")); [by apply del_typed|].
  destruct (eq_ignore_ascii_case cmd (bs "EXPIRE")); [by apply expire_typed|].
  destruct (eq_ignore_ascii_case cmd (bs "TTL")); [by apply ttl_typed_resp|].
  destruct (eq_ignore_ascii_case cmd (bs "INFO")); [apply keeps_ret, info_typed|auto with types].
Qed.

End handlers.

(** ** The parser *)

Section parser.
Context `{BytesMut} (p : profile).

Record input_typed (s : RespParser * bytes) : Prop := mkInputTyped {
  it_args : Forall is_bytes (ps_args s.1);
  it_remaining : is_usize (ps_remaining s.1);
  it_bulk_len : is_usize (ps_bulk_len s.1);
  it_buf : is_bytes s.2
}.

Definition parsed_typed (r : parse_result) : Prop :=
  match r with Ok (Some args) => Forall is_bytes args | _ => True end.
Definition round_typed (r : round) : Prop := match r with Return r => parsed_typed r | Continue => True end.

Lemma split_typed n b x y : 0 <= n -> split_to n b = Ret (x, y) -> is_bytes b -> is_bytes x /\ is_bytes y.
Proof.
  intros Hn E Hb. destruct (Z.le_gt_cases n (zlen b)) as [Hle|Hgt]; [|by rewrite split_to_out in E].
  rewrite split_to_in in E by done. injection E as <- <-. split; [by apply Forall_take|by apply Forall_drop].
Qed.

Lemma read_line_typed n idx buf line rest :
  (1 <= idx)%nat -> read_line_loop n idx buf = Ret (Some (line, rest)) -> is_bytes buf -> is_bytes line /\ is_bytes rest.
Proof.
  intros Hi E Hb. revert idx Hi E. induction n as [|n IH]; intros idx Hi E; [done|]. cbn [read_line_loop] in E.
  destruct (buf !! idx) as [b|] eqn:Hx; [|done]. destruct (_ && _); [|by apply (IH (S idx)); [lia|]].
  assert (Hlen : 0 <= Z.of_nat idx - 1 <= zlen buf) by (apply lookup_lt_Some in Hx; unfold zlen; lia).
  rewrite split_to_in in E by done. cbn in E.
  rewrite advance_in in E by (apply lookup_lt_Some in Hx; unfold zlen in *; rewrite length_drop; lia).
  cbn in E. injection E as <- <-. split; [by apply Forall_take|by apply Forall_drop, Forall_drop].
Qed.

Lemma take_line_typed : keeps input_typed (opt is_bytes) take_line.
Proof.
  intros s [Ha Hr Hl Hb]. unfold take_line. destruct (read_line s.2) as [[[line rest]|]| |] eqn:E; cbn; try (by split).
  unfold read_line in E. apply read_line_typed in E as [Hline Hrest]; [|lia|done].
  split; [by split|]. intros ? [= <-]. by apply opt_Some.
  - split; [by split|]. by intros ? [= <-].
Qed.

Lemma put_parser_typed f :
  (forall q, Forall is_bytes (ps_args q) -> is_usize (ps_remaining q) -> is_usize (ps_bulk_len q) ->
    Forall is_bytes (ps_args (f q)) /\ is_usize (ps_remaining (f q)) /\ is_usize (ps_bulk_len (f q))) ->
  keeps input_typed any (put_parser f).
Proof.
  intros Hf. apply keeps_modify. intros [q b] [Ha Hr Hl Hb]. cbn in *. destruct (Hf q Ha Hr Hl) as (? & ? & ?). by split.
Qed.

Lemma parse_usize_typed data n : parse_usize data = Ok n -> is_usize n.
Proof.
  unfold parse_usize. destruct data as [|b data]; [done|].
  destruct (digit_fold USIZE_MAX 0 (b :: data)) as [v|] eqn:E; [|done]. intros [= <-].
  by apply (digit_fold_range USIZE_MAX 0 _ _ ltac:(done) ltac:(done) E).
Qed.

Lemma usize_zero : is_usize 0.
Proof. by unfold is_usize, USIZE_MAX. Qed.

Lemma array_len_typed : keeps input_typed round_typed array_len_round.
Proof.
  unfold array_len_round. kbind (opt is_bytes); [apply take_line_typed|]. destruct a as [line|]; [|by apply keeps_ret].
  destruct (decide _); [|by apply keeps_ret]. destruct (parse_usize (tail line)) as [n|] eqn:En; [|by apply keeps_ret].
  apply parse_usize_typed in En. kbind (@any unit); [by apply put_parser_typed|].
  destruct (n =? 0); (kbind (@any unit); [by apply put_parser_typed|apply keeps_ret; repeat constructor]).
Qed.

Lemma bulk_len_typed : keeps input_typed round_typed bulk_len_round.
Proof.
  unfold bulk_len_round. kbind (opt is_bytes); [apply take_line_typed|]. destruct a as [line|]; [|by apply keeps_ret].
  destruct (decide _); [|by apply keeps_ret]. destruct (parse_usize (tail line)) as [n|] eqn:En; [|by apply keeps_ret].
  apply parse_usize_typed in En. kbind (@any unit); [by apply put_parser_typed|by apply keeps_ret].
Qed.

Lemma take_u8_typed : keeps input_typed any take_u8.
Proof.
  intros [q [|x b]] [Ha Hr Hl Hb]; unfold take_u8; cbn in *; [by rewrite get_u8_nil|]. rewrite get_u8_cons.
  split; [|done]. split; try done. by inversion_clear Hb.
Qed.

Lemma bulk_data_typed : keeps input_typed round_typed (bulk_data_round p).
Proof.
  unfold bulk_data_round. kbind is_usize; [apply keeps_gets; by intros s []|]. kbind (@any Z); [by apply keeps_lift|].
  kbind (@any Z); [auto with types|]. destruct (_ <? _); [by apply keeps_ret|]. kbind is_bytes.
  { intros s [Har Hre Hbl Hbu]. unfold take_data. destruct (split_to a s.2) as [[d rest]| |] eqn:E; cbn; try by split.
    apply split_typed in E as [Hd Hrest]; [|apply Ha|done]. split; [by split|]. by intros ? [= <-]. }
  kbind (@any bool).
  { unfold bad_terminator. kbind (@any Z); [apply take_u8_typed|]. destruct (negb _); [by apply keeps_ret|].
    kbind (@any Z); [apply take_u8_typed|auto with types]. }
  destruct a3; [by apply keeps_ret|]. kbind (@any unit).
  { apply put_parser_typed. intros q ? ? ?. cbn. split; [|done]. apply Forall_app. split; [done|]. by constructor. }
  kbind is_usize; [apply keeps_gets; by intros s []|]. kbind is_usize.
  { apply keeps_lift. intros r. unfold usize_sub. destruct (Z.leb_spec 1 a4).
    - intros [= <-]. destruct Ha5. split; lia.
    - destruct p; [done|]. intros [= <-]. apply wrap64_range. }
  kbind (@any unit); [by apply put_parser_typed|]. destruct (_ =? 0).
  - kbind (Forall is_bytes); [apply keeps_gets; by intros s []|]. kbind (@any unit); [by apply put_parser_typed|].
    by apply keeps_ret.
  - kbind (@any unit); [by apply put_parser_typed|by apply keeps_ret].
Qed.

Lemma parse_typed : keeps input_typed parsed_typed (parse p).
Proof.
  intros s Hs. unfold parse. revert s Hs. assert (Hall : forall fuel, keeps input_typed parsed_typed (parse_loop p fuel)).
  { intros fuel. induction fuel as [|fuel IH]; cbn [parse_loop]; [apply keeps_fuel|]. kbind round_typed.
    - unfold parse_round. kbind (@any ParseState); [auto with types|].
      destruct a; [apply array_len_typed|apply bulk_len_typed|apply bulk_data_typed].
    - destruct a as [|r]; [done|by apply keeps_ret]. }
  intros s. apply Hall.
Qed.

End parser.

(** ** Metrics *)

Definition is_u64 (x : Z) : Prop := 0 <= x <= U64_MAX.

Record histogram_typed (h : LatencyHistogram) : Prop := mkHistogramTyped {
  ht_bounds : Forall is_u64 (lh_bounds_us h);
  ht_buckets : Forall is_u64 (lh_buckets h);
  ht_sum : is_u64 (lh_sum_us h);
  ht_samples : is_u64 (lh_samples h);
  ht_max : is_u64 (lh_max_us h)
}.

Record metrics_typed (m : Metrics) : Prop := mkMetricsTyped {
  mtt_requests : is_u64 (mt_requests_total m);
  mtt_errors : is_u64 (mt_errors_total m);
  mtt_inflight : is_u64 (mt_inflight m);
  mtt_latency : histogram_typed (mt_latency m);
  mtt_started : is_instant (mt_started_at m)
}.

Lemma u64_wrap x : is_u64 (wrap64 x).
Proof. apply wrap64_range. Qed.

Lemma typed_start m : metrics_typed m -> metrics_typed (record_request_start m).
Proof. intros [? ? ? ? ?]. split; cbn; try done; apply u64_wrap. Qed.

Lemma typed_record_error m : metrics_typed m -> metrics_typed (record_error m).
Proof. intros [? ? ? ? ?]. split; cbn; try done; apply u64_wrap. Qed.

Lemma typed_record latency : keeps histogram_typed any (record latency).
Proof.
  intros h [Hb Hk Hs Hn Hm]. unfold record. cbn zeta. cbn [lh_buckets].
  assert (Hmax : is_u64 (update_max (lh_max_us h) (micros_of latency))).
  { unfold update_max. destruct (_ <? _); [apply u64_wrap|done]. }
  destruct (lh_buckets h !! _) as [c|]; (split; [|done]); split; cbn; try done; try apply u64_wrap.
  apply Forall_insert; [done|apply u64_wrap].
Qed.

Lemma typed_end latency : keeps metrics_typed any (record_request_end latency).
Proof.
  unfold record_request_end. kbind (@any unit).
  - apply keeps_modify. intros m [? ? ? ? ?]. split; cbn; try done. apply u64_wrap.
  - eapply keeps_zoom; [| |apply typed_record]; [by intros m []|]. intros m h [? ? ? ? ?] Hh. by split.
Qed.

Lemma typed_metrics_new now : is_instant now -> metrics_typed (metrics_new now).
Proof.
  intros Hn. split; [by unfold is_u64, U64_MAX..| |done]. split; [|cbn; repeat constructor|by unfold is_u64, U64_MAX..];
    apply (bool_decide_unpack _); by vm_compute.
Qed.

(** ** Connections *)

Section connection.
Context {E : Type} `{KVEngineTypes E} `{FloatText} `{BytesMut} (p : profile) (w : World).
Context (Hclock : forall i j, is_instant (clock w i j)).

Record conn_typed (c : Conn E) : Prop := mkConnTyped {
  ct_input : input_typed (cn_parser c, cn_buf c);
  ct_engine : kv_typed (cn_engine c);
  ct_metrics : metrics_typed (cn_metrics c);
  ct_out : Forall response_typed (cn_out c)
}.

Lemma typed_on_parser {A} (Q : A -> Prop) m : keeps input_typed Q m -> keeps conn_typed Q (on_parser (E := E) m).
Proof. apply keeps_zoom; [by intros c []|]. intros c [q b] [? ? ? ?] Hi. by split. Qed.
Lemma typed_on_engine {A} (Q : A -> Prop) (m : M E A) : keeps kv_typed Q m -> keeps conn_typed Q (on_engine m).
Proof. apply keeps_zoom; [by intros c []|]. intros c e [? ? ? ?] Hi. by split. Qed.
Lemma typed_on_metrics {A} (Q : A -> Prop) m : keeps metrics_typed Q m -> keeps conn_typed Q (on_metrics (E := E) m).
Proof. apply keeps_zoom; [by intros c []|]. intros c mt [? ? ? ?] Hi. by split. Qed.

Lemma typed_write i response : response_typed response -> keeps conn_typed any (write_all (E := E) w i response).
Proof.
  intros Hr. unfold write_all. destruct (write_ok w i); [|auto with types]. kbind (@any unit); [|auto with types].
  apply keeps_modify. intros c [? ? ? ?]. split; try done. cbn. apply Forall_app. split; [done|]. by constructor.
Qed.

Lemma typed_next : keeps conn_typed any (next_request (E := E)).
Proof.
  unfold next_request. kbind (@any nat); [auto with types|]. kbind (@any unit); [|auto with types].
  apply keeps_modify. intros c [? ? ? ?]. by split.
Qed.

#[local] Hint Resolve typed_next typed_write : types.

Lemma typed_serve_command args : Forall is_bytes args -> keeps conn_typed any (serve_command (E := E) w args).
Proof.
  intros Hargs. unfold serve_command. kbind (@any nat); [auto with types|].
  kbind (@any unit); [apply typed_on_metrics, keeps_modify, typed_start|].
  kbind (@any Metrics); [auto with types|].
  kbind response_typed; [by apply typed_on_engine, dispatch_typed|].
  kbind (@any unit); [destruct (is_error_response _); [apply typed_on_metrics, keeps_modify, typed_record_error|auto with types]|].
  kbind (@any bool); [auto with types|]. destruct a4; [|auto with types].
  kbind (@any unit); [apply typed_on_metrics, typed_end|auto with types].
Qed.

Lemma typed_serve_protocol_error : keeps conn_typed any (serve_protocol_error (E := E) w).
Proof.
  unfold serve_protocol_error. kbind (@any nat); [auto with types|].
  kbind (@any unit); [apply typed_on_metrics, keeps_modify, typed_start|].
  kbind (@any unit); [apply typed_on_metrics, keeps_modify, typed_record_error|].
  kbind (@any bool); [apply typed_write, typed_error; literal|]. destruct a2; [|auto with types].
  kbind (@any unit); [apply typed_on_metrics, typed_end|auto with types].
Qed.

Lemma typed_drain : keeps conn_typed any (drain (E := E) p w).
Proof.
  intros c Hc. unfold drain. revert c Hc. assert (Hall : forall fuel, keeps conn_typed any (drain_loop (E := E) p w fuel)).
  { intros fuel. induction fuel as [|fuel IH]; cbn [drain_loop]; [apply keeps_fuel|].
    kbind parsed_typed; [apply typed_on_parser, parse_typed|]. destruct a as [[args|]|[]]; [|auto with types|].
    - kbind (@any bool); [by apply typed_serve_command|]. destruct a; auto with types.
    - kbind (@any bool); [apply typed_serve_protocol_error|auto with types]. }
  intros c. apply Hall.
Qed.

Definition read_typed (r : result bytes io_error) : Prop := match r with Ok chunk => is_bytes chunk | Err _ => True end.

Lemma typed_connection reads :
  Forall read_typed reads -> keeps conn_typed any (handle_connection_with_metrics (E := E) p w reads).
Proof.
  induction 1 as [|r reads Hr _ IH]; cbn [handle_connection_with_metrics]; [auto with types|].
  destruct r as [chunk|]; [|auto with types]. kbind (@any unit).
  { apply keeps_modify. intros c [[? ? ? ?] ? ? ?]. split; try done. split; try done. cbn. by apply bytes_app. }
  destruct (_ =? 0); [auto with types|]. kbind (@any drained); [apply typed_drain|]. destruct a0; auto with types.
Qed.

End connection.
