(* ===== verification/TypesClaims.v ===== *)
(** * Properties: machine ranges

    The integers of the model stay within the ranges of the types they stand for. *)

From S2P Require Import Prelude Decimal HkvError Shard Engine KVEngine Eviction EngineTheorems RespParser Metrics ClientResp.
From S2P Require Import Server Types ServerTypes.

(** ** The engine *)

Definition op_typed (o : engine_op) : Prop :=
  match o with
  | OpGet k now | OpDelete k now | OpTtl k now => is_bytes k /\ is_instant now
  | OpSet k v now => is_bytes k /\ is_bytes v /\ is_instant now
  | OpExpire k d now => is_bytes k /\ is_duration d /\ is_instant now
  | OpPurge now => is_instant now
  end.

(** The values and the times to live a call returns; the other replies hold no
    machine integer but the number of purged entries, which is left open. *)
Definition reply_typed (r : engine_reply) : Prop :=
  match r with
  | ReplyValue r => res (opt is_bytes) r
  | ReplyTtl r => res ttl_typed r
  | _ => True
  end.

Lemma run_op_typed `{EngineEnv} p o : op_typed o -> keeps engine_typed reply_typed (run_op p o).
Proof.
  intros Ho. destruct o; cbn [run_op op_typed] in *.
  - kbind (res (opt is_bytes)); [apply typed_get|by apply keeps_ret].
  - destruct Ho as (Hk & Hv & _). kbind (@any (HkvResult unit)); [by apply typed_set|by apply keeps_ret].
  - kbind (@any (HkvResult bool)); [apply typed_delete|by apply keeps_ret].
  - destruct Ho as (_ & Hd & Hn). kbind (@any (HkvResult unit)); [by apply typed_expire|by apply keeps_ret].
  - destruct Ho as [_ Hn]. kbind (res ttl_typed); [by apply typed_ttl|by apply keeps_ret].
  - kbind (@any Z); [apply typed_purge|by apply keeps_ret].
Qed.

Lemma new_engine_typed b max : 0 <= b <= 64 -> is_usize max -> engine_typed (new_engine b max).
Proof.
  intros Hb Hmax. assert (0 < 2 ^ b) by (apply pow2_pos; lia).
  assert (2 ^ b <= 2 ^ 64) by (apply Z.pow_le_mono_r; lia).
  split; cbn; [apply Forall_replicate, shard_typed_new| |done|by split..].
  unfold is_usize, USIZE_MAX. rewrite Z.ones_equiv. lia.
Qed.

(** Whatever calls are made on a fresh engine with byte-string arguments and with
    clock readings and durations in their ranges, and whether the calls return or one
    of them panics, the bytes of keys and values, the entry sizes, the deadlines, the
    byte counter, the limit and the cursor stay within the ranges of their Rust types,
    and so do the values and the times to live that the calls return. *)
Theorem engine_values_in_range `{EngineEnv} (p : profile) (b max_bytes : Z) (os : list engine_op) :
  0 <= b <= 64 -> is_usize max_bytes -> Forall op_typed os ->
  let '(o, e) := run_ops p os (new_engine b max_bytes) in
  engine_typed e /\ forall rs, o = Ret rs -> Forall reply_typed rs.
Proof.
  intros Hb Hmax Hos. assert (Hkeep : keeps engine_typed (Forall reply_typed) (run_ops p os)).
  { induction Hos as [|o os Ho _ IH]; cbn [run_ops]; [by apply keeps_ret|].
    kbind reply_typed; [by apply run_op_typed|]. kbind (Forall reply_typed); [done|].
    apply keeps_ret. by constructor. }
  pose proof (Hkeep _ (new_engine_typed b max_bytes Hb Hmax)) as Hk. by destruct (run_ops p os _).
Qed.

(** A deadline out of the clock's range panics and leaves the engine typed. *)
Lemma engine_values_in_range_witness :
  engine_typed (run_ops (H := demo_env) Release
    [OpSet (bs "k") (bs "v") 0; OpExpire (bs "k") (U64_MAX * NANOS_PER_SEC) 0] (new_engine 1 100)).2.
Proof.
  pose proof (@engine_values_in_range demo_env Release 1 100
    [OpSet (bs "k") (bs "v") 0; OpExpire (bs "k") (U64_MAX * NANOS_PER_SEC) 0]) as Ht.
  destruct (run_ops (H := demo_env) Release _ _) as [o e].
  apply Ht; [done|by split|]. repeat constructor; try literal; done.
Defined.

(** ** Connections *)

(** C16: whatever bytes a client sends and however they are cut into reads, up to
    the point where the connection ends, fails or panics: the engine, the parser
    and the metrics stay within the ranges of their types, and every response
    consists of bytes, begins with a RESP2 type byte and ends a line; on any engine
    that keeps its own types. *)
Theorem connection_values_in_range {E : Type} `{KVEngineTypes E} `{FloatText} `{BytesMut} (p : profile) (w : World)
    (reads : list (result bytes io_error)) (e : E) (now : Z) :
  (forall i j, is_instant (clock w i j)) -> kv_typed e -> is_instant now -> Forall read_typed reads ->
  let '(_, c) := handle_connection p w reads e now in
  kv_typed (cn_engine c) /\ metrics_typed (cn_metrics c) /\ Forall is_bytes (ps_args (cn_parser c)) /\
  Forall response_typed (cn_out c).
Proof.
  intros Hclock He Hnow Hreads. unfold handle_connection.
  pose proof (typed_connection p w Hclock reads Hreads (conn_new e (metrics_new now))) as Hk.
  destruct Hk as [[[Hargs _ _ _] Hen Hmt Hout] _].
  { split; [|done|by apply typed_metrics_new|by constructor]. split; [by constructor|apply usize_zero..|by constructor]. }
  by destruct (handle_connection_with_metrics p w reads _).
Qed.

#[global] Instance demo_float : FloatFormat := {| fmt3 := fun _ => bs "0.000" |}.
#[global] Instance demo_text : @FloatText demo_float.
Proof. intros x. literal. Defined.

(** A [SET], and an [EXPIRE] over which the handler panics. *)
Definition demo_reads : list (result bytes io_error) :=
  [Ok (bs "*3" ++ crlf ++ bs "$3" ++ crlf ++ bs "SET" ++ crlf ++ bs "$1" ++ crlf ++ bs "k" ++ crlf ++ bs "$1" ++ crlf ++
     bs "v" ++ crlf ++ bs "*3" ++ crlf);
   Ok (bs "$6" ++ crlf ++ bs "EXPIRE" ++ crlf ++ bs "$1" ++ crlf ++ bs "k" ++ crlf ++ bs "$20" ++ crlf ++
     bs "18446744073709551615" ++ crlf)].

Definition demo_world : World := mkWorld (fun _ _ => 0) (fun _ => 0) (fun _ => true).

Lemma connection_values_in_range_witness :
  let r := @handle_connection MemoryEngine (@memory_kv_engine demo_env Debug) demo_float demo_buf Debug demo_world
    demo_reads (new_engine 1 100) 0 in
  r.1 = Panic /\ Forall response_typed (cn_out r.2).
Proof.
  pose proof (@connection_values_in_range MemoryEngine (@memory_kv_engine demo_env Debug) (@memory_engine_types demo_env Debug)
    demo_float demo_text demo_buf Debug demo_world demo_reads (new_engine 1 100) 0) as Ht.
  cbn zeta. split; [vm_compute; reflexivity|].
  destruct (handle_connection Debug _ _ _ _) as [o c]. apply Ht.
  - intros i j. by split.
  - apply new_engine_typed; [done|by split].
  - by split.
  - repeat constructor; literal.
Defined.
