(* ===== verification/ClientPool.v ===== *)
(** * The client: connection pool and API (hkv-client/src/pool.rs, client.rs)

    The pool's critical sections, the borrowed connection with its release on
    drop, the opening of a connection, one request/response exchange, the typed
    client calls, and the creation of a client.  What the operating system answers
    (when a connection is opened, when bytes are written, the bytes that arrive) is
    the arguments [SocketEnv] and [NetEnv]. *)

From S2P Require Import Prelude Decimal Engine ClientResp.

(** ** Data *)

(** [struct Connection]: the buffered socket and the reusable buffers. *)
Record Connection := mkConnection {
  co_reader : Reader;
  co_line_buf : bytes;
  co_write_buf : bytes
}.

(** [struct PoolConfig]; timeouts in nanoseconds. *)
Record PoolConfig := mkPoolConfig {
  pc_addr : bytes;
  pc_max_idle : Z;
  pc_max_total : Z;
  pc_read_timeout : option Z;
  pc_write_timeout : option Z;
  pc_connect_timeout : option Z
}.

(** [struct PoolState]. *)
Record PoolState := mkPool { po_idle : list Connection; po_total : Z }.

(** [struct PooledConnection]. *)
Record PooledConnection := mkPooled { pd_conn : option Connection; pd_valid : bool }.

(** What the operating system answers when a connection is opened: whether the
    address parses as a [SocketAddr], the stream or an error for a connect with
    the given timeout, and the errors of the socket options. *)
Record SocketEnv := mkSocket {
  so_parses : bytes -> bool;
  so_connect : option Z -> result Reader io_error;
  so_read_timeout : Z -> option io_error;
  so_write_timeout : Z -> option io_error;
  so_nodelay : option io_error
}.

(** And in a call. *)
Record NetEnv := mkNet {
  ne_socket : SocketEnv;
  ne_write : option io_error;
  ne_incoming : Reader
}.

Abbreviation PoolM := (M PoolState).

(** The state of a new pool. *)
Definition pool_new : PoolState := mkPool [] 0.

(** ** Opening a connection *)

(** [r?] on the result of an I/O operation that yields nothing. *)
Definition io_check (r : option io_error) : ClientResult unit :=
  match r with Some e => Err (ClientError_Io e) | None => Ok tt end.

(** A timeout of zero is refused by the standard library before the system is
    asked. *)
Definition with_timeout (f : Z -> option io_error) (timeout : Z) : option io_error :=
  if timeout =? 0 then Some InvalidInput else f timeout.

(** [connect_stream]. *)
Definition connect_stream (config : PoolConfig) (sock : SocketEnv) : ClientResult Reader :=
  if so_parses sock (pc_addr config) then
    let stream :=
      match pc_connect_timeout config with
      | Some timeout => if timeout =? 0 then Err InvalidInput else so_connect sock (Some timeout)
      | None => so_connect sock None
      end in
    match stream with Ok stream => Ok stream | Err e => Err (ClientError_Io e) end
  else Err ClientError_InvalidAddress.

(** [if let Some(timeout) = ... { stream.set_..._timeout(Some(timeout))?; }]. *)
Definition set_timeout (f : Z -> option io_error) (timeout : option Z) : ClientResult unit :=
  match timeout with Some timeout => io_check (with_timeout f timeout) | None => Ok tt end.

(** [Connection::connect]. *)
Definition connect (config : PoolConfig) (sock : SocketEnv) : ClientResult Connection :=
  match connect_stream config sock with
  | Err e => Err e
  | Ok stream =>
      match set_timeout (so_read_timeout sock) (pc_read_timeout config) with
      | Err e => Err e
      | Ok _ =>
          match set_timeout (so_write_timeout sock) (pc_write_timeout config) with
          | Err e => Err e
          | Ok _ =>
              match io_check (so_nodelay sock) with
              | Err e => Err e
              | Ok _ => Ok (mkConnection stream [] [])
              end
          end
      end
  end.

Section pool.
Context (config : PoolConfig).

(** ** Critical sections *)

Definition pop_idle : PoolM (option Connection) := fun s =>
  match po_idle s with
  | [] => (Ret None, s)
  | conn :: rest => (Ret (Some conn), mkPool rest (po_total s))
  end.

Definition try_reserve : PoolM bool := fun s =>
  if pc_max_total config <=? po_total s then (Ret false, s)
  else (Ret true, mkPool (po_idle s) (po_total s + 1)).

Definition release_slot : PoolM unit :=
  modify (fun s => mkPool (po_idle s) (Z.max 0 (po_total s - 1))).

Definition return_connection (conn : Connection) : PoolM unit :=
  modify (fun s =>
    if zlen (po_idle s) <? pc_max_idle config then mkPool (po_idle s ++ [conn]) (po_total s)
    else mkPool (po_idle s) (Z.max 0 (po_total s - 1))).

(** ** Borrowing *)

(** [PooledConnection::new]. *)
Definition pooled_new (conn : Connection) : PooledConnection := mkPooled (Some conn) true.

(** [ConnectionPool::acquire]. *)
Definition acquire (net : NetEnv) : PoolM (ClientResult PooledConnection) :=
  idle ← pop_idle;
  match idle with
  | Some conn => mret (Ok (pooled_new conn))
  | None =>
      reserved ← try_reserve;
      if reserved : bool then
        match connect config (ne_socket net) with
        | Ok conn => mret (Ok (pooled_new conn))
        | Err e => _ ← release_slot; mret (Err e)
        end
      else mret (Err ClientError_PoolExhausted)
  end.

(** [Drop for PooledConnection]. *)
Definition drop_pooled (pc : PooledConnection) : PoolM unit :=
  match pd_conn pc with
  | None => mret tt
  | Some conn => if pd_valid pc then return_connection conn else release_slot
  end.

(** ** One exchange *)

Context `{RespLayout}.

(** [Connection::exec]. *)
Definition conn_exec (args : list bytes) (net : NetEnv) : M Connection (ClientResult RespValue) :=
  _ ← modify (fun c => mkConnection (co_reader c) (co_line_buf c) []);
  buf ← gets co_write_buf;
  buf ← lift (encode_command args buf);
  _ ← modify (fun c => mkConnection (co_reader c) (co_line_buf c) buf);
  match ne_write net with
  | Some e => mret (Err (ClientError_Io e))
  | None =>
      _ ← modify (fun c => mkConnection
            (mkReader (rd_data (co_reader c) ++ rd_data (ne_incoming net)) (rd_end (ne_incoming net)))
            (co_line_buf c) (co_write_buf c));
      zoom (fun c => mkRead (co_reader c) (co_line_buf c))
        (fun r c => mkConnection (rs_reader r) (rs_line r) (co_write_buf c)) read_response
  end.

(** [PooledConnection::exec]: an error marks the connection as not reusable. *)
Definition pooled_exec (args : list bytes) (net : NetEnv) :
    M PooledConnection (ClientResult RespValue) := fun pc =>
  match pd_conn pc with
  | None => (Panic, pc)
  | Some conn =>
      let '(o, conn') := conn_exec args net conn in
      match o with
      | Ret (Err e) => (Ret (Err e), mkPooled (Some conn') false)
      | _ => (o, mkPooled (Some conn') (pd_valid pc))
      end
  end.

(** Borrow, exchange, decode, give back; a panic unwinds through the drop. *)
Definition exchange {A : Type} (args : list bytes) (decode : RespValue -> ClientResult A)
    (net : NetEnv) : PoolM (ClientResult A) :=
  conn ← acquire net;
  match conn with
  | Err e => mret (Err e)
  | Ok pc =>
      let '(o, pc') := pooled_exec args net pc in
      _ ← drop_pooled pc';
      match o with
      | Ret (Ok v) => mret (decode v)
      | Ret (Err e) => mret (Err e)
      | Panic => panic
      | OutOfFuel => out_of_fuel
      end
  end.

End pool.

(** ** The client calls *)

(** [enum ClientTtl]; durations in nanoseconds. *)
Inductive ClientTtl := ClientTtl_Missing | ClientTtl_NoExpiry | ClientTtl_ExpiresIn (d : Z).

(** [encode_u64]: the digits in a buffer of twenty bytes, reversed in place; an
    index past its end panics. *)
Definition encode_u64 (value : Z) : outcome (bytes * nat) :=
  let buf := replicate 20 0 in
  if value =? 0 then Ret (<[0%nat := 48]> buf, 1%nat)
  else
    '(buf, len) ← digit_loop 21 buf 0 value;
    Ret (reverse (take len buf) ++ drop len buf, len).

Definition decode_get (v : RespValue) : ClientResult (option bytes) :=
  match v with
  | Bulk data => Ok data
  | Error message => Err (ClientError_Server message)
  | _ => Err ClientError_UnexpectedResponse
  end.

Definition decode_set (v : RespValue) : ClientResult unit :=
  match v with
  | Simple _ => Ok tt
  | Error message => Err (ClientError_Server message)
  | _ => Err ClientError_UnexpectedResponse
  end.

Definition decode_delete (v : RespValue) : ClientResult bool :=
  match v with
  | Integer count => Ok (0 <? count)
  | Error message => Err (ClientError_Server message)
  | _ => Err ClientError_UnexpectedResponse
  end.

Definition decode_expire (v : RespValue) : ClientResult bool :=
  match v with
  | Integer value => Ok (value =? 1)
  | Error message => Err (ClientError_Server message)
  | _ => Err ClientError_UnexpectedResponse
  end.

Definition decode_ttl (v : RespValue) : ClientResult ClientTtl :=
  match v with
  | Integer value =>
      if value =? -2 then Ok ClientTtl_Missing
      else if value =? -1 then Ok ClientTtl_NoExpiry
      else if 0 <=? value then Ok (ClientTtl_ExpiresIn (value * NANOS_PER_SEC))
      else Err ClientError_UnexpectedResponse
  | Error message => Err (ClientError_Server message)
  | _ => Err ClientError_UnexpectedResponse
  end.

Definition decode_ping (v : RespValue) : ClientResult bytes :=
  match v with
  | Simple text => Ok text
  | Bulk (Some data) => Ok data
  | Error message => Err (ClientError_Server message)
  | _ => Err ClientError_UnexpectedResponse
  end.

Definition decode_info (v : RespValue) : ClientResult bytes :=
  match v with
  | Bulk (Some data) => Ok data
  | Error message => Err (ClientError_Server message)
  | _ => Err ClientError_UnexpectedResponse
  end.

(** ** Creation *)

(** [struct ClientConfig]. *)
Record ClientConfig := mkClientConfig {
  cc_addr : bytes;
  cc_max_idle : Z;
  cc_max_total : Z;
  cc_read_timeout : option Z;
  cc_write_timeout : option Z;
  cc_connect_timeout : option Z
}.

(** [Default for ClientConfig]. *)
Definition client_config_default : ClientConfig := mkClientConfig (bs "127.0.0.1:6379") 8 16 None None None.

(** The size of a [Connection], which the language leaves open: at least its two
    line buffers. *)
Class ConnLayout := { connection_size : Z; connection_size_min : 48 <= connection_size }.

(** [struct KVClient]: the pool with its configuration. *)
Record KVClient := mkClient { kc_config : PoolConfig; kc_pool : PoolState }.

(** [ConnectionPool::new]: the queue's capacity is reserved at once. *)
Definition connection_pool_new `{ConnLayout} (config : PoolConfig) : outcome (ClientResult KVClient) :=
  if pc_max_idle config * connection_size <=? ISIZE_MAX then Ret (Ok (mkClient config pool_new)) else Panic.

(** [KVClient::with_config]. *)
Definition with_config `{ConnLayout} (config : ClientConfig) : outcome (ClientResult KVClient) :=
  connection_pool_new (mkPoolConfig (cc_addr config) (cc_max_idle config) (cc_max_total config)
    (cc_read_timeout config) (cc_write_timeout config) (cc_connect_timeout config)).

(** [KVClient::connect]. *)
Definition client_connect `{ConnLayout} (addr : bytes) : outcome (ClientResult KVClient) :=
  let config := client_config_default in
  with_config (mkClientConfig addr (cc_max_idle config) (cc_max_total config)
    (cc_read_timeout config) (cc_write_timeout config) (cc_connect_timeout config)).

Section client.
Context (config : PoolConfig) `{RespLayout} (net : NetEnv).

Definition client_get (key : bytes) : PoolM (ClientResult (option bytes)) :=
  exchange config [bs "GET"; key] decode_get net.

Definition client_set (key value : bytes) : PoolM (ClientResult unit) :=
  exchange config [bs "SET"; key; value] decode_set net.

Definition client_set_with_ttl (key value : bytes) (ttl : Z) : PoolM (ClientResult unit) :=
  '(seconds, len) ← lift (encode_u64 (ttl / NANOS_PER_SEC));
  exchange config [bs "SET"; key; value; bs "EX"; take len seconds] decode_set net.

Definition client_delete (key : bytes) : PoolM (ClientResult bool) :=
  exchange config [bs "DEL"; key] decode_delete net.

Definition client_expire (key : bytes) (ttl : Z) : PoolM (ClientResult bool) :=
  '(seconds, len) ← lift (encode_u64 (ttl / NANOS_PER_SEC));
  exchange config [bs "EXPIRE"; key; take len seconds] decode_expire net.

Definition client_ttl (key : bytes) : PoolM (ClientResult ClientTtl) :=
  exchange config [bs "TTL"; key] decode_ttl net.

Definition client_ping (payload : option bytes) : PoolM (ClientResult bytes) :=
  exchange config
    match payload with Some data => [bs "PING"; data] | None => [bs "PING"] end decode_ping net.

Definition client_info : PoolM (ClientResult bytes) := exchange config [bs "INFO"] decode_info net.

End client.
