(* ===== verification/PoolClaims.v ===== *)
(** * Properties of the connection pool

    Any number of threads borrowing connections, one critical section or one
    exchange per step; and the effect of one client call on the pool. *)

From S2P Require Import Prelude Decimal Engine ClientResp ClientRespInv ClientPool RespClaims.
From stdpp Require Import relations.

#[local] Open Scope Z_scope.

(** ** Threads *)

(** Where a thread is: outside, after [pop_idle] found nothing, after
    [try_reserve] succeeded, or holding a connection. *)
Inductive holder := Outside | Missed | Reserved | Holding (pc : PooledConnection).

Record pool_sys := mkSys { sy_pool : PoolState; sy_threads : list holder }.

Section pool_steps.
Context (config : PoolConfig) `{RespLayout}.

(** The steps of [acquire], [exec] and drop, one critical section each. *)
Inductive thread_step : PoolState -> holder -> PoolState -> holder -> Prop :=
| step_pop s conn s' :
    pop_idle s = (Ret (Some conn), s') -> thread_step s Outside s' (Holding (pooled_new conn))
| step_miss s s' : pop_idle s = (Ret None, s') -> thread_step s Outside s' Missed
| step_reserve s s' : try_reserve config s = (Ret true, s') -> thread_step s Missed s' Reserved
| step_exhausted s s' : try_reserve config s = (Ret false, s') -> thread_step s Missed s' Outside
| step_connected s conn : thread_step s Reserved s (Holding (pooled_new conn))
| step_refused s s' : release_slot s = (Ret tt, s') -> thread_step s Reserved s' Outside
| step_exec s pc args net o pc' :
    pooled_exec args net pc = (o, pc') -> thread_step s (Holding pc) s (Holding pc')
| step_drop s pc s' : drop_pooled config pc s = (Ret tt, s') -> thread_step s (Holding pc) s' Outside.

Inductive sys_step : pool_sys -> pool_sys -> Prop :=
| sys_step_at y i h s' h' :
    sy_threads y !! i = Some h -> thread_step (sy_pool y) h s' h' ->
    sys_step y (mkSys s' (<[i := h']> (sy_threads y))).

(** Does the thread account for a slot? *)
Definition slots (h : holder) : Z := match h with Reserved | Holding _ => 1 | _ => 0 end.
Definition borrowed (hs : list holder) : Z := foldr Z.add 0 (slots <$> hs).

Definition holds_conn (h : holder) : Prop :=
  match h with Holding pc => is_Some (pd_conn pc) | _ => True end.

Record pool_inv (y : pool_sys) : Prop := mkPoolInv {
  pi_total : po_total (sy_pool y) = zlen (po_idle (sy_pool y)) + borrowed (sy_threads y);
  pi_max : po_total (sy_pool y) <= pc_max_total config;
  pi_idle : zlen (po_idle (sy_pool y)) <= pc_max_idle config;
  pi_conns : Forall holds_conn (sy_threads y)
}.

Lemma borrowed_nonneg hs : 0 <= borrowed hs.
Proof. unfold borrowed. induction hs as [|h hs IH]; csimpl; [done|]. destruct h; simpl; lia. Qed.

Lemma borrowed_outside n : borrowed (replicate n Outside) = 0.
Proof. by induction n as [|n IH]. Qed.

Lemma borrowed_insert hs i h h' :
  hs !! i = Some h -> borrowed (<[i := h']> hs) = borrowed hs - slots h + slots h'.
Proof.
  revert i. induction hs as [|x hs IH]; intros [|i]; simpl; intros Hi; try done.
  - simplify_eq. unfold borrowed. simpl. lia.
  - specialize (IH i Hi). unfold borrowed in *. csimpl. lia.
Qed.

Lemma borrowed_at hs i h : hs !! i = Some h -> slots h <= borrowed hs.
Proof.
  intros Hi. pose proof (borrowed_insert hs i h Outside Hi). pose proof (borrowed_nonneg (<[i := Outside]> hs)).
  simpl in *. lia.
Qed.

Lemma thread_step_inv s h s' h' idle_max :
  thread_step s h s' h' -> holds_conn h -> slots h <= po_total s - zlen (po_idle s) ->
  zlen (po_idle s) <= idle_max -> idle_max = pc_max_idle config -> po_total s <= pc_max_total config ->
  holds_conn h' /\ po_total s' <= pc_max_total config /\ zlen (po_idle s') <= idle_max /\
  po_total s' - zlen (po_idle s') = po_total s - zlen (po_idle s) - slots h + slots h'.
Proof.
  intros Hstep Hh Hsl Hidle -> Hmax. pose proof (zlen_nonneg (po_idle s)).
  destruct Hstep as [s conn s' E|s s' E|s s' E|s s' E|s conn|s s' E|s pc args net o pc' E|s pc s' E];
    simpl in *.
  - unfold pop_idle in E. destruct (po_idle s) as [|c rest] eqn:Ei; simplify_eq. simpl.
    rewrite zlen_cons in *. split_and!; [done|lia|lia|lia].
  - unfold pop_idle in E. destruct (po_idle s) eqn:Ei; simplify_eq. rewrite Ei. split_and!; [done|lia|done|lia].
  - unfold try_reserve in E. destruct (Z.leb_spec (pc_max_total config) (po_total s)); simplify_eq. simpl.
    split_and!; [done|lia|lia|lia].
  - unfold try_reserve in E. destruct (Z.leb_spec (pc_max_total config) (po_total s)); simplify_eq.
    split_and!; [done|lia|lia|lia].
  - split_and!; [by eexists|lia|lia|lia].
  - unfold release_slot, modify in E. simplify_eq. simpl. split_and!; [done|lia|lia|lia].
  - unfold pooled_exec in E. destruct Hh as [conn Ec]. rewrite Ec in E.
    destruct (conn_exec args net conn) as [[[v|e]| |] conn']; simplify_eq; simpl;
      (split_and!; [by eexists|lia|lia|lia]).
  - unfold drop_pooled in E. destruct Hh as [conn Ec]. rewrite Ec in E.
    destruct (pd_valid pc).
    + unfold return_connection, modify in E. simplify_eq. simpl.
      destruct (Z.ltb_spec (zlen (po_idle s)) (pc_max_idle config)); simpl; rewrite ?zlen_app;
        change (zlen [conn]) with 1; split_and!; done || lia.
    + unfold release_slot, modify in E. simplify_eq. simpl. split_and!; done || lia.
Qed.

Lemma sys_step_inv y y' : pool_inv y -> sys_step y y' -> pool_inv y'.
Proof.
  intros [Ht Hm Hi Hc] Hstep. destruct Hstep as [y i h s' h' Hh Hstep].
  pose proof (Forall_lookup_1 _ _ _ _ Hc Hh) as Hch. pose proof (borrowed_at _ _ _ Hh).
  destruct (thread_step_inv _ _ _ _ _ Hstep Hch ltac:(lia) Hi eq_refl Hm) as (Hc' & Hm' & Hi' & Hd).
  split; simpl; [|done|done|by apply Forall_insert]. rewrite (borrowed_insert _ _ _ _ Hh). lia.
Qed.

(** C24: however threads interleave, connect, fail, and drop their connections,
    the pool's [total] is exactly the idle connections plus those borrowed or
    being opened, it never exceeds [max_total], and at most [max_idle]
    connections are kept; the saturating decrements never saturate. *)
Theorem pool_accounting (n : nat) (y : pool_sys) :
  0 <= pc_max_total config -> 0 <= pc_max_idle config ->
  rtc sys_step (mkSys pool_new (replicate n Outside)) y ->
  po_total (sy_pool y) = zlen (po_idle (sy_pool y)) + borrowed (sy_threads y) /\
  po_total (sy_pool y) <= pc_max_total config /\ zlen (po_idle (sy_pool y)) <= pc_max_idle config.
Proof.
  intros Hmt Hmi Hr. assert (HI : pool_inv y).
  { assert (H0 : pool_inv (mkSys pool_new (replicate n Outside))).
    { split; simpl; [|done|done|].
      - by rewrite borrowed_outside.
      - apply Forall_replicate. done. }
    revert H0. induction Hr as [|x y0 z Hxy _ IH]; intros H0; [done|]. apply IH. by eapply sys_step_inv. }
  destruct HI. done.
Qed.

(** ** One call *)

(** C30: what a call does to the pool, on every branch: an exhausted pool and a
    failed connect leave it as it was; a connection whose exchange failed is
    dropped and its slot freed; after a good exchange the connection goes to the
    back of the idle queue if there is room, and is closed otherwise. *)
Theorem exchange_pool_effect {A : Type} (args : list bytes) (decode : RespValue -> ClientResult A)
    (net : NetEnv) (s : PoolState) :
  zlen (po_idle s) <= po_total s ->
  let back conn idle total :=
    if zlen idle <? pc_max_idle config then mkPool (idle ++ [conn]) total else mkPool idle (total - 1) in
  let after conn idle total :=
    match conn_exec args net conn with
    | (Ret (Ok v), conn') => (Ret (decode v), back conn' idle total)
    | (Ret (Err e), _) => (Ret (Err e), mkPool idle (total - 1))
    | (Panic, conn') => (Panic, back conn' idle total)
    | (OutOfFuel, conn') => (OutOfFuel, back conn' idle total)
    end in
  exchange config args decode net s =
    match po_idle s with
    | conn :: idle => after conn idle (po_total s)
    | [] =>
        if pc_max_total config <=? po_total s then (Ret (Err ClientError_PoolExhausted), s)
        else match connect config (ne_socket net) with
             | Err e => (Ret (Err e), s)
             | Ok conn => after conn [] (po_total s + 1)
             end
    end.
Proof.
  intros Htot. cbn zeta. destruct s as [idle total]. simpl in *. unfold exchange, acquire, pop_idle.
  pose proof (zlen_nonneg idle).
  assert (Hmax : forall t l, zlen (A := Connection) l <= t - 1 -> Z.max 0 (t - 1) = t - 1).
  { intros t l Hl. pose proof (zlen_nonneg l). lia. }
  unfold mbind, M_bind. simpl. destruct idle as [|conn idle]; simpl.
  - unfold try_reserve. simpl. destruct (Z.leb_spec (pc_max_total config) total); [done|].
    destruct (connect config (ne_socket net)) as [conn|e]; simpl.
    + unfold pooled_exec. simpl. destruct (conn_exec args net conn) as [[[v|e]| |] conn']; simpl;
        unfold return_connection, release_slot, modify; simpl; rewrite ?Z.add_simpl_r;
        change (zlen []) with 0 in *; repeat case_match; try done; by rewrite Z.max_r by lia.
    + unfold release_slot, modify. simpl. do 2 f_equal. lia.
  - rewrite zlen_cons in *. unfold pooled_exec. simpl.
    destruct (conn_exec args net conn) as [[[v|e]| |] conn']; simpl;
      unfold return_connection, release_slot, modify; simpl; rewrite ?(Hmax total idle) by lia;
      by repeat case_match.
Qed.

(** C40: when reading the response panics (a huge array length), the borrowed
    connection is dropped still marked valid: it goes back to the idle queue
    with the rest of the response unread, so that the next call on it takes
    these bytes for its answer. *)
Theorem panic_returns_dirty_connection {A : Type} (args : list bytes)
    (decode : RespValue -> ClientResult A) (net : NetEnv) (conn : Connection) (idle : list Connection)
    (total n : Z) (rest : bytes) :
  args_sized args -> 1 + zlen idle <= total -> zlen idle < pc_max_idle config ->
  ne_write net = None -> rd_data (co_reader conn) = [] ->
  0 < n <= I64_MAX -> ISIZE_MAX < n * respvalue_size ->
  rd_data (ne_incoming net) = bs "*" ++ decimal n ++ crlf ++ rest ->
  exists conn', rd_data (co_reader conn') = rest /\
    exchange config args decode net (mkPool (conn :: idle) total) =
      (Panic, mkPool (idle ++ [conn']) total).
Proof.
  intros Ha Htot Hidle Hw Hr Hn Hcap Hin.
  set (ending := rd_end (ne_incoming net)).
  set (conn' := mkConnection (mkReader rest ending) (bs "*" ++ decimal n) (command_wire args)).
  assert (Ec : conn_exec args net conn = (Panic, conn')).
  { unfold conn_exec. erewrite bind_run by done. erewrite bind_run by done.
    erewrite bind_run by (unfold lift; rewrite encode_command_ok by done; done).
    erewrite bind_run by done. rewrite Hw. erewrite bind_run by done.
    unfold zoom. cbn [co_reader co_line_buf co_write_buf]. rewrite Hr, Hin. cbn [app].
    pose proof (huge_array_panics n rest (co_line_buf conn) ending Hn Hcap) as E.
    unfold reading in E. unfold ending in E. change (bs "*" ++ ?x) with (42 :: x). by rewrite E. }
  exists conn'. split; [done|]. unfold exchange, acquire, pop_idle, mbind, M_bind. simpl.
  unfold pooled_exec. simpl. rewrite Ec. simpl. unfold return_connection, modify. simpl.
  by rewrite (proj2 (Z.ltb_lt _ _)).
Qed.

(** ** Configuration *)

(** What keeps a configuration from ever connecting, in the order in which the
    code finds out. *)
Definition config_error (sock : SocketEnv) : option ClientError :=
  if negb (so_parses sock (pc_addr config)) then Some ClientError_InvalidAddress
  else if bool_decide (pc_connect_timeout config = Some 0) then Some (ClientError_Io InvalidInput)
  else None.

(** Timeouts the socket options refuse. *)
Definition option_error : bool :=
  bool_decide (pc_read_timeout config = Some 0) || bool_decide (pc_write_timeout config = Some 0).

Lemma connect_config_error sock err : config_error sock = Some err -> connect config sock = Err err.
Proof.
  unfold config_error, connect, connect_stream. destruct (so_parses sock (pc_addr config)); simpl; [|by intros [= <-]].
  case_bool_decide as Ht; [|done]. rewrite Ht. simpl. by intros [= <-].
Qed.

Lemma connect_option_error sock stream :
  so_parses sock (pc_addr config) = true -> pc_connect_timeout config ≠ Some 0 ->
  so_connect sock (pc_connect_timeout config) = Ok stream -> option_error = true ->
  exists err, connect config sock = Err (ClientError_Io err).
Proof.
  intros Hp Ht Hc Ho. unfold connect, connect_stream. rewrite Hp.
  assert (match pc_connect_timeout config with
    | Some timeout => if timeout =? 0 then Err InvalidInput else so_connect sock (Some timeout)
    | None => so_connect sock None end = Ok stream) as ->.
  { destruct (pc_connect_timeout config) as [t|]; [|done]. destruct (Z.eqb_spec t 0); [by subst|done]. }
  unfold option_error in Ho. unfold set_timeout, with_timeout, io_check.
  destruct (pc_read_timeout config) as [tr|] eqn:Er.
  - destruct (Z.eqb_spec tr 0) as [->|Hr]; [by eexists|]. destruct (so_read_timeout sock tr); [by eexists|].
    destruct (pc_write_timeout config) as [tw|] eqn:Ew; simpl in Ho; [|by rewrite bool_decide_false in Ho by congruence].
    destruct (Z.eqb_spec tw 0) as [->|Hw]; [by eexists|]. rewrite !bool_decide_false in Ho by congruence. done.
  - simpl in Ho. destruct (pc_write_timeout config) as [tw|] eqn:Ew; [|done].
    destruct (Z.eqb_spec tw 0) as [->|Hw]; [by eexists|]. by rewrite bool_decide_false in Ho by congruence.
Qed.

(** A call that cannot connect. *)
Lemma exchange_refused {A : Type} args (decode : RespValue -> ClientResult A) net err :
  1 <= pc_max_total config -> connect config (ne_socket net) = Err err ->
  exchange config args decode net pool_new = (Ret (Err err), pool_new).
Proof.
  intros Hmax Hc. rewrite exchange_pool_effect by done. cbn [pool_new po_idle po_total].
  by rewrite (proj2 (Z.leb_gt _ _)), Hc by lia.
Qed.

End pool_steps.


(** ** Instances *)

Definition small_pool : PoolConfig := mkPoolConfig (bs "127.0.0.1:6379") 1 2 None None None.

(** A system that refuses every connection, and one that accepts them. *)
Definition refusing : SocketEnv :=
  mkSocket (fun _ => false) (fun _ => Err (IoFailure 111)) (fun _ => None) (fun _ => None) None.
Definition accepting : SocketEnv :=
  mkSocket (fun _ => true) (fun _ => Ok (mkReader [] None)) (fun _ => None) (fun _ => None) None.
Definition fresh_connection : Connection := mkConnection (mkReader [] None) [] [].

Lemma pool_accounting_witness :
  let y := mkSys (mkPool [fresh_connection] 2) [Outside; Reserved] in
  po_total (sy_pool y) = zlen (po_idle (sy_pool y)) + borrowed (sy_threads y) /\
  po_total (sy_pool y) <= pc_max_total small_pool /\ zlen (po_idle (sy_pool y)) <= pc_max_idle small_pool.
Proof.
  apply (@pool_accounting small_pool demo_layout 2); [done|done|].
  eapply rtc_l; [eapply (sys_step_at _ _ 0 Outside _ Missed); [done|by eapply step_miss]|].
  eapply rtc_l; [eapply (sys_step_at _ _ 1 Outside _ Missed); [done|by eapply step_miss]|].
  eapply rtc_l; [eapply (sys_step_at _ _ 0 Missed _ Reserved); [done|by eapply step_reserve]|].
  eapply rtc_l; [eapply (sys_step_at _ _ 1 Missed _ Reserved); [done|by eapply step_reserve]|].
  eapply rtc_l; [eapply (sys_step_at _ _ 0 Reserved _ (Holding (pooled_new fresh_connection))); [done|by eapply step_connected]|].
  eapply rtc_l; [eapply (sys_step_at _ _ 0 (Holding (pooled_new fresh_connection)) _ Outside); [done|by eapply step_drop]|].
  apply rtc_refl.
Defined.

Lemma exchange_pool_effect_witness :
  @exchange small_pool demo_layout (option bytes) [bs "GET"; bs "k"] decode_get
    (mkNet refusing None (mkReader (bs "$1" ++ crlf ++ bs "v" ++ crlf) None))
    (mkPool [fresh_connection] 1) =
  (Ret (Ok (Some (bs "v"))),
   mkPool [mkConnection (mkReader [] None) [] (command_wire [bs "GET"; bs "k"])] 1).
Proof.
  rewrite (@exchange_pool_effect small_pool demo_layout (option bytes) [bs "GET"; bs "k"] decode_get); done.
Defined.

Lemma panic_returns_dirty_connection_witness :
  exists conn', rd_data (co_reader conn') = bs "+OK" ++ crlf /\
    @exchange small_pool demo_layout (option bytes) [bs "GET"; bs "k"] decode_get
      (mkNet refusing None
         (mkReader (bs "*" ++ decimal I64_MAX ++ crlf ++ bs "+OK" ++ crlf) None))
      (mkPool [fresh_connection] 1) = (Panic, mkPool ([] ++ [conn']) 1).
Proof.
  apply (@panic_returns_dirty_connection small_pool demo_layout (option bytes) [bs "GET"; bs "k"]
    decode_get _ fresh_connection [] 1 I64_MAX (bs "+OK" ++ crlf)); try done.
  split; [done|]. repeat constructor; done.
Defined.

#[local] Instance demo_conn_layout : ConnLayout := {| connection_size := 96; connection_size_min := ltac:(done) |}.

