(* ===== verification/EndToEnd.v ===== *)
(** * Client and server together

    A client call is encoded, travels to the server's connection, is dispatched
    on the engine, and the response is decoded by the client.  Over any sequence
    of calls the client sees the abstract store. *)

From S2P Require Import Prelude Decimal HkvError Engine KVEngine RespParser RespParserInv Metrics.
From S2P Require Import ClientResp ClientRespInv ClientPool Server ServerSpec ServerConn ServerSession.

(** ** Calls *)

Inductive client_op :=
| CGet (k : bytes)
| CSet (k v : bytes)
| CSetTtl (k v : bytes) (d : Z)
| CDelete (k : bytes)
| CExpire (k : bytes) (d : Z)
| CTtl (k : bytes)
| CPing (payload : option bytes).

Inductive client_reply :=
| CrValue (r : ClientResult (option bytes))
| CrUnit (r : ClientResult unit)
| CrBool (r : ClientResult bool)
| CrTtl (r : ClientResult ClientTtl)
| CrText (r : ClientResult bytes).

Definition run_client `{RespLayout} (config : PoolConfig) (o : client_op) (net : NetEnv) :
    PoolM client_reply :=
  match o with
  | CGet k => r ← client_get config net k; mret (CrValue r)
  | CSet k v => r ← client_set config net k v; mret (CrUnit r)
  | CSetTtl k v d => r ← client_set_with_ttl config net k v d; mret (CrUnit r)
  | CDelete k => r ← client_delete config net k; mret (CrBool r)
  | CExpire k d => r ← client_expire config net k d; mret (CrBool r)
  | CTtl k => r ← client_ttl config net k; mret (CrTtl r)
  | CPing payload => r ← client_ping config net payload; mret (CrText r)
  end.

(** What the call sends. *)
Definition op_args (o : client_op) : command :=
  match o with
  | CGet k => [bs "GET"; k]
  | CSet k v => [bs "SET"; k; v]
  | CSetTtl k v d => [bs "SET"; k; v; bs "EX"; decimal (d / NANOS_PER_SEC)]
  | CDelete k => [bs "DEL"; k]
  | CExpire k d => [bs "EXPIRE"; k; decimal (d / NANOS_PER_SEC)]
  | CTtl k => [bs "TTL"; k]
  | CPing payload => match payload with Some data => [bs "PING"; data] | None => [bs "PING"] end
  end.

(** The calls on the abstract store; durations lose their fraction of a second
    on the wire. *)
Definition whole_secs (d : Z) : Z := d / NANOS_PER_SEC * NANOS_PER_SEC.

Definition abs_client (o : client_op) (now : nat -> Z) (m : kv) : client_reply * kv :=
  let t := now 0%nat in
  match o with
  | CGet k => (CrValue (Ok (fst <$> live t k m)), settle t k m)
  | CSet k v => (CrUnit (Ok tt), <[k := (v, None)]> m)
  | CSetTtl k v d => (CrUnit (Ok tt), <[k := (v, Some (now 1%nat + whole_secs d))]> m)
  | CDelete k => (CrBool (Ok (bool_decide (is_Some (live t k m)))), base.delete k m)
  | CExpire k d => (CrBool (Ok (bool_decide (is_Some (live t k m)))), abs_expire t k (whole_secs d) m)
  | CTtl k =>
      (CrTtl (Ok match live t k m with
                 | None => ClientTtl_Missing
                 | Some (_, None) => ClientTtl_NoExpiry
                 | Some (_, Some deadline) => ClientTtl_ExpiresIn (whole_secs (deadline - t))
                 end), settle t k m)
  | CPing payload => (CrText (Ok (default (bs "PONG") payload)), m)
  end.

(** Calls within the range of sizes and of the clock. *)
Definition client_op_ok (o : client_op) (now : nat -> Z) : Prop :=
  args_sized (op_args o) /\ zlen (command_wire (op_args o)) <= ISIZE_MAX /\ 0 <= now 0%nat /\
  match o with
  | CSetTtl _ _ d => 0 <= d /\ now 1%nat + whole_secs d <= INSTANT_MAX /\ d / NANOS_PER_SEC <= U64_MAX
  | CExpire _ d => 0 <= d /\ now 0%nat + whole_secs d <= INSTANT_MAX /\ d / NANOS_PER_SEC <= U64_MAX
  | _ => True
  end.

(** Contents a client can read: sizes and deadlines in range. *)
Definition entry_fits (x : bytes * option Z) : Prop :=
  zlen x.1 <= I64_MAX /\ match x.2 with Some d => d <= INSTANT_MAX | None => True end.
Definition store_fits (m : kv) : Prop := map_Forall (fun _ x => entry_fits x) m.

(** ** Lemmas *)

Lemma encode_u64_decimal n :
  0 <= n <= U64_MAX -> exists buf len, encode_u64 n = Ret (buf, len) /\ take len buf = decimal n.
Proof.
  intros Hn. unfold encode_u64. destruct (Z.eqb_spec n 0) as [->|]; [by eexists _, _|].
  destruct (digit_loop_ok 20 (replicate 20 0) 0 n []) as (b & l & E & Ht).
  - unfold U64_MAX in Hn. simpl. lia.
  - done.
  - done.
  - rewrite app_nil_l in Ht. cbn zeta. rewrite E. unfold mbind, outcome_bind. eexists _, _. split; [done|].
    assert (Hl : length (reverse (take l b)) = length (take l b)) by apply length_reverse.
    rewrite (decimal_fuel 20); [|unfold U64_MAX in Hn; simpl; lia|lia]. rewrite <- Ht.
    destruct (decide (l <= length b)%nat).
    + apply take_app_length'. rewrite Hl, length_take. lia.
    + rewrite drop_ge by lia. rewrite app_nil_r. apply take_ge. rewrite Hl, length_take. lia.
Qed.

Lemma parse_u64_decimal n : 0 <= n <= U64_MAX -> parse_u64 (decimal n) = Ok n.
Proof.
  intros Hn. unfold parse_u64. pose proof (decimal_nonempty n).
  pose proof (digit_fold_decimal U64_MAX n Hn) as E. destruct (decimal n); [done|]. by rewrite E.
Qed.

(** A pool of one reusable connection, free or not opened yet. *)
Definition pool_clean (s : PoolState) : Prop :=
  (po_idle s = [] /\ po_total s = 0) \/
  (exists conn, po_idle s = [conn] /\ po_total s = 1 /\ rd_data (co_reader conn) = []).

(** The system opens a connection on which nothing has arrived yet. *)
Definition opens (config : PoolConfig) (sock : SocketEnv) : Prop :=
  exists conn, connect config sock = Ok conn /\ rd_data (co_reader conn) = [].

Section client_lemmas.
Context (config : PoolConfig) `{RespLayout} (sock0 : SocketEnv).
Context (Hidle : 1 <= pc_max_idle config) (Htotal : 1 <= pc_max_total config).
Context (Hsock0 : opens config sock0).

(** The network of a call that is answered with [reply]. *)
Definition answering (reply : bytes) : NetEnv := mkNet sock0 None (mkReader reply None).

Lemma conn_exec_reply args v conn :
  args_sized args -> wire_ok 0 v -> rd_data (co_reader conn) = [] ->
  exists conn', conn_exec args (answering (wire v)) conn = (Ret (Ok v), conn') /\
    rd_data (co_reader conn') = [].
Proof.
  intros Ha Hv Hc. unfold conn_exec. erewrite bind_run by done. erewrite bind_run by done.
  erewrite bind_run by (unfold lift; rewrite encode_command_ok by done; done).
  erewrite bind_run by done. cbn [answering ne_write]. erewrite bind_run by done. unfold zoom.
  cbn [co_reader co_line_buf co_write_buf answering ne_incoming rd_data rd_end]. rewrite Hc.
  destruct (read_wire 0 v ltac:(done) Hv (S (length (wire v))) [] None (co_line_buf conn)) as (l' & E).
  { rewrite app_nil_r. lia. }
  rewrite app_nil_r in E. unfold reading in E. unfold read_response. cbn [rs_reader rd_data app].
  rewrite E. eexists. split; [done|]. done.
Qed.

Lemma exchange_reply {A : Type} args v (decode : RespValue -> ClientResult A) s :
  args_sized args -> wire_ok 0 v -> pool_clean s ->
  exists s', exchange config args decode (answering (wire v)) s = (Ret (decode v), s') /\ pool_clean s'.
Proof.
  intros Ha Hv Hs. destruct s as [idle total].
  assert (Hgo : forall conn, rd_data (co_reader conn) = [] ->
    exists conn', rd_data (co_reader conn') = [] /\
    pooled_exec args (answering (wire v)) (mkPooled (Some conn) true) =
      (Ret (Ok v), mkPooled (Some conn') true)).
  { intros conn Hc. destruct (conn_exec_reply args v conn Ha Hv Hc) as (conn' & E & Hc').
    exists conn'. split; [done|]. unfold pooled_exec. simpl. by rewrite E. }
  unfold exchange, acquire, pop_idle, pooled_new, mbind, M_bind.
  destruct Hs as [[Ei Et]|(conn & Ei & Et & Hc)]; simpl in *; subst idle total.
  - unfold try_reserve. simpl. rewrite (proj2 (Z.leb_gt _ _)) by lia. simpl.
    destruct Hsock0 as (conn0 & Ec & Hconn0). rewrite Ec.
    destruct (Hgo conn0 Hconn0) as (conn' & Hc' & E). simpl. rewrite E. simpl.
    unfold return_connection, modify. simpl. change (zlen []) with 0. rewrite (proj2 (Z.ltb_lt _ _)) by lia.
    eexists. split; [done|]. right. by exists conn'.
  - unfold mret at 1, M_ret at 1. destruct (Hgo conn Hc) as (conn' & Hc' & E). rewrite E. simpl.
    unfold return_connection, modify. simpl. change (zlen []) with 0. rewrite (proj2 (Z.ltb_lt _ _)) by lia.
    eexists. split; [done|]. right. by exists conn'.
Qed.

(** The client's result when the response is [v]. *)
Definition decoded (o : client_op) (v : RespValue) : client_reply :=
  match o with
  | CGet _ => CrValue (decode_get v)
  | CSet _ _ | CSetTtl _ _ _ => CrUnit (decode_set v)
  | CDelete _ => CrBool (decode_delete v)
  | CExpire _ _ => CrBool (decode_expire v)
  | CTtl _ => CrTtl (decode_ttl v)
  | CPing _ => CrText (decode_ping v)
  end.

Lemma run_client_reply o now v s :
  client_op_ok o now -> wire_ok 0 v -> pool_clean s ->
  exists s', run_client config o (answering (wire v)) s = (Ret (decoded o v), s') /\ pool_clean s'.
Proof.
  intros (Ha & _ & _ & Ho) Hv Hs.
  assert (Hex : forall (A : Type) (decode : RespValue -> ClientResult A) (f : ClientResult A -> client_reply),
    exists s', (r ← exchange config (op_args o) decode (answering (wire v)); mret (f r)) s =
      (Ret (f (decode v)), s') /\ pool_clean s').
  { intros A decode f. destruct (exchange_reply (op_args o) v decode s Ha Hv Hs) as (s' & E & Hs').
    exists s'. by rewrite (bind_run _ _ _ _ _ E). }
  destruct o as [k|k v0|k v0 d|k|k d|k|payload]; cbn [run_client decoded]; try apply Hex.
  - destruct Ho as (Hd & _ & Hmax). unfold client_set_with_ttl.
    destruct (encode_u64_decimal (d / NANOS_PER_SEC)) as (buf & len & E & Et).
    { split; [apply Z.div_pos; done|done]. }
    rewrite E. destruct (Hex _ decode_set CrUnit) as (s' & E' & Hs'). exists s'. split; [|done].
    rewrite <- E'. unfold mbind, M_bind, lift. by rewrite Et.
  - destruct Ho as (Hd & _ & Hmax). unfold client_expire.
    destruct (encode_u64_decimal (d / NANOS_PER_SEC)) as (buf & len & E & Et).
    { split; [apply Z.div_pos; done|done]. }
    rewrite E. destruct (Hex _ decode_expire CrBool) as (s' & E' & Hs'). exists s'. split; [|done].
    rewrite <- E'. unfold mbind, M_bind, lift. by rewrite Et.
Qed.

End client_lemmas.

(** ** The server's answer to a call *)

Implicit Types (mt : Metrics) (m : kv) (k v : bytes) (t : Z) (now : nat -> Z) (o : client_op).

Lemma op_in_clock o now : client_op_ok o now -> cmd_in_range (op_args o) now = true.
Proof.
  intros (_ & Hsz & _ & Ho). unfold cmd_in_range. apply andb_true_intro. split.
  - unfold args_fit. apply Z.leb_le. unfold command_wire in Hsz. rewrite zlen_cons, !zlen_app in Hsz.
    assert (Hb : foldr Z.add 0 (zlen <$> op_args o) <= zlen (mjoin (bulk_wire <$> op_args o))).
    { generalize (op_args o) as l. induction l as [|a l IH]; [done|].
      rewrite !fmap_cons. cbn [foldr].
      change (mjoin (bulk_wire a :: ?r)) with (bulk_wire a ++ mjoin r).
      rewrite zlen_app. unfold bulk_wire at 1. rewrite zlen_cons, !zlen_app. unfold zlen in *. lia. }
    unfold zlen in *. unfold ISIZE_MAX, USIZE_MAX in *. lia.
  - assert (Hd : forall d t, 0 <= d -> t + whole_secs d <= INSTANT_MAX -> d / NANOS_PER_SEC <= U64_MAX ->
      deadline_fits (decimal (d / NANOS_PER_SEC)) t = true).
    { intros d t H0 Ht Hm. unfold deadline_fits. rewrite parse_u64_decimal by (split; [by apply Z.div_pos|done]).
      by apply Z.leb_le. }
    destruct o as [k|k v|k v d|k|k d|k|payload]; cbn [op_args]; try done.
    + destruct Ho as (? & ? & ?). apply orb_true_intro. right. by apply Hd.
    + destruct Ho as (? & ? & ?). apply orb_true_intro. right. by apply Hd.
    + by destruct payload.
Qed.

(** Evaluates the comparisons of constant command names. *)
Ltac decide_names :=
  repeat match goal with
    | |- context [eq_ignore_ascii_case (bs ?a) (bs ?b)] =>
        let r := eval vm_compute in (eq_ignore_ascii_case (bs a) (bs b)) in
        change (eq_ignore_ascii_case (bs a) (bs b)) with r
    end; cbn iota.

Lemma live_fits t k m x : store_fits m -> live t k m = Some x -> entry_fits x /\ value_expired t x = false.
Proof. intros Hm [Hx He]%live_Some. split; [by eapply Hm|done]. Qed.

(** The remaining time of a live key, in seconds, is an [i64]. *)
Lemma remaining_secs t d :
  0 <= t -> t < d -> d <= INSTANT_MAX ->
  as_secs_i64 (d - t) = (d - t) / NANOS_PER_SEC /\ 0 <= (d - t) / NANOS_PER_SEC <= I64_MAX.
Proof.
  intros Ht Hd Hmax.
  assert (Hr : 0 <= (d - t) / NANOS_PER_SEC <= I64_MAX).
  { split; [apply Z.div_pos; [lia|done]|].
    assert ((d - t) / NANOS_PER_SEC < I64_MAX + 1); [|lia].
    apply Z.div_lt_upper_bound; [done|]. unfold INSTANT_MAX, NANOS_PER_SEC, I64_MAX in *. lia. }
  split; [|done]. unfold as_secs_i64. cbn zeta. by rewrite (proj2 (Z.leb_le _ _)) by apply Hr.
Qed.

(** The arguments of a command that can be sent. *)
Lemma arg_fits (a : bytes) (args : command) : a ∈ args -> zlen (command_wire args) <= ISIZE_MAX -> zlen a <= I64_MAX.
Proof.
  intros Ha Hsz. unfold command_wire in Hsz. rewrite zlen_cons, !zlen_app in Hsz.
  assert (Hle : zlen a <= zlen (mjoin (bulk_wire <$> args))).
  { clear Hsz. induction Ha as [args|b args Ha IH]; rewrite fmap_cons;
      change (mjoin (bulk_wire ?x :: ?r)) with (bulk_wire x ++ mjoin r); rewrite zlen_app;
      [unfold bulk_wire at 1; rewrite zlen_cons, !zlen_app|]; unfold zlen in *; lia. }
  change I64_MAX with ISIZE_MAX. unfold zlen in *. lia.
Qed.

Lemma op_reply `{FloatFormat} o now mt (m : kv) :
  client_op_ok o now -> store_fits m ->
  exists v : RespValue, dispatch_on kv (op_args o) mt now m = (Ret (wire v), (abs_client o now m).2) /\
    wire_ok 0 v /\ decoded o v = (abs_client o now m).1.
Proof.
  intros (_ & Hsz & Ht & Ho) Hm. destruct o as [k|k v|k v d|k|k d|k|[data|]]; cbn [op_args]; unfold dispatch_command;
    decide_names; cbn [abs_client fst snd decoded].
  - unfold handle_get. erewrite bind_run by (simpl; done).
    destruct (live (now 0%nat) k m) as [[x dl]|] eqn:El.
    + destruct (live_fits _ _ _ _ Hm El) as [[Hx _] _]. exists (Bulk (Some x)). done.
    + by exists (Bulk None).
  - exists (Simple (bs "OK")). split_and!; [done|vm_compute; set_solver|done].
  - destruct Ho as (H0 & _ & Hmax). exists (Simple (bs "OK")).
    split_and!; [|vm_compute; set_solver|done]. unfold handle_set. decide_names.
    rewrite parse_u64_decimal by (split; [by apply Z.div_pos|done]).
    erewrite bind_run by (simpl; done). cbn iota. erewrite bind_run by (simpl; done).
    rewrite live_insert_eq. unfold abs_expire. rewrite live_insert_eq. by rewrite insert_insert_eq.
  - unfold handle_del, del_loop. cbn [tail]. erewrite bind_run by (simpl; done).
    case_bool_decide; [exists (Integer 1)|exists (Integer 0)]; done.
  - destruct Ho as (H0 & _ & Hmax). unfold handle_expire.
    rewrite parse_u64_decimal by (split; [by apply Z.div_pos|done]). erewrite bind_run by (simpl; done).
    destruct (live (now 0%nat) k m) as [x|] eqn:El.
    + rewrite bool_decide_true by eauto. by exists (Integer 1).
    + rewrite bool_decide_false by (by intros [? ?]). by exists (Integer 0).
  - unfold handle_ttl. erewrite bind_run by (simpl; done). unfold abs_ttl.
    destruct (live (now 0%nat) k m) as [[x [dl|]]|] eqn:El.
    + destruct (live_fits _ _ _ _ Hm El) as [[_ Hd] He]. simpl in Hd.
      unfold value_expired in He. simpl in He. apply Z.leb_gt in He.
      destruct (remaining_secs (now 0%nat) dl Ht ltac:(lia) Hd) as [Es Hr].
      exists (Integer ((dl - now 0%nat) / NANOS_PER_SEC)). split_and!.
      * by rewrite Es.
      * simpl. unfold I64_MAX in *. lia.
      * simpl. unfold whole_secs. rewrite !(proj2 (Z.eqb_neq _ _)) by lia. by rewrite (proj2 (Z.leb_le _ _)) by lia.
    + by exists (Integer (-1)).
    + by exists (Integer (-2)).
  - exists (Bulk (Some data)). split_and!; [done| |done]. apply (arg_fits data [bs "PING"; data]); [set_solver|done].
  - exists (Simple (bs "PONG")). split_and!; [done|vm_compute; set_solver|done].
Qed.

Lemma fits_insert m k x : store_fits m -> entry_fits x -> store_fits (<[k := x]> m).
Proof. intros. by apply map_Forall_insert_2. Qed.
Lemma fits_delete m k : store_fits m -> store_fits (base.delete k m).
Proof. apply map_Forall_delete. Qed.
Lemma fits_settle t k m : store_fits m -> store_fits (settle t k m).
Proof. intros Hm. unfold settle. destruct (live t k m); [done|by apply fits_delete]. Qed.

Lemma abs_client_fits o now m : client_op_ok o now -> store_fits m -> store_fits (abs_client o now m).2.
Proof.
  intros (_ & Hsz & Ht & Ho) Hm. destruct o as [k|k v|k v d|k|k d|k|payload]; cbn [abs_client snd].
  - by apply fits_settle.
  - apply fits_insert; [done|]. split; [by apply (arg_fits v (op_args (CSet k v))); [set_solver|]|done].
  - apply fits_insert; [done|]. split; [by apply (arg_fits v (op_args (CSetTtl k v d))); [set_solver|]|]. simpl. lia.
  - by apply fits_delete.
  - unfold abs_expire. destruct (live (now 0%nat) k m) as [[x dl]|] eqn:El; [|by apply fits_delete].
    destruct (live_fits _ _ _ _ Hm El) as [[Hx _] _]. apply fits_insert; [done|]. split; [done|]. simpl. lia.
  - by apply fits_settle.
  - done.
Qed.

(** ** Calls over the wire *)

Section end_to_end.
Context {E : Type} `{KVEngineLaws E} `{FloatFormat} `{BytesMut} `{RespLayout}.
Context (p : profile) (w : World) (config : PoolConfig) (sock0 : SocketEnv).
Implicit Types (s : PoolState) (c : Conn E).

(** One call: the client's bytes reach the server's connection, the server's
    response reaches the client. *)
Definition remote_call (o : client_op) : M (PoolState * Conn E) client_reply := fun sc =>
  match encode_command (op_args o) [] with
  | Ret sent =>
      match drain p w (feed sent sc.2) with
      | (Ret _, c') =>
          let response := mjoin (drop (length (cn_out sc.2)) (cn_out c')) in
          let '(r, s') := run_client config o (answering sock0 response) sc.1 in
          (r, (s', c'))
      | (Panic, c') => (Panic, (sc.1, c'))
      | (OutOfFuel, c') => (OutOfFuel, (sc.1, c'))
      end
  | Panic => (Panic, sc)
  | OutOfFuel => (OutOfFuel, sc)
  end.

Fixpoint remote_calls (os : list client_op) : M (PoolState * Conn E) (list client_reply) :=
  match os with
  | [] => mret []
  | o :: os => r ← remote_call o; rs ← remote_calls os; mret (r :: rs)
  end.

(** The calls on the abstract store, the first one being request [i]. *)
Fixpoint abs_clients (i : nat) (os : list client_op) (m : kv) : list client_reply * kv :=
  match os with
  | [] => ([], m)
  | o :: os =>
      let '(r, m1) := abs_client o (clock w i) m in
      let '(rs, m2) := abs_clients (S i) os m1 in (r :: rs, m2)
  end.

Fixpoint client_ops_ok (i : nat) (os : list client_op) : Prop :=
  match os with
  | [] => True
  | o :: os => client_op_ok o (clock w i) /\ client_ops_ok (S i) os
  end.

(** A server connection between two commands. *)
Record server_ready (c : Conn E) : Prop := mkReady {
  sr_parser : at_start (cn_parser c);
  sr_buf : cn_buf c = [];
  sr_inv : kv_inv (cn_engine c);
  sr_hist : hist_ok (mt_latency (cn_metrics c));
  sr_fits : store_fits (kv_store (cn_engine c))
}.

Context (Hidle : 1 <= pc_max_idle config) (Htotal : 1 <= pc_max_total config).
Context (Hsock0 : opens config sock0) (Hw : forall i, write_ok w i = true).

Lemma remote_call_ok o s c :
  server_ready c -> pool_clean s -> client_op_ok o (clock w (cn_served c)) ->
  exists s' c', remote_call o (s, c) =
      (Ret (abs_client o (clock w (cn_served c)) (kv_store (cn_engine c))).1, (s', c')) /\
    pool_clean s' /\ server_ready c' /\ cn_served c' = S (cn_served c) /\
    kv_store (cn_engine c') = (abs_client o (clock w (cn_served c)) (kv_store (cn_engine c))).2.
Proof.
  intros [Hp Hb He Hh Hf] Hs Ho. pose proof Ho as (Ha & Hsz & _). unfold remote_call. cbn [fst snd].
  rewrite encode_command_ok by done. cbn [app].
  destruct (drain_session p w [op_args o] (feed (command_wire (op_args o)) c))
    as (c' & rs & Ed & Eb & He' & Hp' & Hh' & Eout & En & Es); simpl; rewrite ?Hb; try done.
  - by rewrite app_nil_r.
  - by constructor.
  - by rewrite op_in_clock.
  - rewrite Ed. cbn [session] in Es. simpl in Es, Eout, En.
    destruct (op_reply o (clock w (cn_served c)) (record_request_start (cn_metrics c))
      (kv_store (cn_engine c)) Ho Hf) as (v & Edisp & Hv & Edec).
    rewrite Edisp in Es. injection Es as <- _ Est.
    rewrite Eout, drop_app_length. simpl mjoin. rewrite app_nil_r.
    destruct (run_client_reply config sock0 Hidle Htotal Hsock0 o _ v s Ho Hv Hs) as (s' & Er & Hs').
    rewrite Er, Edec. exists s', c'. split_and!; [done|done| |lia|done].
    split; [done..|]. rewrite <- Est. by apply abs_client_fits.
Qed.

Lemma remote_calls_ok os s c :
  server_ready c -> pool_clean s -> client_ops_ok (cn_served c) os ->
  exists rs s' c', remote_calls os (s, c) = (Ret rs, (s', c')) /\
    pool_clean s' /\ server_ready c' /\
    abs_clients (cn_served c) os (kv_store (cn_engine c)) = (rs, kv_store (cn_engine c')).
Proof.
  revert s c. induction os as [|o os IH]; intros s c Hc Hs Ho; cbn [remote_calls abs_clients].
  { by exists [], s, c. }
  destruct Ho as [Ho Hos].
  destruct (remote_call_ok o s c Hc Hs Ho) as (s1 & c1 & E1 & Hs1 & Hc1 & En & Est).
  rewrite (bind_run _ _ _ _ _ E1). rewrite <- En in Hos.
  destruct (IH s1 c1 Hc1 Hs1 Hos) as (rs & s2 & c2 & E2 & Hs2 & Hc2 & Ea).
  rewrite (bind_run _ _ _ _ _ E2). eexists _, s2, c2. split_and!; [done|done|done|].
  rewrite En, Est in Ea. destruct (abs_client o _ _) as [r m1]. simpl in *. by rewrite Ea.
Qed.

End end_to_end.
