(* ===== verification/EndToEndShared.v ===== *)
(** * Several clients on one server process

    Clients of hkv-client, each with a pool of its own, whose connections are tasks
    of one process: what a client makes of the responses its task has written so
    far. *)

From S2P Require Import Prelude Decimal HkvError Engine KVEngine EngineTheorems RespParser RespParserInv Metrics.
From S2P Require Import ClientResp ClientRespInv ClientPool Server ServerSpec ServerConn ServerSession.
From S2P Require Import ServerTasks ServerTasksAlone ServerTasksIsolated ServerTasksSessions EndToEnd.

(** The key of a call; a ping has none. *)
Definition op_keys (o : client_op) : list bytes :=
  match o with
  | CGet k | CSet k _ | CSetTtl k _ _ | CDelete k | CExpire k _ | CTtl k => [k]
  | CPing _ => []
  end.

(** The calls of a client, as far as it has been answered: the next call waits for
    its response. *)
Fixpoint answered_calls `{RespLayout} (config : PoolConfig) (sock0 : SocketEnv) (os : list client_op)
    (responses : list bytes) : PoolM (list client_reply) :=
  match os, responses with
  | o :: os, response :: responses =>
      r ← run_client config o (answering sock0 response);
      rs ← answered_calls config sock0 os responses;
      mret (r :: rs)
  | _, _ => mret []
  end.

(** The connection carries the commands of the calls [os], in any chunks; every write
    to it succeeds, and the calls are in the range of sizes and of the clock. *)
Record calling_client (x : client) (os : list client_op) : Prop := mkCalling {
  cc_reads : exists chunks, x.2 = stream_of chunks /\ Forall (fun chunk => chunk ≠ []) chunks /\
    mjoin chunks = mjoin (command_wire <$> (op_args <$> os));
  cc_size : zlen (mjoin (command_wire <$> (op_args <$> os))) <= ISIZE_MAX;
  cc_ops : client_ops_ok x.1 0 os;
  cc_writes : forall i, write_ok x.1 i = true
}.

Lemma op_cmd_keys o : cmd_keys (op_args o) = op_keys o.
Proof. by destruct o as [| | | | | |[payload|]]. Qed.

Lemma ops_cmd_keys os : mjoin (cmd_keys <$> (op_args <$> os)) = mjoin (op_keys <$> os).
Proof. induction os as [|o os IH]; [done|]. csimpl. by rewrite op_cmd_keys, IH. Qed.

Lemma ops_not_info os : Forall (fun args => is_info args = false) (op_args <$> os).
Proof. induction os as [|o os IH]; [by constructor|]. constructor; [by destruct o as [| | | | | |[payload|]]|done]. Qed.

Lemma ops_sized w i os : client_ops_ok w i os -> Forall args_sized (op_args <$> os).
Proof.
  revert i. induction os as [|o os IH]; intros i; [by constructor|]. intros [Ho Hos]. constructor; [apply Ho|by eapply IH].
Qed.

Lemma ops_in_range w i os : client_ops_ok w i os -> session_in_range w i (op_args <$> os) = true.
Proof.
  revert i. induction os as [|o os IH]; intros i; [done|]. intros [Ho Hos]. cbn.
  rewrite op_in_clock by done. by apply IH.
Qed.

Lemma calling_session x os : calling_client x os -> session_client x (op_args <$> os).
Proof. intros [H1 H2 H3 H4]. split; [done|done|by eapply ops_sized|by apply ops_in_range|done]. Qed.

(** The replies of the session on the abstract store are those of the calls. *)
Lemma calls_session `{FloatFormat} (w : World) (i : nat) (os : list client_op) (mt : Metrics) (m : kv) :
  client_ops_ok w i os -> store_fits m ->
  exists vs, (session w i (op_args <$> os) mt m).1.1 = wire <$> vs /\ length vs = length os /\
    Forall (wire_ok 0) vs /\ zip_with decoded os vs = (abs_clients w i os m).1.
Proof.
  revert i mt m. induction os as [|o os IH]; intros i mt m Hos Hm; [by exists []|]. destruct Hos as [Ho Hos].
  rewrite fmap_cons. cbn [session abs_clients].
  destruct (op_reply o (clock w i) (record_request_start mt) m Ho Hm) as (v & Ed & Hv & Edec). rewrite Ed.
  pose proof (abs_client_fits _ _ _ Ho Hm) as Hm1. destruct (abs_client o (clock w i) m) as [r m1]. cbn [fst snd] in *.
  destruct (IH (S i) (answered (elapsed w i) (wire v) (record_request_start mt)) m1 Hos Hm1) as (vs & Es & El & Hw & Ez).
  destruct (session _ _ _ _ _) as [[rs mt2] m2], (abs_clients _ _ _ _) as [rs' m3]. cbn [fst snd] in *.
  exists (v :: vs). csimpl. rewrite Es, El, Edec, Ez. split_and!; [done|done|by constructor|done].
Qed.

Section shared.
Context `{RespLayout} (config : PoolConfig) (sock0 : SocketEnv).
Context (Hidle : 1 <= pc_max_idle config) (Htotal : 1 <= pc_max_total config) (Hsock : opens config sock0).

(** A client that has got the responses [vs] so far. *)
Lemma answered_calls_ok w i os vs s :
  client_ops_ok w i os -> (length vs <= length os)%nat -> Forall (wire_ok 0) vs -> pool_clean s ->
  exists s', answered_calls config sock0 os (wire <$> vs) s = (Ret (zip_with decoded os vs), s') /\ pool_clean s'.
Proof.
  revert i os s. induction vs as [|v vs IH]; intros i [|o os] s Hos Hl Hv Hs; cbn in Hl; [by exists s|by exists s|lia|].
  destruct Hos as [Ho Hos]. apply Forall_cons_1 in Hv as [Hv Hvs]. csimpl. cbn [answered_calls].
  destruct (run_client_reply config sock0 Hidle Htotal Hsock o _ v s Ho Hv Hs) as (s1 & E1 & Hs1).
  rewrite (bind_run _ _ _ _ _ E1). destruct (IH (S i) os s1 Hos ltac:(lia) Hvs Hs1) as (s2 & E2 & Hs2).
  rewrite (bind_run _ _ _ _ _ E2). by exists s2.
Qed.

End shared.
