(* ===== verification/EndToEndOrder.v ===== *)
(** * Clients that share keys on one server process

    Any clients on any keys: their calls take effect one at a time, in the order in
    which the process made them, between the sweeps of the expirer, and every client
    gets the results the abstract store gives in that order.  A [set_with_ttl] is two
    engine calls, between which the others can come. *)

From S2P Require Import Prelude Decimal HkvError Engine KVEngine EngineTheorems RespParser RespParserInv Metrics.
From S2P Require Import ClientResp ClientRespInv ClientPool Server ServerSpec ServerConn ServerSession.
From S2P Require Import ServerTasks ServerTasksAlone ServerTasksIsolated ServerTasksSessions EndToEnd EndToEndShared.

(** ** The sequential store *)

(** The results of client [a] among all results so far. *)
Definition results_of (a : nat) (rs : list (nat * client_reply)) : list client_reply := (filter (fun x => x.1 = a) rs).*2.

(** Call [i] of client [a], and the clock readings of its request. *)
Definition call_at (incoming : list (result client io_error)) (os : nat -> list client_op) (a i : nat) :
    option (client_op * (nat -> Z)) :=
  match incoming !! a, os a !! i with
  | Some (Ok x), Some o => Some (o, clock x.1 i)
  | _, _ => None
  end.

(** The engine call of a client call that makes exactly one. *)
Definition op_call (o : client_op) (now : nat -> Z) : option kv_call :=
  match o with
  | CGet k => Some (CallGet k (now 0%nat))
  | CSet k v => Some (CallSet k v (now 0%nat))
  | CDelete k => Some (CallDelete k (now 0%nat))
  | CExpire k d => Some (CallExpire k (whole_secs d) (now 0%nat))
  | CTtl k => Some (CallTtl k (now 0%nat))
  | CSetTtl _ _ _ | CPing _ => None
  end.

(** One move of a client whose next call is [call], on a store: the engine call it
    makes, the result it determines, and whether it is between the two halves of a
    [set_with_ttl], before and after.  The second half fails if the key is gone by
    then. *)
Inductive client_move (call : option (client_op * (nat -> Z))) :
    bool -> kv -> option kv_call -> option client_reply -> bool -> kv -> Prop :=
| cm_ping payload now m :
    call = Some (CPing payload, now) ->
    client_move call false m None (Some (CrText (Ok (default (bs "PONG") payload)))) false m
| cm_call o now c m r m' :
    call = Some (o, now) -> op_call o now = Some c -> abs_client o now m = (r, m') ->
    client_move call false m (Some c) (Some r) false m'
| cm_set k v d now m :
    call = Some (CSetTtl k v d, now) ->
    client_move call false m (Some (CallSet k v (now 0%nat))) None true (<[k := (v, None)]> m)
| cm_expire k v d now m :
    call = Some (CSetTtl k v d, now) ->
    client_move call true m (Some (CallExpire k (whole_secs d) (now 1%nat)))
      (Some (CrUnit (if bool_decide (is_Some (live (now 1%nat) k m)) then Ok tt
                     else Err (ClientError_Server (bs "ERR engine error")))))
      false (abs_expire (now 1%nat) k (whole_secs d) m).

(** A sweep at [now]: it drops expired keys, and nothing else. *)
Definition swept (now : Z) (m m' : kv) : Prop :=
  forall k, m' !! k = m !! k \/ m' !! k = None /\ exists x, m !! k = Some x /\ value_expired now x = true.

Definition mark (a : nat) (b : bool) (half : nat -> bool) : nat -> bool := fun c => if decide (c = a) then b else half c.

(** The history of the process, replayed from the content [m0]: the results, who is
    between the two halves of a call, and the content. *)
Inductive replays (incoming : list (result client io_error)) (os : nat -> list client_op) (m0 : kv) :
    list (nat * server_event) -> list (nat * client_reply) -> (nat -> bool) -> kv -> Prop :=
| rp_start : replays incoming os m0 [] [] (fun _ => false) m0
| rp_move h rs half m a c r b m' :
    replays incoming os m0 h rs half m ->
    client_move (call_at incoming os a (length (results_of a rs))) (half a) m c r b m' ->
    replays incoming os m0 (h ++ ((fun c => (a, Called c)) <$> option_list c)) (rs ++ (pair a <$> option_list r))
      (mark a b half) m'
| rp_sweep h rs half m j now m' :
    replays incoming os m0 h rs half m -> swept now m m' ->
    replays incoming os m0 (h ++ [(0%nat, Swept j now)]) rs half m'.

Lemma call_at_Some incoming os (a i : nat) x o :
  incoming !! a = Some (Ok x) -> os a !! i = Some o -> call_at incoming os a i = Some (o, clock x.1 i).
Proof. unfold call_at. by intros -> ->. Qed.

Lemma results_of_app a rs b (r : option client_reply) :
  results_of a (rs ++ (pair b <$> option_list r)) = results_of a rs ++ if decide (b = a) then option_list r else [].
Proof.
  unfold results_of. rewrite filter_app, fmap_app. f_equal. destruct r as [r|]; [|by destruct (decide (b = a))].
  change (pair b <$> option_list (Some r)) with [(b, r)]. rewrite filter_cons, filter_nil. simpl. by destruct (decide (b = a)).
Qed.

Lemma swept_fits now m m' : swept now m m' -> store_fits m -> store_fits m'.
Proof.
  intros Hs Hm k x Hx. destruct (Hs k) as [E|[E _]]; rewrite E in Hx; [by eapply Hm|done].
Qed.

(** ** The engine calls of a request *)

Definition is_ping (o : client_op) : bool := match o with CPing _ => true | _ => false end.

(** The second half of [set_with_ttl]. *)
Definition set_expire (k : bytes) (d : Z) (now : nat -> Z) : prog bytes :=
  Call (CallExpire k (whole_secs d) (now 1%nat)) (fun r =>
    Done match r with Ok _ => resp_simple (bs "OK") | Err _ => resp_error (bs "engine error") end).

Lemma op_call_sized o now c : op_call o now = Some c -> client_op_ok o now -> call_sized c.
Proof.
  intros Hc (_ & Hsz & _ & Ho). destruct o as [k|k v|k v d|k|k d|k|payload]; try done; injection Hc as <-; cbn in *; try done; [|lia].
  pose proof (arg_fits k [bs "SET"; k; v] ltac:(set_solver) Hsz). pose proof (arg_fits v [bs "SET"; k; v] ltac:(set_solver) Hsz).
  unfold I64_MAX, USIZE_MAX in *. lia.
Qed.

Lemma set_ttl_sized k v d now :
  client_op_ok (CSetTtl k v d) now ->
  call_sized (CallSet k v (now 0%nat)) /\ call_sized (CallExpire k (whole_secs d) (now 1%nat)).
Proof.
  intros (_ & Hsz & _ & _ & Hd & _). split; [|exact Hd]. set (args := op_args (CSetTtl k v d)) in Hsz.
  assert (k ∈ args /\ v ∈ args) as [Hk Hv] by (unfold args; cbn [op_args]; set_solver).
  pose proof (arg_fits k _ Hk Hsz). pose proof (arg_fits v _ Hv Hsz). unfold call_sized, I64_MAX, USIZE_MAX in *. lia.
Qed.

Lemma one_call_prog `{FloatFormat} (o : client_op) (mt : Metrics) (now : nat -> Z) c :
  op_call o now = Some c -> client_op_ok o now ->
  exists next, dispatch_command (T := prog) (op_args o) mt now = Call c next /\ forall r, exists resp, next r = Done resp.
Proof.
  intros Hc (_ & _ & _ & Ho). destruct o as [k|k v|k v d|k|k d|k|payload]; try done; injection Hc as <-; cbn [op_args];
    unfold dispatch_command; decide_names.
  - eexists. split; [reflexivity|]. intros [[v|]|err]; eexists; reflexivity.
  - eexists. split; [reflexivity|]. intros [[]|err]; eexists; reflexivity.
  - eexists. split; [reflexivity|]. intros [[]|err]; eexists; reflexivity.
  - destruct Ho as (H0 & _ & Hmax). unfold handle_expire. rewrite parse_u64_decimal by (split; [by apply Z.div_pos|done]).
    eexists. split; [reflexivity|]. intros [[]|[]]; eexists; reflexivity.
  - eexists. split; [reflexivity|]. intros [[]|[]]; eexists; reflexivity.
Qed.

(** The call gives the client's result and the store the call on the abstract store
    leaves. *)
Lemma one_call_reply `{FloatFormat} (o : client_op) (mt : Metrics) (now : nat -> Z) (m : kv) (c : kv_call)
    (next : reply_of c -> prog bytes) :
  client_op_ok o now -> store_fits m -> (forall r, exists resp, next r = Done resp) ->
  dispatch_command (T := prog) (op_args o) mt now = Call c next ->
  exists r v, run_call c m = (Ret r, (abs_client o now m).2) /\ next r = Done (wire v) /\
    wire_ok 0 v /\ decoded o v = (abs_client o now m).1.
Proof.
  intros Ho Hm Hn Hd. destruct (op_reply o now mt m Ho Hm) as (v & Ed & Hv & Edec).
  rewrite <- (dispatch_does (E := kv) (op_args o) mt now m), Hd in Ed.
  cbn [run_prog] in Ed. unfold mbind, M_bind in Ed. destruct (run_call c m) as [[r| |] m']; [|done..].
  destruct (Hn r) as [resp Hr]. rewrite Hr in Ed. injection Ed as -> ->. by exists r, v.
Qed.

Lemma set_ttl_prog `{FloatFormat} k v d (mt : Metrics) (now : nat -> Z) :
  client_op_ok (CSetTtl k v d) now ->
  exists next, dispatch_command (T := prog) (op_args (CSetTtl k v d)) mt now = Call (CallSet k v (now 0%nat)) next /\
    next (Ok tt) = set_expire k d now.
Proof.
  intros (_ & _ & _ & H0 & _ & Hmax). cbn [op_args]. unfold dispatch_command. decide_names. unfold handle_set. decide_names.
  rewrite parse_u64_decimal by (split; [by apply Z.div_pos|done]). eexists. split; reflexivity.
Qed.

Lemma ping_prog `{FloatFormat} payload (mt : Metrics) (now : nat -> Z) :
  client_op_ok (CPing payload) now ->
  exists v, dispatch_command (T := prog) (op_args (CPing payload)) mt now = Done (wire v) /\ wire_ok 0 v /\
    decoded (CPing payload) v = CrText (Ok (default (bs "PONG") payload)).
Proof.
  intros (_ & Hsz & _). destruct payload as [data|].
  - exists (Bulk (Some data)). split_and!; [reflexivity| |done]. apply (arg_fits data [bs "PING"; data]); [set_solver|done].
  - exists (Simple (bs "PONG")). split_and!; [reflexivity|vm_compute; set_solver|done].
Qed.

(** ** A client's task *)

Section task.
Context `{FloatFormat} `{BytesMut} (p : profile) (m0 : Metrics) (Hm0 : hist_ok (mt_latency m0)).
Context (w : World) (os : list client_op).
Context (Hok : client_ops_ok w 0 os) (Hwrites : forall i, write_ok w i = true).
Implicit Types (u : task) (pc : task_pc) (rs : list client_reply) (vs : list RespValue) (rest : list bytes).

Definition write_fits (x : metric_write) : Prop :=
  match x with AddBucket i => (i < length (lh_buckets (mt_latency m0)))%nat | _ => True end.

(** Where the task is, [k] responses written, the chunks [rest] still to be read and
    the results [rs] determined by the calls on the store so far, between the two
    halves of a call or not. *)
Inductive stage (rest : list bytes) (k : nat) (rs : list client_reply) : bool -> nat -> task_pc -> Prop :=
| st_reading : length rs = k -> (rest = [] -> k = length os) -> stage rest k rs false k Reading
| st_parsing : length rs = k -> stage rest k rs false k Parsing
| st_recording b n ws pc : Forall write_fits ws -> stage rest k rs b n pc -> stage rest k rs b n (Recording ws pc)
| st_dispatching o : length rs = k -> os !! k = Some o -> stage rest k rs false (S k) (Dispatching (op_args o))
| st_running o mt : length rs = k -> os !! k = Some o -> is_ping o = false ->
    stage rest k rs false (S k) (Running (dispatch_command (op_args o) mt (clock w k)))
| st_second key v d : length rs = k -> os !! k = Some (CSetTtl key v d) ->
    stage rest k rs true (S k) (Running (set_expire key d (clock w k)))
| st_done o v : length rs = S k -> os !! k = Some o -> wire_ok 0 v -> rs !! k = Some (decoded o v) ->
    stage rest k rs false (S k) (Running (Done (wire v)))
| st_sending o v : length rs = S k -> os !! k = Some o -> wire_ok 0 v -> rs !! k = Some (decoded o v) ->
    stage rest k rs false (S k) (Sending (wire v) false).

(** What has been received and parsed. *)
Record in_stream u rest : Prop := mkInStream {
  in_parser : parser_wf (tk_parser u);
  in_size : zlen (tk_buf u ++ mjoin rest) <= ISIZE_MAX;
  in_reads : tk_reads u = stream_of rest;
  in_chunks : Forall (fun chunk => chunk ≠ []) rest;
  in_served : (tk_served u <= length os)%nat;
  in_yields : yields p (tk_parser u) (tk_buf u ++ mjoin rest) (op_args <$> drop (tk_served u) os)
}.

(** The responses written are those of the results, and the task is on its way or has
    answered every call. *)
Record serves u rs (half : bool) : Prop := mkServes {
  sv_world : tk_world u = w;
  sv_responses : exists vs, tk_out u = wire <$> vs /\ Forall (wire_ok 0) vs /\
    zip_with decoded os vs = take (length vs) rs /\ (length vs <= length os)%nat;
  sv_results : (length rs <= length os)%nat /\ (length (tk_out u) <= length rs <= S (length (tk_out u)))%nat;
  sv_stage : (tk_pc u = Ended Finished None /\ length (tk_out u) = length os /\ half = false) \/
    exists rest, in_stream u rest /\ stage rest (length (tk_out u)) rs half (tk_served u) (tk_pc u)
}.

Lemma client_ops_lookup i j o : client_ops_ok w i os -> os !! j = Some o -> client_op_ok o (clock w (i + j)).
Proof.
  clear. revert i j. induction os as [|o' os' IH]; intros i j Ho Hj; [done|]. destruct Ho as [Ho Hos]. destruct j as [|j].
  - injection Hj as ->. by rewrite Nat.add_0_r.
  - rewrite <- Nat.add_succ_comm. by apply IH.
Qed.

Lemma next_op j o : os !! j = Some o -> client_op_ok o (clock w j).
Proof. exact (client_ops_lookup 0 j o Hok). Qed.

(** A move that writes no response. *)
Lemma serves_goto u rs half half' pc rest :
  serves u rs half -> in_stream u rest -> stage rest (length (tk_out u)) rs half' (tk_served u) pc -> serves (goto pc u) rs half'.
Proof. intros [S1 S2 S3 _] [I1 I2 I3 I4 I5 I6] Hs. split; try done. right. exists rest. by split. Qed.

Lemma read_serves u u' rs rest :
  serves u rs false -> in_stream u rest -> length rs = length (tk_out u) -> tk_served u = length (tk_out u) ->
  (rest = [] -> length (tk_out u) = length os) -> read_step u = Some u' -> serves u' rs false.
Proof.
  intros [S1 S2 S3 _] [I1 I2 I3 I4 I5 I6] Hl Hn Hend. unfold read_step. rewrite I3. destruct rest as [|chunk rest].
  { intros [= <-]. split; try done. left. split; [done|]. split; [by apply Hend|done]. }
  change (stream_of (chunk :: rest)) with (@Ok bytes io_error chunk :: stream_of rest). intros [= <-].
  change (mjoin (chunk :: rest)) with (chunk ++ mjoin rest) in *. rewrite app_assoc in *.
  apply Forall_cons_1 in I4 as [Hchunk I4].
  assert ((zlen chunk =? 0) = false) as -> by (apply Z.eqb_neq; unfold zlen; destruct chunk; [done|simpl; lia]).
  split; try done. right. exists rest. split; [by split|]. cbn. rewrite Hn. by constructor.
Qed.

Lemma parse_serves u rs rest :
  serves u rs false -> in_stream u rest -> length rs = length (tk_out u) -> tk_served u = length (tk_out u) ->
  serves (parse_step p u) rs false.
Proof.
  intros [S1 S2 S3 _] [I1 I2 I3 I4 I5 I6] Hl Hn. pose proof (yields_parse p (fun _ => True) _ _ _ _ I1 I2 I6) as Hy. unfold parse_step.
  destruct (parse p (tk_parser u, tk_buf u)) as [[[[args|]|[]]| |] [q b]] eqn:Ep; [| |done..].
  - destruct Hy as (Hq & Hsz & cmds' & Hcmds & Hy). destruct (os !! tk_served u) as [o|] eqn:Ho.
    2:{ apply lookup_ge_None in Ho. by rewrite drop_ge in Hcmds. }
    rewrite (drop_S _ o) in Hcmds by done. injection Hcmds as <- <-. apply lookup_lt_Some in Ho as Hlt.
    split; try done. right. exists rest. split; [by split|]. cbn. rewrite Hn in Ho |- *. constructor; [by repeat constructor|].
    by constructor.
  - destruct Hy as (Hq & Hsz & Hy). split; try done. right. exists rest. split; [by split|]. cbn. rewrite Hn. constructor; [done|].
    intros ->. cbn [mjoin list_join] in I6. rewrite app_nil_r in I6.
    destruct (drop (tk_served u) os) as [|o cmds] eqn:Hd.
    + apply (f_equal length) in Hd. rewrite length_drop in Hd. cbn in Hd. lia.
    + destruct I6 as (q' & b' & E' & _). by rewrite Ep in E'.
Qed.

Lemma write_fits_ok x m : blank m = blank m0 -> write_fits x -> exists m', write_metric x m = (Ret tt, m') /\ blank m' = blank m0.
Proof.
  intros Hb Hx. pose proof (blank_write x m) as Hw. rewrite Hb in Hw.
  assert (Ho : (write_metric x m).1 = Ret tt).
  { rewrite (write_outcome x m m0 Hb). destruct x; try done. cbn in *.
    by destruct (lookup_lt_is_Some_2 _ _ Hx) as [y ->]. }
  destruct (write_metric x m) as [o m']. cbn in *. subst o. by exists m'.
Qed.

Lemma end_writes_fit m l : blank m = blank m0 -> Forall write_fits (end_writes (lh_bounds_us (mt_latency m)) l).
Proof.
  intros [Hbounds _]%blank_eq. rewrite Hbounds. unfold end_writes. repeat constructor. cbn.
  unfold hist_ok in Hm0. rewrite Hm0. apply bucket_of_lt.
Qed.

Lemma error_writes_fit r : Forall write_fits (error_writes r).
Proof. unfold error_writes. destruct (is_error_response r); by repeat constructor. Qed.

(** The response to the call that took effect last. *)
Lemma send_serves u rs half rest o v m :
  blank m = blank m0 -> serves u rs half -> in_stream u rest -> let k := length (tk_out u) in
  tk_served u = S k -> length rs = S k -> os !! k = Some o -> wire_ok 0 v -> rs !! k = Some (decoded o v) ->
  serves (send_step (wire v) false m u) rs false.
Proof.
  intros Hb [S1 (vs & Ev & Hv & Ez & Hle) S3 _] [I1 I2 I3 I4 I5 I6] k Hn Hl Ho Hwire Hr.
  unfold send_step. rewrite S1, Hwrites.
  assert (Hk : k = length vs) by (unfold k; rewrite Ev; apply length_fmap). pose proof (lookup_lt_Some _ _ _ Ho) as Hlt.
  split; cbn [tk_world tk_out tk_pc tk_served]; rewrite ?length_app; cbn [length].
  - done.
  - exists (vs ++ [v]). rewrite fmap_app, Ev. split_and!; [done|apply Forall_app; split; [done|by apply Forall_singleton]| |rewrite length_app; cbn; lia].
    rewrite length_app, Nat.add_1_r, (take_S_r _ _ (decoded o v)) by (by rewrite <- Hk). rewrite <- Ez.
    rewrite zip_with_app_r, zip_with_take_l, (drop_S _ o) by (by rewrite <- Hk). cbn. by rewrite zip_with_nil_r.
  - fold k. lia.
  - right. exists rest. split; [by split|]. fold k. rewrite Hn, Nat.add_1_r. constructor; [by apply end_writes_fit|].
    by constructor.
Qed.

(** The call of the task has taken effect. *)
Lemma call_serves u rs half rest o v :
  serves u rs half -> in_stream u rest -> length rs = length (tk_out u) -> os !! length (tk_out u) = Some o ->
  S (length (tk_out u)) = tk_served u -> wire_ok 0 v -> serves (goto (Running (Done (wire v))) u) (rs ++ [decoded o v]) false.
Proof.
  intros [S1 (vs & Ev & Hvs & Ez & Hle) [S3 S4] _] Hin Hl Ho Hn Hv. pose proof (lookup_lt_Some _ _ _ Ho) as Hlt.
  assert (Hk : length (tk_out u) = length vs) by (rewrite Ev; apply length_fmap).
  split; cbn [goto tk_world tk_out tk_pc tk_served]; [done| |rewrite length_app; cbn; lia|].
  - exists vs. rewrite take_app_le by lia. done.
  - right. exists rest. destruct Hin. split; [by split|]. rewrite <- Hn.
    apply (st_done _ _ _ o); [rewrite length_app; cbn; lia|done|done|]. by rewrite <- Hl, list_lookup_middle.
Qed.

Section step.
Context {E : Type} `{KVEngineLaws E}.
Implicit Types (e : E).

(** A call in range runs on the engine as on the store. *)
Lemma call_on_engine c e : kv_inv e -> call_sized c ->
  exists r e', run_call c e = (Ret r, e') /\ kv_inv e' /\ run_call c (kv_store e) = (Ret r, kv_store e').
Proof.
  intros He Hc. destruct (runs_inv _ _ _ (call_mirrors c e He (call_sized_fits _ _ Hc))) as (r & e' & E1 & He' & E2).
  by exists r, e'.
Qed.

(** What a step of the task does: nothing to the engine or the results, or the next
    move of its client. *)
Definition step_moves e u' rs half e' ev : Prop :=
  ev = None /\ e' = e /\ serves u' rs half \/
  exists c r half', ev = Called <$> c /\ store_fits (kv_store e') /\
    (forall o, os !! length rs = Some o ->
      client_move (Some (o, clock w (length rs))) half (kv_store e) c r half' (kv_store e')) /\
    is_Some (os !! length rs) /\ serves u' (rs ++ option_list r) half'.

Lemma stay e u' rs half : serves u' rs half -> step_moves e u' rs half e None.
Proof. by left. Qed.

Lemma move_step e u' rs half e' c r half' o :
  os !! length rs = Some o -> store_fits (kv_store e') ->
  client_move (Some (o, clock w (length rs))) half (kv_store e) c r half' (kv_store e') ->
  serves u' (rs ++ option_list r) half' -> step_moves e u' rs half e' (Called <$> c).
Proof. intros Ho Hf Hm Hs. right. exists c, r, half'. split_and!; [done|done|intros o' Ho'; by simplify_eq|by eexists|done]. Qed.

(** The call of a request that makes one. *)
Lemma call_step e u rs rest o c mt :
  kv_inv e -> store_fits (kv_store e) -> serves u rs false -> in_stream u rest ->
  length rs = length (tk_out u) -> os !! length (tk_out u) = Some o -> S (length (tk_out u)) = tk_served u ->
  op_call o (clock w (length (tk_out u))) = Some c ->
  exists next r e', dispatch_command (T := prog) (op_args o) mt (clock w (length (tk_out u))) = Call c next /\
    run_call c e = (Ret r, e') /\ kv_inv e' /\ (exists resp, next r = Done resp) /\
    step_moves e (goto (Running (next r)) u) rs false e' (Some (Called c)).
Proof.
  intros He Hf Hu Hin Hl Ho Hn Hc. pose proof (next_op _ _ Ho) as Hoo.
  destruct (one_call_prog o mt _ c Hc Hoo) as (next & Hd & Hnext).
  destruct (call_on_engine c e He (op_call_sized _ _ _ Hc Hoo)) as (r & e' & E1 & He' & E2).
  destruct (one_call_reply _ _ _ (kv_store e) _ _ Hoo Hf Hnext Hd) as (r' & v & Ec & Hr & Hv & Hdec).
  rewrite E2 in Ec. injection Ec as <- Est. exists next, r, e'. split_and!; [done..|by eexists|].
  eapply (move_step _ _ _ _ _ (Some c) (Some (decoded o v)) false); rewrite ?Hl; [done| | |].
  - rewrite Est. by apply abs_client_fits.
  - eapply cm_call; [done..|]. rewrite Hdec, Est. by destruct (abs_client _ _ _).
  - rewrite Hr. by eapply call_serves.
Qed.

(** The first half of [set_with_ttl]. *)
Lemma set_step e u rs rest key v d mt :
  kv_inv e -> store_fits (kv_store e) -> serves u rs false -> in_stream u rest ->
  length rs = length (tk_out u) -> os !! length (tk_out u) = Some (CSetTtl key v d) -> S (length (tk_out u)) = tk_served u ->
  let now := clock w (length (tk_out u)) in
  exists next r e', dispatch_command (T := prog) (op_args (CSetTtl key v d)) mt now = Call (CallSet key v (now 0%nat)) next /\
    run_call (CallSet key v (now 0%nat)) e = (Ret r, e') /\ kv_inv e' /\ next r = set_expire key d now /\
    step_moves e (goto (Running (next r)) u) rs false e' (Some (Called (CallSet key v (now 0%nat)))).
Proof.
  intros He Hf Hu Hin Hl Ho Hn now. pose proof (next_op _ _ Ho) as Hoo. pose proof Hoo as (_ & Hsz & _).
  destruct (set_ttl_prog key v d mt now Hoo) as (next & Hd & Hnext). destruct (set_ttl_sized _ _ _ _ Hoo) as [Hs1 _].
  destruct (call_on_engine _ e He Hs1) as (r & e' & E1 & He' & E2). cbn in E2. injection E2 as <- Est.
  exists next, (Ok tt), e'. split_and!; [done..|].
  eapply (move_step _ _ _ _ _ (Some _) None true); rewrite ?Hl; [done| | |].
  - rewrite <- Est. apply fits_insert; [done|]. split; [|done]. by apply (arg_fits v (op_args (CSetTtl key v d))); [set_solver|].
  - rewrite <- Est. by apply cm_set with (d := d).
  - rewrite app_nil_r, Hnext. eapply serves_goto; [done..|]. rewrite <- Hn. by eapply st_second.
Qed.

(** The second half. *)
Lemma expire_step e u rs rest key v d :
  kv_inv e -> store_fits (kv_store e) -> serves u rs true -> in_stream u rest ->
  length rs = length (tk_out u) -> os !! length (tk_out u) = Some (CSetTtl key v d) -> S (length (tk_out u)) = tk_served u ->
  let now := clock w (length (tk_out u)) in let c := CallExpire key (whole_secs d) (now 1%nat) in
  exists r e', run_call c e = (Ret r, e') /\ kv_inv e' /\
    step_moves e (goto (Running (Done match r with Ok _ => resp_simple (bs "OK") | Err _ => resp_error (bs "engine error") end)) u)
      rs true e' (Some (Called c)).
Proof.
  intros He Hf Hu Hin Hl Ho Hn now c. pose proof (next_op _ _ Ho) as Hoo. pose proof Hoo as (_ & _ & _ & _ & Hmax & _).
  destruct (set_ttl_sized _ _ _ _ Hoo) as [_ Hs2]. destruct (call_on_engine c e He Hs2) as (r & e' & E1 & He' & E2).
  exists r, e'. split_and!; [done..|]. cbn in E2. injection E2 as Er Est.
  assert (Hfits : store_fits (kv_store e')).
  { rewrite <- Est. unfold abs_expire. destruct (live _ key (kv_store e)) as [[x dl]|] eqn:El; [|by apply fits_delete].
    destruct (live_fits _ _ _ _ Hf El) as [[Hx _] _]. apply fits_insert; [done|]. split; [done|]. exact Hmax. }
  assert (Hv : exists x, wire_ok 0 x /\
    match r with Ok _ => resp_simple (bs "OK") | Err _ => resp_error (bs "engine error") end = wire x /\
    decoded (CSetTtl key v d) x = CrUnit (if bool_decide (is_Some (live (now 1%nat) key (kv_store e))) then Ok tt
      else Err (ClientError_Server (bs "ERR engine error")))).
  { rewrite <- Er. destruct (live (now 1%nat) key (kv_store e)).
    - exists (Simple (bs "OK")). split_and!; [vm_compute; set_solver|done|]. by rewrite bool_decide_true by eauto.
    - exists (Error (bs "ERR engine error")). split_and!; [vm_compute; set_solver|done|].
      by rewrite bool_decide_false by (by intros [? ?]). }
  destruct Hv as (x & Hx & -> & Edec).
  eapply (move_step _ _ _ _ _ (Some c) (Some _) false); rewrite ?Hl; [done|done| |].
  - rewrite <- Est. by apply cm_expire with (v := v).
  - rewrite <- Edec. by eapply call_serves.
Qed.

(** A request that makes no call. *)
Lemma ping_step e u rs rest payload mt :
  store_fits (kv_store e) -> serves u rs false -> in_stream u rest ->
  length rs = length (tk_out u) -> os !! length (tk_out u) = Some (CPing payload) -> S (length (tk_out u)) = tk_served u ->
  let now := clock w (length (tk_out u)) in
  step_moves e (goto (Running (dispatch_command (op_args (CPing payload)) mt now)) u) rs false e None.
Proof.
  intros Hf Hu Hin Hl Ho Hn now. destruct (ping_prog payload mt now (next_op _ _ Ho)) as (v & -> & Hv & Edec).
  eapply (move_step _ _ _ _ _ None (Some _) false); rewrite ?Hl; [done|done|by apply cm_ping with (now := now)|].
  rewrite <- Edec. by eapply call_serves.
Qed.

Lemma step_serves e mt u rs half e' mt' u' ev :
  kv_inv e -> store_fits (kv_store e) -> blank mt = blank m0 -> serves u rs half ->
  task_step p e mt u = Some (e', mt', u', ev) ->
  blank mt' = blank m0 /\ kv_inv e' /\ step_moves e u' rs half e' ev.
Proof.
  intros He Hf Hb Hu Hs. pose proof (sv_stage _ _ _ Hu) as [[Hpc _]|(rest & Hin & Hst)].
  { unfold task_step in Hs. by rewrite Hpc in Hs. }
  unfold task_step in Hs. remember (tk_served u) as n eqn:Hn. remember (tk_pc u) as pc eqn:Hpc.
  destruct Hst as [Hl Hend|Hl|b n ws pc Hws Hst|o Hl Ho|o mt1 Hl Ho Hp|key v d Hl Ho|o v Hl Ho Hv Hr|o v Hl Ho Hv Hr].
  - destruct (read_step u) as [u1|] eqn:Er; [|done]. injection Hs as <- <- <- <-. split_and!; [done..|]. apply stay.
    by eapply read_serves.
  - injection Hs as <- <- <- <-. split_and!; [done..|]. apply stay. by eapply parse_serves.
  - destruct ws as [|x ws].
    + injection Hs as <- <- <- <-. split_and!; [done..|]. apply stay. eapply serves_goto; [done..|]. by rewrite <- Hn.
    + apply Forall_cons_1 in Hws as [Hx Hws]. destruct (write_fits_ok x mt Hb Hx) as (m1 & Ew & Hb1). rewrite Ew in Hs.
      injection Hs as <- <- <- <-. split_and!; [done..|]. apply stay. eapply serves_goto; [done..|]. rewrite <- Hn. by constructor.
  - injection Hs as <- <- <- <-. split_and!; [done..|]. unfold dispatch_step, tk_request. rewrite <- Hn, (sv_world _ _ _ Hu).
    assert (is_info (op_args o) = false) as -> by (by destruct o as [| | | | | |[payload|]]). cbn [pred].
    destruct (is_ping o) eqn:Hp; [destruct o as [| | | | | |payload]; try done; by eapply ping_step|].
    apply stay. eapply serves_goto; [done..|]. rewrite <- Hn. by constructor.
  - destruct (op_call o (clock w (length (tk_out u)))) as [c|] eqn:Hc.
    + destruct (call_step e u rs rest o c mt1 He Hf Hu Hin Hl Ho Hn Hc) as (next & r & e1 & Hd & E1 & He1 & _ & Hm).
      rewrite Hd, E1 in Hs. injection Hs as <- <- <- <-. done.
    + destruct o as [| |key v d| | | |]; try done.
      destruct (set_step e u rs rest key v d mt1 He Hf Hu Hin Hl Ho Hn) as (next & r & e1 & Hd & E1 & He1 & _ & Hm).
      rewrite Hd, E1 in Hs. injection Hs as <- <- <- <-. done.
  - destruct (expire_step e u rs rest key v d He Hf Hu Hin Hl Ho Hn) as (r & e1 & E1 & He1 & Hm).
    unfold set_expire in Hs. rewrite E1 in Hs. injection Hs as <- <- <- <-. done.
  - injection Hs as <- <- <- <-. split_and!; [done..|]. apply stay. eapply serves_goto; [done..|]. rewrite <- Hn.
    constructor; [apply error_writes_fit|]. by eapply st_sending.
  - injection Hs as <- <- <- <-. split_and!; [done..|]. apply stay. by eapply send_serves.
Qed.

End step.

(** ** Turns *)

(** The turns until the task is back at the parser or at the next read. *)
Fixpoint pc_turns pc : nat :=
  match pc with
  | Reading => 1
  | Parsing => 2
  | Recording ws next => S (length ws) + pc_turns next
  | Dispatching _ => 15
  | Running (Call (CallSet _ _ _) _) => 14
  | Running (Call _ _) => 13
  | Running (Done _) => 12
  | Sending _ _ => 9
  | _ => 0
  end.

(** Each turn of the task lowers it: a request takes at most seventeen turns from one
    parse to the next, a read two. *)
Definition turns_left u : nat := 17 * (length os - tk_served u) + 2 * length (tk_reads u) + pc_turns (tk_pc u).

Lemma read_turns u u' : read_step u = Some u' -> tk_pc u = Reading -> (turns_left u' < turns_left u)%nat.
Proof.
  unfold read_step, turns_left. intros Hr ->. destruct (tk_reads u) as [|[chunk|err] reads]; [done|..]; injection Hr as <-; cbn.
  - destruct (zlen chunk =? 0); cbn; lia.
  - lia.
Qed.

Lemma parse_turns u rs half : serves (parse_step p u) rs half -> tk_pc u = Parsing -> (turns_left (parse_step p u) < turns_left u)%nat.
Proof.
  intros Hs Hpc. unfold turns_left. rewrite Hpc. destruct Hs as [_ _ _ Hs]. revert Hs. unfold parse_step.
  destruct (parse p (tk_parser u, tk_buf u)) as [[[[args|]|[]]| |] [q b]]; cbn; try lia.
  - intros [[? _]|(rest & [_ _ _ _ Hle _] & _)]; [done|]. cbn in *. lia.
  - intros [[? _]|(rest & _ & Hst)]; [done|]. inversion Hst as [| |b0 n ws pc _ Hst'| | | | |]; subst. inversion Hst'.
Qed.

Lemma call_turns (c : kv_call) next : (13 <= pc_turns (Running (Call c next)) <= 14)%nat.
Proof. destruct c; cbn; lia. Qed.

Lemma running_turns (x : prog bytes) : (12 <= pc_turns (Running x) <= 14)%nat.
Proof. destruct x as [r|c next]; [cbn; lia|]. pose proof (call_turns c next). lia. Qed.

Lemma step_turns {E : Type} `{KVEngineLaws E} (e : E) mt u rs half e' mt' u' ev :
  kv_inv e -> store_fits (kv_store e) -> serves u rs half -> task_step p e mt u = Some (e', mt', u', ev) ->
  (turns_left u' < turns_left u)%nat.
Proof.
  intros He Hf Hu Hs. pose proof (sv_stage _ _ _ Hu) as [[Hpc _]|(rest & Hin & Hst)].
  { unfold task_step in Hs. by rewrite Hpc in Hs. }
  unfold task_step in Hs. remember (tk_served u) as n eqn:Hn. remember (tk_pc u) as pc eqn:Hpc.
  destruct Hst as [Hl Hend|Hl|b n ws pc Hws Hst|o Hl Ho|o mt1 Hl Ho Hp|key v d Hl Ho|o v Hl Ho Hv Hr|o v Hl Ho Hv Hr].
  - destruct (read_step u) as [u1|] eqn:Er; [|done]. injection Hs as <- <- <- <-. by apply read_turns.
  - injection Hs as <- <- <- <-. eapply parse_turns; [by eapply parse_serves|done].
  - destruct ws as [|x ws]; [injection Hs as <- <- <- <-|destruct (write_metric x mt) as [o m1]; injection Hs as <- <- <- <-];
      unfold turns_left; rewrite <- Hpc; cbn; [lia|]. destruct o; cbn; lia.
  - injection Hs as <- <- <- <-. unfold turns_left, dispatch_step. rewrite <- Hpc.
    assert (is_info (op_args o) = false) as -> by (by destruct o as [| | | | | |[payload|]]). cbn [goto tk_served tk_reads tk_pc].
    pose proof (running_turns (dispatch_command (op_args o) (blank mt) (clock (tk_world u) (tk_request u)))).
    change (pc_turns (Dispatching (op_args o))) with 15%nat. lia.
  - destruct (op_call o (clock w (length (tk_out u)))) as [c|] eqn:Hc.
    + destruct (call_step e u rs rest o c mt1 He Hf Hu Hin Hl Ho Hn Hc) as (next & r & e1 & Hd & E1 & _ & [resp Hr] & _).
      rewrite Hd in Hpc, Hs. rewrite E1 in Hs. injection Hs as <- <- <- <-. unfold turns_left. rewrite <- Hpc, Hr.
      pose proof (call_turns c next). cbn [goto tk_served tk_reads tk_pc]. change (pc_turns (Running (Done resp))) with 12%nat. lia.
    + destruct o as [| |key v d| | | |]; try done.
      destruct (set_step e u rs rest key v d mt1 He Hf Hu Hin Hl Ho Hn) as (next & r & e1 & Hd & E1 & _ & Hr & _).
      rewrite Hd in Hpc, Hs. rewrite E1 in Hs. injection Hs as <- <- <- <-. unfold turns_left. rewrite <- Hpc, Hr. cbn. lia.
  - destruct (expire_step e u rs rest key v d He Hf Hu Hin Hl Ho Hn) as (r & e1 & E1 & _).
    unfold set_expire in Hs, Hpc. rewrite E1 in Hs. injection Hs as <- <- <- <-. unfold turns_left. rewrite <- Hpc. cbn. lia.
  - injection Hs as <- <- <- <-. unfold turns_left, error_writes. rewrite <- Hpc. cbn. destruct (is_error_response _); cbn; lia.
  - injection Hs as <- <- <- <-. unfold turns_left, send_step. rewrite <- Hpc. destruct (write_ok _ _); cbn; lia.
Qed.

Lemma no_turns_left u rs half : serves u rs half -> turns_left u = 0%nat -> waits u.
Proof.
  intros Hu. pose proof (sv_stage _ _ _ Hu) as [[Hpc _]|(rest & _ & Hst)]; unfold turns_left, waits; [by rewrite Hpc|].
  destruct Hst as [| | | |o mt| | |]; try (cbn; lia).
  pose proof (running_turns (dispatch_command (op_args o) mt (clock w (length (tk_out u))))). lia.
Qed.

(** A task that waits has answered every call. *)
Lemma waits_answered u rs half : serves u rs half -> waits u ->
  length (tk_out u) = length os /\ length rs = length os /\ half = false.
Proof.
  intros [_ _ [S3 S4] Hst] Hw. destruct Hst as [(_ & Hend & Hh)|(rest & [_ _ I3 _ _ _] & Hst)].
  - split_and!; [done|lia|done].
  - unfold waits in Hw. destruct Hst as [Hl Hend| | | | | | |]; try done. rewrite I3 in Hw. destruct rest; [|done]. rewrite <- Hend; [|done]. done.
Qed.

End task.

(** ** Accepted connections *)

Section admitted.
Context {E : Type} (incoming : list (result client io_error)).
Implicit Types (s : server E).

(** The tasks are those of the first connections. *)
Record admitted s : Prop := mkAdmitted {
  ad_clients : forall a, is_Some (sv_tasks s !! a) -> exists x, incoming !! a = Some (Ok x);
  ad_incoming : sv_exit s = None -> sv_incoming s = drop (length (sv_tasks s)) incoming
}.

Lemma accept_admitted s s' : admitted s -> accept_step s = Some s' ->
  admitted s' /\ sv_engine s' = sv_engine s /\ sv_metrics s' = sv_metrics s /\
  (sv_tasks s' = sv_tasks s \/
   exists x, incoming !! length (sv_tasks s) = Some (Ok x) /\ sv_tasks s' = sv_tasks s ++ [task_new x]).
Proof.
  intros [Ht Hin] Ha. unfold accept_step in Ha. destruct (sv_exit s); [by destruct (sv_incoming s)|]. specialize (Hin eq_refl).
  destruct (sv_incoming s) as [|[x|err] rest]; [done|injection Ha as <-..]; [|by repeat split; [..|left]].
  assert (Hlen : incoming !! length (sv_tasks s) = Some (Ok x)).
  { rewrite <- (Nat.add_0_r (length _)), <- lookup_drop, <- Hin. done. }
  split_and!; [|done..|right; by exists x]. split; cbn.
  - intros a [u [Hu|[Hl Hu]]%lookup_app_Some]; [by apply Ht|]. destruct (a - length (sv_tasks s))%nat eqn:Hd; [|done]. exists x.
    by replace a with (length (sv_tasks s)) by lia.
  - intros _. rewrite length_app. cbn [length]. rewrite <- drop_drop, <- Hin. done.
Qed.

Lemma turn_admitted s e m a u : admitted s -> is_Some (sv_tasks s !! a) ->
  admitted (mkServer e m (<[a := u]> (sv_tasks s)) (sv_incoming s) (sv_exit s)).
Proof.
  intros [Ht Hin] Ha. split; cbn [sv_tasks sv_incoming sv_exit]; [|by rewrite length_insert].
  intros b Hb. apply Ht. destruct (decide (b = a)) as [->|]; [done|]. by rewrite list_lookup_insert_ne in Hb.
Qed.

Lemma start_admitted (e : E) m : admitted (server_start e m incoming).
Proof. split; cbn; [|done]. intros a [u Hu]. by rewrite lookup_nil in Hu. Qed.

(** A property of the tasks. *)
Definition tasks_all (P : nat -> client -> task -> Prop) s : Prop :=
  forall a x u, incoming !! a = Some (Ok x) -> sv_tasks s !! a = Some u -> P a x u.

Lemma tasks_accept P s s' : admitted s -> accept_step s = Some s' -> tasks_all P s ->
  (forall a x, incoming !! a = Some (Ok x) -> sv_tasks s !! a = None -> P a x (task_new x)) -> tasks_all P s'.
Proof.
  intros Had Ha Hs Hnew a x u Hx Hu. destruct (accept_admitted _ _ Had Ha) as (_ & _ & _ & [Et|(y & Hy & Et)]); rewrite Et in Hu;
    [by eapply Hs|]. apply lookup_app_Some in Hu as [Hu|[Hl Hu]]; [by eapply Hs|].
  destruct (a - length (sv_tasks s))%nat eqn:Hd; [|done]. injection Hu as <-.
  assert (a = length (sv_tasks s)) as -> by lia. assert (x = y) as -> by congruence. apply Hnew; [done|]. by apply lookup_ge_None.
Qed.

Lemma tasks_turn (P Q : nat -> client -> task -> Prop) s e m a u0 u :
  sv_tasks s !! a = Some u0 -> tasks_all P s -> (forall x, incoming !! a = Some (Ok x) -> P a x u0 -> Q a x u) ->
  (forall b x u, b ≠ a -> P b x u -> Q b x u) ->
  tasks_all Q (mkServer e m (<[a := u]> (sv_tasks s)) (sv_incoming s) (sv_exit s)).
Proof.
  intros Ha Hs Hu Hne b x u1 Hx Hb. cbn [sv_tasks] in Hb. destruct (decide (b = a)) as [->|Hn].
  - rewrite list_lookup_insert_eq in Hb by (by eapply lookup_lt_Some). injection Hb as <-. by apply Hu, Hs.
  - rewrite list_lookup_insert_ne in Hb by done. by apply Hne, Hs.
Qed.

End admitted.

(** ** The process *)

(** The turns in which the task of a client answers all its calls. *)
Definition client_turns (x : client) (os : list client_op) : nat := 17 * length os + 2 * length x.2 + 1.

#[global] Instance actor_eq_dec : EqDecision actor.
Proof. solve_decision. Defined.

(** A task that cannot go on stays as it is. *)
Lemma run_waits {E : Type} `{KVEngine E} `{Sweeper E} `{FloatFormat} `{BytesMut} (p : profile) sched (s : server E) h a u :
  sv_tasks s !! a = Some u -> waits u -> sv_tasks (run_server p sched s h).1 !! a = Some u.
Proof.
  intros Ha Hw. revert s h Ha. induction sched as [|y sched IH]; intros s h Ha; [done|]. cbn [run_server].
  destruct (server_step p y s) as [[s' ev]|] eqn:Hy; [|by apply IH]. assert (Ha' : sv_tasks s' !! a = Some u); [|by destruct ev; apply IH].
  destruct y as [|j now|b]; cbn [server_step] in Hy.
  - unfold accept_step in Hy. destruct (sv_exit s), (sv_incoming s) as [|[x|err] rest]; simplify_eq/=; [|done].
    by apply lookup_app_l_Some.
  - destruct (kv_sweep j now (sv_engine s)) as [[n| |] e']; simplify_eq/=; done.
  - destruct (sv_tasks s !! b) as [u1|] eqn:Hb; [|done].
    destruct (task_step p (sv_engine s) (sv_metrics s) u1) as [[[[e' m'] u'] ev']|] eqn:Ht; [|done]. injection Hy as <- <-. cbn [sv_tasks].
    destruct (decide (b = a)) as [->|]; [|by rewrite list_lookup_insert_ne].
    rewrite Ha in Hb. injection Hb as <-. by rewrite waits_stuck in Ht.
Qed.

Section order.
Context {E : Type} `{SweeperLaws E} `{FloatFormat} `{BytesMut} (p : profile) (m0 : Metrics) (Hm0 : hist_ok (mt_latency m0)).
Context (incoming : list (result client io_error)) (os : nat -> list client_op) (sto0 : kv).
Context (Hc : forall a x, incoming !! a = Some (Ok x) -> calling_client x (os a)).
Implicit Types (s : server E) (h : list (nat * server_event)) (rs : list (nat * client_reply)) (half : nat -> bool).

(** The content and the results are those of the replay, and every task serves its
    client. *)
Record order_inv s h rs half : Prop := mkOrder {
  oi_admitted : admitted incoming s;
  oi_metrics : blank (sv_metrics s) = blank m0;
  oi_inv : kv_inv (sv_engine s);
  oi_fits : store_fits (kv_store (sv_engine s));
  oi_replays : replays incoming os sto0 h rs half (kv_store (sv_engine s));
  oi_early : forall a, sv_tasks s !! a = None -> results_of a rs = [] /\ half a = false;
  oi_tasks : tasks_all incoming (fun a x u => serves p m0 x.1 (os a) u (results_of a rs) (half a)) s;
  oi_turns : tasks_all incoming (fun a x u => (turns_left (os a) u <= client_turns x (os a))%nat) s
}.

Lemma new_serves a x : incoming !! a = Some (Ok x) -> serves p m0 x.1 (os a) (task_new x) [] false.
Proof.
  intros Ha. destruct (Hc a x Ha) as [(chunks & Hx & Hne & Hj) Hsz Hops Hw]. split; cbn; [done|exists []; rewrite zip_with_nil_r; split_and!; [done..|cbn; lia]|lia|].
  right. exists chunks. split.
  - split; cbn; [done|by rewrite Hj|done|done|lia|]. rewrite Hj. apply encoded_yields; [done|by eapply ops_sized|done].
  - constructor; [done|]. intros ->. destruct (os a) as [|o os']; [done|]. csimpl in Hj. by destruct o.
Qed.

Lemma order_accept s s' h rs half : order_inv s h rs half -> accept_step s = Some s' -> order_inv s' h rs half.
Proof.
  intros [O1 O2 O3 O4 O5 O6 O7 O8] Ha. destruct (accept_admitted _ _ _ O1 Ha) as (Had & Ee & Em & Et).
  split; rewrite ?Ee, ?Em; try done.
  - intros a Hn. apply O6. destruct Et as [Et|(x & _ & Et)]; rewrite Et in Hn; [done|]. apply lookup_ge_None in Hn. rewrite length_app in Hn. apply lookup_ge_None. lia.
  - eapply tasks_accept; [exact O1|exact Ha|exact O7|]. intros a x Hx Hn. destruct (O6 a Hn) as [-> ->]. by apply new_serves.
  - eapply tasks_accept; [exact O1|exact Ha|exact O8|]. intros a x Hx Hn. unfold turns_left, client_turns. cbn. lia.
Qed.

Lemma order_sweep s h rs half j now n e' :
  order_inv s h rs half -> kv_sweep j now (sv_engine s) = (Ret n, e') ->
  order_inv (mkServer e' (sv_metrics s) (sv_tasks s) (sv_incoming s) (sv_exit s)) (h ++ [(0%nat, Swept j now)]) rs half.
Proof.
  intros [[O1 O1'] O2 O3 O4 O5 O6 O7 O8] Hs. destruct (law_sweep _ _ _ _ _ O3 Hs) as [He' Hk].
  split; cbn; try done; [by eapply swept_fits|by eapply rp_sweep].
Qed.

Lemma order_turn s a u e' m' u' ev h rs half :
  order_inv s h rs half -> sv_tasks s !! a = Some u -> task_step p (sv_engine s) (sv_metrics s) u = Some (e', m', u', ev) ->
  exists rs' half', order_inv (mkServer e' m' (<[a := u']> (sv_tasks s)) (sv_incoming s) (sv_exit s))
    (h ++ match ev with Some ev => [(a, ev)] | None => [] end) rs' half'.
Proof.
  intros [O1 O2 O3 O4 O5 O6 O7 O8] Hu Hs. destruct (ad_clients _ _ O1 a ltac:(eauto)) as [x Hx].
  pose proof (Hc a x Hx) as [_ _ Hops Hw]. pose proof (O7 a x u Hx Hu) as Hserves.
  destruct (step_serves p m0 Hm0 x.1 (os a) Hops Hw _ _ _ _ _ _ _ _ _ O3 O4 O2 Hserves Hs) as (Hb & He' & Hev).
  assert (Hnone : forall b, <[a := u']> (sv_tasks s) !! b = None -> sv_tasks s !! b = None /\ b ≠ a).
  { intros b Hn. apply lookup_ge_None in Hn. rewrite length_insert in Hn. split; [by apply lookup_ge_None|].
    intros ->. apply lookup_lt_Some in Hu. lia. }
  assert (Had : admitted incoming (mkServer e' m' (<[a := u']> (sv_tasks s)) (sv_incoming s) (sv_exit s)))
    by (apply turn_admitted; eauto).
  assert (Hturns : tasks_all incoming (fun a x u => (turns_left (os a) u <= client_turns x (os a))%nat)
    (mkServer e' m' (<[a := u']> (sv_tasks s)) (sv_incoming s) (sv_exit s))).
  { eapply tasks_turn; [exact Hu|exact O8| |done]. cbn beta. intros x' Hx' Hle. assert (x' = x) as -> by congruence.
    pose proof (step_turns p m0 Hm0 x.1 (os a) Hops Hw _ _ _ _ _ _ _ _ _ O3 O4 Hserves Hs). lia. }
  destruct Hev as [(-> & -> & Hsv)|(c & r & b & -> & Hf & Hmove & [o Ho] & Hsv)].
  - exists rs, half. rewrite app_nil_r. split; try done.
    + intros b [Hn _]%Hnone. by apply O6.
    + eapply tasks_turn; [exact Hu|exact O7| |done]. intros x' Hx' _. assert (x' = x) as -> by congruence. done.
  - exists (rs ++ (pair a <$> option_list r)), (mark a b half).
    assert (Hother : forall b', b' ≠ a -> results_of b' (rs ++ (pair a <$> option_list r)) = results_of b' rs /\
      mark a b half b' = half b').
    { intros b' Hne. rewrite results_of_app, decide_False, app_nil_r by done. unfold mark. by rewrite decide_False. }
    assert (Hself : results_of a (rs ++ (pair a <$> option_list r)) = results_of a rs ++ option_list r /\ mark a b half a = b).
    { rewrite results_of_app, decide_True by done. unfold mark. by rewrite decide_True. }
    split; try done.
    + replace (match Called <$> c with Some ev => [(a, ev)] | None => [] end) with ((fun c => (a, Called c)) <$> option_list c)
        by (by destruct c). eapply rp_move; [exact O5|]. rewrite (call_at_Some _ _ _ _ x o) by done. by apply Hmove.
    + intros b' [Hn Hne]%Hnone. destruct (Hother b' Hne) as [-> ->]. by apply O6.
    + eapply tasks_turn; [exact Hu|exact O7| |]; cbn beta.
      * intros x' Hx' _. destruct Hself as [-> ->]. assert (x' = x) as -> by congruence. done.
      * intros b' x' u1 Hne Hb1. by destruct (Hother b' Hne) as [-> ->].
Qed.

(** One step of the process. *)
Lemma order_step y s h rs half s' ev :
  order_inv s h rs half -> server_step p y s = Some (s', ev) -> exists rs' half', order_inv s' (h ++ option_list ev) rs' half'.
Proof.
  intros Hs Hy. destruct y as [|j now|a]; cbn [server_step] in Hy.
  - destruct (accept_step s) as [s1|] eqn:Ha; [|done]. injection Hy as <- <-. rewrite app_nil_r. exists rs, half.
    by eapply order_accept.
  - destruct (kv_sweep j now (sv_engine s)) as [[n| |] e'] eqn:Hk; [|done..]. injection Hy as <- <-. exists rs, half.
    by eapply order_sweep.
  - destruct (sv_tasks s !! a) as [u|] eqn:Hu; [|done].
    destruct (task_step p (sv_engine s) (sv_metrics s) u) as [[[[e' m'] u'] ev']|] eqn:Ht; [|done]. injection Hy as <- <-.
    destruct (order_turn _ _ _ _ _ _ _ _ _ _ Hs Hu Ht) as (rs' & half' & Hs'). exists rs', half'. by destruct ev'.
Qed.

Lemma run_order sched s h rs half : order_inv s h rs half ->
  exists rs' half', order_inv (run_server p sched s h).1 (run_server p sched s h).2 rs' half'.
Proof.
  revert s h rs half. induction sched as [|y sched IH]; intros s h rs half Hs; [by exists rs, half|]. cbn [run_server].
  destruct (server_step p y s) as [[s' ev]|] eqn:Hy; [|by eapply IH].
  destruct (order_step _ _ _ _ _ _ _ Hs Hy) as (rs' & half' & Hs').
  destruct ev as [ev|]; [by eapply IH|]. rewrite app_nil_r in Hs'. by eapply IH.
Qed.

(** A turn of another actor leaves the task alone. *)
Lemma other_step y s s' ev a u :
  (forall b, y = ActTask b -> b ≠ a) -> server_step p y s = Some (s', ev) -> sv_tasks s !! a = Some u -> sv_tasks s' !! a = Some u.
Proof.
  intros Hne Hy Hu. destruct y as [|j now|b]; cbn [server_step] in Hy.
  - unfold accept_step in Hy. destruct (sv_exit s), (sv_incoming s) as [|[x|err] rest]; simplify_eq/=; [|done].
    by apply lookup_app_l_Some.
  - destruct (kv_sweep j now (sv_engine s)) as [[n| |] e']; simplify_eq/=; done.
  - destruct (sv_tasks s !! b) as [u1|]; [|done].
    destruct (task_step p (sv_engine s) (sv_metrics s) u1) as [[[[e' m'] u'] ev']|]; [|done]. injection Hy as <- <-. cbn [sv_tasks].
    rewrite list_lookup_insert_ne; [done|]. by apply Hne.
Qed.

Lemma own_step s h rs half s' ev a u :
  order_inv s h rs half -> sv_tasks s !! a = Some u -> server_step p (ActTask a) s = Some (s', ev) ->
  exists u', sv_tasks s' !! a = Some u' /\ (turns_left (os a) u' < turns_left (os a) u)%nat.
Proof.
  intros [O1 O2 O3 O4 O5 O6 O7 O8] Hu Hy. cbn [server_step] in Hy. rewrite Hu in Hy.
  destruct (task_step p (sv_engine s) (sv_metrics s) u) as [[[[e' m'] u'] ev']|] eqn:Ht; [|done]. injection Hy as <- <-.
  destruct (ad_clients _ _ O1 a ltac:(eauto)) as [x Hx]. pose proof (Hc a x Hx) as [_ _ Hops Hw].
  exists u'. cbn [sv_tasks]. rewrite list_lookup_insert_eq by (by eapply lookup_lt_Some). split; [done|].
  exact (step_turns p m0 Hm0 x.1 (os a) Hops Hw _ _ _ _ _ _ _ _ _ O3 O4 (O7 a x u Hx Hu) Ht).
Qed.

Lemma run_turns sched s h rs half a u :
  order_inv s h rs half -> sv_tasks s !! a = Some u ->
  exists u', sv_tasks (run_server p sched s h).1 !! a = Some u' /\
    (waits u' \/ (turns_left (os a) u' + turns_of a sched <= turns_left (os a) u)%nat).
Proof.
  revert s h rs half u. induction sched as [|y sched IH]; intros s h rs half u Hs Hu; [exists u; split; [done|right; cbn; lia]|].
  assert (Hgo : forall s' h' rs' half' u', order_inv s' h' rs' half' -> sv_tasks s' !! a = Some u' ->
    (turns_left (os a) u' + (if decide (y = ActTask a) then 1 else 0) <= turns_left (os a) u)%nat ->
    exists u'', sv_tasks (run_server p sched s' h').1 !! a = Some u'' /\
      (waits u'' \/ (turns_left (os a) u'' + turns_of a (y :: sched) <= turns_left (os a) u)%nat)).
  { intros s' h' rs' half' u' Hs' Hu' Hle. destruct (IH s' h' rs' half' u' Hs' Hu') as (u'' & Hu'' & Hor).
    exists u''. split; [done|]. destruct Hor as [?|?]; [by left|right]. destruct y as [|j now|b]; cbn [turns_of].
    1,2: rewrite decide_False in Hle by done; lia.
    destruct (decide (a = b)) as [<-|]; [rewrite decide_True in Hle by done; lia|]. lia. }
  cbn [run_server]. destruct (server_step p y s) as [[s' ev]|] eqn:Hy.
  - destruct (order_step _ _ _ _ _ _ _ Hs Hy) as (rs' & half' & Hs').
    assert (Hu' : exists u', sv_tasks s' !! a = Some u' /\
      (turns_left (os a) u' + (if decide (y = ActTask a) then 1 else 0) <= turns_left (os a) u)%nat).
    { destruct (decide (y = ActTask a)) as [->|Hne].
      - destruct (own_step _ _ _ _ _ _ _ _ Hs Hu Hy) as (u' & Hu' & ?). exists u'. split; [done|lia].
      - exists u. split; [|lia]. eapply other_step; [|exact Hy|exact Hu]. intros b -> ->. done. }
    destruct Hu' as (u' & Hu' & Hle). destruct ev as [ev|]; [by eapply Hgo|]. rewrite app_nil_r in Hs'. by eapply Hgo.
  - destruct (decide (y = ActTask a)) as [->|Hne]; [|eapply Hgo; [exact Hs|exact Hu|]; lia].
    exists u. cbn [server_step] in Hy. rewrite Hu in Hy.
    destruct (task_step p (sv_engine s) (sv_metrics s) u) as [[[[e' m'] u'] ev]|] eqn:Ht; [done|].
    pose proof (stuck_waits _ _ _ _ Ht) as Hw. split; [by apply run_waits|by left].
Qed.

Lemma start_order (e : E) : kv_inv e -> store_fits (kv_store e) -> kv_store e = sto0 ->
  order_inv (server_start e m0 incoming) [] [] (fun _ => false).
Proof.
  intros He Hf Est. split; cbn; try done; [apply start_admitted|rewrite Est; constructor|..]; intros a x u _ Hu; cbn in Hu; by rewrite lookup_nil in Hu.
Qed.

(** After its turns a task has nothing left to do. *)
Lemma clients_wait (e : E) sched sched' a x u :
  let start := server_start e m0 incoming in let r := run_server p (sched ++ sched') start [] in
  kv_inv e -> store_fits (kv_store e) -> kv_store e = sto0 ->
  incoming !! a = Some (Ok x) -> is_Some (sv_tasks (run_server p sched start []).1 !! a) ->
  (client_turns x (os a) <= turns_of a sched')%nat -> sv_tasks r.1 !! a = Some u -> waits u.
Proof.
  intros start r He Hf Hst Hx [u0 Hu0] Hle Hu. pose proof (start_order e He Hf Hst) as Hs0.
  destruct (run_order sched _ _ _ _ Hs0) as (rs0 & half0 & Ho0). destruct (run_order (sched ++ sched') _ _ _ _ Hs0) as (rs & half & Ho).
  fold start r in Ho, Ho0. unfold r in *. rewrite run_server_app in *. destruct (run_server p sched start []) as [s1 h1].
  destruct (run_turns sched' s1 h1 _ _ a u0 Ho0 Hu0) as (u' & Hu' & [Hw|Ht]); rewrite Hu in Hu'; injection Hu' as <-; [done|].
  pose proof (oi_turns _ _ _ _ Ho0 a x u0 Hx Hu0) as Hle0. cbn beta in Hle0.
  eapply no_turns_left; [exact (oi_tasks _ _ _ _ Ho a x u Hx Hu)|lia].
Qed.

End order.
