(* ===== verification/EndToEndClaims.v ===== *)
(** * Properties of client and server together

    Sequences of client calls, through the pool, the codecs, the connection loop
    and an engine that meets the contract, against the abstract store: one client
    with a server of its own, and several clients on one server process. *)

From S2P Require Import Prelude Decimal HkvError Shard ShardInv ShardOps Engine LockedOps KVEngine.
From S2P Require Import EngineInv EngineSpec Eviction EngineTheorems Accounting EngineClaims RespParser RespParserInv Metrics.
From S2P Require Import ClientResp ClientRespInv ClientPool Server ServerSpec ServerConn ServerSession RespClaims ServerClaims.
From S2P Require Import ServerTasks ServerTasksAlone ServerTasksIsolated ServerTasksSessions ServerTasksClaims.
From S2P Require Import PoolClaims EndToEnd EndToEndShared EndToEndOrder.




Definition demo_client_ops : list client_op :=
  [CSet (bs "x") (bs "1"); CGet (bs "x"); CExpire (bs "x") 2500000000; CTtl (bs "x");
   CSetTtl (bs "y") (bs "2") 1000000000; CDelete (bs "x"); CGet (bs "x");
   CPing (Some (bs "hello")); CPing None].

#[local] Instance demo_engine : KVEngine MemoryEngine := @memory_kv_engine demo_env Debug.
#[local] Instance demo_laws : KVEngineLaws MemoryEngine := @memory_kv_laws demo_env Debug.


#[local] Instance demo_sweeper : Sweeper MemoryEngine := @memory_sweeper demo_env.
#[local] Instance demo_sweeps : SweeperLaws MemoryEngine := @memory_sweeper_laws demo_env Debug.

(** The calls of two clients. *)
Definition demo_calls (a : nat) : list client_op :=
  match a with
  | 0%nat => [CSet (bs "a") (bs "1"); CGet (bs "a"); CTtl (bs "a")]
  | 1%nat => [CSetTtl (bs "b") (bs "2") 1500000000; CTtl (bs "b"); CDelete (bs "b")]
  | _ => []
  end.

Definition demo_callers : list (result client io_error) :=
  [Ok (demo_client 5 1000 (op_args <$> demo_calls 0)); Ok (demo_client 7 3000 (op_args <$> demo_calls 1))].

Lemma demo_callers_ok (a : nat) x : demo_callers !! a = Some (Ok x) -> calling_client x (demo_calls a).
Proof.
  intros Hx. destruct a as [|[|a]]; [..|done]; injection Hx as <-.
  all: split; [eexists; split; [reflexivity|]; split; [repeat constructor; discriminate|reflexivity]|by vm_compute|
    repeat first [apply Z.leb_le; vm_compute; reflexivity | exact I | split | constructor] |done].
Qed.

Lemma demo_callers_disjoint (a b : nat) k :
  a ≠ b -> k ∈ mjoin (op_keys <$> demo_calls a) -> k ∈ mjoin (op_keys <$> demo_calls b) -> False.
Proof. destruct a as [|[|a]], b as [|[|b]]; set_solver. Qed.


(** Two clients that share a key. *)
Definition sharing_calls (a : nat) : list client_op :=
  match a with
  | 0%nat => [CPing None; CSetTtl (bs "k") (bs "1") 2500000000; CGet (bs "k")]
  | 1%nat => [CDelete (bs "k"); CExpire (bs "k") 2500000000]
  | _ => []
  end.

Definition sharing_callers : list (result client io_error) :=
  [Ok (demo_client 5 1000 (op_args <$> sharing_calls 0)); Ok (demo_client 7 3000 (op_args <$> sharing_calls 1))].

Lemma sharing_callers_ok (a : nat) x : sharing_callers !! a = Some (Ok x) -> calling_client x (sharing_calls a).
Proof.
  intros Hx. destruct a as [|[|a]]; [..|done]; injection Hx as <-.
  all: split; [eexists; split; [reflexivity|]; split; [repeat constructor; discriminate|reflexivity]|by vm_compute|
    repeat first [apply Z.leb_le; vm_compute; reflexivity | exact I | split | constructor] |done].
Qed.

(** The second client's first call comes between the two halves of the first one's
    [set_with_ttl]; then the expirer sweeps, its clock far ahead. *)
Definition sharing_sched : list actor :=
  replicate 23 (ActTask 0) ++ replicate 60 (ActTask 1) ++ [ActSweep 0 (from_secs 100); ActSweep 1 (from_secs 100)] ++
  replicate 60 (ActTask 0).

Local Abbreviation sharing_end := (run_server (H1 := demo_fmt) (H2 := demo_buf) Debug ([ActAccept; ActAccept] ++ sharing_sched)
  (server_start demo_shared (metrics_new 0) sharing_callers) []).

