(* ===== verification/CommonTypes.v ===== *)
(** * Cache entry types (hkv-common/src/types.rs)

    Bounded keys and values in length-prefixed buffers, versions, expiry stamps,
    flags and entries.  The wall clock ([SystemTime] since the epoch, in
    nanoseconds) is an argument. *)

From S2P Require Import Prelude HkvError.

Definition MAX_KEY_SIZE : Z := 256.
Definition MAX_VALUE_SIZE : Z := 1024.

(** ** Length-prefixed buffers

    The operations [Key] and [Value] share. *)

(** [&data[..len]]: panics past the end. *)
Definition slice_to (data : bytes) (len : Z) : outcome bytes :=
  if len <=? zlen data then Ret (take (Z.to_nat len) data) else Panic.

(** [buf[..data.len()].copy_from_slice(data)]: panics past the end. *)
Definition copy_prefix (buf data : bytes) : outcome bytes :=
  if zlen data <=? zlen buf then Ret (data ++ drop (length data) buf) else Panic.

(** [x as u16]. *)
Definition as_u16 (x : Z) : Z := x mod 65536.

(** ** Keys *)

(** [struct Key]. *)
Record Key := mkKey { key_len : Z; key_data : bytes }.

(** [Key::new]. *)
Definition key_new (data : bytes) : outcome (HkvResult Key) :=
  if MAX_KEY_SIZE <? zlen data then Ret (Err KeyTooLong)
  else
    buf ← copy_prefix (replicate (Z.to_nat MAX_KEY_SIZE) 0) data;
    Ret (Ok (mkKey (as_u16 (zlen data)) buf)).

(** [Key::as_bytes], [Key::len], [Key::is_empty]. *)
Definition key_as_bytes (k : Key) : outcome bytes := slice_to (key_data k) (key_len k).
Definition key_length (k : Key) : Z := key_len k.
Definition key_is_empty (k : Key) : bool := key_len k =? 0.

(** [PartialEq for Key]: the lengths, then the initialized bytes. *)
Definition key_eq (a b : Key) : outcome bool :=
  if key_len a =? key_len b then
    x ← key_as_bytes a;
    y ← key_as_bytes b;
    Ret (bool_decide (x = y))
  else Ret false.

(** What [Hash for Key] feeds to the hasher: the length, then the bytes. *)
Definition key_hash_input (k : Key) : outcome (Z * bytes) :=
  x ← key_as_bytes k;
  Ret (key_len k, x).

(** ** Values *)

(** [struct Value]. *)
Record Value := mkValue { value_len : Z; value_data : bytes }.

(** [Value::new]. *)
Definition value_new (data : bytes) : outcome (HkvResult Value) :=
  if MAX_VALUE_SIZE <? zlen data then Ret (Err ValueTooLong)
  else
    buf ← copy_prefix (replicate (Z.to_nat MAX_VALUE_SIZE) 0) data;
    Ret (Ok (mkValue (as_u16 (zlen data)) buf)).

(** [Value::as_bytes], [Value::len], [Value::is_empty]. *)
Definition value_as_bytes (v : Value) : outcome bytes := slice_to (value_data v) (value_len v).
Definition value_length (v : Value) : Z := value_len v.
Definition value_is_empty (v : Value) : bool := value_len v =? 0.

(** [PartialEq for Value] and the input of [Hash for Value]. *)
Definition value_eq (a b : Value) : outcome bool :=
  if value_len a =? value_len b then
    x ← value_as_bytes a;
    y ← value_as_bytes b;
    Ret (bool_decide (x = y))
  else Ret false.

Definition value_hash_input (v : Value) : outcome (Z * bytes) :=
  x ← value_as_bytes v;
  Ret (value_len v, x).

(** ** Versions *)

(** [struct Version(u64)]: [ZERO], [new], [get], [next], [increment] (the new state). *)
Definition VERSION_ZERO : Z := 0.
Definition version_new (v : Z) : Z := v.
Definition version_get (v : Z) : Z := v.
Definition version_next (v : Z) : Z := wrapping_add v 1.
Definition version_increment (v : Z) : Z * Z := (wrapping_add v 1, wrapping_add v 1).

(** ** Expiry stamps *)

(** [Ttl::INFINITE], [Ttl::from_nanos], [Ttl::as_nanos], [Ttl::is_infinite], [Ttl::is_expired]. *)
Definition TTL_INFINITE : Z := U64_MAX.
Definition ttl_from_nanos (nanos : Z) : Z := nanos.
Definition ttl_as_nanos (ttl : Z) : Z := ttl.
Definition ttl_is_infinite (ttl : Z) : bool := ttl =? U64_MAX.
Definition ttl_is_expired (ttl current_nanos : Z) : bool :=
  negb (ttl_is_infinite ttl) && (ttl <=? current_nanos).

(** The largest [Duration], in nanoseconds; adding beyond it panics. *)
Definition DURATION_MAX : Z := U64_MAX * 1000000000 + 999999999.
Definition duration_add (a b : Z) : outcome Z := if a + b <=? DURATION_MAX then Ret (a + b) else Panic.

(** [Ttl::from_duration], at wall-clock time [now]. *)
Definition ttl_from_duration (now duration : Z) : outcome Z :=
  sum ← duration_add now duration;
  Ret (wrap64 sum).

(** ** Flags *)

Definition FLAG_VALID : Z := 1.
Definition FLAG_EVICTING : Z := 2.
Definition FLAG_INVALIDATED : Z := 4.

(** [EntryFlags]: [empty], [valid], the three tests, [set] and [clear]. *)
Definition flags_empty : Z := 0.
Definition flags_valid : Z := FLAG_VALID.
Definition flags_is_valid (f : Z) : bool := negb (Z.land f FLAG_VALID =? 0).
Definition flags_is_evicting (f : Z) : bool := negb (Z.land f FLAG_EVICTING =? 0).
Definition flags_is_invalidated (f : Z) : bool := negb (Z.land f FLAG_INVALIDATED =? 0).
Definition flags_set (flag f : Z) : Z := Z.lor f flag.
Definition flags_clear (flag f : Z) : Z := Z.land f (Z.lxor flag U8_MAX).

(** ** Entries *)

(** [struct EntryMetadata]. *)
Record EntryMetadata := mkMetadata {
  md_version : Z;
  md_ttl : Z;
  md_created_at : Z;
  md_accessed_at : Z;
  md_flags : Z;
  md_key_len : Z;
  md_value_len : Z
}.

(** [.as_nanos() as u64] of the wall clock. *)
Definition now_nanos (now : Z) : Z := wrap64 now.

(** [EntryMetadata::new], [touch], [is_expired], [age_nanos]. *)
Definition metadata_new (version ttl klen vlen now : Z) : EntryMetadata :=
  mkMetadata version ttl (now_nanos now) (now_nanos now) flags_valid klen vlen.
Definition metadata_touch (now : Z) (m : EntryMetadata) : EntryMetadata :=
  mkMetadata (md_version m) (md_ttl m) (md_created_at m) (now_nanos now) (md_flags m)
    (md_key_len m) (md_value_len m).
Definition metadata_is_expired (now : Z) (m : EntryMetadata) : bool :=
  ttl_is_expired (md_ttl m) (now_nanos now).
Definition age_nanos (now : Z) (m : EntryMetadata) : Z := Z.max 0 (now_nanos now - md_created_at m).

(** [struct Entry] of the kernel cache. *)
Record CacheEntry := mkCacheEntry { ce_key : Key; ce_value : Value; ce_metadata : EntryMetadata }.

(** [Entry::new], [Entry::is_valid], [Entry::touch]. *)
Definition entry_new (key : Key) (value : Value) (version ttl now : Z) : CacheEntry :=
  mkCacheEntry key value
    (metadata_new version ttl (as_u16 (key_length key)) (as_u16 (value_length value)) now).
Definition entry_is_valid (now : Z) (e : CacheEntry) : bool :=
  flags_is_valid (md_flags (ce_metadata e))
  && negb (metadata_is_expired now (ce_metadata e))
  && negb (flags_is_invalidated (md_flags (ce_metadata e))).
Definition entry_touch (now : Z) (e : CacheEntry) : CacheEntry :=
  mkCacheEntry (ce_key e) (ce_value e) (metadata_touch now (ce_metadata e)).
