(* ===== verification/CommonProtocol.v ===== *)
(** * The kernel interface (hkv-common/src/ioctl.rs, protocol.rs)

    Commands, message headers and payloads, and the [repr(C)] layout rules that
    fix their sizes and field offsets. *)

From S2P Require Import Prelude HkvError CommonTypes.

(** ** Commands *)

Definition IOCTL_MAGIC : Z := 72.
Definition CMD_READ : Z := 0.
Definition CMD_PROMOTE : Z := 1.
Definition CMD_BATCH_PROMOTE : Z := 2.
Definition CMD_DEMOTE : Z := 3.
Definition CMD_INVALIDATE : Z := 4.
Definition CMD_STATS : Z := 5.
Definition CMD_CONFIG : Z := 6.
Definition CMD_FLUSH : Z := 7.

(** [enum IoctlCommand]. *)
Inductive IoctlCommand :=
| IoctlRead | IoctlPromote | IoctlBatchPromote | IoctlDemote | IoctlInvalidate | IoctlStats
| IoctlConfig | IoctlFlush.

#[global] Instance IoctlCommand_eq_dec : EqDecision IoctlCommand.
Proof. solve_decision. Defined.

(** [IoctlCommand::as_u8], [from_u8], [name]. *)
Definition as_u8 (c : IoctlCommand) : Z :=
  match c with
  | IoctlRead => CMD_READ
  | IoctlPromote => CMD_PROMOTE
  | IoctlBatchPromote => CMD_BATCH_PROMOTE
  | IoctlDemote => CMD_DEMOTE
  | IoctlInvalidate => CMD_INVALIDATE
  | IoctlStats => CMD_STATS
  | IoctlConfig => CMD_CONFIG
  | IoctlFlush => CMD_FLUSH
  end.

Definition from_u8 (value : Z) : option IoctlCommand :=
  if value =? CMD_READ then Some IoctlRead
  else if value =? CMD_PROMOTE then Some IoctlPromote
  else if value =? CMD_BATCH_PROMOTE then Some IoctlBatchPromote
  else if value =? CMD_DEMOTE then Some IoctlDemote
  else if value =? CMD_INVALIDATE then Some IoctlInvalidate
  else if value =? CMD_STATS then Some IoctlStats
  else if value =? CMD_CONFIG then Some IoctlConfig
  else if value =? CMD_FLUSH then Some IoctlFlush
  else None.

Definition command_name (c : IoctlCommand) : string :=
  match c with
  | IoctlRead => "READ"
  | IoctlPromote => "PROMOTE"
  | IoctlBatchPromote => "BATCH_PROMOTE"
  | IoctlDemote => "DEMOTE"
  | IoctlInvalidate => "INVALIDATE"
  | IoctlStats => "STATS"
  | IoctlConfig => "CONFIG"
  | IoctlFlush => "FLUSH"
  end.

(** [is_readonly], [is_write], [is_config]. *)
Definition is_readonly (c : IoctlCommand) : bool :=
  match c with IoctlRead | IoctlStats => true | _ => false end.
Definition is_write (c : IoctlCommand) : bool :=
  match c with
  | IoctlPromote | IoctlBatchPromote | IoctlDemote | IoctlInvalidate | IoctlFlush => true
  | _ => false
  end.
Definition is_config (c : IoctlCommand) : bool :=
  match c with IoctlConfig => true | _ => false end.

(** ** Messages *)

Definition PROTOCOL_VERSION : Z := 1.
Definition STATUS_OK : Z := 0.
Definition MAX_BATCH_SIZE : Z := 1000.
Definition BATCH_RESULT_BYTES : Z := (MAX_BATCH_SIZE + 7) / 8.

(** [struct IoctlHeader]. *)
Record IoctlHeader := mkHeader { hd_magic : Z; hd_version : Z; hd_command : Z; hd_reserved : Z }.

(** [IoctlHeader::new]. *)
Definition header_new (c : IoctlCommand) : IoctlHeader :=
  mkHeader IOCTL_MAGIC PROTOCOL_VERSION (as_u8 c) 0.

(** The messages, with their [new] functions. *)
Record ReadRequest := mkReadRequest { rr_header : IoctlHeader; rr_key : Key }.
Definition read_request_new (key : Key) : ReadRequest := mkReadRequest (header_new IoctlRead) key.

Record ReadResponse := mkReadResponse { rp_header : IoctlHeader; rp_status : Z; rp_value : Value }.
Definition read_response_new (status : Z) (value : Value) : ReadResponse :=
  mkReadResponse (header_new IoctlRead) status value.

Record PromoteRequest := mkPromoteRequest {
  pr_header : IoctlHeader; pr_key : Key; pr_value : Value; pr_version : Z; pr_ttl : Z }.
Definition promote_request_new (key : Key) (value : Value) (version ttl : Z) : PromoteRequest :=
  mkPromoteRequest (header_new IoctlPromote) key value version ttl.

Record PromoteResponse := mkPromoteResponse { pp_header : IoctlHeader; pp_status : Z; pp_reserved : Z }.
Definition promote_response_new (status : Z) : PromoteResponse :=
  mkPromoteResponse (header_new IoctlPromote) status 0.

Record BatchPromoteEntry := mkBatchEntry { be_key : Key; be_value : Value; be_version : Z; be_ttl : Z }.

(** [BatchPromoteEntry::new]. *)
Definition batch_entry_new (key : Key) (value : Value) (version ttl : Z) : BatchPromoteEntry :=
  mkBatchEntry key value version ttl.

Record BatchPromoteRequest := mkBatchRequest {
  br_header : IoctlHeader; br_count : Z; br_reserved : Z; br_entries : list BatchPromoteEntry }.

(** [debug_assert!(count as usize <= MAX_BATCH_SIZE)]. *)
Definition assert_count (p : profile) (count : Z) : outcome unit :=
  match p with
  | Debug => if count <=? MAX_BATCH_SIZE then Ret tt else Panic
  | Release => Ret tt
  end.

Definition batch_request_new (p : profile) (entries : list BatchPromoteEntry) (count : Z) :
    outcome BatchPromoteRequest :=
  _ ← assert_count p count;
  Ret (mkBatchRequest (header_new IoctlBatchPromote) count 0 entries).

Record BatchPromoteResponse := mkBatchResponse {
  bp_header : IoctlHeader; bp_count : Z; bp_reserved : Z; bp_results : bytes }.
Definition batch_response_new (p : profile) (count : Z) : outcome BatchPromoteResponse :=
  _ ← assert_count p count;
  Ret (mkBatchResponse (header_new IoctlBatchPromote) count 0
         (replicate (Z.to_nat BATCH_RESULT_BYTES) 0)).

Record DemoteRequest := mkDemoteRequest { dr_header : IoctlHeader; dr_key : Key }.
Definition demote_request_new (key : Key) : DemoteRequest := mkDemoteRequest (header_new IoctlDemote) key.

Record InvalidateRequest := mkInvalidateRequest {
  ir_header : IoctlHeader; ir_key : Key; ir_version : Z }.
Definition invalidate_request_new (key : Key) (version : Z) : InvalidateRequest :=
  mkInvalidateRequest (header_new IoctlInvalidate) key version.

Record CacheStats := mkStats {
  cs_lookups : Z; cs_hits : Z; cs_misses : Z; cs_stale_hits : Z; cs_promotions : Z;
  cs_demotions : Z; cs_evictions : Z; cs_invalidations : Z; cs_used_bytes : Z; cs_max_bytes : Z;
  cs_entry_count : Z; cs_lock_contentions : Z; cs_rcu_grace_periods : Z }.

Record StatsRequest := mkStatsRequest { sq_header : IoctlHeader }.
Definition stats_request_new : StatsRequest := mkStatsRequest (header_new IoctlStats).

Record StatsResponse := mkStatsResponse {
  sp_header : IoctlHeader; sp_status : Z; sp_reserved : Z; sp_stats : CacheStats }.
Definition stats_response_new (status : Z) (stats : CacheStats) : StatsResponse :=
  mkStatsResponse (header_new IoctlStats) status 0 stats.

Record ConfigRequest := mkConfigRequest {
  cr_header : IoctlHeader; cr_max_bytes : Z; cr_max_entries : Z; cr_high_watermark : Z;
  cr_low_watermark : Z; cr_reserved : Z }.
Definition config_request_new (max_bytes max_entries high low : Z) : ConfigRequest :=
  mkConfigRequest (header_new IoctlConfig) max_bytes max_entries high low 0.

Record FlushRequest := mkFlushRequest { fr_header : IoctlHeader }.
Definition flush_request_new : FlushRequest := mkFlushRequest (header_new IoctlFlush).

(** ** Layouts *)

(** Types with a C layout: integers of [n] bytes, arrays, structs. *)
#[local] Set Warnings "-register-all".
Inductive ctype :=
| CInt (n : Z)
| CArr (t : ctype) (n : Z)
| CStruct (fields : list ctype).

(** Rounds up to a multiple of [a]. *)
Definition align_up (x a : Z) : Z := (x + a - 1) / a * a.

Fixpoint align_of (t : ctype) : Z :=
  match t with
  | CInt n => n
  | CArr t _ => align_of t
  | CStruct fields => fold_right (fun t a => Z.max (align_of t) a) 1 fields
  end.

Fixpoint size_of (t : ctype) : Z :=
  match t with
  | CInt n => n
  | CArr t n => size_of t * n
  | CStruct fields =>
      align_up ((fix go (off : Z) (ts : list ctype) : Z :=
                   match ts with
                   | [] => off
                   | t :: ts => go (align_up off (align_of t) + size_of t) ts
                   end) 0 fields)
        (fold_right (fun t a => Z.max (align_of t) a) 1 fields)
  end.

(** The offset of every field, from [off] on. *)
Fixpoint offsets (off : Z) (ts : list ctype) : list Z :=
  match ts with
  | [] => []
  | t :: ts => let o := align_up off (align_of t) in o :: offsets (o + size_of t) ts
  end.

Definition u8 := CInt 1.
Definition u16 := CInt 2.
Definition u32 := CInt 4.
Definition u64 := CInt 8.

Definition key_type : ctype := CStruct [u16; CArr u8 MAX_KEY_SIZE].
Definition value_type : ctype := CStruct [u16; CArr u8 MAX_VALUE_SIZE].
Definition metadata_type : ctype := CStruct [u64; u64; u64; u64; u8; u16; u16].
Definition entry_type : ctype := CStruct [key_type; value_type; metadata_type].

(** [Entry::size]. *)
Definition cache_entry_size (_ : CacheEntry) : Z := size_of entry_type.

Definition header_type : ctype := CStruct [u8; u8; u8; u8].
Definition read_request_type : ctype := CStruct [header_type; key_type].
Definition read_response_type : ctype := CStruct [header_type; u16; value_type].
Definition promote_request_type : ctype := CStruct [header_type; key_type; value_type; u64; u64].
Definition promote_response_type : ctype := CStruct [header_type; u16; u16].
Definition batch_entry_type : ctype := CStruct [key_type; value_type; u64; u64].
Definition batch_request_type : ctype :=
  CStruct [header_type; u16; u16; CArr batch_entry_type MAX_BATCH_SIZE].
Definition batch_response_type : ctype := CStruct [header_type; u16; u16; CArr u8 BATCH_RESULT_BYTES].
Definition demote_request_type : ctype := CStruct [header_type; key_type].
Definition invalidate_request_type : ctype := CStruct [header_type; key_type; u64].
Definition stats_type : ctype := CStruct (replicate 13 u64).
Definition stats_response_type : ctype := CStruct [header_type; u16; u16; stats_type].
Definition config_request_type : ctype := CStruct [header_type; u64; u64; u32; u32; u64].
Definition empty_request_type : ctype := CStruct [header_type].
