(* ===== verification/CommonClaims.v ===== *)
(** * Properties of the shared types and of the kernel interface

    Error codes, bounded buffers, expiry stamps, flags, entries, command numbers
    and the layout of the messages. *)

From S2P Require Import Prelude HkvError CommonTypes CommonProtocol.

(** ** Errors *)

(** Error codes and typed errors correspond one to one, the ranges of the
    codes are the categories, and exactly the codes 20 to 22 are retryable. *)
Theorem error_codes_roundtrip (e : HkvError) (c : Z) :
  from_code (code e) = Some e /\ (from_code c = Some e <-> c = code e) /\
  (error_is_retryable e = true <-> 20 <= code e <= 22) /\
  category e = (if code e <? 10 then Client else if code e <? 20 then Server
                else if code e <? 30 then Transient else Protocol).
Proof.
  split_and!; [by destruct e| |destruct e; unfold error_is_retryable; simpl; split; done || lia|by destruct e].
  split; [|intros ->; by destruct e]. unfold from_code. intros Hc.
  repeat (case_match; simplify_eq/=; try done).
Qed.

(** ** Keys and values *)

Lemma buffer_roundtrip (size : Z) (data : bytes) :
  0 <= size < 65536 -> zlen data <= size ->
  exists buf, copy_prefix (replicate (Z.to_nat size) 0) data = Ret buf /\ zlen buf = size /\
    as_u16 (zlen data) = zlen data /\ slice_to buf (zlen data) = Ret data.
Proof.
  intros Hs Hd. pose proof (zlen_nonneg data).
  assert (Hr : zlen (replicate (Z.to_nat size) 0) = size) by (unfold zlen; rewrite length_replicate; lia).
  unfold copy_prefix. rewrite Hr, (proj2 (Z.leb_le _ _)) by done. eexists. split; [done|].
  assert (Hl : zlen (data ++ drop (length data) (replicate (Z.to_nat size) 0)) = size).
  { unfold zlen in *. rewrite length_app, length_drop, length_replicate. lia. }
  split_and!; [done|unfold as_u16; rewrite Z.mod_small; lia|].
  unfold slice_to. rewrite Hl, (proj2 (Z.leb_le _ _)) by done.
  by replace (Z.to_nat (zlen data)) with (length data) by (unfold zlen; lia); rewrite take_app_length.
Qed.

Lemma key_new_ok data : zlen data <= MAX_KEY_SIZE ->
  exists k, key_new data = Ret (Ok k) /\ key_as_bytes k = Ret data /\
    key_length k = zlen data /\ zlen (key_data k) = MAX_KEY_SIZE.
Proof.
  intros Hle. unfold key_new. rewrite (proj2 (Z.ltb_ge _ _)) by done.
  destruct (buffer_roundtrip MAX_KEY_SIZE data) as (buf & E & Hz & Hu & Hsl); [done|done|].
  rewrite E. eexists. split; [done|]. unfold key_as_bytes, key_length. simpl. by rewrite Hu.
Qed.

Lemma value_new_ok data : zlen data <= MAX_VALUE_SIZE ->
  exists v, value_new data = Ret (Ok v) /\ value_as_bytes v = Ret data /\
    value_length v = zlen data /\ zlen (value_data v) = MAX_VALUE_SIZE.
Proof.
  intros Hle. unfold value_new. rewrite (proj2 (Z.ltb_ge _ _)) by done.
  destruct (buffer_roundtrip MAX_VALUE_SIZE data) as (buf & E & Hz & Hu & Hsl); [done|done|].
  rewrite E. eexists. split; [done|]. unfold value_as_bytes, value_length. simpl. by rewrite Hu.
Qed.

(** A key or value of at most 256 or 1024 bytes is stored and read back
    unchanged, with its length; a longer one is refused with its own error. *)
Theorem bounded_buffers_roundtrip (data : bytes) :
  (if zlen data <=? MAX_KEY_SIZE
   then exists k, key_new data = Ret (Ok k) /\ key_as_bytes k = Ret data /\
          key_length k = zlen data /\ zlen (key_data k) = MAX_KEY_SIZE
   else key_new data = Ret (Err KeyTooLong)) /\
  (if zlen data <=? MAX_VALUE_SIZE
   then exists v, value_new data = Ret (Ok v) /\ value_as_bytes v = Ret data /\
          value_length v = zlen data /\ zlen (value_data v) = MAX_VALUE_SIZE
   else value_new data = Ret (Err ValueTooLong)).
Proof.
  split.
  - destruct (Z.leb_spec (zlen data) MAX_KEY_SIZE) as [Hle|Hgt]; [by apply key_new_ok|].
    unfold key_new. by rewrite (proj2 (Z.ltb_lt _ _)).
  - destruct (Z.leb_spec (zlen data) MAX_VALUE_SIZE) as [Hle|Hgt]; [by apply value_new_ok|].
    unfold value_new. by rewrite (proj2 (Z.ltb_lt _ _)).
Qed.

(** Keys whose length is within their buffer. *)
Definition key_ok (k : Key) : Prop := 0 <= key_len k <= zlen (key_data k).

(** C36: two keys whose length is within their buffer are equal exactly when their
    initialized bytes are, whatever
    the rest of their buffers holds, equality never panics, and equal keys feed
    the same input to the hasher. *)
Theorem key_equality_is_content (a b : Key) :
  key_ok a -> key_ok b ->
  key_eq a b = Ret (bool_decide (key_as_bytes a = key_as_bytes b)) /\
  (key_eq a b = Ret true <-> key_hash_input a = key_hash_input b).
Proof.
  intros Ha Hb. unfold key_ok in *.
  assert (Eb : forall k, 0 <= key_len k <= zlen (key_data k) ->
    key_as_bytes k = Ret (take (Z.to_nat (key_len k)) (key_data k)) /\
    zlen (take (Z.to_nat (key_len k)) (key_data k)) = key_len k).
  { intros k Hk. unfold key_as_bytes, slice_to. rewrite (proj2 (Z.leb_le _ _)) by lia.
    split; [done|]. unfold zlen in *. rewrite length_take. lia. }
  destruct (Eb a Ha) as [Ea La]. destruct (Eb b Hb) as [Eb' Lb].
  unfold key_eq, key_hash_input. rewrite Ea, Eb'. simpl.
  set (x := take _ (key_data a)) in *. set (y := take _ (key_data b)) in *.
  destruct (Z.eqb_spec (key_len a) (key_len b)) as [El|El].
  - split; [f_equal; apply bool_decide_ext; split; congruence|]. rewrite El.
    split; [intros [= Hd]; by rewrite (bool_decide_eq_true_1 _ Hd)|].
    intros [= Hxy]. by rewrite bool_decide_true.
  - split; [f_equal; symmetry; apply bool_decide_false; intros [= Hxy]; congruence|].
    split; [done|]. intros [= ? ?]. congruence.
Qed.

Lemma key_equality_is_content_witness :
  let a := mkKey 2 [104; 105; 0; 0] in
  let b := mkKey 2 [104; 105; 9; 9] in
  key_eq a b = Ret (bool_decide (key_as_bytes a = key_as_bytes b)) /\
  (key_eq a b = Ret true <-> key_hash_input a = key_hash_input b).
Proof. apply (key_equality_is_content (mkKey 2 [104; 105; 0; 0]) (mkKey 2 [104; 105; 9; 9])); done. Defined.

(** ** Expiry stamps *)

(** C35: a stamp made at [now] from a duration of at most 2^64 - 1 nanoseconds (584
    years) expires exactly when the duration has passed if it reaches less than
    2^64 - 1 nanoseconds past the epoch; one that reaches exactly that is the infinite
    stamp and never expires; beyond, the conversion wraps around and the stamp is
    expired at once. *)
Theorem ttl_from_duration_spec (now duration t : Z) :
  0 <= now <= U64_MAX -> 0 <= duration <= U64_MAX -> 0 <= t <= U64_MAX ->
  exists ttl, ttl_from_duration now duration = Ret ttl /\
    (now + duration < U64_MAX -> ttl_is_expired ttl t = (now + duration <=? t)) /\
    (now + duration = U64_MAX -> ttl_is_expired ttl t = false) /\
    (U64_MAX < now + duration -> ttl_is_expired ttl now = true).
Proof.
  intros Hn Hd Ht. unfold ttl_from_duration, duration_add.
  rewrite (proj2 (Z.leb_le _ _)) by (unfold DURATION_MAX, U64_MAX in *; lia).
  exists (wrap64 (now + duration)). split; [done|]. unfold ttl_is_expired, ttl_is_infinite. split_and!.
  - intros Hlt. rewrite wrap64_small by (change USIZE_MAX with U64_MAX; lia).
    by rewrite (proj2 (Z.eqb_neq _ _)) by lia.
  - intros ->. done.
  - intros Hgt. assert (Hw : wrap64 (now + duration) = now + duration - 18446744073709551616).
    { unfold wrap64. symmetry. apply (Z.mod_unique_pos _ _ 1); unfold U64_MAX in *; lia. }
    rewrite Hw. unfold U64_MAX in *. rewrite (proj2 (Z.eqb_neq _ _)) by lia. simpl. apply Z.leb_le. lia.
Qed.

Lemma ttl_from_duration_spec_witness :
  exists ttl, ttl_from_duration 1700000000000000000 18000000000000000000 = Ret ttl /\
    ttl_is_expired ttl 1700000000000000000 = true.
Proof.
  destruct (ttl_from_duration_spec 1700000000000000000 18000000000000000000 5) as (ttl & E & _ & _ & Hx); [unfold U64_MAX; lia..|].
  exists ttl. split; [done|]. apply Hx. unfold U64_MAX. lia.
Defined.

(** ** Flags and entries *)

Definition flag_bits : list Z := [FLAG_VALID; FLAG_EVICTING; FLAG_INVALIDATED].

(** A flag test. *)
Definition flag_on (flag f : Z) : bool := negb (Z.land f flag =? 0).

Lemma flag_on_testbit i f : 0 <= i -> 0 <= f -> flag_on (2 ^ i) f = Z.testbit f i.
Proof.
  intros Hi Hf. unfold flag_on.
  assert (E : Z.land f (2 ^ i) = if Z.testbit f i then 2 ^ i else 0).
  { apply Z.bits_inj'. intros n Hn. rewrite Z.land_spec, Z.pow2_bits_eqb by done.
    destruct (Z.eqb_spec i n) as [->|Hne].
    - destruct (Z.testbit f n) eqn:Ef; rewrite ?Z.pow2_bits_eqb, ?Z.eqb_refl, ?Z.bits_0 by done; done.
    - rewrite andb_false_r. destruct (Z.testbit f i); [|by rewrite Z.bits_0].
      rewrite Z.pow2_bits_eqb by done. symmetry. by apply Z.eqb_neq. }
  rewrite E. destruct (Z.testbit f i); [|done].
  assert (0 < 2 ^ i) by (by apply Z.pow_pos_nonneg). by rewrite (proj2 (Z.eqb_neq _ _)) by lia.
Qed.

Lemma flag_bit x : x ∈ flag_bits -> exists i, 0 <= i <= 2 /\ x = 2 ^ i.
Proof.
  unfold flag_bits, FLAG_VALID, FLAG_EVICTING, FLAG_INVALIDATED. intros Hx.
  repeat (apply elem_of_cons in Hx as [->|Hx]); [exists 0|exists 1|exists 2|by apply elem_of_nil in Hx]; done.
Qed.

Lemma u8_bits f : 0 <= f <= U8_MAX <-> 0 <= f /\ forall n, 8 <= n -> Z.testbit f n = false.
Proof.
  unfold U8_MAX. split.
  - intros Hf. split; [lia|]. intros n Hn. apply Z.bits_above_log2; [lia|].
    destruct (Z.eq_dec f 0) as [->|]; [simpl; lia|]. pose proof (Z.log2_le_mono f 255). simpl in *. lia.
  - intros [H0 Hb]. split; [done|]. assert (f = f mod 2 ^ 8) as ->.
    { apply Z.bits_inj'. intros n Hn. rewrite Z.testbit_mod_pow2 by lia.
      destruct (Z.ltb_spec n 8); [done|]. simpl. by apply Hb. }
    pose proof (Z.mod_pos_bound f (2 ^ 8)). lia.
Qed.

(** The three flags are independent bits of the byte: setting one turns it
    on, clearing one turns it off, and neither changes the other two nor leaves
    the byte's range; the three test functions read these bits. *)
Theorem flags_are_independent (f flag other : Z) :
  0 <= f <= U8_MAX -> flag ∈ flag_bits -> other ∈ flag_bits ->
  flag_on other (flags_set flag f) = (flag_on other f || (flag =? other)) /\
  flag_on other (flags_clear flag f) = (flag_on other f && negb (flag =? other)) /\
  0 <= flags_set flag f <= U8_MAX /\ 0 <= flags_clear flag f <= U8_MAX /\
  (flags_is_valid f, flags_is_evicting f, flags_is_invalidated f) =
    (flag_on FLAG_VALID f, flag_on FLAG_EVICTING f, flag_on FLAG_INVALIDATED f).
Proof.
  intros Hf (i & Hi & ->)%flag_bit (j & Hj & ->)%flag_bit.
  assert (Hp : (2 ^ i =? 2 ^ j) = (i =? j)).
  { destruct (Z.eqb_spec i j) as [->|Hne]; [apply Z.eqb_refl|]. apply Z.eqb_neq.
    intros E. apply Hne. apply (Z.pow_inj_r 2); lia. }
  rewrite Hp. destruct (proj1 (u8_bits f) Hf) as [H0 Hbits].
  assert (Hset : 0 <= flags_set (2 ^ i) f <= U8_MAX).
  { apply u8_bits. unfold flags_set. split; [apply Z.lor_nonneg; split; [done|]; by apply Z.pow_nonneg|].
    intros n Hn. rewrite Z.lor_spec, Hbits, Z.pow2_bits_eqb by lia. simpl. apply Z.eqb_neq. lia. }
  assert (Hclear : 0 <= flags_clear (2 ^ i) f <= U8_MAX).
  { apply u8_bits. unfold flags_clear. split; [apply Z.land_nonneg; by left|].
    intros n Hn. by rewrite Z.land_spec, Hbits. }
  rewrite !flag_on_testbit by lia. unfold flags_set, flags_clear. split; [|split; [|split; [exact Hset|split; [exact Hclear|reflexivity]]]].
  - rewrite Z.lor_spec, Z.pow2_bits_eqb by lia. done.
  - rewrite Z.land_spec, Z.lxor_spec, Z.pow2_bits_eqb by lia.
    assert (Z.testbit U8_MAX j = true) as -> by (assert (j = 0 \/ j = 1 \/ j = 2) as [->|[-> | ->]] by lia; done).
    by rewrite xorb_true_r.
Qed.

Lemma flags_are_independent_witness :
  flag_on FLAG_VALID (flags_set FLAG_INVALIDATED 1) = (flag_on FLAG_VALID 1 || (FLAG_INVALIDATED =? FLAG_VALID)) /\
  flag_on FLAG_VALID (flags_clear FLAG_INVALIDATED 1) =
    (flag_on FLAG_VALID 1 && negb (FLAG_INVALIDATED =? FLAG_VALID)) /\
  0 <= flags_set FLAG_INVALIDATED 1 <= U8_MAX /\ 0 <= flags_clear FLAG_INVALIDATED 1 <= U8_MAX /\
  (flags_is_valid 1, flags_is_evicting 1, flags_is_invalidated 1) =
    (flag_on FLAG_VALID 1, flag_on FLAG_EVICTING 1, flag_on FLAG_INVALIDATED 1).
Proof.
  apply (flags_are_independent 1 FLAG_INVALIDATED FLAG_VALID);
    [done|unfold flag_bits; set_solver|unfold flag_bits; set_solver].
Defined.

(** ** The kernel interface *)

(** Command numbers and commands correspond one to one on bytes, every
    command is exactly one of read-only, modifying and configuration, and every
    request carries the header of its command. *)
Theorem ioctl_commands (c : IoctlCommand) (n : Z) :
  from_u8 (as_u8 c) = Some c /\ (from_u8 n = Some c <-> n = as_u8 c) /\
  (if is_readonly c then 1 else 0) + (if is_write c then 1 else 0) + (if is_config c then 1 else 0) = 1 /\
  from_u8 (hd_command (header_new c)) = Some c /\ hd_magic (header_new c) = IOCTL_MAGIC /\
  hd_reserved (header_new c) = 0.
Proof.
  split_and!; [by destruct c| |by destruct c|by destruct c|done|done].
  split; [|intros ->; by destruct c]. unfold from_u8. intros Hn.
  repeat match type of Hn with
    | (if ?b then _ else _) = _ =>
        destruct b eqn:En; [apply Z.eqb_eq in En; injection Hn as <-; exact En|clear En]
    end. done.
Qed.

(** ** Layouts *)

(** Alignments are positive. *)
Fixpoint ctype_ok (t : ctype) : Prop :=
  match t with
  | CInt n => 0 < n
  | CArr t n => ctype_ok t /\ 0 <= n
  | CStruct fields => fold_right (fun t P => ctype_ok t /\ P) True fields
  end.

Lemma align_up_spec x a : 0 < a -> x <= align_up x a < x + a /\ (a | align_up x a).
Proof.
  intros Ha. unfold align_up. pose proof (Z.div_mod (x + a - 1) a). pose proof (Z.mod_pos_bound (x + a - 1) a).
  split; [nia|]. apply Z.divide_factor_r.
Qed.

Lemma max_align_pos (ts : list ctype) : 1 <= fold_right (fun t a => Z.max (align_of t) a) 1 ts.
Proof. induction ts as [|t ts IH]; simpl; lia. Qed.

Lemma ctype_nested_ind (P : ctype -> Prop) :
  (forall n, P (CInt n)) -> (forall t n, P t -> P (CArr t n)) ->
  (forall ts, Forall P ts -> P (CStruct ts)) -> forall t, P t.
Proof.
  intros H1 H2 H3. fix IH 1. intros [n|t n|ts]; [apply H1|apply H2, IH|].
  apply H3. induction ts as [|t ts IHt]; constructor; [apply IH|apply IHt].
Qed.

Lemma align_of_pos t : ctype_ok t -> 0 < align_of t.
Proof.
  induction t as [n|t n IH|ts IH] using ctype_nested_ind; simpl; [done|by intros [? _]; apply IH|].
  intros _. pose proof (max_align_pos ts). lia.
Qed.

(** The end of the last field. *)
Fixpoint fields_end (off : Z) (ts : list ctype) : Z :=
  match ts with
  | [] => off
  | t :: ts => fields_end (align_up off (align_of t) + size_of t) ts
  end.

Lemma size_of_struct ts :
  size_of (CStruct ts) = align_up (fields_end 0 ts) (align_of (CStruct ts)).
Proof.
  reflexivity.
Qed.

Lemma size_of_nonneg t : ctype_ok t -> 0 <= size_of t.
Proof.
  induction t as [n|t n IH|ts IH] using ctype_nested_ind; intros Hok.
  - simpl in *. lia.
  - simpl in *. destruct Hok. specialize (IH ltac:(done)). nia.
  - rewrite size_of_struct. pose proof (max_align_pos ts).
    destruct (align_up_spec (fields_end 0 ts) (align_of (CStruct ts))) as [Ha _]; [simpl; lia|].
    assert (Hmono : forall off, 0 <= off -> 0 <= fields_end off ts); [|specialize (Hmono 0); lia].
    clear Ha. simpl in Hok. induction IH as [|t ts Ht IH IHts]; intros off Hoff; [done|].
    simpl in *. destruct Hok as [Hok1 Hok2]. pose proof (align_of_pos t Hok1).
    destruct (align_up_spec off (align_of t)) as [? _]; [done|]. specialize (Ht Hok1).
    apply IHts; try done; try apply max_align_pos; lia.
Qed.

(** The fields of a struct, each at its offset with its size, in order. *)
Fixpoint laid_out (off : Z) (os : list Z) (ts : list ctype) : Prop :=
  match os, ts with
  | [], [] => True
  | o :: os, t :: ts =>
      off <= o < off + align_of t /\ (align_of t | o) /\ laid_out (o + size_of t) os ts
  | _, _ => False
  end.

Lemma offsets_laid_out off ts :
  fold_right (fun t P => ctype_ok t /\ P) True ts -> laid_out off (offsets off ts) ts.
Proof.
  revert off. induction ts as [|t ts IH]; intros off Hok; simpl in *; [done|].
  destruct Hok as [Ht Hts]. pose proof (align_of_pos t Ht).
  destruct (align_up_spec off (align_of t)) as [? ?]; [done|]. split_and!; [lia|lia|done|by apply IH].
Qed.

Lemma align_of_divides t : ctype_ok t -> (align_of t | size_of t).
Proof.
  induction t as [n|t n IH|ts IH] using ctype_nested_ind; intros Hok.
  - apply Z.divide_refl.
  - simpl. destruct Hok. apply Z.divide_mul_l. by apply IH.
  - rewrite size_of_struct. apply align_up_spec. by apply align_of_pos.
Qed.

(** The documented size of every structure that crosses the boundary. *)
Definition documented_sizes : list (ctype * Z) :=
  [(key_type, 258); (value_type, 1026); (metadata_type, 40); (entry_type, 1328); (header_type, 4);
   (read_request_type, 262); (read_response_type, 1032); (promote_request_type, 1304);
   (promote_response_type, 8); (batch_entry_type, 1304); (batch_request_type, 1304008);
   (batch_response_type, 134); (demote_request_type, 262); (invalidate_request_type, 272);
   (stats_type, 104); (stats_response_type, 112); (config_request_type, 40); (empty_request_type, 4)].

(** Every structure of the kernel interface has its documented size; in any
    [repr(C)] structure the fields lie one after the other, each at the first
    multiple of its alignment, all within the structure, whose size is a multiple
    of its alignment. *)
Theorem layouts_match_documentation (ts : list ctype) :
  ctype_ok (CStruct ts) ->
  forallb (fun '(t, n) => size_of t =? n) documented_sizes = true /\
  laid_out 0 (offsets 0 ts) ts /\ fields_end 0 ts <= size_of (CStruct ts) /\
  (align_of (CStruct ts) | size_of (CStruct ts)).
Proof.
  intros Hok. split; [vm_compute; done|]. split; [by apply offsets_laid_out|].
  split; [|by apply align_of_divides]. rewrite size_of_struct.
  destruct (align_up_spec (fields_end 0 ts) (align_of (CStruct ts))) as [? _]; [by apply align_of_pos|lia].
Qed.

Lemma layouts_match_documentation_witness :
  forallb (fun '(t, n) => size_of t =? n) documented_sizes = true /\
  laid_out 0 (offsets 0 [key_type; value_type; metadata_type]) [key_type; value_type; metadata_type] /\
  fields_end 0 [key_type; value_type; metadata_type] <= size_of entry_type /\
  (align_of entry_type | size_of entry_type).
Proof.
  apply (layouts_match_documentation [key_type; value_type; metadata_type]).
  simpl. repeat split; done.
Defined.
