(* ===== verification/Texts.v ===== *)
(** * Texts of the types (the [Display] and [Debug] instances)

    hkv-common/src/types.rs ([Key], [Value], [Entry]), ioctl.rs ([IoctlCommand]) and
    hkv-client/src/client.rs ([ClientError]).  A formatter is the text it has
    received; [{:?}] is the compact form. *)

From S2P Require Import Prelude Decimal HkvError Utf8 CommonTypes CommonProtocol ClientResp.

(** ** [{:?}] of a [str] *)

(** The standard library's Unicode tables; their ASCII part. *)
Class UnicodeTables := {
  grapheme_extended : Z -> bool;
  is_printable : Z -> bool;
  ascii_tables : forall c, 32 <= c <= 126 -> grapheme_extended c = false /\ is_printable c = true
}.

(** Lower-case hexadecimal digits, least significant first. *)
Fixpoint hex_rev (fuel : nat) (n : Z) : bytes :=
  match fuel with
  | O => []
  | S f =>
      let d := n mod 16 in
      (if d <? 10 then 48 + d else 87 + d) :: (if n / 16 =? 0 then [] else hex_rev f (n / 16))
  end.

(** A code point has six digits at most. *)
Definition escape_unicode (c : Z) : bytes := bs "\u{" ++ reverse (hex_rev 6 c) ++ bs "}".

(** [char::escape_debug_ext] as [str]'s [Debug] calls it. *)
Definition escape_debug `{UnicodeTables} (c : Z) : bytes :=
  if c =? 0 then bs "\0"
  else if c =? 9 then bs "\t"
  else if c =? 13 then bs "\r"
  else if c =? 10 then bs "\n"
  else if c =? 92 then [92; 92]
  else if c =? 34 then [92; 34]
  else if grapheme_extended c then escape_unicode c
  else if is_printable c then encode_utf8 c
  else escape_unicode c.

Definition str_debug `{UnicodeTables} (s : bytes) : bytes := [34] ++ mjoin (escape_debug <$> chars s) ++ [34].

(** ** Keys, values, entries *)

(** [Display for Key]. *)
Definition key_display (k : Key) : outcome bytes :=
  data ← key_as_bytes k;
  Ret (from_utf8_lossy data).

Section debug.
Context `{UnicodeTables}.

(** [Debug for Key]. *)
Definition key_debug (k : Key) : outcome bytes :=
  data ← key_as_bytes k;
  Ret (bs "Key(" ++ str_debug (from_utf8_lossy data) ++ bs ")").

(** [Debug for Value]. *)
Definition value_debug (v : Value) : outcome bytes :=
  if value_length v <=? 32 then
    data ← value_as_bytes v;
    Ret (bs "Value(" ++ str_debug (from_utf8_lossy data) ++ bs ")")
  else Ret (bs "Value(" ++ decimal (value_length v) ++ bs "B)").

(** A derived [Debug] of a one-field tuple struct. *)
Definition tuple_debug (name : bytes) (n : Z) : bytes := name ++ bs "(" ++ decimal n ++ bs ")".

(** [Debug for Entry]. *)
Definition entry_debug (e : CacheEntry) : outcome bytes :=
  key ← key_debug (ce_key e);
  value ← value_debug (ce_value e);
  let m := ce_metadata e in
  Ret (bs "Entry { key: " ++ key ++ bs ", value: " ++ value ++
       bs ", version: " ++ tuple_debug (bs "Version") (md_version m) ++
       bs ", ttl: " ++ tuple_debug (bs "Ttl") (md_ttl m) ++
       bs ", flags: " ++ tuple_debug (bs "EntryFlags") (md_flags m) ++ bs " }").

End debug.

(** ** Commands and client errors *)

(** [Display for IoctlCommand]. *)
Definition command_display (c : IoctlCommand) : bytes := bs (command_name c).

(** [std::io::Error]'s [Display] is the operating system's text. *)
Class IoErrorText := io_error_text : io_error -> bytes.

(** [Display for ClientError]. *)
Definition client_error_display `{IoErrorText} (e : ClientError) : bytes :=
  match e with
  | ClientError_Io err => bs "io error: " ++ io_error_text err
  | ClientError_Protocol => bs "protocol error"
  | ClientError_Server message => bs "server error: " ++ from_utf8_lossy message
  | ClientError_UnexpectedResponse => bs "unexpected response"
  | ClientError_PoolExhausted => bs "connection pool exhausted"
  | ClientError_InvalidAddress => bs "invalid address"
  end.

(** [From<std::io::Error> for ClientError]. *)
Definition client_error_from (err : io_error) : ClientError := ClientError_Io err.
