(* ===== verification/TextClaims.v ===== *)
(** * Properties of the texts

    What the [Display] and [Debug] instances show of keys, values and errors. *)

From S2P Require Import Prelude Decimal HkvError Utf8 CommonTypes CommonProtocol CommonClaims ClientResp Texts.

(** Printable ASCII without the quote and the backslash. *)
Definition plain (b : Z) : bool := (32 <=? b) && (b <=? 126) && negb (b =? 34) && negb (b =? 92).

Lemma plain_range b : plain b = true -> 32 <= b <= 126 /\ b ≠ 34 /\ b ≠ 92.
Proof. unfold plain. rewrite !andb_true_iff, !negb_true_iff, !Z.leb_le, !Z.eqb_neq. lia. Qed.

(** Plain text is quoted as it is. *)
Lemma str_debug_plain `{UnicodeTables} s : Forall (fun b => plain b = true) s -> str_debug s = [34] ++ s ++ [34].
Proof.
  intros Hs. assert (Hchars : forallb is_char s = true /\ utf8 s = s /\ mjoin (escape_debug <$> s) = s).
  { induction Hs as [|b s Hb%plain_range Hs (IH1 & IH2 & IH3)]; [done|].
    assert (Henc : encode_utf8 b = [b]) by (unfold encode_utf8; zcase; done).
    split_and!.
    - cbn. rewrite IH1, andb_true_r. unfold is_char. by zcase.
    - change (utf8 (b :: s)) with (encode_utf8 b ++ utf8 s). by rewrite IH2, Henc.
    - csimpl. rewrite IH3. destruct (ascii_tables b ltac:(lia)) as [Hg Hp].
      assert (He : escape_debug b = [b]); [|by rewrite He]. unfold escape_debug. rewrite Hg, Hp, Henc. by zcase. }
  destruct Hchars as (Hc & Hu & Hm). unfold str_debug. rewrite <- Hu at 1. by rewrite chars_utf8, Hm.
Qed.

Lemma plain_ascii s : Forall (fun b => plain b = true) s -> is_str s.
Proof. intros Hs. apply is_str_ascii. eapply Forall_impl; [exact Hs|]. intros b Hb%plain_range. lia. Qed.

(** C34: whatever bytes a key of at most 256 bytes holds, it is displayed as valid
    UTF-8, and as exactly its content if that is valid UTF-8; [{:?}] of a key of plain
    ASCII quotes its content, and so does [{:?}] of such a value of at most 32 bytes;
    [{:?}] of a value of 33 to 1024 bytes shows nothing but its length. *)
Theorem texts_show_content `{UnicodeTables} (kdata vdata : bytes) :
  byte_range kdata -> zlen kdata <= MAX_KEY_SIZE -> zlen vdata <= MAX_VALUE_SIZE ->
  exists k v t, key_new kdata = Ret (Ok k) /\ value_new vdata = Ret (Ok v) /\
    key_display k = Ret t /\ is_str t /\ (is_str kdata -> t = kdata) /\
    (Forall (fun b => plain b = true) kdata ->
      key_debug k = Ret (bs "Key(" ++ [34] ++ kdata ++ [34] ++ bs ")")) /\
    (zlen vdata <= 32 -> Forall (fun b => plain b = true) vdata ->
      value_debug v = Ret (bs "Value(" ++ [34] ++ vdata ++ [34] ++ bs ")")) /\
    (32 < zlen vdata -> value_debug v = Ret (bs "Value(" ++ decimal (zlen vdata) ++ bs "B)")).
Proof.
  intros Hb Hlen Hvlen. destruct (key_new_ok kdata Hlen) as (k & Ek & Ekb & _).
  destruct (value_new_ok vdata Hvlen) as (v & Ev & Evb & Evl & _).
  exists k, v, (from_utf8_lossy kdata).
  split_and!; [done|done| |by apply from_utf8_lossy_str|by apply from_utf8_lossy_id| | |].
  - unfold key_display. by rewrite Ekb.
  - intros Hp. unfold key_debug. rewrite Ekb. cbn [mbind outcome_bind].
    rewrite from_utf8_lossy_id by by apply plain_ascii. rewrite str_debug_plain by done. by rewrite <- !app_assoc.
  - intros Hl Hp. unfold value_debug. rewrite Evl, (proj2 (Z.leb_le _ _)), Evb by done. cbn [mbind outcome_bind].
    rewrite from_utf8_lossy_id by by apply plain_ascii. rewrite str_debug_plain by done. by rewrite <- !app_assoc.
  - intros Hl. unfold value_debug. rewrite Evl. by rewrite (proj2 (Z.leb_gt _ _)).
Qed.

#[local] Instance demo_tables : UnicodeTables := {|
  grapheme_extended := fun _ => false;
  is_printable := fun c => between 32 c 126;
  ascii_tables := fun c Hc => conj eq_refl (between_true _ _ _ Hc)
|}.

(** The bytes of "gr", u-umlaut, and a byte that is no text. *)
Definition demo_bytes : bytes := [103; 114; 195; 188; 255].

Lemma texts_show_content_witness :
  exists k v t, key_new demo_bytes = Ret (Ok k) /\ key_display k = Ret t /\ is_str t /\
    t = [103; 114; 195; 188] ++ encode_utf8 REPLACEMENT /\
    value_new (replicate 1000 65) = Ret (Ok v) /\ value_debug v = Ret (bs "Value(1000B)").
Proof.
  destruct (texts_show_content demo_bytes (replicate 1000 65)) as (k & v & t & Ek & Ev & Et & Hs & _ & _ & _ & Hv);
    [repeat constructor; done|done|done|].
  exists k, v, t. split_and!; [done..| |done|by apply Hv]. vm_compute in Ek. injection Ek as <-.
  vm_compute in Et. injection Et as <-. reflexivity.
Defined.

(** [{:?}] escapes what is not plain. *)
Lemma debug_escapes : forall k, key_new [97; 34; 10; 255] = Ret (Ok k) ->
  key_debug k = Ret (bs "Key(" ++ [34; 97; 92; 34; 92; 110] ++ bs "\u{fffd}" ++ [34] ++ bs ")").
Proof. intros k Ek. vm_compute in Ek. injection Ek as <-. vm_compute. reflexivity. Qed.
