(* ===== verification/CommonTests.v ===== *)
(** * The unit tests of hkv-common ([mod tests] of error.rs, types.rs, ioctl.rs, protocol.rs)

    One definition per test; a failed assertion is a panic. *)

From S2P Require Import Prelude Assertions HkvError Utf8 CommonTypes CommonProtocol ClientResp Texts.

#[local] Instance category_eq_dec : EqDecision HkvErrorCategory.
Proof. solve_decision. Defined.
#[local] Instance key_rec_eq_dec : EqDecision Key.
Proof. solve_decision. Defined.
#[local] Instance header_eq_dec : EqDecision IoctlHeader.
Proof. solve_decision. Defined.
#[local] Instance stats_eq_dec : EqDecision CacheStats.
Proof. solve_decision. Defined.

(** [assert_eq!] on keys and values, by their [PartialEq]. *)
Definition assert_key_eq (a b : Key) : outcome unit := x ← key_eq a b; assert x.
Definition assert_value_eq (a b : Value) : outcome unit := x ← value_eq a b; assert x.

(** ** error.rs *)

Definition maps_error_categories : outcome unit :=
  _ ← assert_eq (category HkvError.InvalidInput) Client;
  _ ← assert_eq (category OutOfMemory) Server;
  _ ← assert_eq (category Busy) Transient;
  assert_eq (category VersionMismatch) Protocol.

Definition retryable_only_for_transient : outcome unit :=
  _ ← assert (error_is_retryable Busy);
  assert (negb (error_is_retryable HkvError.InvalidInput)).

Definition converts_from_code : outcome unit :=
  _ ← assert_eq (from_code 1) (Some HkvError.InvalidInput);
  assert_eq (from_code 99) None.

(** ** types.rs *)

Definition test_key_creation : outcome unit :=
  let data := bs "test_key" in
  r ← key_new data; key ← unwrap r;
  x ← key_as_bytes key; _ ← assert_eq x data;
  _ ← assert_eq (key_length key) 8;
  assert (negb (key_is_empty key)).

Definition is_error {A : Type} (e : HkvError) (r : HkvResult A) : bool :=
  match r with Err e' => bool_decide (e' = e) | Ok _ => false end.

Definition test_key_max_size : outcome unit :=
  let data := replicate (Z.to_nat MAX_KEY_SIZE) 120 in
  r ← key_new data; key ← unwrap r;
  _ ← assert_eq (key_length key) MAX_KEY_SIZE;
  let data := replicate (Z.to_nat (MAX_KEY_SIZE + 1)) 120 in
  r ← key_new data; assert (is_error KeyTooLong r).

Definition test_value_creation : outcome unit :=
  let data := bs "test_value" in
  r ← value_new data; value ← unwrap r;
  x ← value_as_bytes value; _ ← assert_eq x data;
  _ ← assert_eq (value_length value) 10;
  assert (negb (value_is_empty value)).

Definition test_value_max_size : outcome unit :=
  let data := replicate (Z.to_nat MAX_VALUE_SIZE) 120 in
  r ← value_new data; value ← unwrap r;
  _ ← assert_eq (value_length value) MAX_VALUE_SIZE;
  let data := replicate (Z.to_nat (MAX_VALUE_SIZE + 1)) 120 in
  r ← value_new data; assert (is_error ValueTooLong r).

Definition test_version : outcome unit :=
  let v := VERSION_ZERO in
  _ ← assert_eq (version_get v) 0;
  let '(_, v) := version_increment v in
  _ ← assert_eq (version_get v) 1;
  let next := version_next v in
  _ ← assert_eq (version_get next) 2;
  assert_eq (version_get v) 1.

Definition test_ttl : outcome unit :=
  let ttl := TTL_INFINITE in
  _ ← assert (ttl_is_infinite ttl);
  _ ← assert (negb (ttl_is_expired ttl (U64_MAX - 1)));
  let ttl := ttl_from_nanos 1000 in
  _ ← assert (negb (ttl_is_infinite ttl));
  _ ← assert (ttl_is_expired ttl 1001);
  assert (negb (ttl_is_expired ttl 999)).

Definition test_entry_flags : outcome unit :=
  let flags := flags_empty in
  _ ← assert (negb (flags_is_valid flags));
  let flags := flags_set FLAG_VALID flags in
  _ ← assert (flags_is_valid flags);
  let flags := flags_set FLAG_INVALIDATED flags in
  _ ← assert (flags_is_invalidated flags);
  _ ← assert (flags_is_valid flags);
  let flags := flags_clear FLAG_VALID flags in
  _ ← assert (negb (flags_is_valid flags));
  assert (flags_is_invalidated flags).

(** The wall clock reads [now] when the entry is made, [now'] when it is asked. *)
Definition test_entry_creation (now now' : Z) : outcome unit :=
  r ← key_new (bs "key1"); key ← unwrap r;
  r ← value_new (bs "value1"); value ← unwrap r;
  let entry := entry_new key value VERSION_ZERO TTL_INFINITE now in
  _ ← assert_key_eq (ce_key entry) key;
  _ ← assert_value_eq (ce_value entry) value;
  _ ← assert_eq (md_version (ce_metadata entry)) VERSION_ZERO;
  assert (entry_is_valid now' entry).

Definition test_entry_metadata (now now' : Z) : outcome unit :=
  let metadata := metadata_new (version_new 5) TTL_INFINITE 10 20 now in
  _ ← assert_eq (version_get (md_version metadata)) 5;
  _ ← assert_eq (md_key_len metadata) 10;
  _ ← assert_eq (md_value_len metadata) 20;
  _ ← assert (flags_is_valid (md_flags metadata));
  let accessed_before := md_accessed_at metadata in
  let metadata := metadata_touch now' metadata in
  assert (accessed_before <? md_accessed_at metadata).

Definition test_entry_size (now : Z) : outcome unit :=
  r ← key_new (bs "k"); key ← unwrap r;
  r ← value_new (bs "v"); value ← unwrap r;
  let entry := entry_new key value VERSION_ZERO TTL_INFINITE now in
  assert_eq (cache_entry_size entry) 1328.

Definition test_struct_sizes : outcome unit :=
  _ ← assert_eq (size_of key_type) 258;
  _ ← assert_eq (size_of value_type) 1026;
  _ ← assert_eq (size_of metadata_type) 40;
  assert_eq (size_of entry_type) 1328.

(** ** ioctl.rs *)

(** A test in a [for] loop. *)
Fixpoint for_each {A : Type} (l : list A) (f : A -> outcome unit) : outcome unit :=
  match l with [] => Ret tt | x :: l => _ ← f x; for_each l f end.

Definition test_command_conversion : outcome unit :=
  let commands := [IoctlRead; IoctlPromote; IoctlBatchPromote; IoctlDemote; IoctlInvalidate; IoctlStats; IoctlConfig; IoctlFlush] in
  for_each commands (fun cmd =>
    let num := as_u8 cmd in
    let back := from_u8 num in
    assert_eq (Some cmd) back).

Definition test_invalid_command : outcome unit :=
  _ ← assert_eq (from_u8 255) None;
  assert_eq (from_u8 99) None.

Definition test_command_classification : outcome unit :=
  _ ← assert (is_readonly IoctlRead);
  _ ← assert (is_readonly IoctlStats);
  _ ← assert (negb (is_write IoctlRead));
  _ ← assert (is_write IoctlPromote);
  _ ← assert (is_write IoctlDemote);
  _ ← assert (is_write IoctlInvalidate);
  _ ← assert (is_write IoctlFlush);
  _ ← assert (negb (is_readonly IoctlPromote));
  _ ← assert (is_config IoctlConfig);
  assert (negb (is_config IoctlRead)).

Definition test_command_names : outcome unit :=
  _ ← assert_eq (command_name IoctlRead) "READ"%string;
  _ ← assert_eq (command_name IoctlPromote) "PROMOTE"%string;
  assert_eq (command_name IoctlBatchPromote) "BATCH_PROMOTE"%string.

Definition test_command_display : outcome unit := assert_eq (command_display IoctlRead) (bs "READ").

Definition test_magic_number : outcome unit :=
  _ ← assert_eq [IOCTL_MAGIC] (bs "H");
  assert_eq IOCTL_MAGIC 0x48.

Definition test_command_uniqueness : outcome unit :=
  let numbers := [CMD_READ; CMD_PROMOTE; CMD_BATCH_PROMOTE; CMD_DEMOTE; CMD_INVALIDATE; CMD_STATS; CMD_CONFIG; CMD_FLUSH] in
  for_each (seq 0 (length numbers)) (fun i =>
    for_each (seq (i + 1) (length numbers - (i + 1))) (fun j =>
      x ← unwrap_some (numbers !! i);
      y ← unwrap_some (numbers !! j);
      assert (negb (x =? y)))).

(** ** protocol.rs *)

Definition test_ioctl_header_new : outcome unit :=
  let header := header_new IoctlRead in
  _ ← assert_eq (hd_magic header) IOCTL_MAGIC;
  _ ← assert_eq (hd_version header) PROTOCOL_VERSION;
  _ ← assert_eq (hd_command header) (as_u8 IoctlRead);
  assert_eq (hd_reserved header) 0.

Definition test_ioctl_header_size : outcome unit := assert_eq (size_of header_type) 4.

Definition test_read_request_new : outcome unit :=
  r ← key_new (bs "alpha"); key ← unwrap r;
  let request := read_request_new key in
  _ ← assert_eq (rr_header request) (header_new IoctlRead);
  assert_key_eq (rr_key request) key.

Definition test_read_response_new : outcome unit :=
  r ← value_new (bs "beta"); value ← unwrap r;
  let response := read_response_new STATUS_OK value in
  _ ← assert_eq (rp_header response) (header_new IoctlRead);
  _ ← assert_eq (rp_status response) STATUS_OK;
  assert_value_eq (rp_value response) value.

Definition test_read_struct_sizes : outcome unit :=
  _ ← assert_eq (size_of read_request_type) 262;
  assert_eq (size_of read_response_type) 1032.

Definition test_promote_request_new : outcome unit :=
  r ← key_new (bs "alpha"); key ← unwrap r;
  r ← value_new (bs "beta"); value ← unwrap r;
  let request := promote_request_new key value VERSION_ZERO TTL_INFINITE in
  _ ← assert_eq (pr_header request) (header_new IoctlPromote);
  _ ← assert_key_eq (pr_key request) key;
  _ ← assert_value_eq (pr_value request) value;
  _ ← assert_eq (pr_version request) VERSION_ZERO;
  assert_eq (pr_ttl request) TTL_INFINITE.

Definition test_promote_response_new : outcome unit :=
  let response := promote_response_new STATUS_OK in
  _ ← assert_eq (pp_header response) (header_new IoctlPromote);
  _ ← assert_eq (pp_status response) STATUS_OK;
  assert_eq (pp_reserved response) 0.

Definition test_promote_struct_sizes : outcome unit :=
  _ ← assert_eq (size_of promote_request_type) 1304;
  assert_eq (size_of promote_response_type) 8.

Definition test_batch_promote_entry_size : outcome unit := assert_eq (size_of batch_entry_type) 1304.

Definition test_batch_promote_response_new (p : profile) : outcome unit :=
  response ← batch_response_new p 10;
  _ ← assert_eq (bp_header response) (header_new IoctlBatchPromote);
  _ ← assert_eq (bp_count response) 10;
  _ ← assert_eq (bp_reserved response) 0;
  assert_eq (zlen (bp_results response)) BATCH_RESULT_BYTES.

Definition test_batch_promote_struct_sizes : outcome unit :=
  _ ← assert_eq (size_of batch_request_type) 1304008;
  assert_eq (size_of batch_response_type) 134.

Definition test_demote_request_new : outcome unit :=
  r ← key_new (bs "alpha"); key ← unwrap r;
  let request := demote_request_new key in
  _ ← assert_eq (dr_header request) (header_new IoctlDemote);
  assert_key_eq (dr_key request) key.

Definition test_invalidate_request_new : outcome unit :=
  r ← key_new (bs "alpha"); key ← unwrap r;
  let request := invalidate_request_new key (version_new 42) in
  _ ← assert_eq (ir_header request) (header_new IoctlInvalidate);
  _ ← assert_key_eq (ir_key request) key;
  assert_eq (ir_version request) (version_new 42).

Definition test_demote_invalidate_sizes : outcome unit :=
  _ ← assert_eq (size_of demote_request_type) 262;
  assert_eq (size_of invalidate_request_type) 272.

Definition test_stats_request_new : outcome unit :=
  assert_eq (sq_header stats_request_new) (header_new IoctlStats).

Definition test_stats_response_new : outcome unit :=
  let stats := mkStats 1 2 3 4 5 6 7 8 9 10 11 12 13 in
  let response := stats_response_new STATUS_OK stats in
  _ ← assert_eq (sp_header response) (header_new IoctlStats);
  _ ← assert_eq (sp_status response) STATUS_OK;
  _ ← assert_eq (sp_reserved response) 0;
  assert_eq (sp_stats response) stats.

Definition test_stats_struct_sizes : outcome unit :=
  _ ← assert_eq (size_of stats_type) 104;
  _ ← assert_eq (size_of empty_request_type) 4;
  assert_eq (size_of stats_response_type) 112.

Definition test_config_request_new : outcome unit :=
  let request := config_request_new 256 100 80 70 in
  _ ← assert_eq (cr_header request) (header_new IoctlConfig);
  _ ← assert_eq (cr_max_bytes request) 256;
  _ ← assert_eq (cr_max_entries request) 100;
  _ ← assert_eq (cr_high_watermark request) 80;
  _ ← assert_eq (cr_low_watermark request) 70;
  assert_eq (cr_reserved request) 0.

Definition test_flush_request_new : outcome unit :=
  assert_eq (fr_header flush_request_new) (header_new IoctlFlush).

Definition test_config_flush_sizes : outcome unit :=
  _ ← assert_eq (size_of config_request_type) 40;
  assert_eq (size_of empty_request_type) 4.

(** ** All of them *)

(** The tests that do not read the clock. *)
Definition common_tests (p : profile) : list (outcome unit) :=
  [maps_error_categories; retryable_only_for_transient; converts_from_code;
   test_key_creation; test_key_max_size; test_value_creation; test_value_max_size; test_version; test_ttl;
   test_entry_flags; test_struct_sizes;
   test_command_conversion; test_invalid_command; test_command_classification; test_command_names;
   test_command_display; test_magic_number; test_command_uniqueness;
   test_ioctl_header_new; test_ioctl_header_size; test_read_request_new; test_read_response_new;
   test_read_struct_sizes; test_promote_request_new; test_promote_response_new; test_promote_struct_sizes;
   test_batch_promote_entry_size; test_batch_promote_response_new p; test_batch_promote_struct_sizes;
   test_demote_request_new; test_invalidate_request_new; test_demote_invalidate_sizes; test_stats_request_new;
   test_stats_response_new; test_stats_struct_sizes; test_config_request_new; test_flush_request_new;
   test_config_flush_sizes].

Lemma common_tests_pass p : Forall (fun t => t = Ret tt) (common_tests p).
Proof. destruct p; vm_compute; repeat constructor. Qed.

Lemma test_entry_creation_passes now now' : test_entry_creation now now' = Ret tt.
Proof. vm_compute. reflexivity. Qed.

Lemma test_entry_size_passes now : test_entry_size now = Ret tt.
Proof. vm_compute. reflexivity. Qed.

(** The wall clock must move between the two readings, and not wrap around. *)
Lemma test_entry_metadata_passes now now' : 0 <= now < now' -> now' <= U64_MAX -> test_entry_metadata now now' = Ret tt.
Proof.
  intros Hn Hm. assert (E : (now_nanos now <? now_nanos now') = true).
  { unfold now_nanos. rewrite !wrap64_small by (change USIZE_MAX with U64_MAX; lia). apply Z.ltb_lt. lia. }
  unfold test_entry_metadata. cbn [md_accessed_at metadata_new metadata_touch]. rewrite E. vm_compute. reflexivity.
Qed.
