(* ===== verification/CodecTests.v ===== *)
(** * The unit tests of the codecs and the metrics

    [mod tests] of hkv-server/src/protocol.rs, hkv-server/src/metrics.rs and
    hkv-client/src/resp.rs; a failed assertion or [unwrap] is a panic. *)

From S2P Require Import Prelude Assertions Decimal RespParser RespParserInv ClientResp ClientRespInv Metrics.
From S2P Require Import Server ServerSpec ServerConn ServerSession.
From Stdlib Require Import SpecFloat.

(** ** hkv-server/src/protocol.rs *)

Section parser_tests.
Context `{BytesMut} (p : profile).

(** [cmd[i]]. *)
Definition arg_at (cmd : command) (i : nat) : M (RespParser * bytes) bytes := unwrap_some (cmd !! i).

Definition parses_simple_get : outcome unit :=
  let buf := bs "*2" ++ crlf ++ bs "$3" ++ crlf ++ bs "GET" ++ crlf ++ bs "$3" ++ crlf ++ bs "key" ++ crlf in
  ((r ← parse p; o ← unwrap r; cmd ← unwrap_some o;
    _ ← assert_eq (length cmd) 2%nat;
    a ← arg_at cmd 0; _ ← assert_eq a (bs "GET");
    a ← arg_at cmd 1; assert_eq a (bs "key")) (parser_new, buf)).1.

Definition handles_partial_frames : outcome unit :=
  let buf := bs "*1" ++ crlf ++ bs "$4" ++ crlf ++ bs "PIN" in
  ((r ← parse p; o ← unwrap r; _ ← assert (is_none o);
    _ ← modify (fun s => (s.1, s.2 ++ bs "G" ++ crlf));
    r ← parse p; o ← unwrap r; cmd ← unwrap_some o;
    a ← arg_at cmd 0; assert_eq a (bs "PING")) (parser_new, buf)).1.

(** The frame of a command in the tests' notation. *)
Lemma parses_command args :
  args_sized args -> zlen (command_wire args) <= ISIZE_MAX ->
  exists q', parse p (parser_new, command_wire args) = (Ret (Ok (Some args)), (q', [])).
Proof.
  intros Ha Hz. destruct (parse_frame p parser_new args (command_wire args) []) as (q' & _ & E);
    [done|by apply command_wire_frame|by rewrite app_nil_r|]. rewrite app_nil_r in E. by exists q'.
Qed.

Lemma parses_simple_get_passes : parses_simple_get = Ret tt.
Proof.
  destruct (parses_command [bs "GET"; bs "key"]) as (q' & E); [split; [done|]; repeat constructor; done|done|].
  unfold parses_simple_get. unfold mbind at 1, M_bind at 1. change (bs "*2" ++ _) with (command_wire [bs "GET"; bs "key"]).
  rewrite E. done.
Qed.

(** What the first call leaves: it waits for four bytes and their CRLF. *)
Lemma partial_frame :
  parse p (parser_new, bs "*1" ++ crlf ++ bs "$4" ++ crlf ++ bs "PIN") =
    (Ret (Ok None), (mkParser BulkData [] 1 4, bs "PIN")).
Proof.
  assert (Hw : parser_wf (mkParser BulkLen [] 1 0)) by (split; done).
  rewrite (app_assoc (bs "*1")), (parse_array_header p parser_new (bs "*1" ++ crlf) 1);
    [|done|done|by exists (bs "1")|done|done].
  rewrite parse_unfold by done. change (parse_round p ?x) with (round_at p x.1 x.2). rewrite round_at_state.
  change (line_round bulk_header _ _) with (Ret Continue, (mkParser BulkData [] 1 4, bs "PIN")).
  cbn [ps_state fst snd].
  assert (Hd : parser_wf (mkParser BulkData [] 1 4)) by (split; done).
  rewrite parse_unfold by done. change (parse_round p ?x) with (round_at p x.1 x.2). rewrite round_at_state.
  cbn [ps_state fst snd]. rewrite bulk_data_run by (cbn; unfold USIZE_MAX; lia). done.
Qed.

Lemma handles_partial_frames_passes : handles_partial_frames = Ret tt.
Proof.
  destruct (parses_command [bs "PING"]) as (q' & E); [split; [done|]; repeat constructor; done|done|].
  pose proof (parse_resumes_ok p _ (bs "*1" ++ crlf ++ bs "$4" ++ crlf ++ bs "PIN") parser_new_wf ltac:(done)) as Hr.
  unfold parse_resumes in Hr. rewrite partial_frame in Hr. destruct Hr as (_ & _ & Hr).
  specialize (Hr (bs "G" ++ crlf) ltac:(done)). rewrite <- !app_assoc in Hr.
  change (bs "*1" ++ _) with (command_wire [bs "PING"]) in Hr. rewrite E in Hr.
  unfold handles_partial_frames. rewrite (bind_run _ _ _ _ _ partial_frame).
  cbv [unwrap unwrap_some assert is_none mret M_ret mbind M_bind modify]. cbn [fst snd]. rewrite <- Hr. done.
Qed.

End parser_tests.

(** ** hkv-server/src/metrics.rs *)

(** A decimal literal [m * 10 ^ -k], rounded to the nearest. *)
Definition f64_literal (m k : positive) : f64 :=
  let '(mz, ez, lz) := SFdiv_core_binary 53 1024 (Zpos m) 0 (10 ^ Zpos k) 0 in
  binary_round_aux 53 1024 false mz ez lz.

(** [==] on [Option<f64>]. *)
Definition f64_option_eqb (a b : option f64) : bool :=
  match a, b with
  | None, None => true
  | Some x, Some y => SFeqb x y
  | _, _ => false
  end.

(** [Duration::from_micros]. *)
Definition from_micros (us : Z) : Z := us * 1000.

(** The metrics are created at [t0]; the snapshot is taken at [t1]. *)
Definition snapshot_computes_percentiles_average_and_error_rate (t0 t1 : Z) : outcome unit :=
  let metrics := with_latency_buckets [10; 20; 50; 100] t0 in
  ((_ ← modify record_request_start; _ ← record_request_end (from_micros 9);
    _ ← modify record_request_start; _ ← record_request_end (from_micros 12);
    _ ← modify record_request_start; _ ← record_request_end (from_micros 80);
    _ ← modify record_error;
    snapshot ← gets (fun m => metrics_snapshot m t1);
    _ ← assert_eq (sn_requests_total snapshot) 3;
    _ ← assert_eq (sn_errors_total snapshot) 1;
    _ ← assert_eq (sn_inflight snapshot) 0;
    _ ← assert_eq (ls_samples (sn_latency snapshot)) 3;
    _ ← assert_eq (percentile_us (sn_latency snapshot) (f64_of_u64 50)) (Some 20);
    _ ← assert_eq (percentile_us (sn_latency snapshot) (f64_of_u64 90)) (Some 100);
    _ ← assert_eq (ls_max_us (sn_latency snapshot)) 80;
    _ ← assert (f64_option_eqb (average_us (sn_latency snapshot)) (Some (f64_literal 33666666666666664 15)));
    let third := f64_div (f64_of_u64 1) (f64_of_u64 3) in
    _ ← assert (SFltb (SFabs (SFsub 53 1024 (error_rate snapshot) third)) (f64_literal 1 12));
    assert (SFleb (S754_zero false) (qps snapshot))) metrics).1.

Definition percentile_returns_none_without_samples : outcome unit :=
  let histogram := histogram_new [10; 20; 50] in
  let snapshot := histogram_snapshot histogram in
  _ ← assert (f64_option_eqb (average_us snapshot) None);
  assert_eq (percentile_us snapshot (f64_of_u64 50)) None.

(** Floats that are zero or have no sign: what the arithmetic of [qps] keeps to. *)
Definition nonneg_f64 (x : f64) : Prop :=
  match x with S754_zero _ | S754_infinity false | S754_finite false _ _ => True | _ => False end.

Lemma shr_1_nonneg r : 0 <= shr_m r -> 0 <= shr_m (shr_1 r).
Proof. destruct r as [[|[m|m|]|m] r s]; cbn; lia. Qed.

Lemma shr_nonneg r e n : 0 <= shr_m r -> 0 <= shr_m (shr r e n).1.
Proof.
  intros Hr. destruct n as [|n|n]; cbn; [done| |done]. revert r Hr.
  induction n as [n IH|n IH|]; intros r Hr; cbn; auto using shr_1_nonneg.
Qed.

Lemma round_nearest_even_nonneg m l : 0 <= m -> 0 <= round_nearest_even m l.
Proof. intros Hm. destruct l as [|[]]; cbn; try lia. destruct (Z.even m); lia. Qed.

Lemma round_aux_nonneg m e l : 0 <= m -> nonneg_f64 (binary_round_aux 53 1024 false m e l).
Proof.
  intros Hm. unfold binary_round_aux, shr_fexp.
  assert (Hl : 0 <= shr_m (shr_record_of_loc m l)) by (by destruct l as [|[]]).
  pose proof (shr_nonneg _ e (fexp 53 1024 (Zdigits2 m + e) - e) Hl) as H1.
  destruct (shr _ _ _) as [r1 e1]. cbn [fst] in H1.
  pose proof (round_nearest_even_nonneg _ (loc_of_shr_record r1) H1) as H2.
  set (m2 := round_nearest_even _ _) in *.
  assert (Hl2 : 0 <= shr_m (shr_record_of_loc m2 loc_Exact)) by done.
  pose proof (shr_nonneg _ e1 (fexp 53 1024 (Zdigits2 m2 + e1) - e1) Hl2) as H3.
  destruct (shr _ _ _) as [r2 e2]. cbn [fst] in H3. destruct (shr_m r2); [done| |lia]. by destruct (_ <=? _).
Qed.

Lemma normalize_nonneg m e : 0 <= m -> nonneg_f64 (binary_normalize 53 1024 m e false).
Proof.
  intros Hm. destruct m as [|m|m]; [done| |lia]. cbn [binary_normalize]. unfold binary_round.
  destruct (shl_align _ _ _) as [mz ez]. by apply round_aux_nonneg.
Qed.

Lemma add_nonneg x y : nonneg_f64 x -> nonneg_f64 y -> nonneg_f64 (SFadd 53 1024 x y).
Proof.
  destruct x as [[]|[]| |[] m e], y as [[]|[]| |[] m' e']; try done. intros _ _. cbn [SFadd].
  apply normalize_nonneg. cbn. lia.
Qed.

(** A finite number over one that is not zero. *)
Lemma div_nonneg x m e : nonneg_f64 x -> nonneg_f64 (SFdiv 53 1024 x (S754_finite false m e)).
Proof.
  destruct x as [[]|[]| |[] m' e']; try done. intros _. cbn [SFdiv xorb].
  destruct (SFdiv_core_binary _ _ _ _ _ _) as [[mz ez] lz] eqn:E. apply round_aux_nonneg.
  unfold SFdiv_core_binary in E. cbv zeta in E. set (m0 := match _ with Z0 => _ | _ => _ end) in E.
  assert (Hq : 0 <= m0 / Zpos m).
  { apply Z.div_pos; [|lia]. unfold m0. destruct (_ - _); [lia| |lia]. apply Z.shiftl_nonneg. lia. }
  unfold Z.div in Hq. destruct (Z.div_eucl m0 (Zpos m)) as [q r]. by injection E as <- _ _.
Qed.

Lemma as_secs_nonneg d : 0 <= d -> nonneg_f64 (as_secs_f64 d).
Proof.
  intros Hd. apply add_nonneg; [apply normalize_nonneg, Z.div_pos; lia|].
  change (f64_of_u64 1000000000) with (S754_finite false 8388608000000000 (-23)).
  apply div_nonneg, normalize_nonneg, Z.mod_pos_bound. lia.
Qed.

(** Three requests in any time are no negative rate. *)
Lemma qps_nonneg s : sn_requests_total s = 3 -> 0 <= sn_uptime s -> SFleb (S754_zero false) (qps s) = true.
Proof.
  intros Hr Hu. pose proof (as_secs_nonneg _ Hu) as Hn. unfold qps. cbv zeta. rewrite Hr.
  change (f64_of_u64 3) with (S754_finite false 6755399441055744 (-51)).
  destruct (as_secs_f64 _) as [b|[]| |[] m e]; try done. destruct (SFleb _ EPSILON); [done|].
  pose proof (div_nonneg (S754_finite false 6755399441055744 (-51)) m e I) as Hd. unfold f64_div.
  revert Hd. generalize (SFdiv 53 1024 (S754_finite false 6755399441055744 (-51)) (S754_finite false m e)).
  intros x. by destruct x as [[]|[]| |[]].
Qed.

Lemma snapshot_test_passes t0 t1 : snapshot_computes_percentiles_average_and_error_rate t0 t1 = Ret tt.
Proof.
  unfold snapshot_computes_percentiles_average_and_error_rate.
  pose (m := mkMetrics 3 1 0 (mkHistogram [10; 20; 50; 100] [1; 1; 0; 1; 0] 101 3 80) t0).
  assert (Hq : SFleb (S754_zero false) (qps (metrics_snapshot m t1)) = true) by (apply qps_nonneg; cbn; lia).
  assert (E : forall A (k : M Metrics A),
    (_ ← modify record_request_start; _ ← record_request_end (from_micros 9);
     _ ← modify record_request_start; _ ← record_request_end (from_micros 12);
     _ ← modify record_request_start; _ ← record_request_end (from_micros 80);
     _ ← modify record_error; k) (with_latency_buckets [10; 20; 50; 100] t0) = k m) by done.
  rewrite E. clear E. rewrite (bind_run _ _ _ (metrics_snapshot m t1) m) by done. cbn beta.
  rewrite Hq. vm_compute. reflexivity.
Qed.

Lemma percentile_test_passes : percentile_returns_none_without_samples = Ret tt.
Proof. reflexivity. Qed.

(** ** hkv-client/src/resp.rs *)

#[local] Instance RespValue_eq_dec : EqDecision RespValue.
Proof.
  unfold EqDecision, RelDecision. fix go 1. intros x y.
  destruct x as [s|s|n|o|l], y as [s'|s'|n'|o'|l']; try (right; discriminate).
  - destruct (decide (s = s')); [left|right]; congruence.
  - destruct (decide (s = s')); [left|right]; congruence.
  - destruct (decide (n = n')); [left|right]; congruence.
  - destruct (decide (o = o')); [left|right]; congruence.
  - destruct (@list_eq_dec _ go l l'); [left|right]; congruence.
Defined.

(** [Cursor::new(bytes)]. *)
Definition cursor (data : bytes) : ReadState := mkRead (mkReader data None) [].

Definition encodes_command : outcome unit :=
  buf ← encode_command [bs "GET"; bs "key"] [];
  assert_eq buf (bs "*2" ++ crlf ++ bs "$3" ++ crlf ++ bs "GET" ++ crlf ++ bs "$3" ++ crlf ++ bs "key" ++ crlf).

Section response_tests.
Context `{RespLayout}.

Definition parses_simple_string : outcome unit :=
  ((r ← read_response; resp ← unwrap r; assert_eq resp (Simple (bs "OK"))) (cursor (bs "+OK" ++ crlf))).1.

Definition parses_bulk_string : outcome unit :=
  ((r ← read_response; resp ← unwrap r; assert_eq resp (Bulk (Some (bs "hello"))))
     (cursor (bs "$5" ++ crlf ++ bs "hello" ++ crlf))).1.

Definition parses_null_bulk_string : outcome unit :=
  ((r ← read_response; resp ← unwrap r; assert_eq resp (Bulk None)) (cursor (bs "$-1" ++ crlf))).1.

Definition parses_integer : outcome unit :=
  ((r ← read_response; resp ← unwrap r; assert_eq resp (Integer 42)) (cursor (bs ":42" ++ crlf))).1.

Definition parses_error : outcome unit :=
  ((r ← read_response; resp ← unwrap r; assert_eq resp (Error (bs "ERR bad"))) (cursor (bs "-ERR bad" ++ crlf))).1.

Definition client_codec_tests : list (outcome unit) :=
  [encodes_command; parses_simple_string; parses_bulk_string; parses_null_bulk_string; parses_integer; parses_error].

Lemma client_codec_tests_pass : Forall (fun t => t = Ret tt) client_codec_tests.
Proof. vm_compute. repeat constructor. Qed.

End response_tests.
