(* ===== verification/TestClaims.v ===== *)
(** * The unit tests of the repository, on the model

    Every [#[test]] function of the crates' [mod tests] is a definition of
    [EngineTests], [CommonTests], [CodecTests] or [Placeholders]; here they pass. *)

From S2P Require Import Prelude Assertions Placeholders HkvError Shard Engine EngineTests RespParser ClientResp Metrics.
From S2P Require Import CommonTests CodecTests.

Definition passes (t : outcome unit) : Prop := t = Ret tt.

(** The tests that read no clock, of all crates but the engine's. *)
Definition pure_tests `{BytesMut} `{RespLayout} (p : profile) : list (outcome unit) :=
  common_tests p ++ client_codec_tests ++
  [parses_simple_get p; handles_partial_frames p; percentile_returns_none_without_samples; it_works p].

(** The engine's tests, on the readings [clock] of the clock, that do not sleep, and
    that sleep before their third and before their fifth call; [times] are those of
    the expirer's sweeps. *)
Definition engine_tests `{EngineEnv} (p : profile) (clock : nat -> Z) : list (outcome unit) :=
  [set_get_roundtrip p clock; delete_removes_key p clock; evicts_lru_by_bytes p clock].
Definition sleeping_tests `{EngineEnv} (p : profile) (clock : nat -> Z) (times : list Z) : list (outcome unit) :=
  [expire_hides_value p clock; purge_expired_removes_entries p clock; expirer_thread_clears_expired p clock times].

(** Every unit test of the repository passes, in both build profiles, with any
    hash function and map order, a layout in which four shards fit the address
    space, any receive buffer and response layout that behave as documented, and under every clock that does not run backwards, moves on by the
    time a test sleeps and stays in range; [test_entry_metadata], which does not sleep
    between two readings of the wall clock, passes if they differ. *)
Theorem unit_tests_pass `{EngineEnv} `{BytesMut} `{RespLayout} (p : profile) :
  4 * shard_size <= ISIZE_MAX ->
  Forall passes (pure_tests p) /\
  (forall clock, Forall passes (engine_tests p clock)) /\
  (forall clock times, test_clock clock -> sleeps_before clock 2 -> Forall passes (sleeping_tests p clock times)) /\
  (forall clock, test_clock clock -> sleeps_before clock 4 -> passes (ttl_reports_missing_or_expiry p clock)) /\
  (forall t0 t1, passes (snapshot_computes_percentiles_average_and_error_rate t0 t1)) /\
  (forall now now', passes (test_entry_creation now now') /\ passes (test_entry_size now) /\
     (0 <= now < now' -> now' <= U64_MAX -> passes (test_entry_metadata now now'))).
Proof.
  intros Hfit. split_and!.
  - apply Forall_app_2; [apply common_tests_pass|]. apply Forall_app_2; [apply client_codec_tests_pass|].
    repeat apply Forall_cons_2; [apply parses_simple_get_passes|apply handles_partial_frames_passes|
      apply percentile_test_passes|apply it_works_passes|apply Forall_nil_2].
  - intros clock. repeat apply Forall_cons_2; [by apply set_get_roundtrip_passes|by apply delete_removes_key_passes|
      apply evicts_lru_by_bytes_passes|apply Forall_nil_2].
  - intros clock times Hc Hs. repeat apply Forall_cons_2; [by apply expire_hides_value_passes|
      by apply purge_expired_removes_entries_passes|by apply expirer_thread_clears_expired_passes|apply Forall_nil_2].
  - intros clock Hc Hs. by apply ttl_reports_missing_or_expiry_passes.
  - intros t0 t1. exact (snapshot_test_passes t0 t1).
  - intros now now'. split_and!; [exact (test_entry_creation_passes now now')|exact (test_entry_size_passes now)|].
    exact (test_entry_metadata_passes now now').
Qed.

(** A clock that moves on by six milliseconds at a time, for ten readings. *)
Definition demo_clock (i : nat) : Z := from_millis 6 * Z.of_nat (Nat.min i 10).

Lemma unit_tests_pass_witness :
  let H := demo_env in let H0 := demo_buf in
  let H1 : RespLayout := {| respvalue_size := 32; respvalue_size_min := ltac:(lia) |} in
  test_clock demo_clock /\ sleeps_before demo_clock 2 /\
  Forall passes (sleeping_tests Debug demo_clock [from_millis 9; from_millis 10]) /\
  passes (ttl_reports_missing_or_expiry Release demo_clock).
Proof.
  intros H H0 H1. assert (Hc : test_clock demo_clock).
  { split; intros i; unfold demo_clock, from_millis, INSTANT_MAX, I64_MAX, NANOS_PER_SEC; lia. }
  assert (Hs : forall i, (0 < i <= 10)%nat -> sleeps_before demo_clock i).
  { intros i Hi. unfold sleeps_before, demo_clock, from_millis. lia. }
  split; [done|]. split; [apply Hs; lia|]. split.
  - destruct (@unit_tests_pass H H0 H1 Debug ltac:(done)) as (_ & _ & Hp & _). exact (Hp _ _ Hc (Hs 2%nat ltac:(lia))).
  - destruct (@unit_tests_pass H H0 H1 Release ltac:(done)) as (_ & _ & _ & Hp & _). exact (Hp _ Hc (Hs 4%nat ltac:(lia))).
Defined.
